(* ===== verification/_CoqProject ===== *)
-Q . S2P
Prelude.v
Sha256.v
StowqMath.v
Keys.v
Cbor.v
Records.v
Direct.v
Values.v
Text.v
Store.v
Memory.v
Injector.v
Oracle.v
Effects.v
Rely.v
Queue.v
Claims.v
Sweeps.v
Repair.v
Samples.v
Driver.v
Interleaving.v
Budget.v
Protocol.v
Lifecycle.v
Custody.v
Worker.v
Upkeep.v
Delivery.v
Sessions.v
Runs.v
Histories.v
Outcomes.v
Workers.v
Retention.v
Dates.v
Xml.v
Http.v
S3.v
Bucket.v
Sdk.v
Calm.v
Pages.v
Tracking.v
Agreement.v
Scan.v
Holders.v
Refinement.v
Answers.v
Prediction.v
Differential.v
Verdict.v
Snapshots.v
Cli.v
Commands.v
Bench.v
Relay.v
Demo.v
Findings.v
