(* ===== verification/Prelude.v ===== *)
(** StowQ: a verification development of the brokerless work queue under
    [src/crates/].

    A queue is a key prefix in an object store.  Jobs, claims, receipts and
    dead records are immutable objects, written by conditional creation; the
    store arbitrates.  This development models the Rust crates that implement
    the queue and proves what the protocol promises: from any interleaving of
    any number of clients, against any store that keeps the primitive contract
    (injected transport faults and ambiguous answers included).

    * Parts and files

    Each file opens with the source it models; definitions keep the source's
    names.

    - [Prelude] (this file): scopes, the machine integers' arithmetic
      (saturating, checked, wrapping), bytes, [str] operations, hex and
      big-endian text, the [Result] type and the lemmas they share.
    - [Sha256]: the digest.  It comes from the [sha2] crate and is a parameter
      everywhere (class [Sha256]: a function with 32-byte results); [fips] is an
      instance on which the repository's test vectors are reproduced.
    - [StowqMath] ([stowq-math]): buckets, retry backoff with rejection
      sampling, the effective floor.
    - [Keys] ([stowq-keys]): the key grammar, printing and parsing, shards and
      key tags.
    - [Cbor], [Records], [Direct], [Values] ([stowq-format]): canonical CBOR, the
      record types with the direct writer, the direct decoder, and the generic
      value path that the crate keeps for its tests.
    - [Store] ([stowq-store/src/lib.rs]): the six calls of [ObjectStore] as a
      class of state machines, and the contract of spec/store-profiles.md as a
      relation between a call, a key space, an answer and the next key space.
      [Memory] ([memory.rs]) and [Injector] ([injector.rs]) implement it.
    - [Text]: the [str] and number formatting of the standard library.  [Dates],
      [Xml], [Http] ([stowq-store-http/src/lib.rs] and [xml.rs]): the store
      client over HTTP, from signing to reading a listing.  The network, the
      signing clock and HMAC are parameters.  [S3] states the documented
      behaviour of the service the client talks to; [Bucket] is an executable
      one, with lost requests and responses.
    - [Sdk] ([stowq-store-s3/src/lib.rs]): the store client over the AWS SDK,
      the documented behaviour of the SDK's requests ([SdkService]), and a
      service on the same bucket.
    - [Effects], [Queue], [Claims], [Sweeps], [Repair]
      ([stowq-core/src/lib.rs]): the queue.  An operation is a program over the
      effects it has (store calls, fresh tokens, the monotonic clock), in a
      monad that threads the budget and the handle's caches and stops with the
      code's errors, or with a panic where the code would panic.
    - [Worker] ([stowq-worker/src/lib.rs]): the consumer harness over these
      operations.
    - [Rely], [Protocol]: the concurrent semantics ([exec]) and its program
      logic; the queue's invariant ([Inv]) and what clients grant one another
      ([rely]: authoritative objects never change, [Inv] is kept).
    - [Lifecycle], [Custody], [Upkeep], [Delivery]: every operation of [Queue],
      [Claims], [Sweeps] (but [gc]), [Repair] and [Worker] verified against the
      protocol: each of its store calls is a step the others may rely on, and
      its result means what the postcondition says.
    - [Sessions]: client programs (any use of the operations with the claims
      they handed out) and pools of them; [Samples], [Runs]: concrete queues and
      runs, on which witnesses evaluate.
    - [Budget]: the accounting of [OpBudget].
    - [Histories], [Outcomes], [Workers]: the theorems about the queue.
    - [Retention]: the collector's own logic and theorem.
    - [Oracle], [Driver], [Interleaving] ([stowq-testkit]): the repository's own
      logical oracle of the queue, the seeded driver that compares the queue
      with it, and the lab that interleaves two workers.
    - [Calm], [Pages], [Tracking]: calm runs (one client, a store that answers
      faithfully, nobody in between) and the operations that must succeed in
      them; listings by pages; when a key space says what the oracle says.
    - [Agreement], [Scan], [Holders], [Refinement]: the queue follows the oracle:
      one candidate, the whole scan, the operations of a claim's holder, and
      the theorems.  [Answers]: what the ending operations answer in any key
      space, error by error.
    - [Prediction], [Differential], [Verdict]: the driver's prediction is the
      oracle's scan, its state agrees with the queue's key space through every
      operation, and a run on a fresh memory store ends without a divergence.
    - [Snapshots], [Cli] ([stowq-cli/src/state.rs] and [main.rs]): the command
      line: the machine's files, snapshots of the memory store, handles as
      text, one program per command, and an invocation ([run_command]) that
      loads the queue's file, runs the command and persists.  [Commands] has
      their theorems.  [serde_json] is a parameter with its laws.
    - [Bench] ([stowq-bench/src/main.rs]): the counting and the flaky store, the
      [ops] mode, the cycles, the soak's executor, producer and verdict.
    - [Relay] ([stowq-worker]'s doorbells and printed metrics,
      [stowq-worker-wasm/src/lib.rs]): the edge relay, which sweeps a queue over
      the HTTP client; the Worker runtime is a parameter ([EdgeFetch]) whose
      documented behaviour [EdgeService] states.
    - [Demo] ([stowq-demo/src/main.rs]): the demo's arguments, its worker's loop
      and its driver; what killed and final children leave is an input.
    - [Findings]: evaluated scenarios in which the code departs from what it or
      its documentation says.

    * What is shown

    - Histories ([Histories]): pools keep the invariant and never alter an
      authoritative object; claim chains have no gaps and every link passes the
      auditor's own admissibility check; attempts count custodies and respect
      the job's maximum; terminal records are backed by claim records; payloads
      are present with the digest the job states.
    - Outcomes ([Outcomes], [Workers]): what each returned value promises, at
      any later time, under interference: enqueue, claim, renew, output commit,
      acknowledgement, nack, bury, and the harness's delivery and batch
      reports; custody of a generation is exclusive.
    - Collection ([Retention]): no interleaving and no fault lets [gc] delete an
      object of a job whose record is there and whose terminal records are not
      older than the retention.
    - Resources ([Budget], [Workers]): entry points make no more store calls
      than the budget they consume, and end.
    - The store ([Memory], [Injector], [S3], [Sdk]): the memory store, the fault
      injector, and the HTTP and SDK clients over any S3 service refine the
      contract (a client may also report a profile violation, changing nothing);
      listings and dates are read back exactly ([Xml], [Dates]); pagination is
      complete; times and versions increase; snapshots restore.
    - Formats ([Direct], [Values], [Cbor], [Keys]): decoding accepts exactly the
      canonical encodings, encoding round-trips, the direct writer and decoder
      equal the value path, keys print and parse uniquely and in numeric order.
    - The oracle ([Oracle]): its states are well-typed, terminal phases are
      final, its predictions hold.  [Driver] and [Interleaving] are executable:
      their seeds run inside the development.
    - Refinement of the oracle ([Refinement]): in calm runs the claim scan
      exhausts, skips and claims what the oracle's scan does, a claimable job
      is claimed, and the holder's operations end as the oracle's do; the key
      space tracks the oracle throughout.  Handles with tail hints or a skew
      guard are outside these theorems (the oracle knows neither).
    - Errors ([Answers]): in calm runs from any key space, [ack_with_outputs],
      [bury] and [commit_output] answer exactly what the objects there call for,
      and only a success has written.
    - The driver ([Verdict]): the differential driver never reports a divergence
      on a fresh memory store, over any operations the budget covers but
      [claim_many] (where it does, [Findings]).
    - The command line ([Commands]): a command is one transaction on its queue's
      file; a job in the hands of a claim is ended by the claim's printed
      handle from another invocation, as the oracle ends it; [inspect] prints
      every claim.
    - The bench ([Bench]): counting changes nothing and counts exactly, within
      the budget; the soak's faults leave clients what they conclude from
      answers, although a commit may be answered as a rejection; the producer's
      poll ends; the [ops] mode runs, with SHA-256 itself.
    - The relay ([Relay]): doorbells neither lose nor reorder hints; the store
      over fetch keeps the contract, and no failed fetch is taken for an unsent
      request; a pass ends within its budget.
    - The demo ([Demo]): its worker ends only on a full idle streak, and does on
      a quiet queue; its observations (claim records, depths) are exact; a run
      with a kill converges.
    - Arithmetic ([StowqMath]): buckets, delays and their rounding, unbiased
      sampling.

    * Reading the concurrent theorems

    A client's program is a tree of effects.  [exec rely p m a m'] is a run of
    [p] from the key space [m]: its own calls follow the contract, and between
    them the environment takes any [rely] step.  [wp] is the matching weakest
    precondition, [sat] its form for the operations' monad, [spec] that form
    from invariant states.  [pool_step] interleaves clients one effect at a
    time; [Sessions.pool_exec] shows that what a client does in a pool is an
    [exec] under the others' interference.

    * Bounds and fuel

    Loops that spend from the budget on every turn run with one more turn than
    the budget holds ([budget_loop]); [budget_bounds_calls] shows that no fuel
    runs out.  Retry loops have the code's own constant.  The scan loop and the
    waves recurse on the budget and on the pending list.  Machine integers are
    integers with their wrap-around, saturation or check written out, at the
    width the code gives them; overflowing products are modelled as in a
    release build.

    * Not modelled

    - Garbage collection deletes authoritative objects, so it is no protocol
      client: histories are those of queues on which it has not run, and its
      theorem ([Retention]) is about the jobs it must leave alone.
    - Concurrency inside one call ([tokio::join!], [join_all]) runs the branches
      in declaration order; handles are not shared between tasks.
    - [Debug] and [Display] texts but those of the command line, the metrics and
      the doorbells; logging; error messages beyond their fixed parts.
    - What configures the AWS SDK ([S3Store::new]), the [reqwest] transport of
      [stowq-store-http], clap's argument parsing in [stowq-cli] and process
      spawning in [stowq-demo]: glue around code that is not here.  Of [stowq-bench], clock readings,
      allocations, percentiles over floats, the live modes and the scheduling of
      the soak's tasks.
    - Liveness beyond one calm call: a claimable job is claimed when nobody
      interferes and the store answers; schedulers are not modelled. *)

From Stdlib Require Export ZArith Lia.
From Stdlib Require Import Strings.Byte.
From stdpp Require Export base list option gmap sorting strings.

#[global] Open Scope Z_scope.

(* ------------------------------------------------------------------ *)
(** * Notations of the development *)

Declare Scope stowq_scope.
Delimit Scope stowq_scope with stowq.
#[global] Open Scope stowq_scope.

(** A Rust [u8], and the byte strings ([&[u8]], [Vec<u8>], [Bytes], and
    the UTF-8 bytes of a [str] or [String]). *)
Abbreviation byte := Init.Byte.byte (only parsing).
Abbreviation bytes := (list Init.Byte.byte).

(** Largest values of the unsigned machine integers; [i64_max] bounds the
    signed wall-clock domain. *)
Abbreviation u16_max := 65535 (only parsing).
Abbreviation u32_max := 4294967295 (only parsing).
Abbreviation i64_max := 9223372036854775807 (only parsing).
Abbreviation u64_max := 18446744073709551615 (only parsing).

(** The ASCII bytes of a literal. *)
Definition str (s : string) : bytes := String.list_byte_of_string s.
Notation "¶ s" := (str s%string) (at level 1, s at level 0, format "¶ s")
  : stowq_scope.

(* ------------------------------------------------------------------ *)
(** * Rust's [Result] *)

Inductive Result (E A : Type) : Type :=
| Ok (a : A)
| Err (e : E).
Arguments Ok {E A} a.
Arguments Err {E A} e.

(** [?] on a [Result] is stdpp's monadic bind. *)
#[export] Instance result_ret E : MRet (Result E) := fun A a => Ok a.
#[export] Instance result_bind E : MBind (Result E) := fun A B f r =>
  match r with Ok a => f a | Err e => Err e end.
#[export] Instance result_fmap E : FMap (Result E) := fun A B f r =>
  match r with Ok a => Ok (f a) | Err e => Err e end.

(** [Option::ok_or], [Result::map_err] and [Result::ok]. *)
Definition ok_or {E A} (o : option A) (e : E) : Result E A :=
  match o with Some a => Ok a | None => Err e end.
Definition map_err {E F A} (f : E -> F) (r : Result E A) : Result F A :=
  match r with Ok a => Ok a | Err e => Err (f e) end.
Definition ok_opt {E A} (r : Result E A) : option A :=
  match r with Ok a => Some a | Err _ => None end.
Definition is_ok {E A} (r : Result E A) : bool :=
  match r with Ok _ => true | Err _ => false end.

#[export] Instance result_eq_dec {E A} `{EqDecision E, EqDecision A} :
  EqDecision (Result E A).
Proof. solve_decision. Defined.

Lemma result_bind_ok {E A B} (r : Result E A) (f : A -> Result E B) b :
  r ≫= f = Ok b <-> exists a, r = Ok a /\ f a = Ok b.
Proof.
  destruct r as [a|e]; cbn; split.
  - intros H; exists a; auto.
  - intros (a' & [= ->] & H); exact H.
  - discriminate.
  - intros (a' & [=] & _).
Qed.

Lemma ok_or_ok {E A} (o : option A) (e : E) a :
  ok_or o e = Ok a <-> o = Some a.
Proof. destruct o; cbn; split; congruence. Qed.

Lemma map_err_ok {E F A} (f : E -> F) (r : Result E A) a :
  map_err f r = Ok a <-> r = Ok a.
Proof. destruct r; cbn; split; congruence. Qed.

(* ------------------------------------------------------------------ *)
(** * Machine integers

    A [u64] (u32, u16, u8) is a [Z] in range; the operations below are the
    standard library's on that width. *)

Definition is_u64 (z : Z) : Prop := 0 <= z <= u64_max.
Definition is_u32 (z : Z) : Prop := 0 <= z <= u32_max.
Definition is_u16 (z : Z) : Prop := 0 <= z <= u16_max.

Definition checked_add (a b : Z) : option Z :=
  if a + b <=? u64_max then Some (a + b) else None.
Definition checked_mul (a b : Z) : option Z :=
  if a * b <=? u64_max then Some (a * b) else None.
Definition saturating_add (a b : Z) : Z := Z.min (a + b) u64_max.
Definition saturating_mul (a b : Z) : Z := Z.min (a * b) u64_max.
Definition saturating_sub (a b : Z) : Z := Z.max (a - b) 0.
(** [u64::wrapping_neg] and a plain [*] that wraps (release arithmetic). *)
Definition wrapping_neg (a : Z) : Z := (- a) mod 2 ^ 64.
Definition wrapping_mul (a b : Z) : Z := (a * b) mod 2 ^ 64.
Definition wrapping_add (a b : Z) : Z := (a + b) mod 2 ^ 64.

Lemma checked_add_some a b c : checked_add a b = Some c <-> c = a + b /\ a + b <= u64_max.
Proof. unfold checked_add. destruct (Z.leb_spec (a + b) u64_max); split; intros; naive_solver lia. Qed.

Lemma checked_mul_some a b c : checked_mul a b = Some c <-> c = a * b /\ a * b <= u64_max.
Proof. unfold checked_mul. destruct (Z.leb_spec (a * b) u64_max); split; intros; naive_solver lia. Qed.

Lemma wrapping_add_small a b : 0 <= a + b <= u64_max -> wrapping_add a b = a + b.
Proof. intros. unfold wrapping_add. apply Z.mod_small. lia. Qed.

Lemma saturating_add_u64 a b : is_u64 a -> is_u64 b -> is_u64 (saturating_add a b).
Proof. unfold is_u64, saturating_add. lia. Qed.

(* ------------------------------------------------------------------ *)
(** * Bytes *)

Definition byte_val (b : byte) : Z := Z.of_N (Byte.to_N b).

(** [v as u8]: the low eight bits. *)
Definition byte_of (z : Z) : byte :=
  default Init.Byte.x00 (Byte.of_N (Z.to_N (z mod 256))).

#[global] Arguments byte_val : simpl never.
#[global] Arguments byte_of : simpl never.

Lemma byte_val_range b : 0 <= byte_val b < 256.
Proof. unfold byte_val. pose proof (Byte.to_N_bounded b). lia. Qed.

Lemma byte_val_inj b c : byte_val b = byte_val c -> b = c.
Proof.
  unfold byte_val. intros H%N2Z.inj.
  apply (f_equal Byte.of_N) in H. rewrite !Byte.of_to_N in H. congruence.
Qed.

Lemma byte_val_of z : byte_val (byte_of z) = z mod 256.
Proof.
  unfold byte_val, byte_of.
  pose proof (Z.mod_pos_bound z 256 ltac:(lia)) as Hb.
  destruct (Byte.of_N (Z.to_N (z mod 256))) as [b|] eqn:E; cbn.
  - apply Byte.to_of_N in E. rewrite E. lia.
  - apply Byte.of_N_None_iff in E. lia.
Qed.

Lemma byte_of_val b : byte_of (byte_val b) = b.
Proof.
  apply byte_val_inj. rewrite byte_val_of.
  apply Z.mod_small, byte_val_range.
Qed.

Lemma byte_val_of_small z : 0 <= z < 256 -> byte_val (byte_of z) = z.
Proof. intros H. rewrite byte_val_of. by apply Z.mod_small. Qed.

#[export] Instance byte_eq_dec : EqDecision byte := Byte.byte_eq_dec.
#[export] Instance byte_countable : Countable byte.
Proof.
  refine (inj_countable' Byte.to_N (fun n => default Init.Byte.x00 (Byte.of_N n)) _).
  intros b. by rewrite Byte.of_to_N.
Defined.

(** Boolean equality of byte strings, computing. *)
Definition bytes_eqb (a b : bytes) : bool := bool_decide (a = b).

(* ------------------------------------------------------------------ *)
(** * Big-endian integers: [to_be_bytes] and [from_be_bytes] *)

Fixpoint be_val_acc (acc : Z) (l : bytes) : Z :=
  match l with
  | [] => acc
  | b :: l => be_val_acc (acc * 256 + byte_val b) l
  end.
Definition be_val (l : bytes) : Z := be_val_acc 0 l.

Fixpoint be_bytes (n : nat) (z : Z) : bytes :=
  match n with
  | O => []
  | S n => byte_of (z / 256 ^ Z.of_nat n) :: be_bytes n z
  end.

Lemma be_bytes_length n z : length (be_bytes n z) = n.
Proof. induction n as [|n IH]; cbn; auto. Qed.

Lemma be_val_acc_shift l acc :
  be_val_acc acc l = acc * 256 ^ Z.of_nat (length l) + be_val l.
Proof.
  unfold be_val. revert acc. induction l as [|b l IH]; intros acc; cbn [be_val_acc length].
  - cbn. lia.
  - rewrite IH, (IH (0 * 256 + byte_val b)), Nat2Z.inj_succ, Z.pow_succ_r by lia. ring.
Qed.

Lemma be_val_cons b l :
  be_val (b :: l) = byte_val b * 256 ^ Z.of_nat (length l) + be_val l.
Proof. unfold be_val at 1. cbn [be_val_acc]. rewrite be_val_acc_shift. lia. Qed.

Lemma be_val_range l : 0 <= be_val l < 256 ^ Z.of_nat (length l).
Proof.
  induction l as [|b l IH]; [cbn; lia|].
  rewrite be_val_cons. cbn [length]. rewrite Nat2Z.inj_succ, Z.pow_succ_r by lia.
  pose proof (byte_val_range b). nia.
Qed.

Lemma be_val_bytes n z : be_val (be_bytes n z) = z mod 256 ^ Z.of_nat n.
Proof.
  induction n as [|n IH].
  - cbn. by rewrite Z.mod_1_r.
  - cbn [be_bytes]. rewrite be_val_cons, IH, be_bytes_length, byte_val_of.
    rewrite Nat2Z.inj_succ, Z.pow_succ_r, (Z.mul_comm 256) by lia.
    rewrite Z.rem_mul_r by lia. ring.
Qed.

Lemma be_val_bytes_small n z : 0 <= z < 256 ^ Z.of_nat n -> be_val (be_bytes n z) = z.
Proof. intros H. rewrite be_val_bytes. by apply Z.mod_small. Qed.

Lemma be_val_inj l k : length l = length k -> be_val l = be_val k -> l = k.
Proof.
  revert k. induction l as [|b l IH]; intros [|c k] Hl Hv; try done.
  cbn in Hl. injection Hl as Hl.
  rewrite !be_val_cons, Hl in Hv.
  pose proof (be_val_range l) as Rl. pose proof (be_val_range k) as Rk. rewrite Hl in Rl.
  assert (byte_val b = byte_val c) as Hb by nia.
  f_equal; [by apply byte_val_inj|]. apply IH; [done|]. rewrite Hb in Hv. lia.
Qed.

Lemma be_bytes_val l : be_bytes (length l) (be_val l) = l.
Proof.
  apply be_val_inj; [apply be_bytes_length|].
  rewrite be_val_bytes. apply Z.mod_small, be_val_range.
Qed.

Lemma be_bytes_val_n n l : length l = n -> be_bytes n (be_val l) = l.
Proof. intros <-. apply be_bytes_val. Qed.

(* ------------------------------------------------------------------ *)
(** * Lexicographic order of byte strings (Rust's [Ord] on [str] and
      [[u8]]) *)

Fixpoint bytes_cmp (a b : bytes) : comparison :=
  match a, b with
  | [], [] => Eq
  | [], _ :: _ => Lt
  | _ :: _, [] => Gt
  | x :: a, y :: b =>
      match byte_val x ?= byte_val y with
      | Eq => bytes_cmp a b
      | c => c
      end
  end.

Definition bytes_lt (a b : bytes) : Prop := bytes_cmp a b = Lt.
Definition bytes_le (a b : bytes) : Prop := bytes_cmp a b <> Gt.
Definition bytes_ltb (a b : bytes) : bool :=
  match bytes_cmp a b with Lt => true | _ => false end.
Definition bytes_leb (a b : bytes) : bool :=
  match bytes_cmp a b with Gt => false | _ => true end.

#[export] Instance bytes_lt_dec : RelDecision bytes_lt.
Proof. intros a b. unfold Decision, bytes_lt. decide equality. Defined.
#[export] Instance bytes_le_dec : RelDecision bytes_le.
Proof. intros a b. unfold Decision, bytes_le. destruct (bytes_cmp a b); auto. Defined.

Lemma bytes_cmp_refl a : bytes_cmp a a = Eq.
Proof. induction a as [|x a IH]; cbn; [done|]. by rewrite Z.compare_refl. Qed.

Lemma bytes_cmp_eq a b : bytes_cmp a b = Eq <-> a = b.
Proof.
  split; [|intros ->; apply bytes_cmp_refl].
  revert b; induction a as [|x a IH]; intros [|y b]; cbn; try done.
  destruct (Z.compare_spec (byte_val x) (byte_val y)) as [E| |]; try done.
  intros H. apply byte_val_inj in E as ->. f_equal. by apply IH.
Qed.

Lemma bytes_cmp_antisym a b : bytes_cmp b a = CompOpp (bytes_cmp a b).
Proof.
  revert b; induction a as [|x a IH]; intros [|y b]; cbn; try done.
  rewrite (Z.compare_antisym (byte_val x) (byte_val y)).
  destruct (byte_val x ?= byte_val y); cbn; auto.
Qed.

Lemma bytes_lt_trans a b c : bytes_lt a b -> bytes_lt b c -> bytes_lt a c.
Proof.
  unfold bytes_lt. revert b c; induction a as [|x a IH]; intros [|y b] [|z c]; cbn; try done.
  destruct (Z.compare_spec (byte_val x) (byte_val y)) as [E|L|G]; try done.
  - rewrite <- E. destruct (byte_val x ?= byte_val z); try done. eauto.
  - intros _. destruct (Z.compare_spec (byte_val y) (byte_val z)) as [E|L'|G]; try done.
    + rewrite <- E. by rewrite (proj2 (Z.compare_lt_iff _ _) L).
    + by rewrite (proj2 (Z.compare_lt_iff _ _) (Z.lt_trans _ _ _ L L')).
Qed.

Lemma bytes_lt_irrefl a : ~ bytes_lt a a.
Proof. unfold bytes_lt. by rewrite bytes_cmp_refl. Qed.

Lemma bytes_le_lteq a b : bytes_le a b <-> bytes_lt a b \/ a = b.
Proof.
  unfold bytes_le, bytes_lt. rewrite <- bytes_cmp_eq. destruct (bytes_cmp a b); naive_solver.
Qed.

#[export] Instance bytes_le_trans : Transitive bytes_le.
Proof.
  intros a b c. rewrite !bytes_le_lteq. intros [?| ->] [?| ->]; eauto using bytes_lt_trans.
Qed.
#[export] Instance bytes_le_refl : Reflexive bytes_le.
Proof. intros a. rewrite bytes_le_lteq. by right. Qed.
#[export] Instance bytes_le_antisym : AntiSymm (=) bytes_le.
Proof.
  intros a b. rewrite !bytes_le_lteq. intros [H| ->] [H'|E]; auto.
  exfalso. eapply bytes_lt_irrefl, bytes_lt_trans; eauto.
Qed.
#[export] Instance bytes_le_total : Total bytes_le.
Proof.
  intros a b. unfold bytes_le. rewrite (bytes_cmp_antisym a b).
  destruct (bytes_cmp a b); cbn; auto; left || right; done.
Qed.

Lemma bytes_ltb_lt a b : bytes_ltb a b = true <-> bytes_lt a b.
Proof. unfold bytes_ltb, bytes_lt. destruct (bytes_cmp a b); split; congruence. Qed.

Lemma bytes_lt_not_le a b : bytes_lt a b <-> ~ bytes_le b a.
Proof.
  unfold bytes_lt, bytes_le. rewrite (bytes_cmp_antisym a b).
  destruct (bytes_cmp a b); cbn; intuition congruence.
Qed.

Lemma bytes_cmp_app p a b : bytes_cmp (p ++ a) (p ++ b) = bytes_cmp a b.
Proof. induction p as [|x p IH]; cbn; [done|]. by rewrite Z.compare_refl. Qed.

(** Equal-width big-endian strings compare as their values do. *)
Lemma bytes_cmp_be_val a b :
  length a = length b -> bytes_cmp a b = (be_val a ?= be_val b).
Proof.
  revert b; induction a as [|x a IH]; intros [|y b] Hl; try done.
  cbn [bytes_cmp]. cbn in Hl. injection Hl as Hl.
  rewrite !be_val_cons, Hl, (IH b Hl).
  pose proof (be_val_range a) as Ra. pose proof (be_val_range b) as Rb. rewrite Hl in Ra.
  set (w := 256 ^ Z.of_nat (length b)) in *.
  destruct (Z.compare_spec (byte_val x) (byte_val y)) as [E|L|G].
  - rewrite E. destruct (Z.compare_spec (be_val a) (be_val b)); symmetry;
      rewrite ?Z.compare_eq_iff, ?Z.compare_lt_iff, ?Z.compare_gt_iff; lia.
  - symmetry. apply Z.compare_lt_iff. nia.
  - symmetry. apply Z.compare_gt_iff. nia.
Qed.

(* ------------------------------------------------------------------ *)
(** * Strings: [split], [strip_prefix], [starts_with] on ASCII
      separators *)

Definition slash : byte := Init.Byte.x2f.
Definition dot : byte := Init.Byte.x2e.

(** [str::split(c)] collected: always at least one part. *)
Fixpoint split_on (c : byte) (s : bytes) : list bytes :=
  match s with
  | [] => [[]]
  | b :: s =>
      if decide (b = c) then [] :: split_on c s
      else match split_on c s with
           | [] => [[b]]
           | p :: ps => (b :: p) :: ps
           end
  end.

(** The inverse, [parts.join("c")]. *)
Fixpoint join_with (c : byte) (ps : list bytes) : bytes :=
  match ps with
  | [] => []
  | [p] => p
  | p :: ps => p ++ c :: join_with c ps
  end.

(** [str::split_once(c)]: at the first occurrence. *)
Fixpoint split_once (c : byte) (s : bytes) : option (bytes * bytes) :=
  match s with
  | [] => None
  | b :: s =>
      if decide (b = c) then Some ([], s)
      else match split_once c s with
           | Some (l, r) => Some (b :: l, r)
           | None => None
           end
  end.

Fixpoint strip_prefix (p s : bytes) : option bytes :=
  match p, s with
  | [], s => Some s
  | _ :: _, [] => None
  | x :: p, y :: s => if decide (x = y) then strip_prefix p s else None
  end.

Definition starts_with (p s : bytes) : bool :=
  match strip_prefix p s with Some _ => true | None => false end.

Lemma strip_prefix_some p s r : strip_prefix p s = Some r <-> s = p ++ r.
Proof.
  revert s; induction p as [|x p IH]; intros [|y s]; cbn; try naive_solver.
  destruct (decide (x = y)) as [->|Hn]; [rewrite IH; naive_solver|]. split; naive_solver.
Qed.

Lemma strip_prefix_app p r : strip_prefix p (p ++ r) = Some r.
Proof. by apply strip_prefix_some. Qed.

Lemma starts_with_iff p s : starts_with p s = true <-> exists r, s = p ++ r.
Proof.
  unfold starts_with. destruct (strip_prefix p s) eqn:E.
  - apply strip_prefix_some in E. naive_solver.
  - split; [done|]. intros [r ->]. by rewrite strip_prefix_app in E.
Qed.

Lemma starts_with_app p r : starts_with p (p ++ r) = true.
Proof. apply starts_with_iff. eauto. Qed.

Lemma split_on_nonempty c s : split_on c s <> [].
Proof. destruct s as [|b s]; cbn; [done|]. destruct (decide _); [done|]. by destruct (split_on c s). Qed.

Lemma split_on_no c s : c ∉ s -> split_on c s = [s].
Proof.
  induction s as [|b s IH]; cbn; [done|]. intros H%not_elem_of_cons.
  destruct H as [H1 H2]. rewrite decide_False by congruence. by rewrite IH.
Qed.

Lemma split_on_app c p s : c ∉ p -> split_on c (p ++ c :: s) = p :: split_on c s.
Proof.
  induction p as [|b p IH]; cbn; [by rewrite decide_True|]. intros H%not_elem_of_cons.
  destruct H as [H1 H2]. rewrite decide_False by congruence. by rewrite IH.
Qed.

Lemma join_split c s : join_with c (split_on c s) = s.
Proof.
  induction s as [|b s IH]; cbn; [done|]. destruct (decide (b = c)) as [->|Hn].
  - cbn. pose proof (split_on_nonempty c s). destruct (split_on c s); [done|]. by rewrite IH.
  - pose proof (split_on_nonempty c s). destruct (split_on c s) as [|p [|q ps]]; cbn in *; [done|..].
    + by rewrite <- IH.
    + by rewrite <- IH.
Qed.

Lemma split_once_some c s l r : split_once c s = Some (l, r) -> s = l ++ c :: r /\ c ∉ l.
Proof.
  revert l; induction s as [|b s IH]; intros l; cbn; [done|].
  destruct (decide (b = c)) as [->|Hn].
  - intros [= <- <-]. split; [done|]. apply not_elem_of_nil.
  - destruct (split_once c s) as [[l' r']|] eqn:E; [|done]. intros [= <- <-].
    destruct (IH l' eq_refl) as [-> Hc]. split; [done|].
    apply not_elem_of_cons. split; [congruence|done].
Qed.

Lemma split_once_app c l r : c ∉ l -> split_once c (l ++ c :: r) = Some (l, r).
Proof.
  induction l as [|b l IH]; cbn; [by rewrite decide_True|]. intros H%not_elem_of_cons.
  destruct H as [H1 H2]. rewrite decide_False by congruence. by rewrite IH.
Qed.

(** Deciding a property of a small range by evaluation. *)
Lemma forallb_seqZ (P : Z -> bool) n :
  forallb P (seqZ 0 n) = true -> forall z, 0 <= z < n -> P z = true.
Proof.
  intros HF z Hz. rewrite forallb_forall in HF. apply HF.
  apply list_elem_of_In, elem_of_seqZ. lia.
Qed.

(* ------------------------------------------------------------------ *)
(** * Automation *)

Create HintDb stowq.
Create Rewrite HintDb stowq.
#[export] Hint Resolve byte_val_range be_bytes_length be_val_range bytes_lt_trans : stowq.
#[export] Hint Rewrite byte_val_of byte_of_val be_bytes_length be_val_bytes @length_app : stowq.

(** Destructs the scrutinee of a [match] in a hypothesis or in the goal,
    keeping the equation. *)
Ltac case_match_in H :=
  match type of H with
  | context [match ?x with _ => _ end] => let E := fresh "E" in destruct x eqn:E
  end.

(** Turns boolean comparisons on [Z] into propositions. *)
Ltac zbool :=
  repeat match goal with
    | H : (_ <=? _) = true |- _ => apply Z.leb_le in H
    | H : (_ <=? _) = false |- _ => apply Z.leb_gt in H
    | H : (_ <? _) = true |- _ => apply Z.ltb_lt in H
    | H : (_ <? _) = false |- _ => apply Z.ltb_ge in H
    | H : (_ =? _) = true |- _ => apply Z.eqb_eq in H
    | H : (_ =? _) = false |- _ => apply Z.eqb_neq in H
    | H : (_ && _)%bool = true |- _ => apply andb_true_iff in H as [? ?]
    | H : (_ || _)%bool = false |- _ => apply orb_false_iff in H as [? ?]
    end.
