(* ===== verification/Sha256.v ===== *)
(** SHA-256 as the program uses it.

    The hash comes from the [sha2] crate, so every component takes it as a
    parameter: the class [Sha256] is a function on byte strings with the one
    fact the code relies on structurally, a 32-byte output.  No theorem
    assumes collision resistance; where a statement compares digests it says
    so in terms of the digests.

    [fips] is a concrete instance, FIPS 180-4 SHA-256 on lists of bytes.  It
    is passed explicitly where a witness evaluates a definition, so the test
    vectors of the repository are reproduced literally. *)

From S2P Require Import Prelude.

Class Sha256 := {
  sha256 : bytes -> bytes;
  sha256_length : forall m, length (sha256 m) = 32%nat
}.

#[export] Hint Rewrite @sha256_length : stowq.

(* ------------------------------------------------------------------ *)
(** * The FIPS 180-4 instance *)

Module Fips.

Definition mask32 (z : Z) : Z := Z.land z u32_max.
Definition rotr (n x : Z) : Z :=
  mask32 (Z.lor (Z.shiftr x n) (Z.shiftl x (32 - n))).
Definition bsig0 x := Z.lxor (rotr 2 x) (Z.lxor (rotr 13 x) (rotr 22 x)).
Definition bsig1 x := Z.lxor (rotr 6 x) (Z.lxor (rotr 11 x) (rotr 25 x)).
Definition ssig0 x := Z.lxor (rotr 7 x) (Z.lxor (rotr 18 x) (Z.shiftr x 3)).
Definition ssig1 x := Z.lxor (rotr 17 x) (Z.lxor (rotr 19 x) (Z.shiftr x 10)).
Definition ch x y z := Z.lxor (Z.land x y) (Z.land (u32_max - x) z).
Definition maj x y z := Z.lxor (Z.land x y) (Z.lxor (Z.land x z) (Z.land y z)).

(** The standard's constants: 32 fractional bits of the square roots of the
    first eight primes and of the cube roots of the first sixty-four. *)
Definition primes : list Z :=
  filter (fun p => forallb (fun d => negb (p mod d =? 0)) (seqZ 2 (p - 2)) = true) (seqZ 2 310).

(** The integer cube root, bit by bit. *)
Definition cbrt (n : Z) : Z :=
  fold_left (fun r b => let r' := r + 2 ^ b in if r' * r' * r' <=? n then r' else r)
    (rev (seqZ 0 40)) 0.

Definition K : list Z := Eval vm_compute in map (fun p => mask32 (cbrt (p * 2 ^ 96))) primes.
Definition H0 : list Z := Eval vm_compute in map (fun p => mask32 (Z.sqrt (p * 2 ^ 64))) (take 8 primes).

(** The message schedule, newest word first. *)
Fixpoint schedule (n : nat) (w : list Z) : list Z :=
  match n with
  | O => w
  | S n =>
      let g i := nth i w 0 in
      schedule n (mask32 (ssig1 (g 1%nat) + g 6%nat + ssig0 (g 14%nat) + g 15%nat) :: w)
  end.

Definition round (st : list Z) (kw : Z * Z) : list Z :=
  match st with
  | [a; b; c; d; e; f; g; h] =>
      let t1 := h + bsig1 e + ch e f g + kw.1 + kw.2 in
      let t2 := bsig0 a + maj a b c in
      [mask32 (t1 + t2); a; b; c; mask32 (d + t1); e; f; g]
  | st => st
  end.

Fixpoint words (n : nat) (m : bytes) : list Z :=
  match n with
  | O => []
  | S n => be_val (take 4 m) :: words n (drop 4 m)
  end.

Definition compress (h : list Z) (block : bytes) : list Z :=
  let w := rev (schedule 48 (rev (words 16 block))) in
  zip_with (fun x y => mask32 (x + y)) h (fold_left round (zip K w) h).

Fixpoint blocks (n : nat) (h : list Z) (m : bytes) : list Z :=
  match n with
  | O => h
  | S n => blocks n (compress h (take 64 m)) (drop 64 m)
  end.

Definition pad (m : bytes) : bytes :=
  let l := Z.of_nat (length m) in
  m ++ byte_of 128 :: replicate (Z.to_nat ((55 - l) mod 64)) (byte_of 0) ++ be_bytes 8 (8 * l).

Definition sha256 (m : bytes) : bytes :=
  let p := pad m in
  take 32 (concat (map (be_bytes 4) (blocks (length p / 64) H0 p)) ++ replicate 32 (byte_of 0)).

Lemma sha256_length m : length (sha256 m) = 32%nat.
Proof.
  unfold sha256. rewrite length_take, length_app, length_replicate. lia.
Qed.

End Fips.

Definition fips : Sha256 :=
  {| sha256 := Fips.sha256; sha256_length := Fips.sha256_length |}.

(** The one-block test vector of FIPS 180-4. *)
Example fips_abc :
  be_val (Fips.sha256 ¶"abc") =
  0xba7816bf8f01cfea414140de5dae2223b00361a396177a9cb410ff61f20015ad.
Proof. vm_compute. reflexivity. Qed.
