(* ===== verification/StowqMath.v ===== *)
(** Crate [stowq-math]: bucket arithmetic, retry backoff with equal jitter,
    checked time conversions ([crates/stowq-math/src/lib.rs]).

    All quantities are [u64] values as [Z]; the checked and saturating
    operations are those of the prelude.  The jitter hash is the [Sha256]
    parameter. *)

From S2P Require Import Prelude Sha256.

(* ------------------------------------------------------------------ *)
(** * Bucket arithmetic *)

Definition bucket_number (timestamp_ns bucket_width_ns : Z) : option Z :=
  if bucket_width_ns =? 0 then None else Some (timestamp_ns / bucket_width_ns).

Definition ceiling_bucket (timestamp_ns bucket_width_ns : Z) : option Z :=
  if bucket_width_ns =? 0 then None
  else
    let q := timestamp_ns / bucket_width_ns in
    let r := timestamp_ns mod bucket_width_ns in
    if negb (r =? 0) then checked_add q 1 else Some q.

Definition bucket_start_ns (bucket bucket_width_ns : Z) : option Z :=
  checked_mul bucket bucket_width_ns.

Definition bucket_end_ns (bucket bucket_width_ns : Z) : option Z :=
  start ← bucket_start_ns bucket bucket_width_ns;
  checked_add start bucket_width_ns.

Definition eligibility_bucket_and_ns (requested_ns bucket_width_ns : Z) : option (Z * Z) :=
  bucket ← ceiling_bucket requested_ns bucket_width_ns;
  ns ← checked_mul bucket bucket_width_ns;
  Some (bucket, ns).

(* ------------------------------------------------------------------ *)
(** * Retry policy *)

Record RetryPolicy := {
  base_ms : Z;
  cap_ms : Z;
  use_jitter : bool;
  max_delay_ms : option Z
}.

Inductive RetryError := ZeroBase | CapTooSmall | Overflow.

#[export] Instance retry_error_eq_dec : EqDecision RetryError.
Proof. solve_decision. Defined.

Definition effective_cap_ms (p : RetryPolicy) : Z :=
  match max_delay_ms p with
  | Some max => Z.min (cap_ms p) max
  | None => cap_ms p
  end.

Definition policy_validate (p : RetryPolicy) : Result RetryError unit :=
  if base_ms p =? 0 then Err ZeroBase
  else if effective_cap_ms p <? base_ms p then Err CapTooSmall
  else Ok tt.

Definition retry_policy_new (base cap : Z) (jitter : bool) (max_delay : option Z)
    : Result RetryError RetryPolicy :=
  let policy := {| base_ms := base; cap_ms := cap;
                   use_jitter := jitter; max_delay_ms := max_delay |} in
  _ ← policy_validate policy;
  Ok policy.

(** The field types: every field is a [u64]. *)
Definition policy_wf (p : RetryPolicy) : Prop :=
  is_u64 (base_ms p) /\ is_u64 (cap_ms p) /\
  (forall m, max_delay_ms p = Some m -> is_u64 m).

(** Saturating base * 2^(exp-1). *)
Definition saturating_double (base exp : Z) : Z :=
  if (exp =? 0) || (base =? 0) then base
  else if 64 <? exp then u64_max
  else
    let shift := exp - 1 in
    if Z.shiftr u64_max shift <? base then u64_max
    else Z.shiftl base shift.

(** The rejection loop; [remaining] counts the draws that remain of the 64, the
    fallback is the span's midpoint. *)
Fixpoint sample_loop (remaining : nat) (span threshold counter : Z) (draw : Z -> Z) : Z :=
  let x := draw counter in
  if threshold <=? x then x mod span
  else
    match remaining with
    | O => span / 2
    | S remaining => sample_loop remaining span threshold (counter + 1) draw
    end.

Definition sample_offset (span : Z) (draw : Z -> Z) : Z :=
  let threshold := wrapping_neg span mod span in
  sample_loop 63 span threshold 0 draw.

(** retry_not_before = floor_ns + delay_ns, bounded to i64::MAX. *)
Definition retry_not_before (floor_ns delay_ns : Z) : option Z :=
  deadline ← checked_add floor_ns delay_ns;
  if i64_max <? deadline then None else Some deadline.

(** max(floor_ns, watermark_bucket * width). *)
Definition effective_floor (floor_ns watermark_bucket bucket_width_ns : Z) : option Z :=
  if bucket_width_ns =? 0 then None
  else
    watermark_ns ← checked_mul watermark_bucket bucket_width_ns;
    Some (Z.max floor_ns watermark_ns).

Section Hash.
Context `{Sha256}.

(** The closure handed to [sample_offset]: the first eight bytes of the
    domain-separated hash, big-endian. *)
Definition jitter_draw (queue_id job_id : bytes) (attempt counter : Z) : Z :=
  be_val (take 8 (sha256 (¶"StowQ-1-jitter" ++ [byte_of 0] ++ queue_id ++ job_id
                          ++ be_bytes 4 attempt ++ be_bytes 4 counter))).

Definition retry_delay_ms (queue_id job_id : bytes) (attempt : Z) (policy : RetryPolicy)
    : Result RetryError Z :=
  _ ← policy_validate policy;
  if attempt =? 0 then Ok 0
  else
    let cap := effective_cap_ms policy in
    let ceiling := Z.min cap (saturating_double (base_ms policy) attempt) in
    if negb (use_jitter policy) then Ok ceiling
    else
      let lower := (ceiling + 1) / 2 in
      let span := ceiling - lower + 1 in
      let offset := sample_offset span (jitter_draw queue_id job_id attempt) in
      Ok (lower + offset).
End Hash.

(* ------------------------------------------------------------------ *)
(** * Bucket lemmas *)

Lemma bucket_number_some t w b :
  0 < w -> bucket_number t w = Some b <-> b * w <= t < (b + 1) * w.
Proof.
  intros Hw. unfold bucket_number.
  destruct (Z.eqb_spec w 0); [lia|]. split.
  - intros [= <-]. pose proof (Z.div_mod t w). pose proof (Z.mod_pos_bound t w). nia.
  - intros Hb. f_equal. symmetry. apply (Z.div_unique_pos t w b (t - b * w)); nia.
Qed.

Lemma ceiling_bucket_some t w b :
  0 < w -> is_u64 t -> ceiling_bucket t w = Some b <-> (b - 1) * w < t <= b * w.
Proof.
  intros Hw Ht. unfold ceiling_bucket, is_u64 in *. destruct (Z.eqb_spec w 0); [lia|].
  pose proof (Z.div_mod t w ltac:(lia)). pose proof (Z.mod_pos_bound t w Hw).
  assert (0 <= t / w <= t) by (split; [apply Z.div_pos; lia|]; apply Z.div_le_upper_bound; nia).
  destruct (Z.eqb_spec (t mod w) 0) as [E|E]; cbn.
  - split; [intros [= <-]; nia|]. intros Hb. f_equal. nia.
  - rewrite checked_add_some. split.
    + intros [-> _]. nia.
    + intros Hb. split; nia.
Qed.

(** Ceiling division never overflows: a nonzero width always gives a
    bucket. *)
Lemma ceiling_bucket_total t w :
  0 < w -> is_u64 t -> is_Some (ceiling_bucket t w).
Proof.
  intros Hw Ht. unfold ceiling_bucket, is_u64 in *. destruct (Z.eqb_spec w 0); [lia|].
  destruct (Z.eqb_spec (t mod w) 0) as [E|E]; cbn; [eauto|].
  pose proof (Z.div_mod t w ltac:(lia)). pose proof (Z.mod_pos_bound t w Hw).
  assert (t / w + 1 <= t) by nia.
  exists (t / w + 1). apply checked_add_some. split; lia.
Qed.

(** The delayed-delivery bucket never lets a job out early and holds it
    back by less than one bucket width; it is absent exactly when the width
    is zero or the rounded time overflows. *)
Theorem eligibility_rounds_up (requested_ns width bucket ns : Z)
    (Hr : is_u64 requested_ns) (Hw : 0 <= width)
    (H : eligibility_bucket_and_ns requested_ns width = Some (bucket, ns)) :
  ns = bucket * width /\ requested_ns <= ns < requested_ns + width /\
  bucket_number ns width = Some bucket /\ ns <= u64_max.
Proof.
  unfold eligibility_bucket_and_ns in H.
  destruct (ceiling_bucket requested_ns width) as [b|] eqn:Hc; [|done]. cbn in H.
  destruct (checked_mul b width) as [m|] eqn:Hm; [|done]. cbn in H.
  injection H as -> ->. apply checked_mul_some in Hm as [-> Hmax].
  assert (0 < width) as Hw'.
  { unfold ceiling_bucket in Hc. destruct (Z.eqb_spec width 0); [done|]. lia. }
  apply ceiling_bucket_some in Hc; [|done..].
  repeat split; try nia. apply bucket_number_some; nia.
Qed.

Lemma eligibility_rounds_up_witness :
  is_u64 25 /\ eligibility_bucket_and_ns 25 10 = Some (3, 30) /\ 25 <= 30 < 35.
Proof.
  assert (is_u64 25) as Hr by (unfold is_u64; lia).
  assert (eligibility_bucket_and_ns 25 10 = Some (3, 30)) as He by reflexivity.
  split; [exact Hr|]. split; [exact He|].
  destruct (eligibility_rounds_up 25 10 3 30 Hr ltac:(lia) He) as (_ & Hb & _).
  lia.
Defined.

(** A bucket's bounds are one width apart, hold exactly the timestamps
    [bucket_number] sends to it, and are refused together on overflow. *)
Theorem bucket_bounds (bucket width : Z) (Hb : 0 <= bucket) (Hw : 0 < width) :
  match bucket_end_ns bucket width with
  | Some e =>
      exists s, bucket_start_ns bucket width = Some s /\ e = s + width /\
        forall t, bucket_number t width = Some bucket <-> s <= t < e
  | None => u64_max < (bucket + 1) * width
  end.
Proof.
  unfold bucket_end_ns, bucket_start_ns.
  destruct (checked_mul bucket width) as [s|] eqn:Hs; cbn [mbind option_bind].
  - destruct (checked_add s width) as [e|] eqn:He.
    + apply checked_mul_some in Hs as [-> Hs]. apply checked_add_some in He as [-> He].
      exists (bucket * width). split; [done|]. split; [done|].
      intros t. rewrite bucket_number_some by done. lia.
    + apply checked_mul_some in Hs as [-> Hs]. unfold checked_add in He.
      destruct (Z.leb_spec (bucket * width + width) u64_max); [done|]. nia.
  - unfold checked_mul in Hs. destruct (Z.leb_spec (bucket * width) u64_max); [done|]. nia.
Qed.

Lemma bucket_bounds_witness :
  0 <= 7 /\ 0 < 1000 /\
  exists s, bucket_start_ns 7 1000 = Some s /\ 8000 = s + 1000 /\
    forall t, bucket_number t 1000 = Some 7 <-> s <= t < 8000.
Proof.
  split; [lia|]. split; [lia|].
  exact (bucket_bounds 7 1000 ltac:(lia) ltac:(lia)).
Defined.

(* ------------------------------------------------------------------ *)
(** * Backoff lemmas *)

Lemma saturating_double_spec base exp :
  is_u64 base -> 1 <= exp -> saturating_double base exp = Z.min (base * 2 ^ (exp - 1)) u64_max.
Proof.
  unfold is_u64, saturating_double. intros Hb He.
  destruct (Z.eqb_spec exp 0); [lia|]. destruct (Z.eqb_spec base 0) as [->|Hn]; cbn; [lia|].
  destruct (Z.ltb_spec 64 exp) as [Hl|Hl].
  - assert (2 ^ 64 <= 2 ^ (exp - 1)) by (apply Z.pow_le_mono_r; lia).
    change (2 ^ 64) with 18446744073709551616 in *. nia.
  - rewrite Z.shiftr_div_pow2, Z.shiftl_mul_pow2 by lia.
    assert (0 < 2 ^ (exp - 1)) as Hp by (apply Z.pow_pos_nonneg; lia).
    destruct (Z.ltb_spec (u64_max / 2 ^ (exp - 1)) base) as [Hs|Hs].
      pose proof (Z.mul_succ_div_gt u64_max (2 ^ (exp - 1)) Hp). nia.
    + pose proof (Z.mul_div_le u64_max (2 ^ (exp - 1)) Hp). nia.
Qed.

Lemma sample_loop_range remaining span threshold counter draw :
  0 < span -> 0 <= sample_loop remaining span threshold counter draw < span.
Proof.
  intros Hs. revert counter. induction remaining as [|remaining IH]; intros counter; cbn [sample_loop];
    (destruct (threshold <=? draw counter); [apply Z.mod_pos_bound; lia|]).
  - split; [apply Z.div_pos; lia|]. apply Z.div_lt_upper_bound; lia.
  - apply IH.
Qed.

Lemma sample_offset_range span draw : 0 < span -> 0 <= sample_offset span draw < span.
Proof. apply sample_loop_range. Qed.

Lemma policy_validate_ok p :
  policy_wf p -> policy_validate p = Ok tt -> 0 < base_ms p <= effective_cap_ms p.
Proof.
  unfold policy_validate, policy_wf, is_u64. intros Hp Hv.
  destruct (Z.eqb_spec (base_ms p) 0); [done|].
  destruct (Z.ltb_spec (effective_cap_ms p) (base_ms p)); [done|]. lia.
Qed.

(** C40: the retry delay.  With a valid policy the call succeeds; attempt 0
    is immediate; from attempt 1 on the ceiling is
    [min(cap, base * 2^(attempt-1))] (the doubling saturates instead of
    wrapping), the delay is the ceiling itself without jitter and lies in its
    upper half with jitter. *)
Theorem retry_delay_bounds `{Sha256} (queue_id job_id : bytes) (attempt : Z) (p : RetryPolicy)
    (Hp : policy_wf p) (Hv : policy_validate p = Ok tt) (Ha : is_u32 attempt) :
  exists d, retry_delay_ms queue_id job_id attempt p = Ok d /\
    (attempt = 0 -> d = 0) /\
    (1 <= attempt ->
       let ceiling := Z.min (effective_cap_ms p) (base_ms p * 2 ^ (attempt - 1)) in
       0 < ceiling /\ (if use_jitter p then ceiling <= 2 * d else d = ceiling) /\ d <= ceiling).
Proof.
  pose proof (policy_validate_ok p Hp Hv) as Hb.
  destruct Hp as (Hbase & Hcap & Hmax). unfold is_u32, is_u64 in *.
  unfold retry_delay_ms. rewrite Hv. cbn [mbind result_bind].
  destruct (Z.eqb_spec attempt 0) as [->|Hn]; [exists 0; split; [done|]; split; lia|].
  assert (effective_cap_ms p <= u64_max) as Hc.
  { unfold effective_cap_ms. destruct (max_delay_ms p); lia. }
  rewrite saturating_double_spec by (unfold is_u64; lia).
  assert (0 < 2 ^ (attempt - 1)) as Hpow by (apply Z.pow_pos_nonneg; lia).
  replace (Z.min (effective_cap_ms p) (Z.min (base_ms p * 2 ^ (attempt - 1)) u64_max))
    with (Z.min (effective_cap_ms p) (base_ms p * 2 ^ (attempt - 1))) by lia.
  assert (0 < base_ms p * 2 ^ (attempt - 1)) by nia.
  set (ceiling := Z.min (effective_cap_ms p) (base_ms p * 2 ^ (attempt - 1))).
  assert (0 < ceiling) by lia.
  destruct (use_jitter p); cbn [negb].
  - pose proof (sample_offset_range (ceiling - (ceiling + 1) / 2 + 1)
                  (jitter_draw queue_id job_id attempt)) as Hs.
    pose proof (Z.div_mod (ceiling + 1) 2 ltac:(lia)).
    pose proof (Z.mod_pos_bound (ceiling + 1) 2 ltac:(lia)).
    eexists. split; [done|]. split; [lia|]. intros _. cbn zeta. fold ceiling. lia.
  - exists ceiling. split; [done|]. split; [lia|]. intros _. cbn zeta. fold ceiling. lia.
Qed.

Lemma retry_delay_bounds_witness :
  let p := {| base_ms := 100; cap_ms := 1600; use_jitter := true; max_delay_ms := None |} in
  policy_wf p /\ policy_validate p = Ok tt /\ is_u32 5 /\
  exists d, @retry_delay_ms fips [] [] 5 p = Ok d /\ 800 <= d <= 1600.
Proof.
  intros p.
  assert (policy_wf p) as Hp by (repeat split; cbn; try lia; discriminate).
  assert (policy_validate p = Ok tt) as Hv by reflexivity.
  assert (is_u32 5) as Ha by (unfold is_u32; lia).
  split; [exact Hp|]. split; [exact Hv|]. split; [exact Ha|].
  destruct (@retry_delay_bounds fips [] [] 5 p Hp Hv Ha) as (d & Hd & _ & Hc).
  exists d. split; [exact Hd|].
  destruct (Hc ltac:(lia)) as (_ & H1 & H2). cbn in H1, H2. lia.
Defined.

(** The rejection sampler is unbiased: the accepted draws (those at or
    above the threshold, out of the 2^64 possible ones) form, for every
    offset below the span, the same number [2^64 / span] of draws. *)
Theorem sample_offset_unbiased (span : Z) (Hs : 1 <= span <= u64_max) :
  let threshold := wrapping_neg span mod span in
  let n := 2 ^ 64 / span in
  0 <= threshold < span /\
  forall r, 0 <= r < span ->
    let first := threshold + (r - threshold) mod span in
    (forall q, 0 <= q < n ->
       let x := first + q * span in
       threshold <= x < 2 ^ 64 /\ forall draw, draw 0 = x -> sample_offset span draw = r) /\
    (forall x, threshold <= x < 2 ^ 64 -> x mod span = r ->
       exists q, 0 <= q < n /\ x = first + q * span).
Proof.
  intros threshold n.
  assert (threshold = 2 ^ 64 mod span) as Ht.
  { unfold threshold, wrapping_neg.
    replace ((- span) mod 2 ^ 64) with (2 ^ 64 - span).
    - replace (2 ^ 64 - span) with (2 ^ 64 + (-1) * span) by lia. apply Z.mod_add. lia.
    - apply Z.mod_unique_pos with (-1); lia. }
  pose proof (Z.mod_pos_bound (2 ^ 64) span ltac:(lia)) as Hb.
  pose proof (Z.div_mod (2 ^ 64) span ltac:(lia)) as Hd. fold n in Hd.
  rewrite <- Ht in *. split; [lia|]. intros r Hr first.
  pose proof (Z.mod_pos_bound (r - threshold) span ltac:(lia)) as Hf.
  assert (first mod span = r) as Hfr.
  { unfold first. rewrite Z.add_mod_idemp_r by lia.
    replace (threshold + (r - threshold)) with r by lia. by apply Z.mod_small. }
  split.
  - intros q Hq x. assert (threshold <= x < 2 ^ 64) as Hx by (unfold x, first in *; nia).
    split; [exact Hx|]. intros draw Hdraw. unfold sample_offset. fold threshold.
    cbn [sample_loop]. rewrite Hdraw.
    destruct (Z.leb_spec threshold x); [|lia]. unfold x. rewrite Z.mod_add by lia. exact Hfr.
  - intros x Hx Hxr. exists ((x - first) / span).
    assert ((x - first) mod span = 0) as Hm.
    { rewrite Zminus_mod, Hxr, Hfr, Z.sub_diag. apply Z.mod_0_l. lia. }
    pose proof (Z.div_mod (x - first) span ltac:(lia)) as Hxd. rewrite Hm in Hxd.
    split; [|unfold first in *; lia].
    assert (- span < x - first) by (unfold first; lia).
    unfold first in *. nia.
Qed.

Lemma sample_offset_unbiased_witness :
  1 <= 6 <= u64_max /\ sample_offset 6 (fun c => if c =? 0 then 9 else 0) = 3.
Proof.
  split; [lia|].
  destruct (sample_offset_unbiased 6 ltac:(lia)) as [_ H].
  destruct (H 3 ltac:(lia)) as [H1 _].
  destruct (H1 0 ltac:(split; [lia|reflexivity])) as [_ H2]. apply H2. reflexivity.
Defined.

Lemma effective_floor_some f b w r :
  effective_floor f b w = Some r -> r = Z.max f (b * w).
Proof.
  unfold effective_floor. destruct (w =? 0); [done|].
  destruct (checked_mul b w) as [m|] eqn:Hm; [|done]. cbn. intros [= <-].
  apply checked_mul_some in Hm as [-> _]. done.
Qed.

Lemma retry_not_before_some f d r :
  retry_not_before f d = Some r <-> r = f + d /\ f + d <= i64_max.
Proof.
  unfold retry_not_before. destruct (checked_add f d) as [m|] eqn:Hm; cbn.
  - apply checked_add_some in Hm as [-> _].
    destruct (Z.ltb_spec i64_max (f + d)); split; intros; naive_solver lia.
  - unfold checked_add in Hm. destruct (Z.leb_spec (f + d) u64_max); [done|].
    split; [done|]. lia.
Qed.

(** The known answers of the crate's own tests. *)
Example jitter_draw_known_value :
  let Q := map byte_of (seqZ 0 16) in
  let J := map byte_of (seqZ 16 16) in
  @jitter_draw fips Q J 1 0 = 0xa56cdc89987e2da1 /\
  @retry_delay_ms fips Q J 1
    {| base_ms := 100; cap_ms := 1600; use_jitter := true; max_delay_ms := None |}
  = Ok (50 + 0xa56cdc89987e2da1 mod 51).
Proof. vm_compute. split; reflexivity. Qed.

Example sampler_falls_back_to_midpoint : sample_offset 3 (fun _ => 0) = 1.
Proof. reflexivity. Qed.
