(* ===== verification/Keys.v ===== *)
(** Crate [stowq-keys]: the canonical key grammar, shard derivation and key
    tags ([crates/stowq-keys/src/lib.rs], grammar in [spec/keys.abnf]).

    A key is the [Key] enum; [key_to_string] is its [Display], [parse] its
    [FromStr].  Fixed-width byte arrays are byte lists with their length in
    [key_wf]; numeric fields are [Z] at their width. *)

From S2P Require Import Prelude Sha256.

(* ------------------------------------------------------------------ *)
(** * Hex *)

Definition from_hex_digit_lower (b : byte) : option Z :=
  let v := byte_val b in
  if (48 <=? v) && (v <=? 57) then Some (v - 48)
  else if (97 <=? v) && (v <=? 102) then Some (v - 97 + 10)
  else None.

(** The decoding loop over digit pairs; the caller has checked the length. *)
Fixpoint hex_decode_pairs (s : bytes) : option bytes :=
  match s with
  | h :: l :: s =>
      hi ← from_hex_digit_lower h;
      lo ← from_hex_digit_lower l;
      out ← hex_decode_pairs s;
      Some (byte_of (Z.lor (Z.shiftl hi 4) lo) :: out)
  | _ => Some []
  end.

Definition hex_decode_fixed (n : nat) (s : bytes) : option bytes :=
  if decide (length s = n * 2)%nat then hex_decode_pairs s else None.

Definition hex_decode_u64 (s : bytes) : option Z := be_val <$> hex_decode_fixed 8 s.
Definition hex_decode_u32 (s : bytes) : option Z := be_val <$> hex_decode_fixed 4 s.
Definition hex_decode_u16 (s : bytes) : option Z := be_val <$> hex_decode_fixed 2 s.

(** [HEX[n]]: the n-th lowercase hex digit. *)
Definition hex_digit (n : Z) : byte := nth (Z.to_nat n) ¶"0123456789abcdef" (byte_of 48).

(** The characters [push_hex] appends. *)
Fixpoint push_hex (bs : bytes) : bytes :=
  match bs with
  | [] => []
  | b :: bs =>
      hex_digit (Z.shiftr (byte_val b) 4) :: hex_digit (Z.land (byte_val b) 15) :: push_hex bs
  end.

#[global] Arguments hex_digit : simpl never.
#[global] Arguments from_hex_digit_lower : simpl never.

(* ------------------------------------------------------------------ *)
(** * Keys *)

Inductive ParseError :=
| UnknownPrefix
| SegmentCount
| PField (name : string)
| PKind.

Inductive TermKind := TReceipt | TDead.

Definition as_char (k : TermKind) : byte :=
  match k with TReceipt => Init.Byte.x72 | TDead => Init.Byte.x64 end.

Definition from_char (c : bytes) : option TermKind :=
  if decide (c = ¶"r") then Some TReceipt
  else if decide (c = ¶"d") then Some TDead
  else None.

Inductive Key :=
| KJob (shard : Z) (job_id : bytes)
| KPayload (job_id digest : bytes)
| KClaim (shard : Z) (job_id : bytes) (generation : Z)
| KFail (shard : Z) (job_id : bytes) (generation : Z)
| KLeaseIndex (bucket shard : Z) (job_id : bytes) (generation : Z)
| KDelayIndex (bucket shard : Z) (job_id : bytes)
| KReceipt (shard : Z) (job_id : bytes)
| KDead (shard : Z) (job_id : bytes)
| KTermIndex (bucket : Z) (kind : TermKind) (shard : Z) (job_id : bytes)
| KQuarantine (bucket : Z) (qid : bytes)
| KTail (shard : Z) (job_id : bytes)
| KBeacon (nonce : bytes)
| KFormat
| KWatermark.

#[export] Instance parse_error_eq_dec : EqDecision ParseError.
Proof. solve_decision. Defined.
#[export] Instance term_kind_eq_dec : EqDecision TermKind.
Proof. solve_decision. Defined.
#[export] Instance key_eq_dec : EqDecision Key.
Proof. solve_decision. Defined.

(** The Rust field types: u16 shards, u32 generations, u64 buckets, 16-byte
    identifiers, 32-byte digests. *)
Definition is_id (b : bytes) : Prop := length b = 16%nat.

Definition key_wf (k : Key) : Prop :=
  match k with
  | KJob s j | KReceipt s j | KDead s j | KTail s j => is_u16 s /\ is_id j
  | KPayload j d => is_id j /\ length d = 32%nat
  | KClaim s j g | KFail s j g => is_u16 s /\ is_id j /\ is_u32 g
  | KLeaseIndex b s j g => is_u64 b /\ is_u16 s /\ is_id j /\ is_u32 g
  | KDelayIndex b s j | KTermIndex b _ s j => is_u64 b /\ is_u16 s /\ is_id j
  | KQuarantine b q => is_u64 b /\ is_id q
  | KBeacon n => is_id n
  | KFormat | KWatermark => True
  end.

Definition hex16 (z : Z) : bytes := push_hex (be_bytes 2 z).
Definition hex32 (z : Z) : bytes := push_hex (be_bytes 4 z).
Definition hex64 (z : Z) : bytes := push_hex (be_bytes 8 z).

Definition key_to_string (k : Key) : bytes :=
  match k with
  | KJob shard job_id => ¶"jobs/" ++ hex16 shard ++ [slash] ++ push_hex job_id
  | KPayload job_id digest => ¶"payloads/" ++ push_hex job_id ++ [slash] ++ push_hex digest
  | KClaim shard job_id generation =>
      ¶"claims/" ++ hex16 shard ++ [slash] ++ push_hex job_id ++ [slash] ++ hex32 generation
  | KFail shard job_id generation =>
      ¶"fails/" ++ hex16 shard ++ [slash] ++ push_hex job_id ++ [slash] ++ hex32 generation
  | KLeaseIndex bucket shard job_id generation =>
      ¶"leases/" ++ hex64 bucket ++ [slash] ++ hex16 shard ++ [slash] ++
      push_hex job_id ++ [dot] ++ hex32 generation
  | KDelayIndex bucket shard job_id =>
      ¶"delayed/" ++ hex64 bucket ++ [slash] ++ hex16 shard ++ [slash] ++ push_hex job_id
  | KReceipt shard job_id => ¶"receipts/" ++ hex16 shard ++ [slash] ++ push_hex job_id
  | KDead shard job_id => ¶"dead/" ++ hex16 shard ++ [slash] ++ push_hex job_id
  | KTermIndex bucket kind shard job_id =>
      ¶"termidx/" ++ hex64 bucket ++ [slash] ++ [as_char kind] ++ [slash] ++
      hex16 shard ++ [slash] ++ push_hex job_id
  | KQuarantine bucket qid => ¶"quarantine/" ++ hex64 bucket ++ [slash] ++ push_hex qid
  | KBeacon nonce => ¶"meta/clock/" ++ push_hex nonce
  | KTail shard job_id => ¶"tails/" ++ hex16 shard ++ [slash] ++ push_hex job_id
  | KFormat => ¶"meta/FORMAT"
  | KWatermark => ¶"meta/watermark"
  end.

Definition field {A} (name : string) (v : option A) : Result ParseError A :=
  ok_or v (PField name).

(** Parses a canonical key: exact widths, lowercase hex, exact segment
    counts, no trailing separators. *)
Definition parse (s : bytes) : Result ParseError Key :=
  let parts := split_on slash s in
  let part i := nth i parts [] in
  let seg n : Result ParseError unit :=
    if decide (length parts = n) then Ok tt else Err SegmentCount in
  let first := part 0%nat in
  if decide (first = ¶"jobs") then
    _ ← seg 3%nat;
    shard ← field "shard" (hex_decode_u16 (part 1%nat));
    job_id ← field "job-id" (hex_decode_fixed 16 (part 2%nat));
    Ok (KJob shard job_id)
  else if decide (first = ¶"payloads") then
    _ ← seg 3%nat;
    job_id ← field "job-id" (hex_decode_fixed 16 (part 1%nat));
    digest ← field "digest" (hex_decode_fixed 32 (part 2%nat));
    Ok (KPayload job_id digest)
  else if decide (first = ¶"claims" \/ first = ¶"fails") then
    _ ← seg 4%nat;
    shard ← field "shard" (hex_decode_u16 (part 1%nat));
    job_id ← field "job-id" (hex_decode_fixed 16 (part 2%nat));
    generation ← field "generation" (hex_decode_u32 (part 3%nat));
    Ok (if decide (first = ¶"claims") then KClaim shard job_id generation
        else KFail shard job_id generation)
  else if decide (first = ¶"leases") then
    _ ← seg 4%nat;
    '(job_s, gen_s) ← ok_or (split_once dot (part 3%nat)) (PField "lease suffix");
    bucket ← field "bucket" (hex_decode_u64 (part 1%nat));
    shard ← field "shard" (hex_decode_u16 (part 2%nat));
    job_id ← field "job-id" (hex_decode_fixed 16 job_s);
    generation ← field "generation" (hex_decode_u32 gen_s);
    Ok (KLeaseIndex bucket shard job_id generation)
  else if decide (first = ¶"delayed") then
    _ ← seg 4%nat;
    bucket ← field "bucket" (hex_decode_u64 (part 1%nat));
    shard ← field "shard" (hex_decode_u16 (part 2%nat));
    job_id ← field "job-id" (hex_decode_fixed 16 (part 3%nat));
    Ok (KDelayIndex bucket shard job_id)
  else if decide (first = ¶"receipts" \/ first = ¶"dead") then
    _ ← seg 3%nat;
    shard ← field "shard" (hex_decode_u16 (part 1%nat));
    job_id ← field "job-id" (hex_decode_fixed 16 (part 2%nat));
    Ok (if decide (first = ¶"receipts") then KReceipt shard job_id else KDead shard job_id)
  else if decide (first = ¶"termidx") then
    _ ← seg 5%nat;
    bucket ← field "bucket" (hex_decode_u64 (part 1%nat));
    kind ← ok_or (from_char (part 2%nat)) PKind;
    shard ← field "shard" (hex_decode_u16 (part 3%nat));
    job_id ← field "job-id" (hex_decode_fixed 16 (part 4%nat));
    Ok (KTermIndex bucket kind shard job_id)
  else if decide (first = ¶"quarantine") then
    _ ← seg 3%nat;
    bucket ← field "bucket" (hex_decode_u64 (part 1%nat));
    qid ← field "qid" (hex_decode_fixed 16 (part 2%nat));
    Ok (KQuarantine bucket qid)
  else if decide (first = ¶"tails") then
    _ ← seg 3%nat;
    shard ← field "shard" (hex_decode_u16 (part 1%nat));
    job_id ← field "job-id" (hex_decode_fixed 16 (part 2%nat));
    Ok (KTail shard job_id)
  else if decide (first = ¶"meta") then
    if decide (parts !! 1%nat = Some ¶"FORMAT" /\ length parts = 2%nat) then Ok KFormat
    else if decide (parts !! 1%nat = Some ¶"watermark" /\ length parts = 2%nat) then Ok KWatermark
    else if decide (parts !! 1%nat = Some ¶"clock") then
      _ ← seg 3%nat;
      nonce ← field "nonce" (hex_decode_fixed 16 (part 2%nat));
      Ok (KBeacon nonce)
    else Err UnknownPrefix
  else Err UnknownPrefix.

(* ------------------------------------------------------------------ *)
(** * Shard derivation and key tag *)

(** [u32::is_power_of_two] and [u32::trailing_zeros]. *)
Definition is_power_of_two (n : Z) : bool := (0 <? n) && (Z.land n (n - 1) =? 0).
Definition trailing_zeros (n : Z) : Z := if n =? 0 then 32 else Z.log2 (Z.land n (- n)).

Section Hash.
Context `{Sha256}.

(** [None] is the assertion failure on a bad shard count. *)
Definition compute_shard (queue_id job_id : bytes) (shard_count : Z) : option Z :=
  if is_power_of_two shard_count && (shard_count <=? 65536) then
    let k := trailing_zeros shard_count in
    let result := sha256 (¶"StowQ-1-shard" ++ [byte_of 0] ++ queue_id ++ job_id) in
    let val := be_val (take 2 result) in
    Some (if 16 <=? k then val else Z.land val (Z.shiftl 1 k - 1))
  else None.

(** The first 8 bytes of the domain-separated hash of queue and key. *)
Definition key_tag (queue_id key : bytes) : bytes :=
  take 8 (sha256 (¶"StowQ-1-key" ++ [byte_of 0] ++ queue_id ++ key)).
End Hash.

(* ------------------------------------------------------------------ *)
(** * Hex lemmas *)

Lemma hex_digit_decode n : 0 <= n < 16 -> from_hex_digit_lower (hex_digit n) = Some n.
Proof.
  intros Hn.
  assert (forallb (fun n => bool_decide (from_hex_digit_lower (hex_digit n) = Some n))
            (seqZ 0 16) = true) as HF by (vm_compute; reflexivity).
  exact (proj1 (bool_decide_eq_true _) (forallb_seqZ _ _ HF n Hn)).
Qed.

Lemma hex_digit_inv b n : from_hex_digit_lower b = Some n -> hex_digit n = b /\ 0 <= n < 16.
Proof. destruct b; vm_compute; intros [= <-] || intros [=]; done. Qed.

Lemma hex_nibbles_join b :
  byte_of (Z.lor (Z.shiftl (Z.shiftr (byte_val b) 4) 4) (Z.land (byte_val b) 15)) = b.
Proof. destruct b; reflexivity. Qed.

Lemma nibble_ranges b :
  0 <= Z.shiftr (byte_val b) 4 < 16 /\ 0 <= Z.land (byte_val b) 15 < 16.
Proof. destruct b; vm_compute; repeat split; congruence. Qed.

Lemma hex_nibbles_split hi lo :
  0 <= hi < 16 -> 0 <= lo < 16 ->
  let v := byte_val (byte_of (Z.lor (Z.shiftl hi 4) lo)) in
  Z.shiftr v 4 = hi /\ Z.land v 15 = lo.
Proof.
  intros Hh Hl.
  assert (forallb (fun hi => forallb (fun lo =>
            let v := byte_val (byte_of (Z.lor (Z.shiftl hi 4) lo)) in
            (Z.shiftr v 4 =? hi) && (Z.land v 15 =? lo)) (seqZ 0 16)) (seqZ 0 16) = true) as HF
    by (vm_compute; reflexivity).
  pose proof (forallb_seqZ _ _ (forallb_seqZ _ _ HF hi Hh) lo Hl) as Hv. cbn zeta in Hv |- *.
  apply andb_true_iff in Hv as [H1 H2]. by split; apply Z.eqb_eq.
Qed.

Lemma push_hex_length bs : length (push_hex bs) = (length bs * 2)%nat.
Proof. induction bs; cbn; lia. Qed.

Lemma hex_decode_pairs_push bs : hex_decode_pairs (push_hex bs) = Some bs.
Proof.
  induction bs as [|b bs IH]; cbn; [done|].
  destruct (nibble_ranges b) as [H1 H2].
  rewrite !hex_digit_decode by done. cbn. rewrite IH. cbn. by rewrite hex_nibbles_join.
Qed.

Lemma push_hex_inj a b : push_hex a = push_hex b -> a = b.
Proof. intros E. pose proof (hex_decode_pairs_push a). rewrite E, hex_decode_pairs_push in H. congruence. Qed.

Lemma hex_decode_fixed_push n bs :
  length bs = n -> hex_decode_fixed n (push_hex bs) = Some bs.
Proof.
  intros <-. unfold hex_decode_fixed. rewrite decide_True by apply push_hex_length.
  apply hex_decode_pairs_push.
Qed.

Lemma hex_decode_fixed_inv n s bs :
  hex_decode_fixed n s = Some bs -> push_hex bs = s /\ length bs = n.
Proof.
  unfold hex_decode_fixed. case_decide as Hl; [|done].
  revert s bs Hl. induction n as [|n IH]; intros s bs Hl.
  - destruct s; [|done]. cbn. by intros [= <-].
  - destruct s as [|h [|l s]]; try done. cbn [hex_decode_pairs].
    destruct (from_hex_digit_lower h) as [hi|] eqn:Hh; [|done].
    destruct (from_hex_digit_lower l) as [lo|] eqn:Hlo; [|done].
    cbn [mbind option_bind].
    destruct (hex_decode_pairs s) as [out|] eqn:Hs; [|done]. intros [= <-].
    apply hex_digit_inv in Hh as [<- Hh]. apply hex_digit_inv in Hlo as [<- Hlo].
    destruct (IH s out) as [<- Hlen]; [cbn in Hl; lia|done|].
    destruct (hex_nibbles_split hi lo Hh Hlo) as [H1 H2].
    cbn [push_hex length]. rewrite H1, H2. split; [done|lia].
Qed.

(** The fixed-width integer fields. *)
Lemma hex_decode_be_push (n : nat) z :
  0 <= z < 256 ^ Z.of_nat n ->
  be_val <$> hex_decode_fixed n (push_hex (be_bytes n z)) = Some z.
Proof.
  intros Hz. rewrite hex_decode_fixed_push by apply be_bytes_length.
  cbn. by rewrite be_val_bytes_small.
Qed.

Lemma hex_decode_be_inv (n : nat) s z :
  be_val <$> hex_decode_fixed n s = Some z ->
  push_hex (be_bytes n z) = s /\ 0 <= z < 256 ^ Z.of_nat n.
Proof.
  destruct (hex_decode_fixed n s) as [bs|] eqn:Hs; [|done]. cbn. intros [= <-].
  apply hex_decode_fixed_inv in Hs as [<- Hl]. split.
  - by rewrite be_bytes_val_n.
  - rewrite <- Hl. apply be_val_range.
Qed.

Lemma hex_decode_u16_hex16 z : is_u16 z -> hex_decode_u16 (hex16 z) = Some z.
Proof. intros H. apply hex_decode_be_push. unfold is_u16 in H. cbn. lia. Qed.
Lemma hex_decode_u32_hex32 z : is_u32 z -> hex_decode_u32 (hex32 z) = Some z.
Proof. intros H. apply hex_decode_be_push. unfold is_u32 in H. cbn. lia. Qed.
Lemma hex_decode_u64_hex64 z : is_u64 z -> hex_decode_u64 (hex64 z) = Some z.
Proof. intros H. apply hex_decode_be_push. unfold is_u64 in H. cbn. lia. Qed.

Lemma hex_decode_u16_inv s z : hex_decode_u16 s = Some z -> hex16 z = s /\ is_u16 z.
Proof. intros [<- H]%hex_decode_be_inv. unfold is_u16. cbn in H. split; [done|lia]. Qed.
Lemma hex_decode_u32_inv s z : hex_decode_u32 s = Some z -> hex32 z = s /\ is_u32 z.
Proof. intros [<- H]%hex_decode_be_inv. unfold is_u32. cbn in H. split; [done|lia]. Qed.
Lemma hex_decode_u64_inv s z : hex_decode_u64 s = Some z -> hex64 z = s /\ is_u64 z.
Proof. intros [<- H]%hex_decode_be_inv. unfold is_u64. cbn in H. split; [done|lia]. Qed.

Lemma hex_digit_not_sep n c : 0 <= n < 16 -> c = slash \/ c = dot -> hex_digit n <> c.
Proof.
  intros Hn Hc E. pose proof (hex_digit_decode n Hn) as H. rewrite E in H.
  destruct Hc as [-> | ->]; by vm_compute in H.
Qed.

Lemma push_hex_no_sep c bs : c = slash \/ c = dot -> c ∉ push_hex bs.
Proof.
  intros Hc. induction bs as [|b bs IH]; cbn; [apply not_elem_of_nil|].
  destruct (nibble_ranges b) as [H1 H2].
  rewrite !not_elem_of_cons. repeat split; [..|done];
    intros ->; eapply hex_digit_not_sep in Hc; eauto.
Qed.

Lemma push_hex_no_slash bs : slash ∉ push_hex bs.
Proof. apply push_hex_no_sep. auto. Qed.
Lemma push_hex_no_dot bs : dot ∉ push_hex bs.
Proof. apply push_hex_no_sep. auto. Qed.
#[export] Hint Resolve push_hex_no_slash push_hex_no_dot : stowq.

(** Hex rendering preserves the order of equal-width byte strings. *)
Lemma hex_digit_mono n m :
  0 <= n < 16 -> 0 <= m < 16 ->
  (byte_val (hex_digit n) ?= byte_val (hex_digit m)) = (n ?= m).
Proof.
  intros Hn Hm.
  assert (forallb (fun n => forallb (fun m =>
     bool_decide ((byte_val (hex_digit n) ?= byte_val (hex_digit m)) = (n ?= m)))
     (seqZ 0 16)) (seqZ 0 16) = true) as HF by (vm_compute; reflexivity).
  exact (proj1 (bool_decide_eq_true _) (forallb_seqZ _ _ (forallb_seqZ _ _ HF n Hn) m Hm)).
Qed.

Lemma nibbles_cmp b c :
  (byte_val b ?= byte_val c) =
  match Z.shiftr (byte_val b) 4 ?= Z.shiftr (byte_val c) 4 with
  | Eq => Z.land (byte_val b) 15 ?= Z.land (byte_val c) 15
  | r => r
  end.
Proof.
  rewrite !Z.shiftr_div_pow2 by lia. change 15 with (Z.ones 4). rewrite !Z.land_ones by lia.
  change (2 ^ 4) with 16.
  pose proof (Z.div_mod (byte_val b) 16 ltac:(lia)). pose proof (Z.mod_pos_bound (byte_val b) 16 ltac:(lia)).
  pose proof (Z.div_mod (byte_val c) 16 ltac:(lia)). pose proof (Z.mod_pos_bound (byte_val c) 16 ltac:(lia)).
  destruct (Z.compare_spec (byte_val b / 16) (byte_val c / 16)) as [E|L|G].
  - destruct (Z.compare_spec (byte_val b mod 16) (byte_val c mod 16));
      rewrite ?Z.compare_eq_iff, ?Z.compare_lt_iff, ?Z.compare_gt_iff; lia.
  - apply Z.compare_lt_iff. lia.
  - apply Z.compare_gt_iff. lia.
Qed.

Lemma push_hex_cmp a b :
  length a = length b -> bytes_cmp (push_hex a) (push_hex b) = bytes_cmp a b.
Proof.
  revert b; induction a as [|x a IH]; intros [|y b] Hl; try done.
  cbn [push_hex bytes_cmp]. cbn in Hl. injection Hl as Hl.
  destruct (nibble_ranges x), (nibble_ranges y).
  rewrite !hex_digit_mono, (nibbles_cmp x y) by done.
  destruct (_ ?= Z.shiftr (byte_val y) 4); try done.
  destruct (_ ?= Z.land (byte_val y) 15); try done. by apply IH.
Qed.

Lemma bytes_cmp_app_ne a b r1 r2 :
  length a = length b -> bytes_cmp a b <> Eq -> bytes_cmp (a ++ r1) (b ++ r2) = bytes_cmp a b.
Proof.
  revert b; induction a as [|x a IH]; intros [|y b] Hl He; try done.
  cbn in *. destruct (byte_val x ?= byte_val y); try done. apply IH; [lia|done].
Qed.

Lemma hex_be_cmp (n : nat) x y :
  0 <= x < 256 ^ Z.of_nat n -> 0 <= y < 256 ^ Z.of_nat n ->
  bytes_cmp (push_hex (be_bytes n x)) (push_hex (be_bytes n y)) = (x ?= y).
Proof.
  intros Hx Hy. rewrite push_hex_cmp by (by rewrite !be_bytes_length).
  rewrite bytes_cmp_be_val by (by rewrite !be_bytes_length).
  by rewrite !be_val_bytes_small.
Qed.

(* ------------------------------------------------------------------ *)
(** * Round trips *)

(** The segments of a key between its slashes. *)
Definition segments (k : Key) : list bytes :=
  match k with
  | KJob s j => [¶"jobs"; hex16 s; push_hex j]
  | KPayload j d => [¶"payloads"; push_hex j; push_hex d]
  | KClaim s j g => [¶"claims"; hex16 s; push_hex j; hex32 g]
  | KFail s j g => [¶"fails"; hex16 s; push_hex j; hex32 g]
  | KLeaseIndex b s j g => [¶"leases"; hex64 b; hex16 s; push_hex j ++ dot :: hex32 g]
  | KDelayIndex b s j => [¶"delayed"; hex64 b; hex16 s; push_hex j]
  | KReceipt s j => [¶"receipts"; hex16 s; push_hex j]
  | KDead s j => [¶"dead"; hex16 s; push_hex j]
  | KTermIndex b k s j => [¶"termidx"; hex64 b; [as_char k]; hex16 s; push_hex j]
  | KQuarantine b q => [¶"quarantine"; hex64 b; push_hex q]
  | KTail s j => [¶"tails"; hex16 s; push_hex j]
  | KBeacon n => [¶"meta"; ¶"clock"; push_hex n]
  | KFormat => [¶"meta"; ¶"FORMAT"]
  | KWatermark => [¶"meta"; ¶"watermark"]
  end.

Lemma key_to_string_segments k : key_to_string k = join_with slash (segments k).
Proof. destruct k; reflexivity. Qed.

Lemma split_join ps :
  ps <> [] -> Forall (fun p => slash ∉ p) ps -> split_on slash (join_with slash ps) = ps.
Proof.
  induction ps as [|p [|q ps] IH]; intros Hne HF; [done|..].
  - inversion HF; subst. cbn. by apply split_on_no.
  - inversion HF; subst. cbn [join_with]. rewrite split_on_app by done. f_equal. by apply IH.
Qed.

Lemma lit_no_slash (s : bytes) : bool_decide (slash ∉ s) = true -> slash ∉ s.
Proof. apply bool_decide_eq_true. Qed.

Lemma segments_no_slash k : Forall (fun p => slash ∉ p) (segments k).
Proof.
  assert (forall k, slash ∉ [as_char k]) as Hk by (intros []; by apply lit_no_slash).
  destruct k; cbn [segments]; unfold hex16, hex32, hex64; rewrite ?Forall_cons, Forall_nil;
    repeat split; auto using push_hex_no_slash;
    try match goal with |- slash ∉ str _ => apply lit_no_slash; vm_compute; reflexivity end.
  rewrite not_elem_of_app, not_elem_of_cons. repeat split; auto using push_hex_no_slash.
Qed.

Lemma split_key_to_string k : split_on slash (key_to_string k) = segments k.
Proof.
  rewrite key_to_string_segments. apply split_join; [by destruct k|]. apply segments_no_slash.
Qed.

(** Decides the equations between literals that select [parse]'s branch. *)
Ltac lit_decide :=
  repeat match goal with
    | |- context [if @decide ?P ?d then _ else _] =>
        first
          [ rewrite (@decide_True _ P d)
              by (vm_compute; first [reflexivity | left; reflexivity | right; reflexivity
                                    | split; reflexivity])
          | rewrite (@decide_False _ P d)
              by (vm_compute; first [discriminate | intros [?|?]; discriminate
                                    | intros [? ?]; discriminate]) ];
        cbn [mbind result_bind]
    end.

Lemma parse_key_to_string_aux (k : Key) : key_wf k -> parse (key_to_string k) = Ok k.
Proof.
  intros Hk.
  unfold parse. rewrite split_key_to_string.
  destruct k; cbn [segments nth length key_wf] in *; unfold is_id in *; destruct_and?;
    lit_decide; unfold field;
    rewrite ?split_once_app by eauto with stowq; cbn [ok_or mbind result_bind];
    rewrite ?hex_decode_u16_hex16, ?hex_decode_u32_hex32, ?hex_decode_u64_hex64,
      ?hex_decode_fixed_push by done;
    cbn [ok_or mbind result_bind]; try done.
  by destruct kind; cbn.
Qed.

(** Every well-formed key survives printing and parsing. *)
Theorem parse_key_to_string (k : Key) (Hk : key_wf k) : parse (key_to_string k) = Ok k.
Proof. exact (parse_key_to_string_aux k Hk). Qed.

Lemma parse_key_to_string_witness :
  let j := map byte_of (seqZ 16 16) in
  key_wf (KClaim 1 j 7) /\ parse (key_to_string (KClaim 1 j 7)) = Ok (KClaim 1 j 7).
Proof.
  intros j.
  assert (key_wf (KClaim 1 j 7)) as Hk.
  { split; [unfold is_u16; lia|]. split; [reflexivity|unfold is_u32; lia]. }
  split; [exact Hk|]. exact (parse_key_to_string (KClaim 1 j 7) Hk).
Defined.

(** Inverts a successful parse into facts about the segments. *)
Ltac parse_inv H :=
  repeat first
    [ discriminate H
    | match type of H with
      | mbind _ _ = Ok _ => apply result_bind_ok in H as (? & ? & H)
      | (let '(_, _) := ?x in _) = _ => destruct x
      | (if decide ?P then _ else _) = _ => destruct (decide P)
      end ].

Lemma from_char_inv c k : from_char c = Some k -> [as_char k] = c.
Proof. unfold from_char. repeat case_decide; intros [= <-]; subst; reflexivity. Qed.

Lemma nth_parts (parts : list bytes) (n : nat) :
  length parts = n -> parts = map (fun i => nth i parts []) (seq 0 n).
Proof.
  intros <-. induction parts as [|p parts IH]; [done|].
  cbn. f_equal. rewrite IH at 1. by rewrite <- seq_shift, map_map.
Qed.

Lemma seg_ok {A : Type} (parts : list A) n (u : unit) :
  (if decide (length parts = n) then Ok tt else Err SegmentCount) = Ok u -> length parts = n.
Proof. by case_decide. Qed.

Ltac field_inv :=
  repeat match goal with
    | H : field _ _ = Ok _ |- _ => apply ok_or_ok in H
    | H : ok_or _ _ = Ok _ |- _ => apply ok_or_ok in H
    | H : hex_decode_u16 _ = Some _ |- _ => apply hex_decode_u16_inv in H as [? ?]
    | H : hex_decode_u32 _ = Some _ |- _ => apply hex_decode_u32_inv in H as [? ?]
    | H : hex_decode_u64 _ = Some _ |- _ => apply hex_decode_u64_inv in H as [? ?]
    | H : hex_decode_fixed _ _ = Some _ |- _ => apply hex_decode_fixed_inv in H as [? ?]
    | H : from_char _ = Some _ |- _ => apply from_char_inv in H
    | H : split_once _ _ = Some _ |- _ => apply split_once_some in H as [? ?]
    | H : (if decide (length _ = _) then Ok tt else _) = Ok _ |- _ => apply seg_ok in H
    end.

Lemma parse_canonical_aux (s : bytes) (k : Key) (H : parse s = Ok k) :
  key_wf k /\ key_to_string k = s.
Proof.
  rewrite key_to_string_segments.
  rewrite <- (join_split slash s). unfold parse in H.
  set (parts := split_on slash s) in *. clearbody parts. cbn zeta in H.
  parse_inv H; injection H as <-; field_inv; destruct_and?;
    match goal with Hl : length parts = _ |- _ => pose proof (nth_parts parts _ Hl) as Hp end;
    try match goal with
      | Hm : parts !! _ = Some _ |- _ => apply (nth_lookup_Some _ _ []) in Hm
      end;
    cbn [map seq] in Hp; rewrite Hp; clear Hp;
    repeat case_decide; cbn [key_wf segments join_with nth];
    (split; [unfold is_id; auto|]); cbn [nth] in *; first [congruence | intuition congruence].
Qed.

(** Parsing is strict: whatever parses is well-formed, and printing the
    parsed key gives back the very string that was parsed, so no two strings
    name the same key. *)
Theorem parse_canonical (s : bytes) (k : Key) (H : parse s = Ok k) :
  key_wf k /\ key_to_string k = s.
Proof. exact (parse_canonical_aux s k H). Qed.

Lemma parse_canonical_witness :
  let s := ¶"termidx/000000000000002a/d/0001/101112131415161718191a1b1c1d1e1f" in
  exists k, parse s = Ok k /\ key_wf k /\ key_to_string k = s.
Proof.
  intros s. exists (KTermIndex 42 TDead 1 (map byte_of (seqZ 16 16))).
  assert (parse s = Ok (KTermIndex 42 TDead 1 (map byte_of (seqZ 16 16)))) as Hs
    by (vm_compute; reflexivity).
  split; [exact Hs|]. exact (parse_canonical s _ Hs).
Defined.

(** C37: keys print and parse one to one: a string parses to a key exactly when
    it is the printed form of that key and the key is well-formed; every
    well-formed key survives printing and parsing, and no two strings name the
    same key. *)
Theorem keys_print_and_parse (s : bytes) (k : Key) : parse s = Ok k <-> key_wf k /\ key_to_string k = s.
Proof.
  split; [apply parse_canonical_aux|]. intros [Hk <-]. by apply parse_key_to_string_aux.
Qed.

Lemma key_to_string_inj k1 k2 :
  key_wf k1 -> key_wf k2 -> key_to_string k1 = key_to_string k2 -> k1 = k2.
Proof.
  intros H1 H2 E. apply parse_key_to_string_aux in H1, H2. rewrite E in H1. congruence.
Qed.

(** Distinct generations of one job list in numeric order, so the last key
    of the claim chain's listing is its highest generation. *)
Lemma claim_key_cmp shard job g1 g2 :
  is_u32 g1 -> is_u32 g2 ->
  bytes_cmp (key_to_string (KClaim shard job g1)) (key_to_string (KClaim shard job g2)) = (g1 ?= g2).
Proof.
  intros H1 H2. unfold is_u32 in *. cbn [key_to_string]. rewrite !bytes_cmp_app.
  apply hex_be_cmp; cbn; lia.
Qed.

Lemma index_bucket_order (p r1 r2 : bytes) b1 b2 :
  is_u64 b1 -> is_u64 b2 -> b1 < b2 ->
  bytes_lt (p ++ hex64 b1 ++ r1) (p ++ hex64 b2 ++ r2).
Proof.
  unfold is_u64, bytes_lt. intros H1 H2 Hlt. rewrite bytes_cmp_app.
  assert (bytes_cmp (hex64 b1) (hex64 b2) = Lt) as Hc.
  { unfold hex64. rewrite hex_be_cmp by (cbn; lia). by apply Z.compare_lt_iff. }
  rewrite bytes_cmp_app_ne; [done| |by rewrite Hc].
  unfold hex64. by rewrite !push_hex_length, !be_bytes_length.
Qed.



(* ------------------------------------------------------------------ *)
(** * Shards *)

Lemma power_of_two_pow n : is_power_of_two n = true -> exists k, 0 <= k /\ n = 2 ^ k.
Proof.
  unfold is_power_of_two. intros [H1%Z.ltb_lt H2%Z.eqb_eq]%andb_true_iff.
  exists (Z.log2 n). split; [apply Z.log2_nonneg|].
  destruct (Z.log2_spec n H1) as [Hl Hu].
  destruct (decide (n = 2 ^ Z.log2 n)) as [|Hne]; [done|]. exfalso.
  pose proof (Z.pow_pos_nonneg 2 (Z.log2 n) ltac:(lia) (Z.log2_nonneg n)).
  assert (Z.testbit (Z.land n (n - 1)) (Z.log2 n) = true) as Hb.
  { rewrite Z.land_spec, Z.bit_log2 by lia. cbn.
    replace (Z.log2 n) with (Z.log2 (n - 1)) at 1; [apply Z.bit_log2; lia|].
    apply Z.log2_unique; [apply Z.log2_nonneg|]. lia. }
  rewrite H2, Z.bits_0 in Hb. done.
Qed.

Lemma trailing_zeros_pow k : 0 <= k -> trailing_zeros (2 ^ k) = k.
Proof.
  intros Hk. unfold trailing_zeros.
  pose proof (Z.pow_pos_nonneg 2 k ltac:(lia) Hk). destruct (Z.eqb_spec (2 ^ k) 0); [lia|].
  replace (Z.land (2 ^ k) (- 2 ^ k)) with (2 ^ k); [by apply Z.log2_pow2|].
  apply Z.bits_inj'. intros i Hi. rewrite Z.land_spec, Z.pow2_bits_eqb by done.
  destruct (Z.eqb_spec k i) as [<-|]; [|done]. cbn.
  rewrite Z.bits_opp by done. symmetry. apply negb_true_iff.
  replace (Z.pred (2 ^ k)) with (Z.ones k) by (rewrite Z.ones_equiv; lia).
  apply Z.ones_spec_high. lia.
Qed.

Lemma compute_shard_cases `{Sha256} (queue_id job_id : bytes) (shard_count : Z) :
  match compute_shard queue_id job_id shard_count with
  | Some v =>
      is_power_of_two shard_count = true /\ shard_count <= 65536 /\
      0 <= v < shard_count /\ is_u16 v /\
      v = be_val (take 2 (sha256 (¶"StowQ-1-shard" ++ [byte_of 0] ++ queue_id ++ job_id)))
            mod shard_count
  | None => is_power_of_two shard_count = false \/ 65536 < shard_count
  end.
Proof.
  unfold compute_shard.
  destruct (is_power_of_two shard_count) eqn:Hp; cbn [andb]; [|by left].
  destruct (Z.leb_spec shard_count 65536) as [Hle|Hgt]; [|by right].
  destruct (power_of_two_pow _ Hp) as (k & Hk & ->). rewrite trailing_zeros_pow by done.
  set (h := sha256 _). pose proof (be_val_range (take 2 h)) as Hr.
  assert (length (take 2 h) = 2%nat) as Hlen.
  { rewrite length_take. unfold h. rewrite sha256_length. reflexivity. }
  rewrite Hlen in Hr. change (256 ^ Z.of_nat 2) with 65536 in Hr.
  set (v := be_val (take 2 h)) in *.
  split; [done|]. split; [done|]. unfold is_u16.
  pose proof (Z.pow_pos_nonneg 2 k ltac:(lia) Hk) as Hpos.
  pose proof (Z.mod_pos_bound v (2 ^ k) Hpos) as Hm.
  destruct (Z.leb_spec 16 k) as [H16|H16].
  - assert (2 ^ 16 <= 2 ^ k) by (apply Z.pow_le_mono_r; lia).
    change (2 ^ 16) with 65536 in *. rewrite Z.mod_small by lia. lia.
  - assert (Z.shiftl 1 k - 1 = Z.ones k) as ->.
    { rewrite Z.shiftl_1_l, Z.ones_equiv. lia. }
    rewrite Z.land_ones by done. lia.
Qed.

(** The known answers of the crate's tests. *)
Example shard_known_value :
  let Q := map byte_of (seqZ 0 16) in
  let J := map byte_of (seqZ 16 16) in
  @compute_shard fips Q J 65536 = Some 0x8c3e /\
  @compute_shard fips Q J 256 = Some 0x3e /\
  @compute_shard fips Q J 1 = Some 0.
Proof. vm_compute. repeat split. Qed.

Example key_tag_known_value :
  be_val (@key_tag fips (map byte_of (seqZ 0 16)) ¶"meta/FORMAT") = 0xa5af7659a5145e19.
Proof. vm_compute. reflexivity. Qed.
