(* ===== verification/Cbor.v ===== *)
(** [stowq-format/src/cbor.rs]: canonical deterministic CBOR restricted to
    the value set of the records.

    The decoder's [Reader] is its unread suffix [data[pos..]], passed
    explicitly; the depth counter is the recursion's fuel, which starts at
    [MAX_DEPTH] and is the code's own bound.  A counted loop [for _ in 0..len]
    over an untrusted 64-bit count runs on a second fuel, one more than the
    unread length: every iteration that succeeds consumes input, so the
    reader's own end-of-input error always comes first ([read_n_fuel]). *)

From S2P Require Import Prelude.

Module Cbor.

Inductive Value :=
| VUint (n : Z)
| VBool (b : bool)
| VBytes (b : bytes)
| VText (t : bytes)
| VArray (items : list Value)
| VMap (pairs : list (Value * Value)).

Inductive Error :=
| TrailingBytes
| UnexpectedEof
| NonMinimalInteger
| IndefiniteLength
| UnsupportedMajorType (m : Z)
| UnsupportedSimple (v : Z)
| InvalidUtf8
| UnsortedMapKeys
| DuplicateMapKey
| LengthOverflow
| MaxDepth.

#[export] Instance error_eq_dec : EqDecision Error.
Proof. solve_decision. Defined.

(* ------------------------------------------------------------------ *)
(** * Text *)

Definition in_range (lo hi : Z) (b : byte) : bool := (lo <=? byte_val b) && (byte_val b <=? hi).

(** [std::str::from_utf8]: well-formed UTF-8 byte sequences (Unicode
    table 3-7). *)
Fixpoint utf8_valid (s : bytes) : bool :=
  match s with
  | [] => true
  | a :: s1 =>
      if in_range 0 127 a then utf8_valid s1
      else match s1 with
        | [] => false
        | b :: s2 =>
            if in_range 194 223 a then in_range 128 191 b && utf8_valid s2
            else match s2 with
              | [] => false
              | c :: s3 =>
                  if in_range 224 239 a then
                    (if byte_val a =? 224 then in_range 160 191 b
                     else if byte_val a =? 237 then in_range 128 159 b
                     else in_range 128 191 b)
                    && in_range 128 191 c && utf8_valid s3
                  else match s3 with
                    | [] => false
                    | d :: s4 =>
                        if in_range 240 244 a then
                          (if byte_val a =? 240 then in_range 144 191 b
                           else if byte_val a =? 244 then in_range 128 143 b
                           else in_range 128 191 b)
                          && in_range 128 191 c && in_range 128 191 d && utf8_valid s4
                        else false
                    end
              end
        end
  end.

(* ------------------------------------------------------------------ *)
(** * Encoding *)

Definition push_head (major value : Z) : bytes :=
  let m := Z.shiftl major 5 in
  if value <=? 23 then [byte_of (Z.lor m value)]
  else if value <=? 0xff then [byte_of (Z.lor m 24); byte_of value]
  else if value <=? 0xffff then byte_of (Z.lor m 25) :: be_bytes 2 value
  else if value <=? 0xffffffff then byte_of (Z.lor m 26) :: be_bytes 4 value
  else byte_of (Z.lor m 27) :: be_bytes 8 value.

(** Stable sort by the encoded key ([sort_by] on the decorated pairs). *)
Fixpoint insert_by_key (x : bytes * bytes) (l : list (bytes * bytes)) : list (bytes * bytes) :=
  match l with
  | [] => [x]
  | y :: l => if bytes_leb x.1 y.1 then x :: y :: l else y :: insert_by_key x l
  end.
Definition sort_by_key (l : list (bytes * bytes)) : list (bytes * bytes) :=
  foldr insert_by_key [] l.

Definition len64 {A} (l : list A) : Z := Z.of_nat (length l).

(** [encode_into], appending nothing: the bytes a value contributes.  Each
    key is encoded once and the decorated pairs are sorted. *)
Fixpoint encode (v : Value) : bytes :=
  match v with
  | VUint n => push_head 0 n
  | VBool b => [if b then byte_of 0xf5 else byte_of 0xf4]
  | VBytes b => push_head 2 (len64 b) ++ b
  | VText t => push_head 3 (len64 t) ++ t
  | VArray items => push_head 4 (len64 items) ++ concat (map encode items)
  | VMap pairs =>
      let decorated := sort_by_key (map (fun '(k, v) => (encode k, encode v)) pairs) in
      push_head 5 (len64 decorated) ++ concat (map (fun '(k, v) => k ++ v) decorated)
  end.

(* ------------------------------------------------------------------ *)
(** * Decoding *)

Definition MAX_DEPTH : nat := 64.

Definition take_n (n : Z) (rest : bytes) : Result Error (bytes * bytes) :=
  if len64 rest <? n then Err UnexpectedEof
  else Ok (take (Z.to_nat n) rest, drop (Z.to_nat n) rest).

(** The head byte, and the following 1, 2, 4 or 8 bytes, minimally encoded. *)
Definition head (rest : bytes) : Result Error (Z * Z * bytes) :=
  '(b, rest) ← take_n 1 rest;
  let b := be_val b in
  let major := Z.shiftr b 5 in
  let info := Z.land b 0x1f in
  let wide n min :=
    '(v, rest) ← take_n n rest;
    let v := be_val v in
    if v <? min then Err NonMinimalInteger else Ok (major, v, rest) in
  if info <=? 23 then Ok (major, info, rest)
  else if info =? 24 then wide 1 24
  else if info =? 25 then wide 2 0x100
  else if info =? 26 then wide 4 0x10000
  else if info =? 27 then wide 8 0x100000000
  else Err IndefiniteLength.

(** [for _ in 0..n { out.push(rd()?) }]. *)
Fixpoint read_n {E A} (eof : E) (rd : bytes -> Result E (A * bytes)) (fuel : nat) (n : Z)
    (rest : bytes) : Result E (list A * bytes) :=
  if n <=? 0 then Ok ([], rest)
  else
    match fuel with
    | O => Err eof
    | S fuel =>
        '(a, rest) ← rd rest;
        '(l, rest) ← read_n eof rd fuel (n - 1) rest;
        Ok (a :: l, rest)
    end.

Definition read_count {E A} (eof : E) (rd : bytes -> Result E (A * bytes)) (n : Z) (rest : bytes) :=
  read_n eof rd (S (length rest)) n rest.

(** Keys strictly increasing bytewise over their encodings. *)
Fixpoint check_keys (prev : option bytes) (pairs : list (Value * Value)) : Result Error unit :=
  match pairs with
  | [] => Ok tt
  | (k, _) :: pairs =>
      let cur := encode k in
      match prev with
      | Some p =>
          if bytes_eqb cur p then Err DuplicateMapKey
          else if bytes_ltb cur p then Err UnsortedMapKeys
          else check_keys (Some cur) pairs
      | None => check_keys (Some cur) pairs
      end
  end.

(** [Reader::value] with [value_inner]; [depth_left] is
    [MAX_DEPTH - depth]. *)
Fixpoint value (depth_left : nat) (rest : bytes) : Result Error (Value * bytes) :=
  match depth_left with
  | O => Err MaxDepth
  | S d =>
      '(major, v, rest) ← head rest;
      if major =? 0 then Ok (VUint v, rest)
      else if major =? 2 then
        '(b, rest) ← take_n v rest; Ok (VBytes b, rest)
      else if major =? 3 then
        '(b, rest) ← take_n v rest;
        if utf8_valid b then Ok (VText b, rest) else Err InvalidUtf8
      else if major =? 4 then
        '(items, rest) ← read_count UnexpectedEof (value d) v rest;
        Ok (VArray items, rest)
      else if major =? 5 then
        '(pairs, rest) ←
          read_count UnexpectedEof
            (fun rest => '(k, rest) ← value d rest; '(w, rest) ← value d rest; Ok ((k, w), rest))
            v rest;
        _ ← check_keys None pairs;
        Ok (VMap pairs, rest)
      else if major =? 7 then
        if v =? 20 then Ok (VBool false, rest)
        else if v =? 21 then Ok (VBool true, rest)
        else Err (UnsupportedSimple (v mod 256))
      else Err (UnsupportedMajorType major)
  end.

(** Decodes exactly one canonical value covering the entire input. *)
Definition decode_within (depth_left : nat) (data : bytes) : Result Error Value :=
  '(v, rest) ← value depth_left data;
  match rest with
  | [] => Ok v
  | _ => Err TrailingBytes
  end.
Definition decode (data : bytes) : Result Error Value := decode_within MAX_DEPTH data.

(** Conversion unfolds the reader last. *)
#[global] Strategy 1000 [value decode_within MAX_DEPTH].

(** The crate's own rejection and acceptance tests. *)
Example decode_rejects_non_minimal :
  decode [byte_of 0x18; byte_of 5] = Err NonMinimalInteger.
Proof. reflexivity. Qed.
Example decode_rejects_unsorted :
  decode (map byte_of [0xa2; 0x61; 98; 1; 0x61; 97; 2]) = Err UnsortedMapKeys /\
  decode (map byte_of [0xa2; 0x61; 97; 1; 0x61; 97; 2]) = Err DuplicateMapKey.
Proof. split; reflexivity. Qed.
Example decode_rejects_float :
  decode (map byte_of [0xf9; 0; 0]) = Err NonMinimalInteger /\
  decode (map byte_of [0xf9; 0x3e; 0]) = Err (UnsupportedSimple 0).
Proof. split; reflexivity. Qed.
Example decode_hostile_length :
  decode (map byte_of [0x5b; 255; 255; 255; 255; 255; 255; 255; 255; 0]) = Err UnexpectedEof /\
  decode (map byte_of [0xbb; 255; 255; 255; 255; 255; 255; 255; 255]) = Err UnexpectedEof.
Proof. split; vm_compute; reflexivity. Qed.
Example decode_bounds_depth : decode (replicate 100 (byte_of 0x81)) = Err MaxDepth.
Proof. vm_compute. reflexivity. Qed.
Example decode_rejects_bad_utf8 : decode (map byte_of [0x62; 0xc3; 0x28]) = Err InvalidUtf8.
Proof. reflexivity. Qed.

(* ------------------------------------------------------------------ *)
(** * Heads *)

Lemma take_n_app a rest : take_n (len64 a) (a ++ rest) = Ok (a, rest).
Proof.
  unfold take_n, len64. rewrite length_app.
  destruct (Z.ltb_spec (Z.of_nat (length a + length rest)) (Z.of_nat (length a))); [lia|].
  by rewrite Nat2Z.id, take_app_length, drop_app_length.
Qed.

Lemma take_n_app_eq n a rest : n = len64 a -> take_n n (a ++ rest) = Ok (a, rest).
Proof. intros ->. apply take_n_app. Qed.

Lemma take_n_inv n l a rest :
  0 <= n -> take_n n l = Ok (a, rest) -> l = a ++ rest /\ len64 a = n.
Proof.
  unfold take_n, len64. intros Hn.
  destruct (Z.ltb_spec (Z.of_nat (length l)) n); [done|]. intros [= <- <-].
  rewrite take_drop, length_take. split; [done|]. lia.
Qed.

Lemma be_val_single b : be_val [b] = byte_val b.
Proof. rewrite be_val_cons. cbn. lia. Qed.

(** The first byte of a head: its major type and its info bits. *)
Lemma head_byte_split major info :
  0 <= major < 8 -> 0 <= info < 32 ->
  let b := byte_val (byte_of (Z.lor (Z.shiftl major 5) info)) in
  Z.shiftr b 5 = major /\ Z.land b 0x1f = info.
Proof.
  intros Hm Hi.
  assert (forallb (fun m => forallb (fun i =>
            let b := byte_val (byte_of (Z.lor (Z.shiftl m 5) i)) in
            (Z.shiftr b 5 =? m) && (Z.land b 0x1f =? i)) (seqZ 0 32)) (seqZ 0 8) = true) as HF
    by (vm_compute; reflexivity).
  pose proof (forallb_seqZ _ _ (forallb_seqZ _ _ HF major Hm) info Hi) as Hv. cbn zeta in Hv |- *.
  apply andb_true_iff in Hv as [H1 H2]. by split; apply Z.eqb_eq.
Qed.

Lemma head_byte_join b :
  byte_of (Z.lor (Z.shiftl (Z.shiftr (byte_val b) 5) 5) (Z.land (byte_val b) 0x1f)) = b /\
  0 <= Z.shiftr (byte_val b) 5 < 8 /\ 0 <= Z.land (byte_val b) 0x1f < 32.
Proof. destruct b; vm_compute; repeat split; congruence. Qed.

Lemma head_cons b rest :
  head (b :: rest) =
  (let major := Z.shiftr (byte_val b) 5 in
   let info := Z.land (byte_val b) 0x1f in
   let wide n min :=
     '(v, rest) ← take_n n rest;
     let v := be_val v in
     if v <? min then Err NonMinimalInteger else Ok (major, v, rest) in
   if info <=? 23 then Ok (major, info, rest)
   else if info =? 24 then wide 1 24
   else if info =? 25 then wide 2 0x100
   else if info =? 26 then wide 4 0x10000
   else if info =? 27 then wide 8 0x100000000
   else Err IndefiniteLength).
Proof.
  unfold head. change (b :: rest) with ([b] ++ rest).
  rewrite (take_n_app_eq 1 [b] rest) by reflexivity. cbn [mbind result_bind].
  by rewrite be_val_single.
Qed.

Lemma be_wide_app (n : nat) v rest :
  0 <= v < 256 ^ Z.of_nat n ->
  take_n (Z.of_nat n) (be_bytes n v ++ rest) = Ok (be_bytes n v, rest) /\
  be_val (be_bytes n v) = v.
Proof.
  intros Hv. split; [|by apply be_val_bytes_small].
  apply take_n_app_eq. unfold len64. by rewrite be_bytes_length.
Qed.

(** Reading back a head. *)
Lemma head_push major v rest :
  0 <= major < 8 -> is_u64 v -> head (push_head major v ++ rest) = Ok (major, v, rest).
Proof.
  unfold is_u64, push_head. intros Hm Hv.
  destruct (Z.leb_spec v 23).
  { cbn [app]. rewrite head_cons.
    destruct (head_byte_split major v Hm ltac:(lia)) as [H1 H2]. cbn zeta in H1, H2.
    rewrite H1, H2. cbn zeta. destruct (Z.leb_spec v 23); [done|lia]. }
  destruct (Z.leb_spec v 0xff).
  { cbn [app]. rewrite head_cons.
    destruct (head_byte_split major 24 Hm ltac:(lia)) as [H1 H2]. cbn zeta in H1, H2.
    rewrite H1, H2. cbn zeta. cbn [Z.leb Z.eqb Z.compare Pos.compare Pos.compare_cont Pos.eqb].
    change (byte_of v :: rest) with ([byte_of v] ++ rest).
    rewrite take_n_app_eq by reflexivity. cbn [mbind result_bind].
    rewrite be_val_single, byte_val_of_small by lia.
    destruct (Z.ltb_spec v 24); [lia|done]. }
  destruct (Z.leb_spec v 0xffff); [|destruct (Z.leb_spec v 0xffffffff)];
    cbn [app]; rewrite head_cons;
    match goal with |- context [Z.lor _ ?i] =>
      destruct (head_byte_split major i Hm ltac:(lia)) as [H1' H2'] end;
    cbn zeta in H1', H2'; rewrite H1', H2'; cbn zeta;
    cbn [Z.leb Z.eqb Z.compare Pos.compare Pos.compare_cont Pos.eqb].
  - destruct (be_wide_app 2 v rest ltac:(cbn; lia)) as [Ht Hb]. change (Z.of_nat 2) with 2 in Ht.
    rewrite Ht. cbn [mbind result_bind]. rewrite Hb. destruct (Z.ltb_spec v 0x100); [lia|done].
  - destruct (be_wide_app 4 v rest ltac:(cbn; lia)) as [Ht Hb]. change (Z.of_nat 4) with 4 in Ht.
    rewrite Ht. cbn [mbind result_bind]. rewrite Hb. destruct (Z.ltb_spec v 0x10000); [lia|done].
  - destruct (be_wide_app 8 v rest ltac:(cbn; lia)) as [Ht Hb]. change (Z.of_nat 8) with 8 in Ht.
    rewrite Ht. cbn [mbind result_bind]. rewrite Hb. destruct (Z.ltb_spec v 0x100000000); [lia|done].
Qed.

Lemma wide_inv (n : nat) major min rest m v rest' :
  ('(v, rest) ← take_n (Z.of_nat n) rest;
   let v := be_val v in
   if v <? min then Err NonMinimalInteger else Ok (major, v, rest) : Result Error (Z * Z * bytes))
  = Ok (m, v, rest') ->
  m = major /\ min <= v < 256 ^ Z.of_nat n /\ rest = be_bytes n v ++ rest'.
Proof.
  intros (x & Hx & H)%result_bind_ok. destruct x as [a r]. cbn zeta in H.
  apply take_n_inv in Hx as [-> Hl]; [|lia].
  assert (length a = n) as Hn by (unfold len64 in Hl; lia).
  destruct (Z.ltb_spec (be_val a) min) as [|Hge]; [done|]. injection H as <- <- <-.
  pose proof (be_val_range a) as Hr. rewrite Hn in Hr.
  rewrite (be_bytes_val_n n a Hn). split; [done|]. split; [lia|done].
Qed.

(** A head that is accepted is the minimal head of its value. *)
Lemma head_inv l major v rest :
  head l = Ok (major, v, rest) ->
  l = push_head major v ++ rest /\ 0 <= major < 8 /\ is_u64 v.
Proof.
  destruct l as [|b l]; [done|]. rewrite head_cons. cbn zeta.
  destruct (head_byte_join b) as (Hj & Hm & Hi).
  set (mj := Z.shiftr (byte_val b) 5) in *. set (info := Z.land (byte_val b) 0x1f) in *.
  clearbody mj info. unfold is_u64, push_head.
  destruct (Z.leb_spec info 23).
  { intros [= <- <- <-]. destruct (Z.leb_spec info 23); [|lia]. cbn [app]. rewrite Hj.
    split; [done|]. split; lia. }
  repeat match goal with |- context [info =? ?k] => destruct (Z.eqb_spec info k) as [->|] end;
    try done.
  - intros (-> & Hv & ->)%(wide_inv 1). change (256 ^ Z.of_nat 1) with 256 in Hv.
    destruct (Z.leb_spec v 23); [lia|]. destruct (Z.leb_spec v 0xff); [|lia].
    rewrite <- Hj. cbn [be_bytes app]. change (256 ^ Z.of_nat 0) with 1. rewrite Z.div_1_r.
    split; [done|]. split; lia.
  - intros (-> & Hv & ->)%(wide_inv 2). change (256 ^ Z.of_nat 2) with 0x10000 in Hv.
    destruct (Z.leb_spec v 23); [lia|]. destruct (Z.leb_spec v 0xff); [lia|].
    destruct (Z.leb_spec v 0xffff); [|lia]. rewrite <- Hj. split; [done|]. split; lia.
  - intros (-> & Hv & ->)%(wide_inv 4). change (256 ^ Z.of_nat 4) with 0x100000000 in Hv.
    destruct (Z.leb_spec v 23); [lia|]. destruct (Z.leb_spec v 0xff); [lia|].
    destruct (Z.leb_spec v 0xffff); [lia|]. destruct (Z.leb_spec v 0xffffffff); [|lia].
    rewrite <- Hj. split; [done|]. split; lia.
  - intros (-> & Hv & ->)%(wide_inv 8). change (256 ^ Z.of_nat 8) with 0x10000000000000000 in Hv.
    destruct (Z.leb_spec v 23); [lia|]. destruct (Z.leb_spec v 0xff); [lia|].
    destruct (Z.leb_spec v 0xffff); [lia|]. destruct (Z.leb_spec v 0xffffffff); [lia|].
    rewrite <- Hj. split; [done|]. split; lia.
Qed.

Lemma push_head_nonempty major v : (1 <= length (push_head major v))%nat.
Proof. unfold push_head. repeat case_match; cbn; lia. Qed.

(* ------------------------------------------------------------------ *)
(** * Canonical values *)

(** The values the decoder can produce at a given nesting allowance: 64-bit
    integers and lengths, UTF-8 text, maps with strictly increasing encoded
    keys. *)
Fixpoint wf (d : nat) (v : Value) : Prop :=
  match d with
  | O => False
  | S d =>
      match v with
      | VUint n => is_u64 n
      | VBool _ => True
      | VBytes b => is_u64 (len64 b)
      | VText t => is_u64 (len64 t) /\ utf8_valid t = true
      | VArray items => is_u64 (len64 items) /\ Forall (wf d) items
      | VMap pairs =>
          is_u64 (len64 pairs) /\ Forall (fun p => wf d p.1 /\ wf d p.2) pairs /\
          StronglySorted bytes_lt (map (fun p => encode p.1) pairs)
      end
  end.

(** A reader that undoes [enc] on whatever follows. *)
Definition undoes {E A} (rd : bytes -> Result E (A * bytes)) (enc : A -> bytes) (a : A) : Prop :=
  forall rest, rd (enc a ++ rest) = Ok (a, rest).

Lemma read_n_undoes {E A} (eof : E) (rd : bytes -> Result E (A * bytes)) enc l fuel rest :
  Forall (undoes rd enc) l -> (length l <= fuel)%nat ->
  read_n eof rd fuel (len64 l) (concat (map enc l) ++ rest) = Ok (l, rest).
Proof.
  intros HF. revert fuel. unfold len64.
  induction HF as [|a l Ha HF IH]; intros fuel Hf; [by destruct fuel|].
  destruct fuel as [|fuel]; [cbn in Hf; lia|].
  cbn [read_n length map concat]. destruct (Z.leb_spec (Z.of_nat (S (length l))) 0); [lia|].
  rewrite <- app_assoc, (Ha (concat (map enc l) ++ rest)). cbn [mbind result_bind].
  replace (Z.of_nat (S (length l)) - 1) with (Z.of_nat (length l)) by lia.
  rewrite IH by (cbn in Hf; lia). done.
Qed.

Lemma concat_length_ge {A} (enc : A -> bytes) l :
  Forall (fun a => 1 <= length (enc a))%nat l -> (length l <= length (concat (map enc l)))%nat.
Proof. induction 1; cbn; rewrite ?length_app; lia. Qed.

(** The loop fuel of [read_count] is enough for an encoding. *)
Lemma read_count_undoes {E A} (eof : E) (rd : bytes -> Result E (A * bytes)) enc l rest :
  Forall (undoes rd enc) l -> Forall (fun a => 1 <= length (enc a))%nat l ->
  read_count eof rd (len64 l) (concat (map enc l) ++ rest) = Ok (l, rest).
Proof.
  intros HF Hne. apply read_n_undoes; [done|].
  apply concat_length_ge in Hne. rewrite length_app. lia.
Qed.

(** Inversion of the counted loop. *)
Lemma read_n_inv {E A} (eof : E) (rd : bytes -> Result E (A * bytes)) enc (P : A -> Prop)
    fuel n bs l rest :
  (forall bs a rest, rd bs = Ok (a, rest) -> bs = enc a ++ rest /\ P a) ->
  0 <= n -> read_n eof rd fuel n bs = Ok (l, rest) ->
  bs = concat (map enc l) ++ rest /\ Forall P l /\ len64 l = n.
Proof.
  intros Hrd. unfold len64. revert n bs l. induction fuel as [|fuel IH]; intros n bs l Hn; cbn [read_n].
  - destruct (Z.leb_spec n 0); [|done]. intros [= <- <-]. cbn. repeat split; [constructor|lia].
  - destruct (Z.leb_spec n 0).
    { intros [= <- <-]. cbn. repeat split; [constructor|lia]. }
    intros ([a r] & Ha & Hr)%result_bind_ok. apply result_bind_ok in Hr as ([l' r'] & Hl & [= <- <-]).
    apply Hrd in Ha as [-> HP]. apply IH in Hl as (-> & HF & Hlen); [|lia].
    cbn. rewrite app_assoc. repeat split; [by constructor|lia].
Qed.

(** Fuel beyond one per unread byte changes nothing: a reader that consumes
    input fails by itself before the fuel does. *)
Lemma read_n_fuel {E A} (eof : E) (rd : bytes -> Result E (A * bytes)) f1 f2 n bs :
  (forall bs a rest, rd bs = Ok (a, rest) -> (length rest < length bs)%nat) ->
  (length bs < f1)%nat -> (length bs < f2)%nat ->
  read_n eof rd f1 n bs = read_n eof rd f2 n bs.
Proof.
  intros Hrd. revert f2 n bs. induction f1 as [|f1 IH]; intros f2 n bs H1 H2; [lia|].
  destruct f2 as [|f2]; [lia|]. cbn [read_n]. destruct (n <=? 0); [done|].
  destruct (rd bs) as [[a r]|] eqn:Hr; [|done]. cbn [mbind result_bind].
  apply Hrd in Hr. by rewrite (IH f2 (n - 1) r) by lia.
Qed.

Lemma insert_sorted x l :
  StronglySorted bytes_lt (map fst (x :: l)) -> insert_by_key x l = x :: l.
Proof.
  destruct l as [|y l]; [done|]. intros Hs. inversion Hs as [|? ? ? HF]; subst.
  cbn in HF. inversion HF as [|? ? Hlt]; subst. cbn. unfold bytes_leb.
  unfold bytes_lt in Hlt. by rewrite Hlt.
Qed.

Lemma sort_sorted l : StronglySorted bytes_lt (map fst l) -> sort_by_key l = l.
Proof.
  unfold sort_by_key. induction l as [|x l IH]; [done|]. intros Hs. cbn [foldr].
  rewrite IH; [by apply insert_sorted|]. by inversion Hs.
Qed.

Definition encode_pair (p : Value * Value) : bytes := encode p.1 ++ encode p.2.

(** The encoding of a map whose keys are already in order. *)
Lemma encode_map_sorted pairs :
  StronglySorted bytes_lt (map (fun p => encode p.1) pairs) ->
  encode (VMap pairs) = push_head 5 (len64 pairs) ++ concat (map encode_pair pairs).
Proof.
  intros Hs. cbn [encode]. rewrite sort_sorted.
  - f_equal; [f_equal; unfold len64; by rewrite length_map|].
    f_equal. rewrite map_map. apply map_ext. by intros [k v].
  - rewrite map_map. erewrite map_ext; [exact Hs|]. by intros [k v].
Qed.

Lemma encode_nonempty v : (1 <= length (encode v))%nat.
Proof.
  destruct v; cbn [encode]; rewrite ?length_app;
    pose proof push_head_nonempty as Hh; cbn; try lia;
    match goal with |- context [push_head ?m ?v] => specialize (Hh m v) end; lia.
Qed.

Lemma check_keys_sorted prev pairs :
  StronglySorted bytes_lt (map (fun p => encode p.1) pairs) ->
  (forall p, prev = Some p -> Forall (bytes_lt p) (map (fun p => encode p.1) pairs)) ->
  check_keys prev pairs = Ok tt.
Proof.
  revert prev. induction pairs as [|[k v] pairs IH]; intros prev Hs Hp; [done|].
  cbn in Hs. inversion Hs as [|? ? Hs' HF]; subst. cbn [check_keys].
  assert (check_keys (Some (encode k)) pairs = Ok tt) as Hc.
  { apply IH; [done|]. by intros p [= <-]. }
  destruct prev as [p|]; [|done]. specialize (Hp p eq_refl). cbn in Hp.
  inversion Hp as [|? ? Hlt]; subst. unfold bytes_eqb, bytes_ltb.
  rewrite bool_decide_eq_false_2 by (intros Heq; rewrite Heq in Hlt; by apply bytes_lt_irrefl in Hlt).
  unfold bytes_lt in Hlt. by rewrite (bytes_cmp_antisym p), Hlt.
Qed.

Lemma check_keys_inv prev pairs :
  check_keys prev pairs = Ok tt ->
  StronglySorted bytes_lt (map (fun p => encode p.1) pairs) /\
  (forall p, prev = Some p -> Forall (bytes_lt p) (map (fun p => encode p.1) pairs)).
Proof.
  revert prev. induction pairs as [|[k v] pairs IH]; intros prev H.
  { cbn. split; [constructor|]. intros; constructor. }
  cbn [check_keys] in H.
  assert (check_keys (Some (encode k)) pairs = Ok tt) as Hc.
  { destruct prev as [p|]; [|done]. by do 2 (case_match; [done|]). }
  apply IH in Hc as [Hs HF]. specialize (HF _ eq_refl). cbn [map fst].
  split; [by constructor|]. intros p ->. unfold bytes_eqb, bytes_ltb in H.
  case_bool_decide as Hne; [done|].
  assert (bytes_lt p (encode k)) as Hlt.
  { unfold bytes_lt. rewrite bytes_cmp_antisym.
    destruct (bytes_cmp (encode k) p) eqn:E; [|done|done].
    by apply bytes_cmp_eq in E. }
  constructor; [done|]. eapply Forall_impl; [exact HF|]. eauto using bytes_lt_trans.
Qed.

(** Reading back an encoded value at any depth that holds it. *)
Lemma value_encode d v rest : wf d v -> value d (encode v ++ rest) = Ok (v, rest).
Proof.
  revert v rest. induction d as [|d IH]; intros v rest Hv; [done|].
  assert (forall l, Forall (wf d) l -> Forall (undoes (value d) encode) l) as Hl.
  { intros l HF. eapply Forall_impl; [exact HF|]. intros a Ha r. by apply IH. }
  destruct v as [n|b|b|t|items|pairs]; cbn [wf] in Hv.
  - cbn [value encode]. by rewrite head_push.
  - destruct b; cbn [value encode app]; rewrite head_cons; reflexivity.
  - cbn [value encode]. rewrite <- app_assoc, head_push by (done || lia). cbn [mbind result_bind].
    cbn [Z.eqb Pos.eqb]. by rewrite take_n_app.
  - destruct Hv as [Hn Hu]. cbn [value encode].
    rewrite <- app_assoc, head_push by (done || lia). cbn [mbind result_bind].
    cbn [Z.eqb Pos.eqb]. rewrite take_n_app. cbn [mbind result_bind]. by rewrite Hu.
  - destruct Hv as [Hn HF]. cbn [value encode].
    rewrite <- app_assoc, head_push by (done || lia). cbn [mbind result_bind].
    cbn [Z.eqb Pos.eqb]. rewrite read_count_undoes; [done|by apply Hl|].
    apply Forall_true. intros; apply encode_nonempty.
  - destruct Hv as (Hn & HF & Hs). rewrite encode_map_sorted by done. cbn [value].
    rewrite <- app_assoc, head_push by (done || lia). cbn [mbind result_bind].
    cbn [Z.eqb Pos.eqb]. rewrite read_count_undoes.
    + cbn [mbind result_bind]. rewrite check_keys_sorted; [done..|]. by intros p [=].
    + eapply Forall_impl; [exact HF|]. intros [k w] [Hk Hw] r. unfold encode_pair. cbn [fst snd] in *.
      rewrite <- app_assoc, IH by done. cbn [mbind result_bind]. by rewrite IH.
    + apply Forall_true. intros [k w]. unfold encode_pair. rewrite length_app.
      pose proof (encode_nonempty k). cbn [fst]. lia.
Qed.

(** Whatever is read is canonical and re-encodes to the bytes consumed. *)
Lemma value_inv d bs v rest :
  value d bs = Ok (v, rest) -> bs = encode v ++ rest /\ wf d v.
Proof.
  revert bs v rest. induction d as [|d IH]; intros bs v rest H; [done|].
  cbn [value] in H. apply result_bind_ok in H as ([[major n] r] & Hh & H).
  apply head_inv in Hh as (-> & Hm & Hn).
  destruct (Z.eqb_spec major 0) as [->|].
  { injection H as <- <-. done. }
  destruct (Z.eqb_spec major 2) as [->|].
  { apply result_bind_ok in H as ([b r'] & Hb & [= <- <-]).
    apply take_n_inv in Hb as [-> <-]; [|unfold is_u64 in Hn; lia].
    cbn [encode wf]. by rewrite app_assoc. }
  destruct (Z.eqb_spec major 3) as [->|].
  { apply result_bind_ok in H as ([b r'] & Hb & H).
    apply take_n_inv in Hb as [-> <-]; [|unfold is_u64 in Hn; lia].
    destruct (utf8_valid b) eqn:Hu; [|done]. injection H as <- <-.
    cbn [encode wf]. by rewrite app_assoc. }
  destruct (Z.eqb_spec major 4) as [->|].
  { apply result_bind_ok in H as ([l r'] & Hl & [= <- <-]).
    apply (read_n_inv _ _ encode (wf d)) in Hl as (-> & HF & <-); [|exact IH|unfold is_u64 in Hn; lia].
    cbn [encode wf]. by rewrite app_assoc. }
  destruct (Z.eqb_spec major 5) as [->|].
  { apply result_bind_ok in H as ([l r'] & Hl & H).
    apply result_bind_ok in H as ([] & Hk & [= <- <-]).
    apply (read_n_inv _ _ encode_pair (fun p => wf d p.1 /\ wf d p.2)) in Hl as (-> & HF & <-);
      [| |unfold is_u64 in Hn; lia].
    - apply check_keys_inv in Hk as [Hs _]. cbn [wf].
      rewrite encode_map_sorted, app_assoc by done. done.
    - intros bs [k w] rest' Hp. apply result_bind_ok in Hp as ([k' r1] & Hk1 & Hp).
      apply result_bind_ok in Hp as ([w' r2] & Hw1 & [= <- <- <-]).
      apply IH in Hk1 as [-> ?]. apply IH in Hw1 as [-> ?].
      unfold encode_pair. cbn. by rewrite app_assoc. }
  destruct (Z.eqb_spec major 7) as [->|]; [|done].
  destruct (Z.eqb_spec n 20) as [->|]; [by injection H as <- <-|].
  destruct (Z.eqb_spec n 21) as [->|]; [by injection H as <- <-|done].
Qed.

Lemma decode_within_encode d v : wf d v -> decode_within d (encode v) = Ok v.
Proof.
  intros H. unfold decode_within. by rewrite <- (app_nil_r (encode v)), value_encode.
Qed.

(** The CBOR layer round-trips every canonical value of at most
    [MAX_DEPTH] levels. *)
Theorem decode_encode (v : Value) (H : wf MAX_DEPTH v) : decode (encode v) = Ok v.
Proof. exact (decode_within_encode MAX_DEPTH v H). Qed.

Lemma decode_encode_witness :
  let v := VMap [(VText ¶"a", VUint 1); (VText ¶"ab", VArray [VBool true; VBytes ¶"xyz"])] in
  wf MAX_DEPTH v /\ decode (encode v) = Ok v.
Proof.
  intros v. assert (wf MAX_DEPTH v) as H.
  { apply (value_inv MAX_DEPTH (encode v) v []). vm_compute. reflexivity. }
  split; [exact H|]. exact (decode_encode v H).
Defined.

Lemma decode_within_inv d data v : decode_within d data = Ok v -> data = encode v /\ wf d v.
Proof.
  unfold decode_within. intros ([w [|b rest]] & Hv & H)%result_bind_ok; [|done].
  injection H as ->. apply value_inv in Hv. by rewrite app_nil_r in Hv.
Qed.

(** Decoding accepts canonical bytes only: an accepted input is exactly
    the encoding of the value it decodes to, and that value is canonical (so
    no byte string but the encoder's own is ever accepted). *)
Theorem decode_canonical (data : bytes) (v : Value) (H : decode data = Ok v) :
  data = encode v /\ wf MAX_DEPTH v.
Proof. exact (decode_within_inv MAX_DEPTH data v H). Qed.

Lemma decode_canonical_witness :
  let data := map byte_of [0xa1; 0x61; 97; 0x18; 24] in
  decode data = Ok (VMap [(VText ¶"a", VUint 24)]) /\
  data = encode (VMap [(VText ¶"a", VUint 24)]).
Proof.
  intros data.
  assert (decode data = Ok (VMap [(VText ¶"a", VUint 24)])) as H by (vm_compute; reflexivity).
  split; [exact H|]. exact (proj1 (decode_canonical data _ H)).
Defined.

(** C39: the CBOR layer is a bijection between canonical values and the byte
    strings it accepts: bytes decode to a value exactly when they are its
    encoding and the value is canonical and at most [MAX_DEPTH] levels deep. *)
Theorem decodes_its_encodings (data : bytes) (v : Value) :
  decode data = Ok v <-> data = encode v /\ wf MAX_DEPTH v.
Proof.
  split; [apply decode_within_inv|]. intros [-> H]. by apply decode_within_encode.
Qed.

End Cbor.
