(* ===== verification/Records.v ===== *)
(** [stowq-format/src/lib.rs]: the record types, the FORMAT validation and
    the direct writer.

    A record on the wire is the canonical CBOR array
    [[magic, major, minor, queue_id, key_tag, record_type, fields]] followed
    by a byte string with the SHA-256 of the array under a type-specific
    domain separator.  The writer emits the fields map in canonical key order
    without building a [Value] tree. *)

From S2P Require Import Prelude Sha256 Keys Cbor.

Definition MAGIC : Z := 0x53544f5751312d00.
Definition MAJOR : Z := 1.
Definition MINOR : Z := 0.

Inductive RecordError :=
| RCbor (e : Cbor.Error)
| RMagic
| RVersion (major minor : Z)
| REnvelope
| RType
| RDigest
| RField (name : string)
| RUnknownField (name : bytes)
| RMissingField (name : bytes).

#[export] Existing Instance Cbor.error_eq_dec.
#[export] Instance record_error_eq_dec : EqDecision RecordError.
Proof. solve_decision. Defined.

Definition type_name (t : Z) : option bytes :=
  if t =? 1 then Some ¶"format"
  else if t =? 2 then Some ¶"job"
  else if t =? 3 then Some ¶"claim"
  else if t =? 4 then Some ¶"fail"
  else if t =? 5 then Some ¶"receipt"
  else if t =? 6 then Some ¶"dead"
  else if t =? 7 then Some ¶"watermark"
  else if t =? 8 then Some ¶"quarantine"
  else None.

Definition KNOWN_FEATURE_BITS : Z := Z.lor 1 2.

(* ------------------------------------------------------------------ *)
(** * Record types *)

Record FormatRecord := {
  shard_count : Z;
  lease_bucket_width_ns : Z;
  delayed_bucket_width_ns : Z;
  terminal_bucket_width_ns : Z;
  inline_limit : Z;
  required_feature_bits : Z
}.

Definition format_validate (f : FormatRecord) : Result RecordError unit :=
  if (shard_count f =? 0) || negb (is_power_of_two (shard_count f)) || (65536 <? shard_count f)
  then Err (RField "shard_count")
  else if (lease_bucket_width_ns f =? 0) || (delayed_bucket_width_ns f =? 0)
          || (terminal_bucket_width_ns f =? 0)
  then Err (RField "bucket width")
  else if negb (Z.land (required_feature_bits f) (u64_max - KNOWN_FEATURE_BITS) =? 0)
  then Err (RField "required_feature_bits")
  else Ok tt.

Record JobRecord := {
  j_job_id : bytes;
  j_maximum_attempts : Z;
  j_content_type : bytes;
  j_created_store_time_ns : Z;
  j_not_before_ns : option Z;
  j_payload_digest : bytes;
  j_payload_length : Z;
  j_payload_inline : option bytes;
  j_payload_key : option bytes
}.

Record ClaimBasis := {
  prev_store_time_ns : Z;
  prev_duration_ns : Z;
  observed_watermark_ns : Z
}.

Record ClaimRecord := {
  c_job_id : bytes;
  c_generation : Z;
  c_attempt : Z;
  c_worker_id : bytes;
  c_worker_token : bytes;
  c_lease_duration_ns : Z;
  c_continuation : bool;
  c_basis : option ClaimBasis;
  c_prev_token : option bytes
}.

Record FailRecord := {
  f_job_id : bytes;
  f_generation : Z;
  f_reason : Z;
  f_attempt : Z;
  f_retry_not_before_ns : Z
}.

Record ReceiptRecord := {
  r_job_id : bytes;
  r_generation : Z;
  r_attempt : Z;
  r_worker_id : bytes;
  r_worker_token : bytes;
  r_payload_digest : bytes;
  r_output_digests : list bytes
}.

Record DeadRecord := {
  d_job_id : bytes;
  d_generation : Z;
  d_attempt : Z;
  d_reason : Z
}.

Record QuarantineRecord := {
  q_qid : bytes;
  q_source_key : bytes;
  q_reason : Z;
  q_observed_store_ns : Z;
  q_detail : option Z
}.

Record WatermarkRecord := {
  highest_observed_wall_bucket : Z;
  w_sequence : Z
}.

Inductive Record_ :=
| RecFormat (r : FormatRecord)
| RecJob (r : JobRecord)
| RecClaim (r : ClaimRecord)
| RecFail (r : FailRecord)
| RecReceipt (r : ReceiptRecord)
| RecDead (r : DeadRecord)
| RecWatermark (r : WatermarkRecord)
| RecQuarantine (r : QuarantineRecord).

#[export] Instance format_record_eq_dec : EqDecision FormatRecord.
Proof. solve_decision. Defined.
#[export] Instance job_record_eq_dec : EqDecision JobRecord.
Proof. solve_decision. Defined.
#[export] Instance claim_basis_eq_dec : EqDecision ClaimBasis.
Proof. solve_decision. Defined.
#[export] Instance claim_record_eq_dec : EqDecision ClaimRecord.
Proof. solve_decision. Defined.
#[export] Instance fail_record_eq_dec : EqDecision FailRecord.
Proof. solve_decision. Defined.
#[export] Instance receipt_record_eq_dec : EqDecision ReceiptRecord.
Proof. solve_decision. Defined.
#[export] Instance dead_record_eq_dec : EqDecision DeadRecord.
Proof. solve_decision. Defined.
#[export] Instance quarantine_record_eq_dec : EqDecision QuarantineRecord.
Proof. solve_decision. Defined.
#[export] Instance watermark_record_eq_dec : EqDecision WatermarkRecord.
Proof. solve_decision. Defined.
#[export] Instance record_eq_dec : EqDecision Record_.
Proof. solve_decision. Defined.

Definition type_number (r : Record_) : Z :=
  match r with
  | RecFormat _ => 1
  | RecJob _ => 2
  | RecClaim _ => 3
  | RecFail _ => 4
  | RecReceipt _ => 5
  | RecDead _ => 6
  | RecWatermark _ => 7
  | RecQuarantine _ => 8
  end.

(* ------------------------------------------------------------------ *)
(** * The direct writer *)

Definition put_bytes (b : bytes) : bytes := Cbor.push_head 2 (Cbor.len64 b) ++ b.
Definition put_text (t : bytes) : bytes := Cbor.push_head 3 (Cbor.len64 t) ++ t.
Definition put_key (k : bytes) (v : Z) : bytes := put_text k ++ Cbor.push_head 0 v.
Definition put_key_bytes (k v : bytes) : bytes := put_text k ++ put_bytes v.
Definition put_key_text (k v : bytes) : bytes := put_text k ++ put_text v.
Definition put_key_bool (k : bytes) (v : bool) : bytes :=
  put_text k ++ [byte_of (if v then 0xf5 else 0xf4)].

Definition b2z (b : bool) : Z := if b then 1 else 0.
Definition some_z {A} (o : option A) : Z := match o with Some _ => 1 | None => 0 end.
Definition opt_bytes {A} (f : A -> bytes) (o : option A) : bytes :=
  match o with Some a => f a | None => [] end.

Definition write_basis (b : ClaimBasis) : bytes :=
  Cbor.push_head 5 3 ++
  put_key ¶"prev_duration_ns" (prev_duration_ns b) ++
  put_key ¶"prev_store_time_ns" (prev_store_time_ns b) ++
  put_key ¶"observed_watermark_ns" (observed_watermark_ns b).

Definition write_fields (record : Record_) : bytes :=
  match record with
  | RecFormat r =>
      Cbor.push_head 5 6 ++
      put_key ¶"shard_count" (shard_count r) ++
      put_key ¶"inline_limit" (inline_limit r) ++
      put_key ¶"lease_bucket_width_ns" (lease_bucket_width_ns r) ++
      put_key ¶"required_feature_bits" (required_feature_bits r) ++
      put_key ¶"delayed_bucket_width_ns" (delayed_bucket_width_ns r) ++
      put_key ¶"terminal_bucket_width_ns" (terminal_bucket_width_ns r)
  | RecJob r =>
      Cbor.push_head 5 (6 + some_z (j_not_before_ns r) + some_z (j_payload_inline r)
                          + some_z (j_payload_key r)) ++
      put_key_bytes ¶"job_id" (j_job_id r) ++
      opt_bytes (put_key_text ¶"payload_key") (j_payload_key r) ++
      put_key_text ¶"content_type" (j_content_type r) ++
      opt_bytes (put_key ¶"not_before_ns") (j_not_before_ns r) ++
      put_key_bytes ¶"payload_digest" (j_payload_digest r) ++
      opt_bytes (put_key_bytes ¶"payload_inline") (j_payload_inline r) ++
      put_key ¶"payload_length" (j_payload_length r) ++
      put_key ¶"maximum_attempts" (j_maximum_attempts r) ++
      put_key ¶"created_store_time_ns" (j_created_store_time_ns r)
  | RecClaim r =>
      Cbor.push_head 5 (7 + some_z (c_basis r) + some_z (c_prev_token r)) ++
      opt_bytes (fun b => put_text ¶"basis" ++ write_basis b) (c_basis r) ++
      put_key_bytes ¶"job_id" (c_job_id r) ++
      put_key ¶"attempt" (c_attempt r) ++
      put_key_text ¶"worker_id" (c_worker_id r) ++
      put_key ¶"generation" (c_generation r) ++
      opt_bytes (put_key_bytes ¶"prev_token") (c_prev_token r) ++
      put_key_bool ¶"continuation" (c_continuation r) ++
      put_key_bytes ¶"worker_token" (c_worker_token r) ++
      put_key ¶"lease_duration_ns" (c_lease_duration_ns r)
  | RecFail r =>
      Cbor.push_head 5 5 ++
      put_key_bytes ¶"job_id" (f_job_id r) ++
      put_key ¶"reason" (f_reason r) ++
      put_key ¶"attempt" (f_attempt r) ++
      put_key ¶"generation" (f_generation r) ++
      put_key ¶"retry_not_before_ns" (f_retry_not_before_ns r)
  | RecReceipt r =>
      Cbor.push_head 5 (6 + b2z (negb (bool_decide (r_output_digests r = [])))) ++
      put_key_bytes ¶"job_id" (r_job_id r) ++
      put_key ¶"attempt" (r_attempt r) ++
      put_key_text ¶"worker_id" (r_worker_id r) ++
      put_key ¶"generation" (r_generation r) ++
      put_key_bytes ¶"worker_token" (r_worker_token r) ++
      (if negb (bool_decide (r_output_digests r = [])) then
         put_text ¶"output_digests" ++
         Cbor.push_head 4 (Cbor.len64 (r_output_digests r)) ++
         concat (map put_bytes (r_output_digests r))
       else []) ++
      put_key_bytes ¶"payload_digest" (r_payload_digest r)
  | RecDead r =>
      Cbor.push_head 5 4 ++
      put_key_bytes ¶"job_id" (d_job_id r) ++
      put_key ¶"reason" (d_reason r) ++
      put_key ¶"attempt" (d_attempt r) ++
      put_key ¶"generation" (d_generation r)
  | RecWatermark r =>
      Cbor.push_head 5 2 ++
      put_key ¶"sequence" (w_sequence r) ++
      put_key ¶"highest_observed_wall_bucket" (highest_observed_wall_bucket r)
  | RecQuarantine r =>
      Cbor.push_head 5 (4 + some_z (q_detail r)) ++
      put_key_bytes ¶"qid" (q_qid r) ++
      opt_bytes (put_key ¶"detail") (q_detail r) ++
      put_key ¶"reason" (q_reason r) ++
      put_key_text ¶"source_key" (q_source_key r) ++
      put_key ¶"observed_store_ns" (q_observed_store_ns r)
  end.

(** The seven-element envelope array. *)
Definition encode_body (record : Record_) (queue_id tag : bytes) : bytes :=
  Cbor.push_head 4 7 ++
  Cbor.push_head 0 MAGIC ++
  Cbor.push_head 0 MAJOR ++
  Cbor.push_head 0 MINOR ++
  put_bytes queue_id ++
  put_bytes tag ++
  Cbor.push_head 0 (type_number record) ++
  write_fields record.

Section Hash.
Context `{Sha256}.

Definition record_digest (type_str body : bytes) : bytes :=
  sha256 (¶"StowQ-1-" ++ type_str ++ [byte_of 0] ++ body).

(** Body, then the digest as a trailing byte string outside the digested
    bytes. *)
Definition encode_record (record : Record_) (queue_id tag : bytes) : bytes :=
  let body := encode_body record queue_id tag in
  let digest := record_digest (default [] (type_name (type_number record))) body in
  body ++ [byte_of 0x58; byte_of 32] ++ digest.
End Hash.

(* ------------------------------------------------------------------ *)
(** * Well-formed records

    The Rust field types: [u64] numbers, fixed-width identifiers and digests,
    UTF-8 strings, and byte strings whose length fits a head. *)

Definition is_text (t : bytes) : Prop := Cbor.utf8_valid t = true /\ is_u64 (Cbor.len64 t).
Definition is_digest (b : bytes) : Prop := length b = 32%nat.

Definition record_wf (r : Record_) : Prop :=
  match r with
  | RecFormat r =>
      is_u32 (shard_count r) /\ is_u64 (lease_bucket_width_ns r) /\
      is_u64 (delayed_bucket_width_ns r) /\ is_u64 (terminal_bucket_width_ns r) /\
      is_u64 (inline_limit r) /\ is_u64 (required_feature_bits r)
  | RecJob r =>
      is_id (j_job_id r) /\ is_u64 (j_maximum_attempts r) /\ is_text (j_content_type r) /\
      is_u64 (j_created_store_time_ns r) /\ (forall n, j_not_before_ns r = Some n -> is_u64 n) /\
      is_digest (j_payload_digest r) /\ is_u64 (j_payload_length r) /\
      (forall b, j_payload_inline r = Some b -> is_u64 (Cbor.len64 b)) /\
      (forall k, j_payload_key r = Some k -> is_text k)
  | RecClaim r =>
      is_id (c_job_id r) /\ is_u64 (c_generation r) /\ is_u64 (c_attempt r) /\
      is_text (c_worker_id r) /\ is_id (c_worker_token r) /\ is_u64 (c_lease_duration_ns r) /\
      (forall b, c_basis r = Some b ->
         is_u64 (prev_store_time_ns b) /\ is_u64 (prev_duration_ns b) /\
         is_u64 (observed_watermark_ns b)) /\
      (forall t, c_prev_token r = Some t -> is_id t)
  | RecFail r =>
      is_id (f_job_id r) /\ is_u64 (f_generation r) /\ is_u64 (f_reason r) /\
      is_u64 (f_attempt r) /\ is_u64 (f_retry_not_before_ns r)
  | RecReceipt r =>
      is_id (r_job_id r) /\ is_u64 (r_generation r) /\ is_u64 (r_attempt r) /\
      is_text (r_worker_id r) /\ is_id (r_worker_token r) /\ is_digest (r_payload_digest r) /\
      Forall is_digest (r_output_digests r) /\ is_u64 (Cbor.len64 (r_output_digests r))
  | RecDead r =>
      is_id (d_job_id r) /\ is_u64 (d_generation r) /\ is_u64 (d_attempt r) /\ is_u64 (d_reason r)
  | RecWatermark r => is_u64 (highest_observed_wall_bucket r) /\ is_u64 (w_sequence r)
  | RecQuarantine r =>
      is_id (q_qid r) /\ is_text (q_source_key r) /\ is_u64 (q_reason r) /\
      is_u64 (q_observed_store_ns r) /\ (forall d, q_detail r = Some d -> is_u64 d)
  end.

(** What decoding requires beyond the field types: a FORMAT shard count in
    the four-digit range, exactly one payload form, and the evidence form
    that matches the claim's kind. *)
Definition record_valid (r : Record_) : Prop :=
  match r with
  | RecFormat r => shard_count r <= 65536
  | RecJob r => is_Some (j_payload_inline r) <-> j_payload_key r = None
  | RecClaim r =>
      (c_continuation r = true -> c_basis r = None /\ is_Some (c_prev_token r)) /\
      (c_continuation r = false -> is_Some (c_basis r) /\ c_prev_token r = None)
  | _ => True
  end.

(** The job vector of [spec/records.md]. *)
Definition vector_queue : bytes := map byte_of (seqZ 0 16).
Definition vector_job_id : bytes := map byte_of (seqZ 16 16).
Definition vector_tag : bytes := replicate 8 (byte_of 7).
Definition vector_job : Record_ :=
  RecJob {| j_job_id := vector_job_id; j_maximum_attempts := 3; j_content_type := ¶"text/plain";
            j_created_store_time_ns := 0; j_not_before_ns := None;
            j_payload_digest := Fips.sha256 ¶"hello stowq"; j_payload_length := 11;
            j_payload_inline := Some ¶"hello stowq"; j_payload_key := None |}.
Definition vector_claim : Record_ :=
  RecClaim {| c_job_id := vector_job_id; c_generation := 1; c_attempt := 1; c_worker_id := ¶"w1";
              c_worker_token := replicate 16 (byte_of 0x42); c_lease_duration_ns := 60000000000;
              c_continuation := false;
              c_basis := Some {| prev_store_time_ns := 0; prev_duration_ns := 0;
                                 observed_watermark_ns := 0 |};
              c_prev_token := None |}.
Definition vector_quarantine : Record_ :=
  RecQuarantine {| q_qid := replicate 16 (byte_of 0x10);
                   q_source_key := ¶"claims/0001/101112131415161718191a1b1c1d1e1f/00000002";
                   q_reason := 0x10; q_observed_store_ns := 5000; q_detail := Some 2 |}.

(** The normative vectors of [spec/records.md], reproduced byte for byte
    (the hexadecimal text is the specification's). *)
Example spec_vectors :
  push_hex (@encode_record fips vector_job vector_queue vector_tag) =
  ¶"871b53544f5751312d00010050000102030405060708090a0b0c0d0e0f48070707070707070702a7666a6f625f696450101112131415161718191a1b1c1d1e1f6c636f6e74656e745f747970656a746578742f706c61696e6e7061796c6f61645f6469676573745820896084e74043a1d22eb32d0eb9a63bce64c3792426a2ddd4b97509c68ff5cd386e7061796c6f61645f696e6c696e654b68656c6c6f2073746f77716e7061796c6f61645f6c656e6774680b706d6178696d756d5f617474656d7074730375637265617465645f73746f72655f74696d655f6e730058208b73824ef400fd84f63d7d43f1c443c32089b122731bd49308ac2737d6015df9" /\
  push_hex (@encode_record fips vector_claim vector_queue vector_tag) =
  ¶"871b53544f5751312d00010050000102030405060708090a0b0c0d0e0f48070707070707070703a8656261736973a370707265765f6475726174696f6e5f6e730072707265765f73746f72655f74696d655f6e7300756f627365727665645f77617465726d61726b5f6e7300666a6f625f696450101112131415161718191a1b1c1d1e1f67617474656d70740169776f726b65725f69646277316a67656e65726174696f6e016c636f6e74696e756174696f6ef46c776f726b65725f746f6b656e5042424242424242424242424242424242716c656173655f6475726174696f6e5f6e731b0000000df84758005820c9f5f3ee7144d8fa17ba93498f04c4548667aa9c895864fc85274ad08aeec1ca" /\
  push_hex (@encode_record fips vector_quarantine vector_queue vector_tag) =
  ¶"871b53544f5751312d00010050000102030405060708090a0b0c0d0e0f48070707070707070708a56371696450101010101010101010101010101010106664657461696c0266726561736f6e106a736f757263655f6b65797835636c61696d732f303030312f31303131313231333134313531363137313831393161316231633164316531662f3030303030303032716f627365727665645f73746f72655f6e7319138858209a9f89b5a1c7027b560c8b657b9e85dc2886e1e901c5c6d9bff9e7d423527107".
Proof. vm_compute. repeat split. Qed.
