(* ===== verification/Direct.v ===== *)
(** [stowq-format/src/direct.rs]: the direct record decoder, bytes to
    [Record_] with no intermediate [Value] tree.

    The reader is its unread suffix.  The closure [read_map] is given mutates
    local variables of [parse_fields]; here it threads them as a tuple, in
    the order of the record type's key table.  The loop [for _ in 0..n] runs
    on one fuel unit per unread byte, as in [Cbor]. *)

From S2P Require Import Prelude Sha256 Keys Cbor Records.

#[local] Arguments Cbor.push_head : simpl never.
#[local] Arguments str : simpl never.

(* ------------------------------------------------------------------ *)
(** * Canonical field order per record type *)

Definition FORMAT_KEYS : list bytes :=
  [¶"shard_count"; ¶"inline_limit"; ¶"lease_bucket_width_ns"; ¶"required_feature_bits";
   ¶"delayed_bucket_width_ns"; ¶"terminal_bucket_width_ns"].
Definition JOB_KEYS : list bytes :=
  [¶"job_id"; ¶"payload_key"; ¶"content_type"; ¶"not_before_ns"; ¶"payload_digest";
   ¶"payload_inline"; ¶"payload_length"; ¶"maximum_attempts"; ¶"created_store_time_ns"].
Definition CLAIM_KEYS : list bytes :=
  [¶"basis"; ¶"job_id"; ¶"attempt"; ¶"worker_id"; ¶"generation"; ¶"prev_token";
   ¶"continuation"; ¶"worker_token"; ¶"lease_duration_ns"].
Definition BASIS_KEYS : list bytes :=
  [¶"prev_duration_ns"; ¶"prev_store_time_ns"; ¶"observed_watermark_ns"].
Definition FAIL_KEYS : list bytes :=
  [¶"job_id"; ¶"reason"; ¶"attempt"; ¶"generation"; ¶"retry_not_before_ns"].
Definition RECEIPT_KEYS : list bytes :=
  [¶"job_id"; ¶"attempt"; ¶"worker_id"; ¶"generation"; ¶"worker_token"; ¶"output_digests";
   ¶"payload_digest"].
Definition DEAD_KEYS : list bytes := [¶"job_id"; ¶"reason"; ¶"attempt"; ¶"generation"].
Definition WATERMARK_KEYS : list bytes := [¶"sequence"; ¶"highest_observed_wall_bucket"].
Definition QUARANTINE_KEYS : list bytes :=
  [¶"qid"; ¶"detail"; ¶"reason"; ¶"source_key"; ¶"observed_store_ns"].

Fixpoint table_pos (table : list bytes) (key : bytes) : option nat :=
  match table with
  | [] => None
  | k :: table => if bytes_eqb k key then Some 0%nat else S <$> table_pos table key
  end.

(* ------------------------------------------------------------------ *)
(** * Primitive item readers *)

Definition rhead (r : bytes) : Result RecordError (Z * Z * bytes) :=
  map_err RCbor (Cbor.head r).
Definition rtake (n : Z) (r : bytes) : Result RecordError (bytes * bytes) :=
  map_err RCbor (Cbor.take_n n r).

Definition read_uint (r : bytes) : Result RecordError (Z * bytes) :=
  '(major, v, r) ← rhead r;
  if negb (major =? 0) then Err (RField "uint") else Ok (v, r).

Definition env_uint (r : bytes) : Result RecordError (Z * bytes) :=
  '(major, v, r) ← rhead r;
  if negb (major =? 0) then Err REnvelope else Ok (v, r).

Definition env_bytes (r : bytes) : Result RecordError (bytes * bytes) :=
  '(major, len, r) ← rhead r;
  if negb (major =? 2) then Err REnvelope else rtake len r.

Definition read_bool (r : bytes) : Result RecordError (bool * bytes) :=
  '(major, v, r) ← rhead r;
  if (major =? 7) && (v =? 20) then Ok (false, r)
  else if (major =? 7) && (v =? 21) then Ok (true, r)
  else Err (RField "bool").

Definition read_borrowed_bytes (r : bytes) : Result RecordError (bytes * bytes) :=
  '(major, len, r) ← rhead r;
  if negb (major =? 2) then Err (RField "bytes") else rtake len r.

Definition read_borrowed_text (r : bytes) : Result RecordError (bytes * bytes) :=
  '(major, len, r) ← rhead r;
  if negb (major =? 3) then Err (RField "text")
  else '(b, r) ← rtake len r;
       if Cbor.utf8_valid b then Ok (b, r) else Err (RCbor Cbor.InvalidUtf8).

Definition fixed (n : Z) (b : bytes) : Result RecordError bytes :=
  if negb (Cbor.len64 b =? n) then Err (RField "byte width") else Ok b.

(** [fixed::<N>(read_borrowed_bytes(r)?)?]. *)
Definition read_fixed (n : Z) (r : bytes) : Result RecordError (bytes * bytes) :=
  '(b, r) ← read_borrowed_bytes r;
  b ← fixed n b;
  Ok (b, r).

(** The arm [_ => unreachable!()]: [read_map] only passes keys of the table
    ([read_pairs_inv] never meets it). *)
Definition unreachable {A} : Result RecordError A := Err (RField "unreachable").

Section ReadMap.
Context {S : Type} (table : list bytes).
Context (value_reader : bytes -> S -> bytes -> Result RecordError (S * bytes)).

Fixpoint read_pairs (fuel : nat) (n : Z) (prev_pos : option nat) (s : S) (r : bytes)
  : Result RecordError (S * bytes) :=
  if n <=? 0 then Ok (s, r)
  else match fuel with
    | O => Err (RCbor Cbor.UnexpectedEof)
    | Datatypes.S fuel =>
        '(key, r) ← read_borrowed_text r;
        match table_pos table key with
        | None => Err (RUnknownField key)
        | Some pos =>
            match prev_pos with
            | Some p =>
                if (p =? pos)%nat then Err (RCbor Cbor.DuplicateMapKey)
                else if (pos <? p)%nat then Err (RCbor Cbor.UnsortedMapKeys)
                else '(s, r) ← value_reader key s r; read_pairs fuel (n - 1) (Some pos) s r
            | None => '(s, r) ← value_reader key s r; read_pairs fuel (n - 1) (Some pos) s r
            end
        end
    end.

Definition read_map (non_map_err : RecordError) (s : S) (r : bytes)
  : Result RecordError (S * bytes) :=
  '(major, n, r) ← rhead r;
  if negb (major =? 5) then Err non_map_err
  else read_pairs (Datatypes.S (length r)) n None s r.
End ReadMap.

(** [for (i, k) in TABLE.iter().enumerate() { if !seen[i] ... }]. *)
Fixpoint all_seen (table : list bytes) (seen : list bool) : Result RecordError unit :=
  match table, seen with
  | k :: table, b :: seen => if b then all_seen table seen else Err (RMissingField k)
  | _, _ => Ok tt
  end.

(** [x.ok_or(RecordError::MissingField(name))]. *)
Definition required {A} (o : option A) (name : bytes) : Result RecordError A :=
  ok_or o (RMissingField name).

(* ------------------------------------------------------------------ *)
(** * One parser per record type *)

Definition format_field (key : bytes) (st : FormatRecord * list bool) (r : bytes)
  : Result RecordError ((FormatRecord * list bool) * bytes) :=
  let '(f, seen) := st in
  '(v, r) ← read_uint r;
  if bytes_eqb key ¶"shard_count" then
    if 65536 <? v then Err (RField "shard_count")
    else Ok (({| shard_count := v mod 2 ^ 32; lease_bucket_width_ns := lease_bucket_width_ns f;
                 delayed_bucket_width_ns := delayed_bucket_width_ns f;
                 terminal_bucket_width_ns := terminal_bucket_width_ns f;
                 inline_limit := inline_limit f;
                 required_feature_bits := required_feature_bits f |}, <[0%nat := true]> seen), r)
  else if bytes_eqb key ¶"inline_limit" then
    Ok (({| shard_count := shard_count f; lease_bucket_width_ns := lease_bucket_width_ns f;
            delayed_bucket_width_ns := delayed_bucket_width_ns f;
            terminal_bucket_width_ns := terminal_bucket_width_ns f;
            inline_limit := v;
            required_feature_bits := required_feature_bits f |}, <[1%nat := true]> seen), r)
  else if bytes_eqb key ¶"lease_bucket_width_ns" then
    Ok (({| shard_count := shard_count f; lease_bucket_width_ns := v;
            delayed_bucket_width_ns := delayed_bucket_width_ns f;
            terminal_bucket_width_ns := terminal_bucket_width_ns f;
            inline_limit := inline_limit f;
            required_feature_bits := required_feature_bits f |}, <[2%nat := true]> seen), r)
  else if bytes_eqb key ¶"required_feature_bits" then
    Ok (({| shard_count := shard_count f; lease_bucket_width_ns := lease_bucket_width_ns f;
            delayed_bucket_width_ns := delayed_bucket_width_ns f;
            terminal_bucket_width_ns := terminal_bucket_width_ns f;
            inline_limit := inline_limit f;
            required_feature_bits := v |}, <[3%nat := true]> seen), r)
  else if bytes_eqb key ¶"delayed_bucket_width_ns" then
    Ok (({| shard_count := shard_count f; lease_bucket_width_ns := lease_bucket_width_ns f;
            delayed_bucket_width_ns := v;
            terminal_bucket_width_ns := terminal_bucket_width_ns f;
            inline_limit := inline_limit f;
            required_feature_bits := required_feature_bits f |}, <[4%nat := true]> seen), r)
  else if bytes_eqb key ¶"terminal_bucket_width_ns" then
    Ok (({| shard_count := shard_count f; lease_bucket_width_ns := lease_bucket_width_ns f;
            delayed_bucket_width_ns := delayed_bucket_width_ns f;
            terminal_bucket_width_ns := v;
            inline_limit := inline_limit f;
            required_feature_bits := required_feature_bits f |}, <[5%nat := true]> seen), r)
  else unreachable.

Definition format_zero : FormatRecord :=
  {| shard_count := 0; lease_bucket_width_ns := 0; delayed_bucket_width_ns := 0;
     terminal_bucket_width_ns := 0; inline_limit := 0; required_feature_bits := 0 |}.

Definition parse_format (r : bytes) : Result RecordError (Record_ * bytes) :=
  '((f, seen), r) ← read_map FORMAT_KEYS format_field REnvelope (format_zero, replicate 6 false) r;
  all_seen FORMAT_KEYS seen;;
  Ok (RecFormat f, r).

Definition job_vars : Type :=
    option bytes * option bytes * option bytes * option Z * option bytes * option bytes * option Z
      * option Z * option Z.

Definition job_field (key : bytes) (st : job_vars) (r : bytes)
  : Result RecordError (job_vars * bytes) :=
    let '(job_id, payload_key, content_type, not_before_ns, payload_digest, payload_inline,
      payload_length, maximum_attempts, created_store_time_ns) := st in
  if bytes_eqb key ¶"job_id" then
    '(v, r) ← read_fixed 16 r;
        Ok ((Some v, payload_key, content_type, not_before_ns, payload_digest, payload_inline,
        payload_length, maximum_attempts, created_store_time_ns), r)
  else if bytes_eqb key ¶"payload_key" then
    '(v, r) ← read_borrowed_text r;
        Ok ((job_id, Some v, content_type, not_before_ns, payload_digest, payload_inline,
        payload_length, maximum_attempts, created_store_time_ns), r)
  else if bytes_eqb key ¶"content_type" then
    '(v, r) ← read_borrowed_text r;
        Ok ((job_id, payload_key, Some v, not_before_ns, payload_digest, payload_inline,
        payload_length, maximum_attempts, created_store_time_ns), r)
  else if bytes_eqb key ¶"not_before_ns" then
    '(v, r) ← read_uint r;
        Ok ((job_id, payload_key, content_type, Some v, payload_digest, payload_inline,
        payload_length, maximum_attempts, created_store_time_ns), r)
  else if bytes_eqb key ¶"payload_digest" then
    '(v, r) ← read_fixed 32 r;
        Ok ((job_id, payload_key, content_type, not_before_ns, Some v, payload_inline,
        payload_length, maximum_attempts, created_store_time_ns), r)
  else if bytes_eqb key ¶"payload_inline" then
    '(v, r) ← read_borrowed_bytes r;
        Ok ((job_id, payload_key, content_type, not_before_ns, payload_digest, Some v,
        payload_length, maximum_attempts, created_store_time_ns), r)
  else if bytes_eqb key ¶"payload_length" then
    '(v, r) ← read_uint r;
        Ok ((job_id, payload_key, content_type, not_before_ns, payload_digest, payload_inline,
        Some v, maximum_attempts, created_store_time_ns), r)
  else if bytes_eqb key ¶"maximum_attempts" then
    '(v, r) ← read_uint r;
        Ok ((job_id, payload_key, content_type, not_before_ns, payload_digest, payload_inline,
        payload_length, Some v, created_store_time_ns), r)
  else if bytes_eqb key ¶"created_store_time_ns" then
    '(v, r) ← read_uint r;
        Ok ((job_id, payload_key, content_type, not_before_ns, payload_digest, payload_inline,
        payload_length, maximum_attempts, Some v), r)
  else unreachable.

Definition parse_job (r : bytes) : Result RecordError (Record_ * bytes) :=
  '(vars, r) ← read_map JOB_KEYS job_field REnvelope
                 (None, None, None, None, None, None, None, None, None) r;
  let '(job_id, payload_key, content_type, not_before_ns, payload_digest, payload_inline,
        payload_length, maximum_attempts, created_store_time_ns) := vars in
  if Bool.eqb (bool_decide (is_Some payload_inline)) (bool_decide (is_Some payload_key))
  then Err (RField "payload inline xor key")
  else
    job_id ← required job_id ¶"job_id";
    maximum_attempts ← required maximum_attempts ¶"maximum_attempts";
    content_type ← required content_type ¶"content_type";
    created_store_time_ns ← required created_store_time_ns ¶"created_store_time_ns";
    payload_digest ← required payload_digest ¶"payload_digest";
    payload_length ← required payload_length ¶"payload_length";
    Ok (RecJob {| j_job_id := job_id; j_maximum_attempts := maximum_attempts;
                  j_content_type := content_type;
                  j_created_store_time_ns := created_store_time_ns;
                  j_not_before_ns := not_before_ns; j_payload_digest := payload_digest;
                  j_payload_length := payload_length; j_payload_inline := payload_inline;
                  j_payload_key := payload_key |}, r).

(** The nested map of a claim's [basis]. *)
Definition basis_field (bkey : bytes) (st : ClaimBasis * list bool) (r : bytes)
  : Result RecordError ((ClaimBasis * list bool) * bytes) :=
  let '(b, seen) := st in
  '(v, r) ← read_uint r;
  if bytes_eqb bkey ¶"prev_duration_ns" then
    Ok (({| prev_store_time_ns := prev_store_time_ns b; prev_duration_ns := v;
            observed_watermark_ns := observed_watermark_ns b |}, <[0%nat := true]> seen), r)
  else if bytes_eqb bkey ¶"prev_store_time_ns" then
    Ok (({| prev_store_time_ns := v; prev_duration_ns := prev_duration_ns b;
            observed_watermark_ns := observed_watermark_ns b |}, <[1%nat := true]> seen), r)
  else if bytes_eqb bkey ¶"observed_watermark_ns" then
    Ok (({| prev_store_time_ns := prev_store_time_ns b; prev_duration_ns := prev_duration_ns b;
            observed_watermark_ns := v |}, <[2%nat := true]> seen), r)
  else unreachable.

Definition basis_zero : ClaimBasis :=
  {| prev_store_time_ns := 0; prev_duration_ns := 0; observed_watermark_ns := 0 |}.

Definition parse_basis (r : bytes) : Result RecordError (ClaimBasis * bytes) :=
  '((b, seen), r) ← read_map BASIS_KEYS basis_field (RField "basis") (basis_zero, replicate 3 false) r;
  all_seen BASIS_KEYS seen;;
  Ok (b, r).

(** The [output_digests] array: never present and empty. *)
Definition read_output_digests (r : bytes) : Result RecordError (list bytes * bytes) :=
  '(major, n, r) ← rhead r;
  if negb (major =? 4) then Err (RField "output_digests")
  else if n =? 0 then Err (RField "output_digests")
  else Cbor.read_count (RCbor Cbor.UnexpectedEof) (read_fixed 32) n r.

Definition claim_vars : Type :=
    option ClaimBasis * option bytes * option Z * option bytes * option Z * option bytes * option
      bool * option bytes * option Z.

Definition claim_field (key : bytes) (st : claim_vars) (r : bytes)
  : Result RecordError (claim_vars * bytes) :=
    let '(basis, job_id, attempt, worker_id, generation, prev_token, continuation, worker_token,
      lease_duration_ns) := st in
  if bytes_eqb key ¶"basis" then
    '(v, r) ← parse_basis r;
        Ok ((Some v, job_id, attempt, worker_id, generation, prev_token, continuation,
        worker_token, lease_duration_ns), r)
  else if bytes_eqb key ¶"job_id" then
    '(v, r) ← read_fixed 16 r;
        Ok ((basis, Some v, attempt, worker_id, generation, prev_token, continuation,
        worker_token, lease_duration_ns), r)
  else if bytes_eqb key ¶"attempt" then
    '(v, r) ← read_uint r;
        Ok ((basis, job_id, Some v, worker_id, generation, prev_token, continuation, worker_token,
        lease_duration_ns), r)
  else if bytes_eqb key ¶"worker_id" then
    '(v, r) ← read_borrowed_text r;
        Ok ((basis, job_id, attempt, Some v, generation, prev_token, continuation, worker_token,
        lease_duration_ns), r)
  else if bytes_eqb key ¶"generation" then
    '(v, r) ← read_uint r;
        Ok ((basis, job_id, attempt, worker_id, Some v, prev_token, continuation, worker_token,
        lease_duration_ns), r)
  else if bytes_eqb key ¶"prev_token" then
    '(v, r) ← read_fixed 16 r;
        Ok ((basis, job_id, attempt, worker_id, generation, Some v, continuation, worker_token,
        lease_duration_ns), r)
  else if bytes_eqb key ¶"continuation" then
    '(v, r) ← read_bool r;
        Ok ((basis, job_id, attempt, worker_id, generation, prev_token, Some v, worker_token,
        lease_duration_ns), r)
  else if bytes_eqb key ¶"worker_token" then
    '(v, r) ← read_fixed 16 r;
        Ok ((basis, job_id, attempt, worker_id, generation, prev_token, continuation, Some v,
        lease_duration_ns), r)
  else if bytes_eqb key ¶"lease_duration_ns" then
    '(v, r) ← read_uint r;
        Ok ((basis, job_id, attempt, worker_id, generation, prev_token, continuation,
        worker_token, Some v), r)
  else unreachable.

Definition parse_claim (r : bytes) : Result RecordError (Record_ * bytes) :=
  '(vars, r) ← read_map CLAIM_KEYS claim_field REnvelope
                 (None, None, None, None, None, None, None, None, None) r;
  let '(basis, job_id, attempt, worker_id, generation, prev_token, continuation, worker_token,
        lease_duration_ns) := vars in
  continuation ← required continuation ¶"continuation";
  if Bool.eqb continuation (bool_decide (is_Some basis))
     || negb (Bool.eqb continuation (bool_decide (is_Some prev_token)))
     || Bool.eqb (bool_decide (is_Some basis)) (bool_decide (is_Some prev_token))
  then Err (RField "basis xor prev_token")
  else
    job_id ← required job_id ¶"job_id";
    generation ← required generation ¶"generation";
    attempt ← required attempt ¶"attempt";
    worker_id ← required worker_id ¶"worker_id";
    worker_token ← required worker_token ¶"worker_token";
    lease_duration_ns ← required lease_duration_ns ¶"lease_duration_ns";
    Ok (RecClaim {| c_job_id := job_id; c_generation := generation; c_attempt := attempt;
                    c_worker_id := worker_id; c_worker_token := worker_token;
                    c_lease_duration_ns := lease_duration_ns; c_continuation := continuation;
                    c_basis := basis; c_prev_token := prev_token |}, r).

Definition fail_vars : Type :=
  option bytes * option Z * option Z * option Z * option Z.

Definition fail_field (key : bytes) (st : fail_vars) (r : bytes)
  : Result RecordError (fail_vars * bytes) :=
  let '(job_id, reason, attempt, generation, retry_not_before_ns) := st in
  if bytes_eqb key ¶"job_id" then
    '(v, r) ← read_fixed 16 r;
    Ok ((Some v, reason, attempt, generation, retry_not_before_ns), r)
  else if bytes_eqb key ¶"reason" then
    '(v, r) ← read_uint r;
    Ok ((job_id, Some v, attempt, generation, retry_not_before_ns), r)
  else if bytes_eqb key ¶"attempt" then
    '(v, r) ← read_uint r;
    Ok ((job_id, reason, Some v, generation, retry_not_before_ns), r)
  else if bytes_eqb key ¶"generation" then
    '(v, r) ← read_uint r;
    Ok ((job_id, reason, attempt, Some v, retry_not_before_ns), r)
  else if bytes_eqb key ¶"retry_not_before_ns" then
    '(v, r) ← read_uint r;
    Ok ((job_id, reason, attempt, generation, Some v), r)
  else unreachable.

Definition parse_fail (r : bytes) : Result RecordError (Record_ * bytes) :=
  '(vars, r) ← read_map FAIL_KEYS fail_field REnvelope (None, None, None, None, None) r;
  let '(job_id, reason, attempt, generation, retry_not_before_ns) := vars in
  job_id ← required job_id ¶"job_id";
  generation ← required generation ¶"generation";
  reason ← required reason ¶"reason";
  attempt ← required attempt ¶"attempt";
  retry_not_before_ns ← required retry_not_before_ns ¶"retry_not_before_ns";
  Ok (RecFail {| f_job_id := job_id; f_generation := generation; f_reason := reason;
                 f_attempt := attempt; f_retry_not_before_ns := retry_not_before_ns |}, r).

Definition receipt_vars : Type :=
    option bytes * option Z * option bytes * option Z * option bytes * option (list bytes) *
      option bytes.

Definition receipt_field (key : bytes) (st : receipt_vars) (r : bytes)
  : Result RecordError (receipt_vars * bytes) :=
    let '(job_id, attempt, worker_id, generation, worker_token, output_digests, payload_digest) :=
      st in
  if bytes_eqb key ¶"job_id" then
    '(v, r) ← read_fixed 16 r;
    Ok ((Some v, attempt, worker_id, generation, worker_token, output_digests, payload_digest), r)
  else if bytes_eqb key ¶"attempt" then
    '(v, r) ← read_uint r;
    Ok ((job_id, Some v, worker_id, generation, worker_token, output_digests, payload_digest), r)
  else if bytes_eqb key ¶"worker_id" then
    '(v, r) ← read_borrowed_text r;
    Ok ((job_id, attempt, Some v, generation, worker_token, output_digests, payload_digest), r)
  else if bytes_eqb key ¶"generation" then
    '(v, r) ← read_uint r;
    Ok ((job_id, attempt, worker_id, Some v, worker_token, output_digests, payload_digest), r)
  else if bytes_eqb key ¶"worker_token" then
    '(v, r) ← read_fixed 16 r;
    Ok ((job_id, attempt, worker_id, generation, Some v, output_digests, payload_digest), r)
  else if bytes_eqb key ¶"output_digests" then
    '(v, r) ← read_output_digests r;
    Ok ((job_id, attempt, worker_id, generation, worker_token, Some v, payload_digest), r)
  else if bytes_eqb key ¶"payload_digest" then
    '(v, r) ← read_fixed 32 r;
    Ok ((job_id, attempt, worker_id, generation, worker_token, output_digests, Some v), r)
  else unreachable.

Definition parse_receipt (r : bytes) : Result RecordError (Record_ * bytes) :=
  '(vars, r) ← read_map RECEIPT_KEYS receipt_field REnvelope
                 (None, None, None, None, None, None, None) r;
  let '(job_id, attempt, worker_id, generation, worker_token, output_digests, payload_digest) :=
    vars in
  job_id ← required job_id ¶"job_id";
  generation ← required generation ¶"generation";
  attempt ← required attempt ¶"attempt";
  worker_id ← required worker_id ¶"worker_id";
  worker_token ← required worker_token ¶"worker_token";
  payload_digest ← required payload_digest ¶"payload_digest";
  Ok (RecReceipt {| r_job_id := job_id; r_generation := generation; r_attempt := attempt;
                    r_worker_id := worker_id; r_worker_token := worker_token;
                    r_payload_digest := payload_digest;
                    r_output_digests := default [] output_digests |}, r).

Definition dead_vars : Type :=
  option bytes * option Z * option Z * option Z.

Definition dead_field (key : bytes) (st : dead_vars) (r : bytes)
  : Result RecordError (dead_vars * bytes) :=
  let '(job_id, reason, attempt, generation) := st in
  if bytes_eqb key ¶"job_id" then
    '(v, r) ← read_fixed 16 r;
    Ok ((Some v, reason, attempt, generation), r)
  else if bytes_eqb key ¶"reason" then
    '(v, r) ← read_uint r;
    Ok ((job_id, Some v, attempt, generation), r)
  else if bytes_eqb key ¶"attempt" then
    '(v, r) ← read_uint r;
    Ok ((job_id, reason, Some v, generation), r)
  else if bytes_eqb key ¶"generation" then
    '(v, r) ← read_uint r;
    Ok ((job_id, reason, attempt, Some v), r)
  else unreachable.

Definition parse_dead (r : bytes) : Result RecordError (Record_ * bytes) :=
  '(vars, r) ← read_map DEAD_KEYS dead_field REnvelope (None, None, None, None) r;
  let '(job_id, reason, attempt, generation) := vars in
  job_id ← required job_id ¶"job_id";
  generation ← required generation ¶"generation";
  attempt ← required attempt ¶"attempt";
  reason ← required reason ¶"reason";
  Ok (RecDead {| d_job_id := job_id; d_generation := generation; d_attempt := attempt;
                 d_reason := reason |}, r).

Definition watermark_vars : Type :=
  option Z * option Z.

Definition watermark_field (key : bytes) (st : watermark_vars) (r : bytes)
  : Result RecordError (watermark_vars * bytes) :=
  let '(sequence, highest_observed_wall_bucket) := st in
  if bytes_eqb key ¶"sequence" then
    '(v, r) ← read_uint r;
    Ok ((Some v, highest_observed_wall_bucket), r)
  else if bytes_eqb key ¶"highest_observed_wall_bucket" then
    '(v, r) ← read_uint r;
    Ok ((sequence, Some v), r)
  else unreachable.

Definition parse_watermark (r : bytes) : Result RecordError (Record_ * bytes) :=
  '(vars, r) ← read_map WATERMARK_KEYS watermark_field REnvelope (None, None) r;
  let '(sequence, highest) := vars in
  highest ← required highest ¶"highest_observed_wall_bucket";
  sequence ← required sequence ¶"sequence";
  Ok (RecWatermark {| highest_observed_wall_bucket := highest; w_sequence := sequence |}, r).

Definition quarantine_vars : Type :=
  option bytes * option Z * option Z * option bytes * option Z.

Definition quarantine_field (key : bytes) (st : quarantine_vars) (r : bytes)
  : Result RecordError (quarantine_vars * bytes) :=
  let '(qid, detail, reason, source_key, observed_store_ns) := st in
  if bytes_eqb key ¶"qid" then
    '(v, r) ← read_fixed 16 r;
    Ok ((Some v, detail, reason, source_key, observed_store_ns), r)
  else if bytes_eqb key ¶"detail" then
    '(v, r) ← read_uint r;
    Ok ((qid, Some v, reason, source_key, observed_store_ns), r)
  else if bytes_eqb key ¶"reason" then
    '(v, r) ← read_uint r;
    Ok ((qid, detail, Some v, source_key, observed_store_ns), r)
  else if bytes_eqb key ¶"source_key" then
    '(v, r) ← read_borrowed_text r;
    Ok ((qid, detail, reason, Some v, observed_store_ns), r)
  else if bytes_eqb key ¶"observed_store_ns" then
    '(v, r) ← read_uint r;
    Ok ((qid, detail, reason, source_key, Some v), r)
  else unreachable.

Definition parse_quarantine (r : bytes) : Result RecordError (Record_ * bytes) :=
  '(vars, r) ← read_map QUARANTINE_KEYS quarantine_field REnvelope
                 (None, None, None, None, None) r;
  let '(qid, detail, reason, source_key, observed_store_ns) := vars in
  qid ← required qid ¶"qid";
  source_key ← required source_key ¶"source_key";
  reason ← required reason ¶"reason";
  observed_store_ns ← required observed_store_ns ¶"observed_store_ns";
  Ok (RecQuarantine {| q_qid := qid; q_source_key := source_key; q_reason := reason;
                       q_observed_store_ns := observed_store_ns; q_detail := detail |}, r).

Definition parse_fields (t : Z) (r : bytes) : Result RecordError (Record_ * bytes) :=
  if t =? 1 then parse_format r
  else if t =? 2 then parse_job r
  else if t =? 3 then parse_claim r
  else if t =? 4 then parse_fail r
  else if t =? 5 then parse_receipt r
  else if t =? 6 then parse_dead r
  else if t =? 7 then parse_watermark r
  else if t =? 8 then parse_quarantine r
  else Err RType.

Definition decode_record `{Sha256} (data queue_id tag : bytes) : Result RecordError Record_ :=
  if Cbor.len64 data <? 34 then Err REnvelope
  else
    let body := take (length data - 34) data in
    let tail := drop (length data - 34) data in
    if negb (bytes_eqb (take 2 tail) [byte_of 0x58; byte_of 32]) then Err REnvelope
    else
      '(major, n, r) ← rhead body;
      if negb (major =? 4) || negb (n =? 7) then Err REnvelope
      else
        '(magic, r) ← env_uint r;
        '(ver_major, r) ← env_uint r;
        '(ver_minor, r) ← env_uint r;
        '(qid, r) ← env_bytes r;
        '(tg, r) ← env_bytes r;
        '(rtype, r) ← env_uint r;
        if negb (magic =? MAGIC) then Err RMagic
        else if negb (ver_major =? MAJOR) || negb (ver_minor =? MINOR)
        then Err (RVersion ver_major ver_minor)
        else
          type_str ← ok_or (type_name rtype) RType;
          if negb (bytes_eqb (record_digest type_str body) (drop 2 tail)) then Err RDigest
          else if negb (bytes_eqb qid queue_id) || negb (bytes_eqb tg tag)
          then Err (RField "queue binding")
          else
            '(record, r) ← parse_fields rtype r;
            match r with
            | [] => Ok record
            | _ :: _ => Err (RCbor Cbor.TrailingBytes)
            end.

(** Every vector of the format specification decodes back. *)
Example vectors_decode :
  forallb (fun r => bool_decide
      (@decode_record fips (@encode_record fips r vector_queue vector_tag) vector_queue vector_tag
       = Ok r)) [vector_job; vector_claim; vector_quarantine] = true.
Proof. vm_compute. reflexivity. Qed.

(* ------------------------------------------------------------------ *)
(** * Readers against writers *)

Lemma rhead_push major v rest :
  0 <= major < 8 -> is_u64 v -> rhead (Cbor.push_head major v ++ rest) = Ok (major, v, rest).
Proof. intros. unfold rhead. by rewrite Cbor.head_push. Qed.

Lemma rhead_inv r major v rest :
  rhead r = Ok (major, v, rest) -> r = Cbor.push_head major v ++ rest /\ 0 <= major < 8 /\ is_u64 v.
Proof. unfold rhead. rewrite map_err_ok. apply Cbor.head_inv. Qed.

Lemma rtake_app b rest : rtake (Cbor.len64 b) (b ++ rest) = Ok (b, rest).
Proof. unfold rtake. by rewrite Cbor.take_n_app. Qed.

Lemma rtake_inv n r b rest :
  is_u64 n -> rtake n r = Ok (b, rest) -> r = b ++ rest /\ Cbor.len64 b = n.
Proof. unfold rtake. rewrite map_err_ok. intros [? ?]. by apply Cbor.take_n_inv. Qed.

#[local] Ltac heads :=
  repeat (rewrite rhead_push; [|lia|assumption]); cbn [mbind result_bind negb Z.eqb Pos.eqb].

Lemma read_uint_put v rest : is_u64 v -> read_uint (Cbor.push_head 0 v ++ rest) = Ok (v, rest).
Proof. intros. unfold read_uint. by heads. Qed.
Lemma env_uint_put v rest : is_u64 v -> env_uint (Cbor.push_head 0 v ++ rest) = Ok (v, rest).
Proof. intros. unfold env_uint. by heads. Qed.
Lemma read_bytes_put b rest :
  is_u64 (Cbor.len64 b) -> read_borrowed_bytes (put_bytes b ++ rest) = Ok (b, rest).
Proof.
  intros. unfold read_borrowed_bytes, put_bytes. rewrite <- app_assoc. heads. apply rtake_app.
Qed.
Lemma env_bytes_put b rest :
  is_u64 (Cbor.len64 b) -> env_bytes (put_bytes b ++ rest) = Ok (b, rest).
Proof. intros. unfold env_bytes, put_bytes. rewrite <- app_assoc. heads. apply rtake_app. Qed.
Lemma read_text_put t rest : is_text t -> read_borrowed_text (put_text t ++ rest) = Ok (t, rest).
Proof.
  intros [Hu Hl]. unfold read_borrowed_text, put_text. rewrite <- app_assoc. heads.
  rewrite rtake_app. cbn [mbind result_bind]. by rewrite Hu.
Qed.
Lemma read_bool_put (b : bool) rest :
  read_bool ([byte_of (if b then 0xf5 else 0xf4)] ++ rest) = Ok (b, rest).
Proof. unfold read_bool, rhead. destruct b; cbn [app]; rewrite Cbor.head_cons; reflexivity. Qed.
Lemma read_fixed_put (n : nat) b rest :
  Z.of_nat n <= u64_max -> length b = n ->
  read_fixed (Z.of_nat n) (put_bytes b ++ rest) = Ok (b, rest).
Proof.
  intros Hn Hl. assert (Cbor.len64 b = Z.of_nat n) as E by (unfold Cbor.len64; lia).
  unfold read_fixed. rewrite read_bytes_put by (unfold is_u64; lia). cbn [mbind result_bind].
  unfold fixed. rewrite E, Z.eqb_refl. done.
Qed.

#[local] Ltac rhead_in H :=
  apply result_bind_ok in H;
  let Hh := fresh "Hh" in
  destruct H as ([[? ?] ?] & Hh & H); apply rhead_inv in Hh as (-> & ? & ?);
  match type of H with (if negb (?m =? ?k) then _ else _) = _ =>
    destruct (Z.eqb_spec m k) as [->|]; cbn [negb] in H; [|discriminate H] end.

Lemma read_uint_inv r v rest :
  read_uint r = Ok (v, rest) -> r = Cbor.push_head 0 v ++ rest /\ is_u64 v.
Proof. unfold read_uint. intros H. rhead_in H. by injection H as -> ->. Qed.
Lemma env_uint_inv r v rest :
  env_uint r = Ok (v, rest) -> r = Cbor.push_head 0 v ++ rest /\ is_u64 v.
Proof. unfold env_uint. intros H. rhead_in H. by injection H as -> ->. Qed.
Lemma read_bytes_inv r b rest :
  read_borrowed_bytes r = Ok (b, rest) -> r = put_bytes b ++ rest /\ is_u64 (Cbor.len64 b).
Proof.
  unfold read_borrowed_bytes, put_bytes. intros H. rhead_in H. apply rtake_inv in H as [-> <-]; [|done].
  by rewrite app_assoc.
Qed.
Lemma env_bytes_inv r b rest :
  env_bytes r = Ok (b, rest) -> r = put_bytes b ++ rest /\ is_u64 (Cbor.len64 b).
Proof.
  unfold env_bytes, put_bytes. intros H. rhead_in H. apply rtake_inv in H as [-> <-]; [|done].
  by rewrite app_assoc.
Qed.
Lemma read_text_inv r t rest :
  read_borrowed_text r = Ok (t, rest) -> r = put_text t ++ rest /\ is_text t.
Proof.
  unfold read_borrowed_text, put_text. intros H. rhead_in H.
  apply result_bind_ok in H as ([b r'] & Hb & H). apply rtake_inv in Hb as [-> <-]; [|done].
  destruct (Cbor.utf8_valid b) eqn:Hu; [|done]. injection H as -> ->. by rewrite app_assoc.
Qed.
Lemma read_bool_inv r (b : bool) rest :
  read_bool r = Ok (b, rest) -> r = [byte_of (if b then 0xf5 else 0xf4)] ++ rest.
Proof.
  unfold read_bool. intros ([[m v] r'] & Hh & H)%result_bind_ok.
  apply rhead_inv in Hh as (-> & ? & ?).
  destruct ((m =? 7) && (v =? 20)) eqn:E.
  { apply andb_true_iff in E as [->%Z.eqb_eq ->%Z.eqb_eq]. by injection H as <- ->. }
  destruct ((m =? 7) && (v =? 21)) eqn:E'; [|done].
  apply andb_true_iff in E' as [->%Z.eqb_eq ->%Z.eqb_eq]. by injection H as <- ->.
Qed.
Lemma read_fixed_inv (n : nat) r b rest :
  read_fixed (Z.of_nat n) r = Ok (b, rest) -> r = put_bytes b ++ rest /\ length b = n.
Proof.
  unfold read_fixed. intros ([b' r'] & Hb & H)%result_bind_ok.
  apply read_bytes_inv in Hb as [-> ?].
  apply result_bind_ok in H as (b'' & H & [= -> ->]). unfold fixed in H.
  destruct (Z.eqb_spec (Cbor.len64 b') (Z.of_nat n)) as [E|]; cbn in H; [|done].
  injection H as ->. unfold Cbor.len64 in E. split; [done|lia].
Qed.

Lemma table_pos_lookup T k i : table_pos T k = Some i -> T !! i = Some k.
Proof.
  revert i; induction T as [|x T IH]; intros i; cbn; [done|].
  unfold bytes_eqb. case_bool_decide as E; [intros [= <-]; by rewrite E|].
  destruct (table_pos T k) as [j|]; [|done]. intros [= <-]. cbn. by apply IH.
Qed.

(* ------------------------------------------------------------------ *)
(** * [read_map] reads what a field-by-field writer emits *)

(** From [n] pairs to go, the loop ends in [s'] with [r'] unread, whatever
    the fuel beyond one unit per unread byte. *)
Definition reads {S} T (vr : bytes -> S -> bytes -> Result RecordError (S * bytes))
    (n : Z) (prev : option nat) (s : S) (r : bytes) (s' : S) (r' : bytes) : Prop :=
  forall fuel, (length r < fuel)%nat -> read_pairs T vr fuel n prev s r = Ok (s', r').

Lemma put_text_nonempty t : (1 <= length (put_text t))%nat.
Proof.
  unfold put_text. rewrite length_app. pose proof (Cbor.push_head_nonempty 3 (Cbor.len64 t)). lia.
Qed.

Section Reads.
Context {S : Type} (T : list bytes).
Context (vr : bytes -> S -> bytes -> Result RecordError (S * bytes)).

Lemma reads_nil n prev s r : n <= 0 -> reads T vr n prev s r s r.
Proof. intros Hn [|fuel] _; cbn [read_pairs]; by rewrite (proj2 (Z.leb_le n 0)). Qed.

Lemma reads_step k enc i n prev s r s1 s' r' :
  0 < n -> is_text k -> table_pos T k = Some i ->
  match prev with Some p => (p < i)%nat | None => True end ->
  vr k s (enc ++ r) = Ok (s1, r) ->
  reads T vr (n - 1) (Some i) s1 r s' r' ->
  reads T vr n prev s (put_text k ++ enc ++ r) s' r'.
Proof.
  intros Hn Ht Hi Hp Hv Hr [|fuel] Hf; [lia|]. cbn [read_pairs].
  destruct (Z.leb_spec n 0); [lia|]. rewrite read_text_put by done. cbn [mbind result_bind].
  rewrite Hi, Hv. cbn [mbind result_bind].
  rewrite Hr.
  2:{ rewrite !length_app in Hf. pose proof (put_text_nonempty k). lia. }
  destruct prev as [p|]; [|done].
  rewrite (proj2 (Nat.eqb_neq p i)) by lia. by rewrite (proj2 (Nat.ltb_ge i p)) by lia.
Qed.

Lemma read_map_reads e n s r s' r' :
  is_u64 n -> reads T vr n None s r s' r' ->
  read_map T vr e s (Cbor.push_head 5 n ++ r) = Ok (s', r').
Proof. intros Hn Hr. unfold read_map. heads. apply Hr. lia. Qed.
End Reads.

(* ------------------------------------------------------------------ *)
(** * What [read_map] accepts is what a field-by-field writer emits *)

(** The fields present, in table order. *)
Fixpoint emit_slots (T : list bytes) (sl : list (option bytes)) : bytes :=
  match T, sl with
  | k :: T, o :: sl =>
      match o with Some e => put_text k ++ e | None => [] end ++ emit_slots T sl
  | _, _ => []
  end.
Fixpoint count_slots (sl : list (option bytes)) : Z :=
  match sl with [] => 0 | o :: sl => some_z o + count_slots sl end.

Lemma slot_set_emit T sl (i : nat) e k :
  T !! i = Some k -> (forall j, (i <= j)%nat -> forall x, sl !! j = Some x -> x = None) ->
  length sl = length T ->
  emit_slots T (<[i := Some e]> sl) = emit_slots T sl ++ put_text k ++ e /\
  count_slots (<[i := Some e]> sl) = count_slots sl + 1.
Proof.
  revert sl i. induction T as [|x T IH]; intros sl i Hk Hn Hl; [done|].
  destruct sl as [|o sl]; [done|]. cbn in Hl. injection Hl as Hl.
  destruct i as [|i].
  - injection Hk as ->. rewrite (Hn 0%nat (le_n _) o eq_refl). cbn.
    assert (emit_slots T sl = [] /\ count_slots sl = 0) as [-> ->].
    { clear IH. revert T Hl. assert (forall j x, sl !! j = Some x -> x = None) as Hn'.
      { intros j y Hj. apply (Hn (Datatypes.S j)); [lia|done]. }
      clear Hn. induction sl as [|y sl IH]; intros [|z T] Hl; try done.
      cbn. rewrite (Hn' 0%nat y eq_refl). cbn. apply (IH ltac:(intros j; apply (Hn' (Datatypes.S j)))).
      by injection Hl. }
    by rewrite app_nil_r.
  - cbn in Hk. destruct (IH sl i Hk) as [E1 E2]; [|done|].
    { intros j Hj y Hy. apply (Hn (Datatypes.S j)); [lia|done]. }
    change (<[Datatypes.S i := Some e]> (o :: sl)) with (o :: <[i := Some e]> sl).
    cbn [emit_slots count_slots]. rewrite E1, E2, <- !app_assoc. split; [done|lia].
Qed.

Section Inversion.
Context {S : Type} (T : list bytes).
Context (vr : bytes -> S -> bytes -> Result RecordError (S * bytes)).
Context (slots : S -> list (option bytes)) (wf : S -> Prop).
Hypothesis slots_length : forall s, wf s -> length (slots s) = length T.
Hypothesis vr_inv : forall i k s r s' r', T !! i = Some k -> wf s -> vr k s r = Ok (s', r') ->
  wf s' /\ exists e, r = e ++ r' /\ slots s' = <[i := Some e]> (slots s).

Definition fresh_from (i : nat) (s : S) : Prop :=
  forall j, (i <= j)%nat -> forall x, slots s !! j = Some x -> x = None.

Lemma read_pairs_inv fuel : forall n prev s r s' r',
  0 <= n -> wf s -> fresh_from (match prev with Some p => Datatypes.S p | None => 0 end) s ->
  read_pairs T vr fuel n prev s r = Ok (s', r') ->
  wf s' /\ exists enc, r = enc ++ r' /\ emit_slots T (slots s') = emit_slots T (slots s) ++ enc /\
    count_slots (slots s') = count_slots (slots s) + n.
Proof.
  induction fuel as [|fuel IH]; intros n prev s r s' r' Hn Hwf Hfr H; cbn [read_pairs] in H;
    (destruct (Z.leb_spec n 0);
      [injection H as -> ->; split; [done|]; exists []; rewrite app_nil_r; split; [done|];
       split; [done|lia]|]).
  { done. }
  apply result_bind_ok in H as ([k r1] & Hk & H). apply read_text_inv in Hk as [-> _].
  destruct (table_pos T k) as [i|] eqn:Hi; [|done]. apply table_pos_lookup in Hi.
  assert (exists s1 r2, vr k s r1 = Ok (s1, r2) /\
            read_pairs T vr fuel (n - 1) (Some i) s1 r2 = Ok (s', r') /\
            fresh_from i s) as (s1 & r2 & Hv & Hr & Hfr').
  { destruct prev as [p|].
    - destruct (Nat.eqb_spec p i); [done|]. destruct (Nat.ltb_spec i p); [done|].
      apply result_bind_ok in H as ([s1 r2] & Hv & Hr). exists s1, r2. repeat split; auto.
      intros j Hj. apply Hfr. lia.
    - apply result_bind_ok in H as ([s1 r2] & Hv & Hr). exists s1, r2. repeat split; auto.
      intros j Hj. apply Hfr. lia. }
  destruct (vr_inv i k s r1 s1 r2 Hi Hwf Hv) as (Hwf1 & e & -> & Hs1).
  destruct (slot_set_emit T (slots s) i e k Hi Hfr' (slots_length s Hwf)) as [E1 E2].
  apply IH in Hr as (Hwf' & enc & -> & He & Hc); [|lia|done|].
  - split; [done|]. exists (put_text k ++ e ++ enc). rewrite !app_assoc. split; [done|].
    rewrite He, Hc, Hs1, E1, E2, !app_assoc. split; [done|lia].
  - intros j Hj x. rewrite Hs1, list_lookup_insert_ne by lia. apply Hfr'. lia.
Qed.

Lemma read_map_inv e s r s' r' :
  wf s -> slots s = replicate (length T) None ->
  read_map T vr e s r = Ok (s', r') ->
  wf s' /\ r = Cbor.push_head 5 (count_slots (slots s')) ++ emit_slots T (slots s') ++ r'.
Proof.
  intros Hwf Hs H. unfold read_map in H. rhead_in H.
  assert (emit_slots T (slots s) = [] /\ count_slots (slots s) = 0) as [E1 E2].
  { rewrite Hs. clear. induction T as [|k T' IH]; [done|]. cbn. exact IH. }
  apply read_pairs_inv in H as (Hwf' & enc & -> & He & Hc); [| |done|].
  - split; [done|]. rewrite He, Hc, E1, E2. done.
  - unfold is_u64 in *; lia.
  - intros j _ x. rewrite Hs. by intros [-> _]%lookup_replicate.
Qed.
End Inversion.

(* ------------------------------------------------------------------ *)
(** * Round trip of the fields map *)

#[local] Ltac eval_eqb :=
  repeat match goal with |- context [bytes_eqb ?a ?b] =>
    let v := eval vm_compute in (bytes_eqb a b) in change (bytes_eqb a b) with v; cbn match end.

(** One field: the reader's branch for the key reads back what the writer
    put. *)
#[local] Ltac read_back :=
  eval_eqb;
  first
    [ rewrite read_uint_put by assumption
    | rewrite (read_fixed_put 16) by (done || assumption)
    | rewrite (read_fixed_put 32) by (done || assumption)
    | rewrite read_text_put by assumption
    | rewrite read_bytes_put by assumption
    | rewrite (read_bool_put true) | rewrite (read_bool_put false) ];
  cbn [mbind result_bind]; eval_eqb; reflexivity.

#[local] Ltac read_field rd :=
  eapply reads_step;
  [ cbn; lia | split; vm_compute; done | vm_compute; reflexivity | cbn; try lia; exact I
  | rd () | ].

#[local] Ltac flat :=
  cbn [write_fields opt_bytes some_z b2z q_detail j_not_before_ns j_payload_inline j_payload_key
       c_basis c_prev_token c_continuation shard_count];
  unfold put_key, put_key_bytes, put_key_text, put_key_bool;
  rewrite <- ?app_assoc, ?app_nil_l.

(** The whole map, then the checks after it. *)
#[local] Ltac read_fields rd :=
  flat; unfold parse_watermark, parse_dead, parse_fail, parse_quarantine, parse_basis, parse_job, parse_claim;
  apply result_bind_ok; eexists (_, _); split;
  [ apply read_map_reads; [unfold is_u64; cbn; lia|];
    repeat read_field rd; apply reads_nil; cbn; lia
  | cbn; try reflexivity ].

Lemma parse_watermark_put r rest :
  record_wf (RecWatermark r) ->
  parse_watermark (write_fields (RecWatermark r) ++ rest) = Ok (RecWatermark r, rest).
Proof.
  destruct r; intros (? & ?); cbn in * |-.
  read_fields ltac:(fun _ => unfold watermark_field; read_back).
Qed.

Lemma parse_dead_put r rest :
  record_wf (RecDead r) -> parse_dead (write_fields (RecDead r) ++ rest) = Ok (RecDead r, rest).
Proof.
  destruct r; intros (? & ? & ? & ?); cbn in * |-.
  read_fields ltac:(fun _ => unfold dead_field; read_back).
Qed.

Lemma parse_fail_put r rest :
  record_wf (RecFail r) -> parse_fail (write_fields (RecFail r) ++ rest) = Ok (RecFail r, rest).
Proof.
  destruct r; intros (? & ? & ? & ? & ?); cbn in * |-.
  read_fields ltac:(fun _ => unfold fail_field; read_back).
Qed.

Lemma parse_quarantine_put r rest :
  record_wf (RecQuarantine r) ->
  parse_quarantine (write_fields (RecQuarantine r) ++ rest) = Ok (RecQuarantine r, rest).
Proof.
  destruct r as [qid sk reason obs [d|]]; intros (? & ? & ? & ? & Hd); cbn in * |-.
  1: specialize (Hd d eq_refl).
  all: read_fields ltac:(fun _ => unfold quarantine_field; read_back).
Qed.

Lemma parse_format_put r rest :
  record_wf (RecFormat r) -> record_valid (RecFormat r) ->
  parse_format (write_fields (RecFormat r) ++ rest) = Ok (RecFormat r, rest).
Proof.
  destruct r as [sc ? ? ? ? ?]; intros (? & ? & ? & ? & ? & ?) Hv; cbn in * |-.
  assert (is_u64 sc) by (unfold is_u32, is_u64 in *; lia).
  flat. unfold parse_format. apply result_bind_ok. eexists (_, _). split.
  { apply read_map_reads; [unfold is_u64; lia|].
    repeat read_field ltac:(fun _ => unfold format_field;
      rewrite read_uint_put by assumption; cbn [mbind result_bind]; eval_eqb;
      try rewrite (proj2 (Z.ltb_ge 65536 sc) Hv); reflexivity).
    apply reads_nil. lia. }
  cbn. rewrite Z.mod_small by (unfold is_u32 in *; lia). done.
Qed.

Lemma parse_basis_put b rest :
  is_u64 (prev_store_time_ns b) -> is_u64 (prev_duration_ns b) -> is_u64 (observed_watermark_ns b) ->
  parse_basis (write_basis b ++ rest) = Ok (b, rest).
Proof.
  destruct b; intros; cbn in * |-. unfold write_basis.
  read_fields ltac:(fun _ => unfold basis_field; read_back).
Qed.

Lemma parse_job_put r rest :
  record_wf (RecJob r) -> record_valid (RecJob r) ->
  parse_job (write_fields (RecJob r) ++ rest) = Ok (RecJob r, rest).
Proof.
  destruct r as [id ma ct cr nb dg ln inl key]; intros (? & ? & ? & ? & Hnb & ? & ? & Hi & Hk) Hv.
  cbn in * |-.
  destruct nb as [nb|], inl as [inl|], key as [key|];
    try (exfalso; destruct Hv as [Hv1 Hv2]; (destruct (Hv2 eq_refl); discriminate) || discriminate (Hv1 (ex_intro _ _ eq_refl)));
    try specialize (Hnb _ eq_refl); try specialize (Hi _ eq_refl); try specialize (Hk _ eq_refl);
    read_fields ltac:(fun _ => unfold job_field; read_back).
Qed.

Lemma parse_claim_put r rest :
  record_wf (RecClaim r) -> record_valid (RecClaim r) ->
  parse_claim (write_fields (RecClaim r) ++ rest) = Ok (RecClaim r, rest).
Proof.
  destruct r as [id gen att wid tok dur cont basis prev]; intros (? & ? & ? & ? & ? & ? & Hb & Hp) [Hv1 Hv2].
  cbn in * |-. destruct cont.
  - destruct (Hv1 eq_refl) as [-> [p ->]]. specialize (Hp _ eq_refl).
    read_fields ltac:(fun _ => unfold claim_field; read_back).
  - destruct (Hv2 eq_refl) as [[b ->] ->]. destruct (Hb _ eq_refl) as (? & ? & ?).
    read_fields ltac:(fun _ => unfold claim_field;
      first [read_back | eval_eqb; rewrite parse_basis_put by assumption; reflexivity]).
Qed.

Definition put_outputs (l : list bytes) : bytes :=
  Cbor.push_head 4 (Cbor.len64 l) ++ concat (map put_bytes l).

Lemma read_outputs_put l rest :
  l <> [] -> Forall is_digest l -> is_u64 (Cbor.len64 l) ->
  read_output_digests (put_outputs l ++ rest) = Ok (l, rest).
Proof.
  intros Hne HF Hl. unfold read_output_digests, put_outputs. rewrite <- app_assoc. heads.
  rewrite (proj2 (Z.eqb_neq (Cbor.len64 l) 0)).
  2:{ destruct l; [done|]. unfold Cbor.len64. cbn. lia. }
  apply Cbor.read_count_undoes.
  - eapply Forall_impl; [exact HF|]. intros b Hb r. by apply (read_fixed_put 32).
  - apply Forall_true. intros b. unfold put_bytes. rewrite length_app.
    pose proof (Cbor.push_head_nonempty 2 (Cbor.len64 b)). lia.
Qed.

Lemma parse_receipt_put r rest :
  record_wf (RecReceipt r) ->
  parse_receipt (write_fields (RecReceipt r) ++ rest) = Ok (RecReceipt r, rest).
Proof.
  destruct r as [id gen att wid tok dg outs]; intros (? & ? & ? & ? & ? & ? & ? & ?).
  cbn in * |-. unfold parse_receipt. destruct outs as [|o outs].
  - read_fields ltac:(fun _ => unfold receipt_field; read_back).
  - flat. cbn [r_output_digests bool_decide]. fold (put_outputs (o :: outs)).
    rewrite bool_decide_eq_false_2 by done. cbn [negb].
    rewrite <- ?app_assoc.
    apply result_bind_ok. eexists (_, _). split.
    + apply read_map_reads; [unfold is_u64; cbn; lia|].
      repeat read_field ltac:(fun _ => unfold receipt_field;
        first [read_back | eval_eqb; rewrite read_outputs_put by done; reflexivity]).
      apply reads_nil; cbn; lia.
    + reflexivity.
Qed.

Lemma parse_fields_put r rest :
  record_wf r -> record_valid r -> parse_fields (type_number r) (write_fields r ++ rest) = Ok (r, rest).
Proof.
  intros Hw Hv. unfold parse_fields. destruct r; cbn [type_number Z.eqb Pos.eqb];
    auto using parse_format_put, parse_job_put, parse_claim_put, parse_fail_put, parse_receipt_put,
      parse_dead_put, parse_watermark_put, parse_quarantine_put.
Qed.

(* ------------------------------------------------------------------ *)
(** * Canonicality of the fields map *)

Definition uint_slot : Z -> bytes := Cbor.push_head 0.
Definition bool_slot (b : bool) : bytes := [byte_of (if b then 0xf5 else 0xf4)].

(** Each reader in a form the field inversions share: the value is the
    slot's encoding, and well-formed. *)
#[local] Ltac read_inv H :=
  apply result_bind_ok in H;
  let v := fresh "v" in let r := fresh "r" in let Hr := fresh "Hr" in
  destruct H as ([v r] & Hr & H);
  first
    [ apply read_uint_inv in Hr as [-> ?]
    | apply (read_fixed_inv 16) in Hr as [-> ?]
    | apply (read_fixed_inv 32) in Hr as [-> ?]
    | apply read_text_inv in Hr as [-> ?]
    | apply read_bytes_inv in Hr as [-> ?]
    | apply read_bool_inv in Hr as -> ].

#[local] Ltac eval_eqb_in H :=
  repeat match type of H with context [bytes_eqb ?a ?b] =>
    let v := eval vm_compute in (bytes_eqb a b) in change (bytes_eqb a b) with v in H; cbn match in H end.

Definition opt_all {A} (P : A -> Prop) (o : option A) : Prop :=
  match o with Some a => P a | None => True end.

(** One branch of a field reader: the key is fixed, the value is read, the
    variables are updated at the key's slot. *)
#[local] Ltac field_branch fld rd :=
  match goal with
  | Hk : Some _ = Some ?k, H : fld ?k _ _ = _ |- _ =>
      injection Hk as <-; unfold fld in H; eval_eqb_in H; rd H; eval_eqb_in H;
      injection H as <- <-; split; [cbn; tauto|eexists; split; reflexivity]
  end.
#[local] Ltac field_cases fld rd :=
  repeat match goal with
  | Hk : (_ :: _) !! ?i = Some _ |- _ => destruct i as [|i]; cbn in Hk; [field_branch fld rd|]
  end; match goal with Hk : [] !! _ = Some _ |- _ => discriminate Hk end.

Definition watermark_slots (s : watermark_vars) : list (option bytes) :=
  let '(sequence, highest_observed_wall_bucket) := s in
  [uint_slot <$> sequence; uint_slot <$> highest_observed_wall_bucket].
Definition watermark_vars_wf (s : watermark_vars) : Prop :=
  let '(sequence, highest_observed_wall_bucket) := s in
  opt_all is_u64 sequence /\ opt_all is_u64 highest_observed_wall_bucket.

Lemma watermark_field_inv i k s r s' r' :
  WATERMARK_KEYS !! i = Some k -> watermark_vars_wf s -> watermark_field k s r = Ok (s', r') ->
  watermark_vars_wf s' /\ exists e, r = e ++ r' /\ watermark_slots s' = <[i := Some e]> (watermark_slots s).
Proof.
  intros Hk Hw H. unfold watermark_vars in s.
  destruct s as [sequence highest_observed_wall_bucket].
  cbn in Hw. unfold WATERMARK_KEYS in Hk.
  field_cases watermark_field read_inv.
Qed.

Definition dead_slots (s : dead_vars) : list (option bytes) :=
  let '(job_id, reason, attempt, generation) := s in
  [put_bytes <$> job_id; uint_slot <$> reason; uint_slot <$> attempt; uint_slot <$> generation].
Definition dead_vars_wf (s : dead_vars) : Prop :=
  let '(job_id, reason, attempt, generation) := s in
  opt_all is_id job_id /\ opt_all is_u64 reason /\ opt_all is_u64 attempt /\ opt_all is_u64
    generation.

Lemma dead_field_inv i k s r s' r' :
  DEAD_KEYS !! i = Some k -> dead_vars_wf s -> dead_field k s r = Ok (s', r') ->
  dead_vars_wf s' /\ exists e, r = e ++ r' /\ dead_slots s' = <[i := Some e]> (dead_slots s).
Proof.
  intros Hk Hw H. unfold dead_vars in s.
  destruct s as [[[job_id reason] attempt] generation].
  cbn in Hw. unfold DEAD_KEYS in Hk.
  field_cases dead_field read_inv.
Qed.

Definition fail_slots (s : fail_vars) : list (option bytes) :=
  let '(job_id, reason, attempt, generation, retry_not_before_ns) := s in
  [put_bytes <$> job_id; uint_slot <$> reason; uint_slot <$> attempt; uint_slot <$> generation;
    uint_slot <$> retry_not_before_ns].
Definition fail_vars_wf (s : fail_vars) : Prop :=
  let '(job_id, reason, attempt, generation, retry_not_before_ns) := s in
  opt_all is_id job_id /\ opt_all is_u64 reason /\ opt_all is_u64 attempt /\ opt_all is_u64
    generation /\ opt_all is_u64 retry_not_before_ns.

Lemma fail_field_inv i k s r s' r' :
  FAIL_KEYS !! i = Some k -> fail_vars_wf s -> fail_field k s r = Ok (s', r') ->
  fail_vars_wf s' /\ exists e, r = e ++ r' /\ fail_slots s' = <[i := Some e]> (fail_slots s).
Proof.
  intros Hk Hw H. unfold fail_vars in s.
  destruct s as [[[[job_id reason] attempt] generation] retry_not_before_ns].
  cbn in Hw. unfold FAIL_KEYS in Hk.
  field_cases fail_field read_inv.
Qed.

Definition quarantine_slots (s : quarantine_vars) : list (option bytes) :=
  let '(qid, detail, reason, source_key, observed_store_ns) := s in
  [put_bytes <$> qid; uint_slot <$> detail; uint_slot <$> reason; put_text <$> source_key;
    uint_slot <$> observed_store_ns].
Definition quarantine_vars_wf (s : quarantine_vars) : Prop :=
  let '(qid, detail, reason, source_key, observed_store_ns) := s in
  opt_all is_id qid /\ opt_all is_u64 detail /\ opt_all is_u64 reason /\ opt_all is_text
    source_key /\ opt_all is_u64 observed_store_ns.

Lemma quarantine_field_inv i k s r s' r' :
  QUARANTINE_KEYS !! i = Some k -> quarantine_vars_wf s -> quarantine_field k s r = Ok (s', r') ->
  quarantine_vars_wf s' /\ exists e, r = e ++ r' /\ quarantine_slots s' = <[i := Some e]> (quarantine_slots s).
Proof.
  intros Hk Hw H. unfold quarantine_vars in s.
  destruct s as [[[[qid detail] reason] source_key] observed_store_ns].
  cbn in Hw. unfold QUARANTINE_KEYS in Hk.
  field_cases quarantine_field read_inv.
Qed.

Definition job_slots (s : job_vars) : list (option bytes) :=
  let '(job_id, payload_key, content_type, not_before_ns, payload_digest, payload_inline,
    payload_length, maximum_attempts, created_store_time_ns) := s in
  [put_bytes <$> job_id; put_text <$> payload_key; put_text <$> content_type; uint_slot <$>
    not_before_ns; put_bytes <$> payload_digest; put_bytes <$> payload_inline; uint_slot <$>
    payload_length; uint_slot <$> maximum_attempts; uint_slot <$> created_store_time_ns].
Definition job_vars_wf (s : job_vars) : Prop :=
  let '(job_id, payload_key, content_type, not_before_ns, payload_digest, payload_inline,
    payload_length, maximum_attempts, created_store_time_ns) := s in
  opt_all is_id job_id /\ opt_all is_text payload_key /\ opt_all is_text content_type /\ opt_all
    is_u64 not_before_ns /\ opt_all is_digest payload_digest /\ opt_all (fun b => is_u64
    (Cbor.len64 b)) payload_inline /\ opt_all is_u64 payload_length /\ opt_all is_u64
    maximum_attempts /\ opt_all is_u64 created_store_time_ns.

Lemma job_field_inv i k s r s' r' :
  JOB_KEYS !! i = Some k -> job_vars_wf s -> job_field k s r = Ok (s', r') ->
  job_vars_wf s' /\ exists e, r = e ++ r' /\ job_slots s' = <[i := Some e]> (job_slots s).
Proof.
  intros Hk Hw H. unfold job_vars in s.
  destruct s as [[[[[[[[job_id payload_key] content_type] not_before_ns] payload_digest]
    payload_inline] payload_length] maximum_attempts] created_store_time_ns].
  cbn in Hw. unfold JOB_KEYS in Hk.
  field_cases job_field read_inv.
Qed.

#[local] Ltac wf_bounds :=
  unfold is_u64, is_u32 in *; cbn; unfold is_u64, is_u32; cbn; lia.

Definition format_slots (s : FormatRecord * list bool) : list (option bytes) :=
  let '(f, seen) := s in
  zip_with (fun (b : bool) v => if b then Some (uint_slot v) else None) seen
    [shard_count f; inline_limit f; lease_bucket_width_ns f; required_feature_bits f;
     delayed_bucket_width_ns f; terminal_bucket_width_ns f].
Definition format_vars_wf (s : FormatRecord * list bool) : Prop :=
  record_wf (RecFormat s.1) /\ record_valid (RecFormat s.1) /\ length s.2 = 6%nat.

Lemma format_field_inv i k s r s' r' :
  FORMAT_KEYS !! i = Some k -> format_vars_wf s -> format_field k s r = Ok (s', r') ->
  format_vars_wf s' /\ exists e, r = e ++ r' /\ format_slots s' = <[i := Some e]> (format_slots s).
Proof.
  intros Hk Hw H. destruct s as [f seen]. destruct Hw as (Hw & Hv & Hl).
  cbn [fst snd record_wf record_valid] in Hw, Hv, Hl. destruct Hw as (? & ? & ? & ? & ? & ?).
  destruct seen as [|b0 [|b1 [|b2 [|b3 [|b4 [|b5 [|]]]]]]]; try discriminate Hl.
  unfold format_field in H. read_inv H. unfold format_vars_wf. unfold FORMAT_KEYS in Hk.
  destruct i as [|i]; cbn in Hk.
  { injection Hk as <-. eval_eqb_in H. destruct (Z.ltb_spec 65536 v); [done|].
    match goal with Hu : is_u64 v |- _ => destruct Hu end.
    injection H as <- <-. rewrite Z.mod_small by lia.
    split; [wf_bounds|by eexists]. }
  repeat (destruct i as [|i]; cbn in Hk;
    [injection Hk as <-; eval_eqb_in H; injection H as <- <-;
     split; [wf_bounds|by eexists]|]).
  done.
Qed.

Definition basis_wf (b : ClaimBasis) : Prop :=
  is_u64 (prev_store_time_ns b) /\ is_u64 (prev_duration_ns b) /\ is_u64 (observed_watermark_ns b).
Definition basis_slots (s : ClaimBasis * list bool) : list (option bytes) :=
  let '(b, seen) := s in
  zip_with (fun (b : bool) v => if b then Some (uint_slot v) else None) seen
    [prev_duration_ns b; prev_store_time_ns b; observed_watermark_ns b].
Definition basis_vars_wf (s : ClaimBasis * list bool) : Prop :=
  basis_wf s.1 /\ length s.2 = 3%nat.

Lemma basis_field_inv i k s r s' r' :
  BASIS_KEYS !! i = Some k -> basis_vars_wf s -> basis_field k s r = Ok (s', r') ->
  basis_vars_wf s' /\ exists e, r = e ++ r' /\ basis_slots s' = <[i := Some e]> (basis_slots s).
Proof.
  intros Hk Hw H. destruct s as [f seen]. destruct Hw as ((? & ? & ?) & Hl). cbn in * |-.
  destruct seen as [|b0 [|b1 [|b2 [|]]]]; try discriminate Hl.
  unfold basis_field in H. read_inv H. unfold basis_vars_wf, basis_wf. unfold BASIS_KEYS in Hk.
  repeat (destruct i as [|i]; cbn in Hk;
    [injection Hk as <-; eval_eqb_in H; injection H as <- <-;
     split; [wf_bounds|by eexists]|]).
  done.
Qed.

(** The writer's bytes against the slots, once the present fields are
    known. *)
#[local] Ltac slots_eq keys slots :=
  unfold keys, slots, uint_slot, bool_slot, put_outputs, write_fields, write_basis,
    put_key, put_key_bytes, put_key_text, put_key_bool;
  cbn [length replicate zip_with emit_slots count_slots some_z fmap option_fmap option_map opt_bytes
       app q_detail j_not_before_ns j_payload_inline j_payload_key c_basis c_prev_token];
  rewrite <- ?app_assoc; cbn [app]; reflexivity.

(** A complete scan of the [seen] flags. *)
Lemma all_seen_true table seen :
  length seen = length table -> all_seen table seen = Ok tt -> seen = replicate (length table) true.
Proof.
  revert seen. induction table as [|k table IH]; intros [|b seen] Hl H; try done.
  destruct b; cbn in H; [|done]. cbn. f_equal. apply IH; [by injection Hl|done].
Qed.

Lemma parse_basis_inv r b rest :
  parse_basis r = Ok (b, rest) -> r = write_basis b ++ rest /\ basis_wf b.
Proof.
  unfold parse_basis. intros ([[b' seen] r'] & Hm & H)%result_bind_ok.
  eapply (read_map_inv BASIS_KEYS basis_field basis_slots basis_vars_wf) in Hm as [Hw ->];
    [| |exact basis_field_inv|by repeat split|reflexivity].
  2:{ intros [? seen'] [_ Hl]. cbn in Hl |- *. by destruct seen' as [|? [|? [|? [|]]]]. }
  apply result_bind_ok in H as ([] & Hs & [= -> ->]). destruct Hw as [Hw Hl].
  apply all_seen_true in Hs as ->; [|done]. split; [|done].
  by slots_eq BASIS_KEYS basis_slots.
Qed.

Definition outputs_wf (l : list bytes) : Prop :=
  l <> [] /\ Forall is_digest l /\ is_u64 (Cbor.len64 l).

Lemma read_outputs_inv r l rest :
  read_output_digests r = Ok (l, rest) -> r = put_outputs l ++ rest /\ outputs_wf l.
Proof.
  unfold read_output_digests, put_outputs, outputs_wf. intros H. rhead_in H.
  destruct (Z.eqb_spec z0 0) as [|Hz]; [done|].
  apply (Cbor.read_n_inv _ _ put_bytes is_digest) in H as (-> & HF & Hl);
    [|intros ???; apply (read_fixed_inv 32)|unfold is_u64 in *; lia].
  rewrite Hl, <- app_assoc. repeat split; try done; try (by destruct H1). by intros ->.
Qed.

#[local] Ltac read_inv_nested H :=
  first [ read_inv H
      | apply result_bind_ok in H; destruct H as ([v r0] & Hr & H);
        first [apply parse_basis_inv in Hr as [-> ?] | apply read_outputs_inv in Hr as [-> ?]] ].

Definition claim_slots (s : claim_vars) : list (option bytes) :=
  let '(basis, job_id, attempt, worker_id, generation, prev_token, continuation, worker_token,
    lease_duration_ns) := s in
  [write_basis <$> basis; put_bytes <$> job_id; uint_slot <$> attempt; put_text <$> worker_id;
    uint_slot <$> generation; put_bytes <$> prev_token; bool_slot <$> continuation; put_bytes <$>
    worker_token; uint_slot <$> lease_duration_ns].
Definition claim_vars_wf (s : claim_vars) : Prop :=
  let '(basis, job_id, attempt, worker_id, generation, prev_token, continuation, worker_token,
    lease_duration_ns) := s in
  opt_all basis_wf basis /\ opt_all is_id job_id /\ opt_all is_u64 attempt /\ opt_all is_text
    worker_id /\ opt_all is_u64 generation /\ opt_all is_id prev_token /\ opt_all is_id
    worker_token /\ opt_all is_u64 lease_duration_ns.

Lemma claim_field_inv i k s r s' r' :
  CLAIM_KEYS !! i = Some k -> claim_vars_wf s -> claim_field k s r = Ok (s', r') ->
  claim_vars_wf s' /\ exists e, r = e ++ r' /\ claim_slots s' = <[i := Some e]> (claim_slots s).
Proof.
  intros Hk Hw H. unfold claim_vars in s.
  destruct s as [[[[[[[[basis job_id] attempt] worker_id] generation] prev_token] continuation]
    worker_token] lease_duration_ns].
  cbn in Hw. unfold CLAIM_KEYS in Hk.
  field_cases claim_field read_inv_nested.
Qed.

Definition receipt_slots (s : receipt_vars) : list (option bytes) :=
  let '(job_id, attempt, worker_id, generation, worker_token, output_digests, payload_digest) := s
    in
  [put_bytes <$> job_id; uint_slot <$> attempt; put_text <$> worker_id; uint_slot <$> generation;
    put_bytes <$> worker_token; put_outputs <$> output_digests; put_bytes <$> payload_digest].
Definition receipt_vars_wf (s : receipt_vars) : Prop :=
  let '(job_id, attempt, worker_id, generation, worker_token, output_digests, payload_digest) := s
    in
  opt_all is_id job_id /\ opt_all is_u64 attempt /\ opt_all is_text worker_id /\ opt_all is_u64
    generation /\ opt_all is_id worker_token /\ opt_all outputs_wf output_digests /\ opt_all
    is_digest payload_digest.

Lemma receipt_field_inv i k s r s' r' :
  RECEIPT_KEYS !! i = Some k -> receipt_vars_wf s -> receipt_field k s r = Ok (s', r') ->
  receipt_vars_wf s' /\ exists e, r = e ++ r' /\ receipt_slots s' = <[i := Some e]> (receipt_slots s).
Proof.
  intros Hk Hw H. unfold receipt_vars in s.
  destruct s as [[[[[[job_id attempt] worker_id] generation] worker_token] output_digests]
    payload_digest].
  cbn in Hw. unfold RECEIPT_KEYS in Hk.
  field_cases receipt_field read_inv_nested.
Qed.

#[local] Ltac split_vars s :=
  unfold watermark_vars, dead_vars, fail_vars, quarantine_vars, job_vars, claim_vars,
    receipt_vars in s;
  repeat match type of s with (_ * _)%type => destruct s as [s ?] end.

(** The variables after the map, and the map's bytes. *)
#[local] Ltac fields_inv keys fld slots vwf fld_inv H :=
  apply result_bind_ok in H;
  let vars := fresh "vars" in let r' := fresh "r'" in let Hm := fresh "Hm" in
  destruct H as ([vars r'] & Hm & H);
  eapply (read_map_inv keys fld slots vwf) in Hm as [? ->];
    [| |exact fld_inv|cbn; tauto|reflexivity];
  [ split_vars vars | let s := fresh in intros s _; split_vars s; reflexivity ].

#[local] Ltac required_in H :=
  repeat match type of H with (required ?o ?n ≫= _) = _ =>
    apply result_bind_ok in H; let Hx := fresh "Hx" in destruct H as (? & Hx & H);
    apply ok_or_ok in Hx as -> end.

#[local] Ltac vars_wf :=
  cbn in * |-; destruct_and?; cbn; split_and!; try (intros ? ?; simplify_eq; cbn in * |-);
  destruct_and?; assumption || (exact I) || tauto.

Lemma parse_watermark_inv r rec rest :
  parse_watermark r = Ok (rec, rest) -> r = write_fields rec ++ rest /\ record_wf rec.
Proof.
  unfold parse_watermark. intros H.
  fields_inv WATERMARK_KEYS watermark_field watermark_slots watermark_vars_wf watermark_field_inv H.
  required_in H. injection H as <- <-. split; [slots_eq WATERMARK_KEYS watermark_slots|].
  vars_wf.
Qed.

Lemma parse_dead_inv r rec rest :
  parse_dead r = Ok (rec, rest) -> r = write_fields rec ++ rest /\ record_wf rec.
Proof.
  unfold parse_dead. intros H.
  fields_inv DEAD_KEYS dead_field dead_slots dead_vars_wf dead_field_inv H.
  required_in H. injection H as <- <-. split; [slots_eq DEAD_KEYS dead_slots|].
  vars_wf.
Qed.

Lemma parse_fail_inv r rec rest :
  parse_fail r = Ok (rec, rest) -> r = write_fields rec ++ rest /\ record_wf rec.
Proof.
  unfold parse_fail. intros H.
  fields_inv FAIL_KEYS fail_field fail_slots fail_vars_wf fail_field_inv H.
  required_in H. injection H as <- <-. split; [slots_eq FAIL_KEYS fail_slots|].
  vars_wf.
Qed.

Lemma parse_quarantine_inv r rec rest :
  parse_quarantine r = Ok (rec, rest) -> r = write_fields rec ++ rest /\ record_wf rec.
Proof.
  unfold parse_quarantine. intros H.
  fields_inv QUARANTINE_KEYS quarantine_field quarantine_slots quarantine_vars_wf quarantine_field_inv H.
  required_in H. injection H as <- <-. split.
  - match goal with o : option Z |- _ => destruct o end; slots_eq QUARANTINE_KEYS quarantine_slots.
  - vars_wf.
Qed.

Lemma parse_format_inv r rec rest :
  parse_format r = Ok (rec, rest) -> r = write_fields rec ++ rest /\ record_wf rec /\ record_valid rec.
Proof.
  unfold parse_format. intros ([[f seen] r'] & Hm & H)%result_bind_ok.
  eapply (read_map_inv FORMAT_KEYS format_field format_slots format_vars_wf) in Hm as [Hw ->];
    [| |exact format_field_inv|by repeat split|reflexivity].
  2:{ intros [? seen'] (_ & _ & Hl). cbn in Hl |- *.
      by destruct seen' as [|? [|? [|? [|? [|? [|? [|]]]]]]]. }
  apply result_bind_ok in H as ([] & Hs & [= <- ->]). destruct Hw as (Hw & Hv & Hl).
  apply all_seen_true in Hs as ->; [|done]. split; [|done].
  slots_eq FORMAT_KEYS format_slots.
Qed.

Lemma parse_job_inv r rec rest :
  parse_job r = Ok (rec, rest) -> r = write_fields rec ++ rest /\ record_wf rec /\ record_valid rec.
Proof.
  unfold parse_job. intros H.
  fields_inv JOB_KEYS job_field job_slots job_vars_wf job_field_inv H.
  match type of H with (if Bool.eqb (bool_decide (is_Some ?i)) (bool_decide (is_Some ?k)) then _ else _) = _ =>
    destruct i as [inl|], k as [key|] end; cbn [bool_decide decide is_Some_dec Bool.eqb] in H;
    try discriminate H; required_in H; injection H as <- <-.
  all: split;
    [match goal with o : option Z |- _ => destruct o end; slots_eq JOB_KEYS job_slots|].
  all: split; [vars_wf|cbn; split; naive_solver].
Qed.

Lemma parse_claim_inv r rec rest :
  parse_claim r = Ok (rec, rest) -> r = write_fields rec ++ rest /\ record_wf rec /\ record_valid rec.
Proof.
  unfold parse_claim. intros H.
  fields_inv CLAIM_KEYS claim_field claim_slots claim_vars_wf claim_field_inv H.
  required_in H.
  match type of H with (if Bool.eqb ?c (bool_decide (is_Some ?i))
                           || negb (Bool.eqb _ (bool_decide (is_Some ?k))) || _ then _ else _) = _ =>
    destruct c, i as [b|], k as [t|] end;
    cbn [bool_decide decide is_Some_dec Bool.eqb negb orb] in H;
    try discriminate H; required_in H; injection H as <- <-.
  all: split; [slots_eq CLAIM_KEYS claim_slots|].
  all: split; [vars_wf|cbn; split; naive_solver].
Qed.

Lemma parse_receipt_inv r rec rest :
  parse_receipt r = Ok (rec, rest) -> r = write_fields rec ++ rest /\ record_wf rec.
Proof.
  unfold parse_receipt. intros H.
  fields_inv RECEIPT_KEYS receipt_field receipt_slots receipt_vars_wf receipt_field_inv H.
  required_in H. injection H as <- <-.
  match goal with o : option (list bytes) |- _ => destruct o as [outs|] end; cbn [default].
  - assert (outputs_wf outs) as (Hne & ? & ?) by (cbn in *; tauto). split; [|vars_wf].
    unfold write_fields. cbn [r_output_digests]. rewrite bool_decide_eq_false_2 by done. cbn [negb b2z].
    slots_eq RECEIPT_KEYS receipt_slots.
  - split; [slots_eq RECEIPT_KEYS receipt_slots|]. cbn in *. destruct_and?.
    split_and!; try assumption; [apply Forall_nil; exact I|unfold is_u64, Cbor.len64; cbn; lia].
Qed.

(** The record type a parser yields. *)
Lemma parse_fields_type t r rec rest : parse_fields t r = Ok (rec, rest) -> type_number rec = t.
Proof.
  unfold parse_fields.
  repeat match goal with |- context [t =? ?k] => destruct (Z.eqb_spec t k) as [->|] end; [..|done].
  all: unfold parse_format, parse_job, parse_claim, parse_fail, parse_receipt, parse_dead,
    parse_watermark, parse_quarantine; intros ([vars r'] & _ & H)%result_bind_ok;
    repeat case_match; required_in H; simplify_eq; try done.
  all: repeat match type of H with (_ ≫= _) = _ => 
    apply result_bind_ok in H; destruct H as (? & _ & H) end; repeat case_match; required_in H; simplify_eq; try done.
Qed.

Lemma parse_fields_inv t r rec rest :
  parse_fields t r = Ok (rec, rest) ->
  r = write_fields rec ++ rest /\ type_number rec = t /\ record_wf rec /\ record_valid rec.
Proof.
  intros H. pose proof (parse_fields_type t r rec rest H) as Ht.
  unfold parse_fields in H.
  repeat match type of H with context [t =? ?k] => destruct (Z.eqb_spec t k) as [E|] end; [..|done];
    rewrite E in Ht.
  all: first [apply parse_format_inv in H as (-> & ? & ?) | apply parse_job_inv in H as (-> & ? & ?)
    | apply parse_claim_inv in H as (-> & ? & ?) | apply parse_fail_inv in H as (-> & ?)
    | apply parse_receipt_inv in H as (-> & ?) | apply parse_dead_inv in H as (-> & ?)
    | apply parse_watermark_inv in H as (-> & ?) | apply parse_quarantine_inv in H as (-> & ?)];
    rewrite <- E in Ht; split_and!; try assumption; try reflexivity.
  all: rewrite E in Ht; destruct rec; try discriminate Ht; exact I.
Qed.

(* ------------------------------------------------------------------ *)
(** * Whole records *)

Definition type_str_of (r : Record_) : bytes := default [] (type_name (type_number r)).

Lemma type_name_number r : type_name (type_number r) = Some (type_str_of r).
Proof. by destruct r. Qed.

Lemma type_number_u64 r : is_u64 (type_number r).
Proof. destruct r; unfold is_u64; cbn; lia. Qed.

(** The envelope, read back field by field. *)
Lemma decode_record_split body (digest : bytes) :
  length digest = 32%nat ->
  let data := body ++ [byte_of 0x58; byte_of 32] ++ digest in
  (Cbor.len64 data <? 34) = false /\ take (length data - 34) data = body /\
  drop (length data - 34) data = [byte_of 0x58; byte_of 32] ++ digest.
Proof.
  intros Hd data. assert (length data = length body + 34)%nat as Hl.
  { unfold data. rewrite length_app. cbn. lia. }
  split; [apply Z.ltb_ge; unfold Cbor.len64; lia|].
  rewrite Hl. replace (length body + 34 - 34)%nat with (length body) by lia.
  split; [apply take_app_length|apply drop_app_length].
Qed.

Lemma decode_encode_aux {HS : Sha256} (r : Record_) (queue_id tag : bytes)
  (Hq : is_u64 (Cbor.len64 queue_id)) (Ht : is_u64 (Cbor.len64 tag))
  (Hw : record_wf r) (Hv : record_valid r) :
  decode_record (encode_record r queue_id tag) queue_id tag = Ok r.
Proof.
  unfold encode_record. fold (type_str_of r). set (body := encode_body r queue_id tag).
  destruct (decode_record_split body (record_digest (type_str_of r) body)
              (sha256_length _)) as (E1 & E2 & E3).
  unfold decode_record. rewrite E1, E2, E3. cbn [take drop app].
  unfold bytes_eqb at 1. rewrite bool_decide_eq_true_2 by done. cbn [negb].
  change (rhead body) with (rhead (encode_body r queue_id tag)). unfold encode_body.
  rewrite rhead_push by (unfold is_u64; lia). cbn [mbind result_bind Z.eqb Pos.eqb negb orb].
  do 3 (rewrite env_uint_put by (unfold is_u64, MAGIC, MAJOR, MINOR; lia); cbn [mbind result_bind]).
  do 2 (rewrite env_bytes_put by done; cbn [mbind result_bind]).
  rewrite env_uint_put by apply type_number_u64. cbn [mbind result_bind].
  rewrite !Z.eqb_refl, type_name_number. cbn [negb orb ok_or mbind result_bind].
  unfold bytes_eqb. rewrite !bool_decide_eq_true_2 by done. cbn [negb orb].
  rewrite <- (app_nil_r (write_fields r)), parse_fields_put by done. done.
Qed.

Lemma decode_record_canonical_aux {HS : Sha256} (data queue_id tag : bytes) (r : Record_)
  (H : decode_record data queue_id tag = Ok r) :
  data = encode_record r queue_id tag /\ record_wf r /\ record_valid r.
Proof.
  unfold decode_record in H. destruct (Z.ltb_spec (Cbor.len64 data) 34) as [|Hl]; [done|].
  unfold Cbor.len64 in Hl.
  pose proof (take_drop (length data - 34) data) as Hd.
  set (body := take (length data - 34) data) in *. set (tail := drop (length data - 34) data) in *.
  unfold bytes_eqb in H. case_bool_decide as Et; [|done]. cbn [negb] in H.
  apply result_bind_ok in H as ([[major n] r0] & Hh & H). apply rhead_inv in Hh as (Eb & _ & _).
  destruct (Z.eqb_spec major 4) as [->|]; [|done]. destruct (Z.eqb_spec n 7) as [->|]; [|done].
  cbn [negb orb] in H.
  apply result_bind_ok in H as ([magic r1] & Hx & H). apply env_uint_inv in Hx as [-> _].
  apply result_bind_ok in H as ([vmaj r2] & Hx & H). apply env_uint_inv in Hx as [-> _].
  apply result_bind_ok in H as ([vmin r3] & Hx & H). apply env_uint_inv in Hx as [-> _].
  apply result_bind_ok in H as ([qid r4] & Hx & H). apply env_bytes_inv in Hx as [-> _].
  apply result_bind_ok in H as ([tg r5] & Hx & H). apply env_bytes_inv in Hx as [-> _].
  apply result_bind_ok in H as ([rt r6] & Hx & H). apply env_uint_inv in Hx as [-> _].
  destruct (Z.eqb_spec magic MAGIC) as [->|]; [|done].
  destruct (Z.eqb_spec vmaj MAJOR) as [->|]; [|done].
  destruct (Z.eqb_spec vmin MINOR) as [->|]; [|done]. cbn [negb orb] in H.
  apply result_bind_ok in H as (ts & Hts & H). apply ok_or_ok in Hts.
  case_bool_decide as Edig; [|done]. do 2 (case_bool_decide; [|done]). subst qid tg.
  cbn [negb orb] in H. apply result_bind_ok in H as ([rec r7] & Hf & H).
  destruct r7 as [|]; [|done]. injection H as ->.
  apply parse_fields_inv in Hf as (-> & <- & Hw & Hv). rewrite app_nil_r in Eb.
  split; [|done]. fold (encode_body r queue_id tag) in Eb.
  unfold encode_record. cbn zeta. rewrite Hts. change (default [] (Some ts)) with ts.
  rewrite <- Eb, Edig, <- Et, take_drop. done.
Qed.

(** C19: decoding and encoding are inverse, and decoding authenticates: a byte
    string is accepted as a record under a queue and key binding exactly when
    it is what the encoder emits for that record under that binding, the
    field types respected, one payload form, evidence matching the claim
    kind.  So the digest, the envelope, the key order and the payload and
    evidence forms are all enforced, every record the writer can be given
    reads back, and no two byte strings decode to the same record. *)
Theorem decode_record_exactly {HS : Sha256} (data queue_id tag : bytes) (r : Record_)
  (Hq : is_u64 (Cbor.len64 queue_id)) (Ht : is_u64 (Cbor.len64 tag)) :
  decode_record data queue_id tag = Ok r <->
  data = encode_record r queue_id tag /\ record_wf r /\ record_valid r.
Proof.
  split; [apply decode_record_canonical_aux|].
  intros (-> & Hw & Hv). by apply decode_encode_aux.
Qed.

Lemma decode_record_exactly_witness :
  let data := @encode_record fips vector_claim vector_queue vector_tag in
  is_u64 (Cbor.len64 vector_queue) /\ is_u64 (Cbor.len64 vector_tag) /\
  @decode_record fips data vector_queue vector_tag = Ok vector_claim /\
  (forall r, @decode_record fips (Init.Byte.x00 :: data) vector_queue vector_tag <> Ok r) /\
  (forall r, @decode_record fips data vector_queue vector_tag = Ok r ->
     data = @encode_record fips r vector_queue vector_tag).
Proof.
  intros data.
  assert (is_u64 (Cbor.len64 vector_queue)) as Hq by (vm_compute; split; discriminate).
  assert (is_u64 (Cbor.len64 vector_tag)) as Ht by (vm_compute; split; discriminate).
  assert (record_wf vector_claim) as Hw.
  { cbn. unfold is_id, is_text, is_u64. split_and!; try done; try lia.
    intros b [= <-]. cbn. lia. }
  assert (record_valid vector_claim) as Hv by (split; [done|by eauto]).
  split; [exact Hq|]. split; [exact Ht|].
  split; [|split; [intros r Hr; vm_compute in Hr; discriminate Hr|]].
  - by apply (@decode_record_exactly fips data vector_queue vector_tag vector_claim Hq Ht).
  - intros r Hr. by apply (@decode_record_exactly fips data vector_queue vector_tag r Hq Ht) in Hr as [? _].
Defined.
