(* ===== verification/Values.v ===== *)
(** [stowq-format/src/lib.rs]: the value path, the reference the crate checks
    its direct writer and decoder against.

    A record becomes a [Value] tree whose map the CBOR encoder sorts, and a
    decoded tree becomes a record by looking its fields up by name.  The
    crate's differential tests compare this path with the direct one on
    fixtures and single-byte mutations; here the two are proved to agree on
    every record and on every byte string. *)

From S2P Require Import Prelude Sha256 Keys Cbor Records Direct.

#[local] Arguments Cbor.push_head : simpl never.
#[local] Arguments str : simpl never.

Abbreviation Value := Cbor.Value.
Abbreviation fields_map := (list (Cbor.Value * Cbor.Value)).

(* ------------------------------------------------------------------ *)
(** * Field helpers *)

(** [map.iter().find(|(k, _)| k == &Value::Text(key.into()))]. *)
Definition is_key (key : bytes) (k : Value) : bool :=
  match k with Cbor.VText t => bytes_eqb t key | _ => false end.
Fixpoint find_key (key : bytes) (m : fields_map) : option Value :=
  match m with
  | [] => None
  | (k, v) :: m => if is_key key k then Some v else find_key key m
  end.

Definition get_u64 (m : fields_map) (key : bytes) : Result RecordError Z :=
  match find_key key m with
  | Some (Cbor.VUint n) => Ok n
  | Some _ => Err (RField "uint")
  | None => Err (RMissingField key)
  end.

Definition get_opt_u64 (m : fields_map) (key : bytes) : Result RecordError (option Z) :=
  match find_key key m with
  | Some (Cbor.VUint n) => Ok (Some n)
  | Some _ => Err (RField "uint")
  | None => Ok None
  end.

Definition get_bytes (n : Z) (m : fields_map) (key : bytes) : Result RecordError bytes :=
  match find_key key m with
  | Some (Cbor.VBytes b) => if Cbor.len64 b =? n then Ok b else Err (RField "byte width")
  | Some _ => Err (RField "bytes")
  | None => Err (RMissingField key)
  end.

Definition get_text (m : fields_map) (key : bytes) : Result RecordError bytes :=
  match find_key key m with
  | Some (Cbor.VText t) => Ok t
  | Some _ => Err (RField "text")
  | None => Err (RMissingField key)
  end.

Definition get_bool (m : fields_map) (key : bytes) : Result RecordError bool :=
  match find_key key m with
  | Some (Cbor.VBool b) => Ok b
  | Some _ => Err (RField "bool")
  | None => Err (RMissingField key)
  end.

Fixpoint expect_keys (m : fields_map) (allowed : list bytes) : Result RecordError unit :=
  match m with
  | [] => Ok tt
  | (k, _) :: m =>
      match k with
      | Cbor.VText t =>
          if bool_decide (t ∈ allowed) then expect_keys m allowed else Err (RUnknownField t)
      | _ => Err (RField "text key")
      end
  end.

Definition kv_u64 (key : bytes) (v : Z) : fields_map := [(Cbor.VText key, Cbor.VUint v)].
Definition kv_bytes (key v : bytes) : fields_map := [(Cbor.VText key, Cbor.VBytes v)].
Definition kv_text (key v : bytes) : fields_map := [(Cbor.VText key, Cbor.VText v)].
Definition kv_bool (key : bytes) (v : bool) : fields_map := [(Cbor.VText key, Cbor.VBool v)].

(* ------------------------------------------------------------------ *)
(** * [Record::fields] *)

(** [if let Some(v) = o { m.push(..) }]. *)
Definition kv_opt {A} (f : A -> fields_map) (o : option A) : fields_map :=
  match o with Some a => f a | None => [] end.

Definition basis_fields (b : ClaimBasis) : fields_map :=
  kv_u64 ¶"prev_store_time_ns" (prev_store_time_ns b) ++
  kv_u64 ¶"prev_duration_ns" (prev_duration_ns b) ++
  kv_u64 ¶"observed_watermark_ns" (observed_watermark_ns b).

Definition fields (record : Record_) : fields_map :=
  match record with
  | RecFormat r =>
      kv_u64 ¶"shard_count" (shard_count r) ++
      kv_u64 ¶"lease_bucket_width_ns" (lease_bucket_width_ns r) ++
      kv_u64 ¶"delayed_bucket_width_ns" (delayed_bucket_width_ns r) ++
      kv_u64 ¶"terminal_bucket_width_ns" (terminal_bucket_width_ns r) ++
      kv_u64 ¶"inline_limit" (inline_limit r) ++
      kv_u64 ¶"required_feature_bits" (required_feature_bits r)
  | RecJob r =>
      kv_bytes ¶"job_id" (j_job_id r) ++
      kv_u64 ¶"maximum_attempts" (j_maximum_attempts r) ++
      kv_text ¶"content_type" (j_content_type r) ++
      kv_u64 ¶"created_store_time_ns" (j_created_store_time_ns r) ++
      kv_opt (kv_u64 ¶"not_before_ns") (j_not_before_ns r) ++
      kv_bytes ¶"payload_digest" (j_payload_digest r) ++
      kv_u64 ¶"payload_length" (j_payload_length r) ++
      kv_opt (kv_bytes ¶"payload_inline") (j_payload_inline r) ++
      kv_opt (kv_text ¶"payload_key") (j_payload_key r)
  | RecClaim r =>
      kv_bytes ¶"job_id" (c_job_id r) ++
      kv_u64 ¶"generation" (c_generation r) ++
      kv_u64 ¶"attempt" (c_attempt r) ++
      kv_text ¶"worker_id" (c_worker_id r) ++
      kv_bytes ¶"worker_token" (c_worker_token r) ++
      kv_u64 ¶"lease_duration_ns" (c_lease_duration_ns r) ++
      kv_bool ¶"continuation" (c_continuation r) ++
      kv_opt (fun b => [(Cbor.VText ¶"basis", Cbor.VMap (basis_fields b))]) (c_basis r) ++
      kv_opt (kv_bytes ¶"prev_token") (c_prev_token r)
  | RecFail r =>
      kv_bytes ¶"job_id" (f_job_id r) ++
      kv_u64 ¶"generation" (f_generation r) ++
      kv_u64 ¶"reason" (f_reason r) ++
      kv_u64 ¶"attempt" (f_attempt r) ++
      kv_u64 ¶"retry_not_before_ns" (f_retry_not_before_ns r)
  | RecReceipt r =>
      kv_bytes ¶"job_id" (r_job_id r) ++
      kv_u64 ¶"generation" (r_generation r) ++
      kv_u64 ¶"attempt" (r_attempt r) ++
      kv_text ¶"worker_id" (r_worker_id r) ++
      kv_bytes ¶"worker_token" (r_worker_token r) ++
      kv_bytes ¶"payload_digest" (r_payload_digest r) ++
      (if negb (bool_decide (r_output_digests r = [])) then
         [(Cbor.VText ¶"output_digests", Cbor.VArray (map Cbor.VBytes (r_output_digests r)))]
       else [])
  | RecDead r =>
      kv_bytes ¶"job_id" (d_job_id r) ++
      kv_u64 ¶"generation" (d_generation r) ++
      kv_u64 ¶"attempt" (d_attempt r) ++
      kv_u64 ¶"reason" (d_reason r)
  | RecWatermark r =>
      kv_u64 ¶"highest_observed_wall_bucket" (highest_observed_wall_bucket r) ++
      kv_u64 ¶"sequence" (w_sequence r)
  | RecQuarantine r =>
      kv_bytes ¶"qid" (q_qid r) ++
      kv_text ¶"source_key" (q_source_key r) ++
      kv_u64 ¶"reason" (q_reason r) ++
      kv_u64 ¶"observed_store_ns" (q_observed_store_ns r) ++
      kv_opt (kv_u64 ¶"detail") (q_detail r)
  end.

(* ------------------------------------------------------------------ *)
(** * [Record::from_fields], one arm per record type *)

Definition format_from (m : fields_map) : Result RecordError Record_ :=
  expect_keys m [¶"shard_count"; ¶"lease_bucket_width_ns"; ¶"delayed_bucket_width_ns";
                 ¶"terminal_bucket_width_ns"; ¶"inline_limit"; ¶"required_feature_bits"];;
  shard_count ← get_u64 m ¶"shard_count";
  if 65536 <? shard_count then Err (RField "shard_count")
  else
    lease ← get_u64 m ¶"lease_bucket_width_ns";
    delayed ← get_u64 m ¶"delayed_bucket_width_ns";
    terminal ← get_u64 m ¶"terminal_bucket_width_ns";
    inline ← get_u64 m ¶"inline_limit";
    features ← get_u64 m ¶"required_feature_bits";
    Ok (RecFormat {| shard_count := shard_count mod 2 ^ 32; lease_bucket_width_ns := lease;
                     delayed_bucket_width_ns := delayed; terminal_bucket_width_ns := terminal;
                     inline_limit := inline; required_feature_bits := features |}).

(** [if map.iter().any(..) { allowed.push(key) }]. *)
Definition allow_present (m : fields_map) (key : bytes) : list bytes :=
  if existsb (fun p => is_key key p.1) m then [key] else [].

Definition job_inline (m : fields_map) : Result RecordError (option bytes) :=
  match find_key ¶"payload_inline" m with
  | Some (Cbor.VBytes b) => Ok (Some b)
  | Some _ => Err (RField "payload_inline")
  | None => Ok None
  end.

Definition job_key (m : fields_map) : Result RecordError (option bytes) :=
  match find_key ¶"payload_key" m with
  | Some (Cbor.VText t) => Ok (Some t)
  | Some _ => Err (RField "payload_key")
  | None => Ok None
  end.

Definition job_from (m : fields_map) : Result RecordError Record_ :=
  expect_keys m ([¶"job_id"; ¶"maximum_attempts"; ¶"content_type"; ¶"created_store_time_ns";
                  ¶"payload_digest"; ¶"payload_length"] ++
                 allow_present m ¶"not_before_ns" ++ allow_present m ¶"payload_inline" ++
                 allow_present m ¶"payload_key");;
  payload_inline ← job_inline m;
  payload_key ← job_key m;
  if Bool.eqb (bool_decide (is_Some payload_inline)) (bool_decide (is_Some payload_key))
  then Err (RField "payload inline xor key")
  else
    job_id ← get_bytes 16 m ¶"job_id";
    maximum_attempts ← get_u64 m ¶"maximum_attempts";
    content_type ← get_text m ¶"content_type";
    created ← get_u64 m ¶"created_store_time_ns";
    not_before ← get_opt_u64 m ¶"not_before_ns";
    digest ← get_bytes 32 m ¶"payload_digest";
    length ← get_u64 m ¶"payload_length";
    Ok (RecJob {| j_job_id := job_id; j_maximum_attempts := maximum_attempts;
                  j_content_type := content_type; j_created_store_time_ns := created;
                  j_not_before_ns := not_before; j_payload_digest := digest;
                  j_payload_length := length; j_payload_inline := payload_inline;
                  j_payload_key := payload_key |}).

Definition basis_from (bm : fields_map) : Result RecordError ClaimBasis :=
  expect_keys bm [¶"prev_store_time_ns"; ¶"prev_duration_ns"; ¶"observed_watermark_ns"];;
  time ← get_u64 bm ¶"prev_store_time_ns";
  duration ← get_u64 bm ¶"prev_duration_ns";
  watermark ← get_u64 bm ¶"observed_watermark_ns";
  Ok {| prev_store_time_ns := time; prev_duration_ns := duration;
        observed_watermark_ns := watermark |}.

Definition claim_basis (m : fields_map) : Result RecordError (option ClaimBasis) :=
  match find_key ¶"basis" m with
  | Some (Cbor.VMap bm) => b ← basis_from bm; Ok (Some b)
  | Some _ => Err (RField "basis")
  | None => Ok None
  end.

Definition claim_prev_token (m : fields_map) : Result RecordError (option bytes) :=
  match find_key ¶"prev_token" m with
  | Some (Cbor.VBytes b) =>
      if Cbor.len64 b =? 16 then Ok (Some b) else Err (RField "byte width")
  | Some _ => Err (RField "prev_token")
  | None => Ok None
  end.

Definition claim_from (m : fields_map) : Result RecordError Record_ :=
  expect_keys m [¶"job_id"; ¶"generation"; ¶"attempt"; ¶"worker_id"; ¶"worker_token";
                 ¶"lease_duration_ns"; ¶"continuation"; ¶"basis"; ¶"prev_token"];;
  continuation ← get_bool m ¶"continuation";
  basis ← claim_basis m;
  prev_token ← claim_prev_token m;
  if Bool.eqb continuation (bool_decide (is_Some basis))
     || negb (Bool.eqb continuation (bool_decide (is_Some prev_token)))
     || Bool.eqb (bool_decide (is_Some basis)) (bool_decide (is_Some prev_token))
  then Err (RField "basis xor prev_token")
  else
    job_id ← get_bytes 16 m ¶"job_id";
    generation ← get_u64 m ¶"generation";
    attempt ← get_u64 m ¶"attempt";
    worker_id ← get_text m ¶"worker_id";
    worker_token ← get_bytes 16 m ¶"worker_token";
    lease ← get_u64 m ¶"lease_duration_ns";
    Ok (RecClaim {| c_job_id := job_id; c_generation := generation; c_attempt := attempt;
                    c_worker_id := worker_id; c_worker_token := worker_token;
                    c_lease_duration_ns := lease; c_continuation := continuation;
                    c_basis := basis; c_prev_token := prev_token |}).

Definition fail_from (m : fields_map) : Result RecordError Record_ :=
  expect_keys m [¶"job_id"; ¶"generation"; ¶"reason"; ¶"attempt"; ¶"retry_not_before_ns"];;
  job_id ← get_bytes 16 m ¶"job_id";
  generation ← get_u64 m ¶"generation";
  reason ← get_u64 m ¶"reason";
  attempt ← get_u64 m ¶"attempt";
  retry ← get_u64 m ¶"retry_not_before_ns";
  Ok (RecFail {| f_job_id := job_id; f_generation := generation; f_reason := reason;
                 f_attempt := attempt; f_retry_not_before_ns := retry |}).

(** The items of [output_digests]: 32-byte strings. *)
Fixpoint digest_items (items : list Value) : Result RecordError (list bytes) :=
  match items with
  | [] => Ok []
  | Cbor.VBytes b :: items =>
      if Cbor.len64 b =? 32 then l ← digest_items items; Ok (b :: l)
      else Err (RField "output_digests")
  | _ :: _ => Err (RField "output_digests")
  end.

Definition receipt_outputs (m : fields_map) : Result RecordError (list bytes) :=
  match find_key ¶"output_digests" m with
  | Some (Cbor.VArray items) =>
      if bool_decide (length items = 0%nat) then Err (RField "output_digests")
      else digest_items items
  | Some _ => Err (RField "output_digests")
  | None => Ok []
  end.

Definition receipt_from (m : fields_map) : Result RecordError Record_ :=
  expect_keys m [¶"job_id"; ¶"generation"; ¶"attempt"; ¶"worker_id"; ¶"worker_token";
                 ¶"payload_digest"; ¶"output_digests"];;
  output_digests ← receipt_outputs m;
  job_id ← get_bytes 16 m ¶"job_id";
  generation ← get_u64 m ¶"generation";
  attempt ← get_u64 m ¶"attempt";
  worker_id ← get_text m ¶"worker_id";
  worker_token ← get_bytes 16 m ¶"worker_token";
  digest ← get_bytes 32 m ¶"payload_digest";
  Ok (RecReceipt {| r_job_id := job_id; r_generation := generation; r_attempt := attempt;
                    r_worker_id := worker_id; r_worker_token := worker_token;
                    r_payload_digest := digest; r_output_digests := output_digests |}).

Definition dead_from (m : fields_map) : Result RecordError Record_ :=
  expect_keys m [¶"job_id"; ¶"generation"; ¶"attempt"; ¶"reason"];;
  job_id ← get_bytes 16 m ¶"job_id";
  generation ← get_u64 m ¶"generation";
  attempt ← get_u64 m ¶"attempt";
  reason ← get_u64 m ¶"reason";
  Ok (RecDead {| d_job_id := job_id; d_generation := generation; d_attempt := attempt;
                 d_reason := reason |}).

Definition watermark_from (m : fields_map) : Result RecordError Record_ :=
  expect_keys m [¶"highest_observed_wall_bucket"; ¶"sequence"];;
  highest ← get_u64 m ¶"highest_observed_wall_bucket";
  sequence ← get_u64 m ¶"sequence";
  Ok (RecWatermark {| highest_observed_wall_bucket := highest; w_sequence := sequence |}).

Definition quarantine_detail (m : fields_map) : Result RecordError (option Z) :=
  match find_key ¶"detail" m with
  | Some (Cbor.VUint d) => Ok (Some d)
  | Some _ => Err (RField "detail")
  | None => Ok None
  end.

Definition quarantine_from (m : fields_map) : Result RecordError Record_ :=
  expect_keys m ([¶"qid"; ¶"source_key"; ¶"reason"; ¶"observed_store_ns"] ++
                 allow_present m ¶"detail");;
  detail ← quarantine_detail m;
  qid ← get_bytes 16 m ¶"qid";
  source_key ← get_text m ¶"source_key";
  reason ← get_u64 m ¶"reason";
  observed ← get_u64 m ¶"observed_store_ns";
  Ok (RecQuarantine {| q_qid := qid; q_source_key := source_key; q_reason := reason;
                       q_observed_store_ns := observed; q_detail := detail |}).

Definition from_fields (t : Z) (m : fields_map) : Result RecordError Record_ :=
  if t =? 1 then format_from m
  else if t =? 2 then job_from m
  else if t =? 3 then claim_from m
  else if t =? 4 then fail_from m
  else if t =? 5 then receipt_from m
  else if t =? 6 then dead_from m
  else if t =? 7 then watermark_from m
  else if t =? 8 then quarantine_from m
  else Err RType.

(* ------------------------------------------------------------------ *)
(** * Encoding and decoding through the tree *)

Definition envelope_value (record : Record_) (m : fields_map) (queue_id tag : bytes) : Value :=
  Cbor.VArray [Cbor.VUint MAGIC; Cbor.VUint MAJOR; Cbor.VUint MINOR; Cbor.VBytes queue_id;
               Cbor.VBytes tag; Cbor.VUint (type_number record); Cbor.VMap m].

(** The seven items of the envelope array, each of its kind. *)
Definition envelope_parts (v : Value) : option (Z * Z * Z * bytes * bytes * Z * fields_map) :=
  match v with
  | Cbor.VArray
      [Cbor.VUint magic; Cbor.VUint major; Cbor.VUint minor; Cbor.VBytes qid;
       Cbor.VBytes tg; Cbor.VUint rtype; Cbor.VMap m] =>
      Some (magic, major, minor, qid, tg, rtype, m)
  | _ => None
  end.

Section Hash.
Context `{Sha256}.

Definition value_encode (record : Record_) (queue_id tag : bytes) : bytes :=
  let body_bytes := Cbor.encode (envelope_value record (fields record) queue_id tag) in
  let digest := record_digest (default [] (type_name (type_number record))) body_bytes in
  body_bytes ++ [byte_of 0x58] ++ [byte_of 32] ++ digest.

Definition value_decode (data queue_id tag : bytes) : Result RecordError Record_ :=
  if Cbor.len64 data <? 34 then Err REnvelope
  else
    let body := take (length data - 34) data in
    let tail := drop (length data - 34) data in
    if negb (bytes_eqb (take 1 tail) [byte_of 0x58])
       || negb (bytes_eqb (take 1 (drop 1 tail)) [byte_of 32])
    then Err REnvelope
    else
      body_value ← map_err RCbor (Cbor.decode body);
      '(magic, major, minor, qid, tg, rtype, m) ← ok_or (envelope_parts body_value) REnvelope;
      if negb (magic =? MAGIC) then Err RMagic
      else if negb (major =? MAJOR) || negb (minor =? MINOR) then Err (RVersion major minor)
      else
        type_str ← ok_or (type_name rtype) RType;
        if negb (bytes_eqb (record_digest type_str body) (drop 2 tail)) then Err RDigest
        else if negb (bytes_eqb qid queue_id) || negb (bytes_eqb tg tag)
        then Err (RField "queue binding")
        else from_fields rtype m.
End Hash.

(** The crate's test of a wide shard count: rejected on the wire value by
    both decoders, never truncated first. *)
Definition shard_count_bytes (v : Z) : bytes :=
  let body := Cbor.encode (Cbor.VArray
    [Cbor.VUint MAGIC; Cbor.VUint MAJOR; Cbor.VUint MINOR; Cbor.VBytes vector_queue;
     Cbor.VBytes vector_tag; Cbor.VUint 1;
     Cbor.VMap (kv_u64 ¶"shard_count" v ++ kv_u64 ¶"inline_limit" 1 ++
       kv_u64 ¶"lease_bucket_width_ns" 1 ++ kv_u64 ¶"required_feature_bits" 0 ++
       kv_u64 ¶"delayed_bucket_width_ns" 1 ++ kv_u64 ¶"terminal_bucket_width_ns" 1)]) in
  body ++ [byte_of 0x58; byte_of 32] ++ @record_digest fips ¶"format" body.

Example huge_shard_count_rejects_not_truncates :
  forallb (fun v =>
    bool_decide (@decode_record fips (shard_count_bytes v) vector_queue vector_tag
                 = Err (RField "shard_count")) &&
    bool_decide (@value_decode fips (shard_count_bytes v) vector_queue vector_tag
                 = Err (RField "shard_count"))) [0x100000000; 0x100010000; 0x200000004] = true.
Proof. vm_compute. reflexivity. Qed.

(* ------------------------------------------------------------------ *)
(** * The tree in wire order *)

(** The tree a record decodes from: its fields in the order of their encoded
    keys.  [basis] is the value standing for the nested map of a claim. *)
Definition canonical_basis (b : ClaimBasis) : Value :=
  Cbor.VMap (kv_u64 ¶"prev_duration_ns" (prev_duration_ns b) ++
             kv_u64 ¶"prev_store_time_ns" (prev_store_time_ns b) ++
             kv_u64 ¶"observed_watermark_ns" (observed_watermark_ns b)).

Definition outputs_value (outs : list bytes) : Value := Cbor.VArray (map Cbor.VBytes outs).

Definition canonical_fields (basis : ClaimBasis -> Value) (record : Record_) : fields_map :=
  match record with
  | RecFormat r =>
      kv_u64 ¶"shard_count" (shard_count r) ++
      kv_u64 ¶"inline_limit" (inline_limit r) ++
      kv_u64 ¶"lease_bucket_width_ns" (lease_bucket_width_ns r) ++
      kv_u64 ¶"required_feature_bits" (required_feature_bits r) ++
      kv_u64 ¶"delayed_bucket_width_ns" (delayed_bucket_width_ns r) ++
      kv_u64 ¶"terminal_bucket_width_ns" (terminal_bucket_width_ns r)
  | RecJob r =>
      kv_bytes ¶"job_id" (j_job_id r) ++
      kv_opt (kv_text ¶"payload_key") (j_payload_key r) ++
      kv_text ¶"content_type" (j_content_type r) ++
      kv_opt (kv_u64 ¶"not_before_ns") (j_not_before_ns r) ++
      kv_bytes ¶"payload_digest" (j_payload_digest r) ++
      kv_opt (kv_bytes ¶"payload_inline") (j_payload_inline r) ++
      kv_u64 ¶"payload_length" (j_payload_length r) ++
      kv_u64 ¶"maximum_attempts" (j_maximum_attempts r) ++
      kv_u64 ¶"created_store_time_ns" (j_created_store_time_ns r)
  | RecClaim r =>
      kv_opt (fun b => [(Cbor.VText ¶"basis", basis b)]) (c_basis r) ++
      kv_bytes ¶"job_id" (c_job_id r) ++
      kv_u64 ¶"attempt" (c_attempt r) ++
      kv_text ¶"worker_id" (c_worker_id r) ++
      kv_u64 ¶"generation" (c_generation r) ++
      kv_opt (kv_bytes ¶"prev_token") (c_prev_token r) ++
      kv_bool ¶"continuation" (c_continuation r) ++
      kv_bytes ¶"worker_token" (c_worker_token r) ++
      kv_u64 ¶"lease_duration_ns" (c_lease_duration_ns r)
  | RecFail r =>
      kv_bytes ¶"job_id" (f_job_id r) ++
      kv_u64 ¶"reason" (f_reason r) ++
      kv_u64 ¶"attempt" (f_attempt r) ++
      kv_u64 ¶"generation" (f_generation r) ++
      kv_u64 ¶"retry_not_before_ns" (f_retry_not_before_ns r)
  | RecReceipt r =>
      kv_bytes ¶"job_id" (r_job_id r) ++
      kv_u64 ¶"attempt" (r_attempt r) ++
      kv_text ¶"worker_id" (r_worker_id r) ++
      kv_u64 ¶"generation" (r_generation r) ++
      kv_bytes ¶"worker_token" (r_worker_token r) ++
      (if negb (bool_decide (r_output_digests r = [])) then
         [(Cbor.VText ¶"output_digests", outputs_value (r_output_digests r))]
       else []) ++
      kv_bytes ¶"payload_digest" (r_payload_digest r)
  | RecDead r =>
      kv_bytes ¶"job_id" (d_job_id r) ++
      kv_u64 ¶"reason" (d_reason r) ++
      kv_u64 ¶"attempt" (d_attempt r) ++
      kv_u64 ¶"generation" (d_generation r)
  | RecWatermark r =>
      kv_u64 ¶"sequence" (w_sequence r) ++
      kv_u64 ¶"highest_observed_wall_bucket" (highest_observed_wall_bucket r)
  | RecQuarantine r =>
      kv_bytes ¶"qid" (q_qid r) ++
      kv_opt (kv_u64 ¶"detail") (q_detail r) ++
      kv_u64 ¶"reason" (q_reason r) ++
      kv_text ¶"source_key" (q_source_key r) ++
      kv_u64 ¶"observed_store_ns" (q_observed_store_ns r)
  end.

(** Takes a record apart, and its optional fields with it. *)
#[local] Ltac projections :=
  cbn [record_wf record_valid fields canonical_fields write_fields shard_count
    lease_bucket_width_ns delayed_bucket_width_ns terminal_bucket_width_ns inline_limit
    required_feature_bits
    j_job_id j_maximum_attempts j_content_type j_created_store_time_ns j_not_before_ns
    j_payload_digest j_payload_length j_payload_inline j_payload_key
    prev_store_time_ns prev_duration_ns observed_watermark_ns
    c_job_id c_generation c_attempt c_worker_id c_worker_token c_lease_duration_ns
    c_continuation c_basis c_prev_token
    f_job_id f_generation f_reason f_attempt f_retry_not_before_ns
    r_job_id r_generation r_attempt r_worker_id r_worker_token r_payload_digest r_output_digests
    d_job_id d_generation d_attempt d_reason
    q_qid q_source_key q_reason q_observed_store_ns q_detail
    highest_observed_wall_bucket w_sequence] in *.
#[local] Ltac open_options := repeat match goal with o : option _ |- _ => destruct o end.
#[local] Ltac open_record r :=
  destruct r; projections; open_options;
  try match goal with |- context [bool_decide (?l = [])] =>
    is_var l; destruct l as [|? l]; cbn [bool_decide decide list_eq_nil_dec negb] end.

#[local] Ltac kvs :=
  unfold kv_u64, kv_bytes, kv_text, kv_bool; cbn [app kv_opt negb some_z opt_bytes b2z].

Definition encode_both (p : Value * Value) : bytes * bytes := (Cbor.encode p.1, Cbor.encode p.2).

(** A map encodes in the order of its sorted keys. *)
Lemma encode_map_to m m' :
  Cbor.sort_by_key (map encode_both m) = map encode_both m' ->
  Cbor.encode (Cbor.VMap m) = Cbor.push_head 5 (Cbor.len64 m') ++ concat (map Cbor.encode_pair m').
Proof.
  intros H. cbn [Cbor.encode].
  rewrite (map_ext (fun '(k, v) => _) encode_both) by (by intros []).
  rewrite H. unfold Cbor.len64. rewrite length_map. f_equal. f_equal.
  rewrite map_map. by apply map_ext.
Qed.

(** Sorting by concrete keys evaluates, whatever the values encode to. *)
#[local] Ltac sort_keys :=
  unfold encode_both; cbn [map fst snd];
  repeat match goal with |- context [(_, Cbor.encode ?v)] => generalize (Cbor.encode v); intro end;
  vm_compute; reflexivity.

Lemma fields_sort r :
  Cbor.sort_by_key (map encode_both (fields r)) =
  map encode_both (canonical_fields (fun b => Cbor.VMap (basis_fields b)) r).
Proof.
  destruct r as [r|r|r|r|r|r|r|r]; open_record r; kvs;
    repeat match goal with
      | |- context [Cbor.VMap ?m] => generalize (Cbor.VMap m); intro
      | |- context [outputs_value ?l] => change (outputs_value l) with (Cbor.VArray (map Cbor.VBytes l))
      | |- context [Cbor.VArray ?m] => generalize (Cbor.VArray m); intro end;
    sort_keys.
Qed.

#[local] Ltac same_bytes :=
  unfold put_key, put_key_bytes, put_key_text, put_key_bool, put_text, put_bytes, Cbor.encode_pair;
  cbn [map concat fst snd Cbor.encode]; rewrite <- ?app_assoc, ?app_nil_r; try reflexivity.

Lemma encode_basis b :
  Cbor.encode (Cbor.VMap (basis_fields b)) = write_basis b /\
  Cbor.encode (canonical_basis b) = write_basis b.
Proof.
  unfold canonical_basis, basis_fields, write_basis, put_key, put_text. destruct b as [a b c].
  cbn [prev_store_time_ns prev_duration_ns observed_watermark_ns]. kvs.
  set (m := [(Cbor.VText ¶"prev_duration_ns", Cbor.VUint b);
             (Cbor.VText ¶"prev_store_time_ns", Cbor.VUint a);
             (Cbor.VText ¶"observed_watermark_ns", Cbor.VUint c)]).
  split; (rewrite (encode_map_to _ m) by (subst m; sort_keys)); subst m; same_bytes.
Qed.

Lemma encode_outputs outs :
  Cbor.encode (outputs_value outs) =
  Cbor.push_head 4 (Cbor.len64 outs) ++ concat (map put_bytes outs).
Proof.
  unfold outputs_value. cbn [Cbor.encode]. unfold Cbor.len64. rewrite length_map, map_map.
  done.
Qed.

(** Whatever value stands for the basis, if it encodes as the direct writer's
    basis does, the map encodes as the direct writer's fields do. *)
Lemma write_canonical basis r :
  (forall b, Cbor.encode (basis b) = write_basis b) ->
  Cbor.push_head 5 (Cbor.len64 (canonical_fields basis r)) ++
    concat (map Cbor.encode_pair (canonical_fields basis r)) = write_fields r.
Proof.
  intros Hb. destruct r as [r|r|r|r|r|r|r|r]; open_record r;
    try match goal with b : bool |- _ => destruct b end;
    kvs; same_bytes.
  all: rewrite ?Hb, ?encode_outputs; unfold put_bytes; cbn [map concat]; rewrite <- ?app_assoc;
    reflexivity.
Qed.

(** The tree's map and the direct writer's bytes. *)
Lemma encode_fields r : Cbor.encode (Cbor.VMap (fields r)) = write_fields r.
Proof.
  rewrite (encode_map_to _ _ (fields_sort r)). apply write_canonical.
  intros b. apply encode_basis.
Qed.

Lemma encode_envelope r m q tag :
  Cbor.encode (Cbor.VMap m) = write_fields r ->
  Cbor.encode (envelope_value r m q tag) = encode_body r q tag.
Proof.
  intros H. unfold envelope_value, encode_body, put_bytes. cbn [Cbor.encode map concat].
  cbn [Cbor.encode] in H. rewrite H, app_nil_r, <- !app_assoc. reflexivity.
Qed.

(* ------------------------------------------------------------------ *)
(** * Reading the tree back *)

(** Each getter on a map that holds the field. *)
#[local] Ltac at_key :=
  intros Hk; match goal with |- ?f _ _ = _ => unfold f | |- ?f _ _ _ = _ => unfold f end;
  rewrite Hk; try done.
Lemma get_u64_at m k n : find_key k m = Some (Cbor.VUint n) -> get_u64 m k = Ok n.
Proof. at_key. Qed.
Lemma get_text_at m k t : find_key k m = Some (Cbor.VText t) -> get_text m k = Ok t.
Proof. at_key. Qed.
Lemma get_bool_at m k b : find_key k m = Some (Cbor.VBool b) -> get_bool m k = Ok b.
Proof. at_key. Qed.
Lemma get_bytes_at (n : nat) m k b :
  find_key k m = Some (Cbor.VBytes b) -> length b = n -> get_bytes (Z.of_nat n) m k = Ok b.
Proof.
  intros Hk <-. unfold get_bytes. rewrite Hk. unfold Cbor.len64. by rewrite Z.eqb_refl.
Qed.

Lemma get_id_at m k b :
  find_key k m = Some (Cbor.VBytes b) -> length b = 16%nat -> get_bytes 16 m k = Ok b.
Proof. exact (get_bytes_at 16 m k b). Qed.
Lemma get_digest_at m k b :
  find_key k m = Some (Cbor.VBytes b) -> length b = 32%nat -> get_bytes 32 m k = Ok b.
Proof. exact (get_bytes_at 32 m k b). Qed.

(** ... and what a getter that succeeds found. *)
Lemma get_u64_inv m k n : get_u64 m k = Ok n -> find_key k m = Some (Cbor.VUint n).
Proof. unfold get_u64. repeat case_match; try done. by intros [= ->]. Qed.
Lemma get_text_inv m k t : get_text m k = Ok t -> find_key k m = Some (Cbor.VText t).
Proof. unfold get_text. repeat case_match; try done. by intros [= ->]. Qed.
Lemma get_bool_inv m k b : get_bool m k = Ok b -> find_key k m = Some (Cbor.VBool b).
Proof. unfold get_bool. repeat case_match; try done. by intros [= ->]. Qed.
Lemma get_bytes_inv (n : nat) m k b :
  get_bytes (Z.of_nat n) m k = Ok b -> find_key k m = Some (Cbor.VBytes b) /\ length b = n.
Proof.
  unfold get_bytes. repeat case_match; try done. intros [= ->]. zbool. unfold Cbor.len64 in *.
  split; [done|lia].
Qed.
Lemma get_opt_u64_inv m k o : get_opt_u64 m k = Ok o -> find_key k m = Cbor.VUint <$> o.
Proof. unfold get_opt_u64. repeat case_match; try done; by intros [= <-]. Qed.

Lemma digest_items_map outs :
  Forall is_digest outs -> digest_items (map Cbor.VBytes outs) = Ok outs.
Proof.
  induction 1 as [|b outs Hb _ IH]; [done|]. cbn [map digest_items].
  unfold is_digest in Hb. rewrite (proj2 (Z.eqb_eq (Cbor.len64 b) 32)) by (unfold Cbor.len64; lia).
  by rewrite IH.
Qed.

Lemma digest_items_inv items outs :
  digest_items items = Ok outs -> items = map Cbor.VBytes outs /\ Forall is_digest outs.
Proof.
  revert outs. induction items as [|v items IH]; intros outs; cbn [digest_items].
  { intros [= <-]. by split; [|constructor]. }
  destruct v; try done. destruct (Z.eqb_spec (Cbor.len64 b) 32) as [E|]; [|done].
  intros (l & Hl & [= <-])%result_bind_ok. apply IH in Hl as [-> HF].
  split; [done|]. constructor; [|done]. unfold is_digest, Cbor.len64 in *. lia.
Qed.

Lemma outputs_at m outs :
  find_key ¶"output_digests" m = Some (outputs_value outs) ->
  Forall is_digest outs -> outs <> [] -> receipt_outputs m = Ok outs.
Proof.
  intros Hk HF Hne. unfold receipt_outputs. rewrite Hk. unfold outputs_value.
  rewrite bool_decide_eq_false_2; [by apply digest_items_map|].
  rewrite length_map. by destruct outs.
Qed.

Lemma prev_token_at m t :
  find_key ¶"prev_token" m = Some (Cbor.VBytes t) -> length t = 16%nat ->
  claim_prev_token m = Ok (Some t).
Proof.
  intros Hk Hl. unfold claim_prev_token. rewrite Hk.
  by rewrite (proj2 (Z.eqb_eq (Cbor.len64 t) 16)) by (unfold Cbor.len64; lia).
Qed.

#[local] Ltac evaluate e :=
  let v := eval vm_compute in e in replace e with v by (vm_compute; reflexivity).
#[local] Ltac lookups :=
  repeat (first
    [ match goal with
      | |- context [expect_keys ?m ?l] =>
          replace (expect_keys m l) with (@Ok RecordError unit tt) by (vm_compute; reflexivity)
      | |- context [get_opt_u64 ?m ?k] => evaluate (get_opt_u64 m k)
      | |- context [job_inline ?m] => evaluate (job_inline m)
      | |- context [job_key ?m] => evaluate (job_key m)
      | |- context [quarantine_detail ?m] => evaluate (quarantine_detail m)
      | |- context [claim_basis ?m] => evaluate (claim_basis m)
      | |- context [claim_prev_token ?m] => let t := open_constr:(_ : bytes) in
          first [rewrite (prev_token_at m t) by (assumption || (vm_compute; reflexivity))
                |evaluate (claim_prev_token m)]
      | |- context [receipt_outputs ?m] =>
          match m with
          | context [outputs_value ?l] =>
              rewrite (outputs_at m l) by (assumption || done || (vm_compute; reflexivity))
          | _ => evaluate (receipt_outputs m)
          end
      | |- context [get_u64 ?m ?k] => let n := open_constr:(_ : Z) in
          rewrite (get_u64_at m k n) by (vm_compute; reflexivity)
      | |- context [get_text ?m ?k] => let n := open_constr:(_ : bytes) in
          rewrite (get_text_at m k n) by (vm_compute; reflexivity)
      | |- context [get_bool ?m ?k] => let n := open_constr:(_ : bool) in
          rewrite (get_bool_at m k n) by (vm_compute; reflexivity)
      | |- context [get_bytes 16 ?m ?k] => let n := open_constr:(_ : bytes) in
          rewrite (get_id_at m k n) by (assumption || (vm_compute; reflexivity))
      | |- context [get_bytes 32 ?m ?k] => let n := open_constr:(_ : bytes) in
          rewrite (get_digest_at m k n) by (assumption || (vm_compute; reflexivity))
      end ]; cbn [mbind result_bind]).

#[local] Ltac from_record :=
  kvs; unfold is_id, is_digest, is_text in *; destruct_and?;
  unfold format_from, job_from, claim_from, fail_from, receipt_from, dead_from, watermark_from,
    quarantine_from; lookups; cbn [bool_decide decide is_Some_dec Bool.eqb negb orb].

(** The shapes [record_valid] leaves to jobs and claims. *)
Lemma valid_job r : record_valid (RecJob r) ->
  (exists b, j_payload_inline r = Some b /\ j_payload_key r = None) \/
  (exists k, j_payload_inline r = None /\ j_payload_key r = Some k).
Proof.
  cbn. intros [H1 H2]. destruct (j_payload_inline r) as [b|]; [left; exists b; eauto|right].
  destruct (j_payload_key r) as [k|]; [by exists k|]. by apply is_Some_None in H2.
Qed.

Lemma valid_claim r : record_valid (RecClaim r) ->
  (exists t, c_continuation r = true /\ c_basis r = None /\ c_prev_token r = Some t) \/
  (exists b, c_continuation r = false /\ c_basis r = Some b /\ c_prev_token r = None).
Proof.
  cbn. intros [H1 H2]. destruct (c_continuation r).
  - left. destruct (H1 eq_refl) as [? [t ?]]. by exists t.
  - right. destruct (H2 eq_refl) as [[b ?] ?]. by exists b.
Qed.

Lemma from_canonical r :
  record_wf r -> record_valid r ->
  from_fields (type_number r) (canonical_fields canonical_basis r) = Ok r.
Proof.
  destruct r as [r|r|r|r|r|r|r|r]; intros Hw Hv; cbn [type_number]; unfold from_fields;
    cbn [Z.eqb Pos.eqb].
  - open_record r. from_record.
    destruct (Z.ltb_spec 65536 shard_count); [lia|]. lookups.
    rewrite Z.mod_small by (unfold is_u32 in *; lia). done.
  - apply valid_job in Hv as [(b & E1 & E2)|(k & E1 & E2)]; destruct r; projections; subst;
      open_options; from_record; lookups; done.
  - apply valid_claim in Hv as [(t & E0 & E1 & E2)|(b & E0 & E1 & E2)]; destruct r; projections; subst.
    + assert (length t = 16%nat) by (destruct_and?;
        match goal with H : forall t, Some _ = Some t -> is_id t |- _ => exact (H _ eq_refl) end).
      from_record. lookups. done.
    + unfold canonical_basis. destruct b. projections. from_record. lookups. done.
  - open_record r; from_record; done.
  - open_record r.
    + from_record. done.
    + from_record. done.
  - open_record r; from_record; done.
  - open_record r; from_record; done.
  - open_record r; from_record; done.
Qed.

(* ------------------------------------------------------------------ *)
(** * A sorted map is determined by its lookups *)

(** The fields of [m] that [T] names, in the order of [T]. *)
Fixpoint canon (T : list bytes) (m : fields_map) : fields_map :=
  match T with
  | [] => []
  | k :: T => match find_key k m with Some v => [(Cbor.VText k, v)] | None => [] end ++ canon T m
  end.

Definition text_sorted (T : list bytes) : Prop :=
  StronglySorted bytes_lt (map (fun k => Cbor.encode (Cbor.VText k)) T).
Definition keys_sorted (m : fields_map) : Prop :=
  StronglySorted bytes_lt (map (fun p : Value * Value => Cbor.encode p.1) m).
Definition keys_in (T : list bytes) (m : fields_map) : Prop :=
  Forall (fun p : Value * Value => exists t, p.1 = Cbor.VText t /\ t ∈ T) m.

Lemma is_key_text k t : is_key k (Cbor.VText t) = true <-> t = k.
Proof. unfold is_key, bytes_eqb. by rewrite bool_decide_eq_true. Qed.

Lemma find_key_absent k m :
  Forall (fun p : Value * Value => p.1 <> Cbor.VText k) m -> find_key k m = None.
Proof.
  induction 1 as [|[x v] m Hx _ IH]; [done|]. cbn [find_key].
  destruct (is_key k x) eqn:E; [|done]. destruct x; try done. apply is_key_text in E as ->. done.
Qed.

Lemma find_key_in k m v : find_key k m = Some v -> (Cbor.VText k, v) ∈ m.
Proof.
  induction m as [|[x w] m IH]; [done|]. cbn [find_key].
  destruct (is_key k x) eqn:E.
  - destruct x; try done. apply is_key_text in E as ->. intros [= ->]. constructor.
  - intros H. right. by apply IH.
Qed.

Lemma canon_skip k v m T : k ∉ T -> canon T ((Cbor.VText k, v) :: m) = canon T m.
Proof.
  induction T as [|x T IH]; intros Hk; [done|]. apply not_elem_of_cons in Hk as [Hx Hk].
  cbn [canon find_key]. rewrite IH by done.
  destruct (is_key x (Cbor.VText k)) eqn:E; [|done]. by apply is_key_text in E.
Qed.

Lemma sorted_above m k :
  Forall (fun p : Value * Value => bytes_lt (Cbor.encode (Cbor.VText k)) (Cbor.encode p.1)) m ->
  Forall (fun p : Value * Value => p.1 <> Cbor.VText k) m.
Proof.
  intros H. eapply Forall_impl; [exact H|]. intros [x v] Hlt Hx. cbn in Hlt, Hx. rewrite Hx in Hlt.
  by apply bytes_lt_irrefl in Hlt.
Qed.

Lemma keys_in_tail k T m :
  Forall (fun p : Value * Value => p.1 <> Cbor.VText k) m -> keys_in (k :: T) m -> keys_in T m.
Proof.
  intros Hne Hin. unfold keys_in in *. rewrite Forall_forall in *. intros p Hp.
  destruct (Hin p Hp) as (t & Ht & Hk). exists t. split; [done|].
  apply elem_of_cons in Hk as [->|]; [|done]. by destruct (Hne p Hp).
Qed.

Lemma canon_sorted T m : text_sorted T -> keys_sorted m -> keys_in T m -> canon T m = m.
Proof.
  revert m. induction T as [|k T IH]; intros m HT Hm Hin.
  { destruct m as [|p m]; [done|]. inversion Hin as [|? ? (? & _ & H%not_elem_of_nil)]; done. }
  inversion HT as [|? ? HT' HkT]; subst.
  assert (k ∉ T) as HkT'.
  { intros Hk. rewrite Forall_map, Forall_forall in HkT. by apply (bytes_lt_irrefl _ (HkT k Hk)). }
  assert (forall m, keys_in T m ->
    Forall (fun p : Value * Value =>
      bytes_lt (Cbor.encode (Cbor.VText k)) (Cbor.encode p.1)) m) as Habove.
  { intros m' Hm'. eapply Forall_impl; [exact Hm'|]. intros [x v] (t & Hx & Ht).
    cbn in Hx |- *. subst x. rewrite Forall_map, Forall_forall in HkT. exact (HkT t Ht). }
  destruct m as [|[x v] m].
  { cbn [canon find_key app]. apply IH; [done|constructor|constructor]. }
  inversion Hm as [|? ? Hm' Hxm]; subst. inversion Hin as [|? ? (t & Hx & Ht) Hin']; subst.
  cbn in Hx. subst x. rewrite Forall_map in Hxm. cbn [fst] in Hxm.
  destruct (decide (t = k)) as [->|Hne].
  - cbn [canon find_key]. rewrite (proj2 (is_key_text k k)) by done.
    rewrite canon_skip by done. cbn [app]. f_equal. apply IH; [done..|].
    apply (keys_in_tail k); [|done]. by apply sorted_above.
  - apply elem_of_cons in Ht as [|Ht]; [done|].
    assert (Forall (fun p : Value * Value => p.1 <> Cbor.VText k) ((Cbor.VText t, v) :: m)) as Hk.
    { apply sorted_above. constructor.
      - rewrite Forall_map, Forall_forall in HkT. exact (HkT t Ht).
      - eapply Forall_impl; [exact Hxm|]. intros p Hp. eapply bytes_lt_trans; [|exact Hp].
        rewrite Forall_map, Forall_forall in HkT. exact (HkT t Ht). }
    cbn [canon]. rewrite find_key_absent by done. apply IH; [done..|]. by apply (keys_in_tail k).
Qed.

Lemma expect_keys_in m allowed T :
  expect_keys m allowed = Ok tt -> (forall k, k ∈ allowed -> k ∈ T) -> keys_in T m.
Proof.
  intros H HT. unfold keys_in. induction m as [|[x v] m IH]; [constructor|].
  cbn [expect_keys] in H. destruct x; try done. case_bool_decide as Ht; [|done].
  constructor; [|by apply IH]. eexists. split; [done|]. by apply HT.
Qed.

(** What [expect_keys] and the order of a decoded map leave: the fields of
    the table, in its order. *)
Lemma canon_expected m allowed T :
  expect_keys m allowed = Ok tt -> (forall k, k ∈ allowed -> k ∈ T) ->
  text_sorted T -> keys_sorted m -> canon T m = m.
Proof. intros. apply canon_sorted; [done..|]. by eapply expect_keys_in. Qed.

Lemma all_allowed (allowed T : list bytes) :
  forallb (fun k => bool_decide (k ∈ T)) allowed = true -> forall k, k ∈ allowed -> k ∈ T.
Proof.
  rewrite forallb_forall. intros H k Hk. eapply bool_decide_eq_true_1, H. by apply list_elem_of_In.
Qed.

Lemma allow_present_elem m key k : k ∈ allow_present m key -> k = key.
Proof.
  unfold allow_present. case_match; [by intros ?%list_elem_of_singleton|by intros ?%not_elem_of_nil].
Qed.

(** The key tables of the direct decoder are in wire order. *)
Lemma table_sorted T :
  Cbor.check_keys None (map (fun k => (Cbor.VText k, Cbor.VUint 0)) T) = Ok tt -> text_sorted T.
Proof.
  intros [H _]%Cbor.check_keys_inv. rewrite map_map in H. exact H.
Qed.

(* ------------------------------------------------------------------ *)
(** * What the tree decoder accepts *)

Definition map_wf (d : nat) (m : fields_map) : Prop :=
  Forall (fun p : Value * Value => Cbor.wf d p.1 /\ Cbor.wf d p.2) m /\ keys_sorted m.

Lemma map_wf_find d m k v : map_wf d m -> find_key k m = Some v -> Cbor.wf d v.
Proof. intros [H _] Hk%find_key_in. rewrite Forall_forall in H. exact (proj2 (H _ Hk)). Qed.

Lemma map_wf_nested d m k bm :
  map_wf (S d) m -> find_key k m = Some (Cbor.VMap bm) -> map_wf d bm.
Proof. intros Hm Hk. apply (map_wf_find _ _ _ _ Hm) in Hk. cbn in Hk. by destruct Hk as (_ & ? & ?). Qed.

Lemma map_wf_u64 d m k n : map_wf (S d) m -> find_key k m = Some (Cbor.VUint n) -> is_u64 n.
Proof. intros Hm Hk. exact (map_wf_find _ _ _ _ Hm Hk). Qed.
Lemma map_wf_text d m k t : map_wf (S d) m -> find_key k m = Some (Cbor.VText t) -> is_text t.
Proof. intros Hm Hk. apply (map_wf_find _ _ _ _ Hm) in Hk. destruct Hk as [? ?]. by split. Qed.
Lemma map_wf_bytes d m k b :
  map_wf (S d) m -> find_key k m = Some (Cbor.VBytes b) -> is_u64 (Cbor.len64 b).
Proof. intros Hm Hk. exact (map_wf_find _ _ _ _ Hm Hk). Qed.
Lemma map_wf_array d m k items :
  map_wf (S d) m -> find_key k m = Some (Cbor.VArray items) -> is_u64 (Cbor.len64 items).
Proof. intros Hm Hk. apply (map_wf_find _ _ _ _ Hm) in Hk. by destruct Hk. Qed.

Lemma basis_from_inv d bm b :
  map_wf (S d) bm -> basis_from bm = Ok b ->
  Cbor.VMap bm = canonical_basis b /\
  is_u64 (prev_store_time_ns b) /\ is_u64 (prev_duration_ns b) /\ is_u64 (observed_watermark_ns b).
Proof.
  unfold basis_from. intros Hw ([] & He & H)%result_bind_ok.
  apply result_bind_ok in H as (t & Ht%get_u64_inv & H).
  apply result_bind_ok in H as (u & Hu%get_u64_inv & H).
  apply result_bind_ok in H as (w & Hx%get_u64_inv & [= <-]). projections.
  split_and!; [|by eapply map_wf_u64..].
  unfold canonical_basis. projections. f_equal. kvs.
  rewrite <- (canon_expected bm _ BASIS_KEYS He) by
    (apply Hw || (apply table_sorted; vm_compute; reflexivity)
     || (apply all_allowed; vm_compute; reflexivity)).
  unfold BASIS_KEYS. cbn [canon]. by rewrite Ht, Hu, Hx.
Qed.

(** [m] is the tree of the record [r], of type [t]. *)
Definition tree_of (t : Z) (m : fields_map) (r : Record_) : Prop :=
  m = canonical_fields canonical_basis r /\ type_number r = t /\ record_wf r /\ record_valid r.

#[local] Ltac getters H :=
  repeat match type of H with
  | (get_u64 ?m ?k ≫= _) = _ => apply result_bind_ok in H; let Hk := fresh "Hk" in
      destruct H as (? & Hk & H); apply get_u64_inv in Hk
  | (get_opt_u64 ?m ?k ≫= _) = _ => apply result_bind_ok in H; let Hk := fresh "Hk" in
      destruct H as (? & Hk & H); apply get_opt_u64_inv in Hk
  | (get_text ?m ?k ≫= _) = _ => apply result_bind_ok in H; let Hk := fresh "Hk" in
      destruct H as (? & Hk & H); apply get_text_inv in Hk
  | (get_bool ?m ?k ≫= _) = _ => apply result_bind_ok in H; let Hk := fresh "Hk" in
      destruct H as (? & Hk & H); apply get_bool_inv in Hk
  | (get_bytes 16 ?m ?k ≫= _) = _ => apply result_bind_ok in H; let Hk := fresh "Hk" in
      destruct H as (? & Hk & H); apply (get_bytes_inv 16) in Hk as [Hk ?]
  | (get_bytes 32 ?m ?k ≫= _) = _ => apply result_bind_ok in H; let Hk := fresh "Hk" in
      destruct H as (? & Hk & H); apply (get_bytes_inv 32) in Hk as [Hk ?]
  | Ok _ = Ok _ => injection H as <-
  end.

(** The fields in table order, then each one by its lookup. *)
#[local] Ltac in_order He T :=
  match type of He with expect_keys ?m ?l = _ =>
    rewrite <- (canon_expected m l T He) by
      (assumption || (apply table_sorted; vm_compute; reflexivity)
       || (apply all_allowed; vm_compute; reflexivity)); unfold T end;
  cbn [canon];
  repeat match goal with Hk : find_key ?k ?m = _ |- context [find_key ?k ?m] => rewrite Hk end;
  try reflexivity.

(** Keys that a list of required and optional keys allows. *)
#[local] Ltac present :=
  let k := fresh "k" in let Hin := fresh "Hin" in intros k Hin;
  repeat (apply elem_of_app in Hin as [Hin|Hin]);
  first [ apply allow_present_elem in Hin as ->; apply (bool_decide_eq_true_1 _)
        | revert k Hin; apply all_allowed ]; vm_compute; reflexivity.

#[local] Ltac typed :=
  first [ assumption | by eapply map_wf_u64 | by eapply map_wf_text | lia | exact I ].

Lemma fail_from_inv d m r : map_wf (S d) m -> fail_from m = Ok r -> tree_of 4 m r.
Proof.
  unfold fail_from. intros Hw ([] & He & H)%result_bind_ok. destruct Hw as [HF Hs] eqn:Ew.
  getters H. unfold tree_of, canonical_fields, record_wf. projections. kvs.
  split_and!; try typed; [in_order He FAIL_KEYS|done].
Qed.

Lemma dead_from_inv d m r : map_wf (S d) m -> dead_from m = Ok r -> tree_of 6 m r.
Proof.
  unfold dead_from. intros Hw ([] & He & H)%result_bind_ok. destruct Hw as [HF Hs] eqn:Ew.
  getters H. unfold tree_of, canonical_fields, record_wf. projections. kvs.
  split_and!; try typed; [in_order He DEAD_KEYS|done].
Qed.

Lemma watermark_from_inv d m r : map_wf (S d) m -> watermark_from m = Ok r -> tree_of 7 m r.
Proof.
  unfold watermark_from. intros Hw ([] & He & H)%result_bind_ok. destruct Hw as [HF Hs] eqn:Ew.
  getters H. unfold tree_of, canonical_fields, record_wf. projections. kvs.
  split_and!; try typed; [in_order He WATERMARK_KEYS|done].
Qed.

Lemma format_from_inv d m r : map_wf (S d) m -> format_from m = Ok r -> tree_of 1 m r.
Proof.
  unfold format_from. intros Hw ([] & He & H)%result_bind_ok. destruct Hw as [HF Hs] eqn:Ew.
  getters H. destruct (Z.ltb_spec 65536 x); [done|]. getters H.
  assert (is_u64 x) as [Hx _] by typed.
  rewrite Z.mod_small by lia.
  unfold tree_of, canonical_fields, record_wf, record_valid. projections. kvs.
  split_and!; try typed; [in_order He FORMAT_KEYS|done|unfold is_u32; lia].
Qed.

Lemma quarantine_from_inv d m r : map_wf (S d) m -> quarantine_from m = Ok r -> tree_of 8 m r.
Proof.
  unfold quarantine_from. intros Hw ([] & He & H)%result_bind_ok. destruct Hw as [HF Hs] eqn:Ew.
  apply result_bind_ok in H as (o & Hd & H).
  assert (find_key ¶"detail" m = Cbor.VUint <$> o) as Hk.
  { unfold quarantine_detail in Hd. repeat case_match; try done; by injection Hd as <-. }
  getters H. unfold tree_of, canonical_fields, record_wf. projections. kvs.
  split_and!; try typed; [|done|].
  - rewrite <- (canon_expected m _ QUARANTINE_KEYS He);
      [|present|apply table_sorted; vm_compute; reflexivity|done].
    unfold QUARANTINE_KEYS. cbn [canon]. rewrite Hk, Hk0, Hk1, Hk2, Hk3. destruct o; reflexivity.
  - intros n ->. typed.
Qed.

Lemma job_from_inv d m r : map_wf (S d) m -> job_from m = Ok r -> tree_of 2 m r.
Proof.
  unfold job_from. intros Hw ([] & He & H)%result_bind_ok. destruct Hw as [HF Hs] eqn:Ew.
  apply result_bind_ok in H as (inl & Hi & H). apply result_bind_ok in H as (key & Hy & H).
  assert (find_key ¶"payload_inline" m = Cbor.VBytes <$> inl) as Ki.
  { unfold job_inline in Hi. repeat case_match; try done; by injection Hi as <-. }
  assert (find_key ¶"payload_key" m = Cbor.VText <$> key) as Ky.
  { unfold job_key in Hy. repeat case_match; try done; by injection Hy as <-. }
  destruct (Bool.eqb _ _) eqn:Hx; [done|].
  getters H. unfold tree_of, canonical_fields, record_wf, record_valid. projections. kvs.
  split_and!; try typed.
  - rewrite <- (canon_expected m _ JOB_KEYS He);
      [|present|apply table_sorted; vm_compute; reflexivity|done].
    unfold JOB_KEYS. cbn [canon]. rewrite Hk, Hk0, Hk1, Hk2, Hk3, Hk4, Hk5, Ki, Ky.
    destruct inl, key, x3; reflexivity.
  - done.
  - intros n ->. typed.
  - intros b ->. by eapply map_wf_bytes.
  - intros k ->. typed.
  - destruct inl, key; cbn in Hx; try done; split; naive_solver.
Qed.

Lemma claim_from_inv d m r : map_wf (S (S d)) m -> claim_from m = Ok r -> tree_of 3 m r.
Proof.
  unfold claim_from. intros Hw ([] & He & H)%result_bind_ok. destruct Hw as [HF Hs] eqn:Ew.
  getters H.
  apply result_bind_ok in H as (basis & Hb & H). apply result_bind_ok in H as (token & Ht & H).
  assert (find_key ¶"basis" m = canonical_basis <$> basis /\
          forall b, basis = Some b -> is_u64 (prev_store_time_ns b) /\
            is_u64 (prev_duration_ns b) /\ is_u64 (observed_watermark_ns b)) as [Kb Bw].
  { unfold claim_basis in Hb. destruct (find_key ¶"basis" m) as [v|] eqn:Ef.
    - destruct v as [| | | | |bm]; try done. apply result_bind_ok in Hb as (b & Hb & [= <-]).
      apply (basis_from_inv d) in Hb as [-> Hwf]; [|by eapply map_wf_nested].
      split; [done|]. by intros ? [= <-].
    - by injection Hb as <-. }
  assert (find_key ¶"prev_token" m = Cbor.VBytes <$> token /\
          forall t, token = Some t -> is_id t) as [Kt Tw].
  { unfold claim_prev_token in Ht. destruct (find_key ¶"prev_token" m) as [v|] eqn:Ef.
    - destruct v; try done. destruct (Z.eqb_spec (Cbor.len64 b) 16) as [El|]; [|done].
      injection Ht as <-. split; [done|]. intros ? [= <-]. unfold is_id, Cbor.len64 in *. lia.
    - by injection Ht as <-. }
  destruct (_ || _) eqn:Hx; [done|].
  getters H. unfold tree_of, canonical_fields, record_wf, record_valid. projections. kvs.
  split_and!; try typed.
  - rewrite <- (canon_expected m _ CLAIM_KEYS He);
      [|apply all_allowed; vm_compute; reflexivity|apply table_sorted; vm_compute; reflexivity|done].
    unfold CLAIM_KEYS. cbn [canon]. rewrite Hk, Hk0, Hk1, Hk2, Hk3, Hk4, Hk5, Kb, Kt.
    destruct basis, token; reflexivity.
  - done.
  - destruct x, basis, token; cbn in Hx; try done; naive_solver.
  - destruct x, basis, token; cbn in Hx; try done; naive_solver.
Qed.

Lemma receipt_from_inv d m r : map_wf (S d) m -> receipt_from m = Ok r -> tree_of 5 m r.
Proof.
  unfold receipt_from. intros Hw ([] & He & H)%result_bind_ok. destruct Hw as [HF Hs] eqn:Ew.
  apply result_bind_ok in H as (outs & Ho & H).
  assert (find_key ¶"output_digests" m =
            (if decide (outs = []) then None else Some (outputs_value outs))
          /\ Forall is_digest outs /\ is_u64 (Cbor.len64 outs)) as (Ko & Od & Ol).
  { unfold receipt_outputs in Ho. destruct (find_key ¶"output_digests" m) as [v|] eqn:Ef.
    - destruct v; try done. case_bool_decide as Hl; [done|].
      apply digest_items_inv in Ho as [-> Hd].
      split_and!; [by rewrite decide_False by (by intros ->)|done|].
      apply (map_wf_array _ _ _ _ Hw) in Ef. unfold Cbor.len64 in *. by rewrite length_map in Ef.
    - injection Ho as <-. split_and!; [by rewrite decide_True|constructor|].
      unfold is_u64, Cbor.len64. cbn. lia. }
  getters H. unfold tree_of, canonical_fields, record_wf, record_valid. projections. kvs.
  split_and!; try typed; [|done].
  rewrite <- (canon_expected m _ RECEIPT_KEYS He);
    [|apply all_allowed; vm_compute; reflexivity|apply table_sorted; vm_compute; reflexivity|done].
  unfold RECEIPT_KEYS. cbn [canon]. rewrite Hk, Hk0, Hk1, Hk2, Hk3, Hk4, Ko.
  destruct outs; [rewrite decide_True by done|rewrite decide_False by done]; reflexivity.
Qed.

Lemma from_fields_inv d t m r : map_wf (S (S d)) m -> from_fields t m = Ok r -> tree_of t m r.
Proof.
  unfold from_fields. intros Hw H.
  repeat match type of H with context [t =? ?k] => destruct (Z.eqb_spec t k) as [->|] end; [..|done].
  - by eapply format_from_inv.
  - by eapply job_from_inv.
  - by eapply claim_from_inv.
  - by eapply fail_from_inv.
  - by eapply receipt_from_inv.
  - by eapply dead_from_inv.
  - by eapply watermark_from_inv.
  - by eapply quarantine_from_inv.
Qed.

(* ------------------------------------------------------------------ *)
(** * The two paths agree *)

Lemma digests_wf d outs :
  Forall is_digest outs -> is_u64 (Cbor.len64 outs) -> Cbor.wf (S (S d)) (outputs_value outs).
Proof.
  intros HF Hl. unfold outputs_value. cbn [Cbor.wf]. unfold Cbor.len64 in *. rewrite length_map.
  split; [done|]. rewrite Forall_map. eapply Forall_impl; [exact HF|].
  intros b Hb. cbn. unfold is_digest in Hb. unfold is_u64, Cbor.len64. lia.
Qed.

Lemma entry_key_wf d k :
  (Cbor.utf8_valid k && (Cbor.len64 k <=? u64_max)) = true -> Cbor.wf (S d) (Cbor.VText k).
Proof. intros [? ?]%andb_true_iff. zbool. cbn. unfold is_u64, Cbor.len64 in *. split; [lia|done]. Qed.

Lemma map_value_wf d pairs :
  is_u64 (Cbor.len64 pairs) -> Forall (fun p : Value * Value => Cbor.wf d p.1 /\ Cbor.wf d p.2) pairs ->
  Cbor.check_keys None pairs = Ok tt -> Cbor.wf (S d) (Cbor.VMap pairs).
Proof. intros Hl HF [Hs _]%Cbor.check_keys_inv. exact (conj Hl (conj HF Hs)). Qed.

Lemma array_value_wf d items :
  is_u64 (Cbor.len64 items) -> Forall (Cbor.wf d) items -> Cbor.wf (S d) (Cbor.VArray items).
Proof. done. Qed.

#[local] Ltac entries :=
  repeat (apply Forall_cons; split;
    [cbn [fst snd]; split; [apply entry_key_wf; vm_compute; reflexivity|]|]);
  [..|by apply Forall_nil].

#[local] Ltac entry_value :=
  cbn [Cbor.wf]; unfold is_text in *; destruct_and?;
  first
    [ assumption | exact I | by apply digests_wf
    | (split; assumption)
    | match goal with H : forall x, Some ?v = Some x -> _ |- _ => exact (H v eq_refl) end
    | match goal with H : forall x, Some ?v = Some x -> _ |- _ =>
        destruct (H v eq_refl); split; assumption end
    | match goal with H : forall x, Some ?v = Some x -> is_id _ |- is_u64 (Cbor.len64 ?v) =>
        specialize (H v eq_refl); unfold is_id, is_u64, Cbor.len64 in *; lia end
    | unfold is_id, is_digest, is_u32, is_u64, Cbor.len64 in *; lia ].

Lemma canonical_basis_wf d b :
  is_u64 (prev_store_time_ns b) /\ is_u64 (prev_duration_ns b) /\ is_u64 (observed_watermark_ns b) ->
  Cbor.wf (S (S d)) (canonical_basis b).
Proof.
  intros H. destruct b. unfold canonical_basis. projections. kvs.
  apply map_value_wf; [vm_compute; split; discriminate| |vm_compute; reflexivity].
  entries; entry_value.
Qed.

Lemma canonical_fields_wf d r :
  record_wf r -> Cbor.wf (S (S (S d))) (Cbor.VMap (canonical_fields canonical_basis r)).
Proof.
  intros Hw. assert (forall b, is_u64 (prev_store_time_ns b) /\ is_u64 (prev_duration_ns b) /\
    is_u64 (observed_watermark_ns b) -> Cbor.wf (S (S d)) (canonical_basis b)) as Hb
    by apply canonical_basis_wf.
  destruct r as [r|r|r|r|r|r|r|r]; open_record r; kvs.
  all: apply map_value_wf; [vm_compute; split; discriminate| |vm_compute; reflexivity].
  all: entries. all: try (apply Hb; destruct_and?; eauto). all: entry_value.
Qed.

Lemma envelope_wf r q tag :
  record_wf r -> is_u64 (Cbor.len64 q) -> is_u64 (Cbor.len64 tag) ->
  Cbor.wf Cbor.MAX_DEPTH (envelope_value r (canonical_fields canonical_basis r) q tag).
Proof.
  intros Hw Hq Ht. replace Cbor.MAX_DEPTH with (S (S (S (S 60)))) by reflexivity.
  apply array_value_wf; [unfold is_u64, Cbor.len64; cbn; lia|].
  repeat (apply Forall_cons; split); [..|by apply Forall_nil].
  1-3: vm_compute; split; discriminate.
  - exact Hq.
  - exact Ht.
  - exact (type_number_u64 r).
  - by apply canonical_fields_wf.
Qed.

Lemma envelope_parts_inv v magic major minor q tag t m :
  envelope_parts v = Some (magic, major, minor, q, tag, t, m) ->
  v = Cbor.VArray [Cbor.VUint magic; Cbor.VUint major; Cbor.VUint minor; Cbor.VBytes q;
                   Cbor.VBytes tag; Cbor.VUint t; Cbor.VMap m].
Proof. unfold envelope_parts. repeat (case_match; try done). intros. by simplify_eq. Qed.

Lemma array_value_wf_inv d items :
  Cbor.wf (S d) (Cbor.VArray items) -> Forall (Cbor.wf d) items.
Proof. intros [_ H]. exact H. Qed.

Lemma map_value_wf_inv d m : Cbor.wf (S d) (Cbor.VMap m) -> map_wf d m.
Proof. intros (_ & Hm & Hs). exact (conj Hm Hs). Qed.

Lemma bytes_value_wf_inv d b : Cbor.wf (S d) (Cbor.VBytes b) -> is_u64 (Cbor.len64 b).
Proof. done. Qed.

(** What a decoded envelope's parts are known to be. *)
Lemma envelope_value_wf d magic major minor q tag t m :
  Cbor.wf (S (S d))
    (Cbor.VArray [Cbor.VUint magic; Cbor.VUint major; Cbor.VUint minor; Cbor.VBytes q;
                  Cbor.VBytes tag; Cbor.VUint t; Cbor.VMap m]) ->
  is_u64 (Cbor.len64 q) /\ is_u64 (Cbor.len64 tag) /\ map_wf d m.
Proof.
  intros HF%array_value_wf_inv. rewrite !Forall_cons in HF.
  destruct HF as (_ & _ & _ & Hq & Ht & _ & Hm & _).
  split_and!; [exact (bytes_value_wf_inv d q Hq)|exact (bytes_value_wf_inv d tag Ht)|].
  exact (map_value_wf_inv d m Hm).
Qed.

Section Agree.
Context {HS : Sha256}.

Lemma value_encode_direct r q tag : value_encode r q tag = encode_record r q tag.
Proof.
  unfold value_encode, encode_record.
  by rewrite (encode_envelope r (fields r) q tag) by apply encode_fields.
Qed.

Lemma value_decode_encode r q tag :
  is_u64 (Cbor.len64 q) -> is_u64 (Cbor.len64 tag) -> record_wf r -> record_valid r ->
  value_decode (encode_record r q tag) q tag = Ok r.
Proof.
  intros Hq Ht Hw Hv. unfold encode_record. fold (type_str_of r). set (body := encode_body r q tag).
  destruct (decode_record_split body (record_digest (type_str_of r) body)
              (sha256_length _)) as (E1 & E2 & E3).
  unfold value_decode. rewrite E1, E2, E3. cbn [take drop app].
  unfold bytes_eqb at 1 2. rewrite !bool_decide_eq_true_2 by done. cbn [negb orb].
  assert (Cbor.decode body = Ok (envelope_value r (canonical_fields canonical_basis r) q tag)) as ->.
  { unfold body. rewrite <- (encode_envelope r (canonical_fields canonical_basis r)).
    - by apply Cbor.decode_within_encode, envelope_wf.
    - destruct (canonical_fields_wf 0 r Hw) as (_ & _ & Hs).
      rewrite Cbor.encode_map_sorted by exact Hs. apply write_canonical. apply encode_basis. }
  unfold envelope_value. cbn [map_err mbind result_bind envelope_parts ok_or].
  rewrite !Z.eqb_refl, type_name_number. cbn [negb orb ok_or mbind result_bind].
  unfold bytes_eqb. rewrite !bool_decide_eq_true_2 by done. cbn [negb orb].
  by apply from_canonical.
Qed.

Lemma value_decode_inv data q tag r :
  value_decode data q tag = Ok r ->
  data = encode_record r q tag /\ record_wf r /\ record_valid r /\
  is_u64 (Cbor.len64 q) /\ is_u64 (Cbor.len64 tag).
Proof.
  intros H. unfold value_decode in H. destruct (Z.ltb_spec (Cbor.len64 data) 34) as [|Hl]; [done|].
  unfold Cbor.len64 in Hl. pose proof (take_drop (length data - 34) data) as Hd.
  assert (length (drop (length data - 34) data) = 34%nat) as Hlt by (rewrite length_drop; lia).
  set (body := take (length data - 34) data) in *. set (tail := drop (length data - 34) data) in *.
  clearbody body tail.
  destruct tail as [|x [|y digest]]; try done. cbn [take drop] in H. rewrite take_0, drop_0 in H.
  unfold bytes_eqb in H. case_bool_decide as Ex; [|discriminate H].
  case_bool_decide as Ey; [|discriminate H]. cbn [negb orb] in H.
  injection Ex as ->. injection Ey as ->.
  apply result_bind_ok in H as (v & Hv & H). rewrite map_err_ok in Hv.
  apply Cbor.decode_within_inv in Hv as [Eb Hwf].
  replace Cbor.MAX_DEPTH with (S (S (S (S 60)))) in Hwf by reflexivity.
  apply result_bind_ok in H as ([[[[[[magic vmaj] vmin] qid] tg] rt] m] & Hp%ok_or_ok & H).
  apply envelope_parts_inv in Hp as ->.
  destruct (Z.eqb_spec magic MAGIC) as [->|]; [|done].
  destruct (Z.eqb_spec vmaj MAJOR) as [->|]; [|done].
  destruct (Z.eqb_spec vmin MINOR) as [->|]; [|done]. cbn [negb orb] in H.
  apply result_bind_ok in H as (ts & Hts & H). apply ok_or_ok in Hts.
  case_bool_decide as Edig; [|done]. do 2 (case_bool_decide; [|done]). subst qid tg.
  cbn [negb orb] in H. apply envelope_value_wf in Hwf as (Hq & Ht & Hm).
  apply (from_fields_inv 60) in H as (-> & <- & Hw & Hv); [|done].
  split_and!; [|done..]. destruct Hm as [_ Hs].
  rewrite <- Hd, Eb. unfold encode_record. rewrite Hts. cbn zeta.
  change (default [] (Some ts)) with ts.
  fold (envelope_value r (canonical_fields canonical_basis r) q tag) in Eb |- *.
  rewrite (encode_envelope r) in Eb |- *.
  2-3: rewrite Cbor.encode_map_sorted by exact Hs; apply write_canonical; apply encode_basis.
  by rewrite <- Eb, Edig.
Qed.
End Agree.

(** C20: the direct codec is the value path: writing a record's fields in their
    canonical order gives, for every record, the bytes of encoding its [Value]
    tree, whose map the encoder sorts; and on every byte string, under every
    queue and key binding, the direct decoder and the value path accept the
    same inputs and yield the same record (which error a rejected input gets
    may differ). *)
Theorem direct_codec_is_the_value_path {HS : Sha256} (queue_id tag : bytes)
  (Hq : is_u64 (Cbor.len64 queue_id)) (Ht : is_u64 (Cbor.len64 tag)) :
  (forall r, encode_record r queue_id tag = value_encode r queue_id tag) /\
  (forall data r, decode_record data queue_id tag = Ok r <-> value_decode data queue_id tag = Ok r).
Proof.
  split; [intros r; symmetry; apply value_encode_direct|]. intros data r. split; intros H.
  - apply decode_record_canonical_aux in H as (-> & Hw & Hv). by apply value_decode_encode.
  - apply value_decode_inv in H as (-> & Hw & Hv & _). by apply decode_encode_aux.
Qed.

Lemma direct_codec_is_the_value_path_witness :
  let data := @encode_record fips vector_claim vector_queue vector_tag in
  is_u64 (Cbor.len64 vector_queue) /\ is_u64 (Cbor.len64 vector_tag) /\
  data = @value_encode fips vector_claim vector_queue vector_tag /\
  @decode_record fips data vector_queue vector_tag = Ok vector_claim /\
  @value_decode fips data vector_queue vector_tag = Ok vector_claim.
Proof.
  intros data.
  assert (is_u64 (Cbor.len64 vector_queue)) as Hq by (vm_compute; split; discriminate).
  assert (is_u64 (Cbor.len64 vector_tag)) as Ht by (vm_compute; split; discriminate).
  assert (@decode_record fips data vector_queue vector_tag = Ok vector_claim) as H
    by (vm_compute; reflexivity).
  destruct (@direct_codec_is_the_value_path fips vector_queue vector_tag Hq Ht) as [He Hd].
  split; [exact Hq|]. split; [exact Ht|]. split; [exact (He vector_claim)|]. split; [exact H|].
  exact (proj1 (Hd data vector_claim) H).
Defined.
