(* ===== verification/Text.v ===== *)
(** The [str] and number formatting of the Rust standard library that the
    store clients use: decimal text, searching, trimming, lossy decoding. *)

From Stdlib Require Import Strings.Byte.
From stdpp Require Import pretty.
From S2P Require Import Prelude Cbor.

(* ------------------------------------------------------------------ *)
(** * Numbers *)

(** [u64::to_string]: decimal digits. *)
Definition u64_to_string (v : Z) : bytes := str (pretty (Z.to_N v)).

(** [{v:0width$}] of a natural number. *)
Definition pad (width : nat) (v : Z) : bytes :=
  let digits := u64_to_string v in replicate (width - length digits) Init.Byte.x30 ++ digits.

Definition digit_value (b : byte) : option Z :=
  let v := byte_val b in if (48 <=? v) && (v <=? 57) then Some (v - 48) else None.

Fixpoint radix10 (acc : Z) (s : bytes) : option Z :=
  match s with
  | [] => Some acc
  | b :: s => d ← digit_value b; radix10 (acc * 10 + d) s
  end.

(** [str::parse] of an unsigned integer: an optional [+], then digits. *)
Definition parse_unsigned (max : Z) (s : bytes) : option Z :=
  let digits := match s with
                | b :: (_ :: _) as rest => if decide (b = Init.Byte.x2b) then rest else s
                | _ => s
                end in
  match digits with
  | [] => None
  | _ => v ← radix10 0 digits; if v <=? max then Some v else None
  end.

(** [str::parse::<i64>]: an optional sign, then digits. *)
Definition parse_i64 (s : bytes) : option Z :=
  let '(negative, digits) := match s with
                | b :: (_ :: _) as rest =>
                    if decide (b = Init.Byte.x2b) then (false, rest)
                    else if decide (b = Init.Byte.x2d) then (true, rest) else (false, s)
                | _ => (false, s)
                end in
  match digits with
  | [] => None
  | _ => v ← radix10 0 digits;
         let v := if negative : bool then - v else v in
         if (- i64_max - 1 <=? v) && (v <=? i64_max) then Some v else None
  end.

(** A hexadecimal digit of either case ([char::to_digit(16)]), and
    [u8::from_str_radix(_, 16)] of a text of two bytes: a leading [+] is
    accepted. *)
Definition hex_digit_any (b : byte) : option Z :=
  let v := byte_val b in
  if (48 <=? v) && (v <=? 57) then Some (v - 48)
  else if (65 <=? v) && (v <=? 70) then Some (v - 55)
  else if (97 <=? v) && (v <=? 102) then Some (v - 87)
  else None.

Definition u8_from_hex2 (h l : byte) : option Z :=
  if decide (h = Init.Byte.x2b) then hex_digit_any l
  else hi ← hex_digit_any h; lo ← hex_digit_any l; Some (hi * 16 + lo).

(** A UTF-8 continuation byte: an index before it is no character boundary. *)
Definition continuation (b : byte) : bool := Cbor.in_range 128 191 b.

(** [as] casts between the 64-bit integers. *)
Definition as_u64 (z : Z) : Z := z mod 2 ^ 64.
Definition as_i64 (z : Z) : Z := (z + 2 ^ 63) mod 2 ^ 64 - 2 ^ 63.

(* ------------------------------------------------------------------ *)
(** * Searching *)

(** [str::find]: the text before and after the first occurrence. *)
Fixpoint find_split (pat s : bytes) : option (bytes * bytes) :=
  match strip_prefix pat s with
  | Some rest => Some ([], rest)
  | None =>
      match s with
      | [] => None
      | b :: s => '(before, after) ← find_split pat s; Some (b :: before, after)
      end
  end.

(** The last of [rsplit(c)]'s parts: the text after the last [c]. *)
Definition after_last (c : byte) (s : bytes) : bytes := default [] (last (split_on c s)).

(** [trim_start_matches], [trim_end_matches] and [trim_matches] of a byte. *)
Fixpoint trim_start_matches (c : byte) (s : bytes) : bytes :=
  match s with
  | b :: rest => if decide (b = c) then trim_start_matches c rest else s
  | [] => []
  end.
Definition trim_end_matches (c : byte) (s : bytes) : bytes := rev (trim_start_matches c (rev s)).
Definition trim_matches (c : byte) (s : bytes) : bytes := trim_end_matches c (trim_start_matches c s).

(** [char::is_whitespace] at the head of a text: the width of the character,
    [0] when it is no whitespace. *)
Definition whitespace_width (s : bytes) : nat :=
  match map byte_val (take 3 s) with
  | a :: rest =>
      if ((9 <=? a) && (a <=? 13)) || (a =? 32) then 1%nat
      else match rest with
        | b :: rest =>
            if (a =? 0xC2) && ((b =? 0x85) || (b =? 0xA0)) then 2%nat
            else match rest with
              | [c] =>
                  if ((a =? 0xE1) && (b =? 0x9A) && (c =? 0x80))
                     || ((a =? 0xE2) && (b =? 0x80) &&
                         (((0x80 <=? c) && (c <=? 0x8A)) || (c =? 0xA8) || (c =? 0xA9) || (c =? 0xAF)))
                     || ((a =? 0xE2) && (b =? 0x81) && (c =? 0x9F))
                     || ((a =? 0xE3) && (b =? 0x80) && (c =? 0x80)) then 3%nat else 0%nat
              | _ => 0%nat
              end
        | [] => 0%nat
        end
  | [] => 0%nat
  end.

(** [split_whitespace]: [skip] counts the rest of a whitespace character. *)
Fixpoint split_words (skip : nat) (word s : bytes) : list bytes :=
  let flush rest := match word with [] => rest | _ => word :: rest end in
  match s with
  | [] => flush []
  | b :: rest =>
      match skip with
      | S skip => split_words skip word rest
      | O => match whitespace_width s with
             | O => split_words O (word ++ [b]) rest
             | S width => flush (split_words width [] rest)
             end
      end
  end.
Definition split_whitespace (s : bytes) : list bytes := split_words 0 [] s.

(** [str::trim]. *)
Fixpoint trim_start (skip : nat) (s : bytes) : bytes :=
  match s with
  | [] => []
  | _ :: rest =>
      match skip with
      | S skip => trim_start skip rest
      | O => match whitespace_width s with O => s | S width => trim_start width rest end
      end
  end.
Fixpoint trim_end (s : bytes) : bytes :=
  match s with
  | [] => []
  | b :: rest => match trim_start 0 s with [] => [] | _ => b :: trim_end rest end
  end.
Definition trim (s : bytes) : bytes := trim_end (trim_start 0 s).

Definition to_ascii_lower (b : byte) : byte :=
  let v := byte_val b in if (65 <=? v) && (v <=? 90) then byte_of (v + 32) else b.
Definition to_ascii_lowercase (s : bytes) : bytes := map to_ascii_lower s.
Definition eq_ignore_ascii_case (a b : bytes) : bool := bytes_eqb (to_ascii_lowercase a) (to_ascii_lowercase b).

(* ------------------------------------------------------------------ *)
(** * UTF-8 *)

(** [char::from_u32], as the UTF-8 bytes of the character. *)
Definition char_from_u32 (n : Z) : option bytes :=
  if (0xD800 <=? n) && (n <=? 0xDFFF) || (0x10FFFF <? n) then None
  else if n <? 0x80 then Some [byte_of n]
  else if n <? 0x800 then Some [byte_of (0xC0 + n / 64); byte_of (0x80 + n mod 64)]
  else if n <? 0x10000 then
    Some [byte_of (0xE0 + n / 4096); byte_of (0x80 + n / 64 mod 64); byte_of (0x80 + n mod 64)]
  else Some [byte_of (0xF0 + n / 262144); byte_of (0x80 + n / 4096 mod 64);
             byte_of (0x80 + n / 64 mod 64); byte_of (0x80 + n mod 64)].

(** U+FFFD. *)
Definition replacement : bytes := map byte_of [0xEF; 0xBF; 0xBD].

(** [String::from_utf8_lossy]: every maximal invalid sequence is replaced. *)
Fixpoint from_utf8_lossy (s : bytes) : bytes :=
  match s with
  | [] => []
  | a :: s1 =>
      if Cbor.in_range 0 127 a then a :: from_utf8_lossy s1
      else match s1 with
        | [] => replacement
        | b :: s2 =>
            if Cbor.in_range 194 223 a then
              if Cbor.in_range 128 191 b then a :: b :: from_utf8_lossy s2
              else replacement ++ from_utf8_lossy s1
            else if Cbor.in_range 224 239 a then
              if (if byte_val a =? 224 then Cbor.in_range 160 191 b
                  else if byte_val a =? 237 then Cbor.in_range 128 159 b
                  else Cbor.in_range 128 191 b) then
                match s2 with
                | [] => replacement
                | c :: s3 =>
                    if Cbor.in_range 128 191 c then a :: b :: c :: from_utf8_lossy s3
                    else replacement ++ from_utf8_lossy s2
                end
              else replacement ++ from_utf8_lossy s1
            else if Cbor.in_range 240 244 a then
              if (if byte_val a =? 240 then Cbor.in_range 144 191 b
                  else if byte_val a =? 244 then Cbor.in_range 128 143 b
                  else Cbor.in_range 128 191 b) then
                match s2 with
                | [] => replacement
                | c :: s3 =>
                    if Cbor.in_range 128 191 c then
                      match s3 with
                      | [] => replacement
                      | d :: s4 =>
                          if Cbor.in_range 128 191 d then a :: b :: c :: d :: from_utf8_lossy s4
                          else replacement ++ from_utf8_lossy s3
                      end
                    else replacement ++ from_utf8_lossy s2
                end
              else replacement ++ from_utf8_lossy s1
            else replacement ++ from_utf8_lossy s1
        end
  end.

(* ------------------------------------------------------------------ *)
(** * Lemmas *)

Lemma str_inj a b : str a = str b -> a = b.
Proof.
  unfold str. intros Hs. rewrite <- (String.string_of_list_byte_of_string a), Hs.
  apply String.string_of_list_byte_of_string.
Qed.

Lemma u64_to_string_inj a b : 0 <= a -> 0 <= b -> u64_to_string a = u64_to_string b -> a = b.
Proof.
  intros Ha Hb Hs%str_inj%(inj pretty). lia.
Qed.

Lemma pretty_go_radix (x : N) (s : string) :
  radix10 0 (str (pretty_N_go x s)) = radix10 (Z.of_N x) (str s).
Proof.
  revert s. induction (N.lt_wf_0 x) as [x _ IH]; intros s.
  destruct (decide (x = 0)%N) as [->|Hx]; [done|].
  rewrite pretty_N_go_step by lia. rewrite IH by (apply N.div_lt; lia).
  assert (x `mod` 10 < 10)%N as Hm by (by apply N.mod_lt).
  assert (Z.of_N x = Z.of_N (x `div` 10) * 10 + Z.of_N (x `mod` 10)) as E.
  { rewrite N2Z.inj_div, N2Z.inj_mod. pose proof (Z.div_mod (Z.of_N x) 10). lia. }
  rewrite E. generalize (Z.of_N (x `div` 10)) as y. revert Hm. generalize (x `mod` 10)%N as d. clear.
  intros d Hd y.
  assert (d = 0 \/ d = 1 \/ d = 2 \/ d = 3 \/ d = 4 \/ d = 5 \/ d = 6 \/ d = 7 \/ d = 8 \/ d = 9)%N as Hc by lia.
  destruct_or! Hc; subst d; reflexivity.
Qed.

Lemma u64_to_string_nonempty v : exists b s, u64_to_string v = b :: s.
Proof.
  destruct (u64_to_string v) as [|b s] eqn:E; [|eauto]. exfalso. revert E.
  unfold u64_to_string, pretty, pretty_N. case_decide as Hd; [done|]. intros E.
  pose proof (pretty_go_radix (Z.to_N v) "") as Hr. rewrite E in Hr. cbn in Hr. injection Hr. lia.
Qed.

Lemma radix10_decimal v : 0 <= v -> radix10 0 (u64_to_string v) = Some v.
Proof.
  intros Hv. unfold u64_to_string, pretty, pretty_N. case_decide as Hd.
  - by assert (v = 0) as -> by lia.
  - rewrite pretty_go_radix. cbn. f_equal. lia.
Qed.

Lemma radix10_zeros n acc s : radix10 acc (replicate n Init.Byte.x30 ++ s) = radix10 (acc * 10 ^ Z.of_nat n) s.
Proof.
  revert acc. induction n as [|n IH]; intros acc; [cbn; f_equal; lia|].
  cbn [replicate app radix10]. change (digit_value Init.Byte.x30) with (Some 0). cbn [mbind option_bind].
  rewrite IH, Nat2Z.inj_succ, Z.pow_succ_r by lia. f_equal. lia.
Qed.

Lemma radix10_pad w v : 0 <= v -> radix10 0 (pad w v) = Some v.
Proof. intros Hv. unfold pad. rewrite radix10_zeros. by apply radix10_decimal. Qed.

(** Decimal texts consist of digits. *)
Definition is_digit (b : byte) : bool := match digit_value b with Some _ => true | None => false end.

Lemma radix10_digits acc s v : radix10 acc s = Some v -> Forall (fun b => is_digit b = true) s.
Proof.
  revert acc. induction s as [|b s IH]; intros acc; [constructor|]. cbn [radix10].
  destruct (digit_value b) eqn:E; cbn; [|done]. intros Hs. constructor; [by unfold is_digit; rewrite E|by eapply IH].
Qed.

Lemma pad_digits w v : 0 <= v -> Forall (fun b => is_digit b = true) (pad w v).
Proof. intros Hv. eapply radix10_digits. by apply radix10_pad. Qed.
Lemma decimal_digits v : 0 <= v -> Forall (fun b => is_digit b = true) (u64_to_string v).
Proof. intros Hv. eapply radix10_digits. by apply radix10_decimal. Qed.

Lemma digit_not (b c : byte) : is_digit b = true -> is_digit c = false -> b <> c.
Proof. intros H1 H2 ->. congruence. Qed.

Lemma digits_not (c : byte) s : is_digit c = false -> Forall (fun b => is_digit b = true) s -> c ∉ s.
Proof. intros Hc Hs Hin. rewrite Forall_forall in Hs. specialize (Hs c Hin). congruence. Qed.

(** Parsing digits. *)
Lemma parse_unsigned_radix max s v :
  s <> [] -> radix10 0 s = Some v -> v <= max -> parse_unsigned max s = Some v.
Proof.
  intros Hs Hv Hm. pose proof (radix10_digits _ _ _ Hv) as Hd. unfold parse_unsigned.
  destruct s as [|b [|c s]]; [done| |].
  - rewrite Hv. cbn. by rewrite (proj2 (Z.leb_le _ _) Hm).
  - rewrite decide_False by (apply Forall_inv in Hd; by apply digit_not). rewrite Hv. cbn.
    by rewrite (proj2 (Z.leb_le _ _) Hm).
Qed.
Lemma parse_i64_radix s v :
  s <> [] -> radix10 0 s = Some v -> 0 <= v <= i64_max -> parse_i64 s = Some v.
Proof.
  intros Hs Hv [H0 Hm]. pose proof (radix10_digits _ _ _ Hv) as Hd. unfold parse_i64.
  assert ((- i64_max - 1 <=? v) && (v <=? i64_max) = true) as Hr by lia.
  destruct s as [|b [|c s]]; [done| |].
  - rewrite Hv. cbn -[Z.leb]. by rewrite Hr.
  - rewrite !decide_False by (apply Forall_inv in Hd; by apply digit_not). rewrite Hv. cbn -[Z.leb]. by rewrite Hr.
Qed.

Lemma pad_nonempty w v : pad w v <> [].
Proof.
  unfold pad. destruct (u64_to_string_nonempty v) as (b & s & ->). destruct (replicate _ _); by cbn.
Qed.

Lemma parse_unsigned_pad max w v : 0 <= v <= max -> parse_unsigned max (pad w v) = Some v.
Proof. intros Hv. apply parse_unsigned_radix; [apply pad_nonempty|apply radix10_pad|]; lia. Qed.
Lemma parse_i64_pad w v : 0 <= v <= i64_max -> parse_i64 (pad w v) = Some v.
Proof. intros Hv. apply parse_i64_radix; [apply pad_nonempty|apply radix10_pad|]; lia. Qed.
Lemma parse_unsigned_decimal max v : 0 <= v <= max -> parse_unsigned max (u64_to_string v) = Some v.
Proof.
  intros Hv. apply parse_unsigned_radix; [|apply radix10_decimal; lia|lia].
  by destruct (u64_to_string_nonempty v) as (b & s & ->).
Qed.

(** The width of a padded number that fits. *)
Lemma decimal_length_le (w : nat) v : 0 <= v < 10 ^ Z.of_nat w -> (0 < w)%nat -> (length (u64_to_string v) <= w)%nat.
Proof.
  intros Hv Hw. unfold u64_to_string, pretty, pretty_N. case_decide as Hd; [cbn; lia|].
  assert (forall (x : N) t, Z.of_N x < 10 ^ Z.of_nat w ->
    (length (str (pretty_N_go x t)) <= w + length (str t))%nat) as Hl.
  { clear. induction w as [|w IH]; intros x t Hx; [change (10 ^ Z.of_nat 0) with 1 in Hx; by assert (x = 0%N) as -> by lia|].
    destruct (decide (x = 0)%N) as [->|Hx0]; [change (pretty_N_go 0 t) with t; lia|].
    rewrite pretty_N_go_step by lia. rewrite Nat2Z.inj_succ, Z.pow_succ_r in Hx by lia.
    specialize (IH (x `div` 10)%N (String (pretty_N_char (x `mod` 10)) t)).
    change (length (str (String ?c t))) with (S (length (str t))) in IH.
    assert (Z.of_N (x `div` 10) < 10 ^ Z.of_nat w); [|specialize (IH ltac:(done)); lia].
    rewrite N2Z.inj_div. apply Z.div_lt_upper_bound; lia. }
  etrans; [apply Hl; lia|]. cbn. lia.
Qed.
Lemma pad_length (w : nat) v : 0 <= v < 10 ^ Z.of_nat w -> (0 < w)%nat -> length (pad w v) = w.
Proof.
  intros Hv Hw. pose proof (decimal_length_le w v Hv Hw). unfold pad.
  rewrite length_app, length_replicate. lia.
Qed.

(** Lossy decoding leaves valid text alone. *)
Lemma from_utf8_lossy_valid s : Cbor.utf8_valid s = true -> from_utf8_lossy s = s.
Proof.
  assert (forall n s, (length s <= n)%nat -> Cbor.utf8_valid s = true -> from_utf8_lossy s = s) as Hn; [|by eapply Hn].
  clear. induction n as [|n IH]; intros [|a s1] Hl; cbn [length] in Hl; try lia; try done.
  cbn [Cbor.utf8_valid from_utf8_lossy]. destruct (Cbor.in_range 0 127 a) eqn:Ha.
  { intros Hv. f_equal. apply IH; [lia|done]. }
  destruct s1 as [|b s2]; [done|]. cbn [length] in Hl. destruct (Cbor.in_range 194 223 a).
  { destruct (Cbor.in_range 128 191 b); [|done]. intros Hv. do 2 f_equal. apply IH; [lia|done]. }
  destruct s2 as [|c s3]; [done|]. cbn [length] in Hl. destruct (Cbor.in_range 224 239 a).
  { intros [[Hb Hc]%andb_true_iff Hv]%andb_true_iff. rewrite Hb, Hc. do 3 f_equal. apply IH; [lia|done]. }
  destruct s3 as [|d s4]; [done|]. cbn [length] in Hl. destruct (Cbor.in_range 240 244 a); [|done].
  intros [[[Hb Hc]%andb_true_iff Hd]%andb_true_iff Hv]%andb_true_iff. rewrite Hb, Hc, Hd. do 4 f_equal.
  apply IH; [lia|done].
Qed.

(** Searching from a byte the text before does not hold. *)
Lemma find_split_here pat s : find_split pat (pat ++ s) = Some ([], s).
Proof. pose proof (strip_prefix_app pat s) as Hs. by destruct (pat ++ s); cbn [find_split]; rewrite Hs. Qed.
Lemma find_split_skip c pat x s :
  c ∉ x -> find_split (c :: pat) (x ++ s) = ('(before, after) ← find_split (c :: pat) s; Some (x ++ before, after)).
Proof.
  induction x as [|b x IH]; intros Hx; [cbn [app]; by destruct (find_split (c :: pat) s) as [[]|]|].
  cbn [app find_split strip_prefix]. rewrite decide_False by set_solver. rewrite IH by set_solver.
  by destruct (find_split (c :: pat) s) as [[]|].
Qed.
Lemma find_split_none c pat x : c ∉ x -> find_split (c :: pat) x = None.
Proof. intros Hx. rewrite <- (app_nil_r x). by rewrite find_split_skip. Qed.

(** A byte that a literal does not hold. *)
Lemma lit_not_elem (c : byte) (s : bytes) : bool_decide (c ∉ s) = true -> c ∉ s.
Proof. apply bool_decide_eq_true. Qed.
Lemma split_once_none c s : c ∉ s -> split_once c s = None.
Proof.
  induction s as [|b s IH]; [done|]. intros Hc. cbn. rewrite decide_False by set_solver. by rewrite IH by set_solver.
Qed.
