(* ===== verification/Store.v ===== *)
(** [stowq-store/src/lib.rs]: the store boundary.

    The trait [ObjectStore] is the class [ObjectStore] of state machines: one
    transition per call, whose answer type depends on the call.  Its primitive
    contract (the trait's doc comments) is the relation [contract] over an
    abstract key space, and [StoreLaws] says that an implementation's
    transitions are contract steps under a view of its state. *)

From S2P Require Import Prelude Sha256.

(* ------------------------------------------------------------------ *)
(** * Data *)

(** Opaque version tokens and keys are strings. *)
Abbreviation Version := (list Init.Byte.byte).

Record Meta := { m_version : Version; m_store_time_ns : Z; m_size : Z }.
Record Object := { o_meta : Meta; o_body : bytes }.
Record Listing := { l_key : bytes; l_meta : Meta }.
Record Page := { p_items : list Listing; p_next_after : option bytes }.

Inductive PutOutcome :=
| Committed (version : Version)
| Rejected.

Inductive Ambiguity := Timeout | ConnectionLost | AmbiguousResponse.
Inductive TransportClass := PreTransmit.
Inductive IntegrityKind := DigestMismatch.

Inductive StoreError :=
| OutcomeUnknown (a : Ambiguity)
| NotFound
| IntegrityViolation (k : IntegrityKind)
| ProfileViolation (what : string)
| Transport (c : TransportClass).

#[export] Instance meta_eq_dec : EqDecision Meta.
Proof. solve_decision. Defined.
#[export] Instance object_eq_dec : EqDecision Object.
Proof. solve_decision. Defined.
#[export] Instance listing_eq_dec : EqDecision Listing.
Proof. solve_decision. Defined.
#[export] Instance page_eq_dec : EqDecision Page.
Proof. solve_decision. Defined.
#[export] Instance put_outcome_eq_dec : EqDecision PutOutcome.
Proof. solve_decision. Defined.
#[export] Instance ambiguity_eq_dec : EqDecision Ambiguity.
Proof. solve_decision. Defined.
#[export] Instance transport_class_eq_dec : EqDecision TransportClass.
Proof. solve_decision. Defined.
#[export] Instance integrity_kind_eq_dec : EqDecision IntegrityKind.
Proof. solve_decision. Defined.
#[export] Instance store_error_eq_dec : EqDecision StoreError.
Proof. solve_decision. Defined.

Abbreviation StoreResult := (Result StoreError).

(** The methods of the trait, and what each answers. *)
Inductive call :=
| CPut (key body sha : bytes)
| CCas (key body sha : bytes) (if_match : Version)
| CGet (key : bytes) (range : option (Z * Z))
| CHead (key : bytes)
| CList (prefix : bytes) (after : option bytes) (limit : nat)
| CDelete (key : bytes).

Definition answer (c : call) : Type :=
  match c with
  | CPut _ _ _ | CCas _ _ _ _ => StoreResult PutOutcome
  | CGet _ _ => StoreResult Object
  | CHead _ => StoreResult Meta
  | CList _ _ _ => StoreResult Page
  | CDelete _ => StoreResult unit
  end.

Class ObjectStore (S : Type) := store_step : forall c : call, S -> answer c * S.

(** The error an answer carries, if any. *)
Definition answer_err (c : call) : answer c -> option StoreError :=
  match c return answer c -> option StoreError with
  | CPut _ _ _ | CCas _ _ _ _ => fun a => match a with Ok _ => None | Err e => Some e end
  | CGet _ _ => fun a => match a with Ok _ => None | Err e => Some e end
  | CHead _ => fun a => match a with Ok _ => None | Err e => Some e end
  | CList _ _ _ => fun a => match a with Ok _ => None | Err e => Some e end
  | CDelete _ => fun a => match a with Ok _ => None | Err e => Some e end
  end.
Definition fail_with (c : call) (e : StoreError) : answer c :=
  match c return answer c with
  | CPut _ _ _ | CCas _ _ _ _ => Err e
  | CGet _ _ => Err e
  | CHead _ => Err e
  | CList _ _ _ => Err e
  | CDelete _ => Err e
  end.

(* ------------------------------------------------------------------ *)
(** * The primitive contract *)

Record Entry := { e_body : bytes; e_version : Version; e_time : Z }.
Definition Space := gmap bytes Entry.

Lemma space_insert (m : Space) k (e : Entry) : (<[k := e]> m : Space) !! k = Some e.
Proof. apply lookup_insert_eq. Qed.
Lemma space_insert_ne (m : Space) k k' (e : Entry) : k <> k' -> (<[k := e]> m : Space) !! k' = m !! k'.
Proof. apply lookup_insert_ne. Qed.
Lemma space_insert_inv (m : Space) k k' (e e' : Entry) :
  (<[k := e]> m : Space) !! k' = Some e' -> k = k' /\ e = e' \/ k <> k' /\ m !! k' = Some e'.
Proof. apply lookup_insert_Some. Qed.
Lemma space_delete_ne (m : Space) k k' : k <> k' -> (delete k m : Space) !! k' = m !! k'.
Proof. apply lookup_delete_ne. Qed.
Lemma space_delete_inv (m : Space) k k' (e : Entry) :
  (delete k m : Space) !! k' = Some e -> m !! k' = Some e.
Proof. intros He. by apply lookup_delete_Some in He as [_ ?]. Qed.

Definition meta_of (e : Entry) : Meta :=
  {| m_version := e_version e; m_store_time_ns := e_time e; m_size := Z.of_nat (length (e_body e)) |}.

(** The keys a listing ranges over: under the prefix, strictly after the
    cursor. *)
Definition in_listing (prefix : bytes) (after : option bytes) (k : bytes) : Prop :=
  starts_with prefix k = true /\ match after with Some a => bytes_lt a k | None => True end.

(** A page: a sorted prefix of the listing, whole unless a cursor is given
    back. *)
Definition page_of (m : Space) (prefix : bytes) (after : option bytes) (limit : nat) (p : Page) : Prop :=
  StronglySorted bytes_lt (map l_key (p_items p)) /\
  Forall (fun l => exists e, m !! l_key l = Some e /\ l_meta l = meta_of e /\
                     in_listing prefix after (l_key l)) (p_items p) /\
  (length (p_items p) <= limit)%nat /\
  (forall k e, m !! k = Some e -> in_listing prefix after k ->
     k ∈ map l_key (p_items p) \/
     (is_Some (p_next_after p) \/ limit = 0%nat) /\ Forall (fun l => bytes_lt (l_key l) k) (p_items p)) /\
  (forall a, p_next_after p = Some a -> last (map l_key (p_items p)) = Some a).

(** The half-open range contract of [get]. *)
Definition slice (b : bytes) (s e : Z) : bytes := take (Z.to_nat (e - s)) (drop (Z.to_nat s) b).

Section Contract.
Context `{Sha256}.

(** What a transmitted call does, and its answer when it arrives.  Store
    times are 64-bit integers. *)
Inductive applied : forall c : call, Space -> answer c -> Space -> Prop :=
| ap_put_mismatch m k b d :
    sha256 b <> d -> applied (CPut k b d) m (Err (IntegrityViolation DigestMismatch)) m
| ap_put_rejected m k b d e :
    sha256 b = d -> m !! k = Some e -> applied (CPut k b d) m (Ok Rejected) m
| ap_put_committed m k b d v t :
    sha256 b = d -> m !! k = None -> is_u64 t ->
    applied (CPut k b d) m (Ok (Committed v))
      (<[k := {| e_body := b; e_version := v; e_time := t |}]> m)
| ap_cas_mismatch m k b d v :
    sha256 b <> d -> applied (CCas k b d v) m (Err (IntegrityViolation DigestMismatch)) m
| ap_cas_absent m k b d v :
    sha256 b = d -> m !! k = None -> applied (CCas k b d v) m (Err NotFound) m
| ap_cas_rejected m k b d v e :
    sha256 b = d -> m !! k = Some e -> e_version e <> v -> applied (CCas k b d v) m (Ok Rejected) m
| ap_cas_committed m k b d v e v' t :
    sha256 b = d -> m !! k = Some e -> e_version e = v -> is_u64 t ->
    applied (CCas k b d v) m (Ok (Committed v'))
      (<[k := {| e_body := b; e_version := v'; e_time := t |}]> m)
| ap_get_absent m k r :
    m !! k = None -> applied (CGet k r) m (Err NotFound) m
| ap_get_range m k s e x :
    m !! k = Some x -> (e <= s \/ Z.of_nat (length (e_body x)) < e) ->
    applied (CGet k (Some (s, e))) m (Err NotFound) m
| ap_get_whole m k x :
    m !! k = Some x -> applied (CGet k None) m (Ok {| o_meta := meta_of x; o_body := e_body x |}) m
| ap_get_slice m k s e x :
    m !! k = Some x -> s < e -> e <= Z.of_nat (length (e_body x)) ->
    applied (CGet k (Some (s, e))) m (Ok {| o_meta := meta_of x; o_body := slice (e_body x) s e |}) m
| ap_head_absent m k : m !! k = None -> applied (CHead k) m (Err NotFound) m
| ap_head m k x : m !! k = Some x -> applied (CHead k) m (Ok (meta_of x)) m
| ap_list m p a n pg : page_of m p a n pg -> applied (CList p a n) m (Ok pg) m
| ap_delete m k : applied (CDelete k) m (Ok tt) (delete k m).

(** The contract adds the failures of the transport: a call that never
    left (nothing changed), or an ambiguous one, which may or may not have
    been applied. *)
Inductive contract : forall c : call, Space -> answer c -> Space -> Prop :=
| ct_applied c m a m' : applied c m a m' -> contract c m a m'
| ct_transport c m : contract c m (fail_with c (Transport PreTransmit)) m
| ct_unknown_lost c m amb : contract c m (fail_with c (OutcomeUnknown amb)) m
| ct_unknown_done c m a m' amb :
    applied c m a m' -> contract c m (fail_with c (OutcomeUnknown amb)) m'.

(** An implementation keeps the contract: [store_inv n] are the states from
    which [n] more calls can be served (a store whose counters are machine
    integers serves finitely many). *)
Class StoreLaws (S : Type) `{ObjectStore S} := {
  store_inv : nat -> S -> Prop;
  store_view : S -> Space;
  store_inv_weaken : forall n s, store_inv (Datatypes.S n) s -> store_inv n s;
  store_step_inv : forall n c s, store_inv (Datatypes.S n) s -> store_inv n (store_step c s).2;
  store_step_contract : forall n c s, store_inv (Datatypes.S n) s ->
    contract c (store_view s) (store_step c s).1 (store_view (store_step c s).2)
}.

(** ** What the contract gives every client *)

(** Only the named key can change. *)
Definition call_key (c : call) : option bytes :=
  match c with
  | CPut k _ _ | CCas k _ _ _ | CDelete k => Some k
  | _ => None
  end.

Lemma applied_frame c m a m' k :
  applied c m a m' -> call_key c <> Some k -> m' !! k = m !! k.
Proof.
  destruct 1; cbn; intros Hk; try reflexivity.
  1, 2: apply lookup_insert_ne; congruence.
  apply lookup_delete_ne; congruence.
Qed.

Lemma contract_frame c m a m' k :
  contract c m a m' -> call_key c <> Some k -> m' !! k = m !! k.
Proof. destruct 1; eauto using applied_frame. Qed.

(** A conditional create never touches an object that exists. *)
Lemma contract_put_present k b d m a m' e :
  contract (CPut k b d) m a m' -> m !! k = Some e -> m' = m.
Proof.
  intros Hc Hk. assert (forall a m', applied (CPut k b d) m a m' -> m' = m) as Ha.
  { intros a0 m0 Ha. remember (CPut k b d) as c eqn:Ec. destruct Ha; try reflexivity; simplify_eq. }
  remember (CPut k b d) as c eqn:Ec. destruct Hc; subst; eauto.
Qed.

(** What the contract lets a client conclude from each call's answer. *)
Definition call_post (c : call) (m : Space) : answer c -> Space -> Prop :=
  match c return answer c -> Space -> Prop with
  | CPut k b _ => fun a m' =>
      (m' = m \/ m !! k = None /\ exists v t, is_u64 t /\
                   m' = <[k := {| e_body := b; e_version := v; e_time := t |}]> m) /\
      (forall v, a = Ok (Committed v) -> exists e, m' !! k = Some e /\ e_body e = b) /\
      (a = Ok Rejected -> is_Some (m' !! k))
  | CCas k b _ _ => fun _ m' =>
      m' = m \/ exists v t, is_u64 t /\ m' = <[k := {| e_body := b; e_version := v; e_time := t |}]> m
  | CGet k r => fun a m' =>
      m' = m /\
      (r = None -> forall obj, a = Ok obj ->
         exists e, m !! k = Some e /\ o_meta obj = meta_of e /\ o_body obj = e_body e)
  | CHead k => fun a m' =>
      m' = m /\ (forall meta, a = Ok meta -> exists e, m !! k = Some e /\ meta = meta_of e) /\
      (a = Err NotFound -> m !! k = None)
  | CList p cur n => fun a m' => m' = m /\ (forall page, a = Ok page -> page_of m p cur n page)
  | CDelete k => fun _ m' => m' = m \/ m' = delete k m
  end.

Lemma applied_post c m a m' : applied c m a m' -> call_post c m a m'.
Proof.
  destruct 1; cbn; split_and?; try done; intros; simplify_eq;
    first [ solve [eauto 8] | right; split; solve [eauto 8] | eexists; split; [apply lookup_insert_eq|reflexivity] ].
Qed.

(** A transport failure says nothing about the state. *)
Lemma unknown_post c m m' e :
  e <> NotFound -> m' = m \/ (exists a, applied c m a m') -> call_post c m (fail_with c e) m'.
Proof.
  intros He [->|[a Ha]].
  - destruct c; cbn; split_and?; auto; congruence.
  - apply applied_post in Ha. destruct c; cbn in *; destruct_and?; split_and?; auto; congruence.
Qed.

Lemma contract_post c m a m' : contract c m a m' -> call_post c m a m'.
Proof.
  destruct 1; [by apply applied_post|apply unknown_post..]; eauto; done.
Qed.
End Contract.
