(* ===== verification/Memory.v ===== *)
(** [stowq-store/src/memory.rs]: the in-memory store.

    The [BTreeMap] is a finite map whose iteration is the list of its entries
    sorted by key; the two atomic counters are fields of the state.  The mutex
    makes every operation one transition. *)

From stdpp Require Import pretty.
From S2P Require Import Prelude Sha256 Text Store.

Record Stored := { s_body : bytes; s_version : Z; s_store_time_ns : Z }.
#[export] Instance stored_eq_dec : EqDecision Stored.
Proof. solve_decision. Defined.

Record MemoryStore := {
  objects : gmap bytes Stored;
  version_counter : Z;
  clock : Z;
  tick_step_ns : Z
}.

Definition with_tick_step_ns (tick : Z) : option MemoryStore :=
  if 0 <? tick
  then Some {| objects := ∅; version_counter := 1; clock := 1; tick_step_ns := tick |}
  else None.

(** Iteration order of the map. *)
Definition key_le (a b : bytes * Stored) : Prop := bytes_le a.1 b.1.
#[export] Instance key_le_dec : RelDecision key_le.
Proof. intros a b. unfold key_le. apply _. Defined.
Definition entries (m : gmap bytes Stored) : list (bytes * Stored) := merge_sort key_le (map_to_list m).

Definition SnapshotEntry : Type := bytes * bytes * Z * Z.

Definition snapshot_raw (s : MemoryStore) : list SnapshotEntry * Z * Z :=
  (map (fun '(k, x) => (k, s_body x, s_version x, s_store_time_ns x)) (entries (objects s)),
   version_counter s, clock s).

Definition restore_raw (s : MemoryStore) (objs : list SnapshotEntry) (next_version clk : Z) : MemoryStore :=
  {| objects := fold_left (fun m '(k, b, v, t) =>
                  <[k := {| s_body := b; s_version := v; s_store_time_ns := t |}]> m) objs (objects s);
     version_counter := next_version; clock := clk; tick_step_ns := tick_step_ns s |}.

Definition advance_clock_to (s : MemoryStore) (ns : Z) : MemoryStore :=
  {| objects := objects s; version_counter := version_counter s; clock := Z.max (clock s) ns;
     tick_step_ns := tick_step_ns s |}.

(** [next_version] then [next_time]: the pair a write is stamped with, and
    the counters after it ([fetch_add] wraps). *)
Definition next_version (s : MemoryStore) : Z * MemoryStore :=
  (version_counter s,
   {| objects := objects s; version_counter := wrapping_add (version_counter s) 1;
      clock := clock s; tick_step_ns := tick_step_ns s |}).
Definition next_time (s : MemoryStore) : Z * MemoryStore :=
  (wrapping_add (clock s) (tick_step_ns s),
   {| objects := objects s; version_counter := version_counter s;
      clock := wrapping_add (clock s) (tick_step_ns s); tick_step_ns := tick_step_ns s |}).

Definition store_object (s : MemoryStore) (key : bytes) (x : Stored) : MemoryStore :=
  {| objects := <[key := x]> (objects s); version_counter := version_counter s;
     clock := clock s; tick_step_ns := tick_step_ns s |}.

Definition meta_of_stored (x : Stored) : Meta :=
  {| m_version := u64_to_string (s_version x); m_store_time_ns := s_store_time_ns x;
     m_size := Z.of_nat (length (s_body x)) |}.

Section Ops.
Context `{Sha256}.

Definition verify (body sha : bytes) : StoreResult unit :=
  if bytes_eqb (sha256 body) sha then Ok tt else Err (IntegrityViolation DigestMismatch).

(** Stamp and insert: the committing tail of both conditional writes. *)
Definition commit (s : MemoryStore) (key body : bytes) : StoreResult PutOutcome * MemoryStore :=
  let '(version, s) := next_version s in
  let '(store_time_ns, s) := next_time s in
  (Ok (Committed (u64_to_string version)),
   store_object s key {| s_body := body; s_version := version; s_store_time_ns := store_time_ns |}).

Definition put_if_absent (s : MemoryStore) (key body sha : bytes)
  : StoreResult PutOutcome * MemoryStore :=
  match verify body sha with
  | Err e => (Err e, s)
  | Ok _ =>
      match objects s !! key with
      | Some _ => (Ok Rejected, s)
      | None => commit s key body
      end
  end.

Definition cas (s : MemoryStore) (key body sha : bytes) (if_match : Version)
  : StoreResult PutOutcome * MemoryStore :=
  match verify body sha with
  | Err e => (Err e, s)
  | Ok _ =>
      match objects s !! key with
      | None => (Err NotFound, s)
      | Some stored =>
          if negb (bytes_eqb (u64_to_string (s_version stored)) if_match) then (Ok Rejected, s)
          else commit s key body
      end
  end.

Definition get (s : MemoryStore) (key : bytes) (range : option (Z * Z)) : StoreResult Object :=
  match objects s !! key with
  | None => Err NotFound
  | Some stored =>
      let size := Z.of_nat (length (s_body stored)) in
      match range with
      | None => Ok {| o_meta := meta_of_stored stored; o_body := s_body stored |}
      | Some (st, en) =>
          if (en <=? st) || (size <? en) then Err NotFound
          else Ok {| o_meta := meta_of_stored stored; o_body := slice (s_body stored) st en |}
      end
  end.

Definition head (s : MemoryStore) (key : bytes) : StoreResult Meta :=
  match objects s !! key with
  | None => Err NotFound
  | Some stored => Ok (meta_of_stored stored)
  end.

(** The scan of [list] over the sorted entries at or after the cursor. *)
Fixpoint list_scan (es : list (bytes * Stored)) (prefix : bytes) (after : option bytes) (limit : nat)
    (items : list Listing) (last_key : option bytes) : Page :=
  match es with
  | [] => {| p_items := items; p_next_after := None |}
  | (k, stored) :: es =>
      if match after with Some a => bytes_leb k a | None => false end
      then list_scan es prefix after limit items last_key
      else if negb (starts_with prefix k) then list_scan es prefix after limit items last_key
      else if (length items =? limit)%nat then {| p_items := items; p_next_after := last_key |}
      else list_scan es prefix after limit
             (items ++ [{| l_key := k; l_meta := meta_of_stored stored |}]) (Some k)
  end.

Definition list_page (s : MemoryStore) (prefix : bytes) (after : option bytes) (limit : nat)
  : StoreResult Page :=
  let start := default [] after in
  let range := filter (fun e : bytes * Stored => bytes_le start e.1) (entries (objects s)) in
  Ok (list_scan range prefix after limit [] None).

Definition delete_key (s : MemoryStore) (key : bytes) : StoreResult unit * MemoryStore :=
  (Ok tt,
   {| objects := delete key (objects s); version_counter := version_counter s;
      clock := clock s; tick_step_ns := tick_step_ns s |}).

#[export] Instance memory_store : ObjectStore MemoryStore := fun c =>
  match c return MemoryStore -> answer c * MemoryStore with
  | CPut k b d => fun s => put_if_absent s k b d
  | CCas k b d v => fun s => cas s k b d v
  | CGet k r => fun s => (get s k r, s)
  | CHead k => fun s => (head s k, s)
  | CList p a n => fun s => (list_page s p a n, s)
  | CDelete k => fun s => delete_key s k
  end.
End Ops.

(* ------------------------------------------------------------------ *)
(** * Invariant and view *)

Definition to_entry (x : Stored) : Entry :=
  {| e_body := s_body x; e_version := u64_to_string (s_version x); e_time := s_store_time_ns x |}.
Definition view (s : MemoryStore) : Space := to_entry <$> objects s.

(** Every version stamped so far is below the counter, every store time at
    or below the clock, and neither counter is about to wrap: [left] more
    writes fit. *)
Definition room (n : nat) (s : MemoryStore) : Prop :=
  0 <= version_counter s /\ version_counter s + Z.of_nat n <= u64_max /\
  0 < tick_step_ns s /\ 0 <= clock s /\ clock s + Z.of_nat n * tick_step_ns s <= u64_max.
Definition stamped (s : MemoryStore) : Prop :=
  map_Forall (fun _ x => 0 <= s_version x < version_counter s /\ 0 <= s_store_time_ns x <= clock s) (objects s).

Lemma next_time_u64 n s : room (S n) s -> is_u64 (clock s + tick_step_ns s).
Proof. unfold room, is_u64. nia. Qed.

(** A committed write, when there is room for it. *)
Lemma commit_room n s key body :
  room (S n) s -> stamped s ->
  exists v t, (commit s key body).1 = Ok (Committed (u64_to_string v)) /\
    objects (commit s key body).2 =
      <[key := {| s_body := body; s_version := v; s_store_time_ns := t |}]> (objects s) /\
    v = version_counter s /\ t = clock s + tick_step_ns s /\
    room n (commit s key body).2 /\ stamped (commit s key body).2.
Proof.
  intros (H1 & H2 & H3 & H4 & H5) Hst. rewrite Nat2Z.inj_succ in *.
  unfold commit, next_version, next_time, store_object, room, stamped. cbn.
  rewrite !wrapping_add_small by nia.
  eexists _, _. split_and!; try reflexivity; try lia; try nia.
  apply map_Forall_insert_2; cbn; [lia|].
  eapply map_Forall_impl; [exact Hst|]. cbn. intros k x. lia.
Qed.

Lemma view_insert s k x o vc cl ts :
  o = <[k := x]> (objects s) ->
  view {| objects := o; version_counter := vc; clock := cl; tick_step_ns := ts |}
  = <[k := to_entry x]> (view s).
Proof. intros ->. unfold view. cbn. apply fmap_insert. Qed.

Lemma view_lookup s k : view s !! k = to_entry <$> objects s !! k.
Proof. apply lookup_fmap. Qed.

Lemma view_commit n s key body :
  room (S n) s -> stamped s ->
  view (commit s key body).2 =
    <[key := {| e_body := body; e_version := u64_to_string (version_counter s);
                e_time := clock s + tick_step_ns s |}]> (view s).
Proof.
  intros Hr Hs. destruct (commit_room n s key body Hr Hs) as (v & t & _ & Ho & -> & -> & _).
  unfold view. rewrite Ho, fmap_insert. done.
Qed.

(* ------------------------------------------------------------------ *)
(** * Listing *)

#[export] Instance key_le_trans : Transitive key_le.
Proof. intros a b c. unfold key_le. apply bytes_le_trans. Qed.
#[export] Instance key_le_total : Total key_le.
Proof. intros a b. unfold key_le. apply bytes_le_total. Qed.

(** Sorted entries of a map have strictly increasing keys. *)
Lemma sorted_strict (l : list (bytes * Stored)) :
  StronglySorted key_le l -> NoDup (map fst l) -> StronglySorted bytes_lt (map fst l).
Proof.
  induction 1 as [|x l Hs IH HF]; cbn; intros Hnd; [constructor|].
  inversion Hnd as [|? ? Hx Hnd']; subst. constructor; [auto|].
  rewrite Forall_map. rewrite Forall_forall in HF |- *. intros y Hy.
  specialize (HF y Hy). unfold key_le in HF. cbn. apply bytes_le_lteq in HF as [|E]; [done|].
  exfalso. apply Hx. rewrite E. by apply (list_elem_of_fmap_2 fst).
Qed.

Lemma entries_perm m : entries m ≡ₚ map_to_list m.
Proof. apply merge_sort_Permutation. Qed.

Lemma entries_sorted m : StronglySorted bytes_lt (map fst (entries m)).
Proof.
  apply sorted_strict; [apply (StronglySorted_merge_sort key_le)|].
  change (map fst (entries m)) with ((entries m).*1).
  rewrite entries_perm. apply NoDup_fst_map_to_list.
Qed.

Lemma elem_of_entries m k x : (k, x) ∈ entries m <-> m !! k = Some x.
Proof. rewrite entries_perm. apply elem_of_map_to_list. Qed.

(** The scan as a filter, then a cut at the limit. *)
Definition listed (prefix : bytes) (after : option bytes) (e : bytes * Stored) : bool :=
  match after with Some a => negb (bytes_leb e.1 a) | None => true end && starts_with prefix e.1.
Definition to_listing (e : bytes * Stored) : Listing :=
  {| l_key := e.1; l_meta := meta_of_stored e.2 |}.

Lemma list_scan_filter es prefix after limit items last_key :
  let sel := List.filter (listed prefix after) es in
  (length items <= limit)%nat ->
  list_scan es prefix after limit items last_key =
  if (length items + length sel <=? limit)%nat
  then {| p_items := items ++ map to_listing sel; p_next_after := None |}
  else {| p_items := items ++ map to_listing (take (limit - length items) sel);
          p_next_after :=
            match last (take (limit - length items) sel) with Some e => Some e.1 | None => last_key end |}.
Proof.
  revert items last_key. induction es as [|[k x] es IH]; intros items last_key sel Hl; subst sel.
  { cbn. rewrite Nat.add_0_r, (proj2 (Nat.leb_le _ _)) by done. by rewrite app_nil_r. }
  cbn [list_scan List.filter].
  assert (listed prefix after (k, x) =
          negb (match after with Some a => bytes_leb k a | None => false end) && starts_with prefix k)
    as -> by (by destruct after).
  destruct (match after with Some a => bytes_leb k a | None => false end); cbn [negb andb];
    [by rewrite IH|].
  destruct (starts_with prefix k); cbn [negb]; [|by rewrite IH].
  set (sel := List.filter (listed prefix after) es) in *. cbn [length].
  destruct (Nat.eqb_spec (length items) limit) as [->|Hne].
  { rewrite (proj2 (Nat.leb_gt _ _)) by lia. rewrite Nat.sub_diag. cbn. by rewrite app_nil_r. }
  rewrite IH by (rewrite length_app; cbn; lia). fold sel. rewrite length_app. cbn [length].
  replace (length items + S (length sel))%nat with (length items + 1 + length sel)%nat by lia.
  destruct (Nat.leb_spec (length items + 1 + length sel) limit).
  - rewrite <- app_assoc. done.
  - replace (limit - length items)%nat with (S (limit - (length items + 1)))%nat by lia.
    cbn [take map]. rewrite <- app_assoc. cbn [app]. f_equal.
    rewrite last_cons. destruct (last (take _ sel)); done.
Qed.

Lemma sorted_filter {A} (f : A -> bytes) (P : A -> bool) l :
  StronglySorted bytes_lt (map f l) -> StronglySorted bytes_lt (map f (List.filter P l)).
Proof.
  induction l as [|x l IH]; cbn; [done|]. intros [Hs HF]%StronglySorted_inv.
  destruct (P x); [|auto]. cbn. constructor; [auto|].
  rewrite Forall_map in HF |- *. rewrite Forall_forall in HF |- *. intros y Hy. apply HF.
  rewrite list_elem_of_In in Hy |- *. by apply List.filter_In in Hy as [Hy _].
Qed.

Lemma bytes_leb_le a b : bytes_leb a b = true <-> bytes_le a b.
Proof. unfold bytes_leb, bytes_le. destruct (bytes_cmp a b); split; congruence. Qed.

Lemma bytes_le_nil a : bytes_le [] a.
Proof. unfold bytes_le. by destruct a. Qed.

Lemma listed_in_listing prefix after k x :
  listed prefix after (k, x) = true <-> in_listing prefix after k.
Proof.
  unfold listed, in_listing. cbn. rewrite andb_true_iff.
  destruct after as [a|]; [|tauto].
  rewrite negb_true_iff, <- not_true_iff_false, bytes_leb_le, bytes_lt_not_le. tauto.
Qed.

(** The selected entries: sorted, and exactly those of the listing. *)
Definition selection (m : gmap bytes Stored) prefix (after : option bytes) : list (bytes * Stored) :=
  List.filter (listed prefix after)
    (filter (fun e : bytes * Stored => bytes_le (default [] after) e.1) (entries m)).

Lemma selection_elem m prefix after k x :
  (k, x) ∈ selection m prefix after <-> m !! k = Some x /\ in_listing prefix after k.
Proof.
  unfold selection. rewrite list_elem_of_In, List.filter_In, <- list_elem_of_In,
    list_elem_of_filter, elem_of_entries, listed_in_listing.
  split; [tauto|]. intros [Hk Hin]. split_and!; try done. cbn.
  destruct Hin as [_ Ha]. destruct after as [a|]; cbn; [|apply bytes_le_nil].
  apply bytes_le_lteq. by left.
Qed.

Lemma filter_as_List {A} (P : A -> Prop) `{!forall x, Decision (P x)} (l : list A) :
  filter P l = List.filter (fun x => bool_decide (P x)) l.
Proof.
  induction l as [|x l IH]; [done|]. rewrite filter_cons. cbn.
  case_decide as Hx; [rewrite bool_decide_eq_true_2|rewrite bool_decide_eq_false_2]; by f_equal || done.
Qed.

Lemma selection_sorted m prefix after : StronglySorted bytes_lt (map fst (selection m prefix after)).
Proof.
  unfold selection. apply sorted_filter. rewrite filter_as_List. apply sorted_filter, entries_sorted.
Qed.

Lemma list_page_selection s prefix after limit :
  let sel := selection (objects s) prefix after in
  list_page s prefix after limit =
  Ok (if (length sel <=? limit)%nat
      then {| p_items := map to_listing sel; p_next_after := None |}
      else {| p_items := map to_listing (take limit sel);
              p_next_after := fst <$> last (take limit sel) |}).
Proof.
  unfold list_page. rewrite list_scan_filter by (cbn; lia). cbn [length app Nat.add].
  rewrite Nat.sub_0_r. fold (selection (objects s) prefix after).
  destruct (_ <=? _)%nat; [done|]. by destruct (last _).
Qed.

Lemma map_l_key sel : map l_key (map to_listing sel) = map fst sel.
Proof. by rewrite map_map. Qed.

Lemma list_page_contract s prefix after limit :
  exists p, list_page s prefix after limit = Ok p /\ page_of (view s) prefix after limit p.
Proof.
  rewrite list_page_selection. cbn zeta. set (sel := selection (objects s) prefix after).
  pose proof (selection_sorted (objects s) prefix after) as Hs. fold sel in Hs.
  eexists. split; [reflexivity|].
  assert (forall l, (forall e, e ∈ l -> e ∈ sel) ->
    Forall (fun l => exists e, view s !! l_key l = Some e /\ l_meta l = meta_of e /\
                     in_listing prefix after (l_key l)) (map to_listing l)) as Hitems.
  { intros l Hl. rewrite Forall_map, Forall_forall. intros [k x] Hkx.
    apply Hl, selection_elem in Hkx as [Hk Hin]. exists (to_entry x). cbn.
    rewrite view_lookup, Hk. done. }
  assert (forall k e, view s !! k = Some e -> in_listing prefix after k -> exists x, (k, x) ∈ sel) as Hall.
  { intros k e He Hin. rewrite view_lookup in He. destruct (objects s !! k) as [x|] eqn:E; [|done].
    exists x. by apply selection_elem. }
  destruct (Nat.leb_spec (length sel) limit) as [Hle|Hgt]; unfold page_of; cbn [p_items p_next_after];
    rewrite map_l_key; split_and!; try done.
  - apply Hitems. done.
  - by rewrite length_map.
  - intros k e He Hin. left. destruct (Hall k e He Hin) as [x Hx].
    by apply (list_elem_of_fmap_2 fst) in Hx.
  - rewrite <- (take_drop limit sel), map_app in Hs. by apply StronglySorted_app_1_l in Hs.
  - apply Hitems. intros e (i & Hi & _)%elem_of_take. by eapply list_elem_of_lookup_2.
  - rewrite length_map, length_take. lia.
  - intros k e He Hin. destruct (Hall k e He Hin) as [x Hx].
    rewrite <- (take_drop limit sel), elem_of_app in Hx. destruct Hx as [Hx|Hx].
    { left. by apply (list_elem_of_fmap_2 fst) in Hx. }
    right. split.
    + destruct limit as [|l]; [by right|left]. clearbody sel. destruct sel as [|e0 sel']; [cbn in Hgt; lia|]. cbn [take].
      rewrite last_cons. destruct (last (take l sel')); eauto.
    + rewrite <- (take_drop limit sel), map_app in Hs.
      rewrite Forall_map, Forall_forall. intros y Hy.
      eapply StronglySorted_app_1_elem_of; [exact Hs|by apply (list_elem_of_fmap_2 fst)|].
      by apply (list_elem_of_fmap_2 fst) in Hx.
  - intros a Ha. change (map fst (take limit sel)) with ((take limit sel).*1).
    by rewrite fmap_last.
Qed.

(* ------------------------------------------------------------------ *)
(** * The memory store keeps the contract *)

Section Laws.
Context `{Sha256}.

Lemma verify_cases body sha :
  verify body sha = Ok tt /\ sha256 body = sha \/
  verify body sha = Err (IntegrityViolation DigestMismatch) /\ sha256 body <> sha.
Proof. unfold verify, bytes_eqb. case_bool_decide; auto. Qed.

Lemma put_applied n s k b d :
  room (S n) s -> stamped s ->
  applied (CPut k b d) (view s) (put_if_absent s k b d).1 (view (put_if_absent s k b d).2) /\
  room n (put_if_absent s k b d).2 /\ stamped (put_if_absent s k b d).2.
Proof.
  intros Hr Hs. assert (room n s) as Hr' by (unfold room in *; nia).
  unfold put_if_absent. destruct (verify_cases b d) as [[-> Hd]|[-> Hd]]; [|by split; [apply ap_put_mismatch|]].
  destruct (objects s !! k) as [x|] eqn:Hk.
  - split; [|done]. cbn [fst snd]. apply (ap_put_rejected _ _ _ _ (to_entry x)); [done|]. by rewrite view_lookup, Hk.
  - destruct (commit_room n s k b Hr Hs) as (v & t & -> & Ho & -> & -> & Hr2 & Hs2).
    split; [|done]. rewrite (view_commit n) by done.
    apply ap_put_committed; [done| |by eapply next_time_u64]. by rewrite view_lookup, Hk.
Qed.

Lemma cas_applied n s k b d v :
  room (S n) s -> stamped s ->
  applied (CCas k b d v) (view s) (cas s k b d v).1 (view (cas s k b d v).2) /\
  room n (cas s k b d v).2 /\ stamped (cas s k b d v).2.
Proof.
  intros Hr Hs. assert (room n s) as Hr' by (unfold room in *; nia).
  unfold cas. destruct (verify_cases b d) as [[-> Hd]|[-> Hd]]; [|by split; [apply ap_cas_mismatch|]].
  destruct (objects s !! k) as [x|] eqn:Hk.
  2:{ split; [|done]. cbn [fst snd]. apply ap_cas_absent; [done|]. by rewrite view_lookup, Hk. }
  assert (view s !! k = Some (to_entry x)) as Hv by (by rewrite view_lookup, Hk).
  unfold bytes_eqb. case_bool_decide as Hm; cbn [negb].
  - destruct (commit_room n s k b Hr Hs) as (v' & t & -> & Ho & -> & -> & Hr2 & Hs2).
    split; [|done]. rewrite (view_commit n) by done.
    apply (ap_cas_committed _ _ _ _ _ (to_entry x)); try done. by eapply next_time_u64.
  - split; [|done]. by apply (ap_cas_rejected _ _ _ _ _ (to_entry x)).
Qed.

Lemma get_applied s k r : applied (CGet k r) (view s) (get s k r) (view s).
Proof.
  unfold get. destruct (objects s !! k) as [x|] eqn:Hk.
  - assert (view s !! k = Some (to_entry x)) as Hv by (by rewrite view_lookup, Hk).
    destruct r as [[st en]|]; [|by apply (ap_get_whole _ _ (to_entry x))].
    destruct ((en <=? st) || (Z.of_nat (length (s_body x)) <? en)) eqn:E.
    + apply (ap_get_range _ _ _ _ (to_entry x)); [done|]. cbn.
      apply orb_true_iff in E as [?%Z.leb_le|?%Z.ltb_lt]; auto.
    + apply orb_false_iff in E as [?%Z.leb_gt ?%Z.ltb_ge].
      by apply (ap_get_slice _ _ _ _ (to_entry x)).
  - apply ap_get_absent. by rewrite view_lookup, Hk.
Qed.

Lemma head_applied s k : applied (CHead k) (view s) (head s k) (view s).
Proof.
  unfold head. destruct (objects s !! k) as [x|] eqn:Hk.
  - apply (ap_head _ _ (to_entry x)). by rewrite view_lookup, Hk.
  - apply ap_head_absent. by rewrite view_lookup, Hk.
Qed.

Lemma delete_applied n s k :
  room (S n) s -> stamped s ->
  applied (CDelete k) (view s) (delete_key s k).1 (view (delete_key s k).2) /\
  room n (delete_key s k).2 /\ stamped (delete_key s k).2.
Proof.
  intros Hr Hs. cbn [delete_key fst snd]. split.
  - assert (view (delete_key s k).2 = delete k (view s)) as E
      by (unfold view; cbn; by rewrite fmap_delete).
    cbn [delete_key snd] in E. rewrite E. apply ap_delete.
  - split; [unfold room in *; cbn; nia|]. unfold stamped in *. cbn. by apply map_Forall_delete.
Qed.

(** Every call with room left is applied faithfully. *)
Lemma memory_applied n c s :
  room (S n) s -> stamped s ->
  applied c (view s) (store_step c s).1 (view (store_step c s).2) /\
  room n (store_step c s).2 /\ stamped (store_step c s).2.
Proof.
  intros Hr Hs. assert (room n s) as Hr' by (unfold room in *; nia).
  destruct c as [| | | |pre after limit|]; cbn [store_step memory_store fst snd];
    auto using put_applied, cas_applied, get_applied, head_applied, delete_applied.
  destruct (list_page_contract s pre after limit) as (p & -> & Hp).
  split; [by apply ap_list|done].
Qed.

Lemma room_weaken n s : room (S n) s -> room n s.
Proof. unfold room. nia. Qed.

#[export] Instance memory_laws : StoreLaws MemoryStore := {
  store_inv n s := room n s /\ stamped s;
  store_view := view;
  store_inv_weaken n s H := conj (room_weaken n s (proj1 H)) (proj2 H);
  store_step_inv n c s H := proj2 (memory_applied n c s (proj1 H) (proj2 H));
  store_step_contract n c s H :=
    ct_applied c _ _ _ (proj1 (memory_applied n c s (proj1 H) (proj2 H)))
}.
End Laws.

(* ------------------------------------------------------------------ *)
(** * Properties *)

Definition fresh_store : MemoryStore :=
  {| objects := ∅; version_counter := 1; clock := 1; tick_step_ns := 1 |}.
Definition sample_store : MemoryStore :=
  (@put_if_absent fips (@put_if_absent fips (@put_if_absent fips fresh_store
     ¶"jobs/a" ¶"one" (Fips.sha256 ¶"one")).2
     ¶"jobs/b" ¶"two" (Fips.sha256 ¶"two")).2
     ¶"claims/a" ¶"three" (Fips.sha256 ¶"three")).2.

(** C30: the in-memory store implements the store contract: with room left in
    its counters, each call of the trait is the contract's fault-free
    transition on the abstract key space (conditional create and overwrite
    decided by presence and version, digests verified before writing, reads
    and sorted pages exact), and stays so for the calls that follow. *)
Theorem memory_refines_contract `{Sha256} (n : nat) (c : call) (s : MemoryStore)
  (Hr : room (S n) s) (Hs : stamped s) :
  applied c (view s) (store_step c s).1 (view (store_step c s).2) /\
  room n (store_step c s).2 /\ stamped (store_step c s).2.
Proof. by apply memory_applied. Qed.

Lemma memory_refines_contract_witness :
  room 5 sample_store /\ stamped sample_store /\
  room 4 (@store_step _ (@memory_store fips) (CDelete ¶"jobs/a") sample_store).2.
Proof.
  assert (room 5 sample_store) as Hr by (vm_compute; repeat split; discriminate || reflexivity).
  assert (stamped sample_store) as Hs
    by (unfold stamped; apply (bool_decide_eq_true_1 _); vm_compute; reflexivity).
  split; [exact Hr|]. split; [exact Hs|].
  exact (proj1 (proj2 (@memory_refines_contract fips 4 (CDelete ¶"jobs/a") sample_store Hr Hs))).
Defined.

(** Store times are strictly monotone: a write that commits, created or
    overwritten, is stamped later than every object of the store, with a
    version no object carries. *)
Theorem store_times_monotone `{Sha256} (n : nat) (s : MemoryStore) (key body : bytes)
  (Hr : room (S n) s) (Hs : stamped s) :
  exists x, objects (commit s key body).2 !! key = Some x /\ s_body x = body /\
    forall k y, objects s !! k = Some y ->
      s_store_time_ns y < s_store_time_ns x /\ s_version y < s_version x.
Proof.
  destruct (commit_room n s key body Hr Hs) as (v & t & _ & -> & -> & -> & _).
  eexists. rewrite lookup_insert_eq. split; [done|]. split; [done|]. cbn.
  intros k y Hy. specialize (Hs k y Hy). cbn in Hs. unfold room in Hr. lia.
Qed.

(** Paging through a listing the way the queue's scans do: follow
    [next_after] until it is absent. *)
Fixpoint page_through (fuel : nat) (s : MemoryStore) (prefix : bytes) (after : option bytes) (limit : nat)
  : option (list Listing) :=
  match fuel with
  | O => None
  | S fuel =>
      match list_page s prefix after limit with
      | Err _ => None
      | Ok p =>
          match p_next_after p with
          | None => Some (p_items p)
          | Some a => (fun rest => p_items p ++ rest) <$> page_through fuel s prefix (Some a) limit
          end
      end
  end.

Definition key_lt (a b : bytes * Stored) : Prop := bytes_lt a.1 b.1.

Lemma sorted_keys (l : list (bytes * Stored)) : StronglySorted bytes_lt (map fst l) -> StronglySorted key_lt l.
Proof.
  induction l as [|x l IH]; cbn; intros Hs; [constructor|].
  apply StronglySorted_inv in Hs as [Hs HF]. constructor; [auto|]. by rewrite Forall_map in HF.
Qed.

Lemma sorted_nodup l : StronglySorted key_lt l -> NoDup l.
Proof.
  induction 1 as [|x l Hs IH HF]; constructor; [|done]. intros Hx.
  rewrite Forall_forall in HF. by apply (bytes_lt_irrefl x.1), HF.
Qed.

(** A strictly sorted list is determined by its elements. *)
Lemma sorted_ext (l1 l2 : list (bytes * Stored)) :
  StronglySorted bytes_lt (map fst l1) -> StronglySorted bytes_lt (map fst l2) ->
  (forall x, x ∈ l1 <-> x ∈ l2) -> l1 = l2.
Proof.
  intros H1%sorted_keys H2%sorted_keys Hx.
  assert (AntiSymm (=) key_lt) as Ha.
  { intros a b Hab Hba. exfalso. eapply bytes_lt_irrefl, bytes_lt_trans; [exact Hab|exact Hba]. }
  apply (StronglySorted_unique key_lt); try done. apply NoDup_Permutation; auto using sorted_nodup.
Qed.

(** Resuming after the last key of a sorted prefix selects the remainder. *)
Lemma selection_resume m prefix after t d e :
  selection m prefix after = (t ++ [e]) ++ d -> selection m prefix (Some e.1) = d.
Proof.
  intros E. pose proof (selection_sorted m prefix after) as Hs. rewrite E, map_app in Hs.
  apply sorted_ext; [apply selection_sorted|by apply StronglySorted_app_1_r in Hs|].
  assert (forall x, x ∈ d -> bytes_lt e.1 x.1) as Hd.
  { intros x Hx. eapply StronglySorted_app_1_elem_of; [exact Hs|rewrite map_app; set_solver|].
    by apply (list_elem_of_fmap_2 fst). }
  assert (forall x, x ∈ t ++ [e] -> bytes_le x.1 e.1) as Ht.
  { rewrite map_app in Hs. apply StronglySorted_app_1_l in Hs. intros x [Hx|Hx]%elem_of_app.
    - apply bytes_le_lteq. left. eapply StronglySorted_app_1_elem_of; [exact Hs| |set_solver].
      by apply (list_elem_of_fmap_2 fst).
    - apply list_elem_of_singleton in Hx as ->. reflexivity. }
  assert (e ∈ selection m prefix after) as He by (rewrite E; set_solver).
  destruct e as [ke xe]. apply selection_elem in He as [_ [_ Ha]].
  intros [k x]. rewrite selection_elem. split.
  - intros [Hk [Hp Hlt]]. assert ((k, x) ∈ selection m prefix after) as Hin.
    { apply selection_elem. split; [done|]. split; [done|].
      destruct after; [by eapply bytes_lt_trans|done]. }
    rewrite E in Hin. apply elem_of_app in Hin as [Hin|]; [|done].
    exfalso. apply Ht in Hin. by apply bytes_lt_not_le in Hlt.
  - intros Hin. assert ((k, x) ∈ selection m prefix after) as Hs' by (rewrite E; set_solver).
    apply selection_elem in Hs' as [Hk [Hp _]]. split; [done|]. split; [done|]. by apply Hd in Hin.
Qed.

Lemma pagination_aux (s : MemoryStore) (prefix : bytes) (after : option bytes) (limit fuel : nat)
  (Hl : (0 < limit)%nat) (Hf : (length (selection (objects s) prefix after) < fuel)%nat) :
  exists items, page_through fuel s prefix after limit = Some items /\
    StronglySorted bytes_lt (map l_key items) /\
    forall k m, (exists i, i ∈ items /\ l_key i = k /\ l_meta i = m) <->
      exists x, objects s !! k = Some x /\ meta_of_stored x = m /\ in_listing prefix after k.
Proof.
  exists (map to_listing (selection (objects s) prefix after)). split.
  - revert after Hf. induction fuel as [|fuel IH]; intros after Hf; [lia|]. cbn [page_through].
    rewrite list_page_selection. destruct (Nat.leb_spec (length (selection (objects s) prefix after)) limit).
    { done. }
    cbn [p_next_after p_items]. set (sel := selection (objects s) prefix after) in *.
    pose proof (take_drop limit sel) as E.
    destruct (last (take limit sel)) as [e|] eqn:Hlast.
    2:{ apply last_None in Hlast. apply (f_equal length) in Hlast. rewrite length_take in Hlast.
        cbn in Hlast. lia. }
    cbn [fmap option_fmap option_map]. apply last_Some in Hlast as [t Ht].
    pose proof E as E'. rewrite Ht in E'. symmetry in E'.
    pose proof (selection_resume (objects s) prefix after t (drop limit sel) e E') as Hres.
    rewrite IH; rewrite Hres; [|rewrite length_drop; lia].
    cbn. f_equal. by rewrite <- map_app, E.
  - rewrite map_l_key. split; [apply selection_sorted|]. intros k m. split.
    + intros (i & Hi & <- & <-). apply list_elem_of_In, in_map_iff in Hi as ([k x] & <- & Hi).
      apply list_elem_of_In, selection_elem in Hi as [Hk Hin]. by exists x.
    + intros (x & Hk & <- & Hin). exists (to_listing (k, x)). split; [|done].
      apply list_elem_of_In, in_map, list_elem_of_In, selection_elem. done.
Qed.

(** C31: pagination is complete: with any positive page size, following
    [next_after] over a quiescent store returns every object under the prefix
    exactly once, in key order, and stops. *)
Theorem pagination_complete (s : MemoryStore) (prefix : bytes) (after : option bytes) (limit fuel : nat)
  (Hl : (0 < limit)%nat) (Hf : (length (selection (objects s) prefix after) < fuel)%nat) :
  exists items, page_through fuel s prefix after limit = Some items /\
    StronglySorted bytes_lt (map l_key items) /\
    forall k m, (exists i, i ∈ items /\ l_key i = k /\ l_meta i = m) <->
      exists x, objects s !! k = Some x /\ meta_of_stored x = m /\ in_listing prefix after k.
Proof. exact (pagination_aux s prefix after limit fuel Hl Hf). Qed.

Lemma pagination_complete_witness :
  (0 < 1)%nat /\ (length (selection (objects sample_store) ¶"jobs/" None) < 3)%nat /\
  exists items, page_through 3 sample_store ¶"jobs/" None 1 = Some items /\
    StronglySorted bytes_lt (map l_key items).
Proof.
  assert (0 < 1)%nat as H1 by lia.
  assert (length (selection (objects sample_store) ¶"jobs/" None) < 3)%nat as H2
    by (vm_compute; lia).
  split; [exact H1|]. split; [exact H2|].
  destruct (pagination_complete sample_store ¶"jobs/" None 1 3 H1 H2) as (items & Hi & Hs & _).
  exists items. split; assumption.
Defined.

(** A snapshot restored into a fresh store with the same tick is the
    store itself: contents, versions, store times and counters. *)
Theorem restore_snapshot (s : MemoryStore) :
  let '(objs, nv, clk) := snapshot_raw s in
  restore_raw {| objects := ∅; version_counter := 1; clock := 1; tick_step_ns := tick_step_ns s |}
    objs nv clk = s.
Proof.
  unfold snapshot_raw, restore_raw. cbn. destruct s as [m vc cl ts]. cbn. f_equal.
  assert (forall l (m0 : gmap bytes Stored), NoDup (l.*1) -> (forall k, k ∈ l.*1 -> m0 !! k = None) ->
    fold_left (fun m '(k, b, v, t) =>
                  <[k := {| s_body := b; s_version := v; s_store_time_ns := t |}]> m)
      (map (fun '(k, x) => (k, s_body x, s_version x, s_store_time_ns x)) l) m0
    = list_to_map l ∪ m0) as Hfold.
  { induction l as [|[k x] l IH]; intros m0 Hnd Hm0; cbn; [by rewrite map_empty_union|].
    inversion Hnd as [|? ? Hk Hnd']; subst. rewrite IH; [|done|].
    - destruct x; cbn. rewrite <- insert_union_l, insert_union_r; [done|].
      by apply not_elem_of_list_to_map_1.
    - intros k' Hk'. rewrite lookup_insert_ne by (intros ->; done). apply Hm0. cbn. set_solver. }
  rewrite Hfold.
  - rewrite map_union_empty. transitivity (list_to_map (M := gmap bytes Stored) (map_to_list m));
      [|apply list_to_map_to_list].
    apply list_to_map_proper; [|apply entries_perm]. rewrite entries_perm. apply NoDup_fst_map_to_list.
  - rewrite entries_perm. apply NoDup_fst_map_to_list.
  - intros. apply lookup_empty.
Qed.
