(* ===== verification/Injector.v ===== *)
(** [stowq-store/src/injector.rs]: the fault injector over any store.

    Its laws are proved from the wrapped store's: an injected fault is one of
    the transport failures the contract allows. *)

From S2P Require Import Prelude Sha256 Store Memory.

Inductive Fault := FPreTransmit | FPostTransmit | FPostTransmitAfter.
Inductive Op := OpPutIfAbsent | OpCas | OpGet | OpHead | OpList | OpDelete.
Inductive Action := Pass | Fail (e : StoreError) | FailAfter.

#[export] Instance op_eq_dec : EqDecision Op.
Proof. solve_decision. Defined.

Record FaultPlan := { fp_op : Op; fp_at : list nat; fp_fault : Fault }.
Record PlanState := { ps_count : nat; ps_remaining : list nat; ps_fired : nat }.
Record Injector (S : Type) := {
  inj_store : S;
  inj_plans : list (FaultPlan * PlanState);
  inj_calls : nat
}.
Arguments inj_store {S} _. Arguments inj_plans {S} _. Arguments inj_calls {S} _.

(** [sort_unstable] then [dedup] (adjacent duplicates). *)
Fixpoint dedup (l : list nat) : list nat :=
  match l with
  | x :: (y :: _) as t => if (x =? y)%nat then dedup t else x :: dedup t
  | l => l
  end.

Definition plan_state (p : FaultPlan) : PlanState :=
  {| ps_count := 0; ps_remaining := dedup (merge_sort le (fp_at p)); ps_fired := 0 |}.
Definition injector_new {S} (store : S) (plans : list FaultPlan) : Injector S :=
  {| inj_store := store; inj_plans := map (fun p => (p, plan_state p)) plans; inj_calls := 0 |}.

Definition total_calls {S} (i : Injector S) : nat := inj_calls i.
Definition fired {S} (i : Injector S) : list nat := map (fun p => ps_fired p.2) (inj_plans i).

Definition action_of (f : Fault) : Action :=
  match f with
  | FPreTransmit => Fail (Transport PreTransmit)
  | FPostTransmit => Fail (OutcomeUnknown ConnectionLost)
  | FPostTransmitAfter => FailAfter
  end.

(** The loop of [check] over the plans: the first due plan fires, and the
    plans after it do not see the call. *)
Fixpoint check_plans (op : Op) (plans : list (FaultPlan * PlanState))
  : Action * list (FaultPlan * PlanState) :=
  match plans with
  | [] => (Pass, [])
  | (plan, state) :: plans =>
      if negb (bool_decide (fp_op plan = op)) then
        let '(a, plans) := check_plans op plans in (a, (plan, state) :: plans)
      else
        let this_call := ps_count state in
        match ps_remaining state with
        | n :: rest =>
            if (n =? this_call)%nat
            then (action_of (fp_fault plan),
                  (plan, {| ps_count := S this_call; ps_remaining := rest;
                            ps_fired := S (ps_fired state) |}) :: plans)
            else
              let '(a, plans) := check_plans op plans in
              (a, (plan, {| ps_count := S this_call; ps_remaining := n :: rest;
                            ps_fired := ps_fired state |}) :: plans)
        | [] =>
            let '(a, plans) := check_plans op plans in
            (a, (plan, {| ps_count := S this_call; ps_remaining := [];
                          ps_fired := ps_fired state |}) :: plans)
        end
  end.

Definition check {S} (i : Injector S) (op : Op) : Action * Injector S :=
  let '(a, plans) := check_plans op (inj_plans i) in
  (a, {| inj_store := inj_store i; inj_plans := plans; inj_calls := Datatypes.S (inj_calls i) |}).

Definition op_of (c : call) : Op :=
  match c with
  | CPut _ _ _ => OpPutIfAbsent
  | CCas _ _ _ _ => OpCas
  | CGet _ _ => OpGet
  | CHead _ => OpHead
  | CList _ _ _ => OpList
  | CDelete _ => OpDelete
  end.

Definition with_store {S} (i : Injector S) (s : S) : Injector S :=
  {| inj_store := s; inj_plans := inj_plans i; inj_calls := inj_calls i |}.

(** The six trait methods share one body: fail, apply and lose the answer
    ([?] lets the inner error through), or pass. *)
#[export] Instance injector_store {S} `{ObjectStore S} : ObjectStore (Injector S) := fun c i =>
  let '(action, i) := check i (op_of c) in
  match action with
  | Fail e => (fail_with c e, i)
  | FailAfter =>
      let '(a, s) := store_step c (inj_store i) in
      (match answer_err c a with
       | Some _ => a
       | None => fail_with c (OutcomeUnknown ConnectionLost)
       end, with_store i s)
  | Pass =>
      let '(a, s) := store_step c (inj_store i) in (a, with_store i s)
  end.

(* ------------------------------------------------------------------ *)
(** * Laws *)

Lemma check_store {S} (i : Injector S) op : inj_store (check i op).2 = inj_store i.
Proof. unfold check. by destruct (check_plans op (inj_plans i)). Qed.

Lemma check_plans_fail op plans e :
  (check_plans op plans).1 = Fail e -> e = Transport PreTransmit \/ e = OutcomeUnknown ConnectionLost.
Proof.
  induction plans as [|[p st] plans IH]; cbn; [done|].
  destruct (negb _); [by destruct (check_plans op plans)|].
  destruct (ps_remaining st) as [|n rest]; [by destruct (check_plans op plans)|].
  destruct (n =? ps_count st)%nat; [|by destruct (check_plans op plans)].
  destruct (fp_fault p); cbn; intros [= <-]; auto.
Qed.

Section Laws.
Context `{Sha256}.

Lemma answer_err_fail c e : answer_err c (fail_with c e) = Some e.
Proof. by destruct c. Qed.

(** An answer without an error is the applied call's own. *)
Lemma contract_ok c m a m' : contract c m a m' -> answer_err c a = None -> applied c m a m'.
Proof. destruct 1; rewrite ?answer_err_fail; done. Qed.

Context {S : Type} {OS : ObjectStore S} {L : StoreLaws S}.

Lemma injector_step n c (i : Injector S) :
  store_inv (Datatypes.S n) (inj_store i) ->
  contract c (store_view (inj_store i)) (store_step c i).1
    (store_view (inj_store (store_step c i).2)) /\
  store_inv n (inj_store (store_step c i).2).
Proof.
  intros Hi. unfold store_step at 1 2 3, injector_store.
  pose proof (check_store i (op_of c)) as Hst.
  destruct (check i (op_of c)) as [a i'] eqn:Hc. cbn [snd] in Hst.
  assert (forall e, a = Fail e -> e = Transport PreTransmit \/ e = OutcomeUnknown ConnectionLost) as Hf.
  { intros e ->. apply (check_plans_fail (op_of c) (inj_plans i)). unfold check in Hc.
    destruct (check_plans (op_of c) (inj_plans i)). by injection Hc as -> _. }
  rewrite <- Hst in *. pose proof (store_step_contract n c (inj_store i') Hi) as Hstep.
  pose proof (store_step_inv n c (inj_store i') Hi) as Hinv.
  destruct a as [|e|].
  - destruct (store_step c (inj_store i')) as [a s]. cbn in *. auto.
  - cbn [fst snd]. split; [|by apply store_inv_weaken].
    destruct (Hf e eq_refl) as [-> | ->]; [apply ct_transport|apply ct_unknown_lost].
  - destruct (store_step c (inj_store i')) as [a s]. cbn [fst snd with_store inj_store] in *.
    split; [|done]. destruct (answer_err c a) as [e|] eqn:He; [done|].
    apply contract_ok in Hstep; [|done]. by eapply ct_unknown_done.
Qed.

#[export] Instance injector_laws : StoreLaws (Injector S) := {
  store_inv n i := store_inv n (inj_store i);
  store_view i := store_view (inj_store i);
  store_inv_weaken n i := store_inv_weaken n (inj_store i);
  store_step_inv n c i Hi := proj2 (injector_step n c i Hi);
  store_step_contract n c i Hi := proj1 (injector_step n c i Hi)
}.
End Laws.

(* ------------------------------------------------------------------ *)
(** * Properties *)

(** C36: wrapping preserves the contract: whatever faults are scripted over a
    store that keeps the contract, every call through the injector is again a
    contract step of the wrapped key space (a pre-transmit failure changes
    nothing; an ambiguous failure leaves the effect of the whole call or no
    effect at all), and the wrapped store stays usable. *)
Theorem injector_keeps_contract `{Sha256} {S : Type} {OS : ObjectStore S} {L : StoreLaws S}
  (n : nat) (c : call) (i : Injector S) (Hi : store_inv (Datatypes.S n) (inj_store i)) :
  contract c (store_view (inj_store i)) (store_step c i).1 (store_view (inj_store (store_step c i).2)) /\
  store_inv n (inj_store (store_step c i).2).
Proof. by apply injector_step. Qed.

Definition sample_injector : Injector MemoryStore :=
  injector_new sample_store [{| fp_op := OpPutIfAbsent; fp_at := [1%nat; 0%nat]; fp_fault := FPostTransmitAfter |}].

Lemma injector_keeps_contract_witness :
  @store_inv fips _ _ (@memory_laws fips) 3 (inj_store sample_injector) /\
  @store_inv fips _ _ (@memory_laws fips) 2
    (inj_store (@store_step _ (@injector_store _ (@memory_store fips))
       (CPut ¶"k" ¶"v" (Fips.sha256 ¶"v")) sample_injector).2).
Proof.
  assert (@store_inv fips _ _ (@memory_laws fips) 3 (inj_store sample_injector)) as Hi.
  { split; [vm_compute; repeat split; discriminate || reflexivity|].
    unfold stamped. apply (bool_decide_eq_true_1 _). vm_compute. reflexivity. }
  split; [exact Hi|].
  exact (proj2 (@injector_keeps_contract fips _ _ (@memory_laws fips) 2
           (CPut ¶"k" ¶"v" (Fips.sha256 ¶"v")) sample_injector Hi)).
Defined.

(** Calls of one operation checked in a row. *)
Fixpoint check_times {S} (n : nat) (op : Op) (i : Injector S) : list Action * Injector S :=
  match n with
  | O => ([], i)
  | Datatypes.S n =>
      let '(a, i) := check i op in
      let '(l, i) := check_times n op i in (a :: l, i)
  end.

(** The scripted indexes, sorted without duplicates. *)
Lemma dedup_cons2 a b l :
  dedup (a :: b :: l) = if (a =? b)%nat then dedup (b :: l) else a :: dedup (b :: l).
Proof. done. Qed.

Lemma dedup_elem l x : x ∈ dedup l <-> x ∈ l.
Proof.
  induction l as [|a [|b l] IH]; [done..|]. rewrite dedup_cons2.
  destruct (Nat.eqb_spec a b) as [->|]; set_solver.
Qed.

Lemma dedup_sorted l : StronglySorted le l -> StronglySorted lt (dedup l).
Proof.
  induction l as [|a l IH]; [constructor|]. intros [Hs HF]%StronglySorted_inv.
  destruct l as [|b l]; [repeat constructor|]. rewrite dedup_cons2. specialize (IH Hs).
  destruct (Nat.eqb_spec a b) as [->|Hne]; [done|]. constructor; [done|].
  rewrite Forall_forall. intros x Hx. rewrite dedup_elem in Hx.
  assert (b <= x)%nat.
  { apply StronglySorted_inv in Hs as [_ HF']. rewrite Forall_forall in HF'.
    apply elem_of_cons in Hx as [->|]; [done|auto]. }
  rewrite Forall_forall in HF. specialize (HF b ltac:(set_solver)). lia.
Qed.

Definition due_from (count : nat) (at_ : list nat) (remaining : list nat) : Prop :=
  StronglySorted lt remaining /\ forall x, x ∈ remaining <-> x ∈ at_ /\ (count <= x)%nat.

Lemma due_from_step count at_ n rest :
  due_from count at_ (n :: rest) -> (n =? count)%nat = true -> count ∈ at_ /\ due_from (S count) at_ rest.
Proof.
  intros [Hs Hx] ->%Nat.eqb_eq. apply StronglySorted_inv in Hs as [Hs HF].
  rewrite Forall_forall in HF. split; [apply Hx; set_solver|]. split; [done|]. intros x. split.
  - intros Hin. specialize (HF x Hin). split; [apply Hx; set_solver|lia].
  - intros [Ha Hc]. assert (x ∈ count :: rest) as Hin by (apply Hx; auto with lia).
    apply elem_of_cons in Hin as [->|]; [lia|done].
Qed.

Lemma due_from_skip count at_ remaining :
  due_from count at_ remaining -> match remaining with n :: _ => (n =? count)%nat = false | [] => True end ->
  count ∉ at_ /\ due_from (S count) at_ remaining.
Proof.
  intros [Hs Hx] Hne. assert (count ∉ remaining) as Hc.
  { destruct remaining as [|n rest]; [set_solver|]. apply Nat.eqb_neq in Hne.
    apply StronglySorted_inv in Hs as [_ HF]. rewrite Forall_forall in HF. intros Hin.
    assert (n ∈ n :: rest) as [_ Hn]%Hx by set_solver.
    apply elem_of_cons in Hin as [->|Hin]; [done|]. specialize (HF _ Hin). lia. }
  split; [intros Ha; apply Hc, Hx; auto|]. split; [done|]. intros x. rewrite Hx.
  split; intros [Ha Hle]; split; auto with lia.
  destruct (decide (x = count)) as [->|]; [exfalso; apply Hc, Hx; auto|lia].
Qed.

Lemma single_plan_checks {S} n p st (i : Injector S) :
  inj_plans i = [(p, st)] -> due_from (ps_count st) (fp_at p) (ps_remaining st) ->
  (check_times n (fp_op p) i).1 =
  map (fun k => if bool_decide (k ∈ fp_at p) then action_of (fp_fault p) else Pass)
      (seq (ps_count st) n).
Proof.
  revert st i. induction n as [|n IH]; intros st i Hp Hd; [done|].
  cbn [check_times seq map]. unfold check. rewrite Hp. cbn [check_plans].
  rewrite bool_decide_eq_true_2 by done. cbn [negb].
  destruct (ps_remaining st) as [|m rest] eqn:Hr.
  - destruct (due_from_skip _ _ _ Hd I) as [Hn Hd'].
    rewrite (bool_decide_eq_false_2 (ps_count st ∈ fp_at p)) by done.
    set (i' := {| inj_store := _; inj_plans := _; inj_calls := _ |}).
    specialize (IH _ i' eq_refl Hd'). destruct (check_times n (fp_op p) i') as [l j].
    cbn in IH |- *. by rewrite IH.
  - destruct (m =? ps_count st)%nat eqn:Hm.
    + destruct (due_from_step _ _ _ _ Hd Hm) as [Hn Hd'].
      rewrite (bool_decide_eq_true_2 (ps_count st ∈ fp_at p)) by done.
      set (i' := {| inj_store := _; inj_plans := _; inj_calls := _ |}).
      specialize (IH _ i' eq_refl Hd'). destruct (check_times n (fp_op p) i') as [l j].
      cbn in IH |- *. by rewrite IH.
    + destruct (due_from_skip _ _ _ Hd Hm) as [Hn Hd'].
      rewrite (bool_decide_eq_false_2 (ps_count st ∈ fp_at p)) by done.
      set (i' := {| inj_store := _; inj_plans := _; inj_calls := _ |}).
      specialize (IH _ i' eq_refl Hd'). destruct (check_times n (fp_op p) i') as [l j].
      cbn in IH |- *. by rewrite IH.
Qed.

(** A fault plan fires exactly where it is scripted: over any number of
    calls of its operation, call [k] suffers the plan's fault if and only if
    [k] is among the scripted indexes, given in any order and with
    repetitions. *)
Theorem plan_fires_as_scripted {S} (s : S) (p : FaultPlan) (n : nat) :
  (check_times n (fp_op p) (injector_new s [p])).1 =
  map (fun k => if bool_decide (k ∈ fp_at p) then action_of (fp_fault p) else Pass) (seq 0 n).
Proof.
  rewrite (single_plan_checks n p (plan_state p)); [done|done|]. split.
  - apply dedup_sorted, StronglySorted_merge_sort; apply _.
  - intros x. cbn. rewrite dedup_elem, (merge_sort_Permutation le (fp_at p)). split; [|tauto].
    intros; split; [done|lia].
Qed.
