(* ===== verification/Oracle.v ===== *)
(** [stowq-testkit/src/oracle.rs]: the logical oracle, the repository's own
    in-memory model of the queue, against which its differential driver checks
    the implementation.

    The map from job ids to states is a [gmap]; every operation returns its
    answer and the next oracle.  The second half shows that the oracle is a
    sane specification: its states are well-typed, attempts never exceed the
    maximum, terminal phases and outputs are final, [can_claim] foretells
    [claim]. *)

From S2P Require Import Prelude.

(* ------------------------------------------------------------------ *)
(** * Data *)

Inductive Terminal :=
| TermReceipt
| TermDead (reason : Z).

Inductive Phase :=
| Ready (not_before : Z)
| PClaimed (generation attempt expiry : Z)
| Backoff (generation attempt not_before : Z)
| PTerminal (t : Terminal).

Record JobState := { maximum_attempts : Z; phase : Phase; output : option bytes }.

Record Oracle := { jobs : gmap bytes JobState; o_clock : Z }.

#[export] Instance terminal_eq_dec : EqDecision Terminal.
Proof. solve_decision. Defined.
#[export] Instance phase_eq_dec : EqDecision Phase.
Proof. solve_decision. Defined.
#[export] Instance job_state_eq_dec : EqDecision JobState.
Proof. solve_decision. Defined.

Definition oracle_new : Oracle := {| jobs := ∅; o_clock := 0 |}.

(** The writes through [get_mut]. *)
Definition set_phase (o : Oracle) (job_id : bytes) (st : JobState) (p : Phase) : Oracle :=
  {| jobs := <[job_id := {| maximum_attempts := maximum_attempts st; phase := p;
                            output := output st |}]> (jobs o);
     o_clock := o_clock o |}.
Definition set_output (o : Oracle) (job_id : bytes) (st : JobState) (d : bytes) : Oracle :=
  {| jobs := <[job_id := {| maximum_attempts := maximum_attempts st; phase := phase st;
                            output := Some d |}]> (jobs o);
     o_clock := o_clock o |}.

(* ------------------------------------------------------------------ *)
(** * Operations *)

Definition advance_clock_to (o : Oracle) (ns : Z) : Oracle :=
  {| jobs := jobs o; o_clock := Z.max (o_clock o) ns |}.

Definition oracle_enqueue (o : Oracle) (job_id : bytes) (max not_before : Z) : bool * Oracle :=
  match jobs o !! job_id with
  | None =>
      (true, {| jobs := <[job_id := {| maximum_attempts := max; phase := Ready not_before;
                                       output := None |}]> (jobs o);
                o_clock := o_clock o |})
  | Some existing => (maximum_attempts existing =? max, o)
  end.

Definition can_claim (o : Oracle) (job_id : bytes) : bool :=
  match jobs o !! job_id with
  | None => false
  | Some st =>
      match phase st with
      | Ready not_before => not_before <=? o_clock o
      | Backoff _ attempt not_before =>
          (not_before <=? o_clock o) && (attempt <? maximum_attempts st)
      | PClaimed _ attempt expiry => (expiry <=? o_clock o) && (attempt <? maximum_attempts st)
      | PTerminal _ => false
      end
  end.

(** Whether the next takeover would exceed the maximum. *)
Definition exhaustion_due (clk : Z) (st : JobState) : bool :=
  match phase st with
  | PClaimed _ attempt expiry =>
      (expiry <=? clk) && (maximum_attempts st <? wrapping_add attempt 1)
  | Backoff _ attempt not_before =>
      (not_before <=? clk) && (maximum_attempts st <? wrapping_add attempt 1)
  | _ => false
  end.

Definition exhaust_if_due (o : Oracle) (job_id : bytes) : bool * Oracle :=
  match jobs o !! job_id with
  | None => (false, o)
  | Some st =>
      let due := exhaustion_due (o_clock o) st in
      (due, if due then set_phase o job_id st (PTerminal (TermDead 0x0004)) else o)
  end.

Definition oracle_claim (o : Oracle) (job_id : bytes) (lease_duration_ns base : Z)
  : option (Z * Z) * Oracle :=
  match jobs o !! job_id with
  | None => (None, o)
  | Some st =>
      let custody generation attempt :=
        (Some (generation, attempt),
         set_phase o job_id st
           (PClaimed generation attempt (saturating_add base lease_duration_ns))) in
      match phase st with
      | Ready not_before =>
          if not_before <=? o_clock o then custody 1 1 else (None, o)
      | Backoff generation attempt not_before =>
          if (not_before <=? o_clock o) && (attempt <? maximum_attempts st)
          then custody (wrapping_add generation 1) (wrapping_add attempt 1)
          else (None, o)
      | PClaimed generation attempt expiry =>
          if expiry <=? o_clock o then
            if maximum_attempts st <? wrapping_add attempt 1
            then (None, set_phase o job_id st (PTerminal (TermDead 0x0004)))
            else custody (wrapping_add generation 1) (wrapping_add attempt 1)
          else (None, o)
      | PTerminal _ => (None, o)
      end
  end.

Definition oracle_renew (o : Oracle) (job_id : bytes) (lease_duration_ns : Z) : bool * Oracle :=
  match jobs o !! job_id with
  | None => (false, o)
  | Some st =>
      match phase st with
      | PClaimed generation attempt _ =>
          (true, set_phase o job_id st
                   (PClaimed (wrapping_add generation 1) attempt
                             (saturating_add (o_clock o) lease_duration_ns)))
      | _ => (false, o)
      end
  end.

Definition override_expiry (o : Oracle) (job_id : bytes) (base lease_duration_ns : Z) : Oracle :=
  match jobs o !! job_id with
  | None => o
  | Some st =>
      match phase st with
      | PClaimed generation attempt _ =>
          set_phase o job_id st
            (PClaimed generation attempt (saturating_add base lease_duration_ns))
      | _ => o
      end
  end.

Definition oracle_ack (o : Oracle) (job_id : bytes) : bool * Oracle :=
  match jobs o !! job_id with
  | None => (false, o)
  | Some st =>
      match phase st with
      | PClaimed _ _ _ => (true, set_phase o job_id st (PTerminal TermReceipt))
      | _ => (false, o)
      end
  end.

Definition oracle_commit_output (o : Oracle) (job_id digest : bytes) : bool * Oracle :=
  match jobs o !! job_id with
  | None => (false, o)
  | Some st =>
      match phase st with
      | PClaimed _ _ _ =>
          (true, match output st with None => set_output o job_id st digest | Some _ => o end)
      | _ => (false, o)
      end
  end.

Definition output_digest (o : Oracle) (job_id : bytes) : option bytes := jobs o !! job_id ≫= output.

Definition oracle_nack (o : Oracle) (job_id : bytes) (not_before : Z) : bool * Oracle :=
  match jobs o !! job_id with
  | None => (false, o)
  | Some st =>
      match phase st with
      | PClaimed generation attempt _ =>
          (true, set_phase o job_id st (Backoff generation attempt not_before))
      | _ => (false, o)
      end
  end.

Definition oracle_bury (o : Oracle) (job_id : bytes) (reason : Z) : bool * Oracle :=
  match jobs o !! job_id with
  | None => (false, o)
  | Some st =>
      match phase st with
      | PClaimed _ _ _ => (true, set_phase o job_id st (PTerminal (TermDead reason)))
      | _ => (false, o)
      end
  end.

(* ------------------------------------------------------------------ *)
(** * The crate's tests of the oracle *)

Definition test_job : bytes := replicate 16 (byte_of 1).

Example claim_ready_job :
  let o := (oracle_enqueue oracle_new test_job 3 0).2 in
  let '(r1, o) := oracle_claim o test_job 1000 0 in
  let '(r2, o) := oracle_claim o test_job 1000 0 in
  let '(r3, o) := oracle_claim (advance_clock_to o 1000) test_job 1000 0 in
  (r1, r2, r3) = (Some (1, 1), None, Some (2, 2)).
Proof. vm_compute. reflexivity. Qed.

Example exhaustion_writes_dead :
  let o := (oracle_enqueue oracle_new test_job 1 0).2 in
  let '(r1, o) := oracle_claim o test_job 1000 0 in
  let '(r2, o) := oracle_claim (advance_clock_to o 1000) test_job 1000 0 in
  (r1, r2, phase <$> jobs o !! test_job) = (Some (1, 1), None, Some (PTerminal (TermDead 4))).
Proof. vm_compute. reflexivity. Qed.

Example backoff_then_takeover :
  let o := (oracle_enqueue oracle_new test_job 3 0).2 in
  let o := (oracle_claim o test_job 1000 0).2 in
  let '(n, o) := oracle_nack o test_job 500 in
  let '(r1, o) := oracle_claim (advance_clock_to o 499) test_job 1000 0 in
  let '(r2, o) := oracle_claim (advance_clock_to o 500) test_job 1000 0 in
  (n, r1, r2) = (true, None, Some (2, 2)).
Proof. vm_compute. reflexivity. Qed.

Example renew_refreshes_without_attempt :
  let o := (oracle_enqueue oracle_new test_job 2 0).2 in
  let o := (oracle_claim o test_job 1000 0).2 in
  let '(r, o) := oracle_renew o test_job 1000 in
  (r, phase <$> jobs o !! test_job) = (true, Some (PClaimed 2 1 1000)).
Proof. vm_compute. reflexivity. Qed.

Example delayed_not_claimable_early :
  let o := (oracle_enqueue oracle_new test_job 3 10000).2 in
  let '(r1, o) := oracle_claim o test_job 1000 0 in
  let '(r2, o) := oracle_claim (advance_clock_to o 10000) test_job 1000 0 in
  (r1, r2) = (None, Some (1, 1)).
Proof. vm_compute. reflexivity. Qed.

(* ------------------------------------------------------------------ *)
(** * Runs of the oracle *)

(** One mutating call. *)
Inductive OracleOp :=
| OAdvance (ns : Z)
| OEnqueue (job_id : bytes) (max not_before : Z)
| OExhaust (job_id : bytes)
| OClaim (job_id : bytes) (lease_duration_ns base : Z)
| ORenew (job_id : bytes) (lease_duration_ns : Z)
| OOverride (job_id : bytes) (base lease_duration_ns : Z)
| OCommit (job_id digest : bytes)
| OAck (job_id : bytes)
| ONack (job_id : bytes) (not_before : Z)
| OBury (job_id : bytes) (reason : Z).

Definition oracle_op (op : OracleOp) (o : Oracle) : Oracle :=
  match op with
  | OAdvance ns => advance_clock_to o ns
  | OEnqueue job_id max not_before => (oracle_enqueue o job_id max not_before).2
  | OExhaust job_id => (exhaust_if_due o job_id).2
  | OClaim job_id lease base => (oracle_claim o job_id lease base).2
  | ORenew job_id lease => (oracle_renew o job_id lease).2
  | OOverride job_id base lease => override_expiry o job_id base lease
  | OCommit job_id digest => (oracle_commit_output o job_id digest).2
  | OAck job_id => (oracle_ack o job_id).2
  | ONack job_id not_before => (oracle_nack o job_id not_before).2
  | OBury job_id reason => (oracle_bury o job_id reason).2
  end.

Definition oracle_run (ops : list OracleOp) (o : Oracle) : Oracle := fold_left (flip oracle_op) ops o.

(** The arguments fit their machine types. *)
Definition op_typed (op : OracleOp) : Prop :=
  match op with
  | OAdvance ns => is_u64 ns
  | OEnqueue _ max not_before => is_u64 max /\ is_u64 not_before
  | OExhaust _ | OAck _ | OCommit _ _ => True
  | OClaim _ lease base | OOverride _ base lease => is_u64 lease /\ is_u64 base
  | ORenew _ lease => is_u64 lease
  | ONack _ not_before => is_u64 not_before
  | OBury _ reason => is_u64 reason
  end.

(** A custody [g] of attempt [a] after at most [n] operations. *)
Definition custody_typed (n max g a : Z) : Prop := 1 <= a <= g /\ g <= n /\ a <= Z.max 1 max.

Definition phase_typed (n max : Z) (p : Phase) : Prop :=
  match p with
  | Ready not_before => is_u64 not_before
  | PClaimed g a expiry => custody_typed n max g a /\ is_u64 expiry
  | Backoff g a not_before => custody_typed n max g a /\ is_u64 not_before
  | PTerminal TermReceipt => True
  | PTerminal (TermDead reason) => is_u64 reason
  end.

Definition oracle_typed (n : Z) (o : Oracle) : Prop :=
  is_u64 (o_clock o) /\
  map_Forall (fun _ st => is_u64 (maximum_attempts st) /\ phase_typed n (maximum_attempts st) (phase st))
    (jobs o).

Lemma phase_typed_mono n n' max p : n <= n' -> phase_typed n max p -> phase_typed n' max p.
Proof. destruct p as [| | |[]]; cbn; unfold custody_typed; intuition lia. Qed.

Lemma oracle_typed_mono n n' o : n <= n' -> oracle_typed n o -> oracle_typed n' o.
Proof.
  intros Hn [Hc Hj]. split; [exact Hc|]. eapply map_Forall_impl; [exact Hj|].
  intros id st [Hm Hp]. split; [exact Hm|]. by eapply phase_typed_mono.
Qed.

(** Writing one job's state. *)
Lemma oracle_typed_insert n o id st :
  oracle_typed n o -> is_u64 (maximum_attempts st) -> phase_typed n (maximum_attempts st) (phase st) ->
  oracle_typed n {| jobs := <[id := st]> (jobs o); o_clock := o_clock o |}.
Proof. intros [Hc Hj] Hm Hp. split; [exact Hc|]. by apply map_Forall_insert_2. Qed.

Lemma oracle_typed_lookup n o id st :
  oracle_typed n o -> jobs o !! id = Some st ->
  is_u64 (maximum_attempts st) /\ phase_typed n (maximum_attempts st) (phase st).
Proof. intros [_ Hj] E. exact (Hj id st E). Qed.

(** One operation: case analysis on the job, its phase and the guards, then
    the state written. *)
Ltac oracle_cases :=
  repeat match goal with
  | |- context [match jobs ?o !! ?id with _ => _ end] => destruct (jobs o !! id) as [?st|] eqn:?Est
  | |- context [match phase ?st with _ => _ end] => destruct (phase st) as [?|? ? ?|? ? ?|[]] eqn:?Eph
  | |- context [match output ?st with _ => _ end] => destruct (output st) as [?|] eqn:?Eout
  | |- context [if ?b then _ else _] => destruct b eqn:?Eb
  end; cbn.

(** What typing gives for the job under scrutiny. *)
Ltac typed_facts Ho :=
  match goal with
  | Est : jobs _ !! _ = Some ?st |- _ =>
      let Hm := fresh "Hm" in let Hp := fresh "Hp" in
      pose proof (oracle_typed_lookup _ _ _ _ Ho Est) as [Hm Hp];
      try match goal with E : phase st = _ |- _ => rewrite E in Hp end; cbn in Hp
  end;
  repeat match goal with
  | E : (_ && _) = true |- _ => apply andb_prop in E as [? ?]
  | E : (_ <=? _) = true |- _ => apply Z.leb_le in E
  | E : (_ <? _) = true |- _ => apply Z.ltb_lt in E
  | E : (_ <? _) = false |- _ => apply Z.ltb_ge in E
  end.

Lemma oracle_op_typed n op o :
  0 <= n < u64_max -> op_typed op -> oracle_typed n o -> oracle_typed (n + 1) (oracle_op op o).
Proof.
  intros Hn Hop Ho.
  pose proof (oracle_typed_mono n (n + 1) o ltac:(lia) Ho) as Ho'. pose proof (proj1 Ho) as Hclock.
  destruct op; cbn in Hop |- *;
    unfold oracle_enqueue, exhaust_if_due, exhaustion_due, oracle_claim, oracle_renew, override_expiry,
      oracle_commit_output, oracle_ack, oracle_nack, oracle_bury.
  1: { destruct Ho' as [Hc Hj]. split; [|exact Hj]. cbn. unfold is_u64 in *. lia. }
  all: oracle_cases; try exact Ho'; try typed_facts Ho; apply oracle_typed_insert; cbn; try exact Ho';
    unfold phase_typed, custody_typed in *; rewrite ?Eph in *;
    rewrite ?wrapping_add_small in * by (unfold is_u64 in *; lia);
    unfold is_u64, saturating_add in *; try tauto; try (repeat split; lia).
Qed.

Lemma oracle_run_typed n ops o :
  0 <= n -> n + Z.of_nat (length ops) <= u64_max -> Forall op_typed ops -> oracle_typed n o ->
  oracle_typed (n + Z.of_nat (length ops)) (oracle_run ops o).
Proof.
  intros Hn Hl Hops. revert n Hn Hl o. induction Hops as [|op ops Hop Hops IH]; cbn [length]; intros n Hn Hl o Ho.
  - replace (n + Z.of_nat 0) with n by lia. exact Ho.
  - replace (n + Z.of_nat (S (length ops))) with (n + 1 + Z.of_nat (length ops)) by lia.
    apply (IH (n + 1)); [lia|lia|]. apply oracle_op_typed; [lia|exact Hop|exact Ho].
Qed.

(** C21: the oracle is well-typed: after any sequence of fewer than 2^64 calls
    with machine-sized arguments, every number in every job's state is a
    [u64], no counter has wrapped, attempts lie between one and the job's
    maximum (a first claim is allowed even when that is zero), the generation
    is at least the attempt and at most the number of calls. *)
Theorem oracle_well_typed ops :
  Z.of_nat (length ops) <= u64_max -> Forall op_typed ops ->
  oracle_typed (Z.of_nat (length ops)) (oracle_run ops oracle_new).
Proof.
  intros Hl Hops. apply (oracle_run_typed 0); [lia|lia|exact Hops|].
  split; cbn; [unfold is_u64; lia|apply map_Forall_empty].
Qed.

Definition sample_ops : list OracleOp :=
  [OEnqueue test_job 1 0; OClaim test_job 1000 0; ORenew test_job 1000; OAdvance 2000; OExhaust test_job].

Example oracle_well_typed_witness :
  oracle_typed 5 (oracle_run sample_ops oracle_new) /\
  phase <$> jobs (oracle_run sample_ops oracle_new) !! test_job = Some (PTerminal (TermDead 4)).
Proof.
  split; [|vm_compute; reflexivity].
  apply (oracle_well_typed sample_ops); [vm_compute; discriminate|].
  repeat (constructor; [cbn; unfold is_u64; try split; lia|]). constructor.
Defined.

(** What no later call changes of a job. *)
Record job_grows (st st' : JobState) : Prop := {
  jg_max : maximum_attempts st' = maximum_attempts st;
  jg_terminal : forall t, phase st = PTerminal t -> phase st' = PTerminal t;
  jg_output : forall d, output st = Some d -> output st' = Some d;
}.

Lemma job_grows_refl st : job_grows st st.
Proof. by constructor. Qed.
Lemma job_grows_trans a b c : job_grows a b -> job_grows b c -> job_grows a c.
Proof. intros [] []. constructor; [congruence|eauto|eauto]. Qed.

Lemma grows_insert (o : Oracle) id0 st0 st0' id st :
  jobs o !! id0 = Some st0 -> job_grows st0 st0' -> jobs o !! id = Some st ->
  exists st', <[id0 := st0']> (jobs o) !! id = Some st' /\ job_grows st st'.
Proof.
  intros E0 Hg E. destruct (decide (id0 = id)) as [->|Hne].
  - exists st0'. rewrite lookup_insert_eq. split; [done|]. congruence.
  - exists st. rewrite lookup_insert_ne by done. split; [done|apply job_grows_refl].
Qed.

Lemma oracle_op_grows op o id st :
  jobs o !! id = Some st -> exists st', jobs (oracle_op op o) !! id = Some st' /\ job_grows st st'.
Proof.
  intros E. pose proof (ex_intro (fun st' => jobs o !! id = Some st' /\ job_grows st st') st
    (conj E (job_grows_refl st))) as Hsame.
  destruct op; cbn; unfold oracle_enqueue, exhaust_if_due, exhaustion_due, oracle_claim, oracle_renew,
    override_expiry, oracle_commit_output, oracle_ack, oracle_nack, oracle_bury;
    oracle_cases; try exact Hsame;
    first [eapply grows_insert; [exact Est| |exact E]; constructor; cbn; try done; congruence | idtac].
  rewrite lookup_insert_ne by congruence. exact Hsame.
Qed.

Lemma oracle_run_grows ops o id st :
  jobs o !! id = Some st -> exists st', jobs (oracle_run ops o) !! id = Some st' /\ job_grows st st'.
Proof.
  revert o st. induction ops as [|op ops IH]; cbn; intros o st E; [exists st; split; [done|apply job_grows_refl]|].
  destruct (oracle_op_grows op o id st E) as (st1 & E1 & H1).
  destruct (IH _ _ E1) as (st2 & E2 & H2). exists st2. split; [exact E2|by eapply job_grows_trans].
Qed.

(** C22: a job of the oracle never leaves it, keeps its maximum, a terminal
    phase is final and the first committed output stays. *)
Theorem oracle_terminal_final ops o id st :
  jobs o !! id = Some st ->
  exists st', jobs (oracle_run ops o) !! id = Some st' /\
    maximum_attempts st' = maximum_attempts st /\
    (forall t, phase st = PTerminal t -> phase st' = PTerminal t) /\
    (forall d, output st = Some d -> output st' = Some d).
Proof. intros E. destruct (oracle_run_grows ops o id st E) as (st' & E' & []). exists st'. auto. Qed.

Example oracle_terminal_final_witness :
  let o := oracle_run sample_ops oracle_new in
  exists st, jobs o !! test_job = Some st /\
    exists st', jobs (oracle_run sample_ops o) !! test_job = Some st' /\
      maximum_attempts st' = maximum_attempts st /\
      (forall t, phase st = PTerminal t -> phase st' = PTerminal t) /\
      (forall d, output st = Some d -> output st' = Some d).
Proof.
  intros o. eexists. split; [vm_compute; reflexivity|].
  apply oracle_terminal_final. vm_compute. reflexivity.
Defined.

(** The oracle's prediction is right: [can_claim] says yes exactly when
    [claim], called next, hands out a custody, whatever the lease and the
    store time; and it never says yes where exhaustion is due. *)
Theorem can_claim_foretells n o id lease base :
  0 <= n < u64_max -> oracle_typed n o ->
  (can_claim o id = true <-> is_Some (oracle_claim o id lease base).1) /\
  ((exhaust_if_due o id).1 = true -> can_claim o id = false).
Proof.
  intros Hn Ho. unfold can_claim, oracle_claim, exhaust_if_due, exhaustion_due.
  destruct (jobs o !! id) as [st|] eqn:Est; [|split; [|done]; split; [done|intros [? [=]]]].
  pose proof (oracle_typed_lookup _ _ _ _ Ho Est) as [Hm Hp].
  destruct (phase st) as [nb|g a e|g a nb|t]; cbn in Hp |- *; unfold custody_typed, is_u64 in *;
    rewrite ?wrapping_add_small by (unfold is_u64; lia);
    repeat case_match; cbn;
    repeat match goal with
    | E : (_ && _) = true |- _ => apply andb_prop in E as [? ?]
    | E : (_ && _) = false |- _ => apply andb_false_iff in E
    end;
    rewrite ?Z.leb_le, ?Z.leb_gt, ?Z.ltb_lt, ?Z.ltb_ge in *;
    (split; [split; [intros|intros []]|intros]); rewrite ?andb_true_iff, ?andb_false_iff in *;
    rewrite ?Z.leb_le, ?Z.leb_gt, ?Z.ltb_lt, ?Z.ltb_ge in *; try done; try lia; eauto.
Qed.

Example can_claim_foretells_witness :
  let o := oracle_run [OEnqueue test_job 3 0] oracle_new in
  is_Some (oracle_claim o test_job 1000 0).1.
Proof.
  intros o.
  assert (oracle_typed 1 o) as Ho.
  { apply (oracle_run_typed 0 [OEnqueue test_job 3 0]); [lia|vm_compute; discriminate| |].
    - repeat constructor; cbn; unfold is_u64; lia.
    - split; cbn; [unfold is_u64; lia|apply map_Forall_empty]. }
  apply (proj1 (can_claim_foretells 1 o test_job 1000 0 ltac:(lia) Ho)). vm_compute. reflexivity.
Defined.
