(* ===== verification/Effects.v ===== *)
(** Effectful queue operations as programs.

    [stowq-core] interacts with the world through the object store, the
    entropy source ([fresh_token]) and the handle's elapsed clock.  An
    operation is a [prog]: a tree of such effects whose branches are the
    possible answers, so that a property of the tree holds whatever the store
    answers and however other clients interleave.  [run] executes a program
    against a concrete store.

    The operations' own monad [M] threads what a handle mutates (the budget
    and the two mutex-protected caches) and the [Result] of the Rust code. *)

From S2P Require Import Prelude Sha256 Store Records.

(* ------------------------------------------------------------------ *)
(** * Programs *)

Inductive eff :=
| EStore (c : call)
| EToken
| EElapsed.

Definition eff_answer (e : eff) : Type :=
  match e with
  | EStore c => answer c
  | EToken => bytes
  | EElapsed => Z
  end.

Inductive prog (A : Type) : Type :=
| Ret (a : A)
| Vis (e : eff) (k : eff_answer e -> prog A).
Arguments Ret {A} a.
Arguments Vis {A} e k.

Fixpoint pbind {A B} (p : prog A) (f : A -> prog B) : prog B :=
  match p with
  | Ret a => f a
  | Vis e k => Vis e (fun x => pbind (k x) f)
  end.

(** What a program runs against: a store, the tokens the entropy source will
    yield and the clock's successive readings. *)
Record World (S : Type) := {
  w_store : S;
  w_tokens : nat -> bytes;
  w_clock : nat -> Z;
  w_next_token : nat;
  w_next_reading : nat
}.
Arguments w_store {S} _. Arguments w_tokens {S} _. Arguments w_clock {S} _.
Arguments w_next_token {S} _. Arguments w_next_reading {S} _.

Definition run_eff {S} `{ObjectStore S} (e : eff) (w : World S) : eff_answer e * World S :=
  match e return eff_answer e * World S with
  | EStore c =>
      let '(a, s) := store_step c (w_store w) in
      (a, {| w_store := s; w_tokens := w_tokens w; w_clock := w_clock w;
             w_next_token := w_next_token w; w_next_reading := w_next_reading w |})
  | EToken =>
      (w_tokens w (w_next_token w),
       {| w_store := w_store w; w_tokens := w_tokens w; w_clock := w_clock w;
          w_next_token := Datatypes.S (w_next_token w); w_next_reading := w_next_reading w |})
  | EElapsed =>
      (w_clock w (w_next_reading w),
       {| w_store := w_store w; w_tokens := w_tokens w; w_clock := w_clock w;
          w_next_token := w_next_token w; w_next_reading := Datatypes.S (w_next_reading w) |})
  end.

Fixpoint run {S} `{ObjectStore S} {A} (p : prog A) (w : World S) : A * World S :=
  match p with
  | Ret a => (a, w)
  | Vis e k => let '(a, w) := run_eff e w in run (k a) w
  end.

Lemma run_pbind {S} `{ObjectStore S} {A B} (p : prog A) (f : A -> prog B) (w : World S) :
  run (pbind p f) w = let '(a, w) := run p w in run (f a) w.
Proof.
  revert w. induction p as [a|e k IH]; intros w; [done|]. cbn [pbind run].
  destruct (run_eff e w) as [x w']. apply IH.
Qed.

(* ------------------------------------------------------------------ *)
(** * Errors of the queue operations *)

(** The text of a record error: a literal, or a decode error's display. *)
Inductive RecordMsg :=
| Msg (s : string)
| MsgRecord (e : RecordError).

(** [stowq_core::Error].  Formatted messages keep their fixed text. *)
Inductive Error :=
| StoreE (e : StoreError)
| RecordE (m : RecordMsg)
| KeyE (s : string)
| BudgetExhausted
| TransportExhausted
| QueueIdMismatch
| PayloadCorrupt
| ReceiptEvidenceMismatch
| OutputConflict (digest : bytes)
| OutputEvidenceMismatch (s : string)
| Internal (s : string).

(** How an operation stops short: an [Err], a Rust panic, or (in the model
    only) a loop that outran its fuel, which never happens ([Budget]). *)
Inductive Stop :=
| Fails (e : Error)
| Panics
| OutOfFuel.

#[export] Instance record_msg_eq_dec : EqDecision RecordMsg.
Proof. solve_decision. Defined.
#[export] Instance error_eq_dec : EqDecision Error.
Proof. solve_decision. Defined.
#[export] Instance stop_eq_dec : EqDecision Stop.
Proof. solve_decision. Defined.

(* ------------------------------------------------------------------ *)
(** * The operations' monad *)

(** The floor cache: the floor and when it was established. *)
Record FloorCache := { floor_ns : Z; established_at_ns : Z }.

(** The terminality memo: proven-terminal jobs with the jobs-entry version
    and the clock reading of the proof. *)
Definition TerminalMemo := gmap (Z * bytes) (Version * Z).

(** The mutable part of a call on a handle: the caller's budget and the
    handle's two caches. *)
Record HState := {
  max_ops : nat;
  h_floor : FloorCache;
  h_memo : TerminalMemo
}.

Definition M (A : Type) : Type := HState -> prog (Result Stop A * HState).

Definition mret_ {A} (a : A) : M A := fun s => Ret (Ok a, s).
Definition mbind_ {A B} (x : M A) (f : A -> M B) : M B := fun s =>
  pbind (x s) (fun '(r, s) => match r with Ok a => f a s | Err e => Ret (Err e, s) end).
Definition throw {A} (e : Stop) : M A := fun s => Ret (Err e, s).
Definition fail {A} (e : Error) : M A := throw (Fails e).

(** The result of a call as a value, for [match call().await { ... }]; a
    panic is not one. *)
Definition try_ {A} (x : M A) : M (Result Error A) := fun s =>
  pbind (x s) (fun '(r, s) =>
    match r with
    | Ok a => Ret (Ok (Ok a), s)
    | Err (Fails e) => Ret (Ok (Err e), s)
    | Err e => Ret (Err e, s)
    end).

#[export] Instance m_ret : MRet M := @mret_.
#[export] Instance m_bind : MBind M := fun A B f x => mbind_ x f.

Definition get_state : M HState := fun s => Ret (Ok s, s).
Definition set_budget (n : nat) : M unit := fun s =>
  Ret (Ok tt, {| max_ops := n; h_floor := h_floor s; h_memo := h_memo s |}).
Definition set_floor (f : FloorCache) : M unit := fun s =>
  Ret (Ok tt, {| max_ops := max_ops s; h_floor := f; h_memo := h_memo s |}).
Definition set_memo (m : TerminalMemo) : M unit := fun s =>
  Ret (Ok tt, {| max_ops := max_ops s; h_floor := h_floor s; h_memo := m |}).

(** [?] on a store result and on a record result. *)
Definition store_ok {A} (r : StoreResult A) : M A :=
  match r with Ok a => mret_ a | Err e => fail (StoreE e) end.
Definition record_ok {A} (r : Result RecordError A) : M A :=
  match r with Ok a => mret_ a | Err e => fail (RecordE (MsgRecord e)) end.
Definition ok_or_fail {A} (o : option A) (e : Error) : M A :=
  match o with Some a => mret_ a | None => fail e end.
(** An assertion. *)
Definition unwrap {A} (o : option A) : M A :=
  match o with Some a => mret_ a | None => throw Panics end.

(** One store call: its answer as a value. *)
Definition do_call (c : call) : M (answer c) := fun s => Vis (EStore c) (fun a => Ret (Ok a, s)).
Definition do_put (key body sha : bytes) : M (StoreResult PutOutcome) := do_call (CPut key body sha).
Definition do_cas (key body sha : bytes) (v : Version) : M (StoreResult PutOutcome) :=
  do_call (CCas key body sha v).
Definition do_get (key : bytes) : M (StoreResult Object) := do_call (CGet key None).
Definition do_head (key : bytes) : M (StoreResult Meta) := do_call (CHead key).
Definition do_list (prefix : bytes) (after : option bytes) (limit : nat) : M (StoreResult Page) :=
  do_call (CList prefix after limit).
Definition do_delete (key : bytes) : M (StoreResult unit) := do_call (CDelete key).

Definition fresh_token : M bytes := fun s => Vis EToken (fun t => Ret (Ok t, s)).
Definition elapsed_ns : M Z := fun s => Vis EElapsed (fun t => Ret (Ok t, s)).

(** [OpBudget::spend]. *)
Definition spend : M unit := fun s =>
  match max_ops s with
  | O => Ret (Err (Fails BudgetExhausted), s)
  | S n => Ret (Ok tt, {| max_ops := n; h_floor := h_floor s; h_memo := h_memo s |})
  end.

(** A loop whose every iteration spends: one more iteration than the budget
    holds is enough. *)
Definition budget_loop {A} (f : nat -> M A) : M A := fun s => f (S (max_ops s)) s.

(** [for x in xs { body }]. *)
Fixpoint for_each {A} (xs : list A) (body : A -> M unit) : M unit :=
  match xs with
  | [] => mret ()
  | x :: xs => _ ← body x; for_each xs body
  end.
Fixpoint fold_each {A B} (xs : list A) (b : B) (body : B -> A -> M B) : M B :=
  match xs with
  | [] => mret b
  | x :: xs => b ← body b x; fold_each xs b body
  end.

(* ------------------------------------------------------------------ *)
(** * Budget accounting *)

(** [runs n p Q]: whatever is answered, [p] makes at most [n] store calls, and
    ends with [Q] of the calls left, the result and the state. *)
Fixpoint runs {A} (n : nat) (p : prog (Result Stop A * HState))
    (Q : nat -> Result Stop A -> HState -> Prop) : Prop :=
  match p with
  | Ret (r, s) => Q n r s
  | Vis (EStore c) k =>
      match n with
      | O => False
      | S n => forall a, runs n (k a) Q
      end
  | Vis EToken k => forall a, runs n (k a) Q
  | Vis EElapsed k => forall a, runs n (k a) Q
  end.

(** Where an operation ends: the budget has not grown, every call left over
    covers it and the [post] calls paid for, and no loop outran its fuel. *)
Definition acct {A} (b0 post n : nat) (r : Result Stop A) (s' : HState) : Prop :=
  (max_ops s' <= b0)%nat /\
  match r with
  | Ok _ => (max_ops s' + post <= n)%nat
  | Err e => (max_ops s' <= n)%nat /\ e <> OutOfFuel
  end.

(** Budget contract of an operation, from budgets below [L]: it makes no more
    store calls than the budget it consumes plus the [pre] calls paid for in
    advance, and leaves [post] paid calls on success. *)
Definition uses {A} (L pre post : nat) (x : M A) : Prop :=
  forall s, (max_ops s < L)%nat -> runs (max_ops s + pre) (x s) (acct (max_ops s) post).

Lemma acct_mono {A} b0 b1 post n m (r : Result Stop A) s :
  (b0 <= b1)%nat -> (n <= m)%nat -> acct b0 post n r s -> acct b1 post m r s.
Proof. unfold acct. destruct r; intros ?? [? H]; [|destruct H]; repeat split; lia || done. Qed.

Lemma runs_mono {A} n m (p : prog (Result Stop A * HState)) (Q Q' : nat -> Result Stop A -> HState -> Prop) :
  (n <= m)%nat -> (forall i j r s, (i <= j)%nat -> Q i r s -> Q' j r s) ->
  runs n p Q -> runs m p Q'.
Proof.
  intros Hle HQ. revert n m Hle.
  induction p as [[r s]|e k IH]; intros n m Hle; cbn [runs]; [by apply HQ|].
  destruct e; [|intros H a; by apply (IH a n m Hle)..].
  destruct n as [|n]; [done|]. destruct m as [|m]; [lia|]. intros H a.
  apply (IH a n m); [lia|]. apply H.
Qed.

Lemma runs_bind {A B} n (p : prog (Result Stop A * HState))
    (f : Result Stop A * HState -> prog (Result Stop B * HState)) Q :
  runs n p (fun i r s => runs i (f (r, s)) Q) -> runs n (pbind p f) Q.
Proof.
  revert n. induction p as [[r s]|e k IH]; intros n; cbn [runs pbind]; [done|].
  destruct e; [|intros H a; apply IH, H..].
  destruct n as [|n]; [done|]. intros H a. apply IH, H.
Qed.

(** Calls left unused by a program may be given to what follows it. *)
Lemma runs_frame {A} d n (p : prog (Result Stop A * HState)) Q :
  runs n p Q -> runs (n + d) p (fun i r s => exists j, i = (j + d)%nat /\ Q j r s).
Proof.
  revert n Q. induction p as [[r s]|e k IH]; intros n Q; cbn [runs]; [eauto|].
  destruct e; [|intros H a; apply IH, H..].
  destruct n as [|n]; [done|]. cbn. intros H a. apply IH, H.
Qed.

Section Rules.
Context (L : nat).

Lemma uses_frame {A} d pre post (x : M A) : uses L pre post x -> uses L (pre + d) (post + d) x.
Proof.
  intros Hx s Hs. specialize (runs_frame d _ _ _ (Hx s Hs)) as Hf.
  rewrite Nat.add_assoc. eapply runs_mono; [reflexivity| |exact Hf].
  intros i j r s' Hij (j0 & -> & HQ). unfold acct in *. destruct HQ as [? HQ]. split; [done|].
  destruct r; [lia|]. destruct HQ; split; [lia|done].
Qed.

Lemma uses_drop {A} pre post post' (x : M A) :
  (post' <= post)%nat -> uses L pre post x -> uses L pre post' x.
Proof.
  intros Hp Hx s Hs. eapply runs_mono; [reflexivity| |exact (Hx s Hs)].
  unfold acct. intros i j r s' Hij [? HQ]. split; [done|].
  destruct r; [lia|]. destruct HQ; split; [lia|done].
Qed.

Lemma uses_bind {A B} pre mid post (x : M A) (f : A -> M B) :
  uses L pre mid x -> (forall a, uses L mid post (f a)) -> uses L pre post (x ≫= f).
Proof.
  intros Hx Hf s Hs. change ((x ≫= f) s) with (mbind_ x f s). unfold mbind_. apply runs_bind.
  eapply runs_mono; [reflexivity| |exact (Hx s Hs)].
  intros i j [a|e] s' Hij [Hm Hi]; cbn.
  - eapply runs_mono; [|intros ????; by apply acct_mono|apply (Hf a s')]; lia.
  - destruct Hi. unfold acct. split; [done|]. split; [lia|done].
Qed.

Lemma uses_ret {A} n (a : A) : uses L n n (mret a : M A).
Proof. intros s _. cbn. unfold acct. lia. Qed.
Lemma uses_throw {A} pre post (e : Stop) : e <> OutOfFuel -> uses L pre post (throw e : M A).
Proof. intros He s _. cbn. unfold acct. split; [done|]. split; [lia|done]. Qed.
Lemma uses_fail {A} pre post (e : Error) : uses L pre post (fail e : M A).
Proof. by apply uses_throw. Qed.
Lemma uses_spend n : uses L n (S n) spend.
Proof.
  intros s _. unfold spend. destruct (max_ops s) eqn:E; cbn; unfold acct; cbn; [|lia].
  split; [lia|]. split; [lia|done].
Qed.
Lemma uses_call n c : uses L (S n) n (do_call c).
Proof. intros s _. unfold do_call. rewrite Nat.add_succ_r. cbn. unfold acct. lia. Qed.
Lemma uses_token n : uses L n n fresh_token.
Proof. intros s _. cbn. unfold acct. lia. Qed.
Lemma uses_elapsed n : uses L n n elapsed_ns.
Proof. intros s _. cbn. unfold acct. lia. Qed.
Lemma uses_get_state n : uses L n n get_state.
Proof. intros s _. cbn. unfold acct. lia. Qed.
Lemma uses_set_floor n f : uses L n n (set_floor f).
Proof. intros s _. cbn. unfold acct. cbn. lia. Qed.
Lemma uses_set_memo n m : uses L n n (set_memo m).
Proof. intros s _. cbn. unfold acct. cbn. lia. Qed.
Lemma uses_store_ok {A} n (r : StoreResult A) : uses L n n (store_ok r).
Proof. destruct r; [apply uses_ret|apply uses_fail]. Qed.
Lemma uses_record_ok {A} n (r : Result RecordError A) : uses L n n (record_ok r).
Proof. destruct r; [apply uses_ret|apply uses_fail]. Qed.
Lemma uses_ok_or_fail {A} n (o : option A) e : uses L n n (ok_or_fail o e).
Proof. destruct o; [apply uses_ret|apply uses_fail]. Qed.
Lemma uses_unwrap {A} n (o : option A) : uses L n n (unwrap o).
Proof. destruct o; [apply uses_ret|by apply uses_throw]. Qed.

(** A caught stop keeps the account, but not the calls paid for. *)
Lemma uses_try {A} pre post (x : M A) : uses L pre post x -> uses L pre 0 (try_ x).
Proof.
  intros Hx s Hs. unfold try_. apply runs_bind. eapply runs_mono; [reflexivity| |exact (Hx s Hs)].
  unfold acct. intros i j [a|[e| |]] s' Hij Hi; cbn; unfold acct; cbn; try lia.
  - destruct Hi as (? & ? & ?). repeat split; lia || done.
  - destruct Hi as (? & ? & ?). repeat split; lia || done.
Qed.

(** Calls paid for beforehand are kept across an operation. *)
Lemma uses_keep {A} n (x : M A) : uses L 0 0 x -> uses L n n x.
Proof. apply (uses_frame n 0 0). Qed.
Lemma uses_try_keep {A} n (x : M A) : uses L 0 0 x -> uses L n n (try_ x).
Proof. intros Hx. eapply uses_keep, uses_try, Hx. Qed.

Lemma uses_for_each {A} n (xs : list A) body :
  (forall x, uses L n n (body x)) -> uses L n n (for_each xs body).
Proof.
  intros H. induction xs as [|x xs IH]; [apply uses_ret|]. cbn.
  eapply uses_bind; [apply H|]. intros. apply IH.
Qed.

Lemma uses_fold_each {A B} n (xs : list A) (b : B) body :
  (forall b x, uses L n n (body b x)) -> uses L n n (fold_each xs b body).
Proof.
  intros H. revert b. induction xs as [|x xs IH]; intros b; [apply uses_ret|]. cbn.
  eapply uses_bind; [apply H|]. apply IH.
Qed.
End Rules.

(** A spend at the head of an iteration lowers the bound: the recursive call
    of a loop is made with one unit of fuel less. *)
Lemma uses_spend_loop {A} L pre post (k : unit -> M A) :
  uses L (S pre) post (k tt) -> uses (S L) pre post (spend ≫= k).
Proof.
  intros Hk s Hs. change ((spend ≫= k) s) with (mbind_ spend k s). unfold mbind_, spend.
  destruct (max_ops s) as [|n] eqn:En; cbn.
  { unfold acct. cbn. rewrite En. split; [done|]. split; [lia|done]. }
  set (s1 := {| max_ops := n; h_floor := _; h_memo := _ |}).
  replace (S (n + pre))%nat with (n + S pre)%nat by lia.
  eapply runs_mono; [reflexivity| |apply (Hk s1); cbn; lia].
  intros i j r s'. apply acct_mono. cbn. lia.
Qed.

(** [if let Err(e) = budget.spend()]: the spent branch may also go round. *)
Lemma uses_try_spend {A} L pre post (k : Result Error unit -> M A) :
  uses L (S pre) post (k (Ok tt)) -> (forall L, uses L pre post (k (Err BudgetExhausted))) ->
  uses (S L) pre post (try_ spend ≫= k).
Proof.
  intros Hok Herr [n fl mm] Hs. cbn in Hs. destruct n as [|n].
  - apply (Herr 1%nat {| max_ops := 0; h_floor := fl; h_memo := mm |}). cbn. lia.
  - change ((try_ spend ≫= k) {| max_ops := S n; h_floor := fl; h_memo := mm |})
      with (k (Ok tt) {| max_ops := n; h_floor := fl; h_memo := mm |}).
    cbn [max_ops]. replace (S n + pre)%nat with (n + S pre)%nat by lia.
    eapply runs_mono; [reflexivity| |apply (Hok {| max_ops := n; h_floor := fl; h_memo := mm |}); cbn; lia].
    intros i j r s'. apply acct_mono. cbn. lia.
Qed.

(** A bound that is larger than needed. *)
Lemma uses_bound {A} L L' pre post (x : M A) : (L <= L')%nat -> uses L' pre post x -> uses L pre post x.
Proof. intros Hle Hx s Hs. apply Hx. lia. Qed.

(** An operation that begins, however deep, with a spend: what is left of it
    after the spend, and its stop without budget. *)
Definition after_spend {A} (x y : M A) : Prop := forall n fl mm,
  x {| max_ops := S n; h_floor := fl; h_memo := mm |} = y {| max_ops := n; h_floor := fl; h_memo := mm |}.
Definition needs_budget {A} (x : M A) : Prop := forall fl mm,
  x {| max_ops := 0; h_floor := fl; h_memo := mm |}
  = Ret (Err (Fails BudgetExhausted), {| max_ops := 0; h_floor := fl; h_memo := mm |}).

Lemma after_spend_spend : after_spend spend (mret tt).
Proof. intros n fl mm. reflexivity. Qed.
Lemma after_spend_bind {A B} (x y : M A) (f : A -> M B) :
  after_spend x y -> after_spend (x ≫= f) (y ≫= f).
Proof.
  intros Hx n fl mm. change (mbind_ x f {| max_ops := S n; h_floor := fl; h_memo := mm |}
    = mbind_ y f {| max_ops := n; h_floor := fl; h_memo := mm |}). unfold mbind_. by rewrite Hx.
Qed.
Lemma after_spend_try {A} (x y : M A) : after_spend x y -> after_spend (try_ x) (try_ y).
Proof. intros Hx n fl mm. unfold try_. by rewrite Hx. Qed.
Lemma needs_budget_bind {A B} (x : M A) (f : A -> M B) : needs_budget x -> needs_budget (x ≫= f).
Proof.
  intros Hx fl mm. change (mbind_ x f {| max_ops := 0; h_floor := fl; h_memo := mm |}
    = Ret (Err (Fails BudgetExhausted), {| max_ops := 0; h_floor := fl; h_memo := mm |})).
  unfold mbind_. by rewrite Hx.
Qed.

Lemma uses_spend_first {A} L pre post (x y : M A) :
  after_spend x y -> needs_budget x -> uses L (S pre) post y -> uses (S L) pre post x.
Proof.
  intros HS H0 Hy [n fl mm] Hs. cbn in Hs. destruct n as [|n].
  - rewrite H0. cbn. unfold acct. cbn. split; [lia|]. split; [lia|done].
  - rewrite HS. cbn [max_ops]. replace (S n + pre)%nat with (n + S pre)%nat by lia.
    eapply runs_mono; [reflexivity| |apply (Hy {| max_ops := n; h_floor := fl; h_memo := mm |}); cbn; lia].
    intros i j r s'. apply acct_mono. cbn. lia.
Qed.

Lemma uses_no_budget {A} pre post (x : M A) : uses 0 pre post x.
Proof. intros s Hs. lia. Qed.

Lemma uses_budget_loop {A} L pre post (f : nat -> M A) :
  (forall fuel, uses fuel pre post (f fuel)) -> uses L pre post (budget_loop f).
Proof. intros H s _. unfold budget_loop. apply (H (S (max_ops s))). lia. Qed.

Create HintDb uses.
#[export] Hint Resolve uses_ret uses_fail uses_spend uses_call uses_token uses_elapsed uses_get_state
  uses_set_floor uses_set_memo uses_store_ok uses_record_ok uses_ok_or_fail uses_unwrap : uses.
