(* ===== verification/Rely.v ===== *)
(** Rely-guarantee reasoning about clients of a shared store.

    [exec] is the concurrent semantics of a program: its own store calls are
    steps of the primitive contract (every fault the contract allows
    included), and between them the environment may take any [rely] step.
    [wp] is the matching weakest precondition and [sat] its form for the
    operations' monad; every store call of a verified program must itself be
    a [rely] step, so that [pool_invariant] holds for any number of verified
    programs run in any interleaving. *)

From S2P Require Import Prelude Sha256 Keys Store Effects.

Section Logic.
Context `{Sha256} (rely : Space -> Space -> Prop).

(* ---------------------------------------------------------------- *)
(** ** Semantics *)

Inductive exec {A} : prog A -> Space -> A -> Space -> Prop :=
| ex_ret a m : exec (Ret a) m a m
| ex_env p m m1 a m' : rely m m1 -> exec p m1 a m' -> exec p m a m'
| ex_store c k m x m1 a m' :
    contract c m x m1 -> exec (k x) m1 a m' -> exec (Vis (EStore c) k) m a m'
| ex_token k m t a m' : is_id t -> exec (k t) m a m' -> exec (Vis EToken k) m a m'
| ex_elapsed k m t a m' : is_u64 t -> exec (k t) m a m' -> exec (Vis EElapsed k) m a m'.

Fixpoint wp {A} (p : prog A) (m : Space) (Q : A -> Space -> Prop) : Prop :=
  match p with
  | Ret a => forall m', rely m m' -> Q a m'
  | Vis (EStore c) k => forall m1, rely m m1 -> forall x m2, contract c m1 x m2 ->
      rely m1 m2 /\ wp (k x) m2 Q
  | Vis EToken k => forall t, is_id t -> wp (k t) m Q
  | Vis EElapsed k => forall t, is_u64 t -> wp (k t) m Q
  end.

Context `{!PreOrder rely}.

Lemma wp_stable {A} (p : prog A) m m1 Q : rely m m1 -> wp p m Q -> wp p m1 Q.
Proof.
  intros Hm. induction p as [a|[c| |] k IH]; cbn [wp]; intros Hp.
  - intros m' Hm'. apply Hp. by etrans.
  - intros m2 Hm2. apply Hp. by etrans.
  - auto.
  - auto.
Qed.

Lemma exec_wp {A} (p : prog A) m a m' Q : exec p m a m' -> wp p m Q -> Q a m'.
Proof.
  induction 1 as [a m|p m m1 a m' Hm _ IH|c k m x m1 a m' Hc _ IH|k m t a m' Ht _ IH|k m t a m' Ht _ IH];
    intros Hp.
  - by apply Hp.
  - apply IH. by eapply wp_stable.
  - apply IH. cbn in Hp. by apply (Hp m (reflexivity m) x m1 Hc).
  - apply IH, Hp, Ht.
  - apply IH, Hp, Ht.
Qed.

Lemma wp_mono {A} (p : prog A) m (Q Q' : A -> Space -> Prop) :
  (forall a m', Q a m' -> Q' a m') -> wp p m Q -> wp p m Q'.
Proof.
  intros HQ. revert m. induction p as [a|[c| |] k IH]; cbn [wp]; intros m Hp; auto.
  intros m1 Hm1 x m2 Hc. destruct (Hp m1 Hm1 x m2 Hc). auto.
Qed.

Lemma wp_bind {A B} (p : prog A) (f : A -> prog B) m Q :
  wp p m (fun a m' => wp (f a) m' Q) -> wp (pbind p f) m Q.
Proof.
  revert m. induction p as [a|[c| |] k IH]; cbn [wp pbind]; intros m Hp.
  - apply Hp. reflexivity.
  - intros m1 Hm1 x m2 Hc. destruct (Hp m1 Hm1 x m2 Hc). auto.
  - auto.
  - auto.
Qed.

(* ---------------------------------------------------------------- *)
(** ** Pools of clients *)

Inductive client : Type :=
| Client (A : Type) (p : prog A).

(** One effect of one client. *)
Definition client_step {A} (p : prog A) (m : Space) (p' : prog A) (m' : Space) : Prop :=
  match p with
  | Ret _ => False
  | Vis (EStore c) k => exists x, contract c m x m' /\ p' = k x
  | Vis EToken k => exists t, is_id t /\ m' = m /\ p' = k t
  | Vis EElapsed k => exists t, is_u64 t /\ m' = m /\ p' = k t
  end.

Inductive pool_step : list client * Space -> list client * Space -> Prop :=
| pool_step_one {A} (p p' : prog A) l1 l2 m m' :
    client_step p m p' m' -> pool_step (l1 ++ Client _ p :: l2, m) (l1 ++ Client _ p' :: l2, m').

Definition verified (m : Space) (c : client) : Prop :=
  match c with Client _ p => wp p m (fun _ _ => True) end.

Lemma client_step_wp {A} (p p' : prog A) m m' Q :
  client_step p m p' m' -> wp p m Q -> rely m m' /\ wp p' m' Q.
Proof.
  destruct p as [a|[c| |] k]; cbn; [done| | |].
  - intros (x & Hc & ->) Hp. by apply (Hp m (reflexivity m)).
  - intros (t & Ht & -> & ->) Hp. split; [reflexivity|]. by apply Hp.
  - intros (t & Ht & -> & ->) Hp. split; [reflexivity|]. by apply Hp.
Qed.

Lemma verified_stable m m' c : rely m m' -> verified m c -> verified m' c.
Proof. destruct c. apply wp_stable. Qed.

Lemma pool_invariant_aux cm cm' :
  rtc pool_step cm cm' -> Forall (verified cm.2) cm.1 -> rely cm.2 cm'.2 /\ Forall (verified cm'.2) cm'.1.
Proof.
  induction 1 as [cm|cm cm1 cm2 Hs _ IH]; intros Hv; [split; [reflexivity|done]|].
  destruct Hs as [A p p' l1 l2 m m1 Hs]. cbn [fst snd] in *.
  apply Forall_app in Hv as [Hv1 Hv2]. apply Forall_cons in Hv2 as [Hp Hv2].
  destruct (client_step_wp _ _ _ _ _ Hs Hp) as [Hr Hp'].
  destruct IH as [Hr' Hv'].
  { apply Forall_app. split; [|apply Forall_cons; split; [done|]];
      (eapply Forall_impl; [eassumption|intros; by eapply verified_stable]). }
  split; [by etrans|done].
Qed.

(* ---------------------------------------------------------------- *)
(** ** The operations' monad *)

(** The handle's cached floor is a 64-bit time. *)
Definition cached_ok (s : HState) : Prop := is_u64 (floor_ns (h_floor s)).

Definition sat {A} (x : M A) (m : Space) (Q : A -> Space -> Prop) : Prop :=
  forall s, cached_ok s ->
  wp (x s) m (fun rs m' => rely m m' /\ cached_ok rs.2 /\ match rs.1 with Ok a => Q a m' | Err _ => True end).

Lemma sat_bind {A B} (x : M A) (f : A -> M B) m Q R :
  sat x m Q -> (forall a m', rely m m' -> Q a m' -> sat (f a) m' R) -> sat (x ≫= f) m R.
Proof.
  intros Hx Hf s Hs. change ((x ≫= f) s) with (mbind_ x f s). unfold mbind_. apply wp_bind.
  eapply wp_mono; [|by apply Hx]. intros [r s'] m' (Hm & Hs' & HQ). cbn in HQ. destruct r as [a|e]; cbn.
  - eapply wp_mono; [|apply (Hf a m' Hm HQ s' Hs')]. intros rs m2 (Hm2 & Hs2 & HR). split; [by etrans|done].
  - intros m2 Hm2. split; [by etrans|done].
Qed.

Lemma sat_mono {A} (x : M A) m (Q Q' : A -> Space -> Prop) :
  sat x m Q -> (forall a m', rely m m' -> Q a m' -> Q' a m') -> sat x m Q'.
Proof.
  intros Hx HQ s Hs. eapply wp_mono; [|by apply Hx]. intros [r s'] m' (Hm & Hs' & Hr). split; [done|].
  split; [done|]. cbn in *. destruct r; auto.
Qed.

Lemma wp_rely {B} (p : prog B) m (P : B -> Space -> Prop) :
  wp p m P -> wp p m (fun a m' => rely m m' /\ P a m').
Proof.
  revert m P. induction p as [a|[c| |] k IH]; cbn [wp]; intros m0 P Hp; auto.
  intros m1' Hm1 x' m2 Hc. destruct (Hp m1' Hm1 x' m2 Hc) as [Hr Hk]. split; [done|].
  eapply wp_mono; [|apply IH, Hk]. intros a m' [Hm' HP]. split; [|done].
  etrans; [exact Hm1|]. by etrans.
Qed.

Lemma sat_stable {A} (x : M A) m m1 Q : rely m m1 -> sat x m Q -> sat x m1 Q.
Proof.
  intros Hm Hx s Hs. specialize (Hx s Hs). eapply wp_stable, wp_rely in Hx; [|exact Hm].
  eapply wp_mono; [|exact Hx]. cbn. intros rs m' (Hm1 & _ & HQ). done.
Qed.

Lemma sat_ret {A} (a : A) m (Q : A -> Space -> Prop) :
  (forall m', rely m m' -> Q a m') -> sat (mret a) m Q.
Proof. intros HQ s Hs m' Hm. split; [done|]. split; [done|]. by apply HQ. Qed.
Lemma sat_throw {A} (e : Stop) m (Q : A -> Space -> Prop) : sat (throw e) m Q.
Proof. intros s Hs m' Hm. split; done. Qed.
Lemma sat_fail {A} (e : Error) m (Q : A -> Space -> Prop) : sat (fail e) m Q.
Proof. apply sat_throw. Qed.

(** Postconditions that later steps of anyone keep. *)
Definition kept (P : Space -> Prop) : Prop := forall m m', rely m m' -> P m -> P m'.

Lemma sat_try {A} (x : M A) m (Q : A -> Space -> Prop) :
  (forall a, kept (Q a)) -> sat x m Q ->
  sat (try_ x) m (fun r m' => match r with Ok a => Q a m' | Err _ => True end).
Proof.
  intros HQ Hx s Hs. unfold try_. apply wp_bind. eapply wp_mono; [|by apply Hx].
  intros [r s'] m' (Hm & Hs' & Hr). cbn in Hr. destruct r as [a|[e| |]]; cbn; intros m2 Hm2;
    (split; [by etrans|]); cbn; try done. split; [done|]. by eapply HQ.
Qed.

(** A store call: it must be a step of the rely. *)
Lemma sat_call c m (Q : answer c -> Space -> Prop) :
  (forall x, kept (Q x)) ->
  (forall m1 x m2, rely m m1 -> contract c m1 x m2 -> rely m1 m2 /\ Q x m2) -> sat (do_call c) m Q.
Proof.
  intros HQ Hc s Hs m1 Hm1 x m2 Hx. destruct (Hc m1 x m2 Hm1 Hx) as [Hr H2]. split; [done|].
  cbn. intros m3 Hm3. split; [etrans; [exact Hm1|]; by etrans|]. split; [done|]. by eapply HQ.
Qed.

Definition trivial {A} : A -> Space -> Prop := fun _ _ => True.

Lemma sat_true {A} (x : M A) m Q : sat x m Q -> sat x m trivial.
Proof. intros Hx. by eapply sat_mono. Qed.

Lemma sat_token m : sat fresh_token m (fun t _ => is_id t).
Proof. intros s Hs t Ht m' Hm. by split. Qed.
Lemma sat_elapsed m : sat elapsed_ns m (fun t _ => is_u64 t).
Proof. intros s Hs t Ht m' Hm. by split. Qed.
Lemma sat_spend m : sat spend m trivial.
Proof. intros s Hs. unfold spend. destruct (max_ops s); intros m' Hm; by split. Qed.
Lemma sat_get_state m : sat get_state m (fun s _ => cached_ok s).
Proof. intros s Hs m' Hm. by split. Qed.
Lemma sat_set_budget n m : sat (set_budget n) m trivial.
Proof. intros s Hs m' Hm. by split. Qed.
Lemma sat_set_floor f m : is_u64 (floor_ns f) -> sat (set_floor f) m trivial.
Proof. intros Hf s Hs m' Hm. by split. Qed.
Lemma sat_set_memo f m : sat (set_memo f) m trivial.
Proof. intros s Hs m' Hm. by split. Qed.

(** Pure results: what [Ok] proves. *)
Lemma sat_store_ok {A} (r : StoreResult A) m : sat (store_ok r) m (fun a _ => r = Ok a).
Proof. destruct r; [by apply sat_ret|apply sat_fail]. Qed.
Lemma sat_record_ok {A} (r : Result Records.RecordError A) m : sat (record_ok r) m (fun a _ => r = Ok a).
Proof. destruct r; [by apply sat_ret|apply sat_fail]. Qed.
Lemma sat_ok_or_fail {A} (o : option A) e m : sat (ok_or_fail o e) m (fun a _ => o = Some a).
Proof. destruct o; [by apply sat_ret|apply sat_fail]. Qed.
Lemma sat_unwrap {A} (o : option A) m : sat (unwrap o) m (fun a _ => o = Some a).
Proof. destruct o; [by apply sat_ret|apply sat_throw]. Qed.

Lemma sat_budget_loop {A} (f : nat -> M A) m Q : (forall fuel, sat (f fuel) m Q) -> sat (budget_loop f) m Q.
Proof. intros Hf s. apply Hf. Qed.

Lemma sat_fold_each {A B} (xs : list A) (b : B) body m (P : B -> Space -> Prop) :
  (forall b, kept (P b)) -> P b m ->
  (forall b x m', x ∈ xs -> rely m m' -> P b m' -> sat (body b x) m' P) -> sat (fold_each xs b body) m P.
Proof.
  intros HP. revert b m. induction xs as [|x xs IH]; intros b m Hb Hbody; cbn [fold_each].
  { apply sat_ret. intros m' Hm. by eapply HP. }
  eapply sat_bind; [apply Hbody; [by left|reflexivity|done]|].
  intros b' m' Hm Hb'. apply IH; [done|]. intros b2 y m2 Hy Hm2. apply Hbody; [by right|by etrans].
Qed.

Lemma sat_for_each {A} (xs : list A) body m :
  (forall x m', x ∈ xs -> rely m m' -> sat (body x) m' trivial) -> sat (for_each xs body) m trivial.
Proof.
  revert m. induction xs as [|x xs IH]; intros m Hbody; cbn [for_each]; [by apply sat_ret|].
  eapply sat_bind; [apply Hbody; [by left|reflexivity]|].
  intros _ m' Hm _. apply IH. intros y m2 Hy Hm2. apply Hbody; [by right|by etrans].
Qed.
End Logic.

Arguments Client {A} p.
