(* ===== verification/Queue.v ===== *)
(** [stowq-core/src/lib.rs], lines 19 to 1165 and 1842 to 2317: the queue
    handle, outcome resolution, the wall floor and the watermark, [enqueue],
    [renew], [commit_output], [ack], [nack] and [bury].

    A handle's immutable part is [Queue]; its caches and the caller's budget
    are the [HState] of [Effects].  [tokio::join!] runs its branches in
    declaration order, as the code documents for immediately-ready stores. *)

From S2P Require Import Prelude Sha256 StowqMath Keys Records Direct Store Effects.

(* ------------------------------------------------------------------ *)
(** * Options and outcomes *)

Record OpenOptions := {
  o_queue_id : bytes;
  o_worker_id : bytes;
  o_retry : RetryPolicy;
  o_skew_guard_ns : Z;
  o_max_inline_payload : Z
}.

Definition open_options_new (queue_id : bytes) : option OpenOptions :=
  match retry_policy_new 100 60000 true None with
  | Ok retry =>
      Some {| o_queue_id := queue_id; o_worker_id := ¶"worker-1"; o_retry := retry;
              o_skew_guard_ns := 0; o_max_inline_payload := 65536 |}
  | Err _ => None
  end.

(** [OpBudget::split] and [OpBudget::merge] on the budget's count. *)
Definition split (max_ops n : nat) : nat * list nat :=
  match n with
  | O => (max_ops, [])
  | _ => let each := (max_ops / n)%nat in ((max_ops - each * n)%nat, replicate n each)
  end.
Definition merge (max_ops : nat) (children : list nat) : nat := (max_ops + sum_list children)%nat.

Record EnqueueInput := {
  ei_job_id : option bytes;
  ei_payload : bytes;
  ei_content_type : bytes;
  ei_maximum_attempts : Z;
  ei_not_before_ns : option Z
}.

Inductive EnqueueOutcome :=
| EnqCommitted (job_id : bytes)
| IdTaken (job_id : bytes).

Record ClaimOptions := { co_shard : Z; co_floor_ns : Z; co_lease_duration_ns : Z }.

Inductive PayloadRef :=
| Inline (b : bytes)
| Detached (key digest : bytes) (length : Z).

Record Claim := {
  cl_job_id : bytes;
  cl_shard : Z;
  cl_generation : Z;
  cl_attempt : Z;
  cl_worker_token : bytes;
  cl_lease_duration_ns : Z;
  cl_claim_store_time_ns : Z;
  cl_payload : PayloadRef
}.

Inductive ClaimOutcome := Claimed (c : Claim) | Empty.
Inductive AckOutcome := Acked | AlreadyAcked | SupersededByDead.
Record CommittedOutput := { out_key : bytes; out_digest : bytes }.
Inductive CommitOutcome := OutCommitted (o : CommittedOutput) | Converged (o : CommittedOutput).
Inductive BuryOutcome := Buried | SupersededByReceipt.
Inductive RenewOutcome := Renewed (c : Claim) | LeaseLost.

Inductive Resolved :=
| RCommitted
| RLost
| RNotCommitted.

(** [valid_output_name]. *)
Definition backslash : byte := Init.Byte.x5c.
Definition valid_output_name (name : bytes) : bool :=
  negb (bytes_eqb name []) &&
  negb (starts_with [slash] name) &&
  negb (bool_decide (backslash ∈ name)) &&
  negb (bool_decide (Init.Byte.x00 ∈ name)) &&
  forallb (fun seg => negb (bytes_eqb seg []) && negb (bytes_eqb seg ¶".") && negb (bytes_eqb seg ¶".."))
    (split_on slash name).

Definition FLOOR_STALENESS_NS : Z := 30 * 1000000000.
Definition TERMINAL_MEMO_TTL_NS : Z := 30 * 1000000000.
Definition TERMINAL_MEMO_CAP : Z := 65536.
Definition RETRY_TRANSPORT_MAX : nat := 4.
Definition QUEUE_ID_FOR_TOOLING : bytes := replicate 16 (byte_of 1).

(** The immutable part of a handle. *)
Record Queue := {
  q_root : bytes;
  q_opts : OpenOptions;
  q_format : FormatRecord
}.

(** A fresh handle's caches around a budget. *)
Definition fresh_handle (budget : nat) : HState :=
  {| max_ops := budget; h_floor := {| floor_ns := 0; established_at_ns := 0 |}; h_memo := ∅ |}.

(** [str::trim_end_matches('/')]. *)
Fixpoint trim_leading (l : bytes) : bytes :=
  match l with
  | b :: l' => if decide (b = slash) then trim_leading l' else l
  | [] => []
  end.
Definition trim_end_slash (s : bytes) : bytes := rev (trim_leading (rev s)).

Section Ops.
Context `{Sha256}.

Definition empty_digest : bytes := sha256 [].

(** [classify_output]. *)
Definition classify_output (obj : Object) (digest : bytes) (out : CommittedOutput)
  : Result Error CommitOutcome :=
  let got := sha256 (o_body obj) in
  if bytes_eqb got digest then Ok (Converged out) else Err (OutputConflict got).

(** [Claim::payload]: a detached payload is fetched and verified. *)
Definition payload (c : Claim) : M bytes :=
  match cl_payload c with
  | Inline b => mret b
  | Detached key digest len =>
      r ← do_get key;
      obj ← store_ok r;
      if negb (Z.of_nat (length (o_body obj)) =? len) then fail PayloadCorrupt
      else if negb (bytes_eqb (sha256 (o_body obj)) digest) then fail PayloadCorrupt
      else mret (o_body obj)
  end.

(** [Claim::detached_or_inline]: a handle rebuilt from the job record. *)
Definition detached_or_inline (job_id : bytes) (shard generation attempt : Z) (worker_token : bytes)
    (lease_duration claim_store_time : Z) (queue_root : bytes) : M Claim :=
  let rel := KJob shard job_id in
  let abs := queue_root ++ [slash] ++ key_to_string rel in
  let tag := key_tag QUEUE_ID_FOR_TOOLING (key_to_string rel) in
  r ← do_get abs;
  obj ← match r with
        | Ok obj => mret obj
        | Err NotFound => fail (RecordE (Msg "job record not found for handle"))
        | Err e => fail (StoreE e)
        end;
  rec ← record_ok (decode_record (o_body obj) QUEUE_ID_FOR_TOOLING tag);
  job ← match rec with
        | RecJob j => mret j
        | _ => fail (RecordE (Msg "job key holds a non-job record"))
        end;
  pl ← match j_payload_inline job, j_payload_key job with
       | Some b, _ => mret (Inline b)
       | None, Some k =>
           let key := queue_root ++ [slash] ++ k in
           r ← do_get key;
           obj ← store_ok r;
           if negb (bytes_eqb (sha256 (o_body obj)) (j_payload_digest job))
              || negb (Z.of_nat (length (o_body obj)) =? j_payload_length job)
           then fail PayloadCorrupt
           else mret (Detached key (j_payload_digest job) (j_payload_length job))
       | None, None => fail (RecordE (Msg "job payload reference invalid"))
       end;
  mret {| cl_job_id := job_id; cl_shard := shard; cl_generation := generation;
          cl_attempt := attempt; cl_worker_token := worker_token;
          cl_lease_duration_ns := lease_duration; cl_claim_store_time_ns := claim_store_time;
          cl_payload := pl |}.

(* ---------------------------------------------------------------- *)
(** ** Opening *)

(** [Queue::open_with_clock] on a root that may carry trailing slashes. *)
Definition open (root : bytes) (opts : OpenOptions) : M Queue :=
  let root := trim_end_slash root ++ [slash] in
  let key := root ++ key_to_string KFormat in
  let tag := key_tag (o_queue_id opts) ¶"meta/FORMAT" in
  r ← do_get key;
  obj ← store_ok r;
  record ← record_ok (decode_record (o_body obj) (o_queue_id opts) tag);
  match record with
  | RecFormat format =>
      _ ← record_ok (format_validate format);
      mret {| q_root := root; q_opts := opts; q_format := format |}
  | _ => fail (RecordE (Msg "meta/FORMAT is not a format record"))
  end.

(** The read-back loop of [init]: [retries] retries remain. *)
Fixpoint init_read (retries : nat) (key : bytes) : M Object :=
  r ← do_get key;
  match r with
  | Ok obj => mret obj
  | Err (Transport _) | Err (OutcomeUnknown _) =>
      match retries with
      | O => fail TransportExhausted
      | S retries => init_read retries key
      end
  | Err e => fail (StoreE e)
  end.

Definition init (root0 : bytes) (opts : OpenOptions) (format : FormatRecord) : M Queue :=
  _ ← record_ok (format_validate format);
  let root := trim_end_slash root0 ++ [slash] in
  let key := root ++ ¶"meta/FORMAT" in
  let tag := key_tag (o_queue_id opts) ¶"meta/FORMAT" in
  let body := encode_record (RecFormat format) (o_queue_id opts) tag in
  let digest := sha256 body in
  r ← do_put key body digest;
  outcome ← store_ok r;
  _ ← match outcome with
      | Committed _ => mret ()
      | Rejected =>
          obj ← init_read RETRY_TRANSPORT_MAX key;
          existing ← record_ok (decode_record (o_body obj) (o_queue_id opts) tag);
          if bool_decide (existing = RecFormat format) then mret () else fail QueueIdMismatch
      end;
  open root opts.

(* ---------------------------------------------------------------- *)
(** ** Resolution of outcomes *)

Context (q : Queue).
Let qid : bytes := o_queue_id (q_opts q).

Definition absolute (rel : Key) : bytes := q_root q ++ key_to_string rel.
Definition tag_for (rel : Key) : bytes := key_tag qid (key_to_string rel).
Definition decode_at (rel : Key) (body : bytes) : Result RecordError Record_ :=
  decode_record body qid (tag_for rel).
Definition encode_at (rel : Key) (record : Record_) : bytes := encode_record record qid (tag_for rel).

(** [read_retrying]: [retries] transport retries remain. *)
Fixpoint read_retrying_loop (retries : nat) (abs : bytes) : M Object :=
  _ ← spend;
  r ← do_get abs;
  match r with
  | Ok obj => mret obj
  | Err (Transport _) | Err (OutcomeUnknown _) =>
      match retries with
      | O => fail TransportExhausted
      | S retries => read_retrying_loop retries abs
      end
  | Err e => fail (StoreE e)
  end.
Definition read_retrying (abs : bytes) : M Object := read_retrying_loop RETRY_TRANSPORT_MAX abs.

Fixpoint resolve_presence_loop (retries : nat) (abs : bytes) : M bool :=
  _ ← spend;
  r ← do_head abs;
  match r with
  | Ok _ => mret true
  | Err NotFound => mret false
  | Err (Transport _) | Err (OutcomeUnknown _) =>
      match retries with
      | O => fail TransportExhausted
      | S retries => resolve_presence_loop retries abs
      end
  | Err e => fail (StoreE e)
  end.
Definition resolve_presence (abs : bytes) : M bool := resolve_presence_loop RETRY_TRANSPORT_MAX abs.

Fixpoint put_bytes_loop (retries : nat) (abs body digest : bytes) : M unit :=
  let retry := match retries with
               | O => fail TransportExhausted
               | S retries => put_bytes_loop retries abs body digest
               end in
  _ ← spend;
  r ← do_put abs body digest;
  match r with
  | Ok _ => mret ()
  | Err (Transport _) => retry
  | Err (OutcomeUnknown _) =>
      present ← resolve_presence abs;
      if (present : bool) then mret () else retry
  | Err e => fail (StoreE e)
  end.
Definition put_bytes_resolving (abs body digest : bytes) : M unit :=
  put_bytes_loop RETRY_TRANSPORT_MAX abs body digest.

Fixpoint resolve_unknown_loop (retries : nat) (abs : bytes) (intended : Record_) (rel : Key) : M Resolved :=
  _ ← spend;
  r ← do_head abs;
  match r with
  | Ok _ =>
      obj ← read_retrying abs;
      match decode_at rel (o_body obj) with
      | Ok found => mret (if bool_decide (found = intended) then RCommitted else RLost)
      | Err _ => mret RLost
      end
  | Err NotFound => mret RNotCommitted
  | Err (Transport _) | Err (OutcomeUnknown _) =>
      match retries with
      | O => fail TransportExhausted
      | S retries => resolve_unknown_loop retries abs intended rel
      end
  | Err e => fail (StoreE e)
  end.
Definition resolve_unknown (abs : bytes) (intended : Record_) (rel : Key) : M Resolved :=
  resolve_unknown_loop RETRY_TRANSPORT_MAX abs intended rel.

Fixpoint put_resolving_loop (retries : nat) (abs body digest : bytes) (intended : Record_) (rel : Key)
  : M Resolved :=
  let retry := match retries with
               | O => fail TransportExhausted
               | S retries => put_resolving_loop retries abs body digest intended rel
               end in
  _ ← spend;
  r ← do_put abs body digest;
  match r with
  | Ok (Committed _) => mret RCommitted
  | Ok Rejected => mret RLost
  | Err (Transport _) => retry
  | Err (OutcomeUnknown _) =>
      res ← resolve_unknown abs intended rel;
      match res with
      | RCommitted => mret RCommitted
      | RLost => mret RLost
      | RNotCommitted => retry
      end
  | Err e => fail (StoreE e)
  end.
Definition put_resolving (abs body digest : bytes) (intended : Record_) (rel : Key) : M Resolved :=
  put_resolving_loop RETRY_TRANSPORT_MAX abs body digest intended rel.

(** The write shared by every record: encode under the key's tag, hash,
    conditionally create. *)
Definition put_record (rel : Key) (record : Record_) : M Resolved :=
  let body := encode_at rel record in
  put_resolving (absolute rel) body (sha256 body) record rel.

(** [let _ = self.store.put_if_absent(&idx, Bytes::new(), ...)]: an advisory
    entry, its outcome ignored. *)
Definition put_index (rel : Key) : M unit :=
  _ ← do_put (absolute rel) [] empty_digest;
  mret ().

(* ---------------------------------------------------------------- *)
(** ** The terminality memo *)

Definition is_memoized_terminal (shard : Z) (job_id : bytes) (version : Version) : M bool :=
  st ← get_state;
  match h_memo st !! (shard, job_id) with
  | None => mret false
  | Some (v, at_) =>
      if bytes_eqb v version then
        now ← elapsed_ns;
        mret (saturating_sub now at_ <? TERMINAL_MEMO_TTL_NS)
      else mret false
  end.

(** At the cap the memo is cleared wholesale. *)
Definition memoize_terminal (shard : Z) (job_id : bytes) (version : Version) : M unit :=
  st ← get_state;
  now ← elapsed_ns;
  let memo := if TERMINAL_MEMO_CAP <=? Z.of_nat (size (h_memo st)) then ∅ else h_memo st in
  set_memo (<[(shard, job_id) := (version, now)]> memo).

(* ---------------------------------------------------------------- *)
(** ** The watermark *)

Definition watermark : M (option WatermarkRecord) :=
  r ← try_ (read_retrying (absolute KWatermark));
  match r with
  | Ok obj =>
      rec ← record_ok (decode_at KWatermark (o_body obj));
      match rec with
      | RecWatermark w => mret (Some w)
      | _ => fail (RecordE (Msg "watermark key holds a non-watermark record"))
      end
  | Err (StoreE NotFound) => mret None
  | Err e => fail e
  end.

Definition receipt_for (claim : Claim) : M (option ReceiptRecord) :=
  let rel := KReceipt (cl_shard claim) (cl_job_id claim) in
  r ← try_ (read_retrying (absolute rel));
  match r with
  | Ok obj =>
      rec ← record_ok (decode_at rel (o_body obj));
      match rec with
      | RecReceipt r => mret (Some r)
      | _ => fail (RecordE (Msg "receipt key holds a non-receipt record"))
      end
  | Err (StoreE NotFound) => mret None
  | Err e => fail e
  end.

Definition watermark_covers (bucket : Z) : M bool :=
  w ← watermark;
  mret (match w with Some w => bucket <=? highest_observed_wall_bucket w | None => false end).

(** The next record over the current one, or nothing to do. *)
Definition watermark_next (bucket : Z) (current : option WatermarkRecord) : option WatermarkRecord :=
  match current with
  | None => Some {| highest_observed_wall_bucket := bucket; w_sequence := 0 |}
  | Some w =>
      if bucket <=? highest_observed_wall_bucket w then None
      else Some {| highest_observed_wall_bucket := bucket;
                   w_sequence := wrapping_add (w_sequence w) 1 |}
  end.

Fixpoint advance_loop (fuel : nat) (bucket : Z) : M unit :=
  match fuel with
  | O => throw OutOfFuel
  | S fuel =>
      current ← watermark;
      match watermark_next bucket current with
      | None => mret ()
      | Some next =>
          let abs := absolute KWatermark in
          let body := encode_at KWatermark (RecWatermark next) in
          let digest := sha256 body in
          _ ← spend;
          outcome ← match current with
                    | Some _ =>
                        _ ← spend;
                        r ← do_head abs;
                        meta ← store_ok r;
                        do_cas abs body digest (m_version meta)
                    | None => do_put abs body digest
                    end;
          match outcome with
          | Ok (Committed _) => mret ()
          | Ok Rejected => advance_loop fuel bucket
          | Err (OutcomeUnknown _) =>
              covers ← watermark_covers bucket;
              if (covers : bool) then mret () else advance_loop fuel bucket
          | Err e => fail (StoreE e)
          end
      end
  end.

Definition advance_watermark (floor : Z) : M unit :=
  match bucket_number floor (delayed_bucket_width_ns (q_format q)) with
  | None => fail (Internal "zero delayed width")
  | Some bucket => budget_loop (fun fuel => advance_loop fuel bucket)
  end.

(* ---------------------------------------------------------------- *)
(** ** The wall floor *)

(** The beacon attempts: 0 when every one of them failed. *)
Fixpoint beacon_loop (attempts : nat) : M Z :=
  match attempts with
  | O => mret 0
  | S attempts =>
      nonce ← fresh_token;
      let abs := absolute (KBeacon nonce) in
      _ ← spend;
      r ← do_put abs [] empty_digest;
      match r with
      | Ok (Committed _) =>
          _ ← spend;
          r ← do_head abs;
          meta ← store_ok r;
          mret (m_store_time_ns meta)
      | Ok Rejected => beacon_loop attempts
      | Err (Transport _) | Err (OutcomeUnknown _) => beacon_loop attempts
      | Err e => fail (StoreE e)
      end
  end.

(** The cached floor while it is fresh ([None] when stale or unset). *)
Definition cached_floor : M (option Z) :=
  st ← get_state;
  let cache := h_floor st in
  if 0 <? floor_ns cache then
    now ← elapsed_ns;
    mret (if saturating_sub now (established_at_ns cache) <? FLOOR_STALENESS_NS
          then Some (floor_ns cache) else None)
  else mret None.

Definition establish_floor : M Z :=
  cached ← cached_floor;
  match cached with
  | Some floor => mret floor
  | None =>
      raw ← beacon_loop (S RETRY_TRANSPORT_MAX);
      if raw =? 0 then fail TransportExhausted
      else
        w ← watermark;
        floor ← match w with
                | None => mret raw
                | Some w =>
                    let wm_ns := saturating_mul (highest_observed_wall_bucket w)
                                   (delayed_bucket_width_ns (q_format q)) in
                    if saturating_add raw (o_skew_guard_ns (q_opts q)) <? wm_ns
                    then fail (StoreE (ProfileViolation "store time regression"))
                    else ok_or_fail (effective_floor raw (highest_observed_wall_bucket w)
                                       (delayed_bucket_width_ns (q_format q)))
                           (Internal "floor raise overflow")
                end;
        now ← elapsed_ns;
        _ ← set_floor {| floor_ns := floor; established_at_ns := now |};
        mret floor
  end.

(* ---------------------------------------------------------------- *)
(** ** Enqueue *)

Definition inline_limit_of : Z := Z.min (o_max_inline_payload (q_opts q)) (inline_limit (q_format q)).

Definition enqueue (input : EnqueueInput) : M EnqueueOutcome :=
  if ei_maximum_attempts input =? 0 then fail (RecordE (Msg "maximum_attempts must be positive"))
  else
    job_id ← match ei_job_id input with Some j => mret j | None => fresh_token end;
    shard ← unwrap (compute_shard qid job_id (Z.max (shard_count (q_format q)) 1));
    let payload_digest := sha256 (ei_payload input) in
    let inline := Z.of_nat (length (ei_payload input)) <=? inline_limit_of in
    '(payload_inline, payload_key) ←
      (if inline then mret (Some (ei_payload input), None)
       else
         let rel := KPayload job_id payload_digest in
         _ ← put_bytes_resolving (absolute rel) (ei_payload input) payload_digest;
         mret (None, Some (key_to_string rel)));
    let record := RecJob {| j_job_id := job_id; j_maximum_attempts := ei_maximum_attempts input;
                            j_content_type := ei_content_type input;
                            j_created_store_time_ns := 0;
                            j_not_before_ns := ei_not_before_ns input;
                            j_payload_digest := payload_digest;
                            j_payload_length := Z.of_nat (length (ei_payload input));
                            j_payload_inline := payload_inline; j_payload_key := payload_key |} in
    let rel := KJob shard job_id in
    _ ← spend;
    outcome ← put_record rel record;
    match outcome with
    | RNotCommitted => fail (Internal "enqueue not committed after retry")
    | RCommitted =>
        _ ← match ei_not_before_ns input with
            | None => mret ()
            | Some nb =>
                bucket ← ok_or_fail (bucket_number nb (delayed_bucket_width_ns (q_format q)))
                           (Internal "zero delayed width");
                _ ← spend;
                put_index (KDelayIndex bucket shard job_id)
            end;
        mret (EnqCommitted job_id)
    | RLost =>
        obj ← read_retrying (absolute rel);
        match decode_at rel (o_body obj) with
        | Ok found => mret (if bool_decide (found = record) then EnqCommitted job_id else IdTaken job_id)
        | Err _ => mret (IdTaken job_id)
        end
    end.

(* ---------------------------------------------------------------- *)
(** ** Advisory tail hints (feature bit 2) *)

Definition as_u32 (z : Z) : Z := z mod 2 ^ 32.
Definition hints_enabled : bool := negb (Z.land (required_feature_bits (q_format q)) 2 =? 0).

(** Errors are swallowed: a spend that fails skips the write, an answer is
    ignored. *)
Definition write_tail_hint (shard : Z) (job_id : bytes) (generation : Z) (known : option (Version * Z))
  : M unit :=
  if negb hints_enabled then mret ()
  else
    let abs := absolute (KTail shard job_id) in
    let body := be_bytes 8 generation in
    let digest := sha256 body in
    match known with
    | None =>
        r ← try_ spend;
        match r with
        | Ok _ => _ ← do_put abs body digest; mret ()
        | Err _ => mret ()
        end
    | Some (version, gen) =>
        if generation <=? gen then mret ()
        else
          r ← try_ spend;
          match r with
          | Ok _ => _ ← do_cas abs body digest version; mret ()
          | Err _ => mret ()
          end
    end.

(** Generation 0 marks a hint that cannot be trusted. *)
Definition read_tail_hint (shard : Z) (job_id : bytes) : M (option (Version * Z)) :=
  let abs := absolute (KTail shard job_id) in
  _ ← spend;
  r ← do_get abs;
  match r with
  | Ok obj =>
      let version := m_version (o_meta obj) in
      if (length (o_body obj) =? 8)%nat then
        let gen := be_val (o_body obj) in
        mret (Some (version, if (1 <=? gen) && (gen <=? u32_max) then gen else 0))
      else mret (Some (version, 0))
  | Err NotFound => mret None
  | Err e => fail (StoreE e)
  end.

Definition update_tail_hint (shard : Z) (job_id : bytes) (generation : Z) : M unit :=
  if negb hints_enabled then mret ()
  else
    known ← try_ (read_tail_hint shard job_id);
    match known with
    | Ok known => write_tail_hint shard job_id generation known
    | Err _ => mret ()
    end.

(* ---------------------------------------------------------------- *)
(** ** Renew *)

(** The probe of several keys in turn: stops at the first one present; only
    [NotFound] proves absence. *)
Fixpoint any_present (rels : list Key) : M bool :=
  match rels with
  | [] => mret false
  | rel :: rels =>
      _ ← spend;
      r ← do_head (absolute rel);
      match r with
      | Ok _ => mret true
      | Err NotFound => any_present rels
      | Err e => fail (StoreE e)
      end
  end.

Definition renewal_record (claim : Claim) : Record_ :=
  RecClaim {| c_job_id := cl_job_id claim; c_generation := cl_generation claim + 1;
              c_attempt := cl_attempt claim; c_worker_id := o_worker_id (q_opts q);
              c_worker_token := cl_worker_token claim;
              c_lease_duration_ns := cl_lease_duration_ns claim; c_continuation := true;
              c_basis := None; c_prev_token := Some (cl_worker_token claim) |}.

Definition renew (claim : Claim) : M RenewOutcome :=
  if u32_max <=? cl_generation claim then fail (Internal "generation space exhausted")
  else
    terminal ← any_present [KReceipt (cl_shard claim) (cl_job_id claim);
                            KDead (cl_shard claim) (cl_job_id claim)];
    if (terminal : bool) then mret LeaseLost
    else
      let rel := KClaim (cl_shard claim) (cl_job_id claim) (as_u32 (cl_generation claim + 1)) in
      _ ← spend;
      res ← put_record rel (renewal_record claim);
      match res with
      | RCommitted =>
          _ ← spend;
          r ← do_head (absolute rel);
          meta ← store_ok r;
          _ ← update_tail_hint (cl_shard claim) (cl_job_id claim) (cl_generation claim + 1);
          mret (Renewed {| cl_job_id := cl_job_id claim; cl_shard := cl_shard claim;
                           cl_generation := cl_generation claim + 1; cl_attempt := cl_attempt claim;
                           cl_worker_token := cl_worker_token claim;
                           cl_lease_duration_ns := cl_lease_duration_ns claim;
                           cl_claim_store_time_ns := m_store_time_ns meta;
                           cl_payload := cl_payload claim |})
      | RLost | RNotCommitted => mret LeaseLost
      end.

(* ---------------------------------------------------------------- *)
(** ** Outputs *)

Definition output_key (job_id name : bytes) : bytes :=
  q_root q ++ ¶"outputs/" ++ push_hex job_id ++ [slash] ++ name.

Definition result_ok {A} (r : Result Error A) : M A :=
  match r with Ok a => mret a | Err e => fail e end.

Fixpoint commit_output_loop (retries : nat) (abs body digest : bytes) (out : CommittedOutput)
  : M CommitOutcome :=
  let retry := match retries with
               | O => fail TransportExhausted
               | S retries => commit_output_loop retries abs body digest out
               end in
  _ ← spend;
  r ← do_put abs body digest;
  match r with
  | Ok (Committed _) => mret (OutCommitted out)
  | Ok Rejected =>
      obj ← read_retrying abs;
      result_ok (classify_output obj digest out)
  | Err (Transport _) => retry
  | Err (OutcomeUnknown _) =>
      r ← try_ (read_retrying abs);
      match r with
      | Ok obj => result_ok (classify_output obj digest out)
      | Err (StoreE NotFound) => retry
      | Err e => fail e
      end
  | Err e => fail (StoreE e)
  end.

Definition commit_output (claim : Claim) (name body : bytes) : M CommitOutcome :=
  if negb (valid_output_name name) then fail (KeyE "invalid output name")
  else
    let digest := sha256 body in
    let abs := output_key (cl_job_id claim) name in
    commit_output_loop RETRY_TRANSPORT_MAX abs body digest {| out_key := abs; out_digest := digest |}.

(* ---------------------------------------------------------------- *)
(** ** Terminal index *)

Definition write_termidx (kind : TermKind) (shard : Z) (job_id : bytes) : M unit :=
  r ← try_ spend;
  match r with
  | Err _ => mret ()
  | Ok _ =>
      r ← try_ establish_floor;
      match r with
      | Err _ => mret ()
      | Ok floor =>
          match bucket_number floor (terminal_bucket_width_ns (q_format q)) with
          | None => mret ()
          | Some bucket =>
              r ← try_ spend;
              match r with
              | Ok _ => put_index (KTermIndex bucket kind shard job_id)
              | Err _ => mret ()
              end
          end
      end
  end.

(* ---------------------------------------------------------------- *)
(** ** Ack *)

(** One recorded output: under this job's prefix, present, and with its
    committed digest. *)
Definition verify_output (claim : Claim) (out : CommittedOutput) : M unit :=
  let output_prefix := q_root q ++ ¶"outputs/" ++ push_hex (cl_job_id claim) ++ [slash] in
  if negb (starts_with output_prefix (out_key out)) then fail (KeyE "output is not the job's output")
  else
    r ← try_ (read_retrying (out_key out));
    match r with
    | Ok obj =>
        if negb (bytes_eqb (sha256 (o_body obj)) (out_digest out))
        then fail (OutputEvidenceMismatch "body does not match its committed digest")
        else mret ()
    | Err (StoreE NotFound) => fail (OutputEvidenceMismatch "absent at ack")
    | Err e => fail e
    end.

Definition receipt_of (claim : Claim) (digest : bytes) (outputs : list CommittedOutput) : ReceiptRecord :=
  {| r_job_id := cl_job_id claim; r_generation := cl_generation claim; r_attempt := cl_attempt claim;
     r_worker_id := o_worker_id (q_opts q); r_worker_token := cl_worker_token claim;
     r_payload_digest := digest; r_output_digests := map out_digest outputs |}.

(** The evidence an existing receipt must carry to count as this ack. *)
Definition same_ack (claim : Claim) (digest : bytes) (outputs : list CommittedOutput) (r : ReceiptRecord)
  : bool :=
  bytes_eqb (r_job_id r) (cl_job_id claim) && (r_generation r =? cl_generation claim)
  && (r_attempt r =? cl_attempt claim) && bytes_eqb (r_payload_digest r) digest
  && bool_decide (r_output_digests r = map out_digest outputs).

Definition ack_inner (claim : Claim) (outputs : list CommittedOutput) : M AckOutcome :=
  _ ← spend;
  _ ← spend;
  dead ← do_head (absolute (KDead (cl_shard claim) (cl_job_id claim)));
  pl ← try_ (payload claim);
  match dead with
  | Ok _ => mret SupersededByDead
  | Err NotFound =>
      pl ← result_ok pl;
      let digest := sha256 pl in
      _ ← for_each outputs (verify_output claim);
      let record := RecReceipt (receipt_of claim digest outputs) in
      let rel := KReceipt (cl_shard claim) (cl_job_id claim) in
      _ ← spend;
      res ← put_record rel record;
      match res with
      | RCommitted =>
          _ ← write_termidx TReceipt (cl_shard claim) (cl_job_id claim);
          mret Acked
      | RLost | RNotCommitted =>
          obj ← read_retrying (absolute rel);
          rec ← record_ok (decode_at rel (o_body obj));
          match rec with
          | RecReceipt r =>
              if same_ack claim digest outputs r then mret AlreadyAcked else fail ReceiptEvidenceMismatch
          | _ => fail (RecordE (Msg "receipt key holds a non-receipt record"))
          end
      end
  | Err e => fail (StoreE e)
  end.

Definition ack (claim : Claim) : M AckOutcome := ack_inner claim [].
Definition ack_with_outputs (claim : Claim) (outputs : list CommittedOutput) : M AckOutcome :=
  ack_inner claim outputs.

(* ---------------------------------------------------------------- *)
(** ** Nack *)

(** The product [delay_ms * 1_000_000] wraps in a release build. *)
Definition nack (claim : Claim) (reason floor : Z) : M unit :=
  delay_ms ← match retry_delay_ms qid (cl_job_id claim) (Z.min (cl_attempt claim) u32_max)
                     (o_retry (q_opts q)) with
             | Ok d => mret d
             | Err _ => fail (Internal "retry policy")
             end;
  not_before ← ok_or_fail (retry_not_before floor (wrapping_mul delay_ms 1000000))
                 (Internal "retry_not_before overflow");
  let record := RecFail {| f_job_id := cl_job_id claim; f_generation := cl_generation claim;
                           f_reason := reason; f_attempt := cl_attempt claim;
                           f_retry_not_before_ns := not_before |} in
  let rel := KFail (cl_shard claim) (cl_job_id claim) (as_u32 (cl_generation claim)) in
  _ ← spend;
  res ← put_record rel record;
  match res with
  | RNotCommitted => fail (Internal "nack not committed")
  | RCommitted | RLost =>
      match bucket_number not_before (delayed_bucket_width_ns (q_format q)) with
      | None => mret ()
      | Some bucket =>
          _ ← spend;
          put_index (KDelayIndex bucket (cl_shard claim) (cl_job_id claim))
      end
  end.

(* ---------------------------------------------------------------- *)
(** ** Bury *)

Definition bury (claim : Claim) (reason : Z) : M BuryOutcome :=
  _ ← spend;
  r ← do_head (absolute (KReceipt (cl_shard claim) (cl_job_id claim)));
  match r with
  | Ok _ => mret SupersededByReceipt
  | Err NotFound =>
      let record := RecDead {| d_job_id := cl_job_id claim; d_generation := cl_generation claim;
                               d_attempt := cl_attempt claim; d_reason := reason |} in
      let rel := KDead (cl_shard claim) (cl_job_id claim) in
      _ ← spend;
      res ← put_record rel record;
      match res with
      | RCommitted =>
          _ ← write_termidx TDead (cl_shard claim) (cl_job_id claim);
          mret Buried
      | RLost =>
          obj ← read_retrying (absolute rel);
          rec ← record_ok (decode_at rel (o_body obj));
          match rec with
          | RecDead d =>
              if (d_generation d =? cl_generation claim) && (d_attempt d =? cl_attempt claim)
              then mret Buried
              else fail (RecordE (Msg "dead key holds conflicting evidence"))
          | _ => fail (RecordE (Msg "dead key holds conflicting evidence"))
          end
      | RNotCommitted => fail (Internal "bury not committed")
      end
  | Err e => fail (StoreE e)
  end.
End Ops.

(** [parse_generation]: the last segment, eight hexadecimal digits of either
    case. *)
Definition hexdigit_value (b : byte) : option Z :=
  let v := byte_val b in
  if (48 <=? v) && (v <=? 57) then Some (v - 48)
  else if (97 <=? v) && (v <=? 102) then Some (v - 87)
  else if (65 <=? v) && (v <=? 70) then Some (v - 55)
  else None.

Fixpoint radix16 (acc : Z) (s : bytes) : option Z :=
  match s with
  | [] => Some acc
  | b :: s => d ← hexdigit_value b; radix16 (acc * 16 + d) s
  end.

Definition last_segment (key : bytes) : bytes := default [] (last (split_on slash key)).

Definition parse_generation (key : bytes) : option Z :=
  let segment := last_segment key in
  if (length segment =? 8)%nat then radix16 0 segment else None.
