(* ===== verification/Claims.v ===== *)
(** [stowq-core/src/lib.rs], lines 1168 to 1327 and 1372 to 1840: the claim
    scan.

    [claim_many] probes candidates in waves; [join_all] runs a wave's probes
    in declaration order on immediately-ready stores, each on its own slice of
    the budget.  [try_claim] is split at its stages: the gathering of
    evidence, the backoff gate, the job record, the exhaustion record and the
    claim record itself; its [loop] goes round at most once more, when the tail
    came from an advisory hint. *)

From S2P Require Import Prelude Sha256 StowqMath Keys Records Direct Store Effects Queue.

Definition empty_meta : Meta := {| m_version := ¶"0"; m_store_time_ns := 0; m_size := 0 |}.

(** The chain tail a claim builds on: generation 0 when there is no claim. *)
Record Tail := {
  t_gen : Z;
  t_meta : Meta;
  t_attempt : Z;
  t_duration : Z
}.

Record Candidate := { cd_job_id : bytes; cd_shard : Z; cd_version : Version }.

(** What a wave's results amount to. *)
Record WaveResults := {
  wr_claims : list Claim;
  wr_first_err : option Error;
  wr_exhausted : bool
}.

Section Ops.
Context `{Sha256} (q : Queue).
Let qid : bytes := o_queue_id (q_opts q).

Definition claims_prefix (shard : Z) (job_id : bytes) : bytes :=
  q_root q ++ ¶"claims/" ++ hex16 shard ++ [slash] ++ push_hex job_id ++ [slash].

(** [tail_record]: attempt and lease duration of a generation. *)
Definition tail_record (shard : Z) (job_id : bytes) (generation : Z) : M (Z * Z) :=
  _ ← spend;
  let rel := KClaim shard job_id (as_u32 generation) in
  r ← do_get (absolute q rel);
  obj ← store_ok r;
  rec ← record_ok (decode_at q rel (o_body obj));
  match rec with
  | RecClaim c => mret (c_attempt c, c_lease_duration_ns c)
  | _ => fail (RecordE (Msg "claim key holds a non-claim record"))
  end.

(** The last parseable generation of a page, over the pages before it. *)
Definition page_tail (tail : option (Z * Meta)) (items : list Listing) : option (Z * Meta) :=
  fold_left (fun tail item =>
    match parse_generation (l_key item) with
    | Some g => Some (g, l_meta item)
    | None => tail
    end) items tail.

Fixpoint list_tail_loop (fuel : nat) (prefix : bytes) (after : option bytes) (tail : option (Z * Meta))
  : M (option (Z * Meta)) :=
  match fuel with
  | O => throw OutOfFuel
  | S fuel =>
      _ ← spend;
      r ← do_list prefix after 64;
      page ← store_ok r;
      let tail := page_tail tail (p_items page) in
      match p_next_after page with
      | Some k => list_tail_loop fuel prefix (Some k) tail
      | None => mret tail
      end
  end.
Definition list_tail (prefix : bytes) : M (option (Z * Meta)) :=
  budget_loop (fun fuel => list_tail_loop fuel prefix None None).

(** The third branch of the join: the tail, the hint state for the
    commit-time write, and the hinted record when the hint was used. *)
Definition gather_tail (shard : Z) (job_id : bytes)
  : M (option (Z * Meta) * option (Version * Z) * option ClaimRecord) :=
  let listed hint := t ← list_tail (claims_prefix shard job_id); mret (t, hint, None) in
  if negb (hints_enabled q) then listed None
  else
    hint ← read_tail_hint q shard job_id;
    match hint with
    | None => listed None
    | Some (version, gen) =>
        if (0 <? gen) && (gen <=? u32_max) then
          let rel := KClaim shard job_id (as_u32 gen) in
          _ ← spend;
          r ← do_get (absolute q rel);
          match r with
          | Ok obj =>
              match decode_at q rel (o_body obj) with
              | Ok (RecClaim c) => mret (Some (gen, o_meta obj), Some (version, gen), Some c)
              | _ => listed (Some (version, 0))
              end
          | Err NotFound => listed (Some (version, 0))
          | Err e => fail (StoreE e)
          end
        else listed (Some (version, 0))
    end.

(** Attempt bookkeeping of a discovered tail. *)
Definition tail_of (shard : Z) (job_id : bytes) (tail : option (Z * Meta)) (hinted : option ClaimRecord)
  : M Tail :=
  let '(gen, meta) := default (0, empty_meta) tail in
  '(attempt, duration) ←
    (if gen =? 0 then mret (0, 0)
     else match hinted with
          | Some c => mret (c_attempt c, c_lease_duration_ns c)
          | None => tail_record shard job_id gen
          end);
  mret {| t_gen := gen; t_meta := meta; t_attempt := attempt; t_duration := duration |}.

(** The authoritative re-discovery of the retry arms. *)
Definition rediscover (shard : Z) (job_id : bytes) : M Tail :=
  t ← list_tail (claims_prefix shard job_id);
  tail_of shard job_id t None.

Definition expired (opts : ClaimOptions) (t : Tail) : bool :=
  (t_gen t =? 0) ||
  (saturating_add (saturating_add (m_store_time_ns (t_meta t)) (t_duration t)) (o_skew_guard_ns (q_opts q))
   <=? co_floor_ns opts).

(** The tail generation's fail record gates readiness: [true] while it
    holds the job back. *)
Definition backoff_gate (shard : Z) (job_id : bytes) (opts : ClaimOptions) (t : Tail) : M bool :=
  if 0 <? t_gen t then
    _ ← spend;
    let rel := KFail shard job_id (as_u32 (t_gen t)) in
    r ← do_get (absolute q rel);
    match r with
    | Ok obj =>
        rec ← record_ok (decode_at q rel (o_body obj));
        match rec with
        | RecFail f => mret (co_floor_ns opts <? f_retry_not_before_ns f)
        | _ => fail (RecordE (Msg "fail key holds a non-fail record"))
        end
    | Err NotFound => mret false
    | Err e => fail (StoreE e)
    end
  else mret false.

(** The job record; [None] when GC removed it since the listing. *)
Definition read_job (shard : Z) (job_id : bytes) : M (option JobRecord) :=
  _ ← spend;
  let rel := KJob shard job_id in
  r ← do_get (absolute q rel);
  match r with
  | Ok obj =>
      rec ← record_ok (decode_at q rel (o_body obj));
      match rec with
      | RecJob j => mret (Some j)
      | _ => fail (RecordE (Msg "job key holds a non-job record"))
      end
  | Err NotFound => mret None
  | Err e => fail (StoreE e)
  end.

(** The exhaustion record, once the tail is authoritative. *)
Definition exhaust (shard : Z) (job_id : bytes) (t : Tail) : M unit :=
  let dead := RecDead {| d_job_id := job_id; d_generation := t_gen t; d_attempt := t_attempt t;
                         d_reason := 0x0004 |} in
  _ ← spend;
  res ← put_record q (KDead shard job_id) dead;
  match res with
  | RCommitted => write_termidx q TDead shard job_id
  | _ => mret ()
  end.

Definition claim_record (opts : ClaimOptions) (job_id : bytes) (t : Tail) (attempt : Z) (token : bytes)
  : Record_ :=
  RecClaim {| c_job_id := job_id; c_generation := t_gen t + 1; c_attempt := attempt;
              c_worker_id := o_worker_id (q_opts q); c_worker_token := token;
              c_lease_duration_ns := co_lease_duration_ns opts; c_continuation := false;
              c_basis := Some {| prev_store_time_ns := m_store_time_ns (t_meta t);
                                 prev_duration_ns := t_duration t;
                                 observed_watermark_ns := co_floor_ns opts |};
              c_prev_token := None |}.

Definition payload_ref (job : JobRecord) : M PayloadRef :=
  match j_payload_inline job, j_payload_key job with
  | Some b, _ => mret (Inline b)
  | None, Some k => mret (Detached (q_root q ++ k) (j_payload_digest job) (j_payload_length job))
  | None, None => fail (RecordE (Msg "job payload reference invalid"))
  end.

(** After the claim committed: its store time, the payload, the advisory
    hint and lease index. *)
Definition take_custody (opts : ClaimOptions) (shard : Z) (job_id : bytes) (job : JobRecord) (t : Tail)
    (attempt : Z) (token : bytes) (hint : option (Version * Z)) (rel : Key) : M Claim :=
  _ ← spend;
  r ← do_head (absolute q rel);
  meta ← store_ok r;
  pl ← payload_ref job;
  _ ← write_tail_hint q shard job_id (t_gen t + 1) hint;
  let expiry := saturating_add (m_store_time_ns meta) (co_lease_duration_ns opts) in
  _ ← match bucket_number expiry (lease_bucket_width_ns (q_format q)) with
      | None => mret ()
      | Some bucket =>
          _ ← spend;
          put_index q (KLeaseIndex bucket shard job_id (as_u32 (t_gen t + 1)))
      end;
  mret {| cl_job_id := job_id; cl_shard := shard; cl_generation := t_gen t + 1; cl_attempt := attempt;
          cl_worker_token := token; cl_lease_duration_ns := co_lease_duration_ns opts;
          cl_claim_store_time_ns := m_store_time_ns meta; cl_payload := pl |}.

(** One pass of the loop.  [again] is the pass to continue with, present
    exactly when the tail came from a hint ([hint_used]). *)
Definition claim_round (opts : ClaimOptions) (shard : Z) (job_id : bytes) (hint : option (Version * Z))
    (again : option (M (option Claim))) (t : Tail) : M (option Claim) :=
  held ← backoff_gate shard job_id opts t;
  if (held : bool) then mret None
  else if negb (expired opts t) then mret None
  else
    let attempt := wrapping_add (t_attempt t) 1 in
    job ← read_job shard job_id;
    match job with
    | None => mret None
    | Some job =>
        if match j_not_before_ns job with Some nb => co_floor_ns opts <? nb | None => false end
        then mret None
        else if j_maximum_attempts job <? attempt then
          match again with
          | Some again => again
          | None => _ ← exhaust shard job_id t; mret None
          end
        else if u32_max <=? t_gen t then fail (Internal "generation space exhausted")
        else
          token ← fresh_token;
          let rel := KClaim shard job_id (as_u32 (t_gen t + 1)) in
          _ ← spend;
          res ← put_record q rel (claim_record opts job_id t attempt token);
          match res with
          | RCommitted => c ← take_custody opts shard job_id job t attempt token hint rel; mret (Some c)
          | RLost | RNotCommitted =>
              match again with Some again => again | None => mret None end
          end
    end.

Definition try_claim (job_id : bytes) (shard : Z) (jobs_version : Version) (opts : ClaimOptions)
  : M (option Claim) :=
  _ ← spend;
  _ ← spend;
  _ ← spend;
  receipt ← do_head (absolute q (KReceipt shard job_id));
  dead ← do_head (absolute q (KDead shard job_id));
  gathered ← try_ (gather_tail shard job_id);
  match receipt, dead with
  | Err NotFound, Err NotFound =>
      '(tail, hint, hinted) ← result_ok gathered;
      t ← tail_of shard job_id tail hinted;
      let final := t ← rediscover shard job_id; claim_round opts shard job_id hint None t in
      claim_round opts shard job_id hint (match hinted with Some _ => Some final | None => None end) t
  | Ok _, _ | _, Ok _ =>
      _ ← memoize_terminal shard job_id jobs_version;
      mret None
  | Err NotFound, Err e => fail (StoreE e)
  | Err e, _ => fail (StoreE e)
  end.

(* ---------------------------------------------------------------- *)
(** ** The scan *)

(** Runs a probe on a child budget; the caller keeps its own, and gets back
    the probe's result and what the child did not spend. *)
Definition with_budget {A} (b : nat) (x : M A) : M (Result Error A * nat) := fun s =>
  let restore s' := {| max_ops := max_ops s; h_floor := h_floor s'; h_memo := h_memo s' |} in
  pbind (try_ x {| max_ops := b; h_floor := h_floor s; h_memo := h_memo s |}) (fun '(r, s') =>
    match r with
    | Ok v => Ret (Ok (v, max_ops s'), restore s')
    | Err e => Ret (Err e, restore s')
    end).

Fixpoint join_all (opts : ClaimOptions) (wave : list (Candidate * nat))
  : M (list (Result Error (option Claim)) * list nat) :=
  match wave with
  | [] => mret ([], [])
  | (c, b) :: wave =>
      '(r, b) ← with_budget b (try_claim (cd_job_id c) (cd_shard c) (cd_version c) opts);
      '(rs, bs) ← join_all opts wave;
      mret (r :: rs, b :: bs)
  end.

Definition sort_results (claims : list Claim) (rs : list (Result Error (option Claim))) : WaveResults :=
  fold_left (fun w r =>
    match r with
    | Ok (Some c) => {| wr_claims := wr_claims w ++ [c]; wr_first_err := wr_first_err w;
                        wr_exhausted := wr_exhausted w |}
    | Ok None => w
    | Err BudgetExhausted => {| wr_claims := wr_claims w; wr_first_err := wr_first_err w;
                                wr_exhausted := true |}
    | Err e => {| wr_claims := wr_claims w;
                  wr_first_err := match wr_first_err w with Some e => Some e | None => Some e end;
                  wr_exhausted := wr_exhausted w |}
    end) rs {| wr_claims := claims; wr_first_err := None; wr_exhausted := false |}.

(** [if claims.is_empty() { Err(e) } else { Ok(claims) }]. *)
Definition partial_or {A} (claims : list A) (e : Error) : M (list A) :=
  match claims with [] => fail e | _ => mret claims end.

(** The inner loop: waves until the batch fills or candidates run out.
    [inl] returns from [claim_many]; the wave is never empty, so the pending
    list bounds the waves. *)
Fixpoint wave_loop (fuel : nat) (opts : ClaimOptions) (max : nat) (pending : list Candidate)
    (claims : list Claim) : M (list Claim + list Claim * list Candidate) :=
  if bool_decide (pending = []) || (max <=? length claims)%nat then mret (inr (claims, pending))
  else match fuel with
    | O => throw OutOfFuel
    | S fuel =>
        let n := Nat.min (length pending) (max - length claims) in
        let wave := take n pending in
        st ← get_state;
        let '(rest, children) := split (max_ops st) (length wave) in
        _ ← set_budget rest;
        '(results, children) ← join_all opts (zip wave children);
        let w := sort_results claims results in
        st ← get_state;
        let budget := merge (max_ops st) children in
        _ ← set_budget budget;
        let claims := wr_claims w in
        if (max <=? length claims)%nat then mret (inl claims)
        else match wr_first_err w with
          | Some e => (claims ← partial_or claims e; mret (inl claims))
          | None =>
              if wr_exhausted w then (claims ← partial_or claims BudgetExhausted; mret (inl claims))
              else if (budget =? 0)%nat then mret (inl claims)
              else wave_loop fuel opts max (drop n pending) claims
          end
    end.

(** A listed jobs entry as a candidate, unless its key does not parse or
    this handle already proved it terminal. *)
Definition candidate_of (pending : list Candidate) (listing : Listing) : M (list Candidate) :=
  match strip_prefix (q_root q) (l_key listing) with
  | None => mret pending
  | Some s =>
      match parse s with
      | Ok (KJob shard job_id) =>
          skip ← is_memoized_terminal shard job_id (m_version (l_meta listing));
          if (skip : bool) then mret pending
          else mret (pending ++ [{| cd_job_id := job_id; cd_shard := shard;
                                    cd_version := m_version (l_meta listing) |}])
      | _ => mret pending
      end
  end.

Fixpoint scan_loop (fuel : nat) (opts : ClaimOptions) (max : nat) (pending : list Candidate)
    (claims : list Claim) (after : option bytes) (scan_done : bool) : M (list Claim) :=
  match fuel with
  | O => throw OutOfFuel
  | S fuel =>
      w ← wave_loop (length pending) opts max pending claims;
      match w with
      | inl claims => mret claims
      | inr (claims, pending) =>
          if scan_done || (max <=? length claims)%nat then mret claims
          else
            r ← try_ spend;
            match r with
            | Err e => partial_or claims e
            | Ok _ =>
                r ← do_list (q_root q ++ ¶"jobs/" ++ hex16 (co_shard opts) ++ [slash]) after 1024;
                match r with
                | Err e => partial_or claims (StoreE e)
                | Ok page =>
                    match p_items page with
                    | [] => mret claims
                    | items =>
                        pending ← fold_each items pending candidate_of;
                        match p_next_after page with
                        | Some k => scan_loop fuel opts max pending claims (Some k) scan_done
                        | None => scan_loop fuel opts max pending claims after true
                        end
                    end
                end
            end
      end
  end.

Definition claim_many (opts : ClaimOptions) (max : nat) : M (list Claim) :=
  budget_loop (fun fuel => scan_loop fuel opts max [] [] None false).

Definition claim (opts : ClaimOptions) : M ClaimOutcome :=
  claims ← claim_many opts 1;
  mret (match last claims with Some c => Claimed c | None => Empty end).
End Ops.
