(* ===== verification/Sweeps.v ===== *)
(** [stowq-core/src/lib.rs], lines 724 to 753, 2437 to 3002 and 3585 to 3634:
    shard depth, the two index sweeps, and garbage collection.

    The listing loops share their shape: one page per iteration, stop at an
    empty page, resume after the page's cursor ([for_pages]). *)

From S2P Require Import Prelude Sha256 StowqMath Keys Records Direct Store Effects Queue Claims.

(* ------------------------------------------------------------------ *)
(** * Advisory index entries, parsed *)

(** [uN::from_str_radix(s, 16)]: an optional [+], digits of either case, no
    overflow. *)
Definition from_str_radix16 (max : Z) (s : bytes) : option Z :=
  let digits := match s with
                | b :: (_ :: _) as rest => if decide (b = Init.Byte.x2b) then rest else s
                | _ => s
                end in
  match digits with
  | [] => None
  | _ => v ← radix16 0 digits; if v <=? max then Some v else None
  end.

(** A byte that continues a UTF-8 sequence: slicing a [str] there panics. *)
Definition continuation_byte (b : byte) : bool := (128 <=? byte_val b) && (byte_val b <=? 191).

(** The loop filling [job_id] from [&job_str[2*i..2*i+2]]. *)
Fixpoint job_id_bytes (s : bytes) : Result Stop (option bytes) :=
  match s with
  | a :: b :: rest =>
      if continuation_byte a || match rest with c :: _ => continuation_byte c | [] => false end
      then Err Panics
      else match from_str_radix16 255 [a; b] with
        | None => Ok None
        | Some v =>
            r ← job_id_bytes rest;
            Ok (option_map (cons (byte_of v)) r)
        end
  | _ => Ok (Some [])
  end.

(** [str::rsplit_once]: at the last occurrence. *)
Fixpoint rsplit_once (c : byte) (s : bytes) : option (bytes * bytes) :=
  match s with
  | [] => None
  | b :: s =>
      match rsplit_once c s with
      | Some (l, r) => Some (b :: l, r)
      | None => if decide (b = c) then Some ([], s) else None
      end
  end.

Definition parse_lease_entry (rest : bytes) : Result Stop (option (Z * bytes * Z)) :=
  match split_once slash rest with
  | None => Ok None
  | Some (shard_str, tail) =>
      match rsplit_once dot tail, from_str_radix16 u16_max shard_str with
      | Some (job_str, gen_str), Some shard =>
          if negb ((length shard_str =? 4)%nat && (length job_str =? 32)%nat && (length gen_str =? 8)%nat)
          then Ok None
          else
            job ← job_id_bytes job_str;
            Ok (job_id ← job; generation ← from_str_radix16 u32_max gen_str;
                Some (shard, job_id, generation))
      | _, _ => Ok None
      end
  end.

Definition parse_delay_entry (rest : bytes) : Result Stop (option (Z * bytes)) :=
  match split_once slash rest with
  | None => Ok None
  | Some (shard_str, job_str) =>
      if negb ((length shard_str =? 4)%nat && (length job_str =? 32)%nat) then Ok None
      else match from_str_radix16 u16_max shard_str with
        | None => Ok None
        | Some shard =>
            job ← job_id_bytes job_str;
            Ok (job_id ← job; Some (shard, job_id))
        end
  end.

(** Entry [termidx/<bucket>/<kind>/<shard>/<job>], split at its first three
    slashes. *)
Definition parse_term_entry (rel_str : bytes) : Result Stop (option (TermKind * Z * bytes)) :=
  match (rest ← strip_prefix ¶"termidx/" rel_str;
         '(_, rest) ← split_once slash rest;
         '(kind, rest) ← split_once slash rest;
         '(shard_str, job_str) ← split_once slash rest;
         c ← kind !! 0%nat;
         Some (c, shard_str, job_str)) with
  | None => Ok None
  | Some (c, shard_str, job_str) =>
      if negb ((length shard_str =? 4)%nat && (length job_str =? 32)%nat
               && bool_decide (c = as_char TReceipt \/ c = as_char TDead)) then Ok None
      else match from_str_radix16 u16_max shard_str with
        | None => Ok None
        | Some shard =>
            job ← job_id_bytes job_str;
            Ok (job_id ← job;
                Some (if decide (c = as_char TReceipt) then TReceipt else TDead, shard, job_id))
        end
  end.

(** The [<bucket>/<rest>] split of a sweep ([splitn(2, '/')]). *)
Definition split_bucket (s : bytes) : bytes * bytes := default (s, []) (split_once slash s).

Definition stop_ok {A} (r : Result Stop A) : M A :=
  match r with Ok a => mret a | Err e => throw e end.

(** [str::contains]. *)
Fixpoint contains (needle s : bytes) : bool :=
  starts_with needle s || match s with [] => false | _ :: s => contains needle s end.

(* ------------------------------------------------------------------ *)
(** * Reports *)

Record SweepReport := { sw_entries : nat; sw_reclaimed : nat; sw_promoted : nat }.
Record GcReport := {
  gc_jobs_deleted : nat;
  gc_claim_orphans_deleted : nat;
  gc_beacons_deleted : nat;
  gc_orphans_deleted : nat
}.
Record DepthReport := { dp_jobs : Z; dp_claims : Z; dp_receipts : Z; dp_dead : Z }.

Section Ops.
Context `{Sha256} (q : Queue).
Let qid : bytes := o_queue_id (q_opts q).

(** The listing loop over a prefix, folding a body over every entry. *)
Fixpoint page_loop {A} (fuel : nat) (prefix : bytes) (after : option bytes) (acc : A)
    (body : A -> Listing -> M A) : M A :=
  match fuel with
  | O => throw OutOfFuel
  | S fuel =>
      _ ← spend;
      r ← do_list prefix after 64;
      page ← store_ok r;
      match p_items page with
      | [] => mret acc
      | items =>
          acc ← fold_each items acc body;
          match p_next_after page with
          | Some k => page_loop fuel prefix (Some k) acc body
          | None => mret acc
          end
      end
  end.
Definition for_pages {A} (prefix : bytes) (acc : A) (body : A -> Listing -> M A) : M A :=
  budget_loop (fun fuel => page_loop fuel prefix None acc body).

(** [let _ = self.store.delete(..)]. *)
Definition delete_ignoring (key : bytes) : M unit := _ ← do_delete key; mret ().

(** [depth]: one plane's count. *)
Fixpoint depth_loop (fuel : nat) (prefix : bytes) (after : option bytes) (n : Z) : M Z :=
  match fuel with
  | O => throw OutOfFuel
  | S fuel =>
      _ ← spend;
      r ← do_list prefix after 1024;
      page ← store_ok r;
      let n := n + Z.of_nat (length (p_items page)) in
      match p_next_after page with
      | Some k => depth_loop fuel prefix (Some k) n
      | None => mret n
      end
  end.
Definition plane_depth (plane : bytes) (shard : Z) : M Z :=
  budget_loop (fun fuel =>
    depth_loop fuel (q_root q ++ plane ++ [slash] ++ hex16 shard ++ [slash]) None 0).
Definition depth (shard : Z) : M DepthReport :=
  jobs ← plane_depth ¶"jobs" shard;
  claims ← plane_depth ¶"claims" shard;
  receipts ← plane_depth ¶"receipts" shard;
  dead ← plane_depth ¶"dead" shard;
  mret {| dp_jobs := jobs; dp_claims := claims; dp_receipts := receipts; dp_dead := dead |}.

(** [claim_tail]: generation, meta and lease duration of the chain's end. *)
Definition claim_tail (shard : Z) (job_id : bytes) : M (Z * Meta * Z) :=
  tail ← list_tail (claims_prefix q shard job_id);
  match tail with
  | None => mret (0, empty_meta, 0)
  | Some (gen, meta) =>
      _ ← spend;
      let rel := KClaim shard job_id (as_u32 gen) in
      r ← do_get (absolute q rel);
      match r with
      | Ok obj =>
          rec ← record_ok (decode_at q rel (o_body obj));
          match rec with
          | RecClaim c => mret (gen, meta, c_lease_duration_ns c)
          | _ => mret (gen, meta, 0)
          end
      | Err NotFound => mret (gen, meta, 0)
      | Err e => fail (StoreE e)
      end
  end.

Definition lease_reclaimable (shard : Z) (job_id : bytes) (floor : Z) : M bool :=
  terminal ← any_present q [KReceipt shard job_id; KDead shard job_id];
  if (terminal : bool) then mret false
  else
    '(gen, meta, duration) ← claim_tail shard job_id;
    if gen =? 0 then mret false
    else mret (saturating_add (saturating_add (m_store_time_ns meta) duration)
                 (o_skew_guard_ns (q_opts q)) <=? floor).

Definition job_promotable (shard : Z) (job_id : bytes) (floor : Z) : M bool :=
  _ ← spend;
  let rel := KJob shard job_id in
  r ← do_get (absolute q rel);
  match r with
  | Err NotFound => mret false
  | Err e => fail (StoreE e)
  | Ok obj =>
      rec ← record_ok (decode_at q rel (o_body obj));
      match rec with
      | RecJob job =>
          if match j_not_before_ns job with Some nb => floor <? nb | None => false end then mret false
          else
            '(gen, _, _) ← claim_tail shard job_id;
            if 0 <? gen then
              _ ← spend;
              let rel := KFail shard job_id (as_u32 gen) in
              r ← do_get (absolute q rel);
              match r with
              | Ok obj =>
                  rec ← record_ok (decode_at q rel (o_body obj));
                  match rec with
                  | RecFail f => mret (negb (floor <? f_retry_not_before_ns f))
                  | _ => mret true
                  end
              | Err NotFound => mret true
              | Err e => fail (StoreE e)
              end
            else mret true
      | _ => mret false
      end
  end.

(** One entry of the lease sweep: malformed and future entries are kept. *)
Definition sweep_lease_entry (floor max_bucket : Z) (report : SweepReport) (item : Listing)
  : M SweepReport :=
  let rel_str := default [] (strip_prefix (q_root q) (l_key item)) in
  let '(bucket_str, rest) := split_bucket (default [] (strip_prefix ¶"leases/" rel_str)) in
  match from_str_radix16 u64_max bucket_str with
  | None => mret report
  | Some bucket =>
      if max_bucket <? bucket then mret report
      else
        let report := {| sw_entries := S (sw_entries report); sw_reclaimed := sw_reclaimed report;
                         sw_promoted := sw_promoted report |} in
        entry ← stop_ok (parse_lease_entry rest);
        match entry with
        | None => mret report
        | Some (shard, job_id, _) =>
            reclaim ← lease_reclaimable shard job_id floor;
            _ ← spend;
            _ ← delete_ignoring (l_key item);
            mret (if (reclaim : bool)
                  then {| sw_entries := sw_entries report; sw_reclaimed := S (sw_reclaimed report);
                          sw_promoted := sw_promoted report |}
                  else report)
        end
  end.

Definition sweep_expired_leases (floor : Z) : M SweepReport :=
  max_bucket ← ok_or_fail (bucket_number floor (lease_bucket_width_ns (q_format q)))
                 (Internal "zero lease width");
  for_pages (q_root q ++ ¶"leases/") {| sw_entries := 0; sw_reclaimed := 0; sw_promoted := 0 |}
    (sweep_lease_entry floor max_bucket).

Definition sweep_delayed_entry (floor max_bucket : Z) (report : SweepReport) (item : Listing)
  : M SweepReport :=
  let rel_str := default [] (strip_prefix (q_root q) (l_key item)) in
  let '(bucket_str, rest) := split_bucket (default [] (strip_prefix ¶"delayed/" rel_str)) in
  match from_str_radix16 u64_max bucket_str with
  | None => mret report
  | Some bucket =>
      if max_bucket <? bucket then mret report
      else
        let report := {| sw_entries := S (sw_entries report); sw_reclaimed := sw_reclaimed report;
                         sw_promoted := sw_promoted report |} in
        entry ← stop_ok (parse_delay_entry rest);
        match entry with
        | None => mret report
        | Some (shard, job_id) =>
            promote ← job_promotable shard job_id floor;
            _ ← spend;
            _ ← delete_ignoring (l_key item);
            mret (if (promote : bool)
                  then {| sw_entries := sw_entries report; sw_reclaimed := sw_reclaimed report;
                          sw_promoted := S (sw_promoted report) |}
                  else report)
        end
  end.

Definition sweep_delayed (floor : Z) : M SweepReport :=
  max_bucket ← ok_or_fail (bucket_number floor (delayed_bucket_width_ns (q_format q)))
                 (Internal "zero delayed width");
  for_pages (q_root q ++ ¶"delayed/") {| sw_entries := 0; sw_reclaimed := 0; sw_promoted := 0 |}
    (sweep_delayed_entry floor max_bucket).

(* ---------------------------------------------------------------- *)
(** ** Garbage collection *)

(** An orphan, re-examined before its deletion: [true] when it is gone or
    deleted.  A recreated object carries a later store time. *)
Definition delete_orphan (item : Listing) : M bool :=
  _ ← spend;
  r ← do_head (l_key item);
  match r with
  | Ok now =>
      if m_store_time_ns now =? m_store_time_ns (l_meta item)
      then _ ← spend; _ ← delete_ignoring (l_key item); mret true
      else mret false
  | Err NotFound => mret true
  | Err e => fail (StoreE e)
  end.

(** Deletes an entry whose job record is absent. *)
Definition collect_orphan (shard : Z) (job_id : bytes) (item : Listing) : M bool :=
  _ ← spend;
  r ← do_head (absolute q (KJob shard job_id));
  match r with
  | Ok _ => mret false
  | Err NotFound => delete_orphan item
  | Err e => fail (StoreE e)
  end.

Definition parse_rel (key : bytes) : option Key :=
  s ← strip_prefix (q_root q) key; ok_opt (parse s).

Definition gc_payload_entry (orphan_cutoff : Z) (report : GcReport) (item : Listing) : M GcReport :=
  if orphan_cutoff <=? m_store_time_ns (l_meta item) then mret report
  else match parse_rel (l_key item) with
    | Some (KPayload job_id _) =>
        shard ← unwrap (compute_shard qid job_id (shard_count (q_format q)));
        gone ← collect_orphan shard job_id item;
        mret (if (gone : bool)
              then {| gc_jobs_deleted := gc_jobs_deleted report;
                      gc_claim_orphans_deleted := gc_claim_orphans_deleted report;
                      gc_beacons_deleted := gc_beacons_deleted report;
                      gc_orphans_deleted := S (gc_orphans_deleted report) |}
              else report)
    | _ => mret report
    end.

Definition gc_claim_entry (orphan_cutoff : Z) (report : GcReport) (item : Listing) : M GcReport :=
  if orphan_cutoff <=? m_store_time_ns (l_meta item) then mret report
  else match parse_rel (l_key item) with
    | Some (KClaim shard job_id _) =>
        gone ← collect_orphan shard job_id item;
        mret (if (gone : bool)
              then {| gc_jobs_deleted := gc_jobs_deleted report;
                      gc_claim_orphans_deleted := S (gc_claim_orphans_deleted report);
                      gc_beacons_deleted := gc_beacons_deleted report;
                      gc_orphans_deleted := gc_orphans_deleted report |}
              else report)
    | _ => mret report
    end.

Definition gc_beacon_entry (beacon_cutoff : Z) (report : GcReport) (item : Listing) : M GcReport :=
  if m_store_time_ns (l_meta item) <? beacon_cutoff then
    _ ← spend;
    _ ← delete_ignoring (l_key item);
    mret {| gc_jobs_deleted := gc_jobs_deleted report;
            gc_claim_orphans_deleted := gc_claim_orphans_deleted report;
            gc_beacons_deleted := S (gc_beacons_deleted report);
            gc_orphans_deleted := gc_orphans_deleted report |}
  else mret report.

(** A pass of [delete_terminal_graph] over one prefix. *)
Definition delete_under (prefix : bytes) (keep : bytes -> bool) : M unit :=
  for_pages prefix tt (fun _ item =>
    if keep (l_key item) then mret ()
    else _ ← spend; delete_ignoring (l_key item)).

(** The strict order: advisory indexes, termidx entry, tail hint, fails,
    claims, payloads, the job record, the terminal record last.  Every
    deletion's outcome is ignored. *)
Definition delete_terminal_graph (shard : Z) (job_id : bytes) (terminal_rel : Key) (index_key : bytes)
  : M bool :=
  let jhex := push_hex job_id in
  let foreign key := negb (contains ([slash] ++ hex16 shard ++ [slash] ++ jhex) key) in
  let slice plane := q_root q ++ plane ++ [slash] ++ hex16 shard ++ [slash] ++ jhex ++ [slash] in
  _ ← delete_under (q_root q ++ ¶"leases/") foreign;
  _ ← delete_under (q_root q ++ ¶"delayed/") foreign;
  _ ← spend;
  _ ← delete_ignoring index_key;
  _ ← spend;
  _ ← delete_ignoring (absolute q (KTail shard job_id));
  _ ← delete_under (slice ¶"fails") (fun _ => false);
  _ ← delete_under (slice ¶"claims") (fun _ => false);
  _ ← delete_under (q_root q ++ ¶"payloads/" ++ jhex ++ [slash]) (fun _ => false);
  _ ← spend;
  _ ← delete_ignoring (absolute q (KJob shard job_id));
  _ ← spend;
  _ ← delete_ignoring (absolute q terminal_rel);
  mret true.

Definition gc_term_entry (cutoff : Z) (report : GcReport) (item : Listing) : M GcReport :=
  let rel_str := default [] (strip_prefix (q_root q) (l_key item)) in
  entry ← stop_ok (parse_term_entry rel_str);
  match entry with
  | None => mret report
  | Some (kind, shard, job_id) =>
      let terminal_rel := match kind with
                          | TReceipt => KReceipt shard job_id
                          | TDead => KDead shard job_id
                          end in
      _ ← spend;
      r ← do_head (absolute q terminal_rel);
      match r with
      | Err NotFound => _ ← spend; _ ← delete_ignoring (l_key item); mret report
      | Err e => fail (StoreE e)
      | Ok meta =>
          if cutoff <=? m_store_time_ns meta then mret report
          else
            deleted ← delete_terminal_graph shard job_id terminal_rel (l_key item);
            mret (if (deleted : bool)
                  then {| gc_jobs_deleted := S (gc_jobs_deleted report);
                          gc_claim_orphans_deleted := gc_claim_orphans_deleted report;
                          gc_beacons_deleted := gc_beacons_deleted report;
                          gc_orphans_deleted := gc_orphans_deleted report |}
                  else report)
      end
  end.

Definition gc (now retention orphan_horizon : Z) : M GcReport :=
  let report := {| gc_jobs_deleted := 0; gc_claim_orphans_deleted := 0; gc_beacons_deleted := 0;
                   gc_orphans_deleted := 0 |} in
  let cutoff := saturating_sub now retention in
  let orphan_cutoff := saturating_sub now orphan_horizon in
  report ← for_pages (q_root q ++ ¶"payloads/") report (gc_payload_entry orphan_cutoff);
  report ← for_pages (q_root q ++ ¶"claims/") report (gc_claim_entry orphan_cutoff);
  let beacon_cutoff := saturating_sub now (saturating_mul FLOOR_STALENESS_NS 10) in
  report ← for_pages (q_root q ++ ¶"meta/clock/") report (gc_beacon_entry beacon_cutoff);
  for_pages (q_root q ++ ¶"termidx/") report (gc_term_entry cutoff).
End Ops.
