(* ===== verification/Repair.v ===== *)
(** [stowq-core/src/lib.rs], lines 2356 to 2435 and 3004 to 3583: the repair
    scan.

    The Rust hash maps iterate in an unspecified order; [hash_order] is that
    order, an argument of the model. *)

From S2P Require Import Prelude Sha256 StowqMath Keys Records Direct Store Effects Queue Claims Sweeps.

Inductive FindingKind :=
| KeyGrammar
| RecordCorrupt
| ClaimWithoutJob
| InadmissibleClaim
| DuplicateTerminal
| ChainGap
| PayloadMissing.

Record Finding := { fd_kind : FindingKind; fd_key : bytes; fd_reason : Z }.

Record RepairReport := {
  rp_shards_scanned : Z;
  rp_jobs_scanned : nat;
  rp_claim_chains_scanned : nat;
  rp_indexes_regenerated : nat;
  rp_findings : list Finding
}.

Definition empty_report : RepairReport :=
  {| rp_shards_scanned := 0; rp_jobs_scanned := 0; rp_claim_chains_scanned := 0;
     rp_indexes_regenerated := 0; rp_findings := [] |}.

Definition add_finding (r : RepairReport) (f : Finding) : RepairReport :=
  {| rp_shards_scanned := rp_shards_scanned r; rp_jobs_scanned := rp_jobs_scanned r;
     rp_claim_chains_scanned := rp_claim_chains_scanned r;
     rp_indexes_regenerated := rp_indexes_regenerated r; rp_findings := rp_findings r ++ [f] |}.
Definition count_job (r : RepairReport) : RepairReport :=
  {| rp_shards_scanned := rp_shards_scanned r; rp_jobs_scanned := S (rp_jobs_scanned r);
     rp_claim_chains_scanned := rp_claim_chains_scanned r;
     rp_indexes_regenerated := rp_indexes_regenerated r; rp_findings := rp_findings r |}.
Definition count_chain (r : RepairReport) : RepairReport :=
  {| rp_shards_scanned := rp_shards_scanned r; rp_jobs_scanned := rp_jobs_scanned r;
     rp_claim_chains_scanned := S (rp_claim_chains_scanned r);
     rp_indexes_regenerated := rp_indexes_regenerated r; rp_findings := rp_findings r |}.
Definition count_index (r : RepairReport) (missing : bool) : RepairReport :=
  if missing then
    {| rp_shards_scanned := rp_shards_scanned r; rp_jobs_scanned := rp_jobs_scanned r;
       rp_claim_chains_scanned := rp_claim_chains_scanned r;
       rp_indexes_regenerated := S (rp_indexes_regenerated r); rp_findings := rp_findings r |}
  else r.
Definition count_shard (r : RepairReport) : RepairReport :=
  {| rp_shards_scanned := rp_shards_scanned r + 1; rp_jobs_scanned := rp_jobs_scanned r;
     rp_claim_chains_scanned := rp_claim_chains_scanned r;
     rp_indexes_regenerated := rp_indexes_regenerated r; rp_findings := rp_findings r |}.

(** [record_violation_reason]. *)
Definition record_violation_reason (e : RecordError) : Z :=
  match e with
  | RField name => if String.eqb name "queue binding" then 0x0004 else 0x0001
  | _ => 0x0001
  end.

Section Ops.
Context `{Sha256} (q : Queue) (hash_order : list bytes -> list bytes).
Let qid : bytes := o_queue_id (q_opts q).

Definition quarantine_qid (queue_id rel_key : bytes) (reason : Z) : bytes :=
  take 16 (sha256 (¶"StowQ-1-qid" ++ [byte_of 0] ++ queue_id ++ rel_key ++ be_bytes 8 reason)).

Definition write_quarantine (rel_key : bytes) (reason observed : Z) (detail : option Z) : M unit :=
  if Z.land (required_feature_bits (q_format q)) 1 =? 0 then mret ()
  else
    let id := quarantine_qid qid rel_key reason in
    bucket ← ok_or_fail (bucket_number observed (terminal_bucket_width_ns (q_format q)))
               (Internal "zero terminal width");
    let rel := KQuarantine bucket id in
    let record := RecQuarantine {| q_qid := id; q_source_key := rel_key; q_reason := reason;
                                   q_observed_store_ns := observed; q_detail := detail |} in
    let body := encode_at q rel record in
    put_bytes_resolving (absolute q rel) body (sha256 body).

(** A finding and its quarantine object. *)
Definition report_finding (r : RepairReport) (kind : FindingKind) (key : bytes) (reason : Z)
    (rel_key : bytes) (observed : Z) (detail : option Z) : M RepairReport :=
  _ ← write_quarantine rel_key reason observed detail;
  mret (add_finding r {| fd_kind := kind; fd_key := key; fd_reason := reason |}).

Definition list_authoritative (prefix : bytes) : M (list Listing) :=
  for_pages prefix [] (fun out item => mret (out ++ [item])).

(** [true] when the entry was missing.  The head is not paid for. *)
Definition ensure_index (rel : Key) : M bool :=
  r ← do_head (absolute q rel);
  match r with
  | Ok _ => mret false
  | Err NotFound =>
      _ ← spend;
      _ ← put_index q rel;
      mret true
  | Err e => fail (StoreE e)
  end.

Definition quarantine_inadmissible (shard : Z) (job_id : bytes) (chain : list (Z * Meta))
    (r : RepairReport) (gen : Z) : M RepairReport :=
  let rel := KClaim shard job_id (as_u32 gen) in
  let observed := match List.find (fun c => c.1 =? gen) chain with
                  | Some (_, m) => m_store_time_ns m
                  | None => 0
                  end in
  report_finding r InadmissibleClaim (absolute q rel) 0x0010 (key_to_string rel) observed (Some gen).

(** The gaps between consecutive generations ([windows(2)]). *)
Fixpoint audit_gaps (shard : Z) (job_id : bytes) (chain : list (Z * Meta)) (r : RepairReport)
  : M RepairReport :=
  match chain with
  | (g0, m0) :: ((g1, _) :: _) as rest =>
      r ← (if g1 =? g0 + 1 then mret r
           else
             let rel := KClaim shard job_id (as_u32 (g0 + 1)) in
             report_finding r ChainGap (absolute q rel) 0x0015 (key_to_string rel)
               (m_store_time_ns m0) (Some (g0 + 1)));
      audit_gaps shard job_id rest r
  | _ => mret r
  end.

(** Every generation decoded, index-aligned; undecodable ones are reported. *)
Fixpoint audit_decode (shard : Z) (job_id : bytes) (chain : list (Z * Meta)) (r : RepairReport)
  : M (RepairReport * list (option ClaimRecord)) :=
  match chain with
  | [] => mret (r, [])
  | (g, m) :: chain =>
      let rel := KClaim shard job_id (as_u32 g) in
      let corrupt reason :=
        r ← report_finding r RecordCorrupt (absolute q rel) reason (key_to_string rel)
              (m_store_time_ns m) None;
        mret (r, None) in
      _ ← spend;
      a ← do_get (absolute q rel);
      '(r, c) ← match a with
                | Ok obj =>
                    match decode_at q rel (o_body obj) with
                    | Ok (RecClaim c) => mret (r, Some c)
                    | Ok _ => corrupt 0x0005
                    | Err e => corrupt (record_violation_reason e)
                    end
                | Err NotFound => mret (r, None)
                | Err e => fail (StoreE e)
                end;
      '(r, cs) ← audit_decode shard job_id chain r;
      mret (r, c :: cs)
  end.

(** A generation's evidence against its predecessor. *)
Definition admissible (rec prev : ClaimRecord) (prev_meta : Meta) : bool :=
  if c_continuation rec then
    bytes_eqb (c_worker_id rec) (c_worker_id prev)
    && bool_decide (c_prev_token rec = Some (c_worker_token prev))
  else match c_basis rec with
    | None => false
    | Some basis =>
        (prev_store_time_ns basis =? m_store_time_ns prev_meta)
        && (prev_duration_ns basis =? c_lease_duration_ns prev)
        && (saturating_add (prev_store_time_ns basis) (prev_duration_ns basis)
            <=? observed_watermark_ns basis)
    end.

(** [for i in 1..chain.len()], over the aligned pairs of neighbours. *)
Fixpoint audit_evidence (shard : Z) (job_id : bytes) (whole : list (Z * Meta))
    (chain : list (Z * Meta * option ClaimRecord)) (r : RepairReport) : M RepairReport :=
  match chain with
  | (_, m0, prev) :: ((g, _, rec) :: _) as rest =>
      r ← match rec, prev with
          | Some rec, Some prev =>
              if admissible rec prev m0 then mret r
              else quarantine_inadmissible shard job_id whole r g
          | _, _ => mret r
          end;
      audit_evidence shard job_id whole rest r
  | _ => mret r
  end.

Definition audit_claim_chain (shard : Z) (job_id : bytes) (chain : list (Z * Meta)) (r : RepairReport)
  : M (RepairReport * (Z * Meta * Z)) :=
  '(first, first_meta) ← unwrap (chain !! 0%nat);
  r ← audit_gaps shard job_id chain r;
  r ← (if first =? 1 then mret r
       else
         let rel := KClaim shard job_id (as_u32 first) in
         report_finding r ChainGap (absolute q rel) 0x0015 (key_to_string rel)
           (m_store_time_ns first_meta) (Some first));
  '(r, decoded) ← audit_decode shard job_id chain r;
  r ← audit_evidence shard job_id chain (zip chain decoded) r;
  '(tail_gen, tail_meta) ← unwrap (last chain);
  let tail_duration := match last decoded with Some (Some c) => c_lease_duration_ns c | _ => 0 end in
  mret (r, (tail_gen, tail_meta, tail_duration)).

(* ---------------------------------------------------------------- *)
(** ** One shard *)

(** A decodable job record: its payload and delayed index.  The finding's
    key and time are the listing's. *)
Definition repair_job_record (shard : Z) (job_id : bytes) (listing : Listing) (j : JobRecord)
    (r : RepairReport) : M RepairReport :=
  r ← match j_payload_key j with
      | None => mret r
      | Some pk =>
          let abs_payload := q_root q ++ pk in
          _ ← spend;
          h ← do_head abs_payload;
          match h with
          | Ok _ => mret r
          | Err NotFound =>
              report_finding r PayloadMissing abs_payload 0x0014 pk
                (m_store_time_ns (l_meta listing)) None
          | Err e => fail (StoreE e)
          end
      end;
  match j_not_before_ns j with
  | None => mret r
  | Some nb =>
      match bucket_number nb (delayed_bucket_width_ns (q_format q)) with
      | None => mret r
      | Some bucket =>
          missing ← ensure_index (KDelayIndex bucket shard job_id);
          mret (count_index r missing)
      end
  end.

(** One listed job; the read is not paid for. *)
Definition repair_job (shard : Z) (st : RepairReport * gset bytes) (listing : Listing)
  : M (RepairReport * gset bytes) :=
  let '(r, job_ids) := st in
  let r := count_job r in
  let stripped := default [] (strip_prefix (q_root q) (l_key listing)) in
  let observed := m_store_time_ns (l_meta listing) in
  match parse stripped with
  | Ok (KJob _ job_id) =>
      let rel := KJob shard job_id in
      a ← do_get (absolute q rel);
      r ← match a with
          | Ok obj =>
              match decode_at q rel (o_body obj) with
              | Ok (RecJob j) => repair_job_record shard job_id listing j r
              | Ok _ =>
                  report_finding r RecordCorrupt (l_key listing) 0x0005 (key_to_string rel) observed None
              | Err e =>
                  report_finding r RecordCorrupt (l_key listing) (record_violation_reason e)
                    (key_to_string rel) observed None
              end
          | Err NotFound => mret r
          | Err e => fail (StoreE e)
          end;
      mret (r, {[job_id]} ∪ job_ids)
  | _ =>
      r ← report_finding r KeyGrammar (l_key listing) 0x0003 stripped observed None;
      mret (r, job_ids)
  end.

(** One listed claim, added to its job's chain. *)
Definition repair_claim (st : RepairReport * gmap bytes (list (Z * Meta))) (listing : Listing)
  : M (RepairReport * gmap bytes (list (Z * Meta))) :=
  let '(r, chains) := st in
  match parse_rel q (l_key listing) with
  | Some (KClaim _ job_id generation) =>
      mret (r, <[job_id := default [] (chains !! job_id) ++ [(generation, l_meta listing)]]> chains)
  | _ =>
      r ← report_finding r KeyGrammar (l_key listing) 0x0003
            (default [] (strip_prefix (q_root q) (l_key listing))) (m_store_time_ns (l_meta listing)) None;
      mret (r, chains)
  end.

Definition gen_le (a b : Z * Meta) : Prop := a.1 <= b.1.
#[local] Instance gen_le_dec : RelDecision gen_le.
Proof. intros a b. unfold gen_le. apply _. Defined.

Definition repair_chain (shard : Z) (job_ids : gset bytes) (chains : gmap bytes (list (Z * Meta)))
    (r : RepairReport) (job_id : bytes) : M RepairReport :=
  let r := count_chain r in
  let orphaned := negb (bool_decide (job_id ∈ job_ids)) in
  let job_rel := KJob shard job_id in
  let r := if orphaned
           then add_finding r {| fd_kind := ClaimWithoutJob; fd_key := absolute q job_rel;
                                 fd_reason := 0x0005 |}
           else r in
  let chain := merge_sort gen_le (default [] (chains !! job_id)) in
  '(r, (tail_gen, tail_meta, tail_duration)) ← audit_claim_chain shard job_id chain r;
  _ ← (if orphaned
       then write_quarantine (key_to_string job_rel) 0x0005 (m_store_time_ns tail_meta) None
       else mret ());
  match bucket_number (saturating_add (m_store_time_ns tail_meta) tail_duration)
          (lease_bucket_width_ns (q_format q)) with
  | None => mret r
  | Some bucket =>
      missing ← ensure_index (KLeaseIndex bucket shard job_id (as_u32 tail_gen));
      mret (count_index r missing)
  end.

(** One listed terminal record of either plane. *)
Definition repair_terminal (shard : Z) (st : RepairReport * gmap bytes Z) (listing : Listing)
  : M (RepairReport * gmap bytes Z) :=
  let '(r, set) := st in
  let observed := m_store_time_ns (l_meta listing) in
  let seen job_id kind :=
    let set := <[job_id := observed]> set in
    match bucket_number observed (terminal_bucket_width_ns (q_format q)) with
    | None => mret (r, set)
    | Some bucket =>
        missing ← ensure_index (KTermIndex bucket kind shard job_id);
        mret (count_index r missing, set)
    end in
  match parse_rel q (l_key listing) with
  | Some (KReceipt _ job_id) => seen job_id TReceipt
  | Some (KDead _ job_id) => seen job_id TDead
  | _ =>
      r ← report_finding r KeyGrammar (l_key listing) 0x0003
            (default [] (strip_prefix (q_root q) (l_key listing))) observed None;
      mret (r, set)
  end.

(** The residue of the mutual-exclusion window. *)
Definition repair_duplicate (shard : Z) (receipt_jobs : gmap bytes Z) (r : RepairReport) (job_id : bytes)
  : M RepairReport :=
  let rel := KReceipt shard job_id in
  report_finding r DuplicateTerminal (absolute q rel) 0x0007 (key_to_string rel)
    (default 0 (receipt_jobs !! job_id)) None.

Definition repair_shard (shard : Z) (r : RepairReport) : M RepairReport :=
  let plane p := q_root q ++ p ++ hex16 shard ++ [slash] in
  listings ← list_authoritative (plane ¶"jobs/");
  '(r, job_ids) ← fold_each listings (r, ∅) (repair_job shard);
  listings ← list_authoritative (plane ¶"claims/");
  '(r, chains) ← fold_each listings (r, ∅) repair_claim;
  r ← fold_each (hash_order (map_to_list chains).*1) r (repair_chain shard job_ids chains);
  listings ← list_authoritative (plane ¶"receipts/");
  '(r, receipt_jobs) ← fold_each listings (r, ∅) (repair_terminal shard);
  listings ← list_authoritative (plane ¶"dead/");
  '(r, dead_jobs) ← fold_each listings (r, ∅) (repair_terminal shard);
  let duplicates := filter (fun j => is_Some (dead_jobs !! j)) (hash_order (map_to_list receipt_jobs).*1) in
  fold_each duplicates r (repair_duplicate shard receipt_jobs).

(** [repair_scan] from a shard: [n] shards remain. *)
Fixpoint repair_shards (n : nat) (next : Z) (r : RepairReport) : M (RepairReport * Z) :=
  match n with
  | O => mret (r, next)
  | S n =>
      r ← repair_shard next r;
      st ← get_state;
      if (max_ops st <=? 4)%nat then mret (count_shard r, next + 1)
      else repair_shards n (next + 1) (count_shard r)
  end.

Definition repair_scan (start_shard : Z) : M (RepairReport * option Z) :=
  let count := shard_count (q_format q) in
  '(r, next) ← repair_shards (Z.to_nat (count - start_shard)) start_shard empty_report;
  mret (r, if next <? count then Some next else None).
End Ops.
