(* ===== verification/Samples.v ===== *)
(** Concrete queues, stores and worlds, on which the witnesses evaluate the
    operations. *)

From S2P Require Import Prelude Sha256 StowqMath Keys Records Store Memory Effects Queue.

(** A memory store's world: numbered tokens, a clock that ticks. *)
Definition sample_world : World MemoryStore :=
  {| w_store := fresh_store; w_tokens := fun n => be_bytes 16 (Z.of_nat n + 1);
     w_clock := fun n => Z.of_nat n mod 2 ^ 64; w_next_token := 0; w_next_reading := 0 |}.

Definition sample_format : FormatRecord :=
  {| shard_count := 1; lease_bucket_width_ns := 10; delayed_bucket_width_ns := 10;
     terminal_bucket_width_ns := 10; inline_limit := 64; required_feature_bits := 3 |}.

Definition sample_options : OpenOptions :=
  {| o_queue_id := vector_queue; o_worker_id := ¶"worker-1";
     o_retry := {| base_ms := 100; cap_ms := 60000; use_jitter := true; max_delay_ms := None |};
     o_skew_guard_ns := 0; o_max_inline_payload := 65536 |}.

Definition sample_queue : Queue :=
  {| q_root := ¶"q/"; q_opts := sample_options; q_format := sample_format |}.

Definition sample_input : EnqueueInput :=
  {| ei_job_id := Some vector_job_id; ei_payload := ¶"hello stowq"; ei_content_type := ¶"text/plain";
     ei_maximum_attempts := 3; ei_not_before_ns := None |}.

Definition sample_claim_options : ClaimOptions :=
  {| co_shard := 0; co_floor_ns := 0; co_lease_duration_ns := 60 |}.

(** A cheap digest for evaluating long runs: any 32-byte function is one. *)
Definition checksum (m : bytes) : bytes :=
  be_bytes 4 (fold_left (fun acc b => Z.land (5 * acc + byte_val b + 7) 0xffffff) m 17)
  ++ replicate 28 (byte_of 0).
Lemma checksum_length m : length (checksum m) = 32%nat.
Proof. unfold checksum. by rewrite length_app, be_bytes_length, length_replicate. Qed.
Definition toy_digest : Sha256 := {| sha256 := checksum; sha256_length := checksum_length |}.
