(* ===== verification/Driver.v ===== *)
(** [stowq-testkit/src/driver.rs]: the differential driver.

    A seeded generator draws an operation sequence, which runs through the
    queue over the memory store (behind the fault injector when faults are on)
    and through the oracle; every observable outcome and the final terminal
    records are compared.  A failed assertion, an [expect] on an error and a
    panic are [Err] with the driver's message.  The injected store is any state
    that contains a memory store, so that the driver's own accesses
    ([advance_clock_to], the final reads) bypass the injector as the code's
    do. *)

From S2P Require Import Prelude Sha256 StowqMath Text Keys Records Direct Store Memory Injector Oracle.
From S2P Require Import Effects Queue Claims Samples.

(* ------------------------------------------------------------------ *)
(** * The generator (splitmix64) *)

Definition GOLDEN : Z := 0x9e3779b97f4a7c15.

Definition rng_new (seed : Z) : Z := wrapping_add seed GOLDEN.

(** The next output and the next state. *)
Definition next_u64 (r : Z) : Z * Z :=
  let r := wrapping_add r GOLDEN in
  let z := r in
  let z := wrapping_mul (Z.lxor z (Z.shiftr z 30)) 0xbf58476d1ce4e5b9 in
  let z := wrapping_mul (Z.lxor z (Z.shiftr z 27)) 0x94d049bb133111eb in
  (Z.lxor z (Z.shiftr z 31), r).

Definition below (n r : Z) : Z * Z := let '(v, r) := next_u64 r in (v mod n, r).

(* ------------------------------------------------------------------ *)
(** * Operations and configuration *)

Inductive DriveOp :=
| DEnqueue (job : nat)
| DClaim
| DRenew (job : nat)
| DAck (job : nat)
| DNack (job : nat)
| DBury (job : nat)
| DCommitOutput (job : nat)
| DClaimMany (n : nat)
| DAdvanceClock (to : Z).

Record DriverConfig := { dc_jobs : nat; dc_ops : nat; dc_lease_ns : Z; dc_max_attempts : Z }.
Definition default_config : DriverConfig :=
  {| dc_jobs := 4; dc_ops := 200; dc_lease_ns := 1000; dc_max_attempts := 3 |}.

Definition driver_format : FormatRecord :=
  {| shard_count := 1; lease_bucket_width_ns := 1000; delayed_bucket_width_ns := 1000;
     terminal_bucket_width_ns := 1000; inline_limit := 4096; required_feature_bits := 0 |}.

Definition driver_queue_id : bytes := replicate 16 (byte_of 1).

(** [id[..8] = index.to_be_bytes()]. *)
Definition job_id (index : nat) : bytes := be_bytes 8 (Z.of_nat index) ++ replicate 8 (byte_of 0).
Definition job_index (id : bytes) : nat := Z.to_nat (be_val (take 8 id)).

Definition output_content (job : nat) : bytes :=
  ¶"stowq differential output for job " ++ u64_to_string (Z.of_nat job).

Definition gen_op (jobs : nat) (r : Z) : DriveOp * Z :=
  let '(job, r) := below (Z.of_nat jobs) r in
  let job := Z.to_nat job in
  let '(kind, r) := below 9 r in
  if kind =? 0 then (DEnqueue job, r)
  else if kind =? 1 then (DClaim, r)
  else if kind =? 2 then (DRenew job, r)
  else if kind =? 3 then (DAck job, r)
  else if kind =? 4 then (DNack job, r)
  else if kind =? 5 then (DBury job, r)
  else if kind =? 6 then (DCommitOutput job, r)
  else if kind =? 7 then (DClaimMany (2 + job mod 2), r)
  else let '(e, r) := below 34 r in (DAdvanceClock (Z.shiftl 1 e - 1), r).

Fixpoint gen_ops (n jobs : nat) (r : Z) : list DriveOp * Z :=
  match n with
  | O => ([], r)
  | S n => let '(op, r) := gen_op jobs r in let '(ops, r) := gen_ops n jobs r in (op :: ops, r)
  end.

(* ------------------------------------------------------------------ *)
(** * Running *)

(** What a run of the driver keeps. *)
Record DriveState (S : Type) := {
  ds_world : World S;
  ds_handle : HState;
  ds_oracle : Oracle;
  ds_held : list (option Claim);
  ds_out_keys : list (option bytes);
  ds_exhausted : nat
}.
Arguments ds_world {S} _. Arguments ds_handle {S} _. Arguments ds_oracle {S} _.
Arguments ds_held {S} _. Arguments ds_out_keys {S} _. Arguments ds_exhausted {S} _.

Abbreviation Checked := (Result string).

Definition assert_ (b : bool) (message : string) : Checked unit :=
  if b then Ok tt else Err message.

Section Drive.
Context `{Sha256} {S : Type} `{ObjectStore S} (base : S -> MemoryStore)
  (on_base : (MemoryStore -> MemoryStore) -> S -> S).

Definition with_oracle (d : DriveState S) (o : Oracle) : DriveState S :=
  {| ds_world := ds_world d; ds_handle := ds_handle d; ds_oracle := o; ds_held := ds_held d;
     ds_out_keys := ds_out_keys d; ds_exhausted := ds_exhausted d |}.
Definition hold (d : DriveState S) (job : nat) (c : option Claim) : DriveState S :=
  {| ds_world := ds_world d; ds_handle := ds_handle d; ds_oracle := ds_oracle d;
     ds_held := <[job := c]> (ds_held d); ds_out_keys := ds_out_keys d;
     ds_exhausted := ds_exhausted d |}.
Definition out_key_at (d : DriveState S) (job : nat) (k : bytes) : DriveState S :=
  {| ds_world := ds_world d; ds_handle := ds_handle d; ds_oracle := ds_oracle d;
     ds_held := ds_held d; ds_out_keys := <[job := Some k]> (ds_out_keys d);
     ds_exhausted := ds_exhausted d |}.

(** The handle held for a job. *)
Definition held_at (d : DriveState S) (job : nat) : option Claim :=
  match ds_held d !! job with Some (Some c) => Some c | _ => None end.

(** [queue.op(..).await.expect(message)]. *)
Definition perform {A} (x : M A) (message : string) (d : DriveState S) : Checked (A * DriveState S) :=
  let '((r, h), w) := run (x (ds_handle d)) (ds_world d) in
  match r with
  | Ok a => Ok (a, {| ds_world := w; ds_handle := h; ds_oracle := ds_oracle d; ds_held := ds_held d;
                      ds_out_keys := ds_out_keys d; ds_exhausted := ds_exhausted d |})
  | Err _ => Err message
  end.

Context (q : Queue) (cfg : DriverConfig).

Definition drive_enqueue (job : nat) (d : DriveState S) : Checked (DriveState S) :=
  let id := job_id job in
  let '(expected, o) := oracle_enqueue (ds_oracle d) id (dc_max_attempts cfg) 0 in
  '(out, d) ← perform (enqueue q {| ei_job_id := Some id; ei_payload := ¶"x";
                                    ei_content_type := ¶"text/plain";
                                    ei_maximum_attempts := dc_max_attempts cfg;
                                    ei_not_before_ns := None |})
                "enqueue survives faults" (with_oracle d o);
  let committed := match out with EnqCommitted _ => true | IdTaken _ => false end in
  assert_ (Bool.eqb committed expected) "enqueue";;
  Ok d.

(** The prediction of the scan: exhaustion as a side effect, then the first
    claimable job. *)
Fixpoint predict (js : list nat) (d : DriveState S) : option nat * DriveState S :=
  match js with
  | [] => (None, d)
  | j :: js =>
      let '(due, o) := exhaust_if_due (ds_oracle d) (job_id j) in
      if due then
        predict js {| ds_world := ds_world d; ds_handle := ds_handle d; ds_oracle := o;
                      ds_held := <[j := None]> (ds_held d); ds_out_keys := ds_out_keys d;
                      ds_exhausted := Datatypes.S (ds_exhausted d) |}
      else if can_claim (ds_oracle d) (job_id j) then (Some j, d)
      else predict js d
  end.

Definition claim_options (d : DriveState S) : ClaimOptions :=
  {| co_shard := 0; co_floor_ns := o_clock (ds_oracle d); co_lease_duration_ns := dc_lease_ns cfg |}.

(** The oracle's claim for the core's, at the store time the core saw. *)
Definition match_claim (c : Claim) (d : DriveState S) : Checked (DriveState S) :=
  let '(expected, o) := oracle_claim (ds_oracle d) (cl_job_id c) (dc_lease_ns cfg)
                          (cl_claim_store_time_ns c) in
  match expected with
  | None => Err "oracle refused"
  | Some expected =>
      assert_ (bool_decide ((cl_generation c, cl_attempt c) = expected)) "generation and attempt";;
      Ok (hold (with_oracle d o) (job_index (cl_job_id c)) (Some c))
  end.

Definition drive_claim (d : DriveState S) : Checked (DriveState S) :=
  let '(expected_job, d) := predict (seq 0 (length (ds_held d))) d in
  '(out, d) ← perform (claim q (claim_options d)) "claim op" d;
  match out, expected_job with
  | Claimed c, Some j =>
      assert_ (job_index (cl_job_id c) =? j)%nat "core claimed a different job";;
      match_claim c d
  | Empty, None => Ok d
  | Claimed _, None => Err "core claimed but oracle scan predicted none"
  | Empty, Some _ => Err "oracle scan predicted a job but core returned empty"
  end.

Definition drive_renew (job : nat) (d : DriveState S) : Checked (DriveState S) :=
  let id := job_id job in
  let '(expected, o) := oracle_renew (ds_oracle d) id (dc_lease_ns cfg) in
  match held_at d job with
  | Some claim =>
      '(out, d) ← perform (renew q claim) "renew op" (with_oracle d o);
      match out, expected with
      | Renewed renewed, true =>
          let o := override_expiry (ds_oracle d) id (cl_claim_store_time_ns renewed) (dc_lease_ns cfg) in
          Ok (hold (with_oracle d o) job (Some renewed))
      | LeaseLost, false => Ok (hold d job None)
      | Renewed _, false => Err "core renewed, oracle refused"
      | LeaseLost, true => Err "oracle renewed, core lost"
      end
  | None =>
      assert_ (negb expected) "driver holds nothing but oracle renewed";; Ok (with_oracle d o)
  end.

Definition drive_commit_output (job : nat) (d : DriveState S) : Checked (DriveState S) :=
  let id := job_id job in
  match held_at d job with
  | Some claim =>
      let first := match output_digest (ds_oracle d) id with None => true | Some _ => false end in
      let content := output_content job in
      let digest := sha256 content in
      '(out, d) ← perform (commit_output q claim ¶"result" content) "commit_output op" d;
      let '(allowed, o) := oracle_commit_output (ds_oracle d) id digest in
      assert_ allowed "driver holds the claim but oracle refused the output";;
      let d := with_oracle d o in
      match out, first with
      | OutCommitted c, true | Converged c, true =>
          assert_ (bytes_eqb (out_digest c) digest) "output digest";;
          Ok (out_key_at d job (out_key c))
      | Converged c, false => assert_ (bytes_eqb (out_digest c) digest) "output digest";; Ok d
      | OutCommitted _, false => Err "committed over an existing output"
      end
  | None =>
      let '(allowed, o) := oracle_commit_output (ds_oracle d) id (replicate 32 (byte_of 0)) in
      assert_ (negb allowed) "driver holds nothing but oracle allowed the output";;
      Ok (with_oracle d o)
  end.

(** The claims of a batch, in scan order. *)
Fixpoint match_claims (cs : list Claim) (prev : option nat) (d : DriveState S)
  : Checked (DriveState S) :=
  match cs with
  | [] => Ok d
  | c :: cs =>
      let j := job_index (cl_job_id c) in
      assert_ (match prev with Some p => (p <? j)%nat | None => true end) "batch not in scan order";;
      d ← match_claim c d;
      match_claims cs (Some j) d
  end.

Definition drive_claim_many (n : nat) (d : DriveState S) : Checked (DriveState S) :=
  '(claims, d) ← perform (claim_many q (claim_options d) n) "claim_many op" d;
  match_claims claims None d.

Definition drive_ack (job : nat) (d : DriveState S) : Checked (DriveState S) :=
  let id := job_id job in
  let '(expected, o) := oracle_ack (ds_oracle d) id in
  match held_at d job with
  | Some claim =>
      let d := hold (with_oracle d o) job None in
      outputs ← match output_digest (ds_oracle d) id, default None (ds_out_keys d !! job) with
                | Some dg, Some k => Ok [{| out_key := k; out_digest := dg |}]
                | None, None => Ok []
                | _, _ => Err "oracle digest vs key"
                end;
      '(out, d) ← perform (ack_with_outputs q claim outputs) "ack op" d;
      let acked := match out with Acked | AlreadyAcked => true | SupersededByDead => false end in
      assert_ (Bool.eqb acked expected) "ack";;
      Ok d
  | None => assert_ (negb expected) "driver holds nothing but oracle acked";; Ok (with_oracle d o)
  end.

Definition drive_nack (job : nat) (d : DriveState S) : Checked (DriveState S) :=
  let id := job_id job in
  match held_at d job with
  | Some claim =>
      policy ← match retry_policy_new 100 60000 true None with
               | Ok p => Ok p | Err _ => Err "valid default policy"%string end;
      delay_ms ← match retry_delay_ms driver_queue_id id (cl_attempt claim mod 2 ^ 32) policy with
                 | Ok v => Ok v | Err _ => Err "policy is valid"%string end;
      let until := wrapping_add (o_clock (ds_oracle d)) (wrapping_mul delay_ms 1000000) in
      let '(expected, o) := oracle_nack (ds_oracle d) id until in
      '(_, d) ← perform (nack q claim 0x0001 (o_clock (ds_oracle d))) "nack op"
                  (hold (with_oracle d o) job None);
      assert_ expected "nack mismatch";;
      Ok d
  | None =>
      let '(expected, o) := oracle_nack (ds_oracle d) id (saturating_add (o_clock (ds_oracle d)) 1) in
      assert_ (negb expected) "driver holds nothing but oracle nacked";; Ok (with_oracle d o)
  end.

Definition drive_bury (job : nat) (d : DriveState S) : Checked (DriveState S) :=
  let '(expected, o) := oracle_bury (ds_oracle d) (job_id job) 0x0003 in
  match held_at d job with
  | Some claim =>
      '(_, d) ← perform (bury q claim 0x0003) "bury op" (hold (with_oracle d o) job None);
      assert_ expected "bury mismatch";;
      Ok d
  | None => assert_ (negb expected) "driver holds nothing but oracle buried";; Ok (with_oracle d o)
  end.

(** Both clocks advance. *)
Definition drive_advance (to : Z) (d : DriveState S) : Checked (DriveState S) :=
  let w := ds_world d in
  Ok {| ds_world := {| w_store := on_base (fun s => Memory.advance_clock_to s to) (w_store w);
                       w_tokens := w_tokens w; w_clock := w_clock w;
                       w_next_token := w_next_token w; w_next_reading := w_next_reading w |};
        ds_handle := ds_handle d; ds_oracle := Oracle.advance_clock_to (ds_oracle d) to;
        ds_held := ds_held d; ds_out_keys := ds_out_keys d; ds_exhausted := ds_exhausted d |}.

Definition drive_op (op : DriveOp) (d : DriveState S) : Checked (DriveState S) :=
  match op with
  | DEnqueue job => drive_enqueue job d
  | DClaim => drive_claim d
  | DRenew job => drive_renew job d
  | DAck job => drive_ack job d
  | DNack job => drive_nack job d
  | DBury job => drive_bury job d
  | DCommitOutput job => drive_commit_output job d
  | DClaimMany n => drive_claim_many n d
  | DAdvanceClock to => drive_advance to d
  end.

Fixpoint drive_ops (ops : list DriveOp) (d : DriveState S) : Checked (DriveState S) :=
  match ops with
  | [] => Ok d
  | op :: ops => d ← drive_op op d; drive_ops ops d
  end.

(* ------------------------------------------------------------------ *)
(** ** The final comparison *)

Definition assert_output_persistence (j : nat) (d : DriveState S) : Checked unit :=
  match output_digest (ds_oracle d) (job_id j) with
  | None => Ok tt
  | Some dg =>
      let okey := ¶"q/outputs/" ++ push_hex (job_id j) ++ ¶"/result" in
      match Memory.get (base (w_store (ds_world d))) okey None with
      | Err _ => Err "committed output absent"%string
      | Ok obj =>
          assert_ (bytes_eqb (o_body obj) (output_content j)) "output bytes";;
          assert_ (bytes_eqb (sha256 (o_body obj)) dg) "output digest drift"
      end
  end.

Definition check_final (j : nat) (d : DriveState S) : Checked unit :=
  let id := job_id j in
  let store := base (w_store (ds_world d)) in
  let receipt := Memory.get store (¶"q/receipts/0000/" ++ push_hex id) None in
  let dead := Memory.head store (¶"q/dead/0000/" ++ push_hex id) in
  match phase <$> jobs (ds_oracle d) !! id with
  | Some (PTerminal TermReceipt) =>
      match receipt with
      | Err _ => Err "oracle receipt, store none"%string
      | Ok obj =>
          assert_ (negb (is_ok dead)) "oracle receipt but dead exists";;
          let rel := ¶"receipts/0000/" ++ push_hex id in
          match decode_record (o_body obj) driver_queue_id (key_tag driver_queue_id rel) with
          | Ok (RecReceipt r) =>
              let expected := match output_digest (ds_oracle d) id with Some dg => [dg] | None => [] end in
              assert_ (bool_decide (r_output_digests r = expected)) "receipt output digests";;
              assert_output_persistence j d
          | _ => Err "receipt undecodable"%string
          end
      end
  | Some (PTerminal (TermDead _)) =>
      assert_ (is_ok dead) "oracle dead, store none";;
      assert_ (negb (is_ok receipt)) "oracle dead but receipt exists";;
      assert_output_persistence j d
  | _ =>
      assert_ (negb (is_ok receipt) && negb (is_ok dead)) "store has a terminal record";;
      assert_output_persistence j d
  end.

Fixpoint check_finals (js : list nat) (d : DriveState S) : Checked unit :=
  match js with
  | [] => Ok tt
  | j :: js => check_final j d;; check_finals js d
  end.
End Drive.

(** The run from a fresh store of any kind: [Queue::init], the operations,
    the final comparison; the final clock and the exhaustions seen. *)
Definition run_over `{Sha256} {S} `{ObjectStore S} (base : S -> MemoryStore)
    (on_base : (MemoryStore -> MemoryStore) -> S -> S) (w : World S) (cfg : DriverConfig)
    (ops : list DriveOp) : Checked (Z * nat) :=
  opts ← match open_options_new driver_queue_id with
         | Some o => Ok o | None => Err "valid default policy"%string end;
  let '((r, h), w) := run (init ¶"q" opts driver_format (fresh_handle 4096)) w in
  match r with
  | Err _ => Err "init"%string
  | Ok q =>
      let none {A} : list (option A) := replicate (dc_jobs cfg) None in
      d ← drive_ops on_base q cfg ops
            {| ds_world := w; ds_handle := h; ds_oracle := oracle_new; ds_held := none;
               ds_out_keys := none; ds_exhausted := 0 |};
      check_finals base (seq 0 (dc_jobs cfg)) d;;
      Ok (o_clock (ds_oracle d), ds_exhausted d)
  end.

Definition fault_plans : list FaultPlan :=
  [{| fp_op := OpPutIfAbsent; fp_at := [3; 17]%nat; fp_fault := FPreTransmit |};
   {| fp_op := OpPutIfAbsent; fp_at := [9]%nat; fp_fault := FPostTransmit |};
   {| fp_op := OpPutIfAbsent; fp_at := [25; 41]%nat; fp_fault := FPostTransmitAfter |}].

(** The entropy and the clock the run sees are parameters of the world. *)
Definition run_with_stats `{Sha256} (tokens : nat -> bytes) (readings : nat -> Z) (seed : Z)
    (cfg : DriverConfig) (faults : bool) : Checked (Z * nat) :=
  let '(ops, _) := gen_ops (dc_ops cfg) (dc_jobs cfg) (rng_new seed) in
  match with_tick_step_ns 1 with
  | None => Err "tick step must be positive"%string
  | Some store =>
      if faults then
        @run_over _ (Injector MemoryStore) _ inj_store
          (fun f i => with_store i (f (inj_store i)))
          {| w_store := injector_new store fault_plans; w_tokens := tokens; w_clock := readings;
             w_next_token := 0; w_next_reading := 0 |} cfg ops
      else
        @run_over _ MemoryStore _ id id
          {| w_store := store; w_tokens := tokens; w_clock := readings;
             w_next_token := 0; w_next_reading := 0 |} cfg ops
  end.

Definition run_differential `{Sha256} (tokens : nat -> bytes) (readings : nat -> Z) (seed : Z)
    (cfg : DriverConfig) (faults : bool) : Checked Z :=
  '(c, _) ← run_with_stats tokens readings seed cfg faults; Ok c.

Section Tests.
#[local] Existing Instance toy_digest.
#[local] Existing Instance memory_store.

(** A part of the crate's corpus, clean and faulted. *)
Example differential_seeds :
  forallb (fun seed =>
    is_ok (run_differential (w_tokens sample_world) (w_clock sample_world) seed default_config false) &&
    is_ok (run_differential (w_tokens sample_world) (w_clock sample_world) seed default_config true))
    [1; 2; 3] = true.
Proof. vm_compute. reflexivity. Qed.

(** A scripted sequence on a fresh memory store. *)
Definition drive_script (cfg : DriverConfig) (ops : list DriveOp) : Checked (Z * nat) :=
  run_over id id sample_world cfg ops.
End Tests.
