(* ===== verification/Interleaving.v ===== *)
(** [stowq-testkit/src/interleaving.rs]: the interleaving lab.

    Two handles over one shared memory store; a seeded scheduler picks which
    worker acts next, and structural invariants are checked after every step.
    As in [Driver], a failed assertion, [unwrap] or [panic!] is [Err]. *)

From S2P Require Import Prelude Sha256 StowqMath Keys Records Store Memory Effects Queue Claims Samples Driver.

Inductive Step :=
| StEnqueue (job : nat)
| StClaim
| StRenew (job : nat)
| StAck (job : nat)
| StBury (job : nat)
| StAdvanceClock (to : Z).

(** The shared world and each worker's handle and claims. *)
Record Lab := {
  lab_world : World MemoryStore;
  lab_handles : list HState;
  lab_held : list (list (option Claim));
  lab_clock : Z
}.

Definition lab_options (worker_id : bytes) : Checked OpenOptions :=
  match open_options_new driver_queue_id with
  | Some o => Ok {| o_queue_id := o_queue_id o; o_worker_id := worker_id; o_retry := o_retry o;
                    o_skew_guard_ns := o_skew_guard_ns o;
                    o_max_inline_payload := o_max_inline_payload o |}
  | None => Err "valid default policy"%string
  end.

Section Lab.
Context `{Sha256}.
#[local] Existing Instance memory_store.

(** The generations of a job's claim keys, over all pages (each page but the
    last advances the cursor: one unit of fuel per stored object is enough). *)
Definition page_gens (items : list Listing) : list Z :=
  omap (fun l => radix16 0 (last_segment (l_key l))) items.

Fixpoint list_gens (fuel : nat) (store : MemoryStore) (prefix : bytes) (after : option bytes)
  : Checked (list Z) :=
  match fuel with
  | O => Err "listing does not end"%string
  | S fuel =>
      page ← match list_page store prefix after 64 with
             | Ok page => Ok page | Err _ => Err "unwrap"%string end;
      match p_items page with
      | [] => Ok []
      | items =>
          rest ← match p_next_after page with
                 | Some k => list_gens fuel store prefix (Some k)
                 | None => Ok []
                 end;
          Ok (page_gens items ++ rest)
      end
  end.

(** [sort_unstable] and [dedup], compared with the listing order. *)
Fixpoint increasing (gens : list Z) : bool :=
  match gens with
  | a :: (b :: _) as t => (a <? b) && increasing t
  | _ => true
  end.

Definition check_job (store : MemoryStore) (j : nat) : Checked unit :=
  let h := push_hex (job_id j) in
  let receipt := Memory.head store (¶"q/receipts/0000/" ++ h) in
  let dead := Memory.head store (¶"q/dead/0000/" ++ h) in
  assert_ (negb (is_ok receipt && is_ok dead)) "both receipt and dead exist";;
  gens ← list_gens (S (size (objects store))) store (¶"q/claims/0000/" ++ h ++ [slash]) None;
  assert_ (bool_decide (NoDup gens)) "duplicate generation in claim chain";;
  assert_ (increasing gens) "generations not strictly increasing in listing order".

Fixpoint check_invariants (js : list nat) (store : MemoryStore) : Checked unit :=
  match js with
  | [] => Ok tt
  | j :: js => check_job store j;; check_invariants js store
  end.

(** One call of worker [w] on a budget of its own, and its [unwrap]. *)
Definition lab_run {A} (w budget : nat) (x : M A) (l : Lab) : Result Stop A * Lab :=
  let h := default (fresh_handle 0) (lab_handles l !! w) in
  let '((r, h), world) :=
    run (x {| max_ops := budget; h_floor := h_floor h; h_memo := h_memo h |}) (lab_world l) in
  (r, {| lab_world := world; lab_handles := <[w := h]> (lab_handles l);
         lab_held := lab_held l; lab_clock := lab_clock l |}).
Definition lab_call {A} (w budget : nat) (x : M A) (l : Lab) : Checked (A * Lab) :=
  let '(r, l) := lab_run w budget x l in
  match r with Ok a => Ok (a, l) | Err _ => Err "operation failed"%string end.

Definition lab_hold (w j : nat) (c : option Claim) (l : Lab) : Lab :=
  {| lab_world := lab_world l; lab_handles := lab_handles l;
     lab_held := alter (fun cs => <[j := c]> cs) w (lab_held l); lab_clock := lab_clock l |}.

Definition lab_claim_at (w j : nat) (l : Lab) : option Claim :=
  match lab_held l !! w with
  | Some cs => match cs !! j with Some (Some c) => Some c | _ => None end
  | None => None
  end.

(** A committed claim makes every other worker's handle for the job a zombie:
    its generation is below, and it is dropped. *)
Fixpoint drop_zombies (ws : list nat) (w j : nat) (generation : Z) (l : Lab) : Checked Lab :=
  match ws with
  | [] => Ok l
  | other :: ws =>
      if (other =? w)%nat then drop_zombies ws w j generation l
      else
        assert_ (match lab_claim_at other j l with
                 | Some existing => cl_generation existing <? generation
                 | None => true
                 end) "two workers hold one generation";;
        drop_zombies ws w j generation (lab_hold other j None l)
  end.

Definition lab_input (j : nat) : EnqueueInput :=
  {| ei_job_id := Some (job_id j); ei_payload := ¶"x"; ei_content_type := ¶"text/plain";
     ei_maximum_attempts := 3; ei_not_before_ns := None |}.

Definition lab_step (q : Queue) (workers w : nat) (st : Step) (l : Lab) : Checked Lab :=
  match st with
  | StEnqueue j => '(_, l) ← lab_call w 512 (enqueue q (lab_input j)) l; Ok l
  | StClaim =>
      '(out, l) ← lab_call w 512 (claim q {| co_shard := 0; co_floor_ns := lab_clock l;
                                             co_lease_duration_ns := 1000 |}) l;
      match out with
      | Claimed c =>
          let j := job_index (cl_job_id c) in
          l ← drop_zombies (seq 0 workers) w j (cl_generation c) l;
          Ok (lab_hold w j (Some c) l)
      | Empty => Ok l
      end
  | StRenew j =>
      claim ← ok_or (lab_claim_at w j l) "unwrap"%string;
      '(out, l) ← lab_call w 512 (renew q claim) l;
      match out with
      | Renewed c => Ok (lab_hold w j (Some c) l)
      | LeaseLost => Ok (lab_hold w j None l)
      end
  | StAck j =>
      claim ← ok_or (lab_claim_at w j l) "unwrap"%string;
      '(_, l) ← lab_call w 512 (ack q claim) (lab_hold w j None l);
      Ok l
  | StBury j =>
      claim ← ok_or (lab_claim_at w j l) "unwrap"%string;
      '(_, l) ← lab_call w 512 (bury q claim 0x0003) (lab_hold w j None l);
      Ok l
  | StAdvanceClock to =>
      let wd := lab_world l in
      Ok {| lab_world := {| w_store := Memory.advance_clock_to (w_store wd) to;
                            w_tokens := w_tokens wd; w_clock := w_clock wd;
                            w_next_token := w_next_token wd; w_next_reading := w_next_reading wd |};
            lab_handles := lab_handles l; lab_held := lab_held l;
            lab_clock := Z.max (lab_clock l) to |}
  end.

(** The scheduler's draw: a step of the lab, by worker and kind. *)
Definition lab_draw (workers jobs : nat) (l : Lab) (r : Z) : nat * Step * Z :=
  let '(v, r) := next_u64 r in
  let w := Z.to_nat (v mod Z.of_nat workers) in
  let '(j, r) := below (Z.of_nat jobs) r in
  let j := Z.to_nat j in
  let '(kind, r) := below 6 r in
  let held := match lab_claim_at w j l with Some _ => true | None => false end in
  if kind =? 0 then (w, StEnqueue j, r)
  else if kind =? 1 then (w, StClaim, r)
  else if (kind =? 2) && held then (w, StRenew j, r)
  else if (kind =? 3) && held then (w, StAck j, r)
  else if (kind =? 4) && held then (w, StBury j, r)
  else let '(e, r) := below 31 r in (w, StAdvanceClock (Z.shiftl 1 e - 1), r).

Fixpoint lab_loop (qs : list Queue) (jobs steps : nat) (r : Z) (l : Lab) : Checked Lab :=
  match steps with
  | O => Ok l
  | S steps =>
      let '(w, st, r) := lab_draw (length qs) jobs l r in
      q ← ok_or (qs !! w) "index"%string;
      l ← lab_step q (length qs) w st l;
      check_invariants (seq 0 jobs) (w_store (lab_world l));;
      lab_loop qs jobs steps r l
  end.

(** [Queue::init] per worker over the shared store: the second put is
    rejected and verified identical. *)
Fixpoint lab_init (names : list bytes) (jobs : nat) (world : World MemoryStore)
  : Checked (list Queue * Lab) :=
  match names with
  | [] => Ok ([], {| lab_world := world; lab_handles := []; lab_held := []; lab_clock := 0 |})
  | name :: names =>
      opts ← lab_options name;
      let '((r, h), world) := run (init ¶"q" opts driver_format (fresh_handle 0)) world in
      q ← match r with Ok q => Ok q | Err _ => Err "init"%string end;
      '(qs, l) ← lab_init names jobs world;
      Ok (q :: qs, {| lab_world := lab_world l; lab_handles := h :: lab_handles l;
                      lab_held := replicate jobs None :: lab_held l; lab_clock := 0 |})
  end.

Definition run_interleaving (world : World MemoryStore) (seed : Z) (jobs steps : nat) : Checked unit :=
  '(qs, l) ← lab_init [¶"worker-0"; ¶"worker-1"] jobs world;
  l ← lab_loop qs jobs steps (rng_new seed) l;
  Ok tt.
End Lab.

Section Tests.
#[local] Existing Instance toy_digest.
#[local] Existing Instance memory_store.

(** A part of the crate's corpus. *)
Example interleaving_corpus_green :
  forallb (fun seed => is_ok (run_interleaving sample_world seed 3 100)) [1; 2; 3] = true.
Proof. vm_compute. reflexivity. Qed.

(** The two-worker tests of the lab share their beginning: an enqueued job
    that the first worker claims. *)
Definition lab_opening (names : list bytes) : Checked (list Queue * Claim * Lab) :=
  '(qs, l) ← lab_init names 1 sample_world;
  qa ← ok_or (qs !! 0%nat) "index"%string;
  '(_, l) ← lab_call 0 256 (enqueue qa (lab_input 0)) l;
  '(out, l) ← lab_call 0 256 (claim qa {| co_shard := 0; co_floor_ns := 0; co_lease_duration_ns := 1000 |}) l;
  match out with Claimed c => Ok (qs, c, l) | Empty => Err "first claim"%string end.

(** Worker A claims, its lease ends, B takes over; A's late ack is accepted,
    fences B's renewal, and B's own ack finds foreign evidence. *)
Definition zombie_ack_race : Checked (Z * AckOutcome * RenewOutcome * Result Stop AckOutcome) :=
  '(qs, a, l) ← lab_opening [¶"z0"; ¶"z1"];
  qa ← ok_or (qs !! 0%nat) "index"%string;
  qb ← ok_or (qs !! 1%nat) "index"%string;
  '(out, l) ← lab_call 1 256 (claim qb {| co_shard := 0; co_floor_ns := cl_claim_store_time_ns a + 1000;
                                          co_lease_duration_ns := 1000 |}) l;
  match out with
  | Empty => Err "takeover"%string
  | Claimed b =>
      '(acked, l) ← lab_call 0 256 (ack qa a) l;
      check_invariants [0%nat] (w_store (lab_world l));;
      '(renewed, l) ← lab_call 1 256 (renew qb b) l;
      let '(late, l) := lab_run 1 256 (ack qb b) l in
      check_invariants [0%nat] (w_store (lab_world l));;
      Ok (cl_generation b - cl_generation a, acked, renewed, late)
  end.
Example adversarial_zombie_ack_race :
  zombie_ack_race = Ok (1, Acked, LeaseLost, Err (Fails ReceiptEvidenceMismatch)).
Proof. vm_compute. reflexivity. Qed.

(** A renewal wins generation 2: a takeover inside the renewed lease is
    refused. *)
Definition renewal_vs_takeover : Checked (Z * ClaimOutcome) :=
  '(qs, a, l) ← lab_opening [¶"r0"; ¶"r1"];
  qa ← ok_or (qs !! 0%nat) "index"%string;
  qb ← ok_or (qs !! 1%nat) "index"%string;
  '(out, l) ← lab_call 0 256 (renew qa a) l;
  match out with
  | LeaseLost => Err "renew"%string
  | Renewed c =>
      '(raced, l) ← lab_call 1 256 (claim qb {| co_shard := 0; co_floor_ns := cl_claim_store_time_ns c;
                                                co_lease_duration_ns := 1000 |}) l;
      check_invariants [0%nat] (w_store (lab_world l));;
      Ok (cl_generation c, raced)
  end.
Example adversarial_renewal_vs_takeover : renewal_vs_takeover = Ok (2, Empty).
Proof. vm_compute. reflexivity. Qed.
End Tests.
