(* ===== verification/Budget.v ===== *)
(** The operation budget ([OpBudget], [stowq-core/src/lib.rs]): every entry
    point makes at most as many store calls as it was given, and its loops
    terminate, whatever the store answers.

    [uses L pre post x] ([Effects]) is proved compositionally for each
    operation; the lemmas live in the hint database [uses]. *)

From S2P Require Import Prelude Sha256 StowqMath Keys Records Direct Store Memory Effects Queue Claims Sweeps Samples.

Section Calls.
Context (L n : nat).
Lemma uses_put k b d : uses L (S n) n (do_put k b d).
Proof. apply uses_call. Qed.
Lemma uses_cas k b d v : uses L (S n) n (do_cas k b d v).
Proof. apply uses_call. Qed.
Lemma uses_get k : uses L (S n) n (do_get k).
Proof. apply uses_call. Qed.
Lemma uses_head k : uses L (S n) n (do_head k).
Proof. apply uses_call. Qed.
Lemma uses_list p a l : uses L (S n) n (do_list p a l).
Proof. apply uses_call. Qed.
Lemma uses_delete k : uses L (S n) n (do_delete k).
Proof. apply uses_call. Qed.
Lemma uses_result_ok {A} (r : Result Error A) : uses L n n (result_ok r).
Proof. destruct r; [apply uses_ret|apply uses_fail]. Qed.
End Calls.
#[export] Hint Resolve uses_put uses_cas uses_get uses_head uses_list uses_delete uses_result_ok : uses.

(** Walks an operation: binds forward, every branch of a match, recorded
    lemmas at the leaves. *)
Ltac uses_leaf :=
  first [ solve [eauto 2 with uses]
        | eapply uses_drop; [|solve [eauto 2 with uses]]; lia
        | eapply uses_drop; [|apply uses_keep; solve [eauto 2 with uses]]; lia ].
Ltac uses_tac :=
  cbv beta zeta;
  lazymatch goal with
  | |- uses _ _ _ (mbind _ (try_ spend)) =>
      eapply uses_bound; [apply Nat.le_succ_diag_r|]; apply uses_try_spend; [|intros ?]; uses_tac
  | |- uses _ _ _ (mbind _ _) => eapply uses_bind; [uses_tac | intros; uses_tac]
  | |- uses _ _ _ (try_ _) =>
      first [ apply uses_try_keep; solve [eauto 2 with uses] | eapply uses_try; uses_tac ]
  | |- uses _ _ _ (fail _) => apply uses_fail
  | |- uses _ _ _ (match ?x with _ => _ end) => destruct x; uses_tac
  | |- uses _ _ _ _ => uses_leaf
  end.

Section Ops.
Context `{Sha256} (q : Queue).

Lemma uses_payload L n c : uses L (S n) n (payload c).
Proof. unfold payload. uses_tac. Qed.

Lemma uses_read_retrying L n abs : uses L n n (read_retrying abs).
Proof.
  unfold read_retrying. generalize RETRY_TRANSPORT_MAX as r.
  induction r as [|r IH]; cbn [read_retrying_loop]; uses_tac.
Qed.

Lemma uses_resolve_presence L n abs : uses L n n (resolve_presence abs).
Proof.
  unfold resolve_presence. generalize RETRY_TRANSPORT_MAX as r.
  induction r as [|r IH]; cbn [resolve_presence_loop]; uses_tac.
Qed.
#[local] Hint Resolve uses_payload uses_read_retrying uses_resolve_presence : uses.

Lemma uses_put_bytes L n abs body d : uses L n n (put_bytes_resolving abs body d).
Proof.
  unfold put_bytes_resolving. generalize RETRY_TRANSPORT_MAX as r.
  induction r as [|r IH]; cbn [put_bytes_loop]; uses_tac.
Qed.

Lemma uses_resolve_unknown L n abs i rel : uses L n n (resolve_unknown q abs i rel).
Proof.
  unfold resolve_unknown. generalize RETRY_TRANSPORT_MAX as r.
  induction r as [|r IH]; cbn [resolve_unknown_loop]; uses_tac.
Qed.
#[local] Hint Resolve uses_put_bytes uses_resolve_unknown : uses.

Lemma uses_put_resolving L n abs b d i rel : uses L n n (put_resolving q abs b d i rel).
Proof.
  unfold put_resolving. generalize RETRY_TRANSPORT_MAX as r.
  induction r as [|r IH]; cbn [put_resolving_loop]; uses_tac.
Qed.
#[local] Hint Resolve uses_put_resolving : uses.

Lemma uses_put_record L n rel r : uses L n n (put_record q rel r).
Proof. unfold put_record. uses_tac. Qed.
Lemma uses_put_index L n rel : uses L (S n) n (put_index q rel).
Proof. unfold put_index. uses_tac. Qed.
Lemma uses_is_memoized L n s j v : uses L n n (is_memoized_terminal s j v).
Proof. unfold is_memoized_terminal. uses_tac. Qed.
Lemma uses_memoize L n s j v : uses L n n (memoize_terminal s j v).
Proof. unfold memoize_terminal. uses_tac. Qed.
#[local] Hint Resolve uses_put_record uses_put_index uses_is_memoized uses_memoize : uses.

Lemma uses_watermark L n : uses L n n (watermark q).
Proof. unfold watermark. uses_tac. Qed.

#[local] Hint Resolve uses_watermark : uses.

Lemma uses_receipt_for L n c : uses L n n (receipt_for q c).
Proof. unfold receipt_for. uses_tac. Qed.
Lemma uses_watermark_covers L n b : uses L n n (watermark_covers q b).
Proof. unfold watermark_covers. uses_tac. Qed.
#[local] Hint Resolve uses_watermark_covers : uses.

(** Each iteration begins with the watermark read's spend. *)
Lemma uses_advance_loop fuel n bucket : uses fuel n n (advance_loop q fuel bucket).
Proof.
  apply uses_keep. induction fuel as [|fuel IH]; [apply uses_no_budget|]. cbn [advance_loop].
  eapply uses_spend_first;
    [do 2 eapply after_spend_bind; eapply after_spend_try; cbn; apply after_spend_bind, after_spend_spend
    |apply needs_budget_bind; intros fl mm; reflexivity|].
  uses_tac.
Qed.

Lemma uses_advance_watermark L n floor : uses L n n (advance_watermark q floor).
Proof.
  unfold advance_watermark. destruct (bucket_number _ _); [|apply uses_fail].
  apply uses_budget_loop. intros. apply uses_advance_loop.
Qed.

Lemma uses_beacon_loop L n k : uses L n n (beacon_loop q k).
Proof. induction k as [|k IH]; cbn [beacon_loop]; uses_tac. Qed.
Lemma uses_cached_floor L n : uses L n n cached_floor.
Proof. unfold cached_floor. uses_tac. Qed.
#[local] Hint Resolve uses_beacon_loop uses_cached_floor : uses.
Lemma uses_establish_floor L n : uses L n n (establish_floor q).
Proof. unfold establish_floor. uses_tac. Qed.
#[local] Hint Resolve uses_establish_floor : uses.

Lemma uses_enqueue L n i : uses L n n (enqueue q i).
Proof. apply uses_keep. unfold enqueue. uses_tac. Qed.

Lemma uses_write_tail_hint L n s j g k : uses L n n (write_tail_hint q s j g k).
Proof. unfold write_tail_hint. uses_tac. Qed.
Lemma uses_read_tail_hint L n s j : uses L n n (read_tail_hint q s j).
Proof. unfold read_tail_hint. uses_tac. Qed.
#[local] Hint Resolve uses_write_tail_hint uses_read_tail_hint : uses.
Lemma uses_update_tail_hint L n s j g : uses L n n (update_tail_hint q s j g).
Proof. unfold update_tail_hint. uses_tac. Qed.
Lemma uses_any_present L n rels : uses L n n (any_present q rels).
Proof. induction rels as [|r rels IH]; cbn [any_present]; uses_tac. Qed.
#[local] Hint Resolve uses_update_tail_hint uses_any_present : uses.

Lemma uses_renew L n c : uses L n n (renew q c).
Proof. apply uses_keep. unfold renew. uses_tac. Qed.

Lemma uses_commit_output L n c name body : uses L n n (commit_output q c name body).
Proof.
  unfold commit_output. destruct (negb _); [apply uses_fail|]. cbv zeta.
  apply uses_keep. generalize RETRY_TRANSPORT_MAX as r.
  induction r as [|r IH]; cbn [commit_output_loop]; uses_tac.
Qed.

Lemma uses_write_termidx L n k s j : uses L n n (write_termidx q k s j).
Proof. unfold write_termidx. uses_tac. Qed.
Lemma uses_verify_output L n c o : uses L n n (verify_output q c o).
Proof. unfold verify_output. uses_tac. Qed.
#[local] Hint Resolve uses_write_termidx uses_verify_output uses_for_each : uses.

Lemma uses_ack L n c outs : uses L n n (ack_inner q c outs).
Proof. apply uses_keep. unfold ack_inner. uses_tac. Qed.
Lemma uses_nack L n c r f : uses L n n (nack q c r f).
Proof. apply uses_keep. unfold nack. uses_tac. Qed.
Lemma uses_bury L n c r : uses L n n (bury q c r).
Proof. apply uses_keep. unfold bury. uses_tac. Qed.
End Ops.

#[export] Hint Resolve uses_payload uses_read_retrying uses_resolve_presence uses_put_bytes
  uses_resolve_unknown uses_put_resolving uses_put_record uses_put_index uses_is_memoized uses_memoize
  uses_watermark uses_watermark_covers uses_beacon_loop uses_cached_floor uses_establish_floor
  uses_write_tail_hint uses_read_tail_hint uses_update_tail_hint uses_any_present uses_write_termidx
  uses_verify_output uses_for_each uses_fold_each : uses.

Section Scan.
Context `{Sha256} (q : Queue).

Lemma uses_tail_record L n s j g : uses L n n (tail_record q s j g).
Proof. unfold tail_record. uses_tac. Qed.

Lemma uses_list_tail_loop fuel n p a t : uses fuel n n (list_tail_loop fuel p a t).
Proof.
  revert a t. induction fuel as [|fuel IH]; intros a t; [apply uses_no_budget|].
  cbn [list_tail_loop]. apply uses_spend_loop. uses_tac.
Qed.
Lemma uses_list_tail L n p : uses L n n (list_tail p).
Proof. apply uses_budget_loop. intros. apply uses_list_tail_loop. Qed.
#[local] Hint Resolve uses_tail_record uses_list_tail : uses.

Lemma uses_gather_tail L n s j : uses L n n (gather_tail q s j).
Proof. unfold gather_tail. uses_tac. Qed.
Lemma uses_tail_of L n s j t h : uses L n n (tail_of q s j t h).
Proof. unfold tail_of. uses_tac. Qed.
#[local] Hint Resolve uses_gather_tail uses_tail_of : uses.
Lemma uses_rediscover L n s j : uses L n n (rediscover q s j).
Proof. unfold rediscover. uses_tac. Qed.
Lemma uses_backoff_gate L n s j o t : uses L n n (backoff_gate q s j o t).
Proof. unfold backoff_gate. uses_tac. Qed.
Lemma uses_read_job L n s j : uses L n n (read_job q s j).
Proof. unfold read_job. uses_tac. Qed.
Lemma uses_exhaust L n s j t : uses L n n (exhaust q s j t).
Proof. apply uses_keep. unfold exhaust. uses_tac. Qed.
Lemma uses_payload_ref L n j : uses L n n (payload_ref q j).
Proof. unfold payload_ref. uses_tac. Qed.
#[local] Hint Resolve uses_rediscover uses_backoff_gate uses_read_job uses_exhaust uses_payload_ref : uses.
Lemma uses_take_custody L n o s j jb t a tk h rel : uses L n n (take_custody q o s j jb t a tk h rel).
Proof. apply uses_keep. unfold take_custody. uses_tac. Qed.
#[local] Hint Resolve uses_take_custody : uses.

Lemma uses_claim_round L o s j h again t :
  (forall k, again = Some k -> uses L 0 0 k) -> uses L 0 0 (claim_round q o s j h again t).
Proof.
  intros Ha. unfold claim_round. destruct again as [k|]; [specialize (Ha k eq_refl)|]; uses_tac.
Qed.

Lemma uses_try_claim L j s v o : uses L 0 0 (try_claim q j s v o).
Proof.
  assert (forall h t, uses L 0 0 (claim_round q o s j h None t)) as Hfinal.
  { intros. apply uses_claim_round. by intros ? [=]. }
  unfold try_claim.
  do 3 (eapply uses_bind; [apply uses_spend|intros _]).
  eapply uses_bind; [apply uses_head|intros r]. eapply uses_bind; [apply uses_head|intros d].
  eapply uses_bind; [eapply uses_try, uses_gather_tail|intros g].
  destruct r as [?|[]], d as [?|[]]; try uses_tac.
  eapply uses_bind; [apply uses_result_ok|intros [[tail hint] hinted]].
  eapply uses_bind; [apply uses_tail_of|intros t]. apply uses_claim_round.
  intros k. destruct hinted; [|done]. intros [= <-]. uses_tac.
Qed.
End Scan.

(* ------------------------------------------------------------------ *)
(** * The scan's waves *)

Lemma sum_list_replicate n e : sum_list (replicate n e) = (e * n)%nat.
Proof. induction n as [|n IH]; cbn; [lia|]. rewrite IH. lia. Qed.

Lemma split_sum b n r cs : split b n = (r, cs) -> (r + sum_list cs = b)%nat /\ length cs = n.
Proof.
  unfold split. destruct n as [|n]; [intros [= <- <-]; cbn; lia|].
  intros E. assert (r = (b - b / S n * S n)%nat /\ cs = replicate (S n) (b / S n)%nat) as [-> ->]
    by (split; congruence).
  rewrite sum_list_replicate, length_replicate. split; [|done].
  pose proof (Nat.Div0.mul_div_le b (S n)). lia.
Qed.

Section Waves.
Context `{Sha256} (q : Queue).

(** A probe on a child budget leaves the caller's alone. *)
Lemma with_budget_runs {A} (pre b : nat) (x : M A) s n :
  (forall L, uses L pre 0 x) ->
  runs (b + pre + n) (with_budget b x s) (fun i r s' =>
    max_ops s' = max_ops s /\
    match r with
    | Ok (_, b') => (b' <= b)%nat /\ (b' + n <= i)%nat
    | Err e => (n <= i)%nat /\ e <> OutOfFuel
    end).
Proof.
  intros Hx. unfold with_budget. set (s1 := {| max_ops := b; h_floor := _; h_memo := _ |}).
  assert (uses (S b) pre 0 (try_ x)) as Ht by (eapply uses_try, Hx).
  specialize (Ht s1 ltac:(cbn; lia)). cbn [max_ops s1] in Ht.
  apply (runs_frame n) in Ht. apply runs_bind. eapply runs_mono; [reflexivity| |exact Ht].
  intros i j r s' Hij (j0 & -> & [Hm Hr]). destruct r as [v|e]; cbn; split; try done; [lia|].
  destruct Hr. split; [lia|done].
Qed.

(** The wave spends at most the sum of its children. *)
Lemma join_all_runs o wave s n :
  runs (sum_list wave.*2 + n) (join_all q o wave s) (fun i r s' =>
    max_ops s' = max_ops s /\
    match r with
    | Ok (_, bs) => (sum_list bs <= sum_list wave.*2)%nat /\ (sum_list bs + n <= i)%nat
    | Err e => (n <= i)%nat /\ e <> OutOfFuel
    end).
Proof.
  revert s n. induction wave as [|[c b] wave IH]; intros s n; [cbn; lia|].
  cbn [join_all fmap list_fmap sum_list]. unfold mbind, m_bind, mbind_. apply runs_bind.
  rewrite <- Nat.add_assoc.
  eapply runs_mono; [reflexivity| |rewrite <- (Nat.add_0_r b) at 1; apply (with_budget_runs 0 b); intros; apply uses_try_claim].
  intros i j [[r b']|e] s' Hij [Hm Hr]; cbn beta iota.
  2:{ cbn. destruct Hr. split; [done|]. split; [lia|done]. }
  destruct Hr as [Hb Hi]. apply runs_bind.
  eapply runs_mono; [| |apply (IH s' (b' + n)%nat)]; [lia|].
  intros i2 j2 [[rs bs]|e] s2 Hij2 [Hm2 Hr2]; cbn.
  - destruct Hr2. split; [congruence|]. split; lia.
  - destruct Hr2. split; [congruence|]. split; [lia|done].
Qed.

Lemma length_pos_wave {A} (l : list A) (n m : nat) :
  l <> [] -> (m < n)%nat -> (1 <= Nat.min (length l) (n - m))%nat.
Proof. destruct l; [done|]. cbn [length]. lia. Qed.

Lemma uses_partial_or {A} L n (l : list A) e : uses L n n (partial_or l e).
Proof. unfold partial_or. destruct l; [apply uses_fail|apply uses_ret]. Qed.
#[local] Hint Resolve uses_partial_or : uses.

Lemma uses_wave_loop L fuel o max pending cs :
  (length pending <= fuel)%nat -> uses L 0 0 (wave_loop q fuel o max pending cs).
Proof.
  revert pending cs. induction fuel as [|fuel IH]; intros pending cs Hl.
  { destruct pending; [|cbn in Hl; lia]. cbn. apply uses_ret. }
  cbn [wave_loop]. case_bool_decide as Hp; [apply uses_ret|].
  destruct (Nat.leb_spec max (length cs)) as [|Hmax]; [apply uses_ret|]. cbn [orb].
  pose proof (length_pos_wave pending max (length cs) Hp Hmax) as Hn.
  set (n := Nat.min _ _) in *. cbv zeta.
  intros s Hs. change ((get_state ≫= ?f) s) with (f s s). cbv beta.
  destruct (split (max_ops s) (length (take n pending))) as [rest children] eqn:Esp.
  apply split_sum in Esp as [Esum Elen].
  set (s1 := {| max_ops := rest; h_floor := h_floor s; h_memo := h_memo s |}).
  change ((set_budget rest ≫= ?f) s) with (f tt s1). cbv beta.
  unfold mbind at 1, m_bind, mbind_. apply runs_bind.
  assert (((zip (take n pending) children).*2) = children) as Ez.
  { apply snd_zip. by rewrite Elen. }
  eapply runs_mono; [| |apply (join_all_runs o (zip (take n pending) children) s1 rest)];
    [rewrite Ez; lia|].
  intros i j [[results bs]|e] s' Hij [Hm Hr]; cbn beta iota.
  2:{ destruct Hr. cbn. unfold acct. cbn in Hm. split; [lia|]. split; [lia|done]. }
  rewrite Ez in Hr. destruct Hr as [Hb Hi]. cbn in Hm.
  set (s2 := {| max_ops := merge (max_ops s') bs; h_floor := h_floor s'; h_memo := h_memo s' |}).
  change ((get_state ≫= ?f) s') with (f s' s'). cbv beta zeta.
  change ((set_budget ?b ≫= ?f) s') with (f tt s2). cbv beta.
  assert (max_ops s2 <= max_ops s)%nat as Hs2 by (cbn; unfold merge; lia).
  assert (max_ops s2 <= i)%nat as Hs2i by (cbn; unfold merge; lia).
  match goal with |- runs _ (?x s2) _ => assert (uses L 0 0 x) as Hx end.
  { assert (forall w, uses L 0 0 (wave_loop q fuel o max (drop n pending) w)) as Hw.
    { intros w. apply IH. rewrite length_drop. lia. }
    uses_tac. }
  specialize (Hx s2 ltac:(lia)). rewrite Nat.add_0_r in Hx.
  eapply runs_mono; [| |exact Hx]; [lia|]. intros ? ? ? ?. apply acct_mono. lia.
Qed.
#[local] Hint Resolve uses_wave_loop : uses.

Lemma uses_candidate_of L n p l : uses L n n (candidate_of q p l).
Proof. unfold candidate_of. uses_tac. Qed.
#[local] Hint Resolve uses_candidate_of : uses.

Lemma uses_scan_loop fuel o max pending cs after sd :
  uses fuel 0 0 (scan_loop q fuel o max pending cs after sd).
Proof.
  revert pending cs after sd. induction fuel as [|fuel IH]; intros; [apply uses_no_budget|].
  cbn [scan_loop]. eapply uses_bind; [by apply uses_wave_loop|intros [cs'|[cs' p']]]; [apply uses_ret|].
  destruct (_ || _); [apply uses_ret|].
  apply uses_try_spend; [|intros; apply uses_partial_or]. uses_tac.
Qed.

Lemma uses_claim_many L o max : uses L 0 0 (claim_many q o max).
Proof. apply uses_budget_loop. intros. apply uses_scan_loop. Qed.
#[local] Hint Resolve uses_claim_many : uses.
Lemma uses_claim L o : uses L 0 0 (claim q o).
Proof. unfold claim. uses_tac. Qed.
End Waves.

#[export] Hint Resolve uses_tail_record uses_list_tail uses_claim_many uses_partial_or : uses.

Section Maintenance.
Context `{Sha256} (q : Queue).

Lemma uses_stop_ok {A} L n (r : Result Stop A) : r <> Err OutOfFuel -> uses L n n (stop_ok r).
Proof. destruct r; intros Hr; [apply uses_ret|apply uses_throw; congruence]. Qed.

Lemma job_id_bytes_stop s : job_id_bytes s <> Err OutOfFuel.
Proof.
  assert (forall n s, (length s <= n)%nat -> job_id_bytes s <> Err OutOfFuel) as Hn.
  { clear s. induction n as [|n IH]; intros [|a [|b s]] Hl; cbn in Hl |- *; try done; try lia.
    destruct (_ || _); [done|]. destruct (from_str_radix16 _ _); [|done].
    specialize (IH s ltac:(lia)). by destruct (job_id_bytes s). }
  by apply (Hn (length s)).
Qed.
Lemma bind_stop {A B} (r : Result Stop A) (f : A -> Result Stop B) :
  r <> Err OutOfFuel -> (forall a, f a <> Err OutOfFuel) -> (r ≫= f) <> Err OutOfFuel.
Proof. destruct r; cbn; [auto|congruence]. Qed.

#[local] Ltac entry_stop :=
  repeat match goal with
  | |- (job_id_bytes _ ≫= _) <> _ => apply bind_stop; [apply job_id_bytes_stop|discriminate]
  | |- match ?x with _ => _ end <> _ => destruct x
  | |- Ok _ <> _ => discriminate
  end.

Lemma parse_lease_stop s : parse_lease_entry s <> Err OutOfFuel.
Proof. unfold parse_lease_entry. entry_stop. Qed.
Lemma parse_delay_stop s : parse_delay_entry s <> Err OutOfFuel.
Proof. unfold parse_delay_entry. entry_stop. Qed.
Lemma parse_term_stop s : parse_term_entry s <> Err OutOfFuel.
Proof. unfold parse_term_entry. entry_stop. Qed.

Lemma uses_page_loop {A} fuel prefix after (acc : A) body :
  (forall L acc item, uses L 0 0 (body acc item)) -> uses fuel 0 0 (page_loop fuel prefix after acc body).
Proof.
  intros Hb. revert after acc. induction fuel as [|fuel IH]; intros after acc; [apply uses_no_budget|].
  cbn [page_loop]. apply uses_spend_loop. eapply uses_bind; [apply uses_list|intros r].
  eapply uses_bind; [apply uses_store_ok|intros page]. destruct (p_items page) as [|i its]; [apply uses_ret|].
  eapply uses_bind; [by apply uses_fold_each|intros acc']. destruct (p_next_after page); [apply IH|apply uses_ret].
Qed.

Lemma uses_for_pages {A} L prefix (acc : A) body :
  (forall L acc item, uses L 0 0 (body acc item)) -> uses L 0 0 (for_pages prefix acc body).
Proof. intros Hb. apply uses_budget_loop. intros. by apply uses_page_loop. Qed.

Lemma uses_delete_ignoring L n k : uses L (S n) n (delete_ignoring k).
Proof. unfold delete_ignoring. uses_tac. Qed.
#[local] Hint Resolve uses_delete_ignoring : uses.

Lemma uses_depth_loop fuel p a m : uses fuel 0 0 (depth_loop fuel p a m).
Proof.
  revert a m. induction fuel as [|fuel IH]; intros a m; [apply uses_no_budget|].
  cbn [depth_loop]. apply uses_spend_loop. uses_tac.
Qed.
Lemma uses_plane_depth L p s : uses L 0 0 (plane_depth q p s).
Proof. apply uses_budget_loop. intros. apply uses_depth_loop. Qed.
#[local] Hint Resolve uses_plane_depth : uses.
Lemma uses_depth L s : uses L 0 0 (depth q s).
Proof. unfold depth. uses_tac. Qed.

Lemma uses_claim_tail L n s j : uses L n n (claim_tail q s j).
Proof. unfold claim_tail. uses_tac. Qed.
#[local] Hint Resolve uses_claim_tail : uses.
Lemma uses_lease_reclaimable L n s j f : uses L n n (lease_reclaimable q s j f).
Proof. unfold lease_reclaimable. uses_tac. Qed.
Lemma uses_job_promotable L n s j f : uses L n n (job_promotable q s j f).
Proof. unfold job_promotable. uses_tac. Qed.
#[local] Hint Resolve uses_lease_reclaimable uses_job_promotable : uses.

Lemma uses_sweep_expired_leases L f : uses L 0 0 (sweep_expired_leases q f).
Proof.
  unfold sweep_expired_leases. eapply uses_bind; [apply uses_ok_or_fail|intros b].
  apply uses_for_pages. intros L' r i. unfold sweep_lease_entry.
  destruct (split_bucket _). destruct (from_str_radix16 _ _); [|apply uses_ret].
  destruct (_ <? _); [apply uses_ret|]. cbv zeta.
  eapply uses_bind; [apply uses_stop_ok, parse_lease_stop|intros [[[? ?] ?]|]]; uses_tac.
Qed.
Lemma uses_sweep_delayed L f : uses L 0 0 (sweep_delayed q f).
Proof.
  unfold sweep_delayed. eapply uses_bind; [apply uses_ok_or_fail|intros b].
  apply uses_for_pages. intros L' r i. unfold sweep_delayed_entry.
  destruct (split_bucket _). destruct (from_str_radix16 _ _); [|apply uses_ret].
  destruct (_ <? _); [apply uses_ret|]. cbv zeta.
  eapply uses_bind; [apply uses_stop_ok, parse_delay_stop|intros [[? ?]|]]; uses_tac.
Qed.

Lemma uses_delete_orphan L i : uses L 0 0 (delete_orphan i).
Proof. unfold delete_orphan. uses_tac. Qed.
#[local] Hint Resolve uses_delete_orphan : uses.
Lemma uses_collect_orphan L s j i : uses L 0 0 (collect_orphan q s j i).
Proof. unfold collect_orphan. uses_tac. Qed.
#[local] Hint Resolve uses_collect_orphan : uses.
Lemma uses_gc_payload L c r i : uses L 0 0 (gc_payload_entry q c r i).
Proof. unfold gc_payload_entry. uses_tac. Qed.
Lemma uses_gc_claim L c r i : uses L 0 0 (gc_claim_entry q c r i).
Proof. unfold gc_claim_entry. uses_tac. Qed.
Lemma uses_gc_beacon L c r i : uses L 0 0 (gc_beacon_entry c r i).
Proof. unfold gc_beacon_entry. uses_tac. Qed.
Lemma uses_delete_under L p k : uses L 0 0 (delete_under p k).
Proof. apply uses_for_pages. intros. uses_tac. Qed.
#[local] Hint Resolve uses_delete_under : uses.
Lemma uses_delete_graph L s j t i : uses L 0 0 (delete_terminal_graph q s j t i).
Proof. unfold delete_terminal_graph. uses_tac. Qed.
#[local] Hint Resolve uses_delete_graph : uses.
Lemma uses_gc_term L c r i : uses L 0 0 (gc_term_entry q c r i).
Proof.
  unfold gc_term_entry. cbv zeta.
  eapply uses_bind; [apply uses_stop_ok, parse_term_stop|intros [[[? ?] ?]|]]; uses_tac.
Qed.

Lemma uses_gc L n r o : uses L 0 0 (gc q n r o).
Proof.
  unfold gc. cbv zeta.
  do 3 (eapply uses_bind; [apply uses_for_pages; auto using uses_gc_payload, uses_gc_claim, uses_gc_beacon|intros ?]).
  apply uses_for_pages. intros. apply uses_gc_term.
Qed.
End Maintenance.

(* ------------------------------------------------------------------ *)
(** * Against a concrete store *)

(** The number of store calls a run makes. *)
Fixpoint run_calls {S A} `{ObjectStore S} (p : prog A) (w : World S) : nat :=
  match p with
  | Ret _ => 0
  | Vis e k =>
      let '(a, w) := run_eff e w in
      match e with EStore _ => 1 | _ => 0 end + run_calls (k a) w
  end.

Lemma run_runs {S A} `{ObjectStore S} (p : prog (Result Stop A * HState)) (w : World S) n Q :
  runs n p Q ->
  (run_calls p w <= n)%nat /\ Q (n - run_calls p w)%nat (run p w).1.1 (run p w).1.2.
Proof.
  revert n w. induction p as [[r s]|e k IH]; intros n w Hp.
  { cbn. rewrite Nat.sub_0_r. split; [lia|done]. }
  assert (forall a w', run_eff e w = (a, w') ->
    run (Vis e k) w = run (k a) w' /\
    run_calls (Vis e k) w = (match e with EStore _ => 1 | _ => 0 end + run_calls (k a) w')%nat) as Hstep.
  { intros a w' E. cbn [run run_calls]. rewrite E. done. }
  destruct (run_eff e w) as [a w'] eqn:E. destruct (Hstep a w' eq_refl) as [-> ->].
  destruct e; cbn [runs] in Hp.
  - destruct n as [|n]; [done|]. destruct (IH a n w' (Hp a)) as [Hle HQ].
    split; [lia|]. replace (Datatypes.S n - (1 + run_calls (k a) w'))%nat
      with (n - run_calls (k a) w')%nat by lia. done.
  - apply (IH a n w'), Hp.
  - apply (IH a n w'), Hp.
Qed.

(** The operations of the queue that take a budget, the repair scan apart. *)
Inductive entry_point `{Sha256} (q : Queue) : forall A, M A -> Prop :=
| ep_watermark : entry_point q _ (watermark q)
| ep_receipt_for c : entry_point q _ (receipt_for q c)
| ep_advance_watermark floor : entry_point q _ (advance_watermark q floor)
| ep_establish_floor : entry_point q _ (establish_floor q)
| ep_enqueue input : entry_point q _ (enqueue q input)
| ep_claim_many opts n : entry_point q _ (claim_many q opts n)
| ep_claim opts : entry_point q _ (claim q opts)
| ep_renew c : entry_point q _ (renew q c)
| ep_commit_output c name body : entry_point q _ (commit_output q c name body)
| ep_ack c : entry_point q _ (ack q c)
| ep_ack_with_outputs c outs : entry_point q _ (ack_with_outputs q c outs)
| ep_nack c reason floor : entry_point q _ (nack q c reason floor)
| ep_bury c reason : entry_point q _ (bury q c reason)
| ep_depth shard : entry_point q _ (depth q shard)
| ep_sweep_leases floor : entry_point q _ (sweep_expired_leases q floor)
| ep_sweep_delayed floor : entry_point q _ (sweep_delayed q floor)
| ep_gc now retention horizon : entry_point q _ (gc q now retention horizon).
Arguments entry_point {_} q {A} _.

Lemma entry_point_uses `{Sha256} q {A} (op : M A) L : entry_point q op -> uses L 0 0 op.
Proof.
  destruct 1;
    [apply uses_watermark|apply uses_receipt_for|apply uses_advance_watermark|apply uses_establish_floor
    |apply uses_enqueue|apply uses_claim_many|apply uses_claim|apply uses_renew|apply uses_commit_output
    |apply uses_ack|apply uses_ack|apply uses_nack|apply uses_bury|apply uses_depth
    |apply uses_sweep_expired_leases|apply uses_sweep_delayed|apply uses_gc].
Qed.


(** Splitting a budget over [n] probes and merging what they have left
    loses and creates nothing: the parent's remainder and the children add up
    to the budget split, each child gets an equal share, and the parent keeps
    less than one share per child. *)
Theorem split_conserves (budget n : nat) (Hn : (0 < n)%nat) :
  let '(rest, children) := split budget n in
  merge rest children = budget /\ length children = n /\
  Forall (fun c => c = (budget / n)%nat) children /\ (rest < n)%nat.
Proof.
  unfold split, merge. destruct n as [|n]; [lia|].
  pose proof (Nat.div_mod_eq budget (Datatypes.S n)) as Hd.
  pose proof (Nat.mod_upper_bound budget (Datatypes.S n) ltac:(lia)) as Hm.
  assert (forall k x, sum_list (replicate k x) = (k * x)%nat) as Hs.
  { intros k x. induction k as [|k IH]; [done|]. cbn [replicate]. rewrite sum_list_with_cons in * || cbn.
    unfold sum_list in *. rewrite IH. lia. }
  rewrite Hs, length_replicate. repeat split; try lia.
  apply Forall_replicate. done.
Qed.

Lemma split_conserves_witness : (0 < 3)%nat /\
  let '(rest, children) := split 64 3 in
  merge rest children = 64%nat /\ length children = 3%nat /\
  Forall (fun c => c = (64 / 3)%nat) children /\ (rest < 3)%nat.
Proof.
  assert (0 < 3)%nat as Hn by lia. split; [exact Hn|]. exact (split_conserves 64 3 Hn).
Defined.

