(* ===== verification/Protocol.v ===== *)
(** The queue's protocol on the shared store: which objects are
    authoritative, the invariant its clients maintain, the [rely] they grant
    one another, and the specification of every operation against it.

    Authoritative objects are written once: [rely] says that they never
    change, and that [Inv] is preserved.  Garbage collection, which deletes
    them, is outside this protocol. *)

From S2P Require Import Prelude Sha256 StowqMath Keys Records Direct Store Effects Rely Queue Claims Sweeps Repair.

(* ------------------------------------------------------------------ *)
(** * Planes *)

Definition plane_of (s : bytes) : bytes := default [] (head (split_on slash s)).

Definition authoritative_planes : list bytes :=
  [¶"jobs"; ¶"payloads"; ¶"claims"; ¶"fails"; ¶"receipts"; ¶"dead"; ¶"quarantine"; ¶"outputs"].

(** A relative key of an authoritative object. *)
Definition authoritative (s : bytes) : Prop :=
  plane_of s ∈ authoritative_planes \/ s = key_to_string KFormat.

#[export] Instance authoritative_dec s : Decision (authoritative s).
Proof. unfold authoritative. apply _. Defined.

(** Keys the queue writes without promising to keep them. *)
Definition advisory (k : Key) : Prop :=
  match k with
  | KLeaseIndex _ _ _ _ | KDelayIndex _ _ _ | KTermIndex _ _ _ _ | KTail _ _ | KBeacon _ | KWatermark => True
  | _ => False
  end.

Lemma plane_of_app p r : slash ∉ p -> plane_of (p ++ slash :: r) = p.
Proof. intros Hp. unfold plane_of. by rewrite split_on_app. Qed.

Lemma plane_of_key k : plane_of (key_to_string k) = default [] (head (segments k)).
Proof. unfold plane_of. by rewrite split_key_to_string. Qed.

Lemma plane_of_prefix p r s : slash ∉ p -> starts_with (p ++ slash :: r) s = true -> plane_of s = p.
Proof. intros Hp [x ->]%starts_with_iff. rewrite <- app_assoc. by apply plane_of_app. Qed.

Ltac plane_solve := vm_compute; repeat (first [left; reflexivity | right | constructor]).

Lemma advisory_not_authoritative k : advisory k -> ~ authoritative (key_to_string k).
Proof.
  intros Hk [Hp|E].
  - rewrite plane_of_key in Hp. revert Hp.
    destruct k; try done; apply (bool_decide_eq_false_1 _); vm_compute; reflexivity.
  - apply (f_equal (split_on slash)) in E. rewrite !split_key_to_string in E. by destruct k.
Qed.

Lemma plane_of_eq k k' : key_to_string k = key_to_string k' ->
  default [] (head (segments k)) = default [] (head (segments k')).
Proof. intros E. by rewrite <- !plane_of_key, E. Qed.

(* ------------------------------------------------------------------ *)
(** * The invariant *)

Section Inv.
Context `{Sha256} (root qid : bytes).

Definition at_key (k : Key) : bytes := root ++ key_to_string k.
Definition decode_key (k : Key) (body : bytes) : Result RecordError Record_ :=
  decode_record body qid (key_tag qid (key_to_string k)).

Definition holds_at (m : Space) (k : Key) (P : Entry -> Record_ -> Prop) : Prop :=
  exists e r, m !! at_key k = Some e /\ decode_key k (e_body e) = Ok r /\ P e r.

(** What makes a generation admissible on its predecessor: the auditor's
    check, and the attempt count. *)
Definition follows (c : ClaimRecord) (e' : Entry) (r' : Record_) : Prop :=
  exists c', r' = RecClaim c' /\ admissible c c' (meta_of e') = true /\
    c_attempt c = (if c_continuation c then c_attempt c' else wrapping_add (c_attempt c') 1).

(** A job record with its payload: inline and matching its digest, or
    detached, content-addressed and present. *)
Definition job_ok (m : Space) (job_id : bytes) (r : JobRecord) : Prop :=
  j_job_id r = job_id /\ 1 <= j_maximum_attempts r /\
  (forall b, j_payload_inline r = Some b -> sha256 b = j_payload_digest r) /\
  (forall k, j_payload_key r = Some k ->
     k = key_to_string (KPayload job_id (j_payload_digest r)) /\ is_Some (m !! (root ++ k))).

(** A claim record: in its place, within its job's attempts, and opening
    the chain or following the generation before it. *)
Definition claim_ok (m : Space) (shard : Z) (job_id : bytes) (g : Z) (c : ClaimRecord) : Prop :=
  c_job_id c = job_id /\ c_generation c = g /\ 1 <= g /\
  holds_at m (KJob shard job_id) (fun _ r =>
    exists j, r = RecJob j /\ c_attempt c <= j_maximum_attempts j) /\
  (g = 1 -> c_continuation c = false /\ c_attempt c = 1) /\
  (1 < g -> holds_at m (KClaim shard job_id (g - 1)) (follows c)).

(** Evidence of a generation: its claim record carries this token and
    attempt. *)
Definition claimed_by (m : Space) (shard : Z) (job_id : bytes) (g : Z) (P : ClaimRecord -> Prop) : Prop :=
  holds_at m (KClaim shard job_id g) (fun _ r => exists c, r = RecClaim c /\ P c).

Definition ok_at (m : Space) (k : Key) (body : bytes) : Prop :=
  match k with
  | KJob s j => exists r, decode_key k body = Ok (RecJob r) /\ job_ok m j r
  | KPayload _ d => sha256 body = d
  | KClaim s j g => exists c, decode_key k body = Ok (RecClaim c) /\ claim_ok m s j g c
  | KFail s j g => exists f, decode_key k body = Ok (RecFail f) /\ f_job_id f = j /\ f_generation f = g /\
      claimed_by m s j g (fun c => c_attempt c = f_attempt f)
  | KReceipt s j => exists r, decode_key k body = Ok (RecReceipt r) /\ r_job_id r = j /\
      claimed_by m s j (r_generation r) (fun c =>
        c_attempt c = r_attempt r /\ c_worker_token c = r_worker_token r /\ c_worker_id c = r_worker_id r) /\
      holds_at m (KJob s j) (fun _ x => exists jr, x = RecJob jr /\ r_payload_digest r = j_payload_digest jr)
  | KDead s j => exists d, decode_key k body = Ok (RecDead d) /\ d_job_id d = j /\
      claimed_by m s j (d_generation d) (fun c => c_attempt c = d_attempt d)
  | _ => True
  end.

(** Every object at a key of the grammar is what its key says; the claims
    plane holds nothing else. *)
Definition Inv (m : Space) : Prop :=
  (forall k e, key_wf k -> m !! at_key k = Some e -> is_u64 (e_time e) /\ ok_at m k (e_body e)) /\
  (forall s e, m !! (root ++ s) = Some e -> plane_of s = ¶"claims" -> exists k, key_wf k /\ s = key_to_string k).

Definition frozen (m m' : Space) : Prop :=
  forall s e, authoritative s -> m !! (root ++ s) = Some e -> m' !! (root ++ s) = Some e.

Definition rely (m m' : Space) : Prop := frozen m m' /\ (Inv m -> Inv m').

#[export] Instance rely_preorder : PreOrder rely.
Proof.
  split.
  - intros m. split; [intros s e _; done|done].
  - intros m1 m2 m3 [F12 I12] [F23 I23]. split; [intros s e Hs He; auto|auto].
Qed.

(** ** Facts that later steps keep *)

Lemma plane_authoritative k : match k with
  | KJob _ _ | KPayload _ _ | KClaim _ _ _ | KFail _ _ _ | KReceipt _ _ | KDead _ _ | KQuarantine _ _
  | KFormat => True | _ => False end -> authoritative (key_to_string k).
Proof.
  destruct k; try done; intros _; first [by right | left; rewrite plane_of_key;
    apply (bool_decide_eq_true_1 _); vm_compute; reflexivity].
Qed.

Lemma frozen_holds m m' k P :
  authoritative (key_to_string k) -> frozen m m' -> holds_at m k P -> holds_at m' k P.
Proof. intros Ha Hf (e & r & He & Hr & HP). exists e, r. split; [by apply Hf|done]. Qed.

Lemma ok_at_frozen m m' k body : frozen m m' -> ok_at m k body -> ok_at m' k body.
Proof.
  intros Hf. assert (forall s j g P, claimed_by m s j g P -> claimed_by m' s j g P) as Hc.
  { intros s j g P. apply frozen_holds; [by apply plane_authoritative|done]. }
  destruct k; cbn [ok_at]; auto.
  - intros (r & Hr & Hj & Hm & Hi & Hk). exists r. split; [done|]. split_and!; [done..|].
    intros k Ek. destruct (Hk k Ek) as [-> [e He]]. split; [done|]. exists e. apply Hf; [|done].
    by apply plane_authoritative.
  - intros (c & Hr & E1 & E2 & Hg & Hj & H1 & Hp). exists c. split; [done|]. split_and!; try done.
    + eapply frozen_holds; [by apply plane_authoritative|done..].
    + intros Hg'. eapply frozen_holds; [by apply plane_authoritative|done|auto].
  - intros (f & ? & ? & ? & ?). eauto 8.
  - intros (r & ? & ? & ? & ?). exists r. split_and!; auto.
    eapply frozen_holds; [by apply plane_authoritative|done..].
  - intros (d & ? & ? & ?). eauto 8.
Qed.
End Inv.

(* ------------------------------------------------------------------ *)
(** * Store calls as protocol steps *)

Section Steps.
Context `{Sha256} (root qid : bytes).
#[local] Abbreviation rely := (rely root qid).
#[local] Abbreviation Inv := (Inv root qid).
#[local] Abbreviation ok_at := (ok_at root qid).
#[local] Abbreviation at_key := (at_key root).

Lemma rely_write (m : Space) s e :
  (authoritative s -> m !! (root ++ s) = None) -> is_u64 (e_time e) ->
  (plane_of s = ¶"claims" -> exists k, key_wf k /\ s = key_to_string k) ->
  (forall k, key_wf k -> s = key_to_string k -> Inv m -> ok_at m k (e_body e)) ->
  rely m (<[root ++ s := e]> m).
Proof.
  intros Hnew Ht Hcl Hok. set (m' := (<[root ++ s := e]> m) : Space).
  assert (frozen root m m') as Hf.
  { intros s' e' Hs' He'. unfold m'. rewrite space_insert_ne; [done|].
    intros ->%(inj (app root)). rewrite Hnew in He'; done. }
  split; [done|]. intros HI. pose proof HI as [Hobj Hplane]. split.
  - intros k e' Hk He'. apply space_insert_inv in He' as [[Ek <-]|[_ He']].
    + apply (inj (app root)) in Ek. split; [done|]. eapply ok_at_frozen; [exact Hf|]. by apply Hok.
    + destruct (Hobj k e' Hk He'). split; [done|]. by eapply ok_at_frozen.
  - intros s' e' He' Hs'. apply space_insert_inv in He' as [[Ek <-]|[_ He']]; [|eauto].
    apply (inj (app root)) in Ek as ->. auto.
Qed.

Lemma rely_delete (m : Space) s : ~ authoritative s -> rely m (delete (root ++ s) m).
Proof.
  intros Hs. assert (frozen root m (delete (root ++ s) m)) as Hf.
  { intros s' e' Hs' He'. rewrite space_delete_ne; [done|]. intros ->%(inj (app root)). done. }
  split; [done|]. intros [Hobj Hplane]. split.
  - intros k e' Hk He'%space_delete_inv.
    destruct (Hobj k e' Hk He'). split; [done|]. by eapply ok_at_frozen.
  - intros s' e' He'%space_delete_inv. eauto.
Qed.

Lemma advisory_ok m k k' body : advisory k -> key_to_string k = key_to_string k' -> ok_at m k' body.
Proof. intros Hk E%plane_of_eq. destruct k; try done; destruct k'; done. Qed.

Lemma advisory_write (m : Space) k e : advisory k -> is_u64 (e_time e) -> rely m (<[at_key k := e]> m).
Proof.
  intros Hk Ht. apply rely_write; [|done| |].
  - intros Ha. by destruct (advisory_not_authoritative k Hk).
  - rewrite plane_of_key. by destruct k.
  - intros k' _ E _. by eapply advisory_ok.
Qed.

Lemma key_write (m : Space) k e :
  key_wf k -> m !! at_key k = None -> is_u64 (e_time e) -> (Inv m -> ok_at m k (e_body e)) ->
  rely m (<[at_key k := e]> m).
Proof.
  intros Hk Hn Ht Hok. apply rely_write; [done|done|eauto|].
  intros k' Hk' E. apply key_to_string_inj in E as <-; done.
Qed.

(** [spec x m Q]: from an invariant state, under interference, every store
    call of [x] is a protocol step, and [Q] holds when it succeeds. *)
Definition spec {A} (x : M A) (m : Space) (Q : A -> Space -> Prop) : Prop := Inv m -> sat rely x m Q.
#[local] Abbreviation kept := (kept rely).

Lemma rely_inv m m' : rely m m' -> Inv m -> Inv m'.
Proof. intros [_ Hi]. exact Hi. Qed.

Lemma kept_stored s P : authoritative s -> kept (fun m => exists e, m !! (root ++ s) = Some e /\ P e).
Proof. intros Hs m m' [Hf _] (e & He & HP). exists e. split; [by apply Hf|done]. Qed.
Lemma kept_present s : authoritative s -> kept (fun m => is_Some (m !! (root ++ s))).
Proof. intros Hs m m' [Hf _] [e He]. exists e. by apply Hf. Qed.
Lemma kept_holds k P : authoritative (key_to_string k) -> kept (fun m => holds_at root qid m k P).
Proof. intros Hk m m' [Hf _]. by apply frozen_holds. Qed.
Lemma kept_pure (P : Prop) : kept (fun _ => P).
Proof. by intros m m' _ HP. Qed.
Lemma kept_and P Q : kept P -> kept Q -> kept (fun m => P m /\ Q m).
Proof. intros HP HQ m m' Hm [? ?]. split; [by eapply HP|by eapply HQ]. Qed.
Lemma kept_forall {X} (P : X -> Space -> Prop) : (forall x, kept (P x)) -> kept (fun m => forall x, P x m).
Proof. intros HP m m' Hm Hx x. by eapply HP. Qed.
Lemma kept_exists {X} (P : X -> Space -> Prop) : (forall x, kept (P x)) -> kept (fun m => exists x, P x m).
Proof. intros HP m m' Hm [x Hx]. exists x. by eapply HP. Qed.
Lemma kept_impl (P : Prop) Q : kept Q -> kept (fun m => P -> Q m).
Proof. intros HQ m m' Hm Hi p. by eapply HQ, Hi. Qed.
Lemma kept_Forall {X} (l : list X) (P : X -> Space -> Prop) :
  (forall x, kept (P x)) -> kept (fun m => Forall (fun x => P x m) l).
Proof. intros HP m m' Hm Hl. eapply Forall_impl; [exact Hl|]. intros x Hx. by eapply HP. Qed.

Lemma spec_inv {A} (x : M A) m Q : (Inv m -> spec x m Q) -> spec x m Q.
Proof. intros Hx HI. by apply Hx. Qed.
Lemma spec_bind {A B} (x : M A) (f : A -> M B) m Q R :
  spec x m Q -> (forall a m', rely m m' -> Inv m' -> Q a m' -> spec (f a) m' R) -> spec (x ≫= f) m R.
Proof.
  intros Hx Hf HI. eapply sat_bind; [apply _|by apply Hx|]. intros a m' Hm HQ.
  pose proof (rely_inv m m' Hm HI). by apply Hf.
Qed.
Lemma spec_then {A B} (x : M A) (f : A -> M B) m R :
  spec x m trivial -> (forall a m', rely m m' -> Inv m' -> spec (f a) m' R) -> spec (x ≫= f) m R.
Proof. intros Hx Hf. eapply spec_bind; [exact Hx|]. auto. Qed.
Lemma spec_mono {A} (x : M A) m (Q Q' : A -> Space -> Prop) :
  spec x m Q -> (forall a m', rely m m' -> Inv m' -> Q a m' -> Q' a m') -> spec x m Q'.
Proof.
  intros Hx HQ HI. eapply sat_mono; [by apply Hx|]. intros a m' Hm.
  apply HQ; [done|by eapply rely_inv].
Qed.
Lemma spec_true {A} (x : M A) m Q : spec x m Q -> spec x m trivial.
Proof. intros Hx. by eapply spec_mono. Qed.
Lemma spec_stable {A} (x : M A) m m' Q : Inv m -> rely m m' -> spec x m Q -> spec x m' Q.
Proof. intros HI Hm Hx _. eapply sat_stable; [apply _|done|by apply Hx]. Qed.
Lemma spec_ret {A} (a : A) m (Q : A -> Space -> Prop) : kept (Q a) -> Q a m -> spec (mret a) m Q.
Proof. intros Hk HQ _. apply sat_ret. intros m' Hm. by eapply Hk. Qed.
Lemma spec_skip {A} (a : A) m : spec (mret a) m trivial.
Proof. by apply spec_ret. Qed.
Lemma spec_fail {A} e m (Q : A -> Space -> Prop) : spec (fail e) m Q.
Proof. intros _. apply sat_fail. Qed.
Lemma spec_throw {A} e m (Q : A -> Space -> Prop) : spec (throw e) m Q.
Proof. intros _. apply sat_throw. Qed.
Lemma spec_try {A} (x : M A) m (Q : A -> Space -> Prop) :
  (forall a, kept (Q a)) -> spec x m Q ->
  spec (try_ x) m (fun r m' => match r with Ok a => Q a m' | Err _ => True end).
Proof. intros Hk Hx HI. apply sat_try; [apply _|done|by apply Hx]. Qed.
Lemma spec_try_skip {A} (x : M A) m : spec x m trivial -> spec (try_ x) m trivial.
Proof. intros Hx. eapply spec_true, spec_try, Hx. intros a. apply kept_pure. Qed.
Lemma spec_budget_loop {A} (f : nat -> M A) m Q : (forall n, spec (f n) m Q) -> spec (budget_loop f) m Q.
Proof. intros Hf HI. apply sat_budget_loop. intros n. by apply Hf. Qed.
Lemma spec_fold {A B} (xs : list A) (b : B) body m (P : B -> Space -> Prop) :
  (forall b, kept (P b)) -> P b m ->
  (forall b x m', x ∈ xs -> rely m m' -> Inv m' -> P b m' -> spec (body b x) m' P) ->
  spec (fold_each xs b body) m P.
Proof.
  intros Hk Hb Hbody HI. apply sat_fold_each; [apply _|done|done|].
  intros b' x m' Hx Hm HP. apply (Hbody b' x m'); [done|done|by eapply rely_inv|done|by eapply rely_inv].
Qed.
Lemma spec_for_each {A} (xs : list A) body m :
  (forall x m', x ∈ xs -> rely m m' -> Inv m' -> spec (body x) m' trivial) ->
  spec (for_each xs body) m trivial.
Proof.
  intros Hbody HI. apply sat_for_each; [apply _|]. intros x m' Hx Hm.
  apply (Hbody x m'); [done|done|by eapply rely_inv|by eapply rely_inv].
Qed.

Lemma spec_pure {A} (x : M A) m (P : A -> Prop) :
  sat rely x m (fun a _ => P a) -> spec x m (fun a _ => P a).
Proof. by intros Hx _. Qed.

(** ** Calls *)

Lemma spec_call c m (Q : answer c -> Space -> Prop) :
  (forall x, kept (Q x)) ->
  (forall m1 x m2, rely m m1 -> Inv m1 -> call_post c m1 x m2 -> rely m1 m2 /\ (rely m1 m2 -> Q x m2)) ->
  spec (do_call c) m Q.
Proof.
  intros Hk Hc HI. apply sat_call; [apply _|done|]. intros m1 x m2 Hm1 Hx%contract_post.
  destruct (Hc m1 x m2 Hm1 (rely_inv _ _ Hm1 HI) Hx). auto.
Qed.

Lemma spec_get_any k m : spec (do_get k) m trivial.
Proof. apply spec_call; [by intros|]. intros m1 x m2 _ _ [-> _]. split; [reflexivity|done]. Qed.
Lemma spec_head_any k m : spec (do_head k) m trivial.
Proof. apply spec_call; [by intros|]. intros m1 x m2 _ _ [-> _]. split; [reflexivity|done]. Qed.

Lemma spec_get s m :
  authoritative s ->
  spec (do_get (root ++ s)) m (fun r m' => forall obj, r = Ok obj ->
    exists e, m' !! (root ++ s) = Some e /\ o_meta obj = meta_of e /\ o_body obj = e_body e).
Proof.
  intros Hs. apply spec_call.
  - intros x. apply kept_forall. intros obj. apply kept_impl. by apply kept_stored.
  - intros m1 x m2 _ _ [-> Hx]. split; [reflexivity|]. intros _ obj E. by apply Hx.
Qed.
Lemma spec_head s m :
  authoritative s ->
  spec (do_head (root ++ s)) m (fun r m' => forall meta, r = Ok meta ->
    exists e, m' !! (root ++ s) = Some e /\ meta = meta_of e).
Proof.
  intros Hs. apply spec_call.
  - intros x. apply kept_forall. intros obj. apply kept_impl. by apply kept_stored.
  - intros m1 x m2 _ _ (-> & Hx & _). split; [reflexivity|]. intros _ obj E. by apply Hx.
Qed.

(** A listing under a prefix; of an authoritative plane, its entries stay. *)
Definition listed (prefix : bytes) (l : Listing) (m : Space) : Prop :=
  starts_with prefix (l_key l) = true /\
  forall s, l_key l = root ++ s -> authoritative s ->
    exists e, m !! (root ++ s) = Some e /\ l_meta l = meta_of e.

Lemma kept_listed prefix l : kept (listed prefix l).
Proof.
  apply kept_and; [apply kept_pure|]. apply kept_forall. intros s. apply kept_impl.
  intros m m' Hm Hs Ha. eapply kept_stored; eauto.
Qed.

Lemma spec_list prefix after n m :
  spec (do_list prefix after n) m (fun r m' => forall page, r = Ok page ->
    Forall (fun l => listed prefix l m') (p_items page)).
Proof.
  apply spec_call.
  - intros x. apply kept_forall. intros page. apply kept_impl, kept_Forall, kept_listed.
  - intros m1 x m2 _ _ [-> Hx]. split; [reflexivity|]. intros _ page E.
    destruct (Hx page E) as (_ & Hi & _). eapply Forall_impl; [exact Hi|].
    intros l (e & He & Hl & Hp & _). split; [done|]. intros s Es _. rewrite Es in He. eauto.
Qed.

Lemma spec_put_advisory k b d m : advisory k -> spec (do_put (at_key k) b d) m trivial.
Proof.
  intros Hk. apply spec_call; [by intros|]. intros m1 x m2 _ _ ([->|(_ & v & t & Ht & ->)] & _).
  - split; [reflexivity|done].
  - split; [by apply advisory_write|done].
Qed.
Lemma spec_cas_advisory k b d v m : advisory k -> spec (do_cas (at_key k) b d v) m trivial.
Proof.
  intros Hk. apply spec_call; [by intros|]. intros m1 x m2 _ _ [->|(v' & t & Ht & ->)].
  - split; [reflexivity|done].
  - split; [by apply advisory_write|done].
Qed.
Lemma spec_delete s m : ~ authoritative s -> spec (do_delete (root ++ s)) m trivial.
Proof.
  intros Hs. apply spec_call; [by intros|]. intros m1 x m2 _ _ [->| ->].
  - split; [reflexivity|done].
  - split; [by apply rely_delete|done].
Qed.

Definition put_result (k body : bytes) (r : StoreResult PutOutcome) (m : Space) : Prop :=
  match r with
  | Ok (Committed _) => exists e, m !! k = Some e /\ e_body e = body
  | Ok Rejected => is_Some (m !! k)
  | Err _ => True
  end.

Lemma kept_put_result s body r : authoritative s -> kept (put_result (root ++ s) body r).
Proof.
  intros Hs. destruct r as [[v|]|]; [by apply kept_stored|by apply kept_present|apply kept_pure].
Qed.

(** A conditional create outside the claims plane and the grammar, or of
    an object that satisfies the invariant. *)
Lemma spec_put_at s b d m :
  authoritative s -> (plane_of s = ¶"claims" -> exists k, key_wf k /\ s = key_to_string k) ->
  (forall k m', rely m m' -> Inv m' -> key_wf k -> s = key_to_string k -> ok_at m' k b) ->
  spec (do_put (root ++ s) b d) m (put_result (root ++ s) b).
Proof.
  intros Ha Hcl Hok. apply spec_call; [intros; by apply kept_put_result|].
  intros m1 x m2 Hm1 HI (Hw & Hc & Hr). split.
  - destruct Hw as [->|(Hn & v & t & Ht & ->)]; [reflexivity|]. apply rely_write; [done|done|done|].
    intros k Hk E _. by apply Hok.
  - intros _. destruct x as [[v|]|]; cbn; [by eapply Hc|by apply Hr|done].
Qed.

Lemma spec_put k b d m :
  key_wf k -> authoritative (key_to_string k) -> (forall m', rely m m' -> Inv m' -> ok_at m' k b) ->
  spec (do_put (at_key k) b d) m (put_result (at_key k) b).
Proof.
  intros Hk Ha Hok. apply spec_put_at; [done|eauto|].
  intros k' m' Hm HI Hk' E%key_to_string_inj; [|done..]. subst. auto.
Qed.
End Steps.

Create HintDb spec.
#[export] Hint Resolve spec_skip spec_fail spec_throw spec_get_any spec_head_any : spec.
#[export] Hint Resolve spec_put_advisory spec_cas_advisory : spec.
#[export] Hint Extern 1 (advisory _) => exact I : spec.
Create HintDb kept.
#[export] Hint Resolve kept_pure kept_and kept_forall kept_exists kept_impl kept_Forall kept_stored
  kept_present kept_holds kept_listed kept_put_result : kept.

(** Walks an operation whose result promises nothing. *)
Ltac spec_leaf := first [ solve [eauto 3 with spec] | eapply spec_true; solve [eauto 3 with spec] ].
Ltac spec_tac :=
  cbv beta zeta;
  lazymatch goal with
  | |- spec _ _ (mbind _ _) _ _ => eapply spec_then; [spec_tac | intros; spec_tac]
  | |- spec _ _ (try_ _) _ _ => apply spec_try_skip; spec_tac
  | |- spec _ _ (match ?x with _ => _ end) _ _ => destruct x; spec_tac
  | |- spec _ _ _ _ _ => spec_leaf
  end.

Section Leaves.
Context `{Sha256} (root qid : bytes).
#[local] Abbreviation spec := (spec root qid).

Lemma spec_list_any p a n m : spec (do_list p a n) m trivial.
Proof. eapply spec_true, spec_list. Qed.
Lemma spec_spend m : spec spend m trivial.
Proof. intros _. apply sat_spend. Qed.
Lemma spec_get_state m : spec get_state m trivial.
Proof. intros _. eapply sat_true, sat_get_state. Qed.
Lemma spec_get_cached m : spec get_state m (fun s _ => cached_ok s).
Proof. intros _. apply sat_get_state. Qed.
Lemma spec_set_budget n m : spec (set_budget n) m trivial.
Proof. intros _. apply sat_set_budget. Qed.
Lemma spec_set_floor f m : is_u64 (floor_ns f) -> spec (set_floor f) m trivial.
Proof. intros Hf _. by apply sat_set_floor. Qed.
Lemma spec_set_memo f m : spec (set_memo f) m trivial.
Proof. intros _. apply sat_set_memo. Qed.
Lemma spec_token m : spec fresh_token m (fun t _ => is_id t).
Proof. intros _. apply sat_token. Qed.
Lemma spec_elapsed m : spec elapsed_ns m (fun t _ => is_u64 t).
Proof. intros _. apply sat_elapsed. Qed.
Lemma spec_store_ok {A} (r : StoreResult A) m : spec (store_ok r) m (fun a _ => r = Ok a).
Proof. intros _. apply sat_store_ok. Qed.
Lemma spec_record_ok {A} (r : Result RecordError A) m : spec (record_ok r) m (fun a _ => r = Ok a).
Proof. intros _. apply sat_record_ok. Qed.
Lemma spec_result_ok {A} (r : Result Error A) m : spec (result_ok r) m (fun a _ => r = Ok a).
Proof. destruct r; [by apply spec_ret; [apply kept_pure|]|apply spec_fail]. Qed.
Lemma spec_ok_or_fail {A} (o : option A) e m : spec (ok_or_fail o e) m (fun a _ => o = Some a).
Proof. intros _. apply sat_ok_or_fail. Qed.
Lemma spec_unwrap {A} (o : option A) m : spec (unwrap o) m (fun a _ => o = Some a).
Proof. intros _. apply sat_unwrap. Qed.
End Leaves.
#[export] Hint Resolve spec_list_any spec_spend spec_get_state spec_set_budget spec_set_floor spec_set_memo
  spec_token spec_elapsed spec_store_ok spec_record_ok spec_result_ok spec_ok_or_fail spec_unwrap : spec.

(* ------------------------------------------------------------------ *)
(** * The queue's operations *)

Section Ops.
Context `{Sha256} (q : Queue).
#[local] Abbreviation root := (q_root q).
#[local] Abbreviation qid := (o_queue_id (q_opts q)).
#[local] Abbreviation rely := (rely root qid).
#[local] Abbreviation Inv := (Inv root qid).
#[local] Abbreviation spec := (spec root qid).
#[local] Abbreviation holds := (holds_at root qid).

(** The object a read returned. *)
Definition read_post (s : bytes) (obj : Object) (m : Space) : Prop :=
  exists e, m !! (root ++ s) = Some e /\ o_meta obj = meta_of e /\ o_body obj = e_body e.
Lemma kept_read_post s obj : authoritative s -> Rely.kept rely (read_post s obj).
Proof. intros Hs. by apply kept_stored. Qed.
#[local] Hint Resolve kept_read_post : kept.

Lemma spec_read_retrying_any abs m : spec (read_retrying abs) m trivial.
Proof.
  unfold read_retrying. generalize RETRY_TRANSPORT_MAX as n. intros n. revert m.
  induction n as [|n IH]; intros m; cbn [read_retrying_loop]; spec_tac.
Qed.
Lemma spec_read_retrying s m : authoritative s -> spec (read_retrying (root ++ s)) m (read_post s).
Proof.
  intros Hs. unfold read_retrying. generalize RETRY_TRANSPORT_MAX as n. intros n. revert m.
  induction n as [|n IH]; intros m; cbn [read_retrying_loop];
    (eapply spec_then; [apply spec_spend|intros _ m1 _ _]);
    (eapply spec_bind; [by apply spec_get|intros r m2 _ _ Hr]);
    destruct r as [obj|[]]; try apply spec_fail; try apply IH;
    (apply spec_ret; [by apply kept_read_post|by apply Hr]).
Qed.
#[local] Hint Resolve spec_read_retrying_any : spec.

Lemma spec_resolve_presence_any abs m : spec (resolve_presence abs) m trivial.
Proof.
  unfold resolve_presence. generalize RETRY_TRANSPORT_MAX as n. intros n. revert m.
  induction n as [|n IH]; intros m; cbn [resolve_presence_loop]; spec_tac.
Qed.
Lemma spec_resolve_presence s m :
  authoritative s ->
  spec (resolve_presence (root ++ s)) m (fun b m' => b = true -> is_Some (m' !! (root ++ s))).
Proof.
  intros Hs. unfold resolve_presence. generalize RETRY_TRANSPORT_MAX as n. intros n. revert m.
  induction n as [|n IH]; intros m; cbn [resolve_presence_loop];
    (eapply spec_then; [apply spec_spend|intros _ m1 _ _]);
    (eapply spec_bind; [by apply spec_head|intros r m2 _ _ Hr]);
    destruct r as [meta|[]]; try apply spec_fail; try apply IH;
    (apply spec_ret; [apply kept_impl; by apply kept_present|]); try done;
    intros _; destruct (Hr meta eq_refl) as (e & He & _); by exists e.
Qed.

(** A payload or a record of no concern here: present afterwards. *)
Lemma spec_put_bytes_resolving s body d m :
  authoritative s -> (plane_of s = ¶"claims" -> exists k, key_wf k /\ s = key_to_string k) ->
  (forall k m', rely m m' -> Inv m' -> key_wf k -> s = key_to_string k -> ok_at root qid m' k body) ->
  spec (put_bytes_resolving (root ++ s) body d) m (fun _ m' => is_Some (m' !! (root ++ s))).
Proof.
  intros Hs Hcl. unfold put_bytes_resolving. generalize RETRY_TRANSPORT_MAX as n. intros n. revert m.
  induction n as [|n IH]; intros m Hok; cbn [put_bytes_loop];
    (eapply spec_then; [apply spec_spend|intros _ m1 Hm1 _]);
    (eapply spec_bind; [apply spec_put_at; [done|done|]; intros k m' Hm'; apply Hok; by etrans
                       |intros r m2 Hm2 HI2 Hr]);
    (assert (rely m m2) as Hm by (by etrans)).
  all: destruct r as [[v|]|[]]; try apply spec_fail; cbn in Hr;
    try (apply spec_ret; [by apply kept_present|]; done || (destruct Hr as (e & He & _); by exists e)).
  all: try (apply IH; intros k m' Hm'; apply Hok; by etrans).
  all: (eapply spec_bind; [by apply spec_resolve_presence|intros b m3 Hm3 _ Hb]);
    destruct b; [apply spec_ret; [by apply kept_present|by apply Hb]|try apply spec_fail].
  apply IH. intros k m' Hm'. apply Hok. etrans; [exact Hm|by etrans].
Qed.

(** What [put_resolving] decides. *)
Definition resolved_post (rel : Key) (rec : Record_) (r : Resolved) (m : Space) : Prop :=
  match r with
  | RCommitted => exists e, m !! absolute q rel = Some e /\ e_body e = encode_at q rel rec
  | RLost => is_Some (m !! absolute q rel)
  | RNotCommitted => False
  end.
Lemma kept_resolved rel rec r : authoritative (key_to_string rel) -> Rely.kept rely (resolved_post rel rec r).
Proof. intros Ha. destruct r; [by apply kept_stored|by apply kept_present|apply kept_pure]. Qed.

Lemma spec_resolve_unknown rel rec m :
  authoritative (key_to_string rel) ->
  spec (resolve_unknown q (absolute q rel) rec rel) m (fun r m' =>
    match r with RNotCommitted => True | _ => resolved_post rel rec r m' end).
Proof.
  intros Ha. unfold resolve_unknown. generalize RETRY_TRANSPORT_MAX as n. intros n. revert m.
  induction n as [|n IH]; intros m; cbn [resolve_unknown_loop];
    (eapply spec_then; [apply spec_spend|intros _ m1 _ _]);
    (eapply spec_bind; [by apply spec_head|intros r m2 _ _ Hr]);
    destruct r as [meta|[]]; try apply spec_fail; try apply IH.
  all: try (apply spec_ret; [apply kept_pure|done]).
  all: (eapply spec_bind; [by apply spec_read_retrying|intros obj m3 _ _ (e & He & _ & Hb)]).
  all: destruct (decode_at q rel (o_body obj)) as [found|] eqn:Hd; [case_bool_decide as Ef|];
    (apply spec_ret; [by apply (kept_resolved rel rec)|]); cbn; try (by exists e).
  all: subst found; exists e; split; [done|]; rewrite <- Hb;
    by apply decode_record_canonical_aux in Hd as [-> _].
Qed.

Lemma spec_put_resolving rel rec m :
  key_wf rel -> authoritative (key_to_string rel) ->
  (forall m', rely m m' -> Inv m' -> ok_at root qid m' rel (encode_at q rel rec)) ->
  spec (put_record q rel rec) m (resolved_post rel rec).
Proof.
  intros Hk Ha. unfold put_record, put_resolving. generalize RETRY_TRANSPORT_MAX as n. intros n. revert m.
  induction n as [|n IH]; intros m Hok; cbn [put_resolving_loop];
    (eapply spec_then; [apply spec_spend|intros _ m1 Hm1 _]);
    (eapply spec_bind; [apply spec_put; [done|done|]; intros m' Hm'; apply Hok; by etrans
                       |intros r m2 Hm2 HI2 Hr]);
    (assert (rely m m2) as Hm by (by etrans)).
  all: destruct r as [[v|]|[]]; try apply spec_fail; cbn in Hr;
    try (apply spec_ret; [by apply kept_resolved|done]).
  all: try (apply IH; intros m' Hm'; apply Hok; by etrans).
  all: (eapply spec_bind; [by apply spec_resolve_unknown|intros b m3 Hm3 _ Hb]);
    destruct b; try (apply spec_ret; [by apply kept_resolved|done]); try apply spec_fail.
  apply IH. intros m' Hm'. apply Hok. etrans; [exact Hm|by etrans].
Qed.
End Ops.
