(* ===== verification/Lifecycle.v ===== *)
(** The life of a job under the protocol: what each operation of a handle
    leaves in the store, whatever the store answers and however other clients
    interleave. *)

From S2P Require Import Prelude Sha256 StowqMath Keys Cbor Records Direct Store Effects Rely Queue Claims Sweeps Repair Protocol.

(* ------------------------------------------------------------------ *)
(** * Text *)

Lemma utf8_ascii (s : bytes) : Forall (fun b => byte_val b <= 127) s -> Cbor.utf8_valid s = true.
Proof.
  induction 1 as [|b s Hb _ IH]; [done|]. cbn [Cbor.utf8_valid].
  unfold Cbor.in_range. pose proof (byte_val_range b).
  destruct (Z.leb_spec 0 (byte_val b)); [|lia]. destruct (Z.leb_spec (byte_val b) 127); [done|lia].
Qed.

Lemma push_hex_ascii (s : bytes) : Forall (fun b => byte_val b <= 127) (push_hex s).
Proof.
  induction s as [|b s IH]; cbn [push_hex]; constructor; [|constructor; [|done]];
    destruct b; vm_compute; discriminate.
Qed.

Lemma payload_key_text job_id d :
  is_id job_id -> length d = 32%nat -> is_text (key_to_string (KPayload job_id d)).
Proof.
  intros Hj Hd. rewrite key_to_string_segments. split.
  - apply utf8_ascii. cbn [segments join_with].
    repeat first [apply Forall_app_2 | apply push_hex_ascii | apply Forall_cons_2; [by vm_compute|]].
    repeat constructor; by vm_compute.
  - unfold Cbor.len64, is_u64. cbn [segments join_with].
    rewrite !length_app, !length_cons, !length_app, !length_cons, !push_hex_length, Hj, Hd. cbn. lia.
Qed.

(** Postconditions that later steps keep. *)
Ltac kept_tac :=
  repeat first
    [ apply kept_pure
    | apply kept_holds; by apply plane_authoritative
    | apply kept_present; by apply plane_authoritative
    | apply kept_and | apply kept_impl | apply kept_exists; intros ? | apply kept_forall; intros ? ].

(* ------------------------------------------------------------------ *)
(** * Records under a handle *)

(** The handles the protocol is about: the field types of [OpenOptions], and
    a worker id that fits a record. *)
Definition handle_ok (q : Queue) : Prop :=
  is_id (o_queue_id (q_opts q)) /\ is_text (o_worker_id (q_opts q)) /\ is_u64 (o_skew_guard_ns (q_opts q)).

Section Ops.
Context `{Sha256} (q : Queue) (Hq : handle_ok q).
#[local] Abbreviation root := (q_root q).
#[local] Abbreviation qid := (o_queue_id (q_opts q)).
#[local] Abbreviation rely := (rely root qid).
#[local] Abbreviation Inv := (Inv root qid).
#[local] Abbreviation spec := (spec root qid).
#[local] Abbreviation holds := (holds_at root qid).
#[local] Abbreviation kept := (Rely.kept rely).
#[local] Hint Resolve spec_read_retrying_any spec_resolve_presence_any : spec.

Lemma decode_encode_at rel rec :
  record_wf rec -> record_valid rec -> decode_key qid rel (encode_at q rel rec) = Ok rec.
Proof.
  intros Hw Hv. apply decode_encode_aux; [| |done|done].
  - destruct Hq as [Hi _]. unfold Cbor.len64, is_u64. rewrite Hi. lia.
  - unfold key_tag, Cbor.len64, is_u64. rewrite length_take, sha256_length. lia.
Qed.

Lemma committed_holds m rel rec (P : Entry -> Record_ -> Prop) :
  record_wf rec -> record_valid rec -> (forall e, P e rec) ->
  resolved_post q rel rec RCommitted m -> holds m rel P.
Proof.
  intros Hw Hv HP (e & He & Hb). exists e, rec. split; [done|]. rewrite Hb. split; [|done].
  by apply decode_encode_at.
Qed.

(** Reading an authoritative key and decoding what was read. *)
Lemma read_holds m rel obj r :
  read_post q (key_to_string rel) obj m -> decode_at q rel (o_body obj) = Ok r ->
  holds m rel (fun e r' => r' = r /\ o_meta obj = meta_of e).
Proof. intros (e & He & Hm & Hb) Hd. exists e, r. split; [done|]. rewrite <- Hb. done. Qed.

Lemma holds_mono m rel (P Q : Entry -> Record_ -> Prop) :
  (forall e r, P e r -> Q e r) -> holds m rel P -> holds m rel Q.
Proof. intros HPQ (e & r & He & Hd & HP). exists e, r. auto. Qed.

Lemma inv_ok m rel e : Inv m -> key_wf rel -> m !! absolute q rel = Some e ->
  is_u64 (e_time e) /\ ok_at root qid m rel (e_body e).
Proof. intros [Hi _] Hk He. by apply Hi. Qed.

Lemma spec_put_index rel m : advisory rel -> spec (put_index q rel) m trivial.
Proof.
  intros Ha. unfold put_index. eapply spec_then; [by apply spec_put_advisory|intros; apply spec_skip].
Qed.
#[local] Hint Resolve spec_put_index : spec.

(* ---------------------------------------------------------------- *)
(** ** Enqueue *)

Definition input_ok (i : EnqueueInput) : Prop :=
  (forall j, ei_job_id i = Some j -> is_id j) /\ is_u64 (ei_maximum_attempts i) /\
  is_text (ei_content_type i) /\ is_u64 (Cbor.len64 (ei_payload i)) /\
  (forall n, ei_not_before_ns i = Some n -> is_u64 n).

(** A job record that stores this input. *)
Definition stores (i : EnqueueInput) (job_id : bytes) (r : Record_) : Prop :=
  exists j, r = RecJob j /\ j_job_id j = job_id /\
    j_maximum_attempts j = ei_maximum_attempts i /\ j_content_type j = ei_content_type i /\
    j_not_before_ns j = ei_not_before_ns i /\ j_payload_digest j = sha256 (ei_payload i) /\
    j_payload_length j = Z.of_nat (length (ei_payload i)) /\
    (j_payload_inline j = Some (ei_payload i) /\ j_payload_key j = None \/
     j_payload_inline j = None /\
     j_payload_key j = Some (key_to_string (KPayload job_id (sha256 (ei_payload i))))).

(** The shard an id lives in. *)
Definition shard_of (job_id : bytes) (shard : Z) : Prop :=
  compute_shard qid job_id (Z.max (shard_count (q_format q)) 1) = Some shard.

Lemma shard_of_u16 job_id shard : shard_of job_id shard -> is_u16 shard.
Proof.
  intros Hs. pose proof (compute_shard_cases qid job_id (Z.max (shard_count (q_format q)) 1)) as Hc.
  unfold shard_of in Hs. rewrite Hs in Hc. tauto.
Qed.

Definition enqueue_post (i : EnqueueInput) (r : EnqueueOutcome) (m : Space) : Prop :=
  match r with
  | EnqCommitted j => is_id j /\ (forall x, ei_job_id i = Some x -> j = x) /\
      exists s, shard_of j s /\ holds m (KJob s j) (fun _ r => stores i j r)
  | IdTaken j => (forall x, ei_job_id i = Some x -> j = x) /\
      exists s, shard_of j s /\ is_Some (m !! absolute q (KJob s j))
  end.

Lemma kept_enqueue i r : kept (enqueue_post i r).
Proof.
  destruct r; kept_tac.
Qed.
Lemma stores_record i job_id (inline : bool) :
  input_ok i -> is_id job_id -> ei_maximum_attempts i <> 0 ->
  let rec := RecJob {| j_job_id := job_id; j_maximum_attempts := ei_maximum_attempts i;
    j_content_type := ei_content_type i; j_created_store_time_ns := 0;
    j_not_before_ns := ei_not_before_ns i; j_payload_digest := sha256 (ei_payload i);
    j_payload_length := Z.of_nat (length (ei_payload i));
    j_payload_inline := if inline then Some (ei_payload i) else None;
    j_payload_key := if inline then None
                     else Some (key_to_string (KPayload job_id (sha256 (ei_payload i)))) |} in
  record_wf rec /\ record_valid rec /\ stores i job_id rec.
Proof.
  intros (Hj & Hmax & Hct & Hlen & Hnb) Hid Hne rec. split_and!.
  - cbn. unfold is_digest. rewrite sha256_length. split_and!; try done.
    + intros b. destruct inline; [|done]. by intros [= <-].
    + intros k. destruct inline; [done|]. intros [= <-]. apply payload_key_text; [done|apply sha256_length].
  - cbn. destruct inline; cbn; (split; [intros [? ?]|]); intros; first [done | by eexists].  
  - eexists. split; [reflexivity|]. cbn. split_and!; try done. destruct inline; auto.
Qed.

Lemma stores_job_ok m i job_id r :
  input_ok i -> ei_maximum_attempts i <> 0 -> stores i job_id r ->
  (forall k j, r = RecJob j -> j_payload_key j = Some k -> is_Some (m !! (root ++ k))) ->
  exists j, r = RecJob j /\ job_ok root m job_id j.
Proof.
  intros (_ & Hmax & _) Hne (j & -> & ? & Em & ? & ? & Ed & ? & Hp) Hk. exists j. split; [done|].
  unfold is_u64 in Hmax. split_and!; [done|lia| |].
  - intros b Hb. destruct Hp as [[Hi _]|[Hi _]]; rewrite Hi in Hb; [|done]. injection Hb as <-. done.
  - intros k Ek. split; [|by eapply Hk]. destruct Hp as [[_ Hn]|[_ Hn]]; rewrite Hn in Ek; [done|].
    injection Ek as <-. by rewrite Ed.
Qed.

Lemma spec_enqueue i m : input_ok i -> spec (enqueue q i) m (enqueue_post i).
Proof.
  intros Hi. unfold enqueue. destruct (Z.eqb_spec (ei_maximum_attempts i) 0) as [|Hne]; [apply spec_fail|].
  eapply (spec_bind _ _ _ _ _ (fun j _ => is_id j /\ forall x, ei_job_id i = Some x -> j = x)).
  { destruct (ei_job_id i) as [j|] eqn:Ej.
    - apply spec_ret; [apply kept_pure|]. destruct Hi as [Hi _]. split; [by apply Hi|congruence].
    - eapply spec_mono; [apply spec_token|]. intros t m' _ _ Ht. done. }
  intros job_id m1 Hm1 HI1 [Hid Hx]. eapply spec_bind; [apply spec_unwrap|]. intros shard m2 Hm2 HI2 Hs.
  pose proof (shard_of_u16 _ _ Hs) as H16. cbv zeta.
  set (inline := Z.of_nat _ <=? _).
  eapply (spec_bind _ _ _ _ _ (fun p m' =>
    p = (if inline then Some (ei_payload i) else None,
         if inline then None else Some (key_to_string (KPayload job_id (sha256 (ei_payload i))))) /\
    (inline = false -> is_Some (m' !! absolute q (KPayload job_id (sha256 (ei_payload i))))))).
  { destruct inline.
    - apply spec_ret; [apply kept_and; [apply kept_pure|apply kept_impl]|done].
      apply kept_present. by apply plane_authoritative.
    - eapply spec_bind; [apply (spec_put_bytes_resolving q)|].
      + by apply plane_authoritative.
      + rewrite plane_of_key. done.
      + intros k m' _ _ Hk E%key_to_string_inj; [|split; [done|apply sha256_length]|done]. by subst k.
      + intros ? m3 ? ? Hp. apply spec_ret; [apply kept_and; [apply kept_pure|apply kept_impl]|done].
        apply kept_present. by apply plane_authoritative. }
  intros p m3 Hm3 HI3 [-> Hpay]. cbv beta iota zeta.
  destruct (stores_record i job_id inline Hi Hid Hne) as (Hw & Hv & Hst). cbv zeta in Hw, Hv, Hst.
  set (rec := RecJob _) in *.
  assert (forall m', rely m3 m' -> ok_at root qid m' (KJob shard job_id) (encode_at q (KJob shard job_id) rec)) as Hok.
  { intros m' Hm'. destruct (stores_job_ok m' i job_id rec Hi Hne Hst) as (j & Ej & Hj).
    - intros k j Ej Ek. unfold rec in Ej. injection Ej as <-. cbn in Ek.
      destruct inline; [done|]. injection Ek as <-.
      exact (kept_present root qid _ (plane_authoritative (KPayload job_id _) I) m3 m' Hm' (Hpay eq_refl)).
    - exists j. split; [|done]. rewrite <- Ej. by apply decode_encode_at. }
  eapply spec_then; [apply spec_spend|intros _ m4 Hm4 HI4].
  eapply spec_bind; [apply spec_put_resolving|].
  { done. } { by apply plane_authoritative. } { intros m' Hm' _. apply Hok. by etrans. }
  intros r m5 Hm5 HI5 Hr. destruct r.
  - assert (enqueue_post i (EnqCommitted job_id) m5) as Hpost.
    { split; [done|]. split; [done|]. exists shard. split; [exact Hs|]. eapply committed_holds; eauto. }
    eapply spec_bind; [|intros _ m6 Hm6 _ _; apply spec_ret; [apply kept_enqueue|]].
    + destruct (ei_not_before_ns i); [|apply spec_skip]. spec_tac.
    + by eapply kept_enqueue.
  - eapply spec_bind; [apply spec_read_retrying; by apply plane_authoritative|].
    intros obj m6 Hm6 HI6 Hobj.
    assert (enqueue_post i (IdTaken job_id) m6) as Htaken.
    { split; [done|]. exists shard. split; [exact Hs|]. destruct Hobj as (e & He & _). by exists e. }
    destruct (decode_at q (KJob shard job_id) (o_body obj)) as [found|] eqn:Hd;
      (apply spec_ret; [apply kept_enqueue|]); [case_bool_decide as Ef|]; try done.
    split; [done|]. split; [done|]. exists shard. split; [exact Hs|].
    eapply holds_mono; [|by apply read_holds]. intros e r [-> _]. by rewrite Ef.
  - apply spec_fail.
Qed.

(* ---------------------------------------------------------------- *)
(** ** Advisory state: watermark, floor, hints, terminal index *)

Lemma spec_watermark m : spec (watermark q) m trivial.
Proof. unfold watermark. spec_tac. Qed.
#[local] Hint Resolve spec_watermark : spec.
Lemma spec_receipt_for c m : spec (receipt_for q c) m trivial.
Proof. unfold receipt_for. spec_tac. Qed.
Lemma spec_watermark_covers b m : spec (watermark_covers q b) m trivial.
Proof. unfold watermark_covers. spec_tac. Qed.
#[local] Hint Resolve spec_watermark_covers : spec.

Lemma spec_put_adv rel b d m : advisory rel -> spec (do_put (absolute q rel) b d) m trivial.
Proof. apply spec_put_advisory. Qed.
Lemma spec_cas_adv rel b d v m : advisory rel -> spec (do_cas (absolute q rel) b d v) m trivial.
Proof. apply spec_cas_advisory. Qed.
#[local] Hint Resolve spec_put_adv spec_cas_adv : spec.

Lemma spec_advance_watermark floor m : spec (advance_watermark q floor) m trivial.
Proof.
  unfold advance_watermark. destruct (bucket_number _ _) as [b|]; [|apply spec_fail].
  apply spec_budget_loop. intros n. revert m.
  induction n as [|n IH]; intros m; cbn [advance_loop]; [apply spec_throw|]. spec_tac.
Qed.

(** The store time a head reports of a key of the grammar. *)
Lemma spec_head_time rel m : key_wf rel ->
  spec (do_head (absolute q rel)) m (fun r _ => forall meta, r = Ok meta -> is_u64 (m_store_time_ns meta)).
Proof.
  intros Hk. apply spec_call; [intros; apply kept_pure|]. intros m1 x m2 _ HI [-> [Hx _]].
  split; [reflexivity|]. intros _ meta E. destruct (Hx meta E) as (e & He & ->).
  by destruct (proj1 HI rel e Hk He).
Qed.

Lemma spec_beacon_loop n m : spec (beacon_loop q n) m (fun t _ => is_u64 t).
Proof.
  revert m. induction n as [|n IH]; intros m; cbn [beacon_loop]; [by apply spec_ret; [apply kept_pure|]|].
  eapply spec_bind; [apply spec_token|]. intros nonce m1 _ _ Hn. cbv beta zeta in Hn |- *.
  eapply spec_then; [apply spec_spend|]. intros ? m2 _ _.
  eapply spec_then; [by apply (spec_put_adv (KBeacon nonce))|]. intros r m3 _ _.
  destruct r as [[v|]|[]]; try apply spec_fail; try apply IH.
  eapply spec_then; [apply spec_spend|]. intros ? m4 _ _.
  eapply spec_bind; [by apply (spec_head_time (KBeacon nonce))|]. intros r m5 _ _ Hr.
  eapply spec_bind; [apply spec_store_ok|]. intros meta m6 _ _ ->.
  apply spec_ret; [apply kept_pure|by apply Hr].
Qed.

Lemma effective_floor_u64 raw b w f : is_u64 raw -> effective_floor raw b w = Some f -> is_u64 f.
Proof.
  unfold effective_floor, checked_mul, is_u64. intros Hr. destruct (w =? 0); [done|].
  destruct (Z.leb_spec (b * w) u64_max); [|done]. cbn. intros [= <-]. lia.
Qed.

Lemma spec_establish_floor_time m : spec (establish_floor q) m (fun f _ => is_u64 f).
Proof.
  unfold establish_floor. eapply spec_bind with (Q := fun c _ => forall f, c = Some f -> is_u64 f).
  { unfold cached_floor. eapply spec_bind; [apply spec_get_cached|]. intros st m1 _ _ Hst. cbv zeta.
    destruct (0 <? _); [|by apply spec_ret; [apply kept_pure|]].
    eapply spec_bind; [apply spec_elapsed|]. intros now m2 _ _ _.
    apply spec_ret; [apply kept_pure|]. intros f. destruct (_ <? _); [|done]. by intros [= <-]. }
  intros [f|] m1 _ _ Hc; [by apply spec_ret; [apply kept_pure|apply Hc]|].
  eapply spec_bind; [apply spec_beacon_loop|]. intros raw m2 _ _ Hraw.
  destruct (raw =? 0); [apply spec_fail|].
  eapply spec_then; [apply spec_watermark|]. intros w m3 _ _.
  eapply spec_bind with (Q := fun f _ => is_u64 f).
  { destruct w as [w|]; [|apply spec_ret; [apply kept_pure|exact Hraw]]. cbv zeta.
    destruct (_ <? _); [apply spec_fail|].
    eapply spec_mono; [apply spec_pure, sat_ok_or_fail|]. intros f m4 _ _ E. eapply effective_floor_u64; [exact Hraw|exact E]. }
  intros f m4 _ _ Hf. eapply spec_bind; [apply spec_elapsed|]. intros now m5 _ _ _.
  eapply spec_then; [by apply spec_set_floor|]. intros ? m6 _ _.
  apply spec_ret; [apply kept_pure|exact Hf].
Qed.
Lemma spec_establish_floor m : spec (establish_floor q) m trivial.
Proof. eapply spec_true, spec_establish_floor_time. Qed.
#[local] Hint Resolve spec_establish_floor : spec.

Lemma spec_write_tail_hint s j g k m : spec (write_tail_hint q s j g k) m trivial.
Proof. unfold write_tail_hint. spec_tac. Qed.
Lemma spec_read_tail_hint s j m : spec (read_tail_hint q s j) m trivial.
Proof. unfold read_tail_hint. spec_tac. Qed.
#[local] Hint Resolve spec_write_tail_hint spec_read_tail_hint : spec.
Lemma spec_update_tail_hint s j g m : spec (update_tail_hint q s j g) m trivial.
Proof. unfold update_tail_hint. spec_tac. Qed.
#[local] Hint Resolve spec_update_tail_hint : spec.

Lemma spec_any_present rels m : spec (any_present q rels) m trivial.
Proof. revert m. induction rels as [|rel rels IH]; intros m; cbn [any_present]; spec_tac. Qed.
Lemma spec_write_termidx k s j m : spec (write_termidx q k s j) m trivial.
Proof. unfold write_termidx. spec_tac. Qed.
#[local] Hint Resolve spec_any_present spec_write_termidx : spec.

Lemma spec_is_memoized s j v m : spec (is_memoized_terminal s j v) m trivial.
Proof. unfold is_memoized_terminal. spec_tac. Qed.
Lemma spec_memoize s j v m : spec (memoize_terminal s j v) m trivial.
Proof. unfold memoize_terminal. spec_tac. Qed.

(* ---------------------------------------------------------------- *)
(** ** Custody *)

(** A claim handle that the store backs: its generation's record is this
    handle's, and its payload is the job's. *)
Definition held (cl : Claim) (m : Space) : Prop :=
  is_u16 (cl_shard cl) /\ is_id (cl_job_id cl) /\ 1 <= cl_generation cl <= u32_max /\
  is_u64 (cl_lease_duration_ns cl) /\
  claimed_by root qid m (cl_shard cl) (cl_job_id cl) (cl_generation cl) (fun c =>
    c_worker_token c = cl_worker_token cl /\ c_worker_id c = o_worker_id (q_opts q) /\
    c_attempt c = cl_attempt cl) /\
  holds m (KJob (cl_shard cl) (cl_job_id cl)) (fun _ r => exists j, r = RecJob j /\
    match cl_payload cl with
    | Inline b => sha256 b
    | Detached _ d _ => d
    end = j_payload_digest j).

Lemma kept_held cl : kept (held cl).
Proof. unfold held, claimed_by. kept_tac. Qed.

Lemma as_u32_small z : 0 <= z <= u32_max -> as_u32 z = z.
Proof. intros Hz. unfold as_u32. apply Z.mod_small. lia. Qed.

(** What the invariant says of a held claim. *)
Lemma held_facts cl m : Inv m -> held cl m ->
  is_id (cl_worker_token cl) /\ is_u64 (cl_attempt cl) /\
  exists e c, m !! absolute q (KClaim (cl_shard cl) (cl_job_id cl) (cl_generation cl)) = Some e /\
    decode_key qid (KClaim (cl_shard cl) (cl_job_id cl) (cl_generation cl)) (e_body e) = Ok (RecClaim c) /\
    c_worker_token c = cl_worker_token cl /\ c_worker_id c = o_worker_id (q_opts q) /\
    c_attempt c = cl_attempt cl /\
    claim_ok root qid m (cl_shard cl) (cl_job_id cl) (cl_generation cl) c.
Proof.
  intros HI (Hs & Hj & Hg & Hl & (e & r & He & Hd & c & -> & Ht & Hw & Ha) & _).
  pose proof (decode_record_canonical_aux _ _ _ _ Hd) as (_ & (_ & _ & Hau & _ & Hti & _) & _).
  rewrite Ht in Hti. rewrite Ha in Hau. split; [done|]. split; [done|]. exists e, c.
  destruct (inv_ok m (KClaim (cl_shard cl) (cl_job_id cl) (cl_generation cl)) e HI) as [_ (c' & Hd' & Hok)].
  { split; [done|]. split; [done|]. unfold is_u32. lia. } { exact He. }
  rewrite Hd in Hd'. injection Hd' as <-. split_and!; done.
Qed.

Lemma spec_head_present rel m : authoritative (key_to_string rel) ->
  spec (do_head (absolute q rel)) m (fun r m' => forall meta, r = Ok meta ->
    exists e, m' !! absolute q rel = Some e /\ meta = meta_of e).
Proof. apply spec_head. Qed.

(* ---------------------------------------------------------------- *)
(** ** Renew *)

Definition present (k : Key) (m : Space) : Prop := is_Some (m !! absolute q k).
Lemma kept_key_present k : authoritative (key_to_string k) -> kept (present k).
Proof. apply kept_present. Qed.

(** Someone else moved the job on: a terminal record or the next generation
    is there. *)
Definition superseded (cl : Claim) (m : Space) : Prop :=
  present (KReceipt (cl_shard cl) (cl_job_id cl)) m \/ present (KDead (cl_shard cl) (cl_job_id cl)) m \/
  present (KClaim (cl_shard cl) (cl_job_id cl) (cl_generation cl + 1)) m.
Lemma kept_superseded cl : kept (superseded cl).
Proof.
  intros m m' Hm [H1|[H1|H1]]; [left|right; left|right; right];
    (eapply kept_key_present; [by apply plane_authoritative|exact Hm|exact H1]).
Qed.

Definition renew_post (cl : Claim) (r : RenewOutcome) (m : Space) : Prop :=
  match r with
  | Renewed cl' => held cl' m /\ cl_generation cl' = cl_generation cl + 1 /\
      cl_job_id cl' = cl_job_id cl /\ cl_shard cl' = cl_shard cl /\ cl_attempt cl' = cl_attempt cl
  | LeaseLost => superseded cl m
  end.
Lemma kept_renew cl r : kept (renew_post cl r).
Proof. destruct r; [apply kept_and; [apply kept_held|]; kept_tac|apply kept_superseded]. Qed.

Definition some_present (rels : list Key) (b : bool) (m : Space) : Prop :=
  b = true -> Exists (fun rel => present rel m) rels.
Lemma kept_some_present rels b : Forall (fun rel => authoritative (key_to_string rel)) rels ->
  kept (some_present rels b).
Proof.
  intros Hrels m m' Hm He Hb. specialize (He Hb). rewrite Forall_forall in Hrels.
  apply Exists_exists in He as (rel & Hin & Hrel). apply Exists_exists. exists rel. split; [done|].
  eapply kept_key_present; [by apply Hrels|exact Hm|exact Hrel].
Qed.

Lemma spec_any_present_found rels m : Forall (fun rel => authoritative (key_to_string rel)) rels ->
  spec (any_present q rels) m (some_present rels).
Proof.
  induction rels as [|rel rels IH] in m |- *; intros Hrels; cbn [any_present].
  { apply spec_ret; [by apply kept_some_present|done]. }
  pose proof Hrels as [Hrel Hrest]%Forall_cons.
  eapply spec_then; [apply spec_spend|]. intros _ m1 _ _.
  eapply spec_bind; [by apply spec_head_present|]. intros r m2 _ _ Hr.
  destruct r as [meta|[]]; try apply spec_fail.
  - apply spec_ret; [by apply kept_some_present|]. intros _.
    destruct (Hr meta eq_refl) as (e & He & _). left. by exists e.
  - eapply spec_mono; [by apply IH|]. intros b m3 _ _ Hb Eb. right. by apply Hb.
Qed.

Lemma renewal_ok cl m : Inv m -> held cl m -> cl_generation cl < u32_max ->
  let rel := KClaim (cl_shard cl) (cl_job_id cl) (cl_generation cl + 1) in
  record_wf (renewal_record q cl) /\ record_valid (renewal_record q cl) /\
  ok_at root qid m rel (encode_at q rel (renewal_record q cl)).
Proof.
  intros HI Hh Hlt rel. pose proof (held_facts cl m HI Hh) as (Ht & Hat & e & c & He & Hd & Et & Ew & Ea & Hok).
  destruct Hh as (Hs & Hj & Hg & Hl & _ & _).
  assert (record_wf (renewal_record q cl)) as Hwf.
  { cbn. unfold is_u64 in *. destruct Hq as (_ & Hw & _). split_and!; try done; try lia.
    intros t Et0. injection Et0 as <-. done. }
  assert (record_valid (renewal_record q cl)) as Hv by (cbn; split; [eauto|done]).
  split; [done|]. split; [done|]. eexists. split; [by apply decode_encode_at|].
  destruct Hok as (Ej & Eg & Hg1 & (e2 & r2 & He2 & Hd2 & j & -> & Hmax) & _).
  split_and!; cbn; try done; try lia.
  - exists e2, (RecJob j). split; [done|]. split; [done|]. exists j. split; [done|]. by rewrite <- Ea.
  - intros _. replace (cl_generation cl + 1 - 1) with (cl_generation cl) by lia.
    exists e, (RecClaim c). split; [done|]. split; [done|]. exists c. split; [done|]. split; [|by rewrite Ea].
    unfold admissible. cbn. unfold bytes_eqb. rewrite Ew, Et. rewrite !bool_decide_eq_true_2; done.
Qed.

Lemma spec_renew cl m : held cl m -> spec (renew q cl) m (renew_post cl).
Proof.
  intros Hh. unfold renew. destruct (Z.leb_spec u32_max (cl_generation cl)) as [|Hlt]; [apply spec_fail|].
  pose proof Hh as (Hs & Hj & Hg & Hl & _ & Hpay).
  eapply spec_bind; [apply spec_any_present_found|].
  { repeat constructor; by apply (plane_authoritative (KReceipt _ _)) || by apply (plane_authoritative (KDead _ _)). }
  intros t m1 Hm1 HI1 Ht. destruct t.
  { apply spec_ret; [apply kept_superseded|]. specialize (Ht eq_refl).
    apply Exists_cons in Ht as [Ht|Ht]; [by left|]. right. left. by apply Exists_cons in Ht as [Ht|Ht%Exists_nil]. }
  cbv zeta. rewrite as_u32_small by lia. set (rel := KClaim _ _ _).
  assert (forall m', rely m1 m' -> Inv m' -> held cl m') as Hh'.
  { intros m' Hm' _. eapply kept_held; [|exact Hh]. by etrans. }
  eapply spec_then; [apply spec_spend|]. intros _ m2 Hm2 HI2.
  destruct (renewal_ok cl m2 HI2 (Hh' m2 Hm2 HI2) Hlt) as (Hw & Hv & _).
  eapply spec_bind; [apply spec_put_resolving|].
  { split; [done|]. split; [done|]. unfold is_u32. lia. } { by apply plane_authoritative. }
  { intros m' Hm' HI'. destruct (renewal_ok cl m' HI') as (_ & _ & Hok); [|done..].
    apply Hh'; [by etrans|done]. }
  intros r m3 Hm3 HI3 Hr. destruct r as [| |]; [|apply spec_ret; [apply kept_superseded|by right; right]|done].
  assert (claimed_by root qid m3 (cl_shard cl) (cl_job_id cl) (cl_generation cl + 1) (fun c =>
    c_worker_token c = cl_worker_token cl /\ c_worker_id c = o_worker_id (q_opts q) /\
    c_attempt c = cl_attempt cl)) as Hc.
  { eapply committed_holds; [exact Hw|exact Hv| |exact Hr]. intros e. eexists. split; [reflexivity|done]. }
  eapply spec_then; [apply spec_spend|]. intros _ m4 Hm4 _.
  eapply spec_then; [apply spec_head_any|]. intros h m5 Hm5 _.
  eapply spec_then; [apply (spec_true _ _ _ _ _ (spec_store_ok _ _ _ _))|]. intros meta m6 Hm6 _.
  eapply spec_then; [apply spec_update_tail_hint|]. intros _ m7 Hm7 _.
  apply spec_ret; [apply kept_renew|].
  assert (rely m3 m7) as H37 by (etrans; [exact Hm4|etrans; [exact Hm5|by etrans]]).
  assert (rely m m7) as H07 by (etrans; [exact Hm1|etrans; [exact Hm2|by etrans]]).
  split; [|done]. split_and!; cbn; try done; try lia.
  - by eapply kept_holds; [apply plane_authoritative| |exact Hc].
  - by eapply kept_holds; [apply plane_authoritative| |exact Hpay].
Qed.

(* ---------------------------------------------------------------- *)
(** ** Outputs *)

(** The output object a caller was told of. *)
Definition output_stored (o : CommittedOutput) (m : Space) : Prop :=
  exists e, m !! out_key o = Some e /\ sha256 (e_body e) = out_digest o.

Lemma output_authoritative job_id name : authoritative (¶"outputs/" ++ push_hex job_id ++ [slash] ++ name).
Proof.
  left. change (¶"outputs/" ++ push_hex job_id ++ [slash] ++ name)
    with (¶"outputs" ++ slash :: (push_hex job_id ++ [slash] ++ name)).
  rewrite plane_of_app by (by apply lit_no_slash). apply (bool_decide_eq_true_1 _). by vm_compute.
Qed.

Lemma kept_output o rest :
  out_key o = root ++ rest -> authoritative rest -> kept (output_stored o).
Proof. intros E Ha. unfold output_stored. rewrite E. by apply kept_stored. Qed.

Lemma output_key_not_grammar job_id name k : ¶"outputs/" ++ push_hex job_id ++ [slash] ++ name <> key_to_string k.
Proof.
  intros E. apply (f_equal plane_of) in E. rewrite plane_of_key in E.
  change (¶"outputs/" ++ push_hex job_id ++ [slash] ++ name)
    with (¶"outputs" ++ slash :: (push_hex job_id ++ [slash] ++ name)) in E.
  rewrite plane_of_app in E by (by apply lit_no_slash). by destruct k.
Qed.

Definition commit_post (cl : Claim) (name body : bytes) (r : CommitOutcome) (m : Space) : Prop :=
  let o := match r with OutCommitted o => o | Converged o => o end in
  out_key o = output_key q (cl_job_id cl) name /\ out_digest o = sha256 body /\ output_stored o m.

Lemma spec_commit_output cl name body m :
  spec (commit_output q cl name body) m (commit_post cl name body).
Proof.
  unfold commit_output. destruct (negb (valid_output_name name)); [apply spec_fail|].
  set (rest := ¶"outputs/" ++ push_hex (cl_job_id cl) ++ [slash] ++ name).
  change (output_key q (cl_job_id cl) name) with (root ++ rest).
  assert (authoritative rest) as Ha by apply output_authoritative.
  set (out := {| out_key := root ++ rest; out_digest := sha256 body |}).
  assert (forall r, out = match r with OutCommitted o => o | Converged o => o end ->
            kept (commit_post cl name body r)) as Hk.
  { intros r Er. unfold commit_post. rewrite <- Er.
    apply kept_and; [apply kept_pure|]. apply kept_and; [apply kept_pure|]. by eapply kept_output. }
  assert (forall obj m', read_post q rest obj m' ->
    spec (result_ok (classify_output obj (sha256 body) out)) m' (commit_post cl name body)) as Hclass.
  { intros obj m' (e & He & _ & Hb). unfold classify_output, bytes_eqb. case_bool_decide as Ed; [|apply spec_fail].
    apply spec_ret; [by apply Hk|]. split; [done|]. split; [done|]. exists e. split; [done|]. by rewrite <- Hb. }
  assert (forall r, kept (read_post q rest r)) as Hkr by (intros r; by apply kept_read_post).
  generalize RETRY_TRANSPORT_MAX as n. intros n. revert m.
  induction n as [|n IH]; intros m; cbn [commit_output_loop];
    (eapply spec_then; [apply spec_spend|intros _ m1 _ _]);
    (eapply spec_bind; [apply spec_put_at; [done| |]|intros r m2 _ _ Hr]).
  all: try (intros Ep; unfold rest in Ep; change (¶"outputs/" ++ push_hex (cl_job_id cl) ++ [slash] ++ name)
         with (¶"outputs" ++ slash :: (push_hex (cl_job_id cl) ++ [slash] ++ name)) in Ep;
         rewrite plane_of_app in Ep by (by apply lit_no_slash); done).
  all: try (intros k m' _ _ _ E; by apply output_key_not_grammar in E).
  all: destruct r as [[v|]|[]]; try apply spec_fail; try apply IH.
  all: try (apply spec_ret; [by apply Hk|]; destruct Hr as (e & He & Hb); split; [done|]; split; [done|];
            exists e; split; [done|]; by rewrite Hb).
  all: try (eapply spec_bind; [by apply spec_read_retrying|intros obj m3 _ _ Ho; by apply Hclass]).
  all: (eapply spec_bind; [apply spec_try; [exact Hkr|by apply spec_read_retrying]|intros r m3 _ _ Ho]);
    destruct r as [obj|[[]| | | | | | | | | |]]; try apply spec_fail; try apply IH; by apply Hclass.
Qed.

(* ---------------------------------------------------------------- *)
(** ** Ack *)

Lemma spec_payload cl m : held cl m ->
  spec (payload cl) m (fun b _ => match cl_payload cl with Inline x => b = x | Detached _ d _ => sha256 b = d end).
Proof.
  intros _. unfold payload. destruct (cl_payload cl) as [b|k d l]; [by apply spec_ret; [apply kept_pure|]|].
  eapply spec_then; [apply spec_get_any|]. intros r m1 _ _.
  eapply spec_then; [apply (spec_true _ _ _ _ _ (spec_store_ok _ _ _ _))|]. intros obj m2 _ _.
  destruct (negb (_ =? _)); [apply spec_fail|]. unfold bytes_eqb. case_bool_decide as Ed; cbn [negb]; [|apply spec_fail].
  by apply spec_ret; [apply kept_pure|].
Qed.

Definition prefixed (cl : Claim) (o : CommittedOutput) : Prop :=
  exists name, out_key o = output_key q (cl_job_id cl) name.

Lemma kept_prefixed_output cl o : kept (fun m => prefixed cl o /\ output_stored o m).
Proof.
  intros m m' Hm [[name E] Ho]. split; [by exists name|].
  eapply kept_output; [exact E|apply output_authoritative|exact Hm|exact Ho].
Qed.

Lemma kept_outputs cl outs : kept (fun m => Forall (fun o => prefixed cl o /\ output_stored o m) outs).
Proof. apply kept_Forall. intros o. apply kept_prefixed_output. Qed.

Lemma spec_verify_output cl o m :
  spec (verify_output q cl o) m (fun _ m' => prefixed cl o /\ output_stored o m').
Proof.
  unfold verify_output. destruct (starts_with _ _) eqn:Hp; cbn [negb]; [|apply spec_fail].
  apply starts_with_iff in Hp as [name E]. rewrite <- !app_assoc in E.
  assert (out_key o = root ++ (¶"outputs/" ++ push_hex (cl_job_id cl) ++ [slash] ++ name)) as E'.
  { rewrite E. by rewrite <- ?app_assoc. }
  set (rest := ¶"outputs/" ++ _) in E'. assert (authoritative rest) as Ha by apply output_authoritative.
  rewrite E'. eapply spec_bind; [apply (spec_try _ _ _ _ (read_post q rest))|].
  { intros r. by apply kept_read_post. } { by apply spec_read_retrying. }
  intros r m1 _ _ Hr. destruct r as [obj|[[]| | | | | | | | | |]]; try apply spec_fail.
  unfold bytes_eqb. case_bool_decide as Ed; cbn [negb]; [|apply spec_fail].
  apply spec_ret; [apply kept_prefixed_output|]. split; [by exists name|].
  destruct Hr as (e & He & _ & Hb). exists e. rewrite E', <- Hb. done.
Qed.

Lemma spec_verify_outputs cl outs m :
  spec (for_each outs (verify_output q cl)) m (fun _ m' =>
    Forall (fun o => prefixed cl o /\ output_stored o m') outs).
Proof.
  revert m. induction outs as [|o outs IH]; intros m; cbn [for_each].
  { apply spec_ret; [apply kept_outputs|constructor]. }
  eapply spec_bind; [apply spec_verify_output|]. intros ? m1 _ _ Ho.
  eapply spec_mono; [apply IH|]. intros ? m2 Hm2 _ HF. constructor; [by eapply kept_prefixed_output|done].
Qed.

(** A receipt for this claim, these outputs and the job's own payload. *)
Definition receipted (cl : Claim) (outs : list CommittedOutput) (P : ReceiptRecord -> Prop) (m : Space) : Prop :=
  holds m (KReceipt (cl_shard cl) (cl_job_id cl)) (fun _ r => exists x, r = RecReceipt x /\
    r_generation x = cl_generation cl /\ r_attempt x = cl_attempt cl /\
    r_output_digests x = map out_digest outs /\ P x) /\
  Forall (fun o => prefixed cl o /\ output_stored o m) outs.

Lemma kept_receipted cl outs P : kept (receipted cl outs P).
Proof. apply kept_and; [kept_tac|apply kept_outputs]. Qed.

Definition ack_post (cl : Claim) (outs : list CommittedOutput) (r : AckOutcome) (m : Space) : Prop :=
  match r with
  | Acked => receipted cl outs (fun x => r_worker_token x = cl_worker_token cl) m
  | AlreadyAcked => receipted cl outs (fun _ => True) m
  | SupersededByDead => is_Some (m !! absolute q (KDead (cl_shard cl) (cl_job_id cl)))
  end.
Lemma kept_ack cl outs r : kept (ack_post cl outs r).
Proof. destruct r; [apply kept_receipted..|kept_tac]. Qed.

Definition outputs_ok (outs : list CommittedOutput) : Prop :=
  Forall (fun o => is_digest (out_digest o)) outs /\ is_u64 (Cbor.len64 outs).

Lemma receipt_ok cl outs digest m :
  Inv m -> held cl m -> outputs_ok outs ->
  match cl_payload cl with Inline b => sha256 b | Detached _ d _ => d end = digest ->
  let rel := KReceipt (cl_shard cl) (cl_job_id cl) in
  let rec := RecReceipt (receipt_of q cl digest outs) in
  record_wf rec /\ record_valid rec /\ ok_at root qid m rel (encode_at q rel rec).
Proof.
  intros HI Hh [Hd Hlen] <- rel rec.
  pose proof (held_facts cl m HI Hh) as (Ht & Hat & e & c & He & Hdc & Et & Ew & Ea & Hok).
  destruct Hh as (Hs & Hj & Hg & Hl & _ & (e2 & r2 & He2 & Hd2 & j & -> & Ej)).
  assert (length (j_payload_digest j) = 32%nat) as Hdig.
  { apply decode_record_canonical_aux in Hd2 as (_ & Hw2 & _). apply Hw2. }
  assert (record_wf rec) as Hwf.
  { cbn. unfold is_digest, is_u64 in *. rewrite Ej. destruct Hq as (_ & Hw & _).
    split_and!; try done; try lia.
    - rewrite Forall_map. done.
    - unfold Cbor.len64 in *. rewrite length_map. lia.
    - unfold Cbor.len64 in *. rewrite length_map. lia. }
  split; [done|]. split; [done|]. eexists. split; [by apply decode_encode_at|]. split_and!.
  - done.
  - exists e, (RecClaim c). split; [done|]. split; [done|]. exists c. split; [done|]. cbn.
    by rewrite Et, Ew, Ea.
  - exists e2, (RecJob j). split; [done|]. split; [done|]. exists j. split; [done|]. cbn. exact Ej.
Qed.

Lemma spec_ack cl outs m : held cl m -> outputs_ok outs -> spec (ack_inner q cl outs) m (ack_post cl outs).
Proof.
  intros Hh Ho. unfold ack_inner.
  pose proof Hh as (Hs & Hj & Hg & _).
  assert (forall m', rely m m' -> held cl m') as Hh' by (intros m' Hm'; by eapply kept_held).
  set (rel := KReceipt (cl_shard cl) (cl_job_id cl)).
  eapply spec_then; [apply spec_spend|]. intros _ m1 Hm1 _.
  eapply spec_then; [apply spec_spend|]. intros _ m2 Hm2 _.
  eapply spec_bind; [apply spec_head_present; by apply plane_authoritative|]. intros dead m3 Hm3 HI3 Hdead.
  eapply spec_bind; [apply spec_try; [|apply spec_payload, Hh'; etrans; [exact Hm1|by etrans]]|].
  { intros b. destruct (cl_payload cl); apply kept_pure. }
  intros pl m4 Hm4 HI4 Hpl. destruct dead as [meta|[]]; try apply spec_fail.
  { apply spec_ret; [apply kept_ack|]. destruct (Hdead meta eq_refl) as (e & He & _).
    eapply (kept_present root qid _ (plane_authoritative (KDead _ _) I)); [exact Hm4|by exists e]. }
  eapply spec_bind; [apply spec_result_ok|]. intros body m5 Hm5 _ ->. cbv zeta.
  assert (match cl_payload cl with Inline b => sha256 b | Detached _ d _ => d end = sha256 body) as Hdig
    by (destruct (cl_payload cl); congruence).
  eapply spec_bind; [apply spec_verify_outputs|]. intros ? m6 Hm6 HI6 Hout.
  eapply spec_then; [apply spec_spend|]. intros _ m7 Hm7 HI7.
  assert (rely m m7) as H07.
  { etrans; [exact Hm1|]. etrans; [exact Hm2|]. etrans; [exact Hm3|]. etrans; [exact Hm4|].
    etrans; [exact Hm5|]. by etrans. }
  destruct (receipt_ok cl outs (sha256 body) m7 HI7 (Hh' m7 H07) Ho Hdig) as (Hw & Hv & _).
  eapply spec_bind; [apply spec_put_resolving|].
  { done. } { by apply plane_authoritative. }
  { intros m' Hm' HI'. apply (receipt_ok cl outs (sha256 body) m' HI'); [|done..]. apply Hh'. by etrans. }
  intros r m8 Hm8 HI8 Hr.
  assert (forall m', rely m7 m' -> Forall (fun o => prefixed cl o /\ output_stored o m') outs) as Hout'.
  { intros m' Hm'. eapply (kept_outputs cl outs m6 m'); [by etrans|exact Hout]. }
  destruct r; [|eapply spec_bind; [apply spec_read_retrying; by apply plane_authoritative|]|done].
  - assert (receipted cl outs (fun x => r_worker_token x = cl_worker_token cl) m8) as Hrec.
    { split; [|by apply Hout']. eapply committed_holds; [exact Hw|exact Hv| |exact Hr].
      intros e. eexists. split; [reflexivity|]. done. }
    eapply spec_then; [apply spec_write_termidx|]. intros _ m9 Hm9 _.
    apply spec_ret; [apply kept_ack|]. by eapply kept_receipted.
  - intros obj m9 Hm9 HI9 Hobj.
    eapply spec_bind; [apply spec_record_ok|]. intros r m10 Hm10 HI10 Hd. cbv beta in Hd.
    destruct r as [| | | |r| | |]; try apply spec_fail.
    destruct (same_ack cl (sha256 body) outs r) eqn:Hsame; [|apply spec_fail].
    apply spec_ret; [apply kept_ack|]. cbn [ack_post].
    split; [|apply Hout'; etrans; [exact Hm8|by etrans]].
    eapply kept_holds; [by apply plane_authoritative|exact Hm10|].
    eapply holds_mono; [|by apply read_holds]. intros e x [-> _]. exists r. split; [done|].
    unfold same_ack in Hsame. rewrite !andb_true_iff in Hsame.
    destruct Hsame as ((((_ & Hgen) & Hatt) & _) & Hodig). apply bool_decide_eq_true in Hodig.
    split_and!; [lia|lia|done|done].
Qed.

(* ---------------------------------------------------------------- *)
(** ** Nack and bury *)

Definition nack_post (cl : Claim) (m : Space) : Prop :=
  is_Some (m !! absolute q (KFail (cl_shard cl) (cl_job_id cl) (cl_generation cl))).
Lemma kept_nack cl : kept (nack_post cl).
Proof. unfold nack_post. kept_tac. Qed.

Lemma fail_ok cl reason nb m :
  Inv m -> held cl m -> is_u64 reason -> is_u64 nb ->
  let rel := KFail (cl_shard cl) (cl_job_id cl) (cl_generation cl) in
  let rec := RecFail {| f_job_id := cl_job_id cl; f_generation := cl_generation cl; f_reason := reason;
                        f_attempt := cl_attempt cl; f_retry_not_before_ns := nb |} in
  ok_at root qid m rel (encode_at q rel rec).
Proof.
  intros HI Hh Hr Hn rel rec.
  pose proof (held_facts cl m HI Hh) as (Ht & Hat & e & c & He & Hd & _ & _ & Ea & _).
  destruct Hh as (Hs & Hj & Hg & _). eexists. split; [apply decode_encode_at; [|done]|].
  - cbn. unfold is_u64 in *. split_and!; done || lia.
  - split_and!; [done|done|]. exists e, (RecClaim c). split; [done|]. split; [done|]. by exists c.
Qed.

Lemma spec_nack cl reason floor m :
  held cl m -> is_u64 reason -> is_u64 floor -> spec (nack q cl reason floor) m (fun _ => nack_post cl).
Proof.
  intros Hh Hr Hf. unfold nack. pose proof Hh as (Hs & Hj & Hg & _).
  eapply (spec_bind _ _ _ _ _ trivial); [destruct (retry_delay_ms _ _ _ _); spec_tac|]. intros delay m1 Hm1 _ _.
  eapply spec_bind; [apply spec_ok_or_fail|]. intros nb m2 Hm2 HI2 Hnb. cbv beta in Hnb. cbv zeta.
  assert (is_u64 nb) as Hn.
  { unfold retry_not_before in Hnb. destruct (checked_add floor _) as [d|] eqn:Hd; [|done].
    apply checked_add_some in Hd as [-> Hd]. cbn in Hnb. destruct (_ <? _); [done|]. injection Hnb as <-.
    unfold is_u64, wrapping_mul in *. pose proof (Z.mod_pos_bound (delay * 1000000) (2 ^ 64) ltac:(lia)). lia. }
  rewrite as_u32_small by lia. eapply spec_then; [apply spec_spend|]. intros _ m3 Hm3 _.
  eapply spec_bind; [apply spec_put_resolving|].
  { split; [done|]. split; [done|]. unfold is_u32. lia. } { by apply plane_authoritative. }
  { intros m' Hm' HI'. apply fail_ok; [done| |done..]. eapply kept_held; [|exact Hh].
    etrans; [exact Hm1|]. etrans; [exact Hm2|]. by etrans. }
  intros r m4 Hm4 HI4 Hres.
  assert (nack_post cl m4 \/ r = RNotCommitted) as [Hp| ->]; [|destruct r; try apply spec_fail|apply spec_fail].
  { destruct r; [left; destruct Hres as (e & He & _); by exists e|by left|by right]. }
  all: destruct (bucket_number _ _) as [b|]; [|by apply spec_ret; [apply kept_nack|]].
  all: eapply spec_then; [apply spec_spend|]; intros _ m5 Hm5 _.
  all: eapply spec_mono; [by apply spec_put_index|]; intros _ m6 Hm6 _ _; eapply kept_nack; [|exact Hp].
  all: by etrans.
Qed.

Definition bury_post (cl : Claim) (r : BuryOutcome) (m : Space) : Prop :=
  match r with
  | Buried => holds m (KDead (cl_shard cl) (cl_job_id cl)) (fun _ r => exists d, r = RecDead d /\
      d_generation d = cl_generation cl /\ d_attempt d = cl_attempt cl)
  | SupersededByReceipt => is_Some (m !! absolute q (KReceipt (cl_shard cl) (cl_job_id cl)))
  end.
Lemma kept_bury cl r : kept (bury_post cl r).
Proof. destruct r; kept_tac. Qed.

Lemma dead_ok cl reason m :
  Inv m -> held cl m -> is_u64 reason ->
  let rel := KDead (cl_shard cl) (cl_job_id cl) in
  let rec := RecDead {| d_job_id := cl_job_id cl; d_generation := cl_generation cl;
                        d_attempt := cl_attempt cl; d_reason := reason |} in
  record_wf rec /\ ok_at root qid m rel (encode_at q rel rec).
Proof.
  intros HI Hh Hr rel rec.
  pose proof (held_facts cl m HI Hh) as (Ht & Hat & e & c & He & Hd & _ & _ & Ea & _).
  destruct Hh as (Hs & Hj & Hg & _).
  assert (record_wf rec) as Hw by (cbn; unfold is_u64 in *; split_and!; done || lia).
  split; [done|]. eexists. split; [by apply decode_encode_at|]. split; [done|].
  exists e, (RecClaim c). split; [done|]. split; [done|]. by exists c.
Qed.

Lemma spec_bury cl reason m : held cl m -> is_u64 reason -> spec (bury q cl reason) m (bury_post cl).
Proof.
  intros Hh Hr. unfold bury. pose proof Hh as (Hs & Hj & Hg & _).
  eapply spec_then; [apply spec_spend|]. intros _ m1 Hm1 _.
  eapply spec_bind; [apply spec_head_present; by apply plane_authoritative|]. intros rc m2 Hm2 _ Hrc.
  destruct rc as [meta|[]]; try apply spec_fail.
  { apply spec_ret; [apply kept_bury|]. destruct (Hrc meta eq_refl) as (e & He & _). by exists e. }
  cbv zeta. eapply spec_then; [apply spec_spend|]. intros _ m3 Hm3 HI3.
  assert (forall m', rely m3 m' -> held cl m') as Hh'.
  { intros m' Hm'. eapply kept_held; [|exact Hh]. etrans; [exact Hm1|]. etrans; [exact Hm2|]. by etrans. }
  destruct (dead_ok cl reason m3 HI3 (Hh' m3 (reflexivity _)) Hr) as [Hw _].
  eapply spec_bind; [apply spec_put_resolving|].
  { done. } { by apply plane_authoritative. }
  { intros m' Hm' HI'. apply dead_ok; [done|by apply Hh'|done]. }
  intros r m4 Hm4 HI4 Hres. destruct r; [| |apply spec_fail].
  - eapply spec_then; [apply spec_write_termidx|]. intros _ m5 Hm5 _.
    apply spec_ret; [apply kept_bury|]. eapply (kept_bury cl Buried); [exact Hm5|].
    eapply committed_holds; [exact Hw|done| |exact Hres]. intros e. eexists. split; [reflexivity|done].
  - eapply spec_bind; [apply spec_read_retrying; by apply plane_authoritative|]. intros obj m5 Hm5 _ Hobj.
    eapply spec_bind; [apply spec_record_ok|]. intros x m6 Hm6 _ Hd. cbv beta in Hd.
    destruct x as [| | | | |d| |]; try apply spec_fail.
    destruct (_ && _) eqn:Hsame; [|apply spec_fail]. apply andb_true_iff in Hsame as [Hgen Hatt].
    apply spec_ret; [apply kept_bury|]. eapply (kept_bury cl Buried); [exact Hm6|].
    eapply holds_mono; [|by apply read_holds]. intros e x [-> _]. exists d. split; [done|]. lia.
Qed.
End Ops.
