(* ===== verification/Custody.v ===== *)
(** Claiming under the protocol: the chain tail a claimer discovers is a
    stored generation, the record it writes is admissible on that tail, and
    every claim handed out is backed by the store. *)

From S2P Require Import Prelude Sha256 StowqMath Keys Cbor Records Direct Store Effects Rely Queue Claims Sweeps Repair Protocol Lifecycle.

Lemma Forall_zip_fst {A B} (P : A -> Prop) (l : list A) (k : list B) :
  Forall P l -> Forall (fun x => P x.1) (zip l k).
Proof.
  intros HF. revert k. induction HF as [|x l Hx _ IH]; intros [|y k]; cbn; constructor; auto.
Qed.

(* ------------------------------------------------------------------ *)
(** * Listed generations *)

Lemma hexdigit_pair acc b s : radix16 acc (push_hex (b :: s)) = radix16 (acc * 256 + byte_val b) (push_hex s).
Proof.
  cbn [push_hex radix16].
  assert (exists h l, hexdigit_value (hex_digit (Z.shiftr (byte_val b) 4)) = Some h /\
    hexdigit_value (hex_digit (Z.land (byte_val b) 15)) = Some l /\ byte_val b = h * 16 + l) as (h & l & -> & -> & E)
    by (destruct b; vm_compute; eauto).
  cbn [mbind option_bind]. rewrite E. f_equal. lia.
Qed.

Lemma radix16_push_hex s acc : radix16 acc (push_hex s) = Some (be_val_acc acc s).
Proof.
  revert acc. induction s as [|b s IH]; intros acc; [done|]. by rewrite hexdigit_pair, IH.
Qed.

Lemma last_segment_app a b : slash ∉ b -> last_segment (a ++ slash :: b) = b.
Proof.
  intros Hb. unfold last_segment. replace (last (split_on slash (a ++ slash :: b))) with (Some b); [done|].
  symmetry. induction a as [|c a IH]; cbn [app split_on].
  - rewrite decide_True by done. rewrite split_on_no by done. done.
  - destruct (decide (c = slash)).
    + rewrite last_cons, IH. done.
    + pose proof (split_on_nonempty slash (a ++ slash :: b)) as Hn.
      destruct (split_on slash (a ++ slash :: b)) as [|p ps] eqn:Es; [done|].
      destruct ps as [|p' ps]; [|rewrite last_cons in IH |- *; destruct (last (p' :: ps)) eqn:El; [done|];
        by apply last_None in El].
      exfalso. apply (f_equal length) in Es. clear -Es. revert Es.
      assert (2 <= length (split_on slash (a ++ slash :: b)))%nat as Hl; [|cbn; lia].
      induction a as [|c a IH]; cbn [app split_on].
      * rewrite decide_True by done. pose proof (split_on_nonempty slash b). destruct (split_on slash b); [done|cbn; lia].
      * destruct (decide (c = slash)); [cbn; lia|]. destruct (split_on slash (a ++ slash :: b)); cbn in *; lia.
Qed.

Lemma parse_generation_claim root s j g :
  is_u32 g -> parse_generation (root ++ key_to_string (KClaim s j g)) = Some g.
Proof.
  intros Hg. unfold parse_generation.
  replace (root ++ key_to_string (KClaim s j g))
    with ((root ++ ¶"claims/" ++ hex16 s ++ [slash] ++ push_hex j) ++ slash :: hex32 g)
    by (rewrite key_to_string_segments; cbn [segments join_with]; by rewrite <- ?app_assoc).
  rewrite last_segment_app by apply push_hex_no_slash.
  unfold hex32. rewrite push_hex_length, be_bytes_length. cbn [Nat.mul Nat.add Nat.eqb].
  rewrite radix16_push_hex. f_equal. change (be_val_acc 0 (be_bytes 4 g)) with (be_val (be_bytes 4 g)).
  apply be_val_bytes_small. unfold is_u32 in Hg. cbn. lia.
Qed.

Lemma hex16_inj a b : is_u16 a -> is_u16 b -> hex16 a = hex16 b -> a = b.
Proof. intros Ha Hb E. apply hex_decode_u16_hex16 in Ha, Hb. rewrite E in Ha. congruence. Qed.
(** A key of the grammar under a job's claims prefix is one of its claims. *)
Lemma claims_prefix_key root s j k :
  is_u16 s -> key_wf k ->
  starts_with (root ++ ¶"claims/" ++ hex16 s ++ [slash] ++ push_hex j ++ [slash]) (root ++ key_to_string k) = true ->
  exists g, k = KClaim s j g /\ is_u32 g.
Proof.
  intros Hs Hk [x E]%starts_with_iff. rewrite <- !app_assoc in E. apply (inj (app root)) in E.
  apply (f_equal (split_on slash)) in E. rewrite split_key_to_string in E.
  change (¶"claims/" ++ hex16 s ++ [slash] ++ push_hex j ++ [slash] ++ x)
    with (¶"claims" ++ slash :: (hex16 s ++ slash :: (push_hex j ++ slash :: x))) in E.
  rewrite !split_on_app in E by (apply push_hex_no_slash || by apply lit_no_slash).
  assert (forall n, nth n (segments k) [] = nth n (¶"claims" :: hex16 s :: push_hex j :: split_on slash x) []) as En
    by (intros n; by rewrite E).
  pose proof (En 0%nat) as E0. pose proof (En 1%nat) as E1. pose proof (En 2%nat) as E2. clear E En.
  destruct k; try discriminate E0. cbn [segments nth] in E1, E2.
  destruct Hk as (Hs' & Hj & Hg). apply hex16_inj in E1; [|done..]. apply push_hex_inj in E2. subst. by exists generation.
Qed.

Section Scan.
Context `{Sha256} (q : Queue) (Hq : handle_ok q).
#[local] Abbreviation root := (q_root q).
#[local] Abbreviation qid := (o_queue_id (q_opts q)).
#[local] Abbreviation rely := (rely root qid).
#[local] Abbreviation Inv := (Inv root qid).
#[local] Abbreviation spec := (spec root qid).
#[local] Abbreviation holds := (holds_at root qid).
#[local] Abbreviation kept := (Rely.kept rely).
#[local] Hint Resolve spec_read_retrying_any spec_read_tail_hint spec_write_tail_hint spec_write_termidx
  spec_put_index spec_is_memoized spec_memoize : spec.

(** A generation found in the store. *)
Definition generation_at (s : Z) (j : bytes) (g : Z) (meta : Meta) (m : Space) : Prop :=
  is_u32 g /\ exists e, m !! absolute q (KClaim s j g) = Some e /\ meta = meta_of e.
Definition tail_found (s : Z) (j : bytes) (t : option (Z * Meta)) (m : Space) : Prop :=
  match t with Some (g, meta) => generation_at s j g meta m | None => True end.

Lemma kept_generation s j g meta : kept (generation_at s j g meta).
Proof. apply kept_and; [apply kept_pure|]. apply kept_stored. by apply plane_authoritative. Qed.
Lemma kept_tail_found s j t : kept (tail_found s j t).
Proof. destruct t as [[g meta]|]; [apply kept_generation|apply kept_pure]. Qed.

Lemma listed_generation s j l m :
  is_u16 s -> Inv m -> listed root (claims_prefix q s j) l m -> tail_found s j (Some (default 0 (parse_generation (l_key l)), l_meta l)) m.
Proof.
  intros Hs HI [Hp Hl]. unfold claims_prefix in Hp. pose proof Hp as [x Ex]%starts_with_iff.
  set (rest := (¶"claims/" ++ hex16 s ++ [slash] ++ push_hex j ++ [slash]) ++ x).
  assert (l_key l = root ++ rest) as El by (rewrite Ex; unfold rest; by rewrite <- !app_assoc).
  assert (plane_of rest = ¶"claims") as Hplane.
  { unfold rest. rewrite <- !app_assoc.
    change (¶"claims/" ++ ?r) with (¶"claims" ++ slash :: r). apply plane_of_app. by apply lit_no_slash. }
  destruct (Hl rest El) as (e & He & Hm).
  { left. rewrite Hplane. apply (bool_decide_eq_true_1 _). by vm_compute. }
  destruct (proj2 HI rest e He Hplane) as (k & Hk & Ek). rewrite El, Ek in Hp |- *. rewrite Ek in He.
  destruct (claims_prefix_key root s j k Hs Hk Hp) as (g & -> & Hg).
  rewrite parse_generation_claim by done. split; [done|]. by exists e.
Qed.

Lemma page_tail_found s j tail items m :
  is_u16 s -> Inv m -> tail_found s j tail m -> Forall (fun l => listed root (claims_prefix q s j) l m) items ->
  tail_found s j (page_tail tail items) m.
Proof.
  intros Hs HI Ht HF. unfold page_tail. revert tail Ht.
  induction HF as [|l items Hl _ IH]; intros tail Ht; [done|]. cbn [fold_left]. apply IH.
  destruct (parse_generation (l_key l)) as [g|] eqn:Eg; [|done].
  pose proof (listed_generation s j l m Hs HI Hl) as Hg. by rewrite Eg in Hg.
Qed.

Lemma spec_list_tail s j m : is_u16 s -> spec (list_tail (claims_prefix q s j)) m (tail_found s j).
Proof.
  intros Hs. apply spec_budget_loop. intros n.
  assert (forall m after tail, tail_found s j tail m ->
    spec (list_tail_loop n (claims_prefix q s j) after tail) m (tail_found s j)) as Hloop.
  { clear m. induction n as [|n IH]; intros m after tail Ht; cbn [list_tail_loop]; [apply spec_throw|].
    eapply spec_then; [apply spec_spend|]. intros _ m1 Hm1 _.
    eapply spec_bind; [apply spec_list|]. intros r m2 Hm2 _ Hr.
    eapply spec_bind; [apply spec_store_ok|]. intros page m3 Hm3 HI3 ->. cbv zeta.
    assert (tail_found s j (page_tail tail (p_items page)) m3) as Ht3.
    { apply page_tail_found; [done|done| |].
      - eapply kept_tail_found; [|exact Ht]. etrans; [exact Hm1|]. by etrans.
      - eapply (kept_Forall root qid (p_items page) _ (fun l => kept_listed root qid _ l)); [exact Hm3|by apply Hr]. }
    destruct (p_next_after page); [by apply IH|]. apply spec_ret; [apply kept_tail_found|done]. }
  by apply Hloop.
Qed.

(** A generation with its decoded record. *)
Definition claim_at (s : Z) (j : bytes) (g : Z) (meta : Meta) (c : ClaimRecord) (m : Space) : Prop :=
  is_u32 g /\ holds m (KClaim s j g) (fun e r => r = RecClaim c /\ meta = meta_of e).
Lemma kept_claim_at s j g meta c : kept (claim_at s j g meta c).
Proof. unfold claim_at. kept_tac. Qed.

(** The tail a claimer builds on: nothing, or a stored generation. *)
Definition tail_ok (s : Z) (j : bytes) (t : Tail) (m : Space) : Prop :=
  (t_gen t = 0 /\ t_attempt t = 0 /\ t_duration t = 0 /\ m_store_time_ns (t_meta t) = 0) \/
  (1 <= t_gen t <= u32_max /\ exists c, claim_at s j (t_gen t) (t_meta t) c m /\
     t_attempt t = c_attempt c /\ t_duration t = c_lease_duration_ns c).
Lemma kept_tail_ok s j t : kept (tail_ok s j t).
Proof.
  intros m m' Hm [?|(Hg & c & Hc & ?)]; [by left|right]. split; [done|]. exists c. split; [|done].
  by eapply kept_claim_at.
Qed.

Lemma claim_key_wf s j g : is_u16 s -> is_id j -> is_u32 g -> key_wf (KClaim s j g).
Proof. by intros. Qed.

Lemma spec_tail_record s j g meta m :
  generation_at s j g meta m ->
  spec (tail_record q s j g) m (fun p m' => exists c, claim_at s j g meta c m' /\ p = (c_attempt c, c_lease_duration_ns c)).
Proof.
  intros Hgen. pose proof Hgen as [Hg _]. unfold tail_record. rewrite as_u32_small by (unfold is_u32 in Hg; lia).
  eapply spec_then; [apply spec_spend|]. intros _ m1 Hm1 _. cbv zeta.
  eapply spec_bind; [apply spec_get; by apply (plane_authoritative (KClaim s j g))|]. intros r m2 Hm2 _ Hr.
  eapply spec_bind; [apply spec_store_ok|]. intros obj m3 Hm3 _ ->.
  eapply spec_bind; [apply spec_record_ok|]. intros rec m4 Hm4 HI4 Hd. cbv beta in Hd.
  destruct rec as [| |c| | | | |]; try apply spec_fail.
  apply spec_ret; [apply kept_exists; intros c'; apply kept_and; [apply kept_claim_at|apply kept_pure]|].
  exists c. split; [|done]. destruct (Hr obj eq_refl) as (e & He & _ & Hb). split; [done|].
  assert (rely m m4) as H04 by (etrans; [exact Hm1|]; etrans; [exact Hm2|]; by etrans).
  destruct (kept_generation s j g meta m m4 H04 Hgen) as (_ & e' & He' & ->).
  assert (m4 !! absolute q (KClaim s j g) = Some e) as He4.
  { assert (rely m2 m4) as [Hf _] by (etrans; [exact Hm3|exact Hm4]). apply Hf; [|exact He].
    by apply plane_authoritative. }
  rewrite He4 in He'. injection He' as <-. exists e, (RecClaim c). split; [done|]. split; [|done].
  by rewrite <- Hb.
Qed.

Lemma generation_positive s j g meta m :
  Inv m -> is_u16 s -> is_id j -> generation_at s j g meta m -> 1 <= g.
Proof.
  intros HI Hs Hj (Hg & e & He & _). destruct (inv_ok q m (KClaim s j g) e HI) as [_ (c & _ & Hc)]; [done|done|].
  apply Hc.
Qed.

Lemma spec_tail_of s j tail hinted m :
  is_u16 s -> is_id j -> tail_found s j tail m ->
  (forall c, hinted = Some c -> exists g meta, tail = Some (g, meta) /\ claim_at s j g meta c m) ->
  spec (tail_of q s j tail hinted) m (tail_ok s j).
Proof.
  intros Hs Hj Ht Hh. apply spec_inv. intros HI. unfold tail_of. destruct tail as [[g meta]|]; cbn [default from_option id].
  2:{ change (0 =? 0) with true. cbv iota. eapply spec_bind; [by apply (spec_ret _ _ _ _ (fun p _ => p = (0, 0))); [apply kept_pure|]|].
      intros p m1 _ _ ->. apply spec_ret; [apply kept_tail_ok|]. by left. }
  pose proof (generation_positive s j g meta m HI Hs Hj Ht) as Hg1. pose proof Ht as [Hg _].
  rewrite (proj2 (Z.eqb_neq g 0)) by lia.
  eapply spec_bind with (Q := fun p m' => exists c, claim_at s j g meta c m' /\ p = (c_attempt c, c_lease_duration_ns c)).
  { destruct hinted as [c|]; [|exact (spec_tail_record s j g meta m Ht)].
    destruct (Hh c eq_refl) as (g' & meta' & [= <- <-] & Hc).
    apply spec_ret; [|by exists c].
    apply kept_exists; intros c'; apply kept_and; [apply kept_claim_at|apply kept_pure]. }
  intros p m1 Hm1 HI1 (c & Hc & ->). apply spec_ret; [apply kept_tail_ok|]. right. unfold is_u32 in Hg.
  split; [cbn; lia|]. by exists c.
Qed.

Lemma spec_rediscover s j m : is_u16 s -> is_id j -> spec (rediscover q s j) m (tail_ok s j).
Proof.
  intros Hs Hj. unfold rediscover. eapply spec_bind; [by apply spec_list_tail|].
  intros t m1 _ _ Ht. by apply spec_tail_of.
Qed.

Definition gathered_ok (s : Z) (j : bytes) (x : option (Z * Meta) * option (Version * Z) * option ClaimRecord)
    (m : Space) : Prop :=
  tail_found s j x.1.1 m /\
  (forall c, x.2 = Some c -> exists g meta, x.1.1 = Some (g, meta) /\ claim_at s j g meta c m).
Lemma kept_gathered s j x : kept (gathered_ok s j x).
Proof.
  apply kept_and; [apply kept_tail_found|]. apply kept_forall; intros c. apply kept_impl.
  do 2 (apply kept_exists; intros ?). apply kept_and; [apply kept_pure|apply kept_claim_at].
Qed.

Lemma spec_gather_tail s j m : is_u16 s -> spec (gather_tail q s j) m (gathered_ok s j).
Proof.
  intros Hs. unfold gather_tail. cbv zeta.
  assert (forall hint m, spec (t ← list_tail (claims_prefix q s j); mret (t, hint, None)) m (gathered_ok s j)) as Hlisted.
  { intros hint m0. eapply spec_bind; [by apply spec_list_tail|]. intros t m1 _ _ Ht.
    apply spec_ret; [apply kept_gathered|]. by split. }
  destruct (negb (hints_enabled q)); [apply Hlisted|].
  eapply spec_then; [apply spec_read_tail_hint|]. intros hint m1 _ _.
  destruct hint as [[v g]|]; [|apply Hlisted]. destruct (_ && _) eqn:Eg; [|apply Hlisted].
  apply andb_true_iff in Eg as [Eg1 Eg2]. rewrite as_u32_small by lia.
  eapply spec_then; [apply spec_spend|]. intros _ m2 _ _.
  eapply spec_bind; [apply spec_get; by apply (plane_authoritative (KClaim s j g))|]. intros r m3 _ HI3 Hr.
  destruct r as [obj|[]]; try apply spec_fail; try apply Hlisted.
  destruct (decode_at q (KClaim s j g) (o_body obj)) as [[| |c| | | | |]|] eqn:Hd; try apply Hlisted.
  apply spec_ret; [apply kept_gathered|]. destruct (Hr obj eq_refl) as (e & He & Hm & Hb).
  assert (is_u32 g) as Hg by (unfold is_u32; lia). split; cbn.
  - split; [done|]. by exists e.
  - intros c' [= <-]. exists g, (o_meta obj). split; [done|]. split; [done|].
    exists e, (RecClaim c). split; [done|]. rewrite <- Hb. done.
Qed.

(* ---------------------------------------------------------------- *)
(** ** One candidate *)

Definition options_ok (o : ClaimOptions) : Prop := is_u64 (co_lease_duration_ns o) /\ is_u64 (co_floor_ns o).

Definition job_at (s : Z) (j : bytes) (job : JobRecord) (m : Space) : Prop :=
  holds m (KJob s j) (fun _ r => r = RecJob job).
Lemma kept_job_at s j job : kept (job_at s j job).
Proof. unfold job_at. kept_tac. Qed.

Lemma spec_read_job s j m :
  spec (read_job q s j) m (fun o m' => forall job, o = Some job -> job_at s j job m').
Proof.
  unfold read_job. eapply spec_then; [apply spec_spend|]. intros _ m1 _ _. cbv zeta.
  eapply spec_bind; [apply spec_get; by apply (plane_authoritative (KJob s j))|]. intros r m2 _ _ Hr.
  assert (forall o, kept (fun m' => forall job, o = Some job -> job_at s j job m')) as Hk.
  { intros o. apply kept_forall; intros job. apply kept_impl, kept_job_at. }
  destruct r as [obj|[]]; try apply spec_fail; try (by apply spec_ret; [apply Hk|]).
  eapply spec_bind; [apply spec_record_ok|]. intros rec m3 Hm3 _ Hd. cbv beta in Hd.
  destruct rec as [|job| | | | | |]; try apply spec_fail. apply spec_ret; [apply Hk|].
  intros job' [= <-]. eapply kept_job_at; [exact Hm3|]. destruct (Hr obj eq_refl) as (e & He & _ & Hb).
  exists e, (RecJob job). split; [done|]. by rewrite <- Hb.
Qed.

Lemma job_at_ok s j job m : Inv m -> is_u16 s -> is_id j -> job_at s j job m -> job_ok root m j job.
Proof.
  intros HI Hs Hj (e & r & He & Hd & ->).
  destruct (inv_ok q m (KJob s j) e HI) as [_ (job' & Hd' & Hok)]; [done|done|].
  rewrite Hd in Hd'. by injection Hd' as <-.
Qed.

Lemma spec_backoff_gate s j o t m : spec (backoff_gate q s j o t) m trivial.
Proof. unfold backoff_gate. spec_tac. Qed.

(** The tail's attempt is a stored claim's, or zero. *)
Lemma tail_facts s j t m : Inv m -> is_u16 s -> is_id j -> tail_ok s j t m ->
  is_u64 (t_attempt t) /\ is_u64 (t_duration t) /\ is_u64 (m_store_time_ns (t_meta t)).
Proof.
  intros HI Hs Hj [(_ & -> & -> & ->)|(_ & c & (Hg & e & r & He & Hd & -> & ->) & -> & ->)].
  - unfold is_u64. lia.
  - apply decode_record_canonical_aux in Hd as (_ & (_ & _ & Ha & _ & _ & Hl & _) & _).
    destruct (inv_ok q m (KClaim s j (t_gen t)) e HI) as [Ht _]; [done|done|]. done.
Qed.

Lemma spec_exhaust s j t job m :
  is_u16 s -> is_id j -> tail_ok s j t m -> job_at s j job m ->
  j_maximum_attempts job < wrapping_add (t_attempt t) 1 -> spec (exhaust q s j t) m trivial.
Proof.
  intros Hs Hj Ht Hjob Hmax. apply spec_inv. intros HI.
  destruct (tail_facts s j t m HI Hs Hj Ht) as (Hau & _ & _).
  destruct (job_at_ok s j job m HI Hs Hj Hjob) as (_ & Hmax1 & _).
  destruct Ht as [(_ & Ha & _)|(Hg & c & Hc & Ha & Hd)].
  { rewrite Ha in Hmax. unfold wrapping_add in Hmax. rewrite Z.mod_small in Hmax by lia. lia. }
  unfold exhaust. cbv zeta. eapply spec_then; [apply spec_spend|]. intros _ m1 Hm1 HI1.
  eapply spec_bind; [apply spec_put_resolving|].
  { done. } { by apply plane_authoritative. }
  { intros m' Hm' HI'. eexists. split; [apply decode_encode_at; [done| |done]|].
    - cbn. unfold is_u64 in *. split_and!; done || lia.
    - split; [done|]. cbn. assert (rely m m') as Hm by (by etrans).
      destruct (kept_claim_at s j _ _ _ m m' Hm Hc) as (_ & Hh). eapply holds_mono; [|exact Hh].
      intros e r [-> _]. by exists c. }
  intros r m2 _ _ _. destruct r; spec_tac.
Qed.

Lemma expired_admissible o t :
  is_u64 (o_skew_guard_ns (q_opts q)) -> t_gen t <> 0 -> expired q o t = true ->
  saturating_add (m_store_time_ns (t_meta t)) (t_duration t) <= co_floor_ns o.
Proof.
  intros Hs Hg He. unfold expired in He. apply orb_true_iff in He as [He|He]; [lia|].
  apply Z.leb_le in He. unfold saturating_add, is_u64 in *. lia.
Qed.

Lemma new_claim_ok o s j t job token m :
  options_ok o -> is_u16 s -> is_id j -> Inv m -> tail_ok s j t m -> job_at s j job m ->
  expired q o t = true -> wrapping_add (t_attempt t) 1 <= j_maximum_attempts job -> t_gen t < u32_max ->
  is_id token ->
  let rel := KClaim s j (t_gen t + 1) in
  let rec := claim_record q o j t (wrapping_add (t_attempt t) 1) token in
  record_wf rec /\ record_valid rec /\ ok_at root qid m rel (encode_at q rel rec).
Proof.
  intros [Hl Hf] Hs Hj HI Ht Hjob Hexp Hmax Hlt Htok rel rec.
  destruct (tail_facts s j t m HI Hs Hj Ht) as (Hau & Hdu & Htu). destruct Hq as (_ & Hw & Hskew).
  assert (0 <= wrapping_add (t_attempt t) 1 <= u64_max) as Hwa.
  { unfold wrapping_add. pose proof (Z.mod_pos_bound (t_attempt t + 1) (2 ^ 64) ltac:(lia)). lia. }
  assert (0 <= t_gen t) as Hg0 by (destruct Ht as [(-> & _)|(? & _)]; lia).
  assert (record_wf rec) as Hwf.
  { cbn. unfold is_u64 in *. split_and!; try done; try lia. intros b [= <-]. done. }
  assert (record_valid rec) as Hv by (cbn; split; [done|eauto]).
  split; [done|]. split; [done|]. eexists. split; [by apply decode_encode_at|].
  split_and!; cbn; try done; try lia.
  - destruct Hjob as (e & r & He & Hd & ->). exists e, (RecJob job). split; [done|]. split; [done|]. by exists job.
  - intros Eg. split; [done|]. destruct Ht as [(_ & -> & _)|(? & _)]; [done|lia].
  - intros Hg1. replace (t_gen t + 1 - 1) with (t_gen t) by lia.
    destruct Ht as [(? & _)|(_ & c & (_ & e & r & He & Hd & -> & Em) & Ea & Ed)]; [lia|].
    exists e, (RecClaim c). split; [done|]. split; [done|]. exists c. split; [done|]. split; [|cbn; by rewrite Ea].
    pose proof (expired_admissible o t Hskew ltac:(lia) Hexp) as Hadm.
    unfold admissible. cbn. rewrite Em, Ed in *. rewrite !Z.eqb_refl. cbn [andb]. by apply Z.leb_le.
Qed.

Lemma spec_payload_ref s j job m :
  is_u16 s -> is_id j -> job_at s j job m ->
  spec (payload_ref q job) m (fun p _ =>
    match p with Inline b => sha256 b | Detached _ d _ => d end = j_payload_digest job).
Proof.
  intros Hs Hj Hjob. apply spec_inv. intros HI. destruct (job_at_ok s j job m HI Hs Hj Hjob) as (_ & _ & Hi & _).
  unfold payload_ref. destruct (j_payload_inline job) as [b|] eqn:Eb; [apply spec_ret; [apply kept_pure|by apply Hi]|].
  destruct (j_payload_key job); [by apply spec_ret; [apply kept_pure|]|apply spec_fail].
Qed.

Lemma spec_take_custody o s j job t attempt token hint m :
  options_ok o -> is_u16 s -> is_id j -> 0 <= t_gen t < u32_max -> job_at s j job m ->
  let rel := KClaim s j (t_gen t + 1) in
  holds m rel (fun _ r => r = claim_record q o j t attempt token) ->
  spec (take_custody q o s j job t attempt token hint rel) m (fun c m' => held q c m').
Proof.
  intros [Hl Hf] Hs Hj Hg Hjob rel Hrec. unfold take_custody.
  eapply spec_then; [apply spec_spend|]. intros _ m1 Hm1 _.
  eapply spec_then; [apply spec_head_any|]. intros h m2 Hm2 _.
  eapply spec_then; [apply (spec_true _ _ _ _ _ (spec_store_ok _ _ _ _))|]. intros meta m3 Hm3 _.
  assert (rely m m3) as H03 by (etrans; [exact Hm1|]; by etrans).
  eapply spec_bind; [apply (spec_payload_ref s j job); [done|done|by eapply kept_job_at]|].
  intros pl m4 Hm4 _ Hpl.
  eapply spec_then; [by apply spec_write_tail_hint|]. intros _ m5 Hm5 _. cbv zeta.
  eapply spec_then; [destruct (bucket_number _ _); spec_tac|]. intros _ m6 Hm6 _.
  apply spec_ret; [apply kept_held|].
  assert (rely m m6) as H06 by (etrans; [exact H03|]; etrans; [exact Hm4|]; by etrans).
  split_and!; cbn; try done; try lia.
  - eapply kept_holds; [by apply plane_authoritative|exact H06|]. eapply holds_mono; [|exact Hrec].
    intros e r ->. eexists. split; [reflexivity|]. done.
  - eapply kept_holds; [by apply plane_authoritative|exact H06|]. eapply holds_mono; [|exact Hjob].
    intros e r ->. by exists job.
Qed.

Definition claimed_post (o : option Claim) (m : Space) : Prop := forall c, o = Some c -> held q c m.
Lemma kept_claimed o : kept (claimed_post o).
Proof. apply kept_forall; intros c. apply kept_impl, kept_held. Qed.

Lemma spec_none m : spec (mret None) m claimed_post.
Proof. by apply spec_ret; [apply kept_claimed|]. Qed.
#[local] Hint Resolve spec_none : spec.

Lemma spec_claim_round o s j hint again t m :
  options_ok o -> is_u16 s -> is_id j -> tail_ok s j t m ->
  (forall x m', again = Some x -> rely m m' -> Inv m' -> spec x m' claimed_post) ->
  spec (claim_round q o s j hint again t) m claimed_post.
Proof.
  intros Ho Hs Hj Ht Hagain. unfold claim_round.
  eapply spec_then; [apply spec_backoff_gate|]. intros b m1 Hm1 _. destruct b; [apply spec_none|].
  destruct (expired q o t) eqn:Hexp; cbn [negb]; [|apply spec_none]. cbv zeta.
  eapply spec_bind; [apply spec_read_job|]. intros oj m2 Hm2 HI2 Hjob.
  destruct oj as [job|]; [|apply spec_none]. specialize (Hjob job eq_refl).
  destruct (match j_not_before_ns job with Some nb => _ | None => false end); [apply spec_none|].
  assert (rely m m2) as H02 by (by etrans).
  pose proof (kept_tail_ok s j t m m2 H02 Ht) as Ht2.
  destruct (Z.ltb_spec (j_maximum_attempts job) (wrapping_add (t_attempt t) 1)) as [Hmax|Hmax].
  { destruct again as [x|]; [by apply (Hagain x m2)|].
    eapply spec_then; [by eapply spec_exhaust|]. intros ? ? ? ?. apply spec_none. }
  destruct (Z.leb_spec u32_max (t_gen t)) as [|Hlt]; [apply spec_fail|].
  eapply spec_bind; [apply spec_token|]. intros token m3 Hm3 HI3 Htok. cbv beta in Htok.
  assert (0 <= t_gen t) as Hg0 by (destruct Ht as [(-> & _)|(? & _)]; lia).
  rewrite as_u32_small by lia.
  eapply spec_then; [apply spec_spend|]. intros _ m4 Hm4 HI4.
  assert (rely m2 m4) as H24 by (by etrans).
  pose proof (fun m' (Hm' : rely m4 m') (HI' : Inv m') =>
    new_claim_ok o s j t job token m' Ho Hs Hj HI' (kept_tail_ok _ _ _ _ _ (transitivity H24 Hm') Ht2)
      (kept_job_at _ _ _ _ _ (transitivity H24 Hm') Hjob) Hexp Hmax Hlt Htok) as Hok. cbv zeta in Hok.
  destruct (Hok m4 (reflexivity _) HI4) as (Hw & Hv & _).
  eapply spec_bind; [apply spec_put_resolving|].
  { split; [done|]. split; [done|]. unfold is_u32. lia. } { by apply plane_authoritative. }
  { intros m' Hm' HI'. by apply Hok. }
  intros r m5 Hm5 HI5 Hr. assert (rely m m5) as H05 by (etrans; [exact H02|]; by etrans).
  destruct r.
  - eapply spec_bind; [apply spec_take_custody|].
    { done. } { done. } { done. } { lia. } { eapply kept_job_at; [|exact Hjob]. by etrans. }
    { eapply committed_holds; [exact Hq|exact Hw|exact Hv| |exact Hr]. done. }
    intros c m6 _ _ Hc. apply spec_ret; [apply kept_claimed|]. by intros c' [= <-].
  - destruct again as [x|]; [by apply (Hagain x m5)|apply spec_none].
  - done.
Qed.

Lemma spec_try_claim j s v o m :
  options_ok o -> is_u16 s -> is_id j -> spec (try_claim q j s v o) m claimed_post.
Proof.
  intros Ho Hs Hj. unfold try_claim.
  do 3 (eapply spec_then; [apply spec_spend|]; intros _ ? ? _).
  eapply spec_then; [apply spec_head_any|]. intros receipt m4 _ _.
  eapply spec_then; [apply spec_head_any|]. intros dead m5 _ _.
  eapply spec_bind; [apply spec_try; [apply kept_gathered|by apply spec_gather_tail]|]. intros g m6 Hm6 HI6 Hg.
  assert (spec (_ ← memoize_terminal s j v; mret None) m6 claimed_post) as Hmemo.
  { eapply spec_then; [apply spec_memoize|]. intros ? ? ? ?. apply spec_none. }
  destruct receipt as [|[]], dead as [|[]]; try exact Hmemo; try apply spec_fail.
  eapply (spec_bind _ _ _ _ _ (gathered_ok s j)).
  { destruct g as [x|e]; [apply spec_ret; [apply kept_gathered|exact Hg]|apply spec_fail]. }
  intros [[tail hint] hinted] m7 Hm7 HI7 [Ht Hh]. cbn [fst snd] in Ht, Hh.
  eapply spec_bind; [by apply spec_tail_of|]. intros t m8 Hm8 HI8 Htail. cbv zeta.
  apply spec_claim_round; [done..|]. intros x ma Ex _ _.
  destruct hinted; [|done]. injection Ex as <-.
  eapply spec_bind; [by apply spec_rediscover|]. intros t' mb _ _ Ht'.
  by apply spec_claim_round.
Qed.

(* ---------------------------------------------------------------- *)
(** ** The scan *)

Lemma sat_with_budget {A} n (x : M A) m (Q : A -> Space -> Prop) :
  (forall a, kept (Q a)) -> sat rely x m Q ->
  sat rely (with_budget n x) m (fun p m' => match p.1 with Ok a => Q a m' | Err _ => True end).
Proof.
  intros Hk Hx s Hs. unfold with_budget. apply wp_bind; [apply _|].
  eapply wp_mono; [|by apply (sat_try rely x m Q Hk Hx)].
  intros [r s'] m' (Hm & Hs' & Hr). cbn in Hr. destruct r as [v|e]; cbn; intros m2 Hm2; (split; [by etrans|]); cbn;
    (split; [done|]); [|done].
  destruct v; [by eapply Hk|done].
Qed.
Lemma spec_with_budget {A} n (x : M A) m (Q : A -> Space -> Prop) :
  (forall a, kept (Q a)) -> spec x m Q ->
  spec (with_budget n x) m (fun p m' => match p.1 with Ok a => Q a m' | Err _ => True end).
Proof. intros Hk Hx HI. by apply sat_with_budget, Hx. Qed.

Definition candidate_ok (c : Candidate) : Prop := is_u16 (cd_shard c) /\ is_id (cd_job_id c).
Definition result_held (r : Result Error (option Claim)) (m : Space) : Prop :=
  match r with Ok o => claimed_post o m | Err _ => True end.
Lemma kept_result r : kept (result_held r).
Proof. destruct r; [apply kept_claimed|apply kept_pure]. Qed.
Definition all_held (cs : list Claim) (m : Space) : Prop := Forall (fun c => held q c m) cs.
Lemma kept_all_held cs : kept (all_held cs).
Proof. apply kept_Forall, kept_held. Qed.

Lemma spec_join_all o wave m :
  options_ok o -> Forall (fun w => candidate_ok w.1) wave ->
  spec (join_all q o wave) m (fun p m' => Forall (fun r => result_held r m') p.1).
Proof.
  intros Ho HF. revert m. induction HF as [|[c b] wave [Hs Hj] _ IH]; intros m; cbn [join_all].
  { apply spec_ret; [apply kept_Forall, kept_result|constructor]. }
  eapply spec_bind; [apply spec_with_budget; [apply kept_claimed|by apply spec_try_claim]|].
  intros [r b'] m1 _ _ Hr. cbn [fst] in Hr.
  eapply spec_bind; [apply IH|]. intros [rs bs] m2 Hm2 _ Hrs.
  apply spec_ret; [apply kept_Forall, kept_result|]. constructor; [|done]. by eapply kept_result.
Qed.

Lemma sort_results_held cs rs m :
  all_held cs m -> Forall (fun r => result_held r m) rs -> all_held (wr_claims (sort_results cs rs)) m.
Proof.
  intros Hcs HF. unfold sort_results.
  set (w := {| wr_claims := cs; wr_first_err := None; wr_exhausted := false |}).
  assert (all_held (wr_claims w) m) as Hw by done. clearbody w. revert w Hw.
  induction HF as [|r rs Hr _ IH]; intros w Hw; cbn [fold_left]; [done|]. apply IH.
  destruct r as [[c|]|e]; cbn; [|done|by destruct e].
  apply Forall_app. split; [done|]. constructor; [by apply Hr|constructor].
Qed.

Lemma spec_partial_or cs e m : all_held cs m -> spec (partial_or cs e) m all_held.
Proof. intros Hcs. destruct cs; [apply spec_fail|apply spec_ret; [apply kept_all_held|done]]. Qed.

(** Waves: the claims so far are held, and the candidates come from parsed
    keys. *)
Definition wave_post (w : list Claim + list Claim * list Candidate) (m : Space) : Prop :=
  match w with
  | inl cs => all_held cs m
  | inr (cs, pending) => all_held cs m /\ Forall candidate_ok pending
  end.
Lemma kept_wave w : kept (wave_post w).
Proof. destruct w as [cs|[cs p]]; [apply kept_all_held|apply kept_and; [apply kept_all_held|apply kept_pure]]. Qed.

Lemma spec_wave_loop fuel o max pending cs m :
  options_ok o -> Forall candidate_ok pending -> all_held cs m ->
  spec (wave_loop q fuel o max pending cs) m wave_post.
Proof.
  intros Ho. revert pending cs m. induction fuel as [|fuel IH]; intros pending cs m HF Hcs; cbn [wave_loop];
    (destruct (_ || _); [by apply spec_ret; [apply kept_wave|]|]); [apply spec_throw|]. cbv zeta.
  eapply spec_then; [apply spec_get_state|]. intros st m1 Hm1 _.
  destruct (split _ _) as [rest children].
  eapply spec_then; [apply spec_set_budget|]. intros _ m2 Hm2 _.
  eapply spec_bind; [apply spec_join_all; [done|]|].
  { apply Forall_zip_fst. by apply Forall_take. }
  intros [rs bs] m3 Hm3 HI3 Hrs. cbn [fst] in Hrs.
  assert (all_held (wr_claims (sort_results cs rs)) m3) as Hw.
  { apply sort_results_held; [|done]. eapply kept_all_held; [|exact Hcs]. etrans; [exact Hm1|]. by etrans. }
  eapply spec_then; [apply spec_get_state|]. intros st' m4 Hm4 _.
  eapply spec_then; [apply spec_set_budget|]. intros _ m5 Hm5 _.
  assert (all_held (wr_claims (sort_results cs rs)) m5) as Hw5 by (eapply kept_all_held; [|exact Hw]; by etrans).
  destruct (max <=? _)%nat; [by apply spec_ret; [apply kept_wave|]|].
  assert (forall e, spec (claims ← partial_or (wr_claims (sort_results cs rs)) e; mret (inl claims)) m5 wave_post) as Hp.
  { intros e. eapply spec_bind; [by apply spec_partial_or|]. intros cs' m6 _ _ Hcs'.
    by apply spec_ret; [apply kept_wave|]. }
  destruct (wr_first_err _); [apply Hp|]. destruct (wr_exhausted _); [apply Hp|].
  destruct (_ =? 0)%nat; [by apply spec_ret; [apply kept_wave|]|]. apply IH; [|done]. by apply Forall_drop.
Qed.

Lemma spec_candidate_of pending l m :
  Forall candidate_ok pending -> spec (candidate_of q pending l) m (fun p _ => Forall candidate_ok p).
Proof.
  intros HF. unfold candidate_of.
  assert (forall m, spec (mret pending) m (fun p _ => Forall candidate_ok p)) as Hret.
  { intros m0. apply spec_ret; [apply kept_pure|done]. }
  destruct (strip_prefix root (l_key l)) as [s|]; [|done].
  destruct (parse s) as [k|] eqn:Hp; [|done]. apply parse_canonical_aux in Hp as [Hk _].
  destruct k; try apply Hret. destruct Hk as [Hs Hj].
  eapply spec_then; [apply spec_is_memoized|]. intros b m1 _ _. destruct b; [apply Hret|].
  apply spec_ret; [apply kept_pure|]. apply Forall_app. split; [done|]. by constructor.
Qed.

Lemma spec_scan_loop fuel o max pending cs after sd m :
  options_ok o -> Forall candidate_ok pending -> all_held cs m ->
  spec (scan_loop q fuel o max pending cs after sd) m all_held.
Proof.
  intros Ho. revert pending cs after sd m.
  induction fuel as [|fuel IH]; intros pending cs after sd m HF Hcs; cbn [scan_loop]; [apply spec_throw|].
  eapply spec_bind; [by apply spec_wave_loop|]. intros w m1 Hm1 HI1 Hw.
  destruct w as [cs'|[cs' pending']]; [apply spec_ret; [apply kept_all_held|exact Hw]|].
  destruct Hw as [Hcs' HF']. destruct (_ || _); [apply spec_ret; [apply kept_all_held|exact Hcs']|].
  eapply spec_then; [apply spec_try_skip, spec_spend|]. intros r m2 Hm2 _.
  pose proof (kept_all_held cs' m1 m2 Hm2 Hcs') as Hcs2. destruct r; [|by apply spec_partial_or].
  eapply spec_then; [apply spec_list_any|]. intros page m3 Hm3 HI3.
  pose proof (kept_all_held cs' m2 m3 Hm3 Hcs2) as Hcs3. destruct page as [page|]; [|by apply spec_partial_or].
  destruct (p_items page) as [|i its]; [apply spec_ret; [apply kept_all_held|done]|].
  eapply spec_bind; [apply (spec_fold _ _ _ _ _ _ (fun p _ => Forall candidate_ok p)); [intros; apply kept_pure|done|]|].
  { intros b x m' _ _ _ Hb. by apply spec_candidate_of. }
  intros pending2 m4 Hm4 HI4 HF2. pose proof (kept_all_held cs' m3 m4 Hm4 Hcs3) as Hcs4.
  destruct (p_next_after page); by apply IH.
Qed.

Lemma spec_claim_many o max m : options_ok o -> spec (claim_many q o max) m all_held.
Proof.
  intros Ho. apply spec_budget_loop. intros n. apply spec_scan_loop; [done|constructor|constructor].
Qed.

Definition claim_post (r : ClaimOutcome) (m : Space) : Prop :=
  match r with Claimed c => held q c m | Empty => True end.
Lemma spec_claim o m : options_ok o -> spec (claim q o) m claim_post.
Proof.
  intros Ho. unfold claim. eapply spec_bind; [by apply spec_claim_many|]. intros cs m1 _ _ Hcs.
  apply spec_ret; [destruct (last cs); [apply kept_held|apply kept_pure]|].
  destruct (last cs) as [c|] eqn:Hl; [|done]. apply last_Some_elem_of in Hl.
  unfold all_held in Hcs. rewrite Forall_forall in Hcs. by apply Hcs.
Qed.
End Scan.
