(* ===== verification/Worker.v ===== *)
(** [stowq-worker]: the consumer harness.

    A doorbell hint leads to at most one delivery (or a batch): claim,
    verified payload, execution under renewal heartbeats, outputs through the
    commit rule, terminal record.  The executor is application code, a
    function of the job id and its payload; how many heartbeats fire before it
    completes, and the wall time a delivery takes, are inputs. *)

From S2P Require Import Prelude Sha256 StowqMath Keys Records Store Effects Queue Claims Sweeps.

(* ------------------------------------------------------------------ *)
(** * The doorbell *)

(** A hint: shards that may hold work; none is a sweep hint. *)
Definition DoorbellMsg : Type := list Z.
Definition doorbell_shard (shard : Z) : DoorbellMsg := [shard].
Definition doorbell_sweep : DoorbellMsg := [].

(** [StubDoorbell]: the pending hints, first in first out. *)
Definition StubDoorbell : Type := list DoorbellMsg.
Definition ring (pending : StubDoorbell) (msg : DoorbellMsg) : StubDoorbell := pending ++ [msg].
Definition recv (pending : StubDoorbell) : option DoorbellMsg * StubDoorbell :=
  match pending with
  | [] => (None, [])
  | msg :: pending => (Some msg, pending)
  end.

(* ------------------------------------------------------------------ *)
(** * The executor's results *)

Record ExecutorOutput := { eo_name : bytes; eo_body : bytes }.
Inductive ExecutionFailure := Retryable (reason : Z) | Permanent (reason : Z).
Definition Executor : Type := bytes -> bytes -> Result ExecutionFailure (list ExecutorOutput).

Inductive DeliveryReport :=
| NoWork
| Delivered (outputs : list CommittedOutput)
| Failed (failure : ExecutionFailure) (buried : bool)
| LostLease.

(* ------------------------------------------------------------------ *)
(** * Metrics *)

(** Counters are 64-bit atomics: [fetch_add] wraps. *)
Record Metrics := {
  mt_hints : Z; mt_no_work : Z; mt_delivered : Z; mt_failed_retryable : Z; mt_failed_permanent : Z;
  mt_lost_lease : Z; mt_renewals : Z; mt_renewals_lost : Z; mt_store_errors : Z; mt_delivery_ms : list Z
}.

Definition metrics_default : Metrics :=
  {| mt_hints := 0; mt_no_work := 0; mt_delivered := 0; mt_failed_retryable := 0; mt_failed_permanent := 0;
     mt_lost_lease := 0; mt_renewals := 0; mt_renewals_lost := 0; mt_store_errors := 0;
     mt_delivery_ms := replicate 9 0 |}.

(** [Metrics::bucket_idx]. *)
Definition bucket_idx (ms : Z) : nat :=
  if ms <=? 9 then 0
  else if ms <=? 49 then 1
  else if ms <=? 99 then 2
  else if ms <=? 249 then 3
  else if ms <=? 499 then 4
  else if ms <=? 999 then 5
  else if ms <=? 2499 then 6
  else if ms <=? 4999 then 7
  else 8.

Definition record_delivery (ms : Z) (m : Metrics) : Metrics :=
  {| mt_hints := mt_hints m; mt_no_work := mt_no_work m; mt_delivered := mt_delivered m;
     mt_failed_retryable := mt_failed_retryable m; mt_failed_permanent := mt_failed_permanent m;
     mt_lost_lease := mt_lost_lease m; mt_renewals := mt_renewals m; mt_renewals_lost := mt_renewals_lost m;
     mt_store_errors := mt_store_errors m;
     mt_delivery_ms := alter (fun n => wrapping_add n 1) (bucket_idx ms) (mt_delivery_ms m) |}.

(** The counters by name. *)
Inductive Counter :=
| CHints | CNoWork | CDelivered | CFailedRetryable | CFailedPermanent | CLostLease | CRenewals
| CRenewalsLost | CStoreErrors.

Definition bump (c : Counter) (m : Metrics) : Metrics :=
  let add n := wrapping_add n 1 in
  {| mt_hints := match c with CHints => add (mt_hints m) | _ => mt_hints m end;
     mt_no_work := match c with CNoWork => add (mt_no_work m) | _ => mt_no_work m end;
     mt_delivered := match c with CDelivered => add (mt_delivered m) | _ => mt_delivered m end;
     mt_failed_retryable := match c with CFailedRetryable => add (mt_failed_retryable m)
                            | _ => mt_failed_retryable m end;
     mt_failed_permanent := match c with CFailedPermanent => add (mt_failed_permanent m)
                            | _ => mt_failed_permanent m end;
     mt_lost_lease := match c with CLostLease => add (mt_lost_lease m) | _ => mt_lost_lease m end;
     mt_renewals := match c with CRenewals => add (mt_renewals m) | _ => mt_renewals m end;
     mt_renewals_lost := match c with CRenewalsLost => add (mt_renewals_lost m) | _ => mt_renewals_lost m end;
     mt_store_errors := match c with CStoreErrors => add (mt_store_errors m) | _ => mt_store_errors m end;
     mt_delivery_ms := mt_delivery_ms m |}.

(** The counter a finished delivery adds to. *)
Definition report_counter (r : DeliveryReport) : Counter :=
  match r with
  | NoWork => CNoWork
  | Delivered _ => CDelivered
  | Failed _ buried => if buried then CFailedPermanent else CFailedRetryable
  | LostLease => CLostLease
  end.

Definition count_report (ms : Z) (r : DeliveryReport) (m : Metrics) : Metrics :=
  bump (report_counter r) (record_delivery ms m).

(* ------------------------------------------------------------------ *)
(** * The harness *)

Definition DELIVERY_BUDGET_OPS : nat := 1024.
Definition SWEEPER_BUDGET_OPS : nat := 4096.

(** [metrics: Option<&Metrics>], threaded; a call's error returns with what
    was counted so far. *)
Definition Counted (A : Type) : Type := Result Error A * option Metrics.
Definition counted {A B} (ms : option Metrics) (x : M A) (k : A -> M (Counted B)) : M (Counted B) :=
  r ← try_ x;
  match r with
  | Ok a => k a
  | Err e => mret (Err e, ms)
  end.

Section Harness.
Context `{Sha256} (q : Queue) (run : Executor).
(** The heartbeats before the executor completes, and a delivery's wall time
    in milliseconds ([None] is the single-delivery entry point). *)
Context (beats : Claim -> nat) (wall_ms : option Claim -> Z).

Fixpoint commit_outputs (claim : Claim) (outputs : list ExecutorOutput) : M (list CommittedOutput) :=
  match outputs with
  | [] => mret []
  | out :: outputs =>
      r ← commit_output q claim (eo_name out) (eo_body out);
      rest ← commit_outputs claim outputs;
      mret (match r with OutCommitted c | Converged c => c end :: rest)
  end.

(** A foreign receipt that records the same completed state. *)
Definition equivalent_receipt (r : option ReceiptRecord) (payload_digest : bytes)
    (committed : list CommittedOutput) : bool :=
  match r with
  | Some r => bytes_eqb (r_payload_digest r) payload_digest
              && bool_decide (r_output_digests r = map out_digest committed)
  | None => false
  end.

Definition finish_delivery (claim : Claim) (executed : Result ExecutionFailure (list ExecutorOutput))
    (payload_digest : bytes) : M DeliveryReport :=
  match executed with
  | Ok outputs =>
      committed ← commit_outputs claim outputs;
      r ← try_ (ack_with_outputs q claim committed);
      match r with
      | Ok Acked | Ok AlreadyAcked => mret (Delivered committed)
      | Ok SupersededByDead => mret LostLease
      | Err ReceiptEvidenceMismatch =>
          r ← receipt_for q claim;
          if equivalent_receipt r payload_digest committed then mret (Delivered committed)
          else fail ReceiptEvidenceMismatch
      | Err e => fail e
      end
  | Err failure =>
      match failure with
      | Retryable reason =>
          floor ← establish_floor q;
          _ ← nack q claim reason floor;
          mret (Failed failure false)
      | Permanent reason =>
          r ← bury q claim reason;
          mret (Failed failure (match r with Buried => true | SupersededByReceipt => false end))
      end
  end.

(** The select loop: [n] heartbeats fire before the executor completes. *)
Fixpoint deliver_loop (n : nat) (claim : Claim) (executed : Result ExecutionFailure (list ExecutorOutput))
    (payload_digest : bytes) (ms : option Metrics) : M (Counted DeliveryReport) :=
  match n with
  | O => counted ms (finish_delivery claim executed payload_digest) (fun r => mret (Ok r, ms))
  | S n =>
      counted ms (renew q claim) (fun r =>
        match r with
        | Renewed c => deliver_loop n c executed payload_digest (bump CRenewals <$> ms)
        | Queue.LeaseLost => mret (Ok LostLease, bump CRenewalsLost <$> ms)
        end)
  end.

(** [deliver_one]; the payload is read without the budget. *)
Definition deliver_one (claim : Claim) (ms : option Metrics) : M (Counted DeliveryReport) :=
  counted ms (payload claim) (fun payload =>
    deliver_loop (beats claim) claim (run (cl_job_id claim) payload) (sha256 payload) ms).

Definition shards_of (msg : DoorbellMsg) : list Z :=
  match msg with
  | [] => map (fun s => s mod 2 ^ 16) (seqZ 0 (shard_count (q_format q)))
  | _ => msg
  end.

(** The first claim of the hinted shards. *)
Fixpoint claim_first (floor lease : Z) (shards : list Z) : M (option Claim) :=
  match shards with
  | [] => mret None
  | shard :: shards =>
      r ← claim q {| co_shard := shard; co_floor_ns := floor; co_lease_duration_ns := lease |};
      match r with
      | Claimed c => mret (Some c)
      | Empty => claim_first floor lease shards
      end
  end.

Definition run_delivery_inner (msg : DoorbellMsg) (lease : Z) (ms : option Metrics)
  : M (Counted DeliveryReport) :=
  counted ms (establish_floor q) (fun floor =>
  counted ms (claim_first floor lease (shards_of msg)) (fun c =>
    match c with
    | None => mret (Ok NoWork, ms)
    | Some c => deliver_one c ms
    end)).

(** A budget of the callee's own; the caller's is left alone. *)
Definition own_budget {A} (n : nat) (ms : option Metrics) (x : M (Counted A)) : M (Counted A) :=
  '(r, _) ← with_budget n x;
  mret (match r with Ok (r, ms) => (r, ms) | Err e => (Err e, ms) end).

Definition run_delivery_with (msg : DoorbellMsg) (lease : Z) (ms : option Metrics)
  : M (Counted DeliveryReport) :=
  let ms := bump CHints <$> ms in
  '(r, ms) ← own_budget DELIVERY_BUDGET_OPS ms (run_delivery_inner msg lease ms);
  mret (match r with
        | Ok report => (Ok report, count_report (wall_ms None) report <$> ms)
        | Err e => (Err e, bump CStoreErrors <$> ms)
        end).

Definition run_delivery (msg : DoorbellMsg) (lease : Z) : M (Counted DeliveryReport) :=
  run_delivery_with msg lease None.

(** The batch's claims: one scan per shard until it is full. *)
Fixpoint claim_batch (floor lease : Z) (batch : nat) (shards : list Z) (claims : list Claim)
  : M (list Claim) :=
  match shards with
  | [] => mret claims
  | shard :: shards =>
      if (batch <=? length claims)%nat then mret claims
      else
        more ← claim_many q {| co_shard := shard; co_floor_ns := floor; co_lease_duration_ns := lease |}
                 (batch - length claims)%nat;
        claim_batch floor lease batch shards (claims ++ more)
  end.

(** [join_all] over the deliveries, each with a budget of its own. *)
Fixpoint deliver_all (claims : list Claim) (ms : option Metrics)
  : M (list (Result Error DeliveryReport) * option Metrics) :=
  match claims with
  | [] => mret ([], ms)
  | c :: claims =>
      '(r, ms) ← own_budget DELIVERY_BUDGET_OPS ms (deliver_one c ms);
      let ms := match r with Ok report => count_report (wall_ms (Some c)) report <$> ms | Err _ => ms end in
      '(rs, ms) ← deliver_all claims ms;
      mret (r :: rs, ms)
  end.

(** [for r in results { reports.push(r?) }]. *)
Fixpoint first_error {A} (rs : list (Result Error A)) : Result Error (list A) :=
  match rs with
  | [] => Ok []
  | Err e :: _ => Err e
  | Ok a :: rs => match first_error rs with Ok l => Ok (a :: l) | Err e => Err e end
  end.

Definition run_batch_inner (msg : DoorbellMsg) (lease : Z) (batch : nat) (ms : option Metrics)
  : M (Counted (list DeliveryReport)) :=
  counted ms (establish_floor q) (fun floor =>
  counted ms (claim_batch floor lease batch (shards_of msg) []) (fun claims =>
    '(rs, ms) ← deliver_all claims ms;
    mret (first_error rs, ms))).

Definition run_batch_with (msg : DoorbellMsg) (lease : Z) (batch : nat) (ms : option Metrics)
  : M (Counted (list DeliveryReport)) :=
  let ms := bump CHints <$> ms in
  '(r, ms) ← own_budget DELIVERY_BUDGET_OPS ms (run_batch_inner msg lease batch ms);
  mret (match r with
        | Ok reports => (Ok reports, ms)
        | Err e => (Err e, bump CStoreErrors <$> ms)
        end).

Definition run_batch (msg : DoorbellMsg) (lease : Z) (batch : nat) : M (Counted (list DeliveryReport)) :=
  run_batch_with msg lease batch None.

(* ---------------------------------------------------------------- *)
(** ** The sweeper *)

Definition sweep_once : M SweepReport :=
  floor ← establish_floor q;
  leases ← sweep_expired_leases q floor;
  delayed ← sweep_delayed q floor;
  mret {| sw_entries := sw_entries leases + sw_entries delayed;
          sw_reclaimed := sw_reclaimed leases; sw_promoted := sw_promoted delayed |}.

(** [run_sweeper]: for each turn, whether the stop flag is seen before the
    pass and whether it, rather than the timer, ends the wait after it. *)
Fixpoint run_sweeper (turns : list (bool * bool)) : M unit :=
  match turns with
  | [] => mret ()
  | (stopped, woken) :: turns =>
      if (stopped : bool) then mret ()
      else
        '(r, _) ← with_budget SWEEPER_BUDGET_OPS sweep_once;
        _ ← result_ok r;
        if (woken : bool) then mret () else run_sweeper turns
  end.
End Harness.
