(* ===== verification/Upkeep.v ===== *)
(** Sweeps and the repair scan under the protocol: they delete advisory
    entries only, write advisory entries and quarantine objects, and so are
    protocol steps like any other client's. *)

From S2P Require Import Prelude Sha256 StowqMath Keys Records Direct Store Effects Rely Queue Claims Sweeps Repair.
From S2P Require Import Protocol Lifecycle Custody.

Section Upkeep.
Context `{Sha256} (q : Queue) (Hq : handle_ok q).
#[local] Abbreviation root := (q_root q).
#[local] Abbreviation qid := (o_queue_id (q_opts q)).
#[local] Abbreviation rely := (rely root qid).
#[local] Abbreviation Inv := (Inv root qid).
#[local] Abbreviation spec := (spec root qid).
#[local] Abbreviation kept := (Rely.kept rely).
#[local] Hint Constants Opaque : spec.
#[local] Hint Transparent trivial advisory : spec.
#[local] Hint Resolve spec_any_present spec_put_index spec_read_retrying_any spec_is_memoized : spec.

Lemma spec_page_loop {A} fuel prefix after (acc : A) body (P : A -> Space -> Prop) m :
  (forall a, kept (P a)) -> P acc m ->
  (forall a item m', rely m m' -> Inv m' -> listed root prefix item m' -> P a m' -> spec (body a item) m' P) ->
  spec (page_loop fuel prefix after acc body) m P.
Proof.
  intros Hk. revert after acc m. induction fuel as [|fuel IH]; intros after acc m HP Hbody; cbn [page_loop];
    [apply spec_throw|].
  eapply spec_then; [apply spec_spend|]. intros _ m1 Hm1 _.
  eapply spec_bind; [apply spec_list|]. intros r m2 Hm2 _ Hr.
  eapply spec_bind; [apply spec_store_ok|]. intros page m3 Hm3 _ ->.
  assert (rely m m3) as H03 by (etrans; [exact Hm1|]; by etrans).
  assert (P acc m3) as HP3 by (by eapply Hk).
  assert (Forall (fun l => listed root prefix l m3) (p_items page)) as Hl.
  { exact (kept_Forall root qid _ _ (fun l => kept_listed root qid prefix l) m2 m3 Hm3 (Hr page eq_refl)). }
  destruct (p_items page) as [|i its] eqn:Ei; [by apply spec_ret|].
  eapply spec_bind; [apply (spec_fold _ _ _ _ _ _ P Hk HP3)|].
  { intros a x m' Hx Hm' HI' Ha. apply Hbody; [by etrans|done| |done].
    rewrite Forall_forall in Hl. by eapply kept_listed; [|apply Hl]. }
  intros acc' m4 Hm4 HI4 HP4. destruct (p_next_after page); [|by apply spec_ret].
  apply IH; [done|]. intros a item m' Hm' HI'. apply Hbody; [|done]. etrans; [exact H03|]. by etrans.
Qed.

Lemma spec_for_pages {A} prefix (acc : A) body m :
  (forall a item m', Inv m' -> listed root prefix item m' -> spec (body a item) m' trivial) ->
  spec (for_pages prefix acc body) m trivial.
Proof.
  intros Hbody. apply spec_budget_loop. intros n.
  apply spec_page_loop; [intros; apply kept_pure|done|]. intros a item m' _ HI' Hl _. by apply Hbody.
Qed.

(** An entry listed under an advisory plane may be deleted. *)
Lemma spec_delete_listed p item m :
  slash ∉ p -> p ∉ authoritative_planes -> p <> ¶"meta" ->
  listed root (root ++ p ++ [slash]) item m -> spec (delete_ignoring (l_key item)) m trivial.
Proof.
  intros Hs Hp Hmeta [[x E]%starts_with_iff _]. unfold delete_ignoring.
  assert (l_key item = root ++ (p ++ slash :: x)) as ->
    by (rewrite E, <- !app_assoc; reflexivity).
  eapply spec_then; [apply spec_delete|intros; apply spec_skip].
  intros [Ha|Ha].
  - by rewrite plane_of_app in Ha.
  - apply (f_equal plane_of) in Ha. by rewrite plane_of_app in Ha.
Qed.

Lemma spec_depth s m : spec (depth q s) m trivial.
Proof.
  assert (forall p m, spec (plane_depth q p s) m trivial) as Hd.
  { intros p m0. apply spec_budget_loop. intros n.
    generalize (root ++ p ++ [slash] ++ hex16 s ++ [slash]) as pre. intros pre.
    generalize (@None bytes) as after. generalize 0 as k. revert m0.
    induction n as [|n IH]; intros m0 k after; cbn [depth_loop]; [apply spec_throw|]. spec_tac. }
  unfold depth. do 4 (eapply spec_then; [apply Hd|intros ? ? ? ?]). apply spec_skip.
Qed.

Lemma spec_list_tail_any prefix m : spec (list_tail prefix) m trivial.
Proof.
  apply spec_budget_loop. intros n. generalize (@None bytes) as after.
  generalize (@None (Z * Meta)) as tail. revert m.
  induction n as [|n IH]; intros m tail after; cbn [list_tail_loop]; [apply spec_throw|]. spec_tac.
Qed.
#[local] Hint Resolve spec_list_tail_any : spec.
Lemma spec_claim_tail s j m : spec (claim_tail q s j) m trivial.
Proof. unfold claim_tail. spec_tac. Qed.
#[local] Hint Resolve spec_claim_tail : spec.
Lemma spec_lease_reclaimable s j f m : spec (lease_reclaimable q s j f) m trivial.
Proof. unfold lease_reclaimable. spec_tac. Qed.
Lemma spec_job_promotable s j f m : spec (job_promotable q s j f) m trivial.
Proof. unfold job_promotable. spec_tac. Qed.
#[local] Hint Resolve spec_lease_reclaimable spec_job_promotable : spec.
Lemma spec_stop_ok {A} (r : Result Stop A) m : spec (stop_ok r) m trivial.
Proof. destruct r; [apply spec_skip|apply spec_throw]. Qed.
#[local] Hint Resolve spec_stop_ok : spec.

Lemma spec_sweep_expired_leases f m : spec (sweep_expired_leases q f) m trivial.
Proof.
  unfold sweep_expired_leases. eapply spec_then; [spec_tac|]. intros b m1 _ _.
  apply spec_for_pages. intros a item m2 _ Hl.
  assert (forall m', rely m2 m' -> spec (delete_ignoring (l_key item)) m' trivial) as Hdel.
  { intros m' Hm'. apply (spec_delete_listed ¶"leases"); [by apply lit_no_slash| |done|by eapply kept_listed].
    apply (bool_decide_eq_true_1 _). by vm_compute. }
  unfold sweep_lease_entry. destruct (split_bucket _). destruct (from_str_radix16 _ _); [|apply spec_skip].
  destruct (_ <? _); [apply spec_skip|]. cbv zeta.
  eapply spec_then; [apply spec_stop_ok|]. intros [[[s j] g]|] m3 Hm3 _; [|apply spec_skip].
  eapply spec_then; [apply spec_lease_reclaimable|]. intros r m4 Hm4 _.
  eapply spec_then; [apply spec_spend|]. intros _ m5 Hm5 _.
  eapply spec_then; [apply Hdel; etrans; [exact Hm3|]; by etrans|]. intros. apply spec_skip.
Qed.

Lemma spec_sweep_delayed f m : spec (sweep_delayed q f) m trivial.
Proof.
  unfold sweep_delayed. eapply spec_then; [spec_tac|]. intros b m1 _ _.
  apply spec_for_pages. intros a item m2 _ Hl.
  assert (forall m', rely m2 m' -> spec (delete_ignoring (l_key item)) m' trivial) as Hdel.
  { intros m' Hm'. apply (spec_delete_listed ¶"delayed"); [by apply lit_no_slash| |done|by eapply kept_listed].
    apply (bool_decide_eq_true_1 _). by vm_compute. }
  unfold sweep_delayed_entry. destruct (split_bucket _). destruct (from_str_radix16 _ _); [|apply spec_skip].
  destruct (_ <? _); [apply spec_skip|]. cbv zeta.
  eapply spec_then; [apply spec_stop_ok|]. intros [[s j]|] m3 Hm3 _; [|apply spec_skip].
  eapply spec_then; [apply spec_job_promotable|]. intros r m4 Hm4 _.
  eapply spec_then; [apply spec_spend|]. intros _ m5 Hm5 _.
  eapply spec_then; [apply Hdel; etrans; [exact Hm3|]; by etrans|]. intros. apply spec_skip.
Qed.

(* ------------------------------------------------------------------ *)
(** * Repair *)

Context (hash_order : list bytes -> list bytes).

Lemma spec_write_quarantine k r o d m : spec (write_quarantine q k r o d) m trivial.
Proof.
  unfold write_quarantine. destruct (_ =? _); [apply spec_skip|]. cbv zeta.
  eapply spec_then; [spec_tac|]. intros b m1 _ _.
  eapply spec_true, (spec_put_bytes_resolving q).
  - by apply (plane_authoritative (KQuarantine b _)).
  - rewrite plane_of_key. done.
  - intros k' m' _ _ _ E%plane_of_eq. by destruct k'.
Qed.
#[local] Hint Resolve spec_write_quarantine : spec.
Lemma spec_report_finding r kd k rs rk o d m : spec (report_finding q r kd k rs rk o d) m trivial.
Proof. unfold report_finding. spec_tac. Qed.
#[local] Hint Resolve spec_report_finding : spec.
Lemma spec_list_authoritative p m : spec (list_authoritative p) m trivial.
Proof. apply spec_for_pages. intros. apply spec_skip. Qed.
Lemma spec_ensure_index rel m : advisory rel -> spec (ensure_index q rel) m trivial.
Proof. intros Ha. unfold ensure_index. spec_tac. Qed.
#[local] Hint Resolve spec_list_authoritative spec_ensure_index : spec.
Lemma spec_quarantine_inadmissible s j c r g m : spec (quarantine_inadmissible q s j c r g) m trivial.
Proof. unfold quarantine_inadmissible. spec_tac. Qed.
#[local] Hint Resolve spec_quarantine_inadmissible : spec.
Lemma spec_audit_gaps s j c r m : spec (audit_gaps q s j c r) m trivial.
Proof.
  revert r m. induction c as [|[g0 m0] [|[g1 m1] c] IH]; intros r m; cbn [audit_gaps]; try apply spec_skip.
  eapply spec_then; [spec_tac|]. intros r' m' _ _. apply IH.
Qed.
Lemma spec_audit_decode s j c r m : spec (audit_decode q s j c r) m trivial.
Proof.
  revert r m. induction c as [|[g0 m0] c IH]; intros r m; cbn [audit_decode]; [apply spec_skip|]. spec_tac.
Qed.
Lemma spec_audit_evidence s j w c r m : spec (audit_evidence q s j w c r) m trivial.
Proof.
  revert r m. induction c as [|[[g0 m0] x] [|[[g1 m1] y] c] IH]; intros r m; cbn [audit_evidence]; try apply spec_skip.
  eapply spec_then; [spec_tac|]. intros r' m' _ _. apply IH.
Qed.
#[local] Hint Resolve spec_audit_gaps spec_audit_decode spec_audit_evidence : spec.
Lemma spec_audit_claim_chain s j c r m : spec (audit_claim_chain q s j c r) m trivial.
Proof. unfold audit_claim_chain. spec_tac. Qed.
#[local] Hint Resolve spec_audit_claim_chain : spec.

Lemma spec_fold_any {A B} (xs : list A) (b : B) body m :
  (forall b x m', spec (body b x) m' trivial) -> spec (fold_each xs b body) m trivial.
Proof. intros Hb. apply spec_fold; [intros; apply kept_pure|done|]. intros b' x m' _ _ _ _. apply Hb. Qed.
#[local] Hint Resolve spec_fold_any : spec.

Lemma spec_repair_job s st l m : spec (repair_job q s st l) m trivial.
Proof. unfold repair_job, repair_job_record. spec_tac. Qed.
Lemma spec_repair_claim st l m : spec (repair_claim q st l) m trivial.
Proof. unfold repair_claim. spec_tac. Qed.
Lemma spec_repair_chain s js cs r j m : spec (repair_chain q s js cs r j) m trivial.
Proof. unfold repair_chain. spec_tac. Qed.
Lemma spec_repair_terminal s st l m : spec (repair_terminal q s st l) m trivial.
Proof. unfold repair_terminal. spec_tac. Qed.
Lemma spec_repair_duplicate s rs r j m : spec (repair_duplicate q s rs r j) m trivial.
Proof. unfold repair_duplicate. spec_tac. Qed.
#[local] Hint Resolve spec_repair_job spec_repair_claim spec_repair_chain spec_repair_terminal
  spec_repair_duplicate : spec.
Lemma spec_repair_shard s r m : spec (repair_shard q hash_order s r) m trivial.
Proof. unfold repair_shard. spec_tac. Qed.

Lemma spec_repair_scan s m : spec (repair_scan q hash_order s) m trivial.
Proof.
  unfold repair_scan. cbv zeta. eapply spec_then; [|intros [r n] ? ? ?; apply spec_skip].
  generalize (Z.to_nat (shard_count (q_format q) - s)) as n. intros n. generalize empty_report as r.
  revert s m. induction n as [|n IH]; intros s m r; cbn [repair_shards]; [apply spec_skip|].
  eapply spec_then; [apply spec_repair_shard|]. intros r' m1 _ _. spec_tac.
Qed.
End Upkeep.
