(* ===== verification/Delivery.v ===== *)
(** The worker harness under the protocol: what each delivery report proves
    of the shared space, and that a harness is a protocol client whatever its
    executor returns. *)

From S2P Require Import Prelude Sha256 StowqMath Keys Cbor Records Direct Store Effects Rely Queue Claims Sweeps Worker.
From S2P Require Import Protocol Lifecycle Custody Upkeep.

(** An executor's reasons are 64-bit. *)
Definition executor_ok (run : Executor) : Prop := forall j p,
  match run j p with
  | Ok outs => is_u64 (Cbor.len64 outs)
  | Err (Retryable reason) | Err (Permanent reason) => is_u64 reason
  end.

Section Delivery.
Context `{Sha256} (q : Queue) (Hq : handle_ok q) (run : Executor) (Hrun : executor_ok run).
Context (beats : Claim -> nat) (wall_ms : option Claim -> Z).
#[local] Abbreviation root := (q_root q).
#[local] Abbreviation qid := (o_queue_id (q_opts q)).
#[local] Abbreviation rely := (rely root qid).
#[local] Abbreviation spec := (spec root qid).
#[local] Abbreviation holds := (holds_at root qid).
#[local] Abbreviation kept := (Rely.kept rely).

(** A later generation of the same custody. *)
Definition continues (c c' : Claim) : Prop :=
  cl_job_id c' = cl_job_id c /\ cl_shard c' = cl_shard c /\ cl_attempt c' = cl_attempt c /\
  cl_generation c <= cl_generation c'.

(** The job is done: a receipt of these outputs, each present. *)
Definition completed (c : Claim) (outs : list CommittedOutput) (m : Space) : Prop :=
  holds m (KReceipt (cl_shard c) (cl_job_id c)) (fun _ r => exists x, r = RecReceipt x /\
    r_output_digests x = map out_digest outs) /\
  Forall (fun o => prefixed q c o /\ output_stored o m) outs.

(** What a report promises about the claim it was made for. *)
Definition report_post (c : Claim) (r : DeliveryReport) (m : Space) : Prop :=
  match r with
  | NoWork => True
  | Delivered outs => completed c outs m
  | Failed _ true => exists c', continues c c' /\ bury_post q c' Buried m
  | Failed (Retryable _) false => exists c', continues c c' /\ nack_post q c' m
  | Failed (Permanent _) false => present q (KReceipt (cl_shard c) (cl_job_id c)) m
  | LostLease => exists c', continues c c' /\ superseded q c' m
  end.

Lemma kept_completed c outs : kept (completed c outs).
Proof. apply kept_and; [kept_tac|apply kept_outputs]. Qed.
Lemma kept_report c r : kept (report_post c r).
Proof.
  destruct r as [|outs|[reason|reason] [|]|]; try apply kept_pure; try apply kept_completed;
    try (apply kept_exists; intros c'; apply kept_and; [apply kept_pure|];
         first [apply kept_bury|apply kept_nack|apply kept_superseded]).
  apply kept_key_present. by apply plane_authoritative.
Qed.

Lemma continues_refl c : continues c c.
Proof. by split_and!. Qed.
Lemma report_continues c c' r m : continues c c' -> report_post c' r m -> report_post c r m.
Proof.
  intros (Ej & Es & Ea & Hg). assert (forall c2, continues c' c2 -> continues c c2) as Ht.
  { intros c2 (Ej2 & Es2 & Ea2 & Hg2). split_and!; [congruence..|lia]. }
  destruct r as [|outs|[reason|reason] [|]|]; cbn [report_post]; try done;
    try (intros (c2 & H2 & HP); exists c2; by split; [apply Ht|]).
  - unfold completed, prefixed. by rewrite Ej, Es.
  - by rewrite Ej, Es.
Qed.

(* ---------------------------------------------------------------- *)
(** ** Finishing *)

Lemma spec_receipt_found c m :
  spec (receipt_for q c) m (fun o m' => forall r, o = Some r ->
    holds m' (KReceipt (cl_shard c) (cl_job_id c)) (fun _ x => x = RecReceipt r)).
Proof.
  assert (authoritative (key_to_string (KReceipt (cl_shard c) (cl_job_id c)))) as Ha by (by apply plane_authoritative).
  assert (forall o, kept (fun m' => forall r, o = Some r ->
    holds m' (KReceipt (cl_shard c) (cl_job_id c)) (fun _ x => x = RecReceipt r))) as Hk.
  { intros o. apply kept_forall; intros r. apply kept_impl. by apply kept_holds. }
  unfold receipt_for. eapply spec_bind; [apply (spec_try _ _ _ _ (read_post q (key_to_string (KReceipt (cl_shard c) (cl_job_id c)))))|].
  { intros r. by apply kept_read_post. } { by apply spec_read_retrying. }
  intros r m1 _ _ Hr. destruct r as [obj|[[]| | | | | | | | | |]]; try apply spec_fail;
    try (by apply spec_ret; [apply Hk|]).
  eapply spec_bind; [apply spec_record_ok|]. intros rec m2 Hm2 _ Hd. cbv beta in Hd.
  destruct rec as [| | | |r| | |]; try apply spec_fail. apply spec_ret; [apply Hk|]. intros ? [= <-].
  destruct (kept_read_post q _ obj Ha m1 m2 Hm2 Hr) as (e & He & _ & Hb).
  exists e, (RecReceipt r). split; [done|]. split; [|done]. rewrite <- Hb. exact Hd.
Qed.

Lemma spec_commit_outputs c outs m :
  spec (commit_outputs q c outs) m (fun cs m' =>
    Forall (fun o => prefixed q c o /\ output_stored o m') cs /\
    Forall (fun o => is_digest (out_digest o)) cs /\ length cs = length outs).
Proof.
  assert (forall cs n, kept (fun m' => Forall (fun o => prefixed q c o /\ output_stored o m') cs /\
    Forall (fun o => is_digest (out_digest o)) cs /\ length cs = n)) as Hk.
  { intros cs n. apply kept_and; [apply kept_outputs|apply kept_pure]. }
  revert m. induction outs as [|o outs IH]; intros m; cbn [commit_outputs].
  { apply spec_ret; [apply Hk|by split_and!; constructor]. }
  eapply spec_bind; [apply spec_commit_output|]. intros r m1 Hm1 _ (Ek & Ed & Hs).
  eapply spec_bind; [apply IH|]. intros cs m2 Hm2 _ (Hcs & Hds & Hl).
  apply spec_ret; [apply Hk|]. set (o' := match r with OutCommitted o | Converged o => o end) in *.
  split_and!; [constructor; [|exact Hcs]|constructor; [|exact Hds]|cbn; lia].
  - apply (kept_prefixed_output q c o' m1 m2 Hm2). split; [by eexists|exact Hs].
  - rewrite Ed. apply sha256_length.
Qed.

Lemma spec_finish_delivery c executed digest m :
  held q c m ->
  match executed with
  | Ok outs => is_u64 (Cbor.len64 outs)
  | Err (Retryable reason) | Err (Permanent reason) => is_u64 reason
  end -> spec (finish_delivery q c executed digest) m (report_post c).
Proof.
  intros Hh Hex. unfold finish_delivery. destruct executed as [outs|failure].
  - eapply spec_bind; [apply spec_commit_outputs|]. intros cs m1 Hm1 HI1 (Hcs & Hds & Hl).
    assert (outputs_ok cs) as Hcok.
    { split; [exact Hds|]. unfold Cbor.len64 in *. by rewrite Hl. }
    eapply spec_bind; [apply spec_try; [apply kept_ack|apply spec_ack; [done| |exact Hcok]]|].
    { by eapply kept_held. }
    intros r m2 Hm2 HI2 Hr. destruct r as [[]|[]]; try apply spec_fail.
    + apply spec_ret; [apply kept_report|]. destruct Hr as [(e & x & He & Hd & y & -> & _ & _ & Ho & _) Hf].
      split; [|exact Hf]. exists e, (RecReceipt y). split_and!; eauto.
    + apply spec_ret; [apply kept_report|]. destruct Hr as [(e & x & He & Hd & y & -> & _ & _ & Ho & _) Hf].
      split; [|exact Hf]. exists e, (RecReceipt y). split_and!; eauto.
    + apply spec_ret; [apply kept_report|]. exists c. split; [apply continues_refl|]. right. left. exact Hr.
    + eapply spec_bind; [apply spec_receipt_found|]. intros o m3 Hm3 _ Ho.
      destruct (equivalent_receipt o digest cs) eqn:He; [|apply spec_fail].
      apply spec_ret; [apply kept_report|]. destruct o as [r|]; [|done].
      apply andb_true_iff in He as [_ He%bool_decide_eq_true]. split.
      * destruct (Ho r eq_refl) as (e & x & Hx & Hd & ->). exists e, (RecReceipt r). split_and!; eauto.
      * eapply kept_outputs; [|exact Hcs]. by etrans.
  - destruct failure as [reason|reason].
    + eapply spec_bind; [by apply spec_establish_floor_time|]. intros floor m1 Hm1 _ Hfl.
      eapply spec_bind; [apply spec_nack; [done|by eapply kept_held|exact Hex|exact Hfl]|]. intros ? m2 Hm2 _ Hn.
      apply spec_ret; [apply kept_report|]. exists c. split; [apply continues_refl|exact Hn].
    + eapply spec_bind; [by apply spec_bury|]. intros r m1 Hm1 _ Hb. destruct r.
      * apply spec_ret; [apply kept_report|]. exists c. split; [apply continues_refl|exact Hb].
      * apply spec_ret; [apply kept_report|]. exact Hb.
Qed.

(* ---------------------------------------------------------------- *)
(** ** The delivery *)

(** A counted result: the property of its value. *)
Definition on_ok {A} (P : A -> Space -> Prop) (r : Counted A) (m : Space) : Prop :=
  match r.1 with Ok a => P a m | Err _ => True end.
Lemma kept_on_ok {A} (P : A -> Space -> Prop) r : (forall a, kept (P a)) -> kept (on_ok P r).
Proof. intros Hk. destruct r as [[a|e] ms]; [apply Hk|by intros ? ? ? ?]. Qed.

Lemma spec_counted {A B} ms (x : M A) (k : A -> M (Counted B)) m Q P :
  (forall a, kept (Q a)) -> (forall b, kept (P b)) -> spec x m Q ->
  (forall a m', rely m m' -> Inv root qid m' -> Q a m' -> spec (k a) m' (on_ok P)) ->
  spec (counted ms x k) m (on_ok P).
Proof.
  intros HQ HP Hx Hk. unfold counted. eapply spec_bind; [by apply spec_try|]. intros r m1 Hm1 HI1 Hr.
  destruct r as [a|e]; [by apply Hk|]. apply spec_ret; [by apply kept_on_ok|done].
Qed.

Lemma spec_counted_done {A} (a : A) ms m (P : A -> Space -> Prop) :
  (forall b, kept (P b)) -> P a m -> spec (mret (Ok a, ms)) m (on_ok P).
Proof. intros Hk HP. apply spec_ret; [by apply kept_on_ok|exact HP]. Qed.

Lemma executed_ok c payload :
  match run (cl_job_id c) payload with
  | Ok outs => is_u64 (Cbor.len64 outs)
  | Err (Retryable reason) | Err (Permanent reason) => is_u64 reason
  end.
Proof. apply Hrun. Qed.

Lemma spec_deliver_loop n c executed digest ms m :
  held q c m ->
  match executed with
  | Ok outs => is_u64 (Cbor.len64 outs)
  | Err (Retryable reason) | Err (Permanent reason) => is_u64 reason
  end -> spec (deliver_loop q n c executed digest ms) m (on_ok (report_post c)).
Proof.
  intros Hh Hex. revert c ms m Hh. induction n as [|n IH]; intros c ms m Hh; cbn [deliver_loop].
  - eapply spec_counted; [apply kept_report|apply kept_report|by apply spec_finish_delivery|].
    intros r m1 _ _ Hr. apply spec_counted_done; [apply kept_report|exact Hr].
  - eapply spec_counted; [apply kept_renew|apply kept_report|by apply spec_renew|].
    intros [c'|] m1 Hm1 _ Hr.
    + destruct Hr as (Hh' & Hg & Ej & Es & Ea). eapply spec_mono; [by apply IH|].
      intros [[r|] ms'] m2 _ _ HP; [|done]. eapply report_continues; [|exact HP]. split_and!; try done. lia.
    + apply spec_counted_done; [apply kept_report|]. exists c. split; [apply continues_refl|exact Hr].
Qed.

Lemma spec_deliver_one c ms m :
  held q c m -> spec (deliver_one q run beats c ms) m (on_ok (report_post c)).
Proof.
  intros Hh. unfold deliver_one.
  eapply spec_counted; [intros; apply kept_pure|apply kept_report|by eapply spec_payload|].
  intros b m1 Hm1 _ _. apply spec_deliver_loop; [by eapply kept_held|]. apply executed_ok.
Qed.

Lemma shards_of_ok msg : Forall is_u16 msg -> Forall is_u16 (shards_of q msg).
Proof.
  intros Hm. destruct msg as [|s msg]; [|done]. cbn [shards_of]. apply Forall_map, Forall_forall. intros s _.
  unfold is_u16. pose proof (Z.mod_pos_bound s (2 ^ 16) ltac:(lia)). lia.
Qed.

Lemma spec_claim_first floor lease shards m : is_u64 floor -> is_u64 lease ->
  spec (claim_first q floor lease shards) m (fun o m' => forall c, o = Some c -> held q c m').
Proof.
  intros Hf Hl. revert m. induction shards as [|s shards IH]; intros m; cbn [claim_first].
  { apply spec_ret; [apply kept_forall; intros; apply kept_impl, kept_held|done]. }
  eapply spec_bind; [apply spec_claim; [done|by split]|]. intros [c|] m1 _ _ Hc; [|apply IH].
  apply spec_ret; [apply kept_forall; intros; apply kept_impl, kept_held|]. by intros ? [= <-].
Qed.

(** What a delivery's report promises: of some claim this worker held. *)
Definition delivery_post (r : DeliveryReport) (m : Space) : Prop :=
  r = NoWork \/ exists c, held q c m /\ report_post c r m.
Lemma kept_delivery r : kept (delivery_post r).
Proof.
  intros m m' Hm [E|(c & Hc & Hr)]; [by left|]. right. exists c. split; [by eapply kept_held|by eapply kept_report].
Qed.

Lemma spec_run_delivery_inner msg lease ms m : is_u64 lease ->
  spec (run_delivery_inner q run beats msg lease ms) m (on_ok delivery_post).
Proof.
  intros Hl. unfold run_delivery_inner.
  eapply spec_counted; [intros; apply kept_pure|apply kept_delivery|by apply spec_establish_floor_time|].
  intros floor m1 _ _ Hf.
  eapply spec_counted; [|apply kept_delivery|by apply spec_claim_first|].
  { intros o. apply kept_forall; intros; apply kept_impl, kept_held. }
  intros [c|] m2 _ _ Hc; [|apply spec_counted_done; [apply kept_delivery|by left]].
  pose proof (Hc c eq_refl) as Hh. eapply spec_mono; [by apply spec_deliver_one|].
  intros [[r|] ms'] m3 Hm3 _ HP; [|done]. right. exists c. split; [by eapply kept_held|exact HP].
Qed.

Lemma spec_own_budget {A} n ms (x : M (Counted A)) m P :
  (forall a, kept (P a)) -> spec x m (on_ok P) -> spec (own_budget n ms x) m (on_ok P).
Proof.
  intros Hk Hx. unfold own_budget.
  eapply spec_bind; [apply spec_with_budget; [|exact Hx]|]. { intros a. by apply kept_on_ok. }
  intros [[[r ms']|e] b] m1 _ _ Hr; apply spec_ret; try (by apply kept_on_ok); done.
Qed.

Lemma spec_run_delivery_with msg lease ms m : is_u64 lease ->
  spec (run_delivery_with q run beats wall_ms msg lease ms) m (on_ok delivery_post).
Proof.
  intros Hl. unfold run_delivery_with.
  eapply spec_bind; [apply spec_own_budget; [apply kept_delivery|by apply spec_run_delivery_inner]|].
  intros [[r|e] ms'] m1 _ _ Hr; apply spec_ret; try (apply kept_on_ok, kept_delivery); done.
Qed.

(* ---------------------------------------------------------------- *)
(** ** The batch *)

Lemma spec_claim_batch floor lease batch shards cs m : is_u64 floor -> is_u64 lease ->
  all_held q cs m -> spec (claim_batch q floor lease batch shards cs) m (all_held q).
Proof.
  intros Hf Hl. revert cs m. induction shards as [|s shards IH]; intros cs m Hcs; cbn [claim_batch].
  { by apply spec_ret; [apply kept_all_held|]. }
  destruct (_ <=? _)%nat; [by apply spec_ret; [apply kept_all_held|]|].
  eapply spec_bind; [apply spec_claim_many; [done|by split]|]. intros more m1 Hm1 _ Hmore.
  apply IH. apply Forall_app. split; [by eapply kept_all_held|exact Hmore].
Qed.

(** The reports in claim order, each about its claim. *)
Definition reports_post (cs : list Claim) (rs : list (Result Error DeliveryReport)) (m : Space) : Prop :=
  Forall2 (fun c r => match r with Ok rep => report_post c rep m | Err _ => True end) cs rs.
Lemma kept_reports cs rs : kept (reports_post cs rs).
Proof.
  intros m m' Hm HF. eapply Forall2_impl; [exact HF|]. intros c [rep|e] Hr; [by eapply kept_report|done].
Qed.

Lemma spec_deliver_all cs ms m : all_held q cs m ->
  spec (deliver_all q run beats wall_ms cs ms) m (fun p m' => reports_post cs p.1 m').
Proof.
  revert ms m. induction cs as [|c cs IH]; intros ms m Hcs; cbn [deliver_all].
  { apply spec_ret; [apply kept_reports|constructor]. }
  pose proof Hcs as [Hc Hrest]%Forall_cons.
  eapply spec_bind; [apply spec_own_budget; [apply kept_report|by apply spec_deliver_one]|].
  intros [r ms1] m1 Hm1 _ Hr.
  eapply spec_bind; [apply IH; by eapply kept_all_held|]. intros [rs ms2] m2 Hm2 _ Hrs.
  apply spec_ret; [apply kept_reports|]. constructor; [|exact Hrs].
  destruct r as [rep|e]; [by eapply kept_report|done].
Qed.

Lemma first_error_ok {A} (rs : list (Result Error A)) l : first_error rs = Ok l -> rs = map Ok l.
Proof.
  revert l. induction rs as [|[a|e] rs IH]; intros l; cbn [first_error]; [by intros [= <-]| |done].
  destruct (first_error rs) as [l'|]; [|done]. intros [= <-]. cbn. by rewrite (IH l' eq_refl).
Qed.

(** A batch's reports: one per claim this worker held, in claim order. *)
Definition batch_post (reports : list DeliveryReport) (m : Space) : Prop :=
  exists cs, all_held q cs m /\ Forall2 (fun c rep => report_post c rep m) cs reports.
Lemma kept_batch reports : kept (batch_post reports).
Proof.
  intros m m' Hm (cs & Hcs & HF). exists cs. split; [by eapply kept_all_held|].
  eapply Forall2_impl; [exact HF|]. intros c rep Hr. by eapply kept_report.
Qed.

Lemma spec_run_batch_inner msg lease batch ms m : is_u64 lease ->
  spec (run_batch_inner q run beats wall_ms msg lease batch ms) m (on_ok batch_post).
Proof.
  intros Hl. unfold run_batch_inner.
  eapply spec_counted; [intros; apply kept_pure|apply kept_batch|by apply spec_establish_floor_time|].
  intros floor m1 _ _ Hf.
  eapply spec_counted; [apply kept_all_held|apply kept_batch|by apply spec_claim_batch; [| |constructor]|].
  intros cs m2 _ _ Hcs. eapply spec_bind; [by apply spec_deliver_all|]. intros [rs ms'] m3 Hm3 _ Hrs.
  apply spec_ret; [by apply kept_on_ok, kept_batch|]. unfold on_ok. cbn [fst].
  destruct (first_error rs) as [reports|e] eqn:E; [|done]. apply first_error_ok in E. subst rs.
  exists cs. split; [by eapply kept_all_held|]. unfold reports_post in Hrs. cbn [fst] in Hrs.
  by apply Forall2_fmap_r in Hrs.
Qed.

Lemma spec_run_batch_with msg lease batch ms m : is_u64 lease ->
  spec (run_batch_with q run beats wall_ms msg lease batch ms) m (on_ok batch_post).
Proof.
  intros Hl. unfold run_batch_with.
  eapply spec_bind; [apply spec_own_budget; [apply kept_batch|by apply spec_run_batch_inner]|].
  intros [[r|e] ms'] m1 _ _ Hr; apply spec_ret; try (apply kept_on_ok, kept_batch); done.
Qed.

(* ---------------------------------------------------------------- *)
(** ** The sweeper *)

Lemma spec_sweep_once m : spec (sweep_once q) m trivial.
Proof.
  unfold sweep_once. eapply spec_then; [by apply spec_establish_floor|]. intros floor m1 _ _.
  eapply spec_then; [by apply spec_sweep_expired_leases|]. intros l m2 _ _.
  eapply spec_then; [by apply spec_sweep_delayed|]. intros d m3 _ _. apply spec_skip.
Qed.

Lemma spec_run_sweeper turns m : spec (run_sweeper q turns) m trivial.
Proof.
  revert m. induction turns as [|[[] w] turns IH]; intros m; cbn [run_sweeper]; try apply spec_skip.
  eapply spec_then.
  { eapply spec_true, spec_with_budget, spec_sweep_once. intros a. apply kept_pure. }
  intros [r b] m1 _ _. eapply spec_then; [destruct r; [apply spec_skip|apply spec_fail]|].
  intros ? m2 _ _. destruct w; [apply spec_skip|apply IH].
Qed.
End Delivery.
