(* ===== verification/Sessions.v ===== *)
(** Pools of clients: any number of them, each running any program over the
    queue's operations with the claims it was handed, in any interleaving and
    against any store that keeps the contract. *)

From Stdlib Require Import Eqdep.
From S2P Require Import Prelude Sha256 StowqMath Keys Records Store Effects Rely Queue Claims Sweeps Repair Worker.
From S2P Require Import Protocol Lifecycle Custody Upkeep Delivery.

(* ------------------------------------------------------------------ *)
(** * Client programs *)

Section Session.
Context `{Sha256} (q : Queue) (hash_order : list bytes -> list bytes).

Definition nothing {A} (_ : A) : list Claim := [].
Definition of_claim (r : ClaimOutcome) : list Claim := match r with Claimed c => [c] | Empty => [] end.
Definition of_renew (r : RenewOutcome) : list Claim := match r with Renewed c => [c] | LeaseLost => [] end.

(** The operations a holder of the claims [cs] may call, and the claims
    each result hands out. *)
Inductive may_call (cs : list Claim) : forall A, M A -> (A -> list Claim) -> Prop :=
| mc_enqueue i : input_ok i -> may_call cs _ (enqueue q i) nothing
| mc_claim_many o n : options_ok o -> may_call cs _ (claim_many q o n) id
| mc_claim o : options_ok o -> may_call cs _ (claim q o) of_claim
| mc_renew c : c ∈ cs -> may_call cs _ (renew q c) of_renew
| mc_payload c : c ∈ cs -> may_call cs _ (payload c) nothing
| mc_commit_output c name body : may_call cs _ (commit_output q c name body) nothing
| mc_ack c : c ∈ cs -> may_call cs _ (ack q c) nothing
| mc_ack_with_outputs c outs : c ∈ cs -> outputs_ok outs -> may_call cs _ (ack_with_outputs q c outs) nothing
| mc_nack c reason floor : c ∈ cs -> is_u64 reason -> is_u64 floor -> may_call cs _ (nack q c reason floor) nothing
| mc_bury c reason : c ∈ cs -> is_u64 reason -> may_call cs _ (bury q c reason) nothing
| mc_receipt_for c : may_call cs _ (receipt_for q c) nothing
| mc_watermark : may_call cs _ (watermark q) nothing
| mc_watermark_covers b : may_call cs _ (watermark_covers q b) nothing
| mc_establish_floor : may_call cs _ (establish_floor q) nothing
| mc_advance_watermark f : may_call cs _ (advance_watermark q f) nothing
| mc_depth s : may_call cs _ (depth q s) nothing
| mc_sweep_expired_leases f : may_call cs _ (sweep_expired_leases q f) nothing
| mc_sweep_delayed f : may_call cs _ (sweep_delayed q f) nothing
| mc_repair_scan s : may_call cs _ (repair_scan q hash_order s) nothing
| mc_run_delivery run beats wall_ms msg lease ms : executor_ok run -> is_u64 lease ->
    may_call cs _ (run_delivery_with q run beats wall_ms msg lease ms) nothing
| mc_run_batch run beats wall_ms msg lease batch ms : executor_ok run -> is_u64 lease ->
    may_call cs _ (run_batch_with q run beats wall_ms msg lease batch ms) nothing
| mc_run_sweeper turns : may_call cs _ (run_sweeper q turns) nothing.

Inductive session : list Claim -> M unit -> Prop :=
| se_done cs : session cs (mret ())
| se_call cs A (op : M A) handed (k : Result Error A -> M unit) :
    may_call cs A op handed ->
    (forall r, session (match r with Ok a => handed a ++ cs | Err _ => cs end) (k r)) ->
    session cs (try_ op ≫= k).

Context (Hq : handle_ok q).
#[local] Abbreviation spec := (spec (q_root q) (o_queue_id (q_opts q))).
#[local] Abbreviation rely := (rely (q_root q) (o_queue_id (q_opts q))).

Lemma all_held_in cs c m : c ∈ cs -> all_held q cs m -> held q c m.
Proof. unfold all_held. rewrite Forall_forall. auto. Qed.

Lemma spec_nothing {A} (op : M A) m Q : spec op m Q -> spec op m (fun a => all_held q (nothing a)).
Proof. intros Hs. eapply spec_mono; [exact Hs|]. intros. constructor. Qed.

Lemma may_call_spec cs A (op : M A) handed m :
  may_call cs A op handed -> all_held q cs m -> spec op m (fun a => all_held q (handed a)).
Proof.
  intros Hop Hcs. destruct Hop; try (eapply spec_nothing).
  - by apply spec_enqueue.
  - by apply spec_claim_many.
  - eapply spec_mono; [by apply spec_claim|]. intros [c|] m' _ _ Hc; [by constructor|constructor].
  - eapply spec_mono; [apply spec_renew; [done|by eapply all_held_in]|].
    intros [c'|] m' _ _ Hc; [repeat constructor; apply Hc|constructor].
  - eapply spec_payload. by eapply all_held_in.
  - by apply spec_commit_output.
  - apply spec_ack; [done|by eapply all_held_in|]. split; [constructor|]. by vm_compute.
  - apply spec_ack; [done|by eapply all_held_in|done].
  - apply spec_nack; [done|by eapply all_held_in|done..].
  - apply spec_bury; [done|by eapply all_held_in|done].
  - by apply spec_receipt_for.
  - by apply spec_watermark.
  - by apply spec_watermark_covers.
  - by apply spec_establish_floor.
  - by apply spec_advance_watermark.
  - by apply spec_depth.
  - by apply spec_sweep_expired_leases.
  - by apply spec_sweep_delayed.
  - by apply spec_repair_scan.
  - by apply spec_run_delivery_with.
  - by apply spec_run_batch_with.
  - by apply spec_run_sweeper.
Qed.

Lemma spec_session cs x m : session cs x -> all_held q cs m -> spec x m trivial.
Proof.
  intros Hx. revert m. induction Hx as [cs|cs A op handed k Hop _ IH]; intros m Hcs; [apply spec_skip|].
  eapply spec_bind; [apply spec_try; [|by eapply may_call_spec]|].
  { intros a. apply kept_all_held. }
  intros r m' Hm' _ Hr. apply IH. pose proof (kept_all_held q cs m m' Hm' Hcs) as Hcs'.
  destruct r as [a|e]; [|done]. by apply Forall_app.
Qed.
End Session.

(* ------------------------------------------------------------------ *)
(** * Pools *)

Section Pools.
Context `{Sha256} (root qid : bytes).
#[local] Abbreviation rely := (rely root qid).
#[local] Abbreviation Inv := (Inv root qid).
#[local] Abbreviation exec := (exec rely).

(** A client of the queue: a handle of its own (worker, skew guard, retry
    policy), in any state, and a session on it. *)
Inductive member : client -> Prop :=
| member_session q hash_order x s :
    handle_ok q -> q_root q = root -> o_queue_id (q_opts q) = qid ->
    session q hash_order [] x -> cached_ok s -> member (Client (x s)).

Lemma member_verified m c : Inv m -> member c -> verified rely m c.
Proof.
  intros HI [q ho x s Hq <- <- Hx Hs]. cbn [verified]. eapply wp_mono; [|apply (spec_session q ho Hq [] x m Hx)].
  - done.
  - constructor.
  - exact HI.
  - exact Hs.
Qed.

Lemma members_verified m cs : Inv m -> Forall member cs -> Forall (verified rely m) cs.
Proof. intros HI Hcs. eapply Forall_impl; [exact Hcs|]. intros c. by apply member_verified. Qed.

(** What one client of a pool does is an [exec] of its program under the
    others' interference. *)
Lemma pool_exec_step cm cm' i A (p : prog A) :
  pool_step cm cm' -> Forall (verified rely cm.2) cm.1 -> cm.1 !! i = Some (Client p) ->
  exists p', cm'.1 !! i = Some (Client p') /\
    forall a m2, exec p' cm'.2 a m2 -> exec p cm.2 a m2.
Proof.
  intros [B r r' l1 l2 m m' Hs] Hv Hi. cbn [fst snd] in *.
  apply Forall_app in Hv as [_ [Hr _]%Forall_cons].
  destruct (decide (i = length l1)) as [->|Hne].
  - rewrite list_lookup_middle in Hi by done. injection Hi as HA Hp. subst B.
    apply inj_pair2 in Hp as ->. exists r'. rewrite list_lookup_middle by done.
    split; [done|]. intros a m2 Ha. destruct p as [b|[c| |] k]; cbn [client_step] in Hs; [done| | |].
    + destruct Hs as (x & Hc & ->). by eapply ex_store.
    + destruct Hs as (t & Ht & -> & ->). by eapply ex_token.
    + destruct Hs as (t & Ht & -> & ->). by eapply ex_elapsed.
  - exists p. split.
    + rewrite <- Hi. destruct (decide (i < length l1)%nat) as [Hlt|Hge].
      * by rewrite !lookup_app_l.
      * rewrite !lookup_app_r by lia. destruct (i - length l1)%nat eqn:E; [lia|done].
    + intros a m2 Ha. eapply ex_env; [|exact Ha]. eapply client_step_wp; [apply _|exact Hs|exact Hr].
Qed.

Lemma pool_exec cm cm' i A (p : prog A) :
  rtc pool_step cm cm' -> Forall (verified rely cm.2) cm.1 -> cm.1 !! i = Some (Client p) ->
  exists p', cm'.1 !! i = Some (Client p') /\ forall a m2, exec p' cm'.2 a m2 -> exec p cm.2 a m2.
Proof.
  intros Hs. revert p. induction Hs as [cm|cm cm1 cm2 Hs Hss IH]; intros p Hv Hi; [eauto|].
  destruct (pool_exec_step cm cm1 i A p Hs Hv Hi) as (p1 & Hi1 & He1).
  destruct (pool_invariant_aux rely cm cm1 (rtc_once _ _ Hs) Hv) as [_ Hv1].
  destruct (IH p1 Hv1 Hi1) as (p2 & Hi2 & He2). exists p2. split; [done|]. auto.
Qed.
End Pools.

(* ------------------------------------------------------------------ *)
(** * Histories *)

Section Histories.
Context `{Sha256} (root qid : bytes).
#[local] Abbreviation Inv := (Inv root qid).
#[local] Abbreviation at_key := (at_key root).
#[local] Abbreviation decode_key := (decode_key qid).

(** A queue's space after [init]: at most the FORMAT object. *)
Definition fresh (m : Space) : Prop :=
  forall s e, m !! (root ++ s) = Some e -> s = key_to_string KFormat /\ is_u64 (e_time e).

(** The spaces that any pool of clients can reach. *)
Definition reachable (m : Space) : Prop :=
  exists m0 cs cs', fresh m0 /\ Forall (member root qid) cs /\ rtc pool_step (cs, m0) (cs', m).

Lemma fresh_inv m : fresh m -> Inv m.
Proof.
  intros Hf. split.
  - intros k e Hk He. destruct (Hf _ _ He) as [Ek Ht]. split; [done|].
    by apply key_to_string_inj in Ek as ->.
  - intros s e He Hs. destruct (Hf _ _ He) as [-> _]. by exists KFormat.
Qed.

Lemma pool_inv m0 cs cs' m :
  Inv m0 -> Forall (member root qid) cs -> rtc pool_step (cs, m0) (cs', m) ->
  rely root qid m0 m /\ Inv m /\ Forall (verified (rely root qid) m) cs'.
Proof.
  intros HI Hcs Hs. pose proof (members_verified root qid m0 cs HI Hcs) as Hv.
  destruct (pool_invariant_aux (rely root qid) _ _ Hs Hv) as [Hr Hv'].
  split; [done|]. split; [by apply Hr|done].
Qed.

Lemma reachable_inv m : reachable m -> Inv m.
Proof. intros (m0 & cs & cs' & Hf%fresh_inv & Hcs & Hs). by eapply pool_inv. Qed.

(** The claim record of a generation, as a reader of the space finds it. *)
Definition claim_of (m : Space) (s : Z) (j : bytes) (g : Z) : option ClaimRecord :=
  match m !! at_key (KClaim s j g) with
  | Some e => match decode_key (KClaim s j g) (e_body e) with Ok (RecClaim c) => Some c | _ => None end
  | None => None
  end.
Definition job_of (m : Space) (s : Z) (j : bytes) : option JobRecord :=
  match m !! at_key (KJob s j) with
  | Some e => match decode_key (KJob s j) (e_body e) with Ok (RecJob r) => Some r | _ => None end
  | None => None
  end.

Lemma claim_of_some m s j g c : claim_of m s j g = Some c ->
  exists e, m !! at_key (KClaim s j g) = Some e /\ decode_key (KClaim s j g) (e_body e) = Ok (RecClaim c).
Proof.
  unfold claim_of. destruct (m !! _) as [e|]; [|done]. intros Hc. exists e. split; [done|].
  destruct (decode_key _ _) as [[]|]; by simplify_eq.
Qed.
Lemma claim_of_holds m s j g e c : m !! at_key (KClaim s j g) = Some e ->
  decode_key (KClaim s j g) (e_body e) = Ok (RecClaim c) -> claim_of m s j g = Some c.
Proof. intros He Hd. unfold claim_of. by rewrite He, Hd. Qed.
Lemma job_of_holds m s j P : holds_at root qid m (KJob s j) P ->
  (forall e r, P e r -> exists jr, r = RecJob jr) -> exists e jr, job_of m s j = Some jr /\ P e (RecJob jr).
Proof.
  intros (e & r & He & Hd & HP) Hj. destruct (Hj _ _ HP) as [jr ->]. exists e, jr.
  unfold job_of. by rewrite He, Hd.
Qed.

Lemma claim_of_ok m s j g c : Inv m -> key_wf (KClaim s j g) -> claim_of m s j g = Some c ->
  claim_ok root qid m s j g c.
Proof.
  intros [HI _] Hk (e & He & Hd)%claim_of_some. destruct (HI _ e Hk He) as [_ (c' & Hd' & Hc)].
  rewrite Hd in Hd'. by injection Hd' as <-.
Qed.

(** One step down the chain. *)
Lemma claim_of_pred m s j g c : Inv m -> key_wf (KClaim s j g) -> claim_of m s j g = Some c -> 1 < g ->
  exists e p, m !! at_key (KClaim s j (g - 1)) = Some e /\ claim_of m s j (g - 1) = Some p /\
    follows c e (RecClaim p) /\ key_wf (KClaim s j (g - 1)).
Proof.
  intros HI Hk Hc Hg. destruct (claim_of_ok m s j g c HI Hk Hc) as (_ & _ & _ & _ & _ & Hp).
  destruct (Hp Hg) as (e & r & He & Hd & p & -> & Hf). exists e, p. split; [done|].
  split; [by eapply claim_of_holds|]. split; [by exists p|].
  destruct Hk as (? & ? & ?). split_and!; [done..|]. unfold is_u32 in *. lia.
Qed.

(** The claim records of the generations up to [g] that opened a new
    custody rather than continued one. *)
Fixpoint custodies (m : Space) (s : Z) (j : bytes) (g : nat) : Z :=
  match g with
  | O => 0
  | S n => custodies m s j n +
           match claim_of m s j (Z.of_nat g) with
           | Some c => if c_continuation c then 0 else 1
           | None => 0
           end
  end.

Lemma custodies_bound m s j g : 0 <= custodies m s j g <= Z.of_nat g.
Proof.
  induction g as [|n IH]; [done|]. cbn [custodies].
  destruct (claim_of _ _ _ _) as [c|]; [destruct (c_continuation c)|]; lia.
Qed.

Lemma attempts_count_aux m s j n c : Inv m -> key_wf (KClaim s j (Z.of_nat (S n))) ->
  claim_of m s j (Z.of_nat (S n)) = Some c ->
  c_attempt c = custodies m s j (S n) /\ 1 <= c_attempt c.
Proof.
  intros HI. revert c. induction n as [|n IH]; intros c Hk Hc.
  - destruct (claim_of_ok m s j _ c HI Hk Hc) as (_ & _ & _ & _ & H1 & _).
    destruct (H1 eq_refl) as [Hcont Ha]. cbn [custodies]. rewrite Hc, Hcont, Ha. lia.
  - destruct (claim_of_pred m s j _ c HI Hk Hc ltac:(lia)) as (e & p & _ & Hp & (p' & E & _ & Ha) & Hk').
    injection E as <-. replace (Z.of_nat (S (S n)) - 1) with (Z.of_nat (S n)) in Hp, Hk' by lia.
    destruct (IH p Hk' Hp) as [Hap H1]. pose proof (custodies_bound m s j (S n)) as Hb.
    change (custodies m s j (S (S n))) with (custodies m s j (S n) +
      match claim_of m s j (Z.of_nat (S (S n))) with Some c => if c_continuation c then 0 else 1 | None => 0 end).
    rewrite Hc. destruct Hk as (_ & _ & Hu). unfold is_u32 in Hu.
    destruct (c_continuation c); [lia|]. unfold wrapping_add in Ha. rewrite Z.mod_small in Ha by lia. lia.
Qed.
End Histories.
