(* ===== verification/Runs.v ===== *)
(** Runs against a concrete store as executions of the concurrent semantics,
    and a client's session run on the memory store: the state the witnesses
    of the protocol's theorems speak of. *)

From S2P Require Import Prelude Sha256 StowqMath Keys Records Store Memory Effects Rely Queue Claims Repair Samples.
From S2P Require Import Budget Protocol Lifecycle Custody Sessions.

Section Runs.
Context `{HS : Sha256} {S : Type} `{O : ObjectStore S, !StoreLaws S}.

(** A world whose entropy and clock keep their types, and whose store can
    serve [n] more calls. *)
Definition world_ok (n : nat) (w : World S) : Prop :=
  store_inv n (w_store w) /\ (forall i, is_id (w_tokens w i)) /\ (forall i, is_u64 (w_clock w i)).

Lemma run_eff_ok e (w : World S) n a w' :
  run_eff e w = (a, w') -> world_ok (match e with EStore _ => 1 | _ => 0 end + n)%nat w -> world_ok n w'.
Proof.
  intros E (Hi & Ht & Hc). destruct e as [c| |]; cbn in E.
  - pose proof (store_step_inv n c (w_store w) Hi) as Hn. destruct (store_step c (w_store w)) as [x s].
    injection E as <- <-. by split.
  - injection E as <- <-. by split.
  - injection E as <- <-. by split.
Qed.

Lemma run_ok {A} (p : prog A) w n : world_ok (run_calls p w + n)%nat w -> world_ok n (run p w).2.
Proof.
  revert w. induction p as [a|e k IH]; intros w Hw; [done|].
  cbn [run run_calls] in *. destruct (run_eff e w) as [x w'] eqn:E. apply IH.
  apply (run_eff_ok e w _ x w' E). by rewrite Nat.add_assoc.
Qed.

(** The entropy source and the clock are not a program's to change. *)
Lemma run_sources {A} (p : prog A) (w : World S) :
  w_tokens (run p w).2 = w_tokens w /\ w_clock (run p w).2 = w_clock w.
Proof.
  revert w. induction p as [a|e k IH]; intros w; [done|]. cbn [run].
  assert (w_tokens (run_eff e w).2 = w_tokens w /\ w_clock (run_eff e w).2 = w_clock w) as Hw.
  { destruct e as [c| |]; cbn; [by destruct (store_step c (w_store w))|done|done]. }
  destruct (run_eff e w) as [x w']. destruct (IH x w') as [-> ->]. exact Hw.
Qed.

Lemma run_exec rely `{!PreOrder rely} {A} (p : prog A) w :
  world_ok (run_calls p w) w ->
  exec rely p (store_view (w_store w)) (run p w).1 (store_view (w_store (run p w).2)).
Proof.
  revert w. induction p as [a|e k IH]; intros w Hw; [apply ex_ret|].
  cbn [run run_calls] in *. destruct (run_eff e w) as [x w'] eqn:E.
  pose proof (run_eff_ok e w _ x w' E Hw) as Hw'. specialize (IH x w' Hw').
  destruct Hw as (Hi & Ht & Hc). destruct e as [c| |]; cbn in E.
  - pose proof (store_step_contract _ c (w_store w) Hi) as Hx.
    destruct (store_step c (w_store w)) as [y s]. injection E as <- <-. by eapply ex_store.
  - injection E as <- <-. by eapply ex_token.
  - injection E as <- <-. by eapply ex_elapsed.
Qed.

Lemma run_pool {A} (p : prog A) w l1 l2 :
  world_ok (run_calls p w) w ->
  rtc pool_step (l1 ++ Client p :: l2, store_view (w_store w))
    (l1 ++ Client (Ret (run p w).1) :: l2, store_view (w_store (run p w).2)).
Proof.
  revert w. induction p as [a|e k IH]; intros w Hw; [apply rtc_refl|].
  cbn [run run_calls] in *. destruct (run_eff e w) as [x w'] eqn:E.
  pose proof (run_eff_ok e w _ x w' E Hw) as Hw'. specialize (IH x w' Hw').
  eapply rtc_l; [|exact IH]. constructor. destruct Hw as (Hi & Ht & Hc). destruct e as [c| |]; cbn in E.
  - pose proof (store_step_contract _ c (w_store w) Hi) as Hx.
    destruct (store_step c (w_store w)) as [y s]. injection E as <- <-. by exists y.
  - injection E as <- <-. by exists (w_tokens w (w_next_token w)).
  - injection E as <- <-. by exists (w_clock w (w_next_reading w)).
Qed.
End Runs.

(* ------------------------------------------------------------------ *)
(** * A session on the memory store *)

Section Sample.
#[local] Existing Instance toy_digest.
#[local] Existing Instance memory_store.
#[local] Existing Instance memory_laws.

Lemma sample_handle : handle_ok sample_queue.
Proof. split_and!; by vm_compute. Qed.
Lemma sample_input_ok : input_ok sample_input.
Proof.
  split; [|split; [by vm_compute|split; [by vm_compute|split; [by vm_compute|]]]].
  - intros j E. assert (j = vector_job_id) as -> by (injection E; done). reflexivity.
  - discriminate.
Qed.
Lemma sample_claim_options_ok : options_ok sample_claim_options.
Proof. split; by vm_compute. Qed.

(** Enqueue a job, claim it, renew the claim. *)
Definition sample_session : M unit :=
  try_ (enqueue sample_queue sample_input) ≫= fun _ =>
  try_ (claim sample_queue sample_claim_options) ≫= fun r =>
  match r with
  | Ok (Claimed c) => try_ (renew sample_queue c) ≫= fun _ => mret ()
  | _ => mret ()
  end.

Lemma sample_session_ok : session sample_queue id [] sample_session.
Proof.
  eapply se_call; [apply mc_enqueue, sample_input_ok|]. intros r1.
  eapply se_call; [apply mc_claim, sample_claim_options_ok|]. intros r2.
  destruct r2 as [[c|]|]; try apply se_done.
  eapply se_call; [apply mc_renew; by left|]. intros r3. apply se_done.
Qed.

(** A second client, with a handle of its own: enqueue another job, claim it
    and acknowledge it. *)
Definition sample_queue2 : Queue :=
  {| q_root := q_root sample_queue;
     q_opts := {| o_queue_id := vector_queue; o_worker_id := ¶"worker-2"; o_retry := o_retry sample_options;
                  o_skew_guard_ns := 0; o_max_inline_payload := 65536 |};
     q_format := sample_format |}.
Definition sample_job2 : bytes := replicate 16 (byte_of 9).
Definition sample_input2 : EnqueueInput :=
  {| ei_job_id := Some sample_job2; ei_payload := replicate 70 (byte_of 7); ei_content_type := ¶"text/plain";
     ei_maximum_attempts := 1; ei_not_before_ns := None |}.

Definition sample_session2 : M unit :=
  try_ (enqueue sample_queue2 sample_input2) ≫= fun _ =>
  try_ (claim sample_queue2 sample_claim_options) ≫= fun r =>
  match r with
  | Ok (Claimed c) => try_ (ack sample_queue2 c) ≫= fun _ => mret ()
  | _ => mret ()
  end.

Lemma sample_handle2 : handle_ok sample_queue2.
Proof. split_and!; by vm_compute. Qed.
Lemma sample_input2_ok : input_ok sample_input2.
Proof.
  split; [|split; [by vm_compute|split; [by vm_compute|split; [by vm_compute|]]]].
  - intros j E. assert (j = sample_job2) as -> by (injection E; done). reflexivity.
  - discriminate.
Qed.

Lemma sample_session2_ok : session sample_queue2 id [] sample_session2.
Proof.
  eapply se_call; [apply mc_enqueue, sample_input2_ok|]. intros r1.
  eapply se_call; [apply mc_claim, sample_claim_options_ok|]. intros r2.
  destruct r2 as [[c|]|]; try apply se_done.
  eapply se_call; [apply mc_ack; by left|]. intros r3. apply se_done.
Qed.

Lemma sample_world_ok n : (n <= 4200)%nat -> world_ok n sample_world.
Proof.
  intros Hn. split; [|split].
  - split; [|by apply map_Forall_empty]. unfold room. cbn [w_store sample_world fresh_store version_counter clock tick_step_ns]. lia.
  - intros i. apply be_bytes_length.
  - intros i. cbn [w_clock sample_world]. unfold is_u64.
    pose proof (Z.mod_pos_bound (Z.of_nat i) (2 ^ 64) ltac:(lia)). lia.
Qed.

Lemma world_ok_le n k (w : World MemoryStore) : world_ok k w -> (n <= k)%nat -> world_ok n w.
Proof.
  intros [Hs Hw] Hle. split; [|done]. induction Hle as [|k Hle IH]; [done|]. by apply IH, store_inv_weaken.
Qed.

Definition client1 := sample_session (fresh_handle 64).
Definition client2 := sample_session2 (fresh_handle 64).

(** The world after a program: its objects, evaluated, and its counters. *)
Definition world_with (objs : list (bytes * Stored)) (version clk : Z) (tokens readings : nat) : World MemoryStore :=
  {| w_store := {| objects := list_to_map objs; version_counter := version; clock := clk; tick_step_ns := 1 |};
     w_tokens := w_tokens sample_world; w_clock := w_clock sample_world;
     w_next_token := tokens; w_next_reading := readings |}.
Definition objects_after {A} (p : prog A) (w : World MemoryStore) : list (bytes * Stored) :=
  map_to_list (objects (w_store (run p w).2)).
Definition sample_objects1 := Eval vm_compute in objects_after client1 sample_world.
Definition sample_world1 : World MemoryStore := world_with sample_objects1 7 7 1 0.
Definition sample_objects2 := Eval vm_compute in objects_after client2 sample_world1.
Definition sample_world2 : World MemoryStore := world_with sample_objects2 15 15 3 1.
Definition sample_start : Space := store_view (w_store sample_world).
Definition sample_space : Space := store_view (w_store sample_world1).
Definition sample_space2 : Space := store_view (w_store sample_world2).

Lemma sample_fresh : fresh (q_root sample_queue) sample_start.
Proof. intros s e He. cbn in He. by apply lookup_fmap_Some in He as (x & _ & Hx%lookup_empty_Some). Qed.

Lemma fresh_cached n : cached_ok (fresh_handle n).
Proof. done. Qed.

Lemma sample_members : Forall (member (q_root sample_queue) vector_queue) [Client client1; Client client2].
Proof.
  constructor; [|constructor; [|constructor]].
  - by apply (member_session _ _ sample_queue id _ _ sample_handle); [..|apply sample_session_ok|].
  - by apply (member_session _ _ sample_queue2 id _ _ sample_handle2); [..|apply sample_session2_ok|].
Qed.

(** What a run leaves: its result, its world and the calls it made. *)
Definition ends {A} (p : prog (Result Stop A * HState)) (w : World MemoryStore) (r : Result Stop A)
    (n : nat) (w' : World MemoryStore) : Prop :=
  (run p w).1.1 = r /\ (run p w).2 = w' /\ run_calls p w = n.

Definition counters (w : World MemoryStore) : Z * Z * Z * nat * nat :=
  (version_counter (w_store w), clock (w_store w), tick_step_ns (w_store w), w_next_token w, w_next_reading w).

(** An evaluation of a run. *)
Lemma ends_with {A} (p : prog (Result Stop A * HState)) w r n objs v c t k :
  w_tokens w = w_tokens sample_world -> w_clock w = w_clock sample_world ->
  (let '((x, _), w') := run p w in
   (x, counters w', bool_decide (objects (w_store w') = list_to_map objs), run_calls p w)) =
   (r, (v, c, 1, t, k), true, n) ->
  ends p w r n (world_with objs v c t k).
Proof.
  pose proof (run_sources p w) as [Ht Hc]. intros Ht' Hc'. unfold ends.
  destruct (run p w) as [[x s] [[o v1 c1 ts] tk1 cl1 t1 k1]]. cbn -[bool_decide] in *.
  intros [= -> -> -> -> -> -> Ho <-]. apply bool_decide_eq_true in Ho as ->. unfold world_with. by rewrite Ht, Hc, Ht', Hc'.
Qed.

Lemma ends1 : ends client1 sample_world (Ok tt) 17 sample_world1.
Proof. apply ends_with; [done|done|]. vm_compute. reflexivity. Qed.
Lemma ends2 : ends client2 sample_world1 (Ok tt) 19 sample_world2.
Proof. apply ends_with; [done|done|]. vm_compute. reflexivity. Qed.

Lemma ends_ok {A} (p : prog (Result Stop A * HState)) w r n w' k :
  ends p w r n w' -> world_ok (n + k) w -> world_ok k w'.
Proof. intros (_ & <- & <-) Hw. by apply run_ok. Qed.

Lemma ends_pool {A} (p : prog (Result Stop A * HState)) w r n w' l1 l2 :
  ends p w r n w' -> world_ok n w -> exists s : HState,
  rtc pool_step (l1 ++ Client p :: l2, store_view (w_store w)) (l1 ++ Client (Ret (r, s)) :: l2, store_view (w_store w')).
Proof.
  intros (<- & <- & <-) Hw. exists (run p w).1.2. rewrite <- surjective_pairing. by apply run_pool.
Qed.

Lemma ends_exec rely `{!PreOrder rely} {A} (p : prog (Result Stop A * HState)) w r n w' :
  ends p w r n w' -> world_ok n w -> exists s : HState,
  exec rely p (store_view (w_store w)) (r, s) (store_view (w_store w')).
Proof.
  intros (<- & <- & <-) Hw. exists (run p w).1.2. rewrite <- surjective_pairing. by apply run_exec.
Qed.

Lemma sample_pool1 : exists s : HState,
  rtc pool_step ([Client client1; Client client2], sample_start)
    ([Client (Ret (@Ok Stop unit tt, s)); Client client2], sample_space).
Proof. apply (ends_pool client1 _ _ _ _ [] [Client client2] ends1). apply sample_world_ok. lia. Qed.

Lemma sample_pool2 (s : HState) : exists s' : HState,
  rtc pool_step ([Client (Ret (@Ok Stop unit tt, s)); Client client2], sample_space)
    ([Client (Ret (@Ok Stop unit tt, s)); Client (Ret (@Ok Stop unit tt, s'))], sample_space2).
Proof.
  apply (ends_pool client2 _ _ _ _ [Client (Ret (@Ok Stop unit tt, s))] [] ends2).
  apply (ends_ok _ _ _ _ _ 19 ends1), sample_world_ok. lia.
Qed.

Lemma sample_reachable : reachable (q_root sample_queue) vector_queue sample_space2.
Proof.
  destruct sample_pool1 as [s H1], (sample_pool2 s) as [s' H2].
  eexists sample_start, _, _. split; [exact sample_fresh|]. split; [exact sample_members|].
  etrans; [exact H1|exact H2].
Qed.

(** The second generation of the first job: its renewal. *)
Definition sample_renewal : ClaimRecord :=
  {| c_job_id := vector_job_id; c_generation := 2; c_attempt := 1; c_worker_id := ¶"worker-1";
     c_worker_token := be_bytes 16 1; c_lease_duration_ns := 60; c_continuation := true;
     c_basis := None; c_prev_token := Some (be_bytes 16 1) |}.
End Sample.
