(* ===== verification/Histories.v ===== *)
(** What holds of a queue's space in every history: whatever pool of clients
    ran on it, interleaved in whatever way, against whatever answers the
    store contract allows. *)

From S2P Require Import Prelude Sha256 StowqMath Keys Records Direct Store Memory Effects Rely Queue Claims Repair Samples.
From S2P Require Import Budget Protocol Lifecycle Custody Sessions Runs.

Section Histories.
Context `{HS : Sha256} (root qid : bytes).
#[local] Abbreviation Inv := (Inv root qid).
#[local] Abbreviation reachable := (reachable root qid).
#[local] Abbreviation claim_of := (claim_of root qid).
#[local] Abbreviation job_of := (job_of root qid).

(** C1: From a fresh queue, whatever any number of clients do in whatever
    interleaving, and whatever faults the store answers with, every object
    stays what its key says, with the records it refers to in place; and
    whatever authoritative object a reachable state holds (a job, payload,
    claim, fail, receipt, dead, quarantine or output object, or FORMAT), every
    later state holds unchanged. *)
Theorem pool_safety (m0 m1 m2 : Space) (cs cs1 cs2 : list client)
  (Hf : fresh root m0) (Hc : Forall (member root qid) cs)
  (H1 : rtc pool_step (cs, m0) (cs1, m1)) (H2 : rtc pool_step (cs1, m1) (cs2, m2)) :
  Inv m2 /\ frozen root m1 m2.
Proof.
  destruct (pool_inv root qid m0 cs cs1 m1 (fresh_inv root qid m0 Hf) Hc H1) as (_ & HI & Hv).
  destruct (pool_invariant_aux (rely root qid) _ _ H2 Hv) as [[Hfr Hi] _]. split; [by apply Hi|done].
Qed.

(** C2: A job's claims are a chain without gaps: in every reachable state,
    below every generation there is every other down to the first, and each
    is admissible on the one before it by the auditor's own check. *)
Theorem chain_contiguous (m : Space) (s : Z) (j : bytes) (g : Z) (c : ClaimRecord)
  (Hr : reachable m) (Hk : key_wf (KClaim s j g)) (Hc : claim_of m s j g = Some c) :
  1 <= g /\ c_generation c = g /\
  forall g', 1 <= g' < g -> exists e prev next,
    m !! at_key root (KClaim s j g') = Some e /\ claim_of m s j g' = Some prev /\
    claim_of m s j (g' + 1) = Some next /\ admissible next prev (meta_of e) = true.
Proof.
  apply reachable_inv in Hr. destruct (claim_of_ok root qid m s j g c Hr Hk Hc) as (_ & Hg & H1 & _).
  split; [done|]. split; [done|]. clear Hg. remember (Z.to_nat g) as n eqn:En.
  revert g c Hk Hc H1 En. induction n as [|n IH]; intros g c Hk Hc H1 En g' Hg'; [lia|].
  destruct (claim_of_pred root qid m s j g c Hr Hk Hc ltac:(lia))
    as (e & p & He & Hp & (p' & E & Had & _) & Hk'). injection E as <-.
  destruct (decide (g' = g - 1)) as [->|Hne].
  - exists e, p, c. replace (g - 1 + 1) with g by lia. done.
  - destruct (claim_of_ok root qid m s j _ p Hr Hk' Hp) as (_ & _ & H1' & _).
    apply (IH (g - 1) p Hk' Hp H1'); lia.
Qed.

(** C3: Attempts are counted right: in every reachable state the attempt of
    a claim is the number of custodies its chain holds (the first claim and
    every takeover; renewals continue a custody), and never exceeds the job's
    maximum. *)
Theorem attempts_counted (m : Space) (s : Z) (j : bytes) (g : Z) (c : ClaimRecord)
  (Hr : reachable m) (Hk : key_wf (KClaim s j g)) (Hc : claim_of m s j g = Some c) :
  c_attempt c = custodies root qid m s j (Z.to_nat g) /\
  exists r, job_of m s j = Some r /\ 1 <= c_attempt c <= j_maximum_attempts r.
Proof.
  apply reachable_inv in Hr. destruct (claim_of_ok root qid m s j g c Hr Hk Hc) as (_ & _ & Hg & Hj & _).
  destruct (Z.to_nat g) as [|n] eqn:En; [lia|].
  replace g with (Z.of_nat (S n)) in Hk, Hc by lia.
  destruct (attempts_count_aux root qid m s j n c Hr Hk Hc) as [Ha H1]. split; [done|].
  apply job_of_holds in Hj as (e & r & Hjr & j' & E & Hmax); [|intros ? ? (x & -> & _); eauto].
  injection E as <-. by exists r.
Qed.

(** C14: Terminal records are evidence: in every reachable state a receipt
    names a generation whose claim record carries the same worker, token and
    attempt, and the digest of the job's payload; a dead record names a
    generation whose claim record carries the same attempt. *)
Theorem terminal_backed (m : Space) (s : Z) (j : bytes) (e : Entry)
  (Hr : reachable m) (Hs : is_u16 s) (Hj : is_id j) :
  (m !! at_key root (KReceipt s j) = Some e ->
   exists r c job, decode_key qid (KReceipt s j) (e_body e) = Ok (RecReceipt r) /\
     claim_of m s j (r_generation r) = Some c /\ c_worker_id c = r_worker_id r /\
     c_worker_token c = r_worker_token r /\ c_attempt c = r_attempt r /\
     job_of m s j = Some job /\ r_payload_digest r = j_payload_digest job) /\
  (m !! at_key root (KDead s j) = Some e ->
   exists d c, decode_key qid (KDead s j) (e_body e) = Ok (RecDead d) /\
     claim_of m s j (d_generation d) = Some c /\ c_attempt c = d_attempt d).
Proof.
  apply reachable_inv in Hr as [HI _]. split; intros He.
  - destruct (HI (KReceipt s j) e (conj Hs Hj) He)
      as (_ & r & Hd & _ & (ec & rc & Hec & Hdc & c & -> & Hat & Htok & Hw) & Hjob).
    apply job_of_holds in Hjob as (ej & jr & Hjr & x & E & Hdig); [|intros ? ? (x & -> & _); eauto].
    injection E as <-. exists r, c, jr. split_and!; try done. by eapply claim_of_holds.
  - destruct (HI (KDead s j) e (conj Hs Hj) He)
      as (_ & d & Hd & _ & (ec & rc & Hec & Hdc & c & -> & Hat)).
    exists d, c. split_and!; try done. by eapply claim_of_holds.
Qed.

(** C15: No job points at a missing payload: in every reachable state a
    detached job's payload object is at the key the record names, and its
    bytes have the job's digest; an inline payload has it too. *)
Theorem payload_present (m : Space) (s : Z) (j : bytes) (r : JobRecord)
  (Hr : reachable m) (Hs : is_u16 s) (Hj : is_id j) (Hjob : job_of m s j = Some r) :
  match j_payload_inline r with
  | Some b => sha256 b = j_payload_digest r
  | None => exists k e, j_payload_key r = Some k /\ m !! (root ++ k) = Some e /\
              sha256 (e_body e) = j_payload_digest r
  end.
Proof.
  apply reachable_inv in Hr as [HI _]. unfold Sessions.job_of in Hjob.
  destruct (m !! at_key root (KJob s j)) as [e|] eqn:He; [|done].
  destruct (HI (KJob s j) e (conj Hs Hj) He) as (_ & r' & Hd & Hid & _ & Hin & Hdet).
  rewrite Hd in Hjob. injection Hjob as ->.
  destruct (j_payload_inline r) as [b|] eqn:Ei; [by apply Hin|].
  destruct (decode_record_canonical_aux _ _ _ _ Hd) as (_ & (_ & _ & _ & _ & _ & Hdig & _) & Hval).
  cbn in Hval. rewrite Ei in Hval. destruct (j_payload_key r) as [k|] eqn:Ek.
  - destruct (Hdet k eq_refl) as [-> [ep Hep]]. exists (key_to_string (KPayload j (j_payload_digest r))), ep.
    split; [done|]. split; [done|]. apply (HI (KPayload j (j_payload_digest r)) ep); [|done]. by split.
  - exfalso. destruct Hval as [_ Hval]. by destruct (Hval eq_refl).
Qed.
End Histories.

(* ------------------------------------------------------------------ *)
(** * The sample history *)

Section Witnesses.
#[local] Existing Instance toy_digest.
#[local] Abbreviation root := (q_root sample_queue).
#[local] Abbreviation qid := vector_queue.

Lemma pool_safety_witness :
  fresh root sample_start /\ Inv root qid sample_space2 /\ frozen root sample_space sample_space2.
Proof.
  split; [exact sample_fresh|]. destruct sample_pool1 as [s1 H1], (sample_pool2 s1) as [s2 H2].
  exact (pool_safety root qid _ _ _ _ _ _ sample_fresh sample_members H1 H2).
Defined.

Lemma sample_chain : claim_of root qid sample_space2 0 vector_job_id 2 = Some sample_renewal.
Proof. vm_compute. reflexivity. Qed.
Lemma sample_claim_key : key_wf (KClaim 0 vector_job_id 2).
Proof. split; [by vm_compute|]. split; by vm_compute. Qed.

Lemma chain_contiguous_witness :
  claim_of root qid sample_space2 0 vector_job_id 2 = Some sample_renewal /\
  exists e prev, sample_space2 !! at_key root (KClaim 0 vector_job_id 1) = Some e /\
    claim_of root qid sample_space2 0 vector_job_id 1 = Some prev /\
    admissible sample_renewal prev (meta_of e) = true.
Proof.
  split; [exact sample_chain|].
  destruct (chain_contiguous root qid sample_space2 0 vector_job_id 2 sample_renewal
    sample_reachable sample_claim_key sample_chain) as (_ & _ & Hg).
  destruct (Hg 1 ltac:(lia)) as (e & p & n & He & Hp & Hn & Ha). exists e, p.
  split; [exact He|]. split; [exact Hp|]. change (1 + 1) with 2 in Hn. rewrite sample_chain in Hn.
  injection Hn as <-. exact Ha.
Defined.

Lemma attempts_counted_witness :
  claim_of root qid sample_space2 0 vector_job_id 2 = Some sample_renewal /\
  custodies root qid sample_space2 0 vector_job_id 2 = 1.
Proof.
  split; [exact sample_chain|].
  destruct (attempts_counted root qid sample_space2 0 vector_job_id 2 sample_renewal
    sample_reachable sample_claim_key sample_chain) as [Ha _]. symmetry. exact Ha.
Defined.

Lemma sample_shard : is_u16 0.
Proof. by vm_compute. Qed.
Lemma sample_job2_id : is_id sample_job2.
Proof. reflexivity. Qed.
Lemma sample_receipt : is_Some (sample_space2 !! at_key root (KReceipt 0 sample_job2)).
Proof. apply (bool_decide_eq_true_1 _). by vm_compute. Qed.

Lemma terminal_backed_witness :
  exists e r, sample_space2 !! at_key root (KReceipt 0 sample_job2) = Some e /\
    decode_key qid (KReceipt 0 sample_job2) (e_body e) = Ok (RecReceipt r) /\
    is_Some (claim_of root qid sample_space2 0 sample_job2 (r_generation r)).
Proof.
  destruct sample_receipt as [e He].
  pose proof (proj1 (terminal_backed root qid sample_space2 0 sample_job2 e sample_reachable
    sample_shard sample_job2_id) He) as (r & c & _ & Hd & Hc & _). exists e, r.
  split; [exact He|]. split; [exact Hd|]. exists c. exact Hc.
Defined.

Definition sample_job2_record : JobRecord :=
  {| j_job_id := sample_job2; j_maximum_attempts := 1; j_content_type := ¶"text/plain";
     j_created_store_time_ns := 0; j_not_before_ns := None;
     j_payload_digest := sha256 (ei_payload sample_input2); j_payload_length := 70;
     j_payload_inline := None;
     j_payload_key := Some (key_to_string (KPayload sample_job2 (sha256 (ei_payload sample_input2)))) |}.

Lemma sample_job2_of : job_of root qid sample_space2 0 sample_job2 = Some sample_job2_record.
Proof. vm_compute. reflexivity. Qed.

Lemma payload_present_witness :
  job_of root qid sample_space2 0 sample_job2 = Some sample_job2_record /\
  exists k e, j_payload_key sample_job2_record = Some k /\ sample_space2 !! (root ++ k) = Some e /\
    sha256 (e_body e) = j_payload_digest sample_job2_record.
Proof.
  split; [exact sample_job2_of|].
  exact (payload_present root qid sample_space2 0 sample_job2 sample_job2_record sample_reachable
    sample_shard sample_job2_id sample_job2_of).
Defined.
End Witnesses.
