(* ===== verification/Outcomes.v ===== *)
(** What each queue operation promises its caller, whatever other clients do
    before, during and after it, and whatever faults the store answers with.
    Every theorem speaks of the space at any later time [m2]: the promises
    are durable. *)

From S2P Require Import Prelude Sha256 StowqMath Keys Records Store Memory Effects Rely Queue Claims Repair Samples.
From S2P Require Import Budget Protocol Lifecycle Custody Sessions Runs.

Section Outcomes.
Context `{HS : Sha256} (q : Queue).
#[local] Abbreviation root := (q_root q).
#[local] Abbreviation qid := (o_queue_id (q_opts q)).
#[local] Abbreviation rely := (rely root qid).
#[local] Abbreviation Inv := (Inv root qid).
#[local] Abbreviation exec := (exec rely).
#[local] Abbreviation claim_of := (claim_of root qid).
#[local] Abbreviation job_of := (job_of root qid).

(** From the specification of an operation to its executions. *)
Lemma spec_outcome {A} (op : M A) m s a s' m1 Q :
  Inv m -> cached_ok s -> spec root qid op m Q -> exec (op s) m (Ok a, s') m1 -> rely m m1 /\ Q a m1.
Proof. intros HI Hs Hop He. destruct (exec_wp _ _ _ _ _ _ He (Hop HI s Hs)) as (Hm & _ & HQ). by split. Qed.

Lemma spec_later {A} (op : M A) m s a s' m1 m2 (Q : A -> Space -> Prop) :
  (forall a, kept rely (Q a)) -> Inv m -> cached_ok s -> spec root qid op m Q ->
  exec (op s) m (Ok a, s') m1 -> rely m1 m2 -> Q a m2 /\ Inv m2.
Proof.
  intros Hk HI Hs Hop He Hm2. destruct (spec_outcome op m s a s' m1 Q HI Hs Hop He) as [Hm1 HQ].
  split; [by eapply Hk|]. by apply Hm2, Hm1.
Qed.

(** What a held claim shows in the space. *)
Lemma held_claim_of cl m : held q cl m -> exists c,
  claim_of m (cl_shard cl) (cl_job_id cl) (cl_generation cl) = Some c /\
  c_worker_token c = cl_worker_token cl /\ c_worker_id c = o_worker_id (q_opts q) /\ c_attempt c = cl_attempt cl.
Proof.
  intros (_ & _ & _ & _ & (e & r & He & Hd & c & -> & Hc) & _). exists c.
  split; [by eapply claim_of_holds|done].
Qed.

Lemma held_key c m : held q c m -> key_wf (KClaim (cl_shard c) (cl_job_id c) (cl_generation c)).
Proof. intros (Hs & Hj & Hg & _). split; [done|]. split; [done|]. unfold is_u32. lia. Qed.

(** C8: An enqueue that returns [Committed] is durable: from then on the job
    record is in the shard the id hashes to and stores the input: attempts,
    content type, delay, payload length and digest, with the payload inline
    or at its content address. *)
Theorem enqueue_durable (i : EnqueueInput) (m m1 m2 : Space) (s s' : HState) (j : bytes)
  (Hq : handle_ok q) (Hi : input_ok i) (HI : Inv m) (Hst : cached_ok s)
  (He : exec (enqueue q i s) m (Ok (EnqCommitted j), s') m1) (Hm : rely m1 m2) :
  is_id j /\ (forall x, ei_job_id i = Some x -> j = x) /\
  exists shard r, compute_shard qid j (Z.max (shard_count (q_format q)) 1) = Some shard /\
    job_of m2 shard j = Some r /\ stores i j (RecJob r).
Proof.
  destruct (spec_later _ _ _ _ _ _ _ _ (kept_enqueue q i) HI Hst (spec_enqueue q Hq i m Hi) He Hm)
    as [(Hj & Hx & sh & Hs & Hr) _].
  split; [done|]. split; [done|]. apply job_of_holds in Hr as (e & r & Hr & Hsto); [|intros ? ? (x & -> & _); eauto].
  by exists sh, r.
Qed.

(** C9: A claim that is handed out is custody: from then on the generation's
    claim record carries the claim's token, this worker and the claim's
    attempt, within the attempts the job allows. *)
Theorem claim_custody (o : ClaimOptions) (m m1 m2 : Space) (s s' : HState) (c : Claim)
  (Hq : handle_ok q) (Ho : options_ok o) (HI : Inv m) (Hst : cached_ok s)
  (He : exec (claim q o s) m (Ok (Claimed c), s') m1) (Hm : rely m1 m2) :
  exists rec job, claim_of m2 (cl_shard c) (cl_job_id c) (cl_generation c) = Some rec /\
    c_worker_token rec = cl_worker_token c /\ c_worker_id rec = o_worker_id (q_opts q) /\
    c_attempt rec = cl_attempt c /\
    job_of m2 (cl_shard c) (cl_job_id c) = Some job /\ cl_attempt c <= j_maximum_attempts job.
Proof.
  assert (forall r, kept rely (claim_post q r)) as Hk by (intros [?|]; [apply kept_held|apply kept_pure]).
  destruct (spec_later _ _ _ _ _ _ _ _ Hk HI Hst (spec_claim q Hq o m Ho) He Hm) as [Hh HI2].
  destruct (held_claim_of c m2 Hh) as (rec & Hrec & Ht & Hw & Ha).
  destruct (claim_of_ok root qid m2 _ _ _ rec HI2 (held_key c m2 Hh) Hrec) as (_ & _ & _ & Hj & _).
  apply job_of_holds in Hj as (e & job & Hjob & jr & E & Hmax); [|intros ? ? (x & -> & _); eauto].
  injection E as <-. exists rec, job. split_and!; try done. by rewrite <- Ha.
Qed.

(** C13: A renewal that succeeds extends the same custody by one generation,
    with the same attempt; one that reports the lease lost is right: from
    then on a receipt, a dead record or the next generation's claim record of
    someone is there. *)
Theorem renew_outcome (c : Claim) (m m1 m2 : Space) (s s' : HState) (r : RenewOutcome)
  (Hq : handle_ok q) (HI : Inv m) (Hst : cached_ok s) (Hc : held q c m)
  (He : exec (renew q c s) m (Ok r, s') m1) (Hm : rely m1 m2) :
  match r with
  | Renewed c' => held q c' m2 /\ cl_generation c' = cl_generation c + 1 /\
      cl_job_id c' = cl_job_id c /\ cl_shard c' = cl_shard c /\ cl_attempt c' = cl_attempt c
  | LeaseLost => superseded q c m2
  end.
Proof.
  by destruct (spec_later _ _ _ _ _ _ _ _ (kept_renew q c) HI Hst (spec_renew q Hq c m Hc) He Hm) as [Hp _].
Qed.

(** C16: Committed outputs are first-wins and content-checked: when
    [commit_output] returns, with either outcome, the object at the output's
    key holds the bytes' digest, and keeps it for good. *)
Theorem commit_output_durable (c : Claim) (name body : bytes) (m m1 m2 : Space) (s s' : HState) (r : CommitOutcome)
  (HI : Inv m) (Hst : cached_ok s) (He : exec (commit_output q c name body s) m (Ok r, s') m1) (Hm : rely m1 m2) :
  match r with OutCommitted o | Converged o =>
    out_key o = output_key q (cl_job_id c) name /\ out_digest o = sha256 body /\
    exists e, m2 !! out_key o = Some e /\ sha256 (e_body e) = sha256 body
  end.
Proof.
  destruct (spec_outcome _ m s r s' m1 _ HI Hst (spec_commit_output q c name body m) He) as [_ (Hk & Hd & e & Hs & Hdig)].
  assert (exists e, m2 !! out_key match r with OutCommitted o | Converged o => o end = Some e /\
            sha256 (e_body e) = sha256 body) as Hm2.
  { exists e. split; [|by rewrite Hdig]. rewrite Hk in Hs |- *. apply Hm; [|exact Hs].
    apply output_authoritative. }
  by destruct r.
Qed.

(** C12: An acknowledgement is evidence: [Acked] and [AlreadyAcked] leave a
    receipt of this very generation and attempt, listing the outputs'
    digests, each present at a key under the job; [Acked] with this worker's
    token.  [SupersededByDead] is reported only of a buried job. *)
Theorem ack_evidence (c : Claim) (outs : list CommittedOutput) (m m1 m2 : Space) (s s' : HState) (r : AckOutcome)
  (Hq : handle_ok q) (HI : Inv m) (Hst : cached_ok s) (Hc : held q c m) (Ho : outputs_ok outs)
  (He : exec (ack_with_outputs q c outs s) m (Ok r, s') m1) (Hm : rely m1 m2) :
  match r with
  | Acked => receipted q c outs (fun x => r_worker_token x = cl_worker_token c) m2
  | AlreadyAcked => receipted q c outs (fun _ => True) m2
  | SupersededByDead => present q (KDead (cl_shard c) (cl_job_id c)) m2
  end.
Proof.
  by destruct (spec_later _ _ _ _ _ _ _ _ (kept_ack q c outs) HI Hst (spec_ack q Hq c outs m Hc Ho) He Hm) as [Hp _].
Qed.

(** C17: A nack leaves the generation's fail record, naming the attempt of
    its claim; a bury leaves a dead record of this generation and attempt,
    and [SupersededByReceipt] is reported only of an acknowledged job. *)
Theorem give_up_evidence (c : Claim) (reason floor : Z) (m m1 m2 : Space) (s s' : HState)
  (Hq : handle_ok q) (HI : Inv m) (Hst : cached_ok s) (Hc : held q c m) (Hr : is_u64 reason) (Hf : is_u64 floor) (Hm : rely m1 m2) :
  (exec (nack q c reason floor s) m (Ok tt, s') m1 ->
   exists e f, m2 !! at_key root (KFail (cl_shard c) (cl_job_id c) (cl_generation c)) = Some e /\
     decode_key qid (KFail (cl_shard c) (cl_job_id c) (cl_generation c)) (e_body e) = Ok (RecFail f) /\
     f_generation f = cl_generation c /\ f_attempt f = cl_attempt c) /\
  (forall r, exec (bury q c reason s) m (Ok r, s') m1 ->
   match r with
   | Buried => holds_at root qid m2 (KDead (cl_shard c) (cl_job_id c)) (fun _ x => exists d, x = RecDead d /\
       d_generation d = cl_generation c /\ d_attempt d = cl_attempt c)
   | SupersededByReceipt => present q (KReceipt (cl_shard c) (cl_job_id c)) m2
   end).
Proof.
  split.
  - intros He.
    destruct (spec_outcome _ m s tt s' m1 _ HI Hst (spec_nack q Hq c reason floor m Hc Hr Hf) He) as [Hm1 _].
    destruct (spec_later _ _ _ _ _ _ _ _ (fun _ => kept_nack q c) HI Hst (spec_nack q Hq c reason floor m Hc Hr Hf) He Hm)
      as [[e Hfe] HI2].
    assert (held q c m2) as Hh by (eapply kept_held; [|exact Hc]; by etrans).
    destruct (held_claim_of c m2 Hh) as (rec & (e1 & He1 & Hd1)%claim_of_some & Ht & Hw & Ha).
    destruct (proj1 HI2 (KFail (cl_shard c) (cl_job_id c) (cl_generation c)) e)
      as (_ & f & Hd & _ & Hgen & (e2 & r2 & He2 & Hd2 & rc & -> & Hat)); [by eapply held_key|exact Hfe|].
    unfold at_key in He1, He2. rewrite He1 in He2. injection He2 as <-. rewrite Hd1 in Hd2. injection Hd2 as <-.
    exists e, f. split_and!; try done. by rewrite <- Hat.
  - intros r He.
    by destruct (spec_later _ _ _ _ _ _ _ _ (kept_bury q c) HI Hst (spec_bury q Hq c reason m Hc Hr) He Hm) as [Hp _].
Qed.

(** C10: Custody is exclusive: whatever two clients' claims came back, at any
    time, with handles of their own on one queue, claims of the same
    generation of a job are the same custody: the same token, worker and
    attempt. *)
Theorem custody_exclusive (q' : Queue) (o o' : ClaimOptions) (m m1 m' m1' m2 : Space) (s s1 s' s1' : HState)
  (c c' : Claim) (Hroot : q_root q' = root) (Hqid : o_queue_id (q_opts q') = qid)
  (Hq : handle_ok q) (Hq' : handle_ok q') (Ho : options_ok o) (Ho' : options_ok o') (HI : Inv m) (HI' : Inv m') (Hst : cached_ok s) (Hst' : cached_ok s')
  (He : exec (claim q o s) m (Ok (Claimed c), s1) m1) (He' : exec (claim q' o' s') m' (Ok (Claimed c'), s1') m1')
  (Hm : rely m1 m2) (Hm' : rely m1' m2)
  (Hj : cl_job_id c = cl_job_id c') (Hs : cl_shard c = cl_shard c') (Hg : cl_generation c = cl_generation c') :
  cl_worker_token c = cl_worker_token c' /\ cl_attempt c = cl_attempt c' /\
  o_worker_id (q_opts q) = o_worker_id (q_opts q').
Proof.
  assert (forall q r, kept (Protocol.rely (q_root q) (o_queue_id (q_opts q))) (claim_post q r)) as Hk
    by (intros ? [?|]; [apply kept_held|apply kept_pure]).
  destruct (spec_later _ _ _ _ _ _ _ _ (Hk q) HI Hst (spec_claim q Hq o m Ho) He Hm) as [Hh _].
  assert (claim_post q' (Claimed c') m2) as Hh'.
  { pose proof (spec_claim q' Hq' o' m' Ho') as Hsp. rewrite <- Hroot, <- Hqid in HI', He', Hm'.
    destruct (exec_wp _ _ _ _ _ _ He' (Hsp HI' s' Hst')) as (_ & _ & HQ). by eapply Hk. }
  destruct (held_claim_of c m2 Hh) as (r & Hr & Ht & Hw & Ha).
  destruct Hh' as (_ & _ & _ & _ & (e & x & Hx & Hd & r' & -> & Ht' & Hw' & Ha') & _).
  rewrite Hroot in Hx. rewrite Hqid in Hd. eapply claim_of_holds in Hd; [|exact Hx].
  rewrite <- Hj, <- Hs, <- Hg, Hr in Hd. injection Hd as <-. split_and!; congruence.
Qed.
End Outcomes.

(* ------------------------------------------------------------------ *)
(** * The sample's operations *)

Section Witnesses.
#[local] Existing Instance toy_digest.
#[local] Existing Instance memory_store.
#[local] Existing Instance memory_laws.
#[local] Abbreviation Q := sample_queue.
#[local] Abbreviation rely := (rely (q_root Q) vector_queue).
#[local] Abbreviation Inv := (Inv (q_root Q) vector_queue).
#[local] Abbreviation exec := (exec rely).

(** The space of a world, and a run of an operation from one to another. *)
Definition space_of (w : World MemoryStore) : Space := store_view (w_store w).
Definition ran {A} (op : M A) (w : World MemoryStore) (a : A) (n : nat) (w' : World MemoryStore) : Prop :=
  ends (op (fresh_handle 64)) w (Ok a) n w'.

Lemma ran_exec {A} (op : M A) w a n w' : ran op w a n w' -> world_ok n w -> exists s',
  exec (op (fresh_handle 64)) (space_of w) (Ok a, s') (space_of w').
Proof. apply (ends_exec rely (op (fresh_handle 64))). Qed.

Definition world0 : World MemoryStore := sample_world.
Definition objects1 := Eval vm_compute in objects_after (enqueue Q sample_input (fresh_handle 64)) world0.
Definition world1 := world_with objects1 2 2 0 0.
Definition objects2 := Eval vm_compute in objects_after (claim Q sample_claim_options (fresh_handle 64)) world1.
Definition world2 := world_with objects2 5 5 1 0.
Definition sample_claim : Claim :=
  {| cl_job_id := vector_job_id; cl_shard := 0; cl_generation := 1; cl_attempt := 1;
     cl_worker_token := be_bytes 16 1; cl_lease_duration_ns := 60; cl_claim_store_time_ns := 3;
     cl_payload := Inline ¶"hello stowq" |}.
Definition sample_renewed : Claim :=
  {| cl_job_id := vector_job_id; cl_shard := 0; cl_generation := 2; cl_attempt := 1;
     cl_worker_token := be_bytes 16 1; cl_lease_duration_ns := 60; cl_claim_store_time_ns := 6;
     cl_payload := Inline ¶"hello stowq" |}.
Definition sample_output : CommittedOutput :=
  {| out_key := output_key Q vector_job_id ¶"result"; out_digest := sha256 ¶"done" |}.
Definition objects3 := Eval vm_compute in
  objects_after (commit_output Q sample_claim ¶"result" ¶"done" (fresh_handle 64)) world2.
Definition world3 := world_with objects3 6 6 1 0.
Definition objects_renewed := Eval vm_compute in objects_after (renew Q sample_claim (fresh_handle 64)) world2.
Definition world_renewed := world_with objects_renewed 7 7 1 0.
Definition objects_acked := Eval vm_compute in
  objects_after (ack_with_outputs Q sample_claim [sample_output] (fresh_handle 64)) world3.
Definition world_acked := world_with objects_acked 9 9 2 1.
Definition objects_nacked := Eval vm_compute in objects_after (nack Q sample_claim 5 0 (fresh_handle 64)) world2.
Definition world_nacked := world_with objects_nacked 7 7 1 0.
Definition objects_buried := Eval vm_compute in objects_after (bury Q sample_claim 5 (fresh_handle 64)) world2.
Definition world_buried := world_with objects_buried 8 8 2 1.

Lemma ran_enqueue : ran (enqueue Q sample_input) world0 (EnqCommitted vector_job_id) 1 world1.
Proof. apply ends_with; [done|done|]. vm_compute. reflexivity. Qed.
Lemma ran_claim : ran (claim Q sample_claim_options) world1 (Claimed sample_claim) 10 world2.
Proof. apply ends_with; [done|done|]. vm_compute. reflexivity. Qed.
Lemma ran_renew : ran (renew Q sample_claim) world2 (Renewed sample_renewed) 6 world_renewed.
Proof. apply ends_with; [done|done|]. vm_compute. reflexivity. Qed.
Lemma ran_commit : ran (commit_output Q sample_claim ¶"result" ¶"done") world2 (OutCommitted sample_output) 1 world3.
Proof. apply ends_with; [done|done|]. vm_compute. reflexivity. Qed.
Lemma ran_ack : ran (ack_with_outputs Q sample_claim [sample_output]) world3 Acked 7 world_acked.
Proof. apply ends_with; [done|done|]. vm_compute. reflexivity. Qed.
Lemma ran_nack : ran (nack Q sample_claim 5 0) world2 tt 2 world_nacked.
Proof. apply ends_with; [done|done|]. vm_compute. reflexivity. Qed.
Lemma ran_bury : ran (bury Q sample_claim 5) world2 Buried 6 world_buried.
Proof. apply ends_with; [done|done|]. vm_compute. reflexivity. Qed.

Lemma world0_ok : world_ok 300 world0.
Proof. apply sample_world_ok. lia. Qed.
Lemma world1_ok : world_ok 250 world1.
Proof. apply (ends_ok _ _ _ _ _ 250 ran_enqueue), (world_ok_le _ 300); [exact world0_ok|lia]. Qed.
Lemma world2_ok : world_ok 200 world2.
Proof. apply (ends_ok _ _ _ _ _ 200 ran_claim), (world_ok_le _ 250); [exact world1_ok|lia]. Qed.
Lemma world3_ok : world_ok 100 world3.
Proof. apply (ends_ok _ _ _ _ _ 100 ran_commit), (world_ok_le _ 200); [exact world2_ok|lia]. Qed.

Lemma exec_enqueue : exists s', exec (enqueue Q sample_input (fresh_handle 64)) (space_of world0)
  (Ok (EnqCommitted vector_job_id), s') (space_of world1).
Proof. apply (ran_exec _ _ _ _ _ ran_enqueue), (world_ok_le _ 300); [exact world0_ok|lia]. Qed.
Lemma exec_claim : exists s', exec (claim Q sample_claim_options (fresh_handle 64)) (space_of world1)
  (Ok (Claimed sample_claim), s') (space_of world2).
Proof. apply (ran_exec _ _ _ _ _ ran_claim), (world_ok_le _ 250); [exact world1_ok|lia]. Qed.
Lemma exec_renew : exists s', exec (renew Q sample_claim (fresh_handle 64)) (space_of world2)
  (Ok (Renewed sample_renewed), s') (space_of world_renewed).
Proof. apply (ran_exec _ _ _ _ _ ran_renew), (world_ok_le _ 200); [exact world2_ok|lia]. Qed.
Lemma exec_commit : exists s', exec (commit_output Q sample_claim ¶"result" ¶"done" (fresh_handle 64))
  (space_of world2) (Ok (OutCommitted sample_output), s') (space_of world3).
Proof. apply (ran_exec _ _ _ _ _ ran_commit), (world_ok_le _ 200); [exact world2_ok|lia]. Qed.
Lemma exec_ack : exists s', exec (ack_with_outputs Q sample_claim [sample_output] (fresh_handle 64))
  (space_of world3) (Ok Acked, s') (space_of world_acked).
Proof. apply (ran_exec _ _ _ _ _ ran_ack), (world_ok_le _ 100); [exact world3_ok|lia]. Qed.
Lemma exec_nack : exists s', exec (nack Q sample_claim 5 0 (fresh_handle 64)) (space_of world2)
  (Ok tt, s') (space_of world_nacked).
Proof. apply (ran_exec _ _ _ _ _ ran_nack), (world_ok_le _ 200); [exact world2_ok|lia]. Qed.
Lemma exec_bury : exists s', exec (bury Q sample_claim 5 (fresh_handle 64)) (space_of world2)
  (Ok Buried, s') (space_of world_buried).
Proof. apply (ran_exec _ _ _ _ _ ran_bury), (world_ok_le _ 200); [exact world2_ok|lia]. Qed.

Lemma inv0 : Inv (space_of world0).
Proof. exact (fresh_inv _ _ _ sample_fresh). Qed.
Lemma rely_refl m : rely m m.
Proof. reflexivity. Qed.
Lemma step01 : rely (space_of world0) (space_of world1).
Proof.
  destruct exec_enqueue as [s He].
  exact (proj1 (spec_outcome Q _ _ _ _ _ _ _ inv0 (fresh_cached 64) (spec_enqueue Q sample_handle _ _ sample_input_ok) He)).
Qed.
Lemma inv1 : Inv (space_of world1).
Proof. exact (proj2 step01 inv0). Qed.
Lemma claimed : rely (space_of world1) (space_of world2) /\ held Q sample_claim (space_of world2).
Proof.
  destruct exec_claim as [s He].
  exact (spec_outcome Q _ _ _ _ _ _ _ inv1 (fresh_cached 64) (spec_claim Q sample_handle _ _ sample_claim_options_ok) He).
Qed.
Lemma inv2 : Inv (space_of world2).
Proof. exact (proj2 (proj1 claimed) inv1). Qed.
Lemma step23 : rely (space_of world2) (space_of world3).
Proof.
  destruct exec_commit as [s He].
  exact (proj1 (spec_outcome Q _ _ _ _ _ _ _ inv2 (fresh_cached 64) (spec_commit_output Q sample_claim _ _ _) He)).
Qed.
Lemma inv3 : Inv (space_of world3).
Proof. exact (proj2 step23 inv2). Qed.
Lemma held3 : held Q sample_claim (space_of world3).
Proof. exact (kept_held Q sample_claim _ _ step23 (proj2 claimed)). Qed.
Lemma sample_outputs_ok : outputs_ok [sample_output].
Proof. split; [repeat constructor|by vm_compute]. Qed.
Lemma sample_reason : is_u64 5.
Proof. by vm_compute. Qed.
Lemma sample_floor : is_u64 0.
Proof. by vm_compute. Qed.

Lemma enqueue_durable_witness :
  ran (enqueue Q sample_input) world0 (EnqCommitted vector_job_id) 1 world1 /\
  exists shard r, job_of (q_root Q) vector_queue (space_of world2) shard vector_job_id = Some r /\
    stores sample_input vector_job_id (RecJob r).
Proof.
  split; [exact ran_enqueue|]. destruct exec_enqueue as [s' He].
  destruct (enqueue_durable Q sample_input _ _ (space_of world2) _ _ _ sample_handle sample_input_ok inv0 (fresh_cached 64)
    He (proj1 claimed)) as (_ & _ & sh & r & _ & Hr). exists sh, r. exact Hr.
Defined.

Lemma claim_custody_witness :
  ran (claim Q sample_claim_options) world1 (Claimed sample_claim) 10 world2 /\
  exists rec, claim_of (q_root Q) vector_queue (space_of world3) 0 vector_job_id 1 = Some rec /\
    c_worker_token rec = be_bytes 16 1.
Proof.
  split; [exact ran_claim|]. destruct exec_claim as [s' He].
  destruct (claim_custody Q _ _ _ (space_of world3) _ _ _ sample_handle sample_claim_options_ok inv1 (fresh_cached 64)
    He step23) as (rec & _ & Hr & Ht & _). exists rec. split; [exact Hr|exact Ht].
Defined.

Lemma renew_outcome_witness :
  ran (renew Q sample_claim) world2 (Renewed sample_renewed) 6 world_renewed /\
  held Q sample_renewed (space_of world_renewed).
Proof.
  split; [exact ran_renew|]. destruct exec_renew as [s' He].
  exact (proj1 (renew_outcome Q sample_claim _ _ _ _ _ _ sample_handle inv2 (fresh_cached 64) (proj2 claimed) He (rely_refl _))).
Defined.

Lemma commit_output_durable_witness :
  ran (commit_output Q sample_claim ¶"result" ¶"done") world2 (OutCommitted sample_output) 1 world3 /\
  exists e, space_of world3 !! out_key sample_output = Some e /\ sha256 (e_body e) = sha256 ¶"done".
Proof.
  split; [exact ran_commit|]. destruct exec_commit as [s' He].
  exact (proj2 (proj2 (commit_output_durable Q sample_claim _ _ _ _ _ _ _ _ inv2 (fresh_cached 64) He (rely_refl _)))).
Defined.

Lemma ack_evidence_witness :
  ran (ack_with_outputs Q sample_claim [sample_output]) world3 Acked 7 world_acked /\
  receipted Q sample_claim [sample_output] (fun x => r_worker_token x = cl_worker_token sample_claim)
    (space_of world_acked).
Proof.
  split; [exact ran_ack|]. destruct exec_ack as [s' He].
  exact (ack_evidence Q sample_claim [sample_output] _ _ _ _ _ _ sample_handle inv3 (fresh_cached 64) held3 sample_outputs_ok
    He (rely_refl _)).
Defined.

Lemma give_up_evidence_witness :
  ran (nack Q sample_claim 5 0) world2 tt 2 world_nacked /\ ran (bury Q sample_claim 5) world2 Buried 6 world_buried /\
  is_Some (space_of world_nacked !! at_key (q_root Q) (KFail 0 vector_job_id 1)) /\
  is_Some (space_of world_buried !! at_key (q_root Q) (KDead 0 vector_job_id)).
Proof.
  split; [exact ran_nack|]. split; [exact ran_bury|].
  destruct exec_nack as [s1 H1], exec_bury as [s2 H2]. split.
  - destruct (proj1 (give_up_evidence Q sample_claim 5 0 _ _ _ _ _ sample_handle inv2 (fresh_cached 64) (proj2 claimed)
      sample_reason sample_floor (rely_refl _)) H1) as (e & f & He & _). exists e. exact He.
  - destruct (proj2 (give_up_evidence Q sample_claim 5 0 _ _ _ _ _ sample_handle inv2 (fresh_cached 64) (proj2 claimed)
      sample_reason sample_floor (rely_refl _)) _ H2) as (e & r & He & _). exists e. exact He.
Defined.

Lemma custody_exclusive_witness :
  ran (claim Q sample_claim_options) world1 (Claimed sample_claim) 10 world2 /\
  cl_worker_token sample_claim = cl_worker_token sample_claim.
Proof.
  split; [exact ran_claim|]. destruct exec_claim as [s' He].
  exact (proj1 (custody_exclusive Q Q _ _ _ _ _ _ _ _ _ _ _ _ _ eq_refl eq_refl sample_handle sample_handle
    sample_claim_options_ok sample_claim_options_ok inv1 inv1 (fresh_cached 64) (fresh_cached 64) He He
    (rely_refl _) (rely_refl _) eq_refl eq_refl eq_refl)).
Defined.
End Witnesses.
