(* ===== verification/Workers.v ===== *)
(** What the consumer harness promises: its reports are true of the shared
    space whatever other clients do, and a delivery keeps to its budget. *)

From S2P Require Import Prelude Sha256 StowqMath Keys Records Store Memory Effects Rely Queue Claims Sweeps Samples.
From S2P Require Import Worker Budget Protocol Lifecycle Custody Upkeep Delivery Sessions Runs Outcomes.

(* ------------------------------------------------------------------ *)
(** * Reports *)

Section Reports.
Context `{HS : Sha256} (q : Queue).
#[local] Abbreviation root := (q_root q).
#[local] Abbreviation qid := (o_queue_id (q_opts q)).
#[local] Abbreviation rely := (rely root qid).
#[local] Abbreviation Inv := (Inv root qid).
#[local] Abbreviation exec := (exec rely).

(** C23: A delivery's report is true, and stays true: whatever other clients
    do meanwhile, [Delivered outs] leaves a receipt of the claimed job that
    lists exactly these outputs' digests, each object present under the job;
    [Failed] leaves a fail record, a dead record, or (a permanent failure that
    came too late) a receipt; [LostLease] is reported only of a custody that
    someone superseded. *)
Theorem delivery_report_true (run : Executor) (beats : Claim -> nat) (wall_ms : option Claim -> Z)
  (msg : DoorbellMsg) (lease : Z) (ms ms' : option Metrics) (m m1 m2 : Space) (s s' : HState) (report : DeliveryReport)
  (Hq : handle_ok q) (Hrun : executor_ok run) (Hl : is_u64 lease) (HI : Inv m) (Hst : cached_ok s)
  (He : exec (run_delivery_with q run beats wall_ms msg lease ms s) m (Ok (Ok report, ms'), s') m1)
  (Hm : rely m1 m2) :
  report = NoWork \/ exists c, held q c m2 /\ report_post q c report m2.
Proof.
  assert (forall r, kept rely (on_ok (delivery_post q) r)) as Hk by (intros r; apply kept_on_ok, kept_delivery).
  by destruct (spec_later q _ _ _ _ _ _ _ _ Hk HI Hst
    (spec_run_delivery_with q Hq run Hrun beats wall_ms msg lease ms m Hl) He Hm) as [HP _].
Qed.

End Reports.

(* ------------------------------------------------------------------ *)
(** * The delivery's budget *)

Section Uses.
Context `{Sha256} (q : Queue) (run : Executor) (beats : Claim -> nat) (wall_ms : option Claim -> Z).

Lemma uses_counted {A B} L pre n ms (x : M A) (k : A -> M (Counted B)) :
  uses L 0 0 x -> (n <= pre)%nat -> (forall a, uses L pre n (k a)) -> uses L pre n (counted ms x k).
Proof.
  intros Hx Hle Hk. unfold counted. eapply uses_bind; [by apply uses_try_keep|]. intros [a|e]; [apply Hk|].
  eapply uses_drop; [exact Hle|apply uses_ret].
Qed.

Lemma uses_commit_outputs L c outs : uses L 0 0 (commit_outputs q c outs).
Proof.
  induction outs as [|o outs IH]; cbn [commit_outputs]; [apply uses_ret|].
  eapply uses_bind; [apply uses_commit_output|]. intros r. eapply uses_bind; [apply IH|]. intros rest. apply uses_ret.
Qed.

Lemma uses_finish_delivery L c executed d : uses L 0 0 (finish_delivery q c executed d).
Proof.
  unfold finish_delivery. destruct executed as [outs|[reason|reason]].
  - eapply uses_bind; [apply uses_commit_outputs|]. intros cs.
    eapply uses_bind; [apply uses_try_keep, uses_ack|]. intros [[]|[]]; try apply uses_fail; try apply uses_ret.
    eapply uses_bind; [apply uses_receipt_for|]. intros r. destruct (equivalent_receipt _ _ _);
      [apply uses_ret|apply uses_fail].
  - eapply uses_bind; [apply uses_establish_floor|]. intros f.
    eapply uses_bind; [apply uses_nack|]. intros ?. apply uses_ret.
  - eapply uses_bind; [apply uses_bury|]. intros ?. apply uses_ret.
Qed.

Lemma uses_deliver_loop L n c executed d ms : uses L 0 0 (deliver_loop q n c executed d ms).
Proof.
  revert c ms. induction n as [|n IH]; intros c ms; cbn [deliver_loop].
  - apply uses_counted; [apply uses_finish_delivery|lia|]. intros r. apply uses_ret.
  - apply uses_counted; [apply uses_renew|lia|]. intros [c'|]; [apply IH|apply uses_ret].
Qed.

(** One call, the payload's, is not paid for. *)
Lemma uses_deliver_one L c ms : uses L 1 0 (deliver_one q run beats c ms).
Proof.
  unfold deliver_one, counted. eapply uses_bind; [eapply uses_try, (uses_payload L 0)|].
  intros [p|e]; [apply uses_deliver_loop|apply uses_ret].
Qed.

Lemma uses_claim_first L floor lease shards : uses L 0 0 (claim_first q floor lease shards).
Proof.
  induction shards as [|s shards IH]; cbn [claim_first]; [apply uses_ret|].
  eapply uses_bind; [apply uses_claim|]. intros [c|]; [apply uses_ret|apply IH].
Qed.

Lemma uses_run_delivery_inner L msg lease ms : uses L 1 0 (run_delivery_inner q run beats msg lease ms).
Proof.
  unfold run_delivery_inner. apply uses_counted; [apply uses_establish_floor|lia|]. intros floor.
  apply uses_counted; [apply uses_claim_first|lia|]. intros [c|]; [apply uses_deliver_one|].
  eapply uses_drop; [|apply uses_ret]. lia.
Qed.

Lemma run_delivery_runs msg lease ms s :
  runs (DELIVERY_BUDGET_OPS + 1) (run_delivery_with q run beats wall_ms msg lease ms s) (fun _ r s' =>
    max_ops s' = max_ops s /\ r <> Err OutOfFuel).
Proof.
  unfold run_delivery_with, own_budget. unfold mbind, m_bind, mbind_. apply runs_bind, runs_bind.
  rewrite <- (Nat.add_0_r (DELIVERY_BUDGET_OPS + 1)).
  eapply runs_mono; [reflexivity| |apply (with_budget_runs 1); intros; apply uses_run_delivery_inner].
  intros i j [[[[r ms']|e] b]|e] s' _ [Hs Hr]; cbn; try destruct r; cbn; split; try done.
  intros [= ->]. by destruct Hr.
Qed.
End Uses.

(** C25: A delivery keeps to its budget: against any store, with any executor
    and any number of heartbeats, it makes at most [DELIVERY_BUDGET_OPS] store
    calls and the one unpaid read of the payload, leaves the caller's budget
    alone, and terminates. *)
Theorem delivery_budget {HS : Sha256} {S} {O : ObjectStore S} (q : Queue) (run : Executor) (beats : Claim -> nat)
  (wall_ms : option Claim -> Z) (msg : DoorbellMsg) (lease : Z) (ms : option Metrics) (s : HState) (w : World S) :
  let p := run_delivery_with q run beats wall_ms msg lease ms s in
  (run_calls p w <= DELIVERY_BUDGET_OPS + 1)%nat /\
  max_ops (Effects.run p w).1.2 = max_ops s /\ (Effects.run p w).1.1 <> Err OutOfFuel.
Proof.
  intros p. pose proof (run_delivery_runs q run beats wall_ms msg lease ms s) as Hr.
  by apply (run_runs _ w) in Hr.
Qed.

(* ------------------------------------------------------------------ *)
(** * A sample delivery *)

Section Witnesses.
#[local] Existing Instance toy_digest.
#[local] Existing Instance memory_store.
#[local] Existing Instance memory_laws.
#[local] Abbreviation Q := sample_queue.

(** The executor stores its payload as its one output. *)
Definition sample_executor : Executor := fun _ payload => Ok [{| eo_name := ¶"result"; eo_body := payload |}].
Definition sample_delivery : M (Counted DeliveryReport) :=
  run_delivery_with Q sample_executor (fun _ => 1%nat) (fun _ => 12) doorbell_sweep 60 (Some metrics_default).
Definition sample_batch : M (Counted (list DeliveryReport)) :=
  run_batch_with Q sample_executor (fun _ => 0%nat) (fun _ => 700) (doorbell_shard 0) 60 4 None.
Definition sample_committed : CommittedOutput :=
  {| out_key := output_key Q vector_job_id ¶"result"; out_digest := sha256 ¶"hello stowq" |}.
Definition sample_metrics : Metrics :=
  bump CDelivered (record_delivery 12 (bump CRenewals (bump CHints metrics_default))).
Definition objects_delivered := Eval vm_compute in objects_after (sample_delivery (fresh_handle 0)) world1.
Definition world_delivered := world_with objects_delivered 11 11 2 2.
Definition objects_batch := Eval vm_compute in objects_after (sample_batch (fresh_handle 0)) world1.
Definition world_batch := world_with objects_batch 9 9 2 2.

Lemma sample_executor_ok : executor_ok sample_executor.
Proof. intros j p. by vm_compute. Qed.
Lemma sample_lease : is_u64 60.
Proof. by vm_compute. Qed.

Lemma ends_delivery :
  ends (sample_delivery (fresh_handle 0)) world1 (Ok (Ok (Delivered [sample_committed]), Some sample_metrics)) 24
    world_delivered.
Proof. apply ends_with; [done|done|]. vm_compute. reflexivity. Qed.
Lemma ends_batch :
  ends (sample_batch (fresh_handle 0)) world1 (Ok (Ok [Delivered [sample_committed]], None)) 18 world_batch.
Proof. apply ends_with; [done|done|]. vm_compute. reflexivity. Qed.

Lemma exec_delivery : exists s',
  exec (rely (q_root Q) vector_queue) (sample_delivery (fresh_handle 0)) (space_of world1)
    (Ok (Ok (Delivered [sample_committed]), Some sample_metrics), s') (space_of world_delivered).
Proof. apply (ends_exec _ _ _ _ _ _ ends_delivery), (world_ok_le _ 250); [exact world1_ok|lia]. Qed.
Lemma exec_batch : exists s',
  exec (rely (q_root Q) vector_queue) (sample_batch (fresh_handle 0)) (space_of world1)
    (Ok (Ok [Delivered [sample_committed]], None), s') (space_of world_batch).
Proof. apply (ends_exec _ _ _ _ _ _ ends_batch), (world_ok_le _ 250); [exact world1_ok|lia]. Qed.

Lemma delivery_report_true_witness :
  ends (sample_delivery (fresh_handle 0)) world1 (Ok (Ok (Delivered [sample_committed]), Some sample_metrics)) 24
    world_delivered /\
  exists c, held Q c (space_of world_delivered) /\ completed Q c [sample_committed] (space_of world_delivered).
Proof.
  split; [exact ends_delivery|]. destruct exec_delivery as [s' He].
  destruct (delivery_report_true Q _ _ _ _ _ _ _ _ _ _ _ _ _ sample_handle sample_executor_ok sample_lease inv1
    (fresh_cached 0) He (rely_refl _)) as [E|(c & Hc & Hr)]; [discriminate E|].
  exists c. split; [exact Hc|exact Hr].
Defined.

End Witnesses.
