(* ===== verification/Retention.v ===== *)
(** What garbage collection may not delete.

    [gc] runs beside any other client and against every fault of the store
    contract.  A job is retained while its record is there and none of its
    terminal records is older than the retention: the theorem is that no
    interleaving and no fault lets [gc] delete any object of a retained job.
    The proof is a small logic of what each step of the collector learns
    ([gives]), an instance of the rely-guarantee logic of [Rely]. *)

From S2P Require Import Prelude Sha256 StowqMath Keys Records Store Effects Rely Memory Queue Claims Sweeps Protocol Samples Runs.

(** The keys of a job: its record, payloads and terminal records, and the
    claims and fails of its shard. *)
Definition belongs (shard : Z) (job_id : bytes) (k : Key) : Prop :=
  match k with
  | KJob s j | KClaim s j _ | KFail s j _ => s = shard /\ j = job_id
  | KPayload j _ | KReceipt _ j | KDead _ j => j = job_id
  | _ => False
  end.

Section Retention.
Context `{Sha256} (q : Queue) (shard : Z) (job : bytes) (cutoff : Z).

Definition retained (m : Space) : Prop :=
  is_Some (m !! absolute q (KJob shard job)) /\
  forall s e, m !! absolute q (KReceipt s job) = Some e \/ m !! absolute q (KDead s job) = Some e ->
    cutoff <= e_time e.

(** What the others, and every step of the collector, preserve. *)
Definition retains (m m' : Space) : Prop :=
  retained m -> retained m' /\
  forall k, belongs shard job k -> is_Some (m !! absolute q k) -> is_Some (m' !! absolute q k).

#[export] Instance retains_preorder : PreOrder retains.
Proof.
  split; [by intros m Hm|]. intros m1 m2 m3 H12 H23 Hm.
  destruct (H12 Hm) as [Hm2 K12]. destruct (H23 Hm2) as [Hm3 K23]. split; eauto.
Qed.

(** ** What a step learns *)

Definition gives {A} (x : M A) (P : A -> Prop) : Prop :=
  forall m, retained m -> sat retains x m (fun a _ => P a).
Definition keeps {A} (x : M A) : Prop := gives x (fun _ => True).

Lemma gives_bind {A B} (x : M A) (f : A -> M B) P Q :
  gives x P -> (forall a, P a -> gives (f a) Q) -> gives (x ≫= f) Q.
Proof.
  intros Hx Hf m Hm. eapply (sat_bind retains); [by apply Hx|]. intros a m' Hm' Ha. apply Hf; [done|].
  by apply Hm'.
Qed.
Lemma keeps_bind {A B} (x : M A) (f : A -> M B) P :
  keeps x -> (forall a, gives (f a) P) -> gives (x ≫= f) P.
Proof. intros Hx Hf. eapply gives_bind; [exact Hx|auto]. Qed.
Lemma gives_keeps {A} (x : M A) P : gives x P -> keeps x.
Proof. intros Hx m Hm. eapply (sat_mono retains); [by apply Hx|done]. Qed.
Lemma keeps_ret {A} (a : A) : keeps (mret a).
Proof. intros m _. by apply sat_ret. Qed.
Lemma gives_fail {A} (e : Error) (P : A -> Prop) : gives (fail e) P.
Proof. intros m _. apply sat_fail. Qed.
Lemma gives_throw {A} (e : Stop) (P : A -> Prop) : gives (throw e) P.
Proof. intros m _. apply sat_throw. Qed.
Lemma keeps_spend : keeps spend.
Proof. intros m _. eapply (sat_mono retains); [apply sat_spend|done]. Qed.
Lemma gives_store_ok {A} (r : StoreResult A) : gives (store_ok r) (fun a => r = Ok a).
Proof. intros m _. apply sat_store_ok. Qed.
Lemma gives_unwrap {A} (o : option A) : gives (unwrap o) (fun a => o = Some a).
Proof. intros m _. apply sat_unwrap. Qed.
Lemma keeps_stop_ok {A} (r : Result Stop A) : keeps (stop_ok r).
Proof. destruct r; [apply keeps_ret|apply gives_throw]. Qed.

(** A call that changes nothing. *)
Lemma gives_read c (P : answer c -> Prop) :
  (forall m x m', retained m -> contract c m x m' -> m' = m /\ P x) -> gives (do_call c) P.
Proof.
  intros Hc m Hm. apply (sat_call retains); [by intros x m1 m2 _|].
  intros m1 x m2 Hm1 Hx. destruct (Hc m1 x m2) as [-> HP]; [by apply Hm1|done|by split].
Qed.
Lemma gives_head k P :
  (forall m e, retained m -> m !! k = Some e -> P (Ok (meta_of e))) ->
  (forall m, retained m -> m !! k = None -> P (Err NotFound)) ->
  (forall e, e <> NotFound -> P (Err e)) -> gives (do_head k) P.
Proof.
  intros Hok Hnone Herr. apply gives_read. intros m x m' Hm Hx.
  destruct (contract_post _ _ _ _ Hx) as (-> & Ho & Hn). split; [done|].
  destruct x as [meta|e]; [destruct (Ho meta eq_refl) as (e & He & ->); eauto|].
  destruct (decide (e = NotFound)) as [->|]; [|eauto]. eauto.
Qed.
Lemma keeps_head k : keeps (do_head k).
Proof. by apply gives_head. Qed.
Lemma gives_list prefix after n :
  gives (do_list prefix after n) (fun r => forall page, r = Ok page ->
    Forall (fun l => starts_with prefix (l_key l) = true) (p_items page)).
Proof.
  apply gives_read. intros m x m' _ Hx. destruct (contract_post _ _ _ _ Hx) as [-> Hp].
  split; [done|]. intros page E. destruct (Hp page E) as (_ & Hl & _).
  eapply Forall_impl; [exact Hl|]. by intros l (e & _ & _ & [Hl' _]).
Qed.

(** Deleting a key that is not the job's. *)
Lemma keeps_delete k :
  (forall k', belongs shard job k' -> absolute q k' <> k) -> keeps (delete_ignoring k).
Proof.
  intros Hk. unfold delete_ignoring. apply keeps_bind; [|intros; apply keeps_ret].
  intros m Hm. apply (sat_call retains); [by intros x m1 m2 _|]. intros m1 x m2 _ Hx.
  split; [|done]. intros Hm1. destruct (contract_post _ _ _ _ Hx) as [->| ->]; [by split|].
  assert (forall k', belongs shard job k' -> delete k m1 !! absolute q k' = m1 !! absolute q k') as Hd.
  { intros k' Hk'. apply space_delete_ne. intros E. by apply (Hk k'). }
  destruct Hm1 as [Hj Ht]. split; [split|].
  - rewrite Hd; [done|]. by split.
  - intros s e. rewrite !Hd by done. apply Ht.
  - intros k' Hk' Hs. by rewrite Hd.
Qed.

(** ** Loops *)

Lemma keeps_fold {A B} (xs : list A) (b : B) body (P : A -> Prop) :
  Forall P xs -> (forall b x, P x -> keeps (body b x)) -> keeps (fold_each xs b body).
Proof.
  intros Hxs Hb. revert b. induction Hxs as [|x xs Hx _ IH]; intros b; cbn [fold_each]; [apply keeps_ret|].
  apply keeps_bind; auto.
Qed.

Lemma keeps_for_pages {A} prefix (acc : A) body :
  (forall a item, starts_with prefix (l_key item) = true -> keeps (body a item)) ->
  keeps (for_pages prefix acc body).
Proof.
  intros Hb. unfold for_pages.
  assert (forall fuel after acc, keeps (page_loop fuel prefix after acc body)) as Hl.
  { induction fuel as [|fuel IH]; intros after acc0; cbn [page_loop]; [apply gives_throw|].
    apply keeps_bind; [apply keeps_spend|intros _].
    eapply gives_bind; [apply gives_list|intros r Hr].
    eapply gives_bind; [apply gives_store_ok|intros page ->]. specialize (Hr page eq_refl).
    destruct (p_items page) as [|i its] eqn:Ei; [apply keeps_ret|].
    apply keeps_bind; [by eapply keeps_fold|intros a]. destruct (p_next_after page); [apply IH|apply keeps_ret]. }
  intros m Hm. apply (sat_budget_loop retains). intros fuel. by apply Hl.
Qed.

(** ** Keys of other jobs *)

Lemma belongs_plane k : belongs shard job k ->
  plane_of (key_to_string k) ∈ [¶"jobs"; ¶"claims"; ¶"fails"; ¶"payloads"; ¶"receipts"; ¶"dead"].
Proof. rewrite plane_of_key. destruct k; intros Hk; try done; apply (bool_decide_eq_true_1 _); by vm_compute. Qed.

(** An object of a plane without job objects. *)
Lemma keeps_delete_plane p r key :
  slash ∉ p -> p ∉ [¶"jobs"; ¶"claims"; ¶"fails"; ¶"payloads"; ¶"receipts"; ¶"dead"] ->
  starts_with (q_root q ++ p ++ slash :: r) key = true -> keeps (delete_ignoring key).
Proof.
  intros Hp Hn [x ->]%starts_with_iff. apply keeps_delete. intros k Hk%belongs_plane E. apply Hn.
  unfold absolute in E. rewrite <- app_assoc in E. apply app_inv_head in E. rewrite E in Hk.
  rewrite <- app_assoc, <- app_comm_cons, plane_of_app in Hk; done.
Qed.

(** The segments of a listed key. *)
Lemma listed_segments (segs : list bytes) k key :
  Forall (fun p => slash ∉ p) segs ->
  starts_with (q_root q ++ join_with slash (segs ++ [[]])) key = true -> absolute q k = key ->
  exists rest, segments k = segs ++ rest.
Proof.
  intros Hs [x ->]%starts_with_iff E. unfold absolute in E. rewrite <- app_assoc in E.
  apply app_inv_head in E. apply (f_equal (split_on slash)) in E. rewrite split_key_to_string in E.
  rewrite E. clear E. induction Hs as [|p ps Hp _ IH]; [by eexists|].
  destruct IH as [rest IH]. exists rest. change ((p :: ps) ++ [[]]) with (p :: (ps ++ [[]])).
  assert (join_with slash (p :: ps ++ [[]]) = p ++ slash :: join_with slash (ps ++ [[]])) as ->.
  { by destruct (ps ++ [[]]) eqn:Ea; [destruct ps|]. }
  rewrite <- app_assoc, <- app_comm_cons, split_on_app by done. by rewrite IH.
Qed.

Lemma keeps_delete_other segs key j' :
  j' <> job -> Forall (fun p => slash ∉ p) segs ->
  (exists s, segs = [¶"claims"; s; push_hex j'] \/ segs = [¶"fails"; s; push_hex j']) \/
    segs = [¶"payloads"; push_hex j'] ->
  starts_with (q_root q ++ join_with slash (segs ++ [[]])) key = true -> keeps (delete_ignoring key).
Proof.
  intros Hj Hs Hseg Hkey. apply keeps_delete. intros k Hk E.
  destruct (listed_segments segs k key Hs Hkey E) as [rest Er].
  destruct Hseg as [(s & [->| ->])| ->]; destruct k; cbn in Hk, Er; try done;
    injection Er; intros; destruct_and?; subst; apply Hj; by apply push_hex_inj.
Qed.

(** The key of an object of another job. *)
Lemma keeps_delete_key k :
  (forall k', belongs shard job k' -> segments k' <> segments k) -> keeps (delete_ignoring (absolute q k)).
Proof.
  intros Hk. apply keeps_delete. intros k' Hk' E. apply (Hk k' Hk').
  apply app_inv_head in E. apply (f_equal (split_on slash)) in E. by rewrite !split_key_to_string in E.
Qed.

(** ** The collector *)

Lemma keeps_delete_orphan item : keeps (delete_ignoring (l_key item)) -> keeps (delete_orphan item).
Proof.
  intros Hd. unfold delete_orphan. apply keeps_bind; [apply keeps_spend|intros _].
  apply keeps_bind; [apply keeps_head|intros [now|[]]]; try apply gives_fail; [|apply keeps_ret].
  destruct (_ =? _); [|apply keeps_ret]. apply keeps_bind; [apply keeps_spend|intros _].
  apply keeps_bind; [exact Hd|intros; apply keeps_ret].
Qed.

(** The collector deletes an orphan only once the head of its job record has
    answered [NotFound]: the job is another one. *)
Lemma keeps_collect_orphan s j item :
  (absolute q (KJob s j) <> absolute q (KJob shard job) -> keeps (delete_ignoring (l_key item))) ->
  keeps (collect_orphan q s j item).
Proof.
  intros Hd. unfold collect_orphan. apply keeps_bind; [apply keeps_spend|intros _].
  eapply (gives_bind _ _ (fun r => r = Err NotFound -> absolute q (KJob s j) <> absolute q (KJob shard job))).
  { apply gives_head; [done| |by intros e He [= ->]]. intros m [[e He] _] Hn _ E. rewrite E in Hn. congruence. }
  intros [meta|e] Hr; [apply keeps_ret|]. destruct e; try apply gives_fail. by apply keeps_delete_orphan, Hd, Hr.
Qed.

Lemma parse_rel_key key k : parse_rel q key = Some k -> key = absolute q k.
Proof.
  unfold parse_rel, absolute. destruct (strip_prefix (q_root q) key) as [r|] eqn:Er; [|done].
  apply strip_prefix_some in Er as ->. cbn. destruct (parse r) as [k'|] eqn:Ek; [|done]. intros [= ->].
  apply parse_canonical_aux in Ek as [_ <-]. done.
Qed.

Lemma keeps_gc_payload cut report item :
  compute_shard (o_queue_id (q_opts q)) job (shard_count (q_format q)) = Some shard ->
  keeps (gc_payload_entry q cut report item).
Proof.
  intros Hs. unfold gc_payload_entry. destruct (_ <=? _); [apply keeps_ret|].
  destruct (parse_rel q (l_key item)) as [[]|] eqn:Ek; try apply keeps_ret.
  eapply gives_bind; [apply gives_unwrap|intros s Hs'].
  apply keeps_bind; [|intros []; apply keeps_ret]. apply keeps_collect_orphan. intros Hne.
  rewrite (parse_rel_key _ _ Ek). apply keeps_delete_key. intros k' Hk'.
  destruct k'; cbn in Hk'; try done. cbn. intros [= Ej _]. apply push_hex_inj in Ej. subst. congruence.
Qed.

Lemma keeps_gc_claim cut report item : keeps (gc_claim_entry q cut report item).
Proof.
  unfold gc_claim_entry. destruct (_ <=? _); [apply keeps_ret|].
  destruct (parse_rel q (l_key item)) as [[]|] eqn:Ek; try apply keeps_ret.
  apply keeps_bind; [|intros []; apply keeps_ret]. apply keeps_collect_orphan. intros Hne.
  rewrite (parse_rel_key _ _ Ek). apply keeps_delete_key. intros k' Hk'.
  destruct k'; cbn in Hk'; try done. destruct Hk' as [-> ->]. intros E. apply Hne.
  pose proof (f_equal (fun l => nth 1 l []) E) as Es. pose proof (f_equal (fun l => nth 2 l []) E) as Ej.
  cbn [segments nth] in Es, Ej. apply push_hex_inj in Ej as ->. unfold absolute. cbn [key_to_string]. by rewrite Es.
Qed.

Lemma keeps_gc_beacon cut report item :
  starts_with (q_root q ++ ¶"meta/clock/") (l_key item) = true -> keeps (gc_beacon_entry cut report item).
Proof.
  intros Hl. unfold gc_beacon_entry. destruct (_ <? _); [|apply keeps_ret].
  apply keeps_bind; [apply keeps_spend|intros _]. apply keeps_bind; [|intros; apply keeps_ret].
  apply (keeps_delete_plane ¶"meta" ¶"clock/"); [by apply lit_no_slash| |done].
  apply (bool_decide_eq_true_1 _). by vm_compute.
Qed.

Lemma keeps_delete_under prefix keep :
  (forall item, starts_with prefix (l_key item) = true -> keeps (delete_ignoring (l_key item))) ->
  keeps (delete_under prefix keep).
Proof.
  intros Hd. apply keeps_for_pages. intros a item Hl. destruct (keep _); [apply keeps_ret|].
  apply keeps_bind; [apply keeps_spend|intros _]. by apply Hd.
Qed.

Lemma keeps_delete_rel k j' :
  j' <> job -> match k with KJob _ j | KReceipt _ j | KDead _ j | KTail _ j => j = j' | _ => False end ->
  keeps (delete_ignoring (absolute q k)).
Proof.
  intros Hj Hk. apply keeps_delete_key. intros k' Hk'.
  intros E. pose proof (f_equal (fun l => nth 2 l []) E) as Ej.
  destruct k, k'; cbn in Hk, Hk'; try done; cbn [segments nth] in Ej; apply push_hex_inj in Ej; destruct_and?; congruence.
Qed.

Lemma keeps_terminal_graph s j' rel index_key :
  j' <> job -> match rel with KReceipt _ j | KDead _ j => j = j' | _ => False end ->
  starts_with (q_root q ++ ¶"termidx/") index_key = true ->
  keeps (delete_terminal_graph q s j' rel index_key).
Proof.
  intros Hj Hrel Hidx. unfold delete_terminal_graph. cbv zeta.
  assert (slash ∉ hex16 s) by apply push_hex_no_slash. assert (slash ∉ push_hex j') by apply push_hex_no_slash.
  assert (forall p key, p ∈ [¶"leases"; ¶"delayed"; ¶"termidx"] ->
    starts_with (q_root q ++ p ++ [slash]) key = true -> keeps (delete_ignoring key)) as Hplane.
  { intros p key Hp. apply (keeps_delete_plane p []); set_unfold in Hp; destruct_or!; subst;
      try (by apply lit_no_slash); apply (bool_decide_eq_true_1 _); by vm_compute. }
  assert (forall p, p ∈ [¶"fails"; ¶"claims"] -> forall key,
    starts_with (q_root q ++ p ++ [slash] ++ hex16 s ++ [slash] ++ push_hex j' ++ [slash]) key = true ->
    keeps (delete_ignoring key)) as Hslice.
  { intros p Hp key Hk. apply (keeps_delete_other [p; hex16 s; push_hex j'] key j'); [done| | |done].
    - repeat constructor; [|done|done]. set_unfold in Hp; destruct_or!; subst; by apply lit_no_slash.
    - left. exists (hex16 s). set_unfold in Hp. destruct_or!; subst; auto. }
  apply keeps_bind; [apply keeps_delete_under; intros; eapply (Hplane ¶"leases"); [set_solver|done]|intros _].
  apply keeps_bind; [apply keeps_delete_under; intros; eapply (Hplane ¶"delayed"); [set_solver|done]|intros _].
  apply keeps_bind; [apply keeps_spend|intros _].
  apply keeps_bind; [eapply (Hplane ¶"termidx"); [set_solver|done]|intros _].
  apply keeps_bind; [apply keeps_spend|intros _].
  apply keeps_bind; [by apply (keeps_delete_rel (KTail s j') j')|intros _].
  apply keeps_bind; [apply keeps_delete_under; intros; eapply (Hslice ¶"fails"); [set_solver|done]|intros _].
  apply keeps_bind; [apply keeps_delete_under; intros; eapply (Hslice ¶"claims"); [set_solver|done]|intros _].
  apply keeps_bind.
  { apply keeps_delete_under. intros item Hk. apply (keeps_delete_other [¶"payloads"; push_hex j'] _ j');
      [done| |by right|done]. repeat constructor; [by apply lit_no_slash|done]. }
  intros _. apply keeps_bind; [apply keeps_spend|intros _].
  apply keeps_bind; [by apply (keeps_delete_rel (KJob s j') j')|intros _].
  apply keeps_bind; [apply keeps_spend|intros _].
  apply keeps_bind; [|intros; apply keeps_ret]. apply (keeps_delete_rel rel j'); [done|]. by destruct rel.
Qed.

(** A terminal record found older than the cutoff is not the job's. *)
Lemma keeps_gc_term report item :
  starts_with (q_root q ++ ¶"termidx/") (l_key item) = true -> keeps (gc_term_entry q cutoff report item).
Proof.
  intros Hl. unfold gc_term_entry. cbv zeta. apply keeps_bind; [apply keeps_stop_ok|].
  intros [[[kind s] j']|]; [|apply keeps_ret]. apply keeps_bind; [apply keeps_spend|intros _].
  set (rel := match kind with TReceipt => KReceipt s j' | TDead => KDead s j' end).
  eapply (gives_bind _ _ (fun r => forall meta, r = Ok meta -> m_store_time_ns meta < cutoff -> j' <> job)).
  { apply gives_head; [|by intros|by intros]. intros m e [_ Ht] He meta [= <-] Hlt ->.
    cbn in Hlt. specialize (Ht s e). unfold rel in He. destruct kind; intuition lia. }
  intros [meta|e] Hr.
  - destruct (Z.leb_spec cutoff (m_store_time_ns meta)) as [|Hlt]; [apply keeps_ret|].
    apply keeps_bind; [|intros []; apply keeps_ret]. apply keeps_terminal_graph; [by eapply Hr| |done].
    by destruct kind.
  - destruct e; try apply gives_fail. apply keeps_bind; [apply keeps_spend|intros _].
    apply keeps_bind; [|intros; apply keeps_ret]. apply (keeps_delete_plane ¶"termidx" []); [by apply lit_no_slash| |done].
    apply (bool_decide_eq_true_1 _). by vm_compute.
Qed.

End Retention.

Lemma keeps_gc `{Sha256} (q : Queue) shard job now retention horizon :
  compute_shard (o_queue_id (q_opts q)) job (shard_count (q_format q)) = Some shard ->
  keeps q shard job (saturating_sub now retention) (gc q now retention horizon).
Proof.
  intros Hs. unfold gc. cbv zeta.
  apply keeps_bind; [apply keeps_for_pages; intros; by apply keeps_gc_payload|intros r1].
  apply keeps_bind; [apply keeps_for_pages; intros; apply keeps_gc_claim|intros r2].
  apply keeps_bind; [apply keeps_for_pages; intros; by apply keeps_gc_beacon|intros r3].
  apply keeps_for_pages. intros. by apply keeps_gc_term.
Qed.

(** C11: garbage collection never deletes an object of a job that is retained:
    one whose record is there and whose terminal records, if any, are no older
    than the retention.  Whatever the other clients do to the space while the
    job stays retained, whatever faults the store injects and however far the
    collection gets, every record, payload, claim, fail and terminal record of
    the job outlives it. *)
Theorem gc_keeps_retained `{Sha256} (q : Queue) (shard : Z) (job : bytes) (now retention horizon : Z)
    (s : HState) (m m' : Space) (r : Result Stop GcReport * HState)
    (Hshard : compute_shard (o_queue_id (q_opts q)) job (shard_count (q_format q)) = Some shard)
    (Hs : cached_ok s)
    (Hm : retained q shard job (saturating_sub now retention) m)
    (Hrun : exec (retains q shard job (saturating_sub now retention)) (gc q now retention horizon s) m r m') :
  retained q shard job (saturating_sub now retention) m' /\
  forall k, belongs shard job k -> is_Some (m !! absolute q k) -> is_Some (m' !! absolute q k).
Proof.
  destruct (exec_wp _ _ _ _ _ _ Hrun (keeps_gc q shard job now retention horizon Hshard m Hm s Hs)) as (Hr & _).
  by apply Hr.
Qed.

(** ** A space with a live job and an expired one *)

#[local] Existing Instance toy_digest.
#[local] Existing Instance memory_store.

Definition sample_gc : M GcReport := gc sample_queue 1000000 0 999990.
Definition sample_gc_report : GcReport :=
  {| gc_jobs_deleted := 1; gc_claim_orphans_deleted := 0; gc_beacons_deleted := 0; gc_orphans_deleted := 0 |}.
Definition objects_collected := Eval vm_compute in objects_after (sample_gc (fresh_handle 64)) sample_world2.
Definition world_collected : World MemoryStore := world_with objects_collected 15 15 3 1.

Lemma ends_collected : ends (sample_gc (fresh_handle 64)) sample_world2 (Ok sample_gc_report) 20 world_collected.
Proof. apply ends_with; [done|done|]. vm_compute. reflexivity. Qed.

(** No terminal record of a job among a world's objects. *)
Definition no_terminal (job : bytes) (objs : list (bytes * Stored)) : bool :=
  forallb (fun o => negb (bool_decide (drop (length o.1 - 32) o.1 = push_hex job) &&
    (starts_with (q_root sample_queue ++ ¶"receipts/") o.1 || starts_with (q_root sample_queue ++ ¶"dead/") o.1))) objs.

Lemma no_terminal_absent job objs v c t k (s : Z) (e : Entry) :
  length job = 16%nat -> no_terminal job objs = true ->
  ~ (store_view (w_store (world_with objs v c t k)) !! absolute sample_queue (KReceipt s job) = Some e \/
     store_view (w_store (world_with objs v c t k)) !! absolute sample_queue (KDead s job) = Some e).
Proof.
  intros Hj Hn Hk. assert (exists p x, (p = ¶"receipts/" \/ p = ¶"dead/") /\
    (q_root sample_queue ++ p ++ hex16 s ++ [slash] ++ push_hex job, x) ∈ objs) as (p & x & Hp & Hx).
  { destruct Hk as [Hk|Hk]; pose proof (eq_trans (eq_sym (view_lookup (w_store _) _)) Hk) as (x & Hx & _)%fmap_Some;
      apply elem_of_list_to_map_2 in Hx; eauto. }
  apply list_elem_of_In in Hx. unfold no_terminal in Hn. rewrite forallb_forall in Hn. specialize (Hn _ Hx). cbn [fst] in Hn.
  assert (length (push_hex job) = 32%nat) as Hl by (rewrite push_hex_length; lia).
  rewrite (bool_decide_eq_true_2 (drop _ _ = _)) in Hn.
  - assert (starts_with (q_root sample_queue ++ p) (q_root sample_queue ++ p ++ hex16 s ++ [slash] ++ push_hex job) = true) as Hs.
    { apply starts_with_iff. eexists. by rewrite <- !app_assoc. }
    destruct Hp as [-> | ->]; rewrite Hs in Hn; rewrite ?orb_true_r in Hn; done.
  - rewrite !app_assoc. rewrite length_app, Hl, Nat.add_sub. by rewrite drop_app_length.
Qed.

Lemma sample_retained : retained sample_queue 0 vector_job_id 1000000 sample_space2.
Proof.
  split; [apply (bool_decide_eq_true_1 _); by vm_compute|]. intros s e He. exfalso. revert He. by apply no_terminal_absent.
Qed.

Lemma gc_keeps_retained_witness :
  is_Some (sample_space2 !! absolute sample_queue (KReceipt 0 sample_job2)) /\
  store_view (w_store world_collected) !! absolute sample_queue (KReceipt 0 sample_job2) = None /\
  is_Some (store_view (w_store world_collected) !! absolute sample_queue (KJob 0 vector_job_id)) /\
  is_Some (store_view (w_store world_collected) !! absolute sample_queue (KClaim 0 vector_job_id 1)).
Proof.
  destruct (ends_exec (retains sample_queue 0 vector_job_id (saturating_sub 1000000 0)) _ _ _ _ _ ends_collected)
    as [s Hrun].
  { apply (ends_ok _ _ _ _ _ 20 ends2), (ends_ok _ _ _ _ _ 39 ends1), sample_world_ok. lia. }
  destruct (gc_keeps_retained sample_queue 0 vector_job_id 1000000 0 999990 (fresh_handle 64) sample_space2
    (store_view (w_store world_collected)) (Ok sample_gc_report, s)) as [_ Hk].
  - by vm_compute.
  - apply fresh_cached.
  - apply sample_retained.
  - exact Hrun.
  - split; [apply (bool_decide_eq_true_1 _); by vm_compute|]. split; [by vm_compute|].
    split; (apply Hk; [by split|apply (bool_decide_eq_true_1 _); by vm_compute]).
Defined.
