(* ===== verification/Dates.v ===== *)
(** Dates of [stowq-store-http]: the stamps of a signed request ([lib.rs]),
    the [Last-Modified] header ([lib.rs]) and the listing's timestamps
    ([xml.rs]).

    Divisions of [i64] truncate; sums and products wrap at the width the code
    has, as in a release build. *)

From S2P Require Import Prelude Text.

Definition SECOND_NS : Z := 1000000000.

Definition civil_from_days (z : Z) : Z * Z * Z :=
  let z := z + 719468 in
  let era := Z.quot (if 0 <=? z then z else z - 146096) 146097 in
  let doe := as_u64 (z - era * 146097) in
  let yoe := (doe - doe / 1460 + doe / 36524 - doe / 146096) / 365 in
  let y := yoe + era * 400 in
  let doy := doe - (365 * yoe + yoe / 4 - yoe / 100) in
  let mp := (5 * doy + 2) / 153 in
  let d := doy - (153 * mp + 2) / 5 + 1 in
  let m := if mp <? 10 then mp + 3 else mp - 9 in
  (if m <=? 2 then y + 1 else y, m, d).

Definition stamps_from_unix (secs : Z) : bytes * bytes :=
  let days := secs / 86400 in
  let rem := secs mod 86400 in
  let '(y, m, d) := civil_from_days days in
  (pad 4 y ++ pad 2 m ++ pad 2 d,
   pad 4 y ++ pad 2 m ++ pad 2 d ++ ¶"T" ++ pad 2 (rem / 3600) ++ pad 2 (rem mod 3600 / 60)
     ++ pad 2 (rem mod 60) ++ ¶"Z").

(** The days of a date since 1970, as both parsers compute them. *)
Definition days_from_civil (year month day : Z) : Z :=
  let y := if month <=? 2 then as_i64 (year - 1) else year in
  let era := Z.quot (if 0 <=? y then y else as_i64 (y - 399)) 400 in
  let yoe := as_u64 (y - era * 400) in
  let mp := if 2 <? month then month - 3 else month + 9 in
  let doy := as_u64 ((153 * mp + 2) / 5 + as_u64 day - 1) in
  let doe := as_u64 (yoe * 365 + yoe / 4 - yoe / 100 + doy) in
  as_i64 (doe + era * 146097 - 719468).

Definition month_names : list bytes :=
  [¶"Jan"; ¶"Feb"; ¶"Mar"; ¶"Apr"; ¶"May"; ¶"Jun"; ¶"Jul"; ¶"Aug"; ¶"Sep"; ¶"Oct"; ¶"Nov"; ¶"Dec"].

Definition month_number (name : bytes) : option Z :=
  '(i, _) ← list_find (fun n => n = name) month_names; Some (Z.of_nat i + 1).

(** "Sun, 06 Nov 1994 08:49:37 GMT" to nanoseconds. *)
Definition parse_http_date (s : bytes) : option Z :=
  let parts := split_whitespace s in
  if (length parts <? 5)%nat then None
  else
    day ← parse_i64 (nth 1 parts []);
    year ← parse_i64 (nth 3 parts []);
    month ← month_number (nth 2 parts []);
    let days := days_from_civil year month day in
    let time := split_on Init.Byte.x3a (nth 4 parts []) in
    if negb (length time =? 3)%nat then None
    else
      h ← parse_i64 (nth 0 time []);
      mi ← parse_i64 (nth 1 time []);
      sec ← parse_i64 (nth 2 time []);
      let secs := as_i64 (days * 86400 + h * 3600 + mi * 60 + sec) in
      Some (saturating_mul (as_u64 secs) SECOND_NS).

(** "1994-11-06T08:49:37.000Z" to nanoseconds.  A field that would cut a
    character in two does not parse as a number either. *)
Definition parse_iso8601_secs (s : bytes) : option Z :=
  if (length s <? 19)%nat then None
  else
    let field start stop := take (stop - start) (drop start s) in
    year ← parse_i64 (field 0 4)%nat;
    month ← parse_unsigned u64_max (field 5 7)%nat;
    day ← parse_i64 (field 8 10)%nat;
    hour ← parse_i64 (field 11 13)%nat;
    minute ← parse_i64 (field 14 16)%nat;
    second ← parse_i64 (field 17 19)%nat;
    let secs := as_i64 (days_from_civil year month day * 86400 + hour * 3600 + minute * 60 + second) in
    Some (wrapping_mul (as_u64 secs) SECOND_NS).

(** The repository's known dates. *)
Example stamps_epoch : stamps_from_unix 0 = (¶"19700101", ¶"19700101T000000Z").
Proof. by vm_compute. Qed.
Example stamps_2026 : stamps_from_unix 1786997130 = (¶"20260817", ¶"20260817T200530Z").
Proof. by vm_compute. Qed.
Example stamps_leap_day : (stamps_from_unix 1709164800).1 = ¶"20240229".
Proof. by vm_compute. Qed.

(* ------------------------------------------------------------------ *)
(** * The calendar *)

(** The days of the 400-year era before its year [y], and the year of a day. *)
Definition era_start (y : Z) : Z := 365 * y + y / 4 - y / 100.
Definition era_days (d : Z) : Z := d - d / 1460 + d / 36524 - d / 146096.

Lemma era_days_step d : 0 <= d < 146096 -> era_days d <= era_days (d + 1).
Proof. unfold era_days. intros Hd. Z.to_euclidean_division_equations. lia. Qed.

Lemma era_days_mono a b : 0 <= a -> a <= b -> b <= 146096 -> era_days a <= era_days b.
Proof.
  intros Ha Hab. pattern b. apply (Zlt_lower_bound_ind _ a); [|done]. clear b Hab. intros b IH Hab Hb.
  destruct (decide (a = b)) as [->|]; [lia|].
  etrans; [apply (IH (b - 1)); lia|]. etrans; [apply era_days_step; lia|]. by replace (b - 1 + 1) with b by lia.
Qed.

(** The first and the last day of each year of the era. *)
Lemma era_years : forallb (fun y =>
  (era_days (era_start y) / 365 =? y) &&
  (era_days (if y =? 399 then 146096 else era_start (y + 1) - 1) / 365 =? y)) (seqZ 0 400) = true.
Proof. by vm_compute. Qed.

Lemma era_year_of d y :
  era_days d / 365 = y -> 0 <= d < 146097 -> 0 <= y < 400 /\ era_start y <= d /\ d - era_start y <= 365.
Proof.
  intros Ey Hd. assert (0 <= y < 400) as Hy.
  { subst y. pose proof (era_days_mono 0 d). pose proof (era_days_mono d 146096).
    change (era_days 0) with 0 in *. change (era_days 146096) with 145999 in *.
    split; [apply Z.div_pos; lia|apply Z.div_lt_upper_bound; lia]. }
  assert (forall k, 0 <= k < 400 -> era_days (era_start k) / 365 = k /\
    era_days (if k =? 399 then 146096 else era_start (k + 1) - 1) / 365 = k) as Hk.
  { intros k Hk. pose proof era_years as He. rewrite forallb_forall in He. specialize (He k).
    rewrite <- list_elem_of_In, elem_of_seqZ in He. specialize (He ltac:(lia)). lia. }
  assert (forall k, 0 <= k < 400 -> 0 <= era_start k <= 146096) as Hs.
  { intros k Hk0. unfold era_start. Z.to_euclidean_division_equations. lia. }
  assert (era_start y <= d) as H1.
  { destruct (Z.le_gt_cases (era_start y) d) as [|Hlt]; [done|].
    destruct (decide (y = 0)) as [E|]; [rewrite E in Hlt; change (era_start 0) with 0 in Hlt; lia|].
    destruct (Hk (y - 1) ltac:(lia)) as [_ Hl]. replace (y - 1 + 1) with y in Hl by lia.
    destruct (Z.eqb_spec (y - 1) 399); [lia|]. specialize (Hs y Hy).
    pose proof (era_days_mono d (era_start y - 1) ltac:(lia) ltac:(lia) ltac:(lia)) as Hm.
    apply (Z.div_le_mono _ _ 365) in Hm; [|lia]. rewrite Ey in Hm. lia. }
  split; [done|]. split; [done|]. destruct (decide (y = 399)) as [->|]; [change (era_start 399) with 145731; lia|].
  destruct (Z.le_gt_cases (era_start (y + 1)) d) as [Hge|Hlt].
  - destruct (Hk (y + 1) ltac:(lia)) as [Hf _].
    pose proof (era_days_mono (era_start (y + 1)) d) as Hm. specialize (Hs (y + 1) ltac:(lia)).
    specialize (Hm ltac:(lia) ltac:(lia) ltac:(lia)). apply (Z.div_le_mono _ _ 365) in Hm; [|lia]. rewrite Ey in Hm. lia.
  - clear -Hlt. unfold era_start in *. Z.to_euclidean_division_equations. lia.
Qed.

Lemma as_u64_small z : is_u64 z -> as_u64 z = z.
Proof. unfold is_u64, as_u64. intros. apply Z.mod_small. lia. Qed.
Lemma as_i64_small z : - 2 ^ 63 <= z < 2 ^ 63 -> as_i64 z = z.
Proof. unfold as_i64. intros. rewrite Z.mod_small; lia. Qed.

(** The days that 64-bit nanoseconds can name. *)
Definition last_second : Z := 18446744073.

Lemma civil_from_days_spec z :
  0 <= z <= last_second / 86400 ->
  let '(y, m, d) := civil_from_days z in
  1970 <= y <= 2800 /\ 1 <= m <= 12 /\ 1 <= d <= 31 /\ days_from_civil y m d = z.
Proof.
  change (last_second / 86400) with 213503. intros Hz. unfold civil_from_days.
  rewrite (proj2 (Z.leb_le 0 (z + 719468))) by lia. rewrite Z.quot_div_nonneg by lia.
  set (era := (z + 719468) / 146097).
  assert (z + 719468 - era * 146097 = (z + 719468) mod 146097) as -> by (unfold era; rewrite Z.mod_eq by lia; lia).
  pose proof (Z.mod_pos_bound (z + 719468) 146097 ltac:(lia)) as Hdoe.
  pose proof (Z.div_mod (z + 719468) 146097 ltac:(lia)) as Hdiv. fold era in Hdiv.
  assert (4 <= era <= 6) as Hera by lia.
  rewrite as_u64_small by (unfold is_u64; lia). set (doe := (z + 719468) mod 146097) in *.
  destruct (era_year_of doe _ eq_refl Hdoe) as (Hyoe & Hstart & Hdoy). unfold era_days in *.
  set (yoe := (doe - doe / 1460 + doe / 36524 - doe / 146096) / 365) in *.
  change (365 * yoe + yoe / 4 - yoe / 100) with (era_start yoe).
  set (doy := doe - era_start yoe) in *. set (mp := (5 * doy + 2) / 153).
  assert (0 <= mp <= 11) as Hmp by (unfold mp; Z.to_euclidean_division_equations; lia).
  assert (1 <= doy - (153 * mp + 2) / 5 + 1 <= 31) as Hd
    by (unfold mp; Z.to_euclidean_division_equations; lia).
  set (d := doy - (153 * mp + 2) / 5 + 1) in *. set (m := if mp <? 10 then mp + 3 else mp - 9).
  assert (1 <= m <= 12 /\ (m <=? 2) = (10 <=? mp) /\ (if 2 <? m then m - 3 else m + 9) = mp) as (Hm & Hm2 & Hmp2)
    by (unfold m; destruct (Z.ltb_spec mp 10); split_and!; try lia; case_match; lia).
  unfold days_from_civil. rewrite Hmp2, Hm2.
  assert (1969 <= yoe + era * 400 <= 2799 /\ (1969 = yoe + era * 400 -> 10 <= mp)) as [Hyear H1969].
  { clear -Hdiv Hz Hdoe Hyoe Hstart Hdoy Hera. unfold mp, doy, era_start in *. split.
    - Z.to_euclidean_division_equations. lia.
    - intros E. assert (yoe = 369) as Ey by lia. rewrite Ey in *. change (369 / 4) with 92 in *. change (369 / 100) with 3 in *.
      Z.to_euclidean_division_equations. lia. }
  split; [destruct (10 <=? mp) eqn:E; lia|]. split; [done|]. split; [done|].
  assert ((if 10 <=? mp then as_i64 ((if 10 <=? mp then yoe + era * 400 + 1 else yoe + era * 400) - 1)
           else if 10 <=? mp then yoe + era * 400 + 1 else yoe + era * 400) = yoe + era * 400) as ->
    by (destruct (10 <=? mp); [rewrite as_i64_small by lia|]; lia).
  rewrite (proj2 (Z.leb_le 0 (yoe + era * 400))) by lia. rewrite Z.quot_div_nonneg by lia.
  assert ((yoe + era * 400) / 400 = era) as -> by (rewrite Z.div_add by lia; rewrite Z.div_small; lia).
  replace (yoe + era * 400 - era * 400) with yoe by lia.
  rewrite (as_u64_small yoe), (as_u64_small d) by (unfold is_u64; lia).
  replace ((153 * mp + 2) / 5 + d - 1) with doy by (unfold d; lia).
  rewrite (as_u64_small doy) by (unfold is_u64, doy; lia).
  replace (yoe * 365 + yoe / 4 - yoe / 100 + doy) with doe by (unfold doy, era_start; lia).
  rewrite as_u64_small, as_i64_small by (unfold is_u64; lia). lia.
Qed.

(* ------------------------------------------------------------------ *)
(** * Texts *)

(** The formats of RFC 9110 and ISO 8601, from the signing clock's calendar. *)
Definition clock_text (secs : Z) : bytes :=
  pad 2 (secs mod 86400 / 3600) ++ ¶":" ++ pad 2 (secs mod 86400 mod 3600 / 60) ++ ¶":" ++ pad 2 (secs mod 86400 mod 60).
Definition day_names : list bytes := [¶"Thu"; ¶"Fri"; ¶"Sat"; ¶"Sun"; ¶"Mon"; ¶"Tue"; ¶"Wed"].
Definition http_date (secs : Z) : bytes :=
  let '(y, m, d) := civil_from_days (secs / 86400) in
  nth (Z.to_nat (secs / 86400 mod 7)) day_names [] ++ ¶", " ++ pad 2 d ++ ¶" " ++
  nth (Z.to_nat (m - 1)) month_names [] ++ ¶" " ++ pad 4 y ++ ¶" " ++ clock_text secs ++ ¶" GMT".
Definition iso8601 (secs : Z) : bytes :=
  let '(y, m, d) := civil_from_days (secs / 86400) in
  pad 4 y ++ ¶"-" ++ pad 2 m ++ ¶"-" ++ pad 2 d ++ ¶"T" ++ clock_text secs ++ ¶".000Z".

Example http_date_known : http_date 784111777 = ¶"Sun, 06 Nov 1994 08:49:37 GMT".
Proof. by vm_compute. Qed.
Example iso8601_known : iso8601 784111777 = ¶"1994-11-06T08:49:37.000Z".
Proof. by vm_compute. Qed.

(** A field at its place in a text of fields of known widths. *)
Lemma field_at (pre x post : bytes) (start stop : nat) :
  length pre = start -> (length x = stop - start)%nat -> take (stop - start) (drop start (pre ++ x ++ post)) = x.
Proof. intros <- Hx. rewrite drop_app_length, <- Hx. apply take_app_length. Qed.

(** A word without whitespace. *)
Definition printable (b : byte) : bool := (33 <=? byte_val b) && (byte_val b <=? 126).
Lemma printable_width b s : printable b = true -> whitespace_width (b :: s) = 0%nat.
Proof.
  unfold printable, whitespace_width. intros Hb. cbn [take map].
  destruct ((9 <=? byte_val b) && (byte_val b <=? 13) || (byte_val b =? 32)) eqn:E1; [lia|].
  destruct (map byte_val (take 2 s)) as [|x [|y [|z l]]]; try done;
    repeat match goal with |- context [if ?c then _ else _] => destruct c eqn:?; try lia; try done end.
Qed.
Lemma split_words_word w x rest :
  w ++ x <> [] -> Forall (fun b => printable b = true) x ->
  split_words 0 w (x ++ ¶" " ++ rest) = (w ++ x) :: split_words 0 [] rest.
Proof.
  intros Hne Hx. revert w Hne. induction Hx as [|b x Hb _ IH]; intros w Hne; rewrite ?app_nil_r in *.
  - change ([] ++ ¶" " ++ rest) with (Init.Byte.x20 :: rest). cbn [split_words].
    change (whitespace_width (Init.Byte.x20 :: rest)) with 1%nat. cbn iota. by destruct w.
  - cbn [app split_words]. rewrite printable_width by done. rewrite IH; [by rewrite <- app_assoc|by destruct w].
Qed.

Lemma digits_printable s : Forall (fun b => is_digit b = true) s -> Forall (fun b => printable b = true) s.
Proof.
  intros Hs. eapply Forall_impl; [exact Hs|]. intros b. unfold is_digit, digit_value, printable.
  destruct ((48 <=? byte_val b) && (byte_val b <=? 57)) eqn:E; [lia|done].
Qed.

Lemma month_known m : 1 <= m <= 12 ->
  month_number (nth (Z.to_nat (m - 1)) month_names []) = Some m /\
  Forall (fun b => printable b = true) (nth (Z.to_nat (m - 1)) month_names []) /\
  nth (Z.to_nat (m - 1)) month_names [] <> [].
Proof.
  intros Hm. assert (m = 1 \/ m = 2 \/ m = 3 \/ m = 4 \/ m = 5 \/ m = 6 \/ m = 7 \/ m = 8 \/ m = 9 \/
    m = 10 \/ m = 11 \/ m = 12) as Hc by lia.
  destruct_or! Hc; subst m; (split; [by vm_compute|]; split; [repeat constructor|done]).
Qed.

Lemma day_known k : 0 <= k < 7 ->
  Forall (fun b => printable b = true) (nth (Z.to_nat k) day_names [] ++ ¶",") /\ nth (Z.to_nat k) day_names [] ++ ¶"," <> [].
Proof.
  intros Hk. assert (k = 0 \/ k = 1 \/ k = 2 \/ k = 3 \/ k = 4 \/ k = 5 \/ k = 6) as Hc by lia.
  destruct_or! Hc; subst k; (split; [repeat constructor|done]).
Qed.

Lemma clock_parts secs :
  0 <= secs mod 86400 / 3600 <= 23 /\ 0 <= secs mod 86400 mod 3600 / 60 <= 59 /\ 0 <= secs mod 86400 mod 60 <= 59 /\
  secs = secs / 86400 * 86400 + (secs mod 86400 / 3600) * 3600 + (secs mod 86400 mod 3600 / 60) * 60 + secs mod 86400 mod 60.
Proof. Z.to_euclidean_division_equations. lia. Qed.

Lemma clock_split secs :
  split_on Init.Byte.x3a (clock_text secs) =
    [pad 2 (secs mod 86400 / 3600); pad 2 (secs mod 86400 mod 3600 / 60); pad 2 (secs mod 86400 mod 60)] /\
  Forall (fun b => printable b = true) (clock_text secs) /\ length (clock_text secs) = 8%nat.
Proof.
  destruct (clock_parts secs) as (Hh & Hm & Hs & _). unfold clock_text.
  set (h := secs mod 86400 / 3600) in *. set (mi := secs mod 86400 mod 3600 / 60) in *.
  set (s := secs mod 86400 mod 60) in *. clearbody h mi s.
  assert (forall v, 0 <= v -> Init.Byte.x3a ∉ pad 2 v) as Hc by (intros; by apply digits_not, pad_digits).
  split; [|split].
  - change ¶":" with [Init.Byte.x3a]. cbn [app].
    rewrite !split_on_app by (apply Hc; lia). by rewrite split_on_no by (apply Hc; lia).
  - rewrite !Forall_app. split_and!; first [apply digits_printable, pad_digits; lia|by repeat constructor].
  - rewrite !length_app, !pad_length by (cbn; lia). done.
Qed.

Lemma seconds_exact secs days h m s :
  0 <= secs <= last_second -> days = secs / 86400 ->
  secs = secs / 86400 * 86400 + h * 3600 + m * 60 + s ->
  as_u64 (as_i64 (days * 86400 + h * 3600 + m * 60 + s)) = secs.
Proof.
  unfold last_second. intros Hsecs -> E. rewrite <- E. rewrite as_i64_small by lia.
  apply as_u64_small. unfold is_u64. lia.
Qed.

Lemma parse_http_date_text secs : 0 <= secs <= last_second -> parse_http_date (http_date secs) = Some (secs * SECOND_NS).
Proof.
  intros Hs. assert (0 <= secs / 86400 <= last_second / 86400) as Hdays
    by (split; [apply Z.div_pos; lia|apply Z.div_le_mono; lia]).
  pose proof (civil_from_days_spec _ Hdays) as Hc. unfold http_date.
  destruct (civil_from_days (secs / 86400)) as [[y m] d]. destruct Hc as (Hy & Hm & Hd & Hdate).
  destruct (month_known m Hm) as (Hmn & Hmp & Hmne).
  destruct (day_known (secs / 86400 mod 7) ltac:(apply Z.mod_pos_bound; lia)) as [Hdp Hdne].
  destruct (clock_split secs) as (Ht & Htp & Htl). destruct (clock_parts secs) as (Hh & Hmi & Hsec & E).
  assert (forall w v, 0 <= v -> Forall (fun b => printable b = true) (pad w v)) as Hpp
    by (intros; by apply digits_printable, pad_digits).
  pose proof (pad_nonempty 2 d). pose proof (pad_nonempty 4 y).
  unfold parse_http_date, split_whitespace.
  change (¶", ") with (¶"," ++ ¶" "). rewrite <- (app_assoc ¶","), (app_assoc (nth _ day_names [])).
  rewrite split_words_word by done. rewrite split_words_word by (auto with lia).
  rewrite split_words_word by done. rewrite split_words_word by (auto with lia).
  change (¶" GMT") with (¶" " ++ ¶"GMT").
  rewrite split_words_word; [|by destruct (clock_text secs)|done]. cbn [app].
  change (split_words 0 [] ¶"GMT") with [¶"GMT"]. cbn [length Nat.ltb Nat.leb nth].
  rewrite !parse_i64_pad by lia. cbn [mbind option_bind]. rewrite Hmn. cbn [mbind option_bind].
  rewrite Ht. cbn [length Nat.eqb negb nth]. rewrite !parse_i64_pad by lia. cbn [mbind option_bind].
  rewrite (seconds_exact secs) by (done || (rewrite Hdate; done)). f_equal. unfold saturating_mul, SECOND_NS, last_second in *. lia.
Qed.

Lemma parse_iso8601_text secs : 0 <= secs <= last_second -> parse_iso8601_secs (iso8601 secs) = Some (secs * SECOND_NS).
Proof.
  intros Hs. assert (0 <= secs / 86400 <= last_second / 86400) as Hdays
    by (split; [apply Z.div_pos; lia|apply Z.div_le_mono; lia]).
  pose proof (civil_from_days_spec _ Hdays) as Hc. unfold iso8601, clock_text.
  destruct (civil_from_days (secs / 86400)) as [[y m] d]. destruct Hc as (Hy & Hm & Hd & Hdate).
  destruct (clock_parts secs) as (Hh & Hmi & Hsec & E).
  set (h := secs mod 86400 / 3600) in *. set (mi := secs mod 86400 mod 3600 / 60) in *.
  set (s := secs mod 86400 mod 60) in *.
  assert (length (pad 4 y) = 4%nat) as L1 by (apply pad_length; cbn; lia).
  assert (forall v, 0 <= v <= 59 -> length (pad 2 v) = 2%nat) as L2 by (intros; apply pad_length; cbn; lia).
  unfold parse_iso8601_secs. rewrite (proj2 (Nat.ltb_ge _ _)) by (rewrite !length_app, L1, !L2 by lia; cbn; lia).
  set (text := pad 4 y ++ _).
  assert (take (4 - 0) (drop 0 text) = pad 4 y) as -> by (by apply (field_at [])).
  assert (take (7 - 5) (drop 5 text) = pad 2 m) as ->.
  { unfold text. rewrite (app_assoc (pad 4 y)). apply field_at; [by rewrite length_app, L1|rewrite L2 by lia; done]. }
  assert (take (10 - 8) (drop 8 text) = pad 2 d) as ->.
  { unfold text. rewrite !(app_assoc _ _ (pad 2 d ++ _)). apply field_at; [|rewrite L2 by lia; done].
    by rewrite !length_app, L1, !L2 by lia. }
  assert (take (13 - 11) (drop 11 text) = pad 2 h) as ->.
  { unfold text. rewrite <- (app_assoc (pad 2 h)), !(app_assoc _ _ (pad 2 h ++ _)). apply field_at; [|rewrite L2 by lia; done].
    by rewrite !length_app, L1, !L2 by lia. }
  assert (take (16 - 14) (drop 14 text) = pad 2 mi) as ->.
  { unfold text. rewrite <- !(app_assoc), !(app_assoc _ _ (pad 2 mi ++ _)). apply field_at; [|rewrite L2 by lia; done].
    by rewrite !length_app, L1, !L2 by lia. }
  assert (take (19 - 17) (drop 17 text) = pad 2 s) as ->.
  { unfold text. rewrite <- !(app_assoc), !(app_assoc _ _ (pad 2 s ++ _)). apply field_at; [|rewrite L2 by lia; done].
    by rewrite !length_app, L1, !L2 by lia. }
  rewrite !parse_i64_pad by lia. rewrite parse_unsigned_pad by lia. cbn [mbind option_bind].
  rewrite Hdate, (seconds_exact secs) by done. f_equal. unfold wrapping_mul, SECOND_NS, last_second in *.
  apply Z.mod_small. lia.
Qed.

(** C35: the client reads a store's times back exactly, on both surfaces: for
    every second a 64-bit count of nanoseconds can hold, the [Last-Modified]
    header and the listing timestamp of that second, written with the signing
    clock's own calendar, parse to that second in nanoseconds. *)
Theorem store_dates_read_back (secs : Z) (Hs : 0 <= secs <= u64_max / SECOND_NS) :
  parse_http_date (http_date secs) = Some (secs * SECOND_NS) /\
  parse_iso8601_secs (iso8601 secs) = Some (secs * SECOND_NS).
Proof. split; [by apply parse_http_date_text|by apply parse_iso8601_text]. Qed.

(** A leap day. *)
Lemma store_dates_read_back_witness :
  http_date 1709164800 = ¶"Thu, 29 Feb 2024 00:00:00 GMT" /\
  parse_http_date (http_date 1709164800) = Some 1709164800000000000 /\
  parse_iso8601_secs (iso8601 1709164800) = Some 1709164800000000000.
Proof.
  split; [by vm_compute|]. apply (store_dates_read_back 1709164800). split; [done|]. by apply Z.leb_le.
Defined.
