(* ===== verification/Xml.v ===== *)
(** [stowq-store-http/src/xml.rs]: reading a ListObjectsV2 response.

    The scanner looks for literal tags.  [render] writes a response document
    the way the S3 family does, and [parse_list] reads back exactly what was
    listed, whatever bytes the keys hold. *)

From S2P Require Import Prelude Text Dates.

Record ListContents := {
  lc_key : bytes;
  lc_etag : bytes;
  lc_last_modified_ns : Z;
  lc_size : Z
}.
Record ListResponse := {
  lr_contents : list (bytes * ListContents);
  lr_is_truncated : bool
}.

Definition open_tag (tag : bytes) : bytes := ¶"<" ++ tag ++ ¶">".
Definition close_tag (tag : bytes) : bytes := ¶"</" ++ tag ++ ¶">".

(** The first [<tag>...</tag>]. *)
Definition extract (xml tag : bytes) : option bytes :=
  '(_, rest) ← find_split (open_tag tag) xml;
  '(value, _) ← find_split (close_tag tag) rest;
  Some value.

(** What an entity stands for. *)
Definition entity_replacement (e : bytes) : option bytes :=
  if decide (e = ¶"&amp;") then Some ¶"&"
  else if decide (e = ¶"&lt;") then Some ¶"<"
  else if decide (e = ¶"&gt;") then Some ¶">"
  else if decide (e = ¶"&quot;") then Some [Init.Byte.x22]
  else if decide (e = ¶"&apos;") then Some ¶"'"
  else if starts_with ¶"&#" e then
    n ← parse_unsigned u32_max (take (length e - 3) (drop 2 e)); char_from_u32 n
  else None.

(** [xml_unescape]: every turn consumes at least the ampersand. *)
Fixpoint unescape_loop (fuel : nat) (rest : bytes) : bytes :=
  match fuel with
  | O => []
  | S fuel =>
      match find_split ¶"&" rest with
      | None => rest
      | Some (before, after) =>
          match find_split ¶";" after with
          | Some (name, tail) =>
              let entity := ¶"&" ++ name ++ ¶";" in
              before ++ default entity (entity_replacement entity) ++ unescape_loop fuel tail
          | None => before ++ ¶"&" ++ unescape_loop fuel after
          end
      end
  end.
Definition xml_unescape (s : bytes) : bytes := unescape_loop (S (length s)) s.

(** One [<Contents>] block. *)
Definition parse_block (block : bytes) : bytes * ListContents :=
  let key := default [] (xml_unescape <$> extract block ¶"Key") in
  let etag := default [] ((fun e => trim_matches Init.Byte.x22 (xml_unescape e)) <$> extract block ¶"ETag") in
  let last_modified_ns := default 0 (extract block ¶"LastModified" ≫= parse_iso8601_secs) in
  let size := default 0 (extract block ¶"Size" ≫= parse_unsigned u64_max) in
  (key, {| lc_key := []; lc_etag := etag; lc_last_modified_ns := last_modified_ns; lc_size := size |}).

(** The loop over the blocks: every turn consumes at least an opening tag. *)
Fixpoint contents_loop (fuel : nat) (rest : bytes) : list (bytes * ListContents) :=
  match fuel with
  | O => []
  | S fuel =>
      match find_split (open_tag ¶"Contents") rest with
      | None => []
      | Some (_, after_open) =>
          match find_split (close_tag ¶"Contents") after_open with
          | None => []
          | Some (block, rest) => parse_block block :: contents_loop fuel rest
          end
      end
  end.

Definition parse_list (xml : bytes) : ListResponse :=
  {| lr_contents := contents_loop (S (length xml)) xml;
     lr_is_truncated := default false ((fun v => bytes_eqb v ¶"true") <$> extract xml ¶"IsTruncated") |}.

(* ------------------------------------------------------------------ *)
(** * The fuel is enough *)

Lemma find_split_some pat s before after : find_split pat s = Some (before, after) -> s = before ++ pat ++ after.
Proof.
  revert before after. induction s as [|b s IH]; intros before after; cbn [find_split];
    destruct (strip_prefix pat _) as [r|] eqn:E; try done.
  1, 2: apply strip_prefix_some in E; by intros [= <- <-].
  destruct (find_split pat s) as [[x y]|]; [|done]. cbn. intros [= <- <-]. cbn. f_equal. by apply IH.
Qed.

Lemma find_split_shorter pat s before after :
  pat <> [] -> find_split pat s = Some (before, after) -> (length after < length s)%nat.
Proof.
  intros Hp ->%find_split_some. rewrite !length_app. destruct pat; [done|]. cbn. lia.
Qed.

Lemma unescape_fuel n s : (length s < n)%nat -> unescape_loop n s = xml_unescape s.
Proof.
  assert (forall n m s, (length s < n)%nat -> (length s < m)%nat -> unescape_loop n s = unescape_loop m s) as Hn;
    [|intros; apply Hn; lia].
  clear. induction n as [|n IH]; intros [|m] s Hn Hm; try lia. cbn [unescape_loop].
  destruct (find_split ¶"&" s) as [[before after]|] eqn:E1; [|done]. apply find_split_shorter in E1; [|done].
  destruct (find_split ¶";" after) as [[name tail]|] eqn:E2.
  - apply find_split_shorter in E2; [|done]. do 2 f_equal. apply IH; lia.
  - do 2 f_equal. apply IH; lia.
Qed.

Lemma contents_fuel n s : (length s < n)%nat -> contents_loop n s = contents_loop (S (length s)) s.
Proof.
  assert (forall n m s, (length s < n)%nat -> (length s < m)%nat -> contents_loop n s = contents_loop m s) as Hn;
    [|intros; apply Hn; lia].
  clear. induction n as [|n IH]; intros [|m] s Hn Hm; try lia. cbn [contents_loop].
  destruct (find_split _ s) as [[before after]|] eqn:E1; [|done]. apply find_split_shorter in E1; [|done].
  destruct (find_split _ after) as [[block rest]|] eqn:E2; [|done]. apply find_split_shorter in E2; [|done].
  f_equal. apply IH; lia.
Qed.

(* ------------------------------------------------------------------ *)
(** * Writing a response *)

(** The five characters XML text may not hold as they are. *)
Definition escape_byte (b : byte) : bytes :=
  if decide (b = Init.Byte.x26) then ¶"&amp;"
  else if decide (b = Init.Byte.x3c) then ¶"&lt;"
  else if decide (b = Init.Byte.x3e) then ¶"&gt;"
  else if decide (b = Init.Byte.x22) then ¶"&quot;"
  else if decide (b = Init.Byte.x27) then ¶"&apos;"
  else [b].
Definition escape (s : bytes) : bytes := concat (map escape_byte s).

Definition element (tag text : bytes) : bytes := open_tag tag ++ text ++ close_tag tag.

(** A listed object: its key, ETag, seconds and size. *)
Record S3Object := { so_key : bytes; so_etag : bytes; so_secs : Z; so_size : Z }.

Definition quoted (s : bytes) : bytes := [Init.Byte.x22] ++ s ++ [Init.Byte.x22].
Definition render_block (o : S3Object) : bytes :=
  element ¶"Key" (escape (so_key o)) ++ element ¶"LastModified" (iso8601 (so_secs o)) ++
  element ¶"ETag" (escape (quoted (so_etag o))) ++ element ¶"Size" (u64_to_string (so_size o)) ++
  element ¶"StorageClass" ¶"STANDARD".
Definition render (name prefix : bytes) (max_keys : Z) (truncated : bool) (objs : list S3Object) : bytes :=
  ¶"<?xml version='1.0' encoding='UTF-8'?>" ++
  open_tag ¶"ListBucketResult xmlns='http://s3.amazonaws.com/doc/2006-03-01/'" ++
  element ¶"Name" (escape name) ++ element ¶"Prefix" (escape prefix) ++
  element ¶"KeyCount" (u64_to_string (Z.of_nat (length objs))) ++ element ¶"MaxKeys" (u64_to_string max_keys) ++
  element ¶"IsTruncated" (if truncated then ¶"true" else ¶"false") ++
  concat (map (fun o => element ¶"Contents" (render_block o)) objs) ++ close_tag ¶"ListBucketResult".

(** What the reader makes of it. *)
Definition listed_contents (o : S3Object) : bytes * ListContents :=
  (so_key o, {| lc_key := []; lc_etag := so_etag o; lc_last_modified_ns := (so_secs o * SECOND_NS)%Z; lc_size := so_size o |}).
Definition s3_object_wf (o : S3Object) : Prop :=
  (Init.Byte.x22 ∉ so_etag o) /\ 0 <= so_secs o <= last_second /\ is_u64 (so_size o).

(* ------------------------------------------------------------------ *)
(** * Reading it back *)

Definition lt_byte : byte := Init.Byte.x3c.

(** A document as the texts after each [<]. *)
Definition doc (pieces : list bytes) : bytes := concat (map (cons lt_byte) pieces).
Definition plain (s : bytes) : Prop := lt_byte ∉ s.

Lemma doc_app xs ys : doc (xs ++ ys) = doc xs ++ doc ys.
Proof. unfold doc. by rewrite map_app, concat_app. Qed.

(** The first piece that starts with a tag. *)
Fixpoint piece_find (p : bytes) (pieces : list bytes) : option (list bytes * bytes * list bytes) :=
  match pieces with
  | [] => None
  | y :: ys =>
      match strip_prefix p y with
      | Some r => Some ([], r, ys)
      | None => '(before, r, after) ← piece_find p ys; Some (y :: before, r, after)
      end
  end.

Lemma strip_prefix_piece p y ys :
  plain p -> strip_prefix p (y ++ doc ys) = (r ← strip_prefix p y; Some (r ++ doc ys)).
Proof.
  revert y. induction p as [|a p IH]; intros y Hp; [done|]. destruct y as [|b y].
  - destruct ys as [|z ys]; [done|]. cbn. rewrite decide_False; [done|]. intros ->. apply Hp. by left.
  - cbn. destruct (decide (a = b)); [|done]. apply IH. intros Hin. apply Hp. by right.
Qed.

Lemma find_piece p pieces :
  plain p -> Forall plain pieces ->
  find_split (lt_byte :: p) (doc pieces) =
  ('(before, r, after) ← piece_find p pieces; Some (doc before, r ++ doc after)).
Proof.
  intros Hp Hs. induction Hs as [|y ys Hy _ IH]; [done|].
  change (doc (y :: ys)) with (lt_byte :: y ++ doc ys). cbn [find_split strip_prefix piece_find].
  rewrite decide_True by done. rewrite strip_prefix_piece by done. destruct (strip_prefix p y) as [r|]; [done|].
  cbn [mbind option_bind]. rewrite find_split_skip by done. rewrite IH.
  destruct (piece_find p ys) as [[[before r] after]|]; done.
Qed.

Lemma find_piece_after p r pieces :
  plain p -> plain r -> Forall plain pieces ->
  find_split (lt_byte :: p) (r ++ doc pieces) =
  ('(before, r', after) ← piece_find p pieces; Some (r ++ doc before, r' ++ doc after)).
Proof.
  intros Hp Hr Hs. rewrite find_split_skip, find_piece by done.
  by destruct (piece_find p pieces) as [[[before r'] after]|].
Qed.

Lemma piece_find_inv p pieces before r after :
  piece_find p pieces = Some (before, r, after) -> pieces = before ++ (p ++ r) :: after.
Proof.
  revert before. induction pieces as [|y ys IH]; intros before; cbn; [done|].
  destruct (strip_prefix p y) as [r0|] eqn:E.
  - apply strip_prefix_some in E as ->. by intros [= <- <- <-].
  - destruct (piece_find p ys) as [[[b r0] a]|]; [|done]. cbn. intros [= <- <- <-]. cbn. f_equal. by apply IH.
Qed.

Lemma piece_find_app p xs ys :
  Forall (fun x => strip_prefix p x = None) xs ->
  piece_find p (xs ++ ys) = ('(before, r, after) ← piece_find p ys; Some (xs ++ before, r, after)).
Proof.
  induction 1 as [|x xs Hx _ IH]; [cbn [app]; by destruct (piece_find p ys) as [[[]]|]|]. cbn. rewrite Hx, IH.
  by destruct (piece_find p ys) as [[[]]|].
Qed.

Lemma extract_doc pieces tag :
  plain tag -> Forall plain pieces ->
  extract (doc pieces) tag =
  ('(_, r, after) ← piece_find (tag ++ ¶">") pieces;
   '(before, _, _) ← piece_find (¶"/" ++ tag ++ ¶">") after;
   Some (r ++ doc before)).
Proof.
  intros Ht Hs. unfold extract, open_tag, close_tag.
  assert (plain (tag ++ ¶">")) as Hg.
  { unfold plain in *. rewrite elem_of_app. intros [|]; [done|]. by apply (lit_not_elem lt_byte ¶">"). }
  change (¶"<" ++ tag ++ ¶">") with (lt_byte :: tag ++ ¶">").
  change (¶"</" ++ tag ++ ¶">") with (lt_byte :: ¶"/" ++ tag ++ ¶">").
  rewrite find_piece by done. destruct (piece_find _ pieces) as [[[before r] after]|] eqn:E; [|done].
  cbn [mbind option_bind]. apply piece_find_inv in E as ->. apply Forall_app in Hs as [_ Hs].
  apply Forall_cons in Hs as [Hr Ha]. rewrite find_piece_after; [| | |done].
  - by destruct (piece_find _ after) as [[[]]|].
  - unfold plain. change (¶"/" ++ tag ++ ¶">") with (Init.Byte.x2f :: tag ++ ¶">").
    rewrite elem_of_cons. by intros [|].
  - unfold plain in *. rewrite elem_of_app in Hr. tauto.
Qed.

(** ** Escaped text *)

Lemma escape_plain s : plain (escape s).
Proof.
  unfold plain, escape. rewrite list_elem_of_In, in_concat. intros (x & Hx & Hin).
  apply in_map_iff in Hx as (b & <- & _). revert Hin. rewrite <- list_elem_of_In. unfold escape_byte.
  repeat case_decide; try (apply (lit_not_elem lt_byte); by vm_compute).
  rewrite list_elem_of_singleton. by intros <-.
Qed.

Lemma unescape_plain n b t : b <> Init.Byte.x26 -> unescape_loop (S n) (b :: t) = b :: unescape_loop (S n) t.
Proof.
  intros Hb. cbn [unescape_loop]. change (find_split ¶"&" (b :: t)) with
    (match strip_prefix ¶"&" (b :: t) with Some rest => Some ([], rest) | None =>
       '(before, after) ← find_split ¶"&" t; Some (b :: before, after) end).
  change (strip_prefix ¶"&" (b :: t)) with (if decide (Init.Byte.x26 = b) then Some t else None).
  rewrite decide_False by (intros E; apply Hb; by rewrite <- E).
  destruct (find_split ¶"&" t) as [[before after]|]; [|done]. cbn [mbind option_bind].
  by destruct (find_split ¶";" after) as [[name tail]|].
Qed.

#[local] Ltac ent := first [assumption|reflexivity|by apply lit_not_elem|by apply Nat.leb_le|by vm_compute].

Lemma unescape_escape s : xml_unescape (escape s) = s.
Proof.
  unfold xml_unescape. generalize (Nat.lt_succ_diag_r (length (escape s))).
  generalize (S (length (escape s))) as n. induction s as [|b s IH]; intros n Hn; [by destruct n|].
  change (escape (b :: s)) with (escape_byte b ++ escape s) in *. rewrite length_app in Hn.
  destruct n as [|n]; [lia|]. unfold escape_byte in *.
  assert (forall name x, ¶"&" ++ name ++ ¶";" = x -> Init.Byte.x3b ∉ name -> (2 <= length x)%nat ->
    entity_replacement x = Some [b] -> (length x + length (escape s) < S n)%nat ->
    unescape_loop (S n) (x ++ escape s) = b :: s) as He.
  { intros name x <- Hname Hl Hr Hlen. cbn [unescape_loop]. rewrite <- !app_assoc, find_split_here.
    change (¶";") with [Init.Byte.x3b] in *. rewrite find_split_skip by done.
    rewrite find_split_here. cbn [mbind option_bind]. rewrite app_nil_r, Hr. cbn. f_equal. apply IH. lia. }
  repeat case_decide; subst;
    [apply (He ¶"amp"); ent|apply (He ¶"lt"); ent|apply (He ¶"gt"); ent|apply (He ¶"quot"); ent|apply (He ¶"apos"); ent|].
  cbn [app]. rewrite unescape_plain by done. f_equal. apply IH. cbn in Hn. lia.
Qed.

(** ** Elements *)

Definition element_pieces (tag text : bytes) : list bytes := [tag ++ ¶">" ++ text; ¶"/" ++ tag ++ ¶">"].

Lemma element_doc tag text : element tag text = doc (element_pieces tag text).
Proof.
  unfold element, element_pieces, doc, open_tag, close_tag. cbn [map concat].
  rewrite app_nil_r, <- !app_comm_cons, <- !app_assoc. reflexivity.
Qed.

Lemma plain_app a b : plain (a ++ b) <-> plain a /\ plain b.
Proof. unfold plain. rewrite elem_of_app. tauto. Qed.
Lemma plain_lit s : bool_decide (lt_byte ∉ s) = true -> plain s.
Proof. apply lit_not_elem. Qed.
Lemma plain_digits s : Forall (fun b => is_digit b = true) s -> plain s.
Proof. by apply digits_not. Qed.

Lemma plain_element tag text : plain tag -> plain text -> Forall plain (element_pieces tag text).
Proof.
  intros Ht Hx. repeat constructor; rewrite !plain_app; split_and!; try done; by apply plain_lit.
Qed.

Lemma plain_iso8601 secs : 0 <= secs <= last_second -> plain (iso8601 secs).
Proof.
  intros Hs. assert (0 <= secs / 86400 <= last_second / 86400) as Hdays
    by (split; [apply Z.div_pos; lia|apply Z.div_le_mono; lia]).
  pose proof (civil_from_days_spec _ Hdays) as Hc. unfold iso8601, clock_text.
  destruct (civil_from_days (secs / 86400)) as [[y m] d]. destruct Hc as (Hy & Hm & Hd & _).
  destruct (clock_parts secs) as (Hh & Hmi & Hsec & _).
  rewrite !plain_app; split_and!; first [apply plain_digits, pad_digits; lia|by apply plain_lit].
Qed.

(** The block of one object. *)
Definition block_pieces (k d e s : bytes) : list bytes :=
  element_pieces ¶"Key" k ++ element_pieces ¶"LastModified" d ++ element_pieces ¶"ETag" e ++
  element_pieces ¶"Size" s ++ element_pieces ¶"StorageClass" ¶"STANDARD".
Definition object_pieces (o : S3Object) : list bytes :=
  block_pieces (escape (so_key o)) (iso8601 (so_secs o)) (escape (quoted (so_etag o))) (u64_to_string (so_size o)).

Lemma render_block_doc o : render_block o = doc (object_pieces o).
Proof. unfold render_block, object_pieces, block_pieces. by rewrite !element_doc, !doc_app. Qed.

Lemma object_pieces_plain o : s3_object_wf o -> Forall plain (object_pieces o).
Proof.
  intros (_ & Hs & Hz). unfold object_pieces, block_pieces.
  repeat (apply Forall_app; split); apply plain_element; try (by apply plain_lit); try apply escape_plain.
  - by apply plain_iso8601.
  - apply plain_digits, decimal_digits. destruct Hz. lia.
Qed.

Lemma block_fields k d e s :
  Forall plain (block_pieces k d e s) ->
  extract (doc (block_pieces k d e s)) ¶"Key" = Some k /\
  extract (doc (block_pieces k d e s)) ¶"LastModified" = Some d /\
  extract (doc (block_pieces k d e s)) ¶"ETag" = Some e /\
  extract (doc (block_pieces k d e s)) ¶"Size" = Some s.
Proof.
  intros Hp. rewrite !extract_doc by (done || by apply plain_lit).
  split_and!; [exact (f_equal Some (app_nil_r k))|exact (f_equal Some (app_nil_r d))
    |exact (f_equal Some (app_nil_r e))|exact (f_equal Some (app_nil_r s))].
Qed.

Lemma trim_start_none c s : c ∉ s -> trim_start_matches c s = s.
Proof. destruct s as [|b s]; cbn; [done|]. intros Hc. rewrite decide_False by set_solver. done. Qed.
Lemma trim_quoted s : Init.Byte.x22 ∉ s -> trim_matches Init.Byte.x22 (quoted s) = s.
Proof.
  intros Hs. unfold trim_matches, trim_end_matches, quoted. cbn [app trim_start_matches].
  rewrite decide_True by done. destruct s as [|b s].
  - reflexivity.
  - cbn [app trim_start_matches]. rewrite decide_False by set_solver.
    change (b :: s ++ [Init.Byte.x22]) with ((b :: s) ++ [Init.Byte.x22]). rewrite rev_app_distr. cbn [rev app trim_start_matches].
    rewrite decide_True by done. rewrite trim_start_none.
    + change (rev s ++ [b]) with (rev (b :: s)). apply rev_involutive.
    + change (rev s ++ [b]) with (rev (b :: s)). by rewrite list_elem_of_In, <- in_rev, <- list_elem_of_In.
Qed.

Lemma parse_render_block o : s3_object_wf o -> parse_block (render_block o) = listed_contents o.
Proof.
  intros Ho. destruct (block_fields _ _ _ _ (object_pieces_plain o Ho)) as (Hk & Hd & He & Hs).
  unfold parse_block. rewrite render_block_doc. unfold object_pieces. rewrite Hk, Hd, He, Hs.
  cbn -[xml_unescape escape trim_matches quoted parse_iso8601_secs iso8601 parse_unsigned u64_to_string].
  destruct Ho as (Hq & Ht & Hz). rewrite !unescape_escape, trim_quoted, parse_iso8601_text by done.
  cbn -[parse_unsigned u64_to_string]. by rewrite parse_unsigned_decimal.
Qed.

(** ** Documents *)

Definition contents_pieces (o : S3Object) : list bytes := ¶"Contents>" :: object_pieces o ++ [¶"/Contents>"].
Definition head_pieces (name prefix count keys : bytes) (truncated : bool) : list bytes :=
  [¶"?xml version='1.0' encoding='UTF-8'?>"; ¶"ListBucketResult xmlns='http://s3.amazonaws.com/doc/2006-03-01/'>"] ++
  element_pieces ¶"Name" name ++ element_pieces ¶"Prefix" prefix ++ element_pieces ¶"KeyCount" count ++
  element_pieces ¶"MaxKeys" keys ++ element_pieces ¶"IsTruncated" (if truncated then ¶"true" else ¶"false").
Definition body_pieces (objs : list S3Object) : list bytes :=
  concat (map contents_pieces objs) ++ [¶"/ListBucketResult>"].
Definition render_pieces (name prefix : bytes) (max_keys : Z) (truncated : bool) (objs : list S3Object) : list bytes :=
  head_pieces (escape name) (escape prefix) (u64_to_string (Z.of_nat (length objs))) (u64_to_string max_keys) truncated ++
  body_pieces objs.

Lemma contents_doc o : element ¶"Contents" (render_block o) = doc (contents_pieces o).
Proof.
  rewrite render_block_doc. unfold contents_pieces.
  change (?a :: ?b ++ ?c) with ([a] ++ b ++ c). rewrite !doc_app. reflexivity.
Qed.

Lemma render_doc name prefix max_keys truncated objs :
  render name prefix max_keys truncated objs = doc (render_pieces name prefix max_keys truncated objs).
Proof.
  unfold render, render_pieces, head_pieces, body_pieces. rewrite !element_doc.
  assert (concat (map (fun o => element ¶"Contents" (render_block o)) objs) = doc (concat (map contents_pieces objs))) as ->.
  { induction objs as [|o objs IH]; [done|]. cbn [map concat]. by rewrite doc_app, <- contents_doc, IH. }
  change ([?a; ?b] ++ ?r) with ([a] ++ [b] ++ r). rewrite !doc_app, <- !app_assoc. reflexivity.
Qed.

Lemma head_plain name prefix count keys truncated :
  plain name -> plain prefix -> plain count -> plain keys -> Forall plain (head_pieces name prefix count keys truncated).
Proof.
  intros. unfold head_pieces. repeat (apply Forall_app; split);
    first [apply plain_element; try done; try (by apply plain_lit); by destruct truncated; apply plain_lit
          |repeat constructor; by apply plain_lit].
Qed.
Lemma body_plain objs : Forall s3_object_wf objs -> Forall plain (body_pieces objs).
Proof.
  intros Ho. unfold body_pieces. apply Forall_app. split; [|repeat constructor; by apply plain_lit].
  induction Ho as [|o objs Ho _ IH]; [constructor|]. cbn [map concat]. apply Forall_app. split; [|done].
  constructor; [by apply plain_lit|]. apply Forall_app. split; [by apply object_pieces_plain|].
  repeat constructor. by apply plain_lit.
Qed.

Lemma contents_body objs pre n :
  Forall s3_object_wf objs -> Forall plain pre -> Forall (fun x => strip_prefix ¶"Contents>" x = None) pre ->
  (length (doc (pre ++ body_pieces objs)) < n)%nat ->
  contents_loop n (doc (pre ++ body_pieces objs)) = map listed_contents objs.
Proof.
  intros Ho. revert pre n. induction Ho as [|o objs Ho Hos IH]; intros pre n Hp Hn Hlen;
    (destruct n as [|n]; [lia|]); cbn [contents_loop];
    change (open_tag ¶"Contents") with (lt_byte :: ¶"Contents>");
    change (close_tag ¶"Contents") with (lt_byte :: ¶"/Contents>").
  - rewrite find_piece; [|by apply plain_lit|by apply Forall_app; split; [|apply body_plain]].
    by rewrite piece_find_app.
  - assert (body_pieces (o :: objs) = ¶"Contents>" :: object_pieces o ++ ¶"/Contents>" :: body_pieces objs) as Eb.
    { unfold body_pieces. cbn [map concat]. unfold contents_pieces at 1.
      rewrite <- !app_comm_cons, <- !app_assoc. reflexivity. }
    rewrite Eb in Hlen |- *. rewrite doc_app, length_app in Hlen.
    assert (Forall plain (object_pieces o ++ ¶"/Contents>" :: body_pieces objs)) as Hpl.
    { apply Forall_app. split; [by apply object_pieces_plain|]. constructor; [by apply plain_lit|by apply body_plain]. }
    rewrite find_piece; [|by apply plain_lit|apply Forall_app; split; [done|by constructor; [apply plain_lit|]]].
    rewrite piece_find_app by done.
    change (piece_find ¶"Contents>" (¶"Contents>" :: ?ys)) with (Some ([] : list bytes, [] : bytes, ys)).
    cbn [mbind option_bind app]. rewrite find_piece by (done || by apply plain_lit).
    rewrite piece_find_app by (repeat constructor).
    change (piece_find ¶"/Contents>" (¶"/Contents>" :: ?ys)) with (Some ([] : list bytes, [] : bytes, ys)).
    cbn [mbind option_bind app]. rewrite app_nil_r, <- render_block_doc, parse_render_block by done.
    cbn [map]. f_equal. apply (IH []); [done|done|].
    change (doc (?x :: ?xs)) with (lt_byte :: x ++ doc xs) in Hlen. rewrite doc_app in Hlen.
    change (doc (?x :: ?xs)) with (lt_byte :: x ++ doc xs) in Hlen.
    cbn [length] in Hlen. rewrite !length_app in Hlen. cbn [length app] in Hlen |- *. rewrite length_app in Hlen. lia.
Qed.

Lemma truncated_found name prefix count keys truncated rest :
  Forall plain (head_pieces name prefix count keys truncated ++ rest) ->
  extract (doc (head_pieces name prefix count keys truncated ++ rest)) ¶"IsTruncated" =
  Some (if truncated then ¶"true" else ¶"false").
Proof. intros Hp. rewrite extract_doc by (done || by apply plain_lit). by destruct truncated. Qed.

Lemma parse_render name prefix max_keys truncated objs :
  Forall s3_object_wf objs -> 0 <= max_keys ->
  parse_list (render name prefix max_keys truncated objs) =
  {| lr_contents := map listed_contents objs; lr_is_truncated := truncated |}.
Proof.
  intros Ho Hk. unfold parse_list. rewrite render_doc. unfold render_pieces.
  assert (forall t, Forall plain (head_pieces (escape name) (escape prefix) (u64_to_string (Z.of_nat (length objs)))
    (u64_to_string max_keys) t)) as Hh.
  { intros t. apply head_plain; [apply escape_plain|apply escape_plain| |]; apply plain_digits, decimal_digits; lia. }
  f_equal.
  - apply contents_body; [done|apply Hh|repeat constructor|lia].
  - rewrite truncated_found by (apply Forall_app; split; [apply Hh|by apply body_plain]). by destruct truncated.
Qed.

(** C34: a listing response reads back as what was listed: whatever the keys
    hold (tags and entities included), every object's key, unquoted ETag, time
    and size, in order, and the truncation flag. *)
Theorem list_response_reads_back (name prefix : bytes) (max_keys : Z) (truncated : bool) (objs : list S3Object)
    (Ho : Forall s3_object_wf objs) (Hk : 0 <= max_keys)
    (Hu : Cbor.Cbor.utf8_valid (render name prefix max_keys truncated objs) = true) :
  parse_list (from_utf8_lossy (render name prefix max_keys truncated objs)) =
  {| lr_contents := map listed_contents objs; lr_is_truncated := truncated |}.
Proof. rewrite from_utf8_lossy_valid by done. by apply parse_render. Qed.

(** A key that looks like the document's own tags. *)
Definition sample_s3_objects : list S3Object :=
  [{| so_key := ¶"q/<IsTruncated>&amp;</Key>"; so_etag := ¶"abc123"; so_secs := 784111777; so_size := 128 |};
   {| so_key := ¶"q/jobs/0000/bb"; so_etag := ¶"def456"; so_secs := 1786997130; so_size := 256 |}].
Lemma list_response_reads_back_witness :
  parse_list (from_utf8_lossy (render ¶"bucket" ¶"q/" 64 true sample_s3_objects)) =
  {| lr_contents := map listed_contents sample_s3_objects; lr_is_truncated := true |}.
Proof.
  apply (list_response_reads_back ¶"bucket" ¶"q/" 64 true sample_s3_objects); [|done|by vm_compute].
  repeat constructor; try done; by apply (lit_not_elem Init.Byte.x22).
Defined.
