(* ===== verification/Http.v ===== *)
(** [stowq-store-http/src/lib.rs]: the store client over HTTP.

    The network and the signing clock are the state the client runs against
    (class [HttpTransport]); HMAC-SHA256 comes from the [hmac] crate and is a
    parameter.  A call prepares a signed request, sends it and reads the
    answer off its status, headers and body; [http_store] is the client as an
    object store. *)

From S2P Require Import Prelude Sha256 Keys Text Store Dates Xml.

Record HttpStoreConfig := {
  region : bytes;
  endpoint : bytes;
  force_path_style : bool;
  bucket : bytes;
  access_key : bytes;
  secret_key : bytes;
  session_token : option bytes
}.

Record HttpRequest := {
  rq_method : bytes;
  rq_url : bytes;
  rq_headers : list (bytes * bytes);
  rq_body : bytes
}.
Record HttpResponse := {
  rs_status : Z;
  rs_headers : list (bytes * bytes);
  rs_body : bytes
}.

(** [HttpResponse::header]. *)
Definition header (resp : HttpResponse) (name : bytes) : option bytes :=
  snd <$> List.find (fun h => eq_ignore_ascii_case h.1 name) (rs_headers resp).

(** One request and its response, or the text of a transport failure; the
    signing clock's stamps. *)
Class HttpTransport (T : Type) := {
  send : HttpRequest -> T -> Result bytes HttpResponse * T;
  amz_stamps : T -> bytes * bytes
}.
Class Hmac := { hmac_sha256 : bytes -> bytes -> bytes }.

(* ------------------------------------------------------------------ *)
(** * SigV4 *)

Definition hex_upper (n : Z) : byte := byte_of (if n <? 10 then 48 + n else 55 + n).
Definition unreserved (b : byte) : bool :=
  let v := byte_val b in
  ((65 <=? v) && (v <=? 90)) || ((97 <=? v) && (v <=? 122)) || ((48 <=? v) && (v <=? 57))
  || (v =? 45) || (v =? 46) || (v =? 95) || (v =? 126).
Definition uri_encode (s : bytes) (encode_slash : bool) : bytes :=
  concat (map (fun b =>
    if unreserved b then [b]
    else if bool_decide (b = slash) && negb encode_slash then [slash]
    else [Init.Byte.x25; hex_upper (byte_val b / 16); hex_upper (byte_val b mod 16)]) s).

Record SignedRequest := {
  sr_method : bytes;
  sr_host : bytes;
  sr_canonical_uri : bytes;
  sr_canonical_query : bytes;
  sr_headers : list (bytes * bytes)
}.

(** The order of [(String, String)]. *)
Definition pair_le (a b : bytes * bytes) : Prop :=
  bytes_lt a.1 b.1 \/ (a.1 = b.1 /\ bytes_le a.2 b.2).
#[export] Instance pair_le_dec : RelDecision pair_le.
Proof. intros a b. unfold pair_le, bytes_lt, bytes_le. apply _. Defined.

(** [Vec::dedup_names]: consecutive duplicates. *)
Fixpoint dedup_names (l : list bytes) : list bytes :=
  match l with
  | a :: (b :: _) as rest => if decide (a = b) then dedup_names rest else a :: dedup_names rest
  | _ => l
  end.

Definition newline : bytes := [Init.Byte.x0a].

Section Signing.
Context `{Sha256} `{Hmac}.

Definition sha256_hex (data : bytes) : bytes := push_hex (sha256 data).

Definition sign_v4 (req : SignedRequest) (cfg : HttpStoreConfig) (stamps : bytes * bytes)
    (payload_sha256_hex : bytes) : SignedRequest :=
  let '(date_stamp, amz_date) := stamps in
  let request_headers :=
    sr_headers req ++ [(¶"x-amz-content-sha256", payload_sha256_hex)]
    ++ match session_token cfg with Some t => [(¶"x-amz-security-token", t)] | None => [] end
    ++ [(¶"x-amz-date", amz_date); (¶"host", sr_host req)] in
  let headers := merge_sort pair_le (map (fun h => (to_ascii_lowercase h.1, trim h.2)) request_headers) in
  let header_names := dedup_names (map fst headers) in
  let canonical_headers := concat (map (fun h => h.1 ++ ¶":" ++ h.2 ++ newline) headers) in
  let signed_headers := join_with Init.Byte.x3b header_names in
  let canonical_request :=
    sr_method req ++ newline ++ sr_canonical_uri req ++ newline ++ sr_canonical_query req ++ newline
    ++ canonical_headers ++ newline ++ signed_headers ++ newline ++ payload_sha256_hex in
  let scope := date_stamp ++ ¶"/" ++ region cfg ++ ¶"/s3/aws4_request" in
  let string_to_sign :=
    ¶"AWS4-HMAC-SHA256" ++ newline ++ amz_date ++ newline ++ scope ++ newline ++ sha256_hex canonical_request in
  let k_date := hmac_sha256 (¶"AWS4" ++ secret_key cfg) date_stamp in
  let k_region := hmac_sha256 k_date (region cfg) in
  let k_service := hmac_sha256 k_region ¶"s3" in
  let k_signing := hmac_sha256 k_service ¶"aws4_request" in
  let signature := push_hex (hmac_sha256 k_signing string_to_sign) in
  {| sr_method := sr_method req; sr_host := sr_host req; sr_canonical_uri := sr_canonical_uri req;
     sr_canonical_query := sr_canonical_query req;
     sr_headers := request_headers ++
       [(¶"Authorization", ¶"AWS4-HMAC-SHA256 Credential=" ++ access_key cfg ++ ¶"/" ++ scope
           ++ ¶", SignedHeaders=" ++ signed_headers ++ ¶", Signature=" ++ signature)] |}.
End Signing.

(* ------------------------------------------------------------------ *)
(** * The client *)

Record HttpStore := {
  hs_cfg : HttpStoreConfig;
  hs_scheme : bytes;
  hs_host : bytes;
  hs_path_prefix : bytes
}.

(** [HttpStore::new]. *)
Definition http_store_new (cfg : HttpStoreConfig) : HttpStore :=
  let '(scheme, rest) :=
    match find_split ¶"://" (endpoint cfg) with
    | Some (s, r) => (s, trim_end_matches slash r)
    | None => (¶"https", trim_end_matches slash (endpoint cfg))
    end in
  let '(host, path_prefix) :=
    if force_path_style cfg then (rest, ¶"/" ++ bucket cfg)
    else (bucket cfg ++ ¶"." ++ rest, []) in
  {| hs_cfg := cfg; hs_scheme := scheme; hs_host := host; hs_path_prefix := path_prefix |}.

Definition transport_err (e : bytes) : StoreError :=
  if starts_with ¶"[pretransmit]" e then Transport PreTransmit
  else if starts_with ¶"[timeout]" e then OutcomeUnknown Timeout
  else OutcomeUnknown ConnectionLost.

Definition read_status (status : Z) (what : string) : StoreError :=
  if (status =? 404) || (status =? 416) then NotFound
  else if 500 <=? status then OutcomeUnknown AmbiguousResponse
  else ProfileViolation what.

Definition clean_etag (v : option bytes) : bytes := trim_matches Init.Byte.x22 (default [] v).

(** A listing's or a response's metadata. *)
Definition meta_of_response (resp : HttpResponse) (size : Z) : Meta :=
  {| m_version := clean_etag (header resp ¶"ETag");
     m_store_time_ns := default 0 (header resp ¶"Last-Modified" ≫= parse_http_date);
     m_size := size |}.
Definition content_length (resp : HttpResponse) : Z :=
  default 0 (header resp ¶"Content-Length" ≫= parse_unsigned u64_max).

Section Client.
Context `{Sha256} `{Hmac} {T : Type} `{HttpTransport T} (st : HttpStore).

Definition canonical_uri (key : bytes) : bytes :=
  let canonical_key := uri_encode key false in
  match hs_path_prefix st with
  | [] => ¶"/" ++ canonical_key
  | prefix => ¶"/" ++ trim_matches slash prefix ++ ¶"/" ++ canonical_key
  end.
Definition canonical_query (query : list (bytes * bytes)) : bytes :=
  join_with Init.Byte.x26
    (map (fun q => uri_encode q.1 true ++ ¶"=" ++ uri_encode q.2 true) (merge_sort pair_le query)).

(** [request]: the signed request. *)
Definition http_request (method key : bytes) (query extra_headers : list (bytes * bytes))
    (body body_sha_hex : bytes) (stamps : bytes * bytes) : HttpRequest :=
  let uri := canonical_uri key in
  let q := canonical_query query in
  let req := sign_v4 {| sr_method := method; sr_host := hs_host st; sr_canonical_uri := uri;
                        sr_canonical_query := q; sr_headers := extra_headers |}
               (hs_cfg st) stamps body_sha_hex in
  let url := hs_scheme st ++ ¶"://" ++ hs_host st ++ uri ++
             match q with [] => [] | _ => ¶"?" ++ q end in
  {| rq_method := method; rq_url := url; rq_headers := sr_headers req; rq_body := body |}.

Definition request (method key : bytes) (query extra_headers : list (bytes * bytes))
    (body body_sha_hex : bytes) (t : T) : StoreResult HttpResponse * T :=
  let '(resp, t') := send (http_request method key query extra_headers body body_sha_hex (amz_stamps t)) t in
  (map_err transport_err resp, t').

(** [self.request(..).await?] and the reading of the response. *)
Definition respond {A} (r : StoreResult HttpResponse * T) (f : HttpResponse -> StoreResult A)
  : StoreResult A * T :=
  (resp ← r.1; f resp, r.2).

Definition put_status (resp : HttpResponse) : StoreResult PutOutcome :=
  if rs_status resp =? 200 then Ok (Committed (clean_etag (header resp ¶"ETag")))
  else if rs_status resp =? 412 then Ok Rejected
  else if 500 <=? rs_status resp then Err (OutcomeUnknown AmbiguousResponse)
  else Err (ProfileViolation "put rejected").

Definition put_conditional (key body sha : bytes) (if_match : option Version) (t : T)
  : StoreResult PutOutcome * T :=
  if negb (bytes_eqb (sha256 body) sha) then (Err (IntegrityViolation DigestMismatch), t)
  else
    let headers := match if_match with
                   | Some v => [(¶"If-Match", v)]
                   | None => [(¶"If-None-Match", ¶"*")]
                   end in
    respond (request ¶"PUT" key [] headers body (push_hex sha) t) put_status.

(** The response of [get]: a ranged read's full size comes from
    [Content-Range]. *)
Definition get_response (range : option (Z * Z)) (resp : HttpResponse) : StoreResult Object :=
  if negb (rs_status resp =? 200) && negb (rs_status resp =? 206)
  then Err (read_status (rs_status resp) "get rejected")
  else
    size ← match range, header resp ¶"Content-Range" with
           | Some _, Some cr =>
               ok_or (parse_unsigned u64_max (trim (after_last slash cr)))
                 (ProfileViolation "malformed content-range")
           | _, _ => Ok (content_length resp)
           end;
    let meta := meta_of_response resp size in
    let body := rs_body resp in
    match range with
    | Some (s, e) =>
        if negb (Z.of_nat (length body) =? e - s) then Err NotFound
        else Ok {| o_meta := meta; o_body := body |}
    | None => Ok {| o_meta := meta; o_body := body |}
    end.

Definition http_get (key : bytes) (range : option (Z * Z)) (t : T) : StoreResult Object * T :=
  let go headers :=
    respond (request ¶"GET" key [] headers [] (sha256_hex []) t) (get_response range) in
  match range with
  | Some (s, e) =>
      if e <=? s then (Err NotFound, t)
      else go [(¶"Range", ¶"bytes=" ++ u64_to_string s ++ ¶"-" ++ u64_to_string (e - 1))]
  | None => go []
  end.

Definition head_response (resp : HttpResponse) : StoreResult Meta :=
  if negb (rs_status resp =? 200) then Err (read_status (rs_status resp) "head rejected")
  else Ok (meta_of_response resp (content_length resp)).

Definition http_head (key : bytes) (t : T) : StoreResult Meta * T :=
  respond (request ¶"HEAD" key [] [] [] (sha256_hex []) t) head_response.

Definition list_response (after : option bytes) (resp : HttpResponse) : StoreResult Page :=
  if negb (rs_status resp =? 200) then Err (ProfileViolation "list rejected")
  else
    let parsed := parse_list (from_utf8_lossy (rs_body resp)) in
    let items :=
      map (fun '(k, c) => {| l_key := k;
                             l_meta := {| m_version := lc_etag c; m_store_time_ns := lc_last_modified_ns c;
                                          m_size := lc_size c |} |})
        (List.filter (fun '(k, _) => match after with Some a => bytes_ltb a k | None => true end)
           (lr_contents parsed)) in
    Ok {| p_items := items;
          p_next_after := if lr_is_truncated parsed then l_key <$> last items else None |}.

Definition http_list (prefix : bytes) (after : option bytes) (limit : nat) (t : T) : StoreResult Page * T :=
  match limit with
  | O => (Ok {| p_items := []; p_next_after := None |}, t)
  | _ =>
      let query :=
        [(¶"list-type", ¶"2"); (¶"max-keys", u64_to_string (Z.min (Z.max (Z.of_nat limit) 1) 1000)); (¶"prefix", prefix)]
        ++ match after with Some a => [(¶"start-after", a)] | None => [] end in
      respond (request ¶"GET" [] query [] [] (sha256_hex []) t) (list_response after)
  end.

Definition delete_response (resp : HttpResponse) : StoreResult unit :=
  let status := rs_status resp in
  if (status =? 204) || (status =? 200) then Ok ()
  else if status =? 404 then Ok ()
  else if 500 <=? status then Err (OutcomeUnknown AmbiguousResponse)
  else Err (ProfileViolation "delete rejected").

Definition http_delete (key : bytes) (t : T) : StoreResult unit * T :=
  respond (request ¶"DELETE" key [] [] [] (sha256_hex []) t) delete_response.

(** [impl ObjectStore for HttpStore]. *)
Definition http_store : ObjectStore T := fun c =>
  match c return T -> answer c * T with
  | CPut k b d => put_conditional k b d None
  | CCas k b d v => put_conditional k b d (Some v)
  | CGet k r => http_get k r
  | CHead k => http_head k
  | CList p a n => http_list p a n
  | CDelete k => http_delete k
  end.
End Client.

(** The repository's encodings. *)
Example uri_encoding_matches_s3_rules :
  uri_encode ¶"a b/c" false = ¶"a%20b/c" /\ uri_encode ¶"a b/c" true = ¶"a%20b%2Fc" /\
  uri_encode ¶"hex-._~" false = ¶"hex-._~" /\ uri_encode (map byte_of [0xC3; 0xBC]) false = ¶"%C3%BC".
Proof. by vm_compute. Qed.
