(* ===== verification/S3.v ===== *)
(** The HTTP client against an S3 service.

    The service is not part of the repository: its documented behaviour is
    stated as a relation between a request as it is read off the wire, the
    objects of the bucket and the response ([s3_answer]), with what can happen
    to a request on the way ([s3_exchange]).  [http_refines_contract] shows that
    against any such service the client keeps the store contract, or reports a
    profile violation and leaves the bucket alone. *)

From S2P Require Import Prelude Sha256 Keys Text Store Dates Xml Http.

(* ------------------------------------------------------------------ *)
(** * Reading a request *)

Fixpoint percent_decode (s : bytes) : option bytes :=
  match s with
  | [] => Some []
  | b :: rest =>
      if decide (b = Init.Byte.x25) then
        match rest with
        | h :: l :: rest =>
            hi ← hex_digit_any h; lo ← hex_digit_any l;
            r ← percent_decode rest; Some (byte_of (hi * 16 + lo) :: r)
        | _ => None
        end
      else r ← percent_decode rest; Some (b :: r)
  end.

Definition parse_query (q : bytes) : option (list (bytes * bytes)) :=
  mapM (fun part => '(k, v) ← split_once Init.Byte.x3d part;
                    k ← percent_decode k; v ← percent_decode v; Some (k, v))
    (split_on Init.Byte.x26 q).

(** The key and the query of a URL under the bucket's address. *)
Definition read_url (base url : bytes) : option (bytes * list (bytes * bytes)) :=
  rest ← strip_prefix base url;
  match split_once Init.Byte.x3f rest with
  | Some (path, q) => key ← percent_decode path; query ← parse_query q; Some (key, query)
  | None => key ← percent_decode rest; Some (key, [])
  end.

(** Path-style and virtual-host-style addresses. *)
Definition base_url (st : HttpStore) : bytes :=
  hs_scheme st ++ ¶"://" ++ hs_host st ++
  match hs_path_prefix st with [] => ¶"/" | prefix => ¶"/" ++ trim_matches slash prefix ++ ¶"/" end.

Inductive Condition := IfNoneMatch | IfMatch (etag : bytes).
Inductive S3Op :=
| S3Put (key body : bytes) (cond : Condition)
| S3Get (key : bytes) (range : option (Z * Z))
| S3Head (key : bytes)
| S3List (prefix : bytes) (start_after : option bytes) (max_keys : Z)
| S3Delete (key : bytes).

Definition field_of (name : bytes) (fields : list (bytes * bytes)) : option bytes :=
  snd <$> List.find (fun f => eq_ignore_ascii_case f.1 name) fields.

(** [Range: bytes=first-last]. *)
Definition parse_range (v : bytes) : option (Z * Z) :=
  r ← strip_prefix ¶"bytes=" v;
  '(a, b) ← split_once Init.Byte.x2d r;
  a ← parse_unsigned u64_max a; b ← parse_unsigned u64_max b; Some (a, b).

Definition read_list (query : list (bytes * bytes)) : option S3Op :=
  max ← field_of ¶"max-keys" query ≫= parse_unsigned u64_max;
  prefix ← field_of ¶"prefix" query;
  Some (S3List prefix (field_of ¶"start-after" query) max).

Definition s3_op (base : bytes) (req : HttpRequest) : option S3Op :=
  '(key, query) ← read_url base (rq_url req);
  let method := rq_method req in
  if decide (method = ¶"PUT") then
    match field_of ¶"If-None-Match" (rq_headers req), field_of ¶"If-Match" (rq_headers req) with
    | Some star, None => if decide (star = ¶"*") then Some (S3Put key (rq_body req) IfNoneMatch) else None
    | None, Some v => Some (S3Put key (rq_body req) (IfMatch (trim_matches Init.Byte.x22 v)))
    | _, _ => None
    end
  else if decide (method = ¶"GET") then
    match field_of ¶"list-type" query with
    | Some _ => read_list query
    | None =>
        match field_of ¶"Range" (rq_headers req) with
        | Some r => range ← parse_range r; Some (S3Get key (Some range))
        | None => Some (S3Get key None)
        end
    end
  else if decide (method = ¶"HEAD") then Some (S3Head key)
  else if decide (method = ¶"DELETE") then Some (S3Delete key)
  else None.

(* ------------------------------------------------------------------ *)
(** * The service *)

(** An entry whose ETag is opaque text and whose time is a whole second. *)
Definition entry_at (body etag : bytes) (secs : Z) : Entry :=
  {| e_body := body; e_version := etag; e_time := secs * SECOND_NS |}.
Definition etag_ok (v : bytes) : Prop := Init.Byte.x22 ∉ v.
Definition secs_ok (secs : Z) : Prop := 0 <= secs <= last_second.
Definition size_ok (body : bytes) : Prop := Z.of_nat (length body) <= u64_max.

(** The headers that describe an object. *)
Definition describes (resp : HttpResponse) (body etag : bytes) (secs : Z) : Prop :=
  etag_ok etag /\ secs_ok secs /\ size_ok body /\
  header resp ¶"ETag" = Some (quoted etag) /\ header resp ¶"Last-Modified" = Some (http_date secs).

(** An object of a listing document. *)
Definition shows (l : Listing) (o : S3Object) : Prop :=
  s3_object_wf o /\ l_key l = so_key o /\
  l_meta l = {| m_version := so_etag o; m_store_time_ns := so_secs o * SECOND_NS; m_size := so_size o |}.

Inductive s3_answer : S3Op -> Space -> HttpResponse -> Space -> Prop :=
| sa_created k b m resp v secs :
    m !! k = None -> rs_status resp = 200 -> header resp ¶"ETag" = Some (quoted v) -> etag_ok v -> secs_ok secs ->
    s3_answer (S3Put k b IfNoneMatch) m resp (<[k := entry_at b v secs]> m)
| sa_exists k b m resp e :
    m !! k = Some e -> rs_status resp = 412 -> s3_answer (S3Put k b IfNoneMatch) m resp m
| sa_replaced k b m resp e v secs :
    m !! k = Some e -> rs_status resp = 200 -> header resp ¶"ETag" = Some (quoted v) -> etag_ok v -> secs_ok secs ->
    s3_answer (S3Put k b (IfMatch (e_version e))) m resp (<[k := entry_at b v secs]> m)
| sa_changed k b m resp e v :
    m !! k = Some e -> e_version e <> v -> rs_status resp = 412 -> s3_answer (S3Put k b (IfMatch v)) m resp m
| sa_put_absent k b m resp v :
    m !! k = None -> rs_status resp = 404 -> s3_answer (S3Put k b (IfMatch v)) m resp m
| sa_get_absent k r m resp :
    m !! k = None -> rs_status resp = 404 -> s3_answer (S3Get k r) m resp m
| sa_get k m resp body etag secs :
    m !! k = Some (entry_at body etag secs) -> rs_status resp = 200 -> describes resp body etag secs ->
    header resp ¶"Content-Length" = Some (u64_to_string (Z.of_nat (length body))) -> rs_body resp = body ->
    s3_answer (S3Get k None) m resp m
| sa_get_range k first last_ m resp body etag secs :
    m !! k = Some (entry_at body etag secs) -> 0 <= first <= last_ -> first < Z.of_nat (length body) ->
    rs_status resp = 206 -> describes resp body etag secs ->
    rs_body resp = slice body first (Z.min (last_ + 1) (Z.of_nat (length body))) ->
    header resp ¶"Content-Range" =
      Some (¶"bytes " ++ u64_to_string first ++ ¶"-" ++ u64_to_string (Z.min last_ (Z.of_nat (length body) - 1)) ++
            ¶"/" ++ u64_to_string (Z.of_nat (length body))) ->
    s3_answer (S3Get k (Some (first, last_))) m resp m
| sa_get_unsatisfiable k first last_ m resp e :
    m !! k = Some e -> Z.of_nat (length (e_body e)) <= first -> rs_status resp = 416 ->
    s3_answer (S3Get k (Some (first, last_))) m resp m
| sa_head_absent k m resp :
    m !! k = None -> rs_status resp = 404 -> s3_answer (S3Head k) m resp m
| sa_head k m resp body etag secs :
    m !! k = Some (entry_at body etag secs) -> rs_status resp = 200 -> describes resp body etag secs ->
    header resp ¶"Content-Length" = Some (u64_to_string (Z.of_nat (length body))) ->
    s3_answer (S3Head k) m resp m
| sa_list prefix after max m resp pg objs name :
    page_of m prefix after (Z.to_nat max) pg -> Forall2 shows (p_items pg) objs -> 1 <= max ->
    rs_status resp = 200 -> Cbor.Cbor.utf8_valid (rs_body resp) = true ->
    rs_body resp = render name prefix max (bool_decide (is_Some (p_next_after pg))) objs ->
    s3_answer (S3List prefix after max) m resp m
| sa_deleted k m resp : rs_status resp = 204 -> s3_answer (S3Delete k) m resp (delete k m)
(** A refusal: no other status stands for an outcome. *)
| sa_refused op m resp :
    300 <= rs_status resp < 500 -> rs_status resp <> 404 -> rs_status resp <> 412 -> rs_status resp <> 416 ->
    s3_answer op m resp m
(** A server error says nothing about the request. *)
| sa_error op m resp : 500 <= rs_status resp -> s3_answer op m resp m
| sa_error_done op m resp m' resp' :
    s3_answer op m resp' m' -> 500 <= rs_status resp -> s3_answer op m resp m'.

(** A request may also get no response. *)
Inductive s3_exchange (op : S3Op) (m : Space) : Result bytes HttpResponse -> Space -> Prop :=
| sx_answered resp m' : s3_answer op m resp m' -> s3_exchange op m (Ok resp) m'
| sx_unsent e : starts_with ¶"[pretransmit]" e = true -> s3_exchange op m (Err e) m
| sx_lost e : starts_with ¶"[pretransmit]" e = false -> s3_exchange op m (Err e) m
| sx_lost_done e resp m' :
    starts_with ¶"[pretransmit]" e = false -> s3_answer op m resp m' -> s3_exchange op m (Err e) m'.

(** A transport to an S3 service: its bucket, and the states it can be in. *)
Class S3Service (T : Type) `{HttpTransport T} (base : bytes) := {
  s3_view : T -> Space;
  s3_inv : T -> Prop;
  s3_send : forall req op t, s3_inv t -> s3_op base req = Some op ->
    s3_inv (send req t).2 /\ s3_exchange op (s3_view t) (send req t).1 (s3_view (send req t).2)
}.

(* ------------------------------------------------------------------ *)
(** * The client's requests, as the service reads them *)

Lemma uri_encode_chars (P : byte -> Prop) s b :
  (forall c, unreserved c = true -> P c) -> P slash -> P Init.Byte.x25 -> Forall P (uri_encode s b).
Proof.
  intros Hu Hs Hp. unfold uri_encode. apply Forall_concat, Forall_forall. intros x Hx.
  apply list_elem_of_In, in_map_iff in Hx as (c & <- & _).
  assert (forall n, 0 <= n < 16 -> P (hex_upper n)) as Hh.
  { intros n Hn. apply Hu. unfold unreserved, hex_upper. rewrite byte_val_of_small by (case_match; lia).
    destruct (Z.ltb_spec n 10); lia. }
  pose proof (byte_val_range c). destruct (unreserved c) eqn:E; [by repeat constructor; apply Hu|].
  destruct (bool_decide _ && _); [by repeat constructor|].
  repeat constructor; [done|apply Hh..]; Z.to_euclidean_division_equations; lia.
Qed.

Lemma uri_encode_no c s b :
  unreserved c = false -> c <> slash -> c <> Init.Byte.x25 -> c ∉ uri_encode s b.
Proof.
  intros Hc Hs Hp Hin. pose proof (uri_encode_chars (fun x => x <> c) s b) as Hf. rewrite Forall_forall in Hf.
  apply (Hf ltac:(intros x Hx ->; congruence) ltac:(done) ltac:(done) c Hin). done.
Qed.

Lemma hex_upper_any n : 0 <= n < 16 -> hex_digit_any (hex_upper n) = Some n.
Proof.
  intros Hn. unfold hex_digit_any, hex_upper. rewrite byte_val_of_small by (case_match; lia).
  destruct (Z.ltb_spec n 10); repeat case_match; try lia; f_equal; lia.
Qed.

Lemma join_nibbles c : byte_of (byte_val c / 16 * 16 + byte_val c mod 16) = c.
Proof.
  pose proof (byte_val_range c). trans (byte_of (byte_val c)); [f_equal|apply byte_of_val].
  Z.to_euclidean_division_equations; lia.
Qed.

Lemma percent_decode_encode s b : percent_decode (uri_encode s b) = Some s.
Proof.
  induction s as [|c s IH]; [done|]. change (uri_encode (c :: s) b) with
    ((if unreserved c then [c] else if bool_decide (c = slash) && negb b then [slash]
      else [Init.Byte.x25; hex_upper (byte_val c / 16); hex_upper (byte_val c mod 16)]) ++ uri_encode s b).
  pose proof (byte_val_range c).
  destruct (unreserved c) eqn:Eu; [|destruct (bool_decide (c = slash)) eqn:Es; cbn [andb]; [destruct b; cbn [negb]|]].
  - cbn [app percent_decode]. rewrite decide_False by (intros ->; done). by rewrite IH.
  - cbn [app percent_decode]. rewrite decide_True, !hex_upper_any by (done || Z.to_euclidean_division_equations; lia).
    cbn [mbind option_bind]. rewrite IH. cbn [mbind option_bind]. rewrite join_nibbles. done.
  - apply bool_decide_eq_true in Es as ->. cbn [app percent_decode]. rewrite decide_False by done. by rewrite IH.
  - cbn [app percent_decode]. rewrite decide_True, !hex_upper_any by (done || Z.to_euclidean_division_equations; lia).
    cbn [mbind option_bind]. rewrite IH. cbn [mbind option_bind]. rewrite join_nibbles. done.
Qed.

Lemma split_join_on c ps : ps <> [] -> Forall (fun p => c ∉ p) ps -> split_on c (join_with c ps) = ps.
Proof.
  induction ps as [|p [|q ps] IH]; intros Hne HF; [done|..].
  - inversion HF; subst. cbn. by apply split_on_no.
  - inversion HF; subst. cbn [join_with]. rewrite split_on_app by done. f_equal. by apply IH.
Qed.

Definition encode_field (f : bytes * bytes) : bytes := uri_encode f.1 true ++ ¶"=" ++ uri_encode f.2 true.

Lemma encode_field_no c f : unreserved c = false -> c <> slash -> c <> Init.Byte.x25 -> c <> Init.Byte.x3d -> c ∉ encode_field f.
Proof.
  intros H1 H2 H3 H4. unfold encode_field. change ¶"=" with [Init.Byte.x3d].
  rewrite !elem_of_app, list_elem_of_singleton. intros [Hin|[Hin|Hin]]; [|done|]; revert Hin; by apply uri_encode_no.
Qed.

Lemma parse_query_fields fields :
  fields <> [] -> parse_query (join_with Init.Byte.x26 (map encode_field fields)) = Some fields.
Proof.
  intros Hne. unfold parse_query. rewrite split_join_on; [|by destruct fields|].
  - clear Hne. induction fields as [|[k v] fields IH]; [done|]. cbn [map mapM].
    assert (split_once Init.Byte.x3d (encode_field (k, v)) = Some (uri_encode k true, uri_encode v true)) as ->
      by (by apply split_once_app, uri_encode_no).
    cbn [mbind option_bind]. rewrite !percent_decode_encode. cbn [mbind option_bind]. by rewrite IH.
  - apply Forall_forall. intros x Hx. apply list_elem_of_In, in_map_iff in Hx as (f & <- & _).
    by apply encode_field_no.
Qed.

Lemma read_url_request st key query :
  read_url (base_url st) (hs_scheme st ++ ¶"://" ++ hs_host st ++ canonical_uri st key ++
    match canonical_query query with [] => [] | q => ¶"?" ++ q end) = Some (key, merge_sort pair_le query).
Proof.
  unfold read_url. assert (canonical_uri st key =
    match hs_path_prefix st with [] => ¶"/" | prefix => ¶"/" ++ trim_matches slash prefix ++ ¶"/" end ++ uri_encode key false) as ->.
  { unfold canonical_uri. destruct (hs_path_prefix st); [done|]. by rewrite <- !app_assoc. }
  unfold base_url. rewrite <- !app_assoc.
  rewrite !(app_assoc _ _ (uri_encode key false ++ _)). rewrite <- !app_assoc.
  set (tail := uri_encode key false ++ _).
  match goal with |- (_ ← strip_prefix ?a ?b; _) = _ => replace b with (a ++ tail) by (by rewrite <- !app_assoc) end.
  rewrite strip_prefix_app. cbn [mbind option_bind]. unfold tail, canonical_query.
  pose proof (merge_sort_Permutation pair_le query) as Hperm.
  destruct (merge_sort pair_le query) as [|f fields] eqn:Eq.
  - cbn [map join_with]. rewrite app_nil_r.
    assert (split_once Init.Byte.x3f (uri_encode key false) = None) as ->.
    { apply split_once_none. by apply uri_encode_no. }
    by rewrite percent_decode_encode.
  - pose proof (parse_query_fields (f :: fields) ltac:(done)) as Hp. unfold encode_field in Hp.
    set (q := join_with _ _) in *. destruct q as [|b q'] eqn:Ej.
    { exfalso. revert Hp. by cbn. }
    change (¶"?" ++ b :: q') with (Init.Byte.x3f :: b :: q').
    rewrite split_once_app by (by apply uri_encode_no). rewrite percent_decode_encode. cbn [mbind option_bind]. by rewrite Hp.
Qed.

Section Requests.
Context `{Sha256} `{Hmac} (st : HttpStore).

Definition op_of_call (c : call) : option S3Op :=
  match c with
  | CPut k b d => Some (S3Put k b IfNoneMatch)
  | CCas k b d v => Some (S3Put k b (IfMatch v))
  | CGet k None => Some (S3Get k None)
  | CGet k (Some (s, e)) => Some (S3Get k (Some (s, e - 1)))
  | CHead k => Some (S3Head k)
  | CList p a n => Some (S3List p a (Z.min (Z.max (Z.of_nat n) 1) 1000))
  | CDelete k => Some (S3Delete k)
  end.

(** The extra headers come first; the signing headers have other names. *)
Lemma signed_headers_of method key query extra body sha stamps name :
  name = ¶"If-None-Match" \/ name = ¶"If-Match" \/ name = ¶"Range" ->
  field_of name (rq_headers (http_request st method key query extra body sha stamps)) = field_of name extra.
Proof.
  intros Hn. unfold http_request, sign_v4, field_of. destruct stamps as [date amz]. cbn [rq_headers sr_headers sr_host].
  match goal with |- context [(¶"Authorization", ?v)] => generalize v end. intros auth.
  induction extra as [|f extra IH].
  - destruct (session_token _), Hn as [->|[->| ->]]; reflexivity.
  - cbn [app List.find]. destruct (eq_ignore_ascii_case f.1 name); [done|]. exact IH.
Qed.
Lemma read_url_of method key query extra body sha stamps :
  read_url (base_url st) (rq_url (http_request st method key query extra body sha stamps)) =
  Some (key, merge_sort pair_le query).
Proof.
  rewrite <- (read_url_request st). unfold http_request. cbn [rq_url]. by destruct (canonical_query query).
Qed.

(** Calls a queue makes: versions are what the store handed out, ranges are
    64-bit. *)
Definition call_ok (c : call) : Prop :=
  match c with
  | CCas _ _ _ v => etag_ok v
  | CGet _ (Some (s, e)) => is_u64 s /\ is_u64 e
  | _ => True
  end.

Lemma trim_matches_none c s : c ∉ s -> trim_matches c s = s.
Proof.
  intros Hc. unfold trim_matches, trim_end_matches. rewrite (trim_start_none c s) by done.
  rewrite trim_start_none by (by rewrite list_elem_of_In, <- in_rev, <- list_elem_of_In). apply rev_involutive.
Qed.

Lemma op_put key body sha v stamps :
  match v with Some v => etag_ok v | None => True end ->
  s3_op (base_url st) (http_request st ¶"PUT" key []
    match v with Some v => [(¶"If-Match", v)] | None => [(¶"If-None-Match", ¶"*")] end body sha stamps) =
  Some (S3Put key body (match v with Some v => IfMatch v | None => IfNoneMatch end)).
Proof.
  intros Hv. unfold s3_op. rewrite read_url_of. cbn [mbind option_bind].
  change (rq_method _) with ¶"PUT". rewrite decide_True by done.
  rewrite !signed_headers_of by auto. destruct v as [v|]; [|reflexivity].
  change (field_of ¶"If-None-Match" [(¶"If-Match", v)]) with (@None bytes).
  change (field_of ¶"If-Match" [(¶"If-Match", v)]) with (Some v). cbv beta iota. by rewrite trim_matches_none.
Qed.

Lemma parse_range_text a b : is_u64 a -> is_u64 b ->
  parse_range (¶"bytes=" ++ u64_to_string a ++ ¶"-" ++ u64_to_string b) = Some (a, b).
Proof.
  intros Ha Hb. unfold parse_range. rewrite strip_prefix_app. cbn [mbind option_bind].
  change (¶"-" ++ ?x) with (Init.Byte.x2d :: x).
  rewrite split_once_app by (apply digits_not; [done|apply decimal_digits; unfold is_u64 in *; lia]).
  cbn [mbind option_bind]. by rewrite !parse_unsigned_decimal by (unfold is_u64 in *; lia).
Qed.

Lemma op_get key range stamps :
  match range with Some (s, e) => is_u64 s /\ is_u64 (e - 1) | None => True end ->
  s3_op (base_url st) (http_request st ¶"GET" key []
    match range with Some (s, e) => [(¶"Range", ¶"bytes=" ++ u64_to_string s ++ ¶"-" ++ u64_to_string (e - 1))] | None => [] end
    [] (sha256_hex []) stamps) =
  Some (S3Get key (match range with Some (s, e) => Some (s, e - 1) | None => None end)).
Proof.
  intros Hr. unfold s3_op. rewrite read_url_of. cbn [mbind option_bind].
  change (rq_method _) with ¶"GET". rewrite decide_False, decide_True by done.
  change (field_of ¶"list-type" (merge_sort pair_le [])) with (@None bytes). cbv beta iota.
  rewrite signed_headers_of by auto. destruct range as [[s e]|]; [|reflexivity].
  change (field_of ¶"Range" [(¶"Range", ?v)]) with (Some v). cbv beta iota.
  rewrite parse_range_text by tauto. done.
Qed.

Lemma op_head key stamps :
  s3_op (base_url st) (http_request st ¶"HEAD" key [] [] [] (sha256_hex []) stamps) = Some (S3Head key).
Proof. unfold s3_op. rewrite read_url_of. reflexivity. Qed.
Lemma op_delete key stamps :
  s3_op (base_url st) (http_request st ¶"DELETE" key [] [] [] (sha256_hex []) stamps) = Some (S3Delete key).
Proof. unfold s3_op. rewrite read_url_of. reflexivity. Qed.

Lemma list_query_sorted max prefix after :
  merge_sort pair_le ([(¶"list-type", ¶"2"); (¶"max-keys", max); (¶"prefix", prefix)]
    ++ match after with Some a => [(¶"start-after", a)] | None => [] end) =
  [(¶"list-type", ¶"2"); (¶"max-keys", max); (¶"prefix", prefix)]
    ++ match after with Some a => [(¶"start-after", a)] | None => [] end.
Proof. by destruct after. Qed.

Lemma op_list prefix after (n : nat) stamps :
  s3_op (base_url st) (http_request st ¶"GET" []
    ([(¶"list-type", ¶"2"); (¶"max-keys", u64_to_string (Z.min (Z.max (Z.of_nat n) 1) 1000)); (¶"prefix", prefix)]
     ++ match after with Some a => [(¶"start-after", a)] | None => [] end) [] [] (sha256_hex []) stamps) =
  Some (S3List prefix after (Z.min (Z.max (Z.of_nat n) 1) 1000)).
Proof.
  unfold s3_op. rewrite read_url_of. cbn [mbind option_bind]. rewrite list_query_sorted.
  change (rq_method _) with ¶"GET". rewrite decide_False, decide_True by done.
  set (digits := u64_to_string _). change (field_of ¶"list-type" (([(¶"list-type", ¶"2"); (¶"max-keys", digits);
    (¶"prefix", prefix)] ++ match after with Some a => [(¶"start-after", a)] | None => [] end))) with (Some ¶"2").
  cbv beta iota. unfold read_list.
  change (field_of ¶"max-keys" (([(¶"list-type", ¶"2"); (¶"max-keys", digits);
    (¶"prefix", prefix)] ++ match after with Some a => [(¶"start-after", a)] | None => [] end))) with (Some digits).
  change (field_of ¶"prefix" (([(¶"list-type", ¶"2"); (¶"max-keys", digits);
    (¶"prefix", prefix)] ++ match after with Some a => [(¶"start-after", a)] | None => [] end))) with (Some prefix).
  cbn [mbind option_bind]. unfold digits. rewrite parse_unsigned_decimal by lia. cbn [mbind option_bind].
  by destruct after.
Qed.

End Requests.

(* ------------------------------------------------------------------ *)
(** * The client's answers *)

Section Refinement.
Context `{Sha256} `{Hmac}.

(** What an answer of the client may be: a step of the store contract, or the
    report of a profile violation with nothing changed. *)
Definition refines (c : call) (m : Space) (a : answer c) (m' : Space) : Prop :=
  contract c m a m' \/ (exists what, answer_err c a = Some (ProfileViolation what)) /\ m' = m.

Definition outcome (c : call) (f : HttpResponse -> answer c) (r : Result bytes HttpResponse) : answer c :=
  match r with Ok resp => f resp | Err e => fail_with c (transport_err e) end.

(** The client sends a write only with its digest. *)
Definition digest_ok (c : call) : Prop :=
  match c with CPut _ b d | CCas _ b d _ => sha256 b = d | _ => True end.

Lemma secs_u64 secs : secs_ok secs -> is_u64 (secs * SECOND_NS).
Proof. unfold secs_ok, is_u64, last_second, SECOND_NS. lia. Qed.

(** Whatever became of its answer, a request did what the call does or
    nothing. *)
Lemma answer_effect c op m resp m' :
  op_of_call c = Some op -> digest_ok c -> s3_answer op m resp m' -> m' = m \/ exists a, applied c m a m'.
Proof.
  intros Hop Hd. induction 1; auto.
  - destruct c as [k0 b0 d|k0 b0 d v0| |k0|p0 a0 n|k0]; cbn in Hop; try congruence; [|by destruct range as [[]|]; congruence].
    injection Hop as -> ->. right. eexists. apply (ap_put_committed _ _ _ _ v); [done|done|by apply secs_u64].
  - destruct c as [k0 b0 d|k0 b0 d v0|k0 range|k0|p0 a0 n|k0]; cbn in Hop; try congruence; [|by destruct range as [[]|]; congruence].
    injection Hop as -> -> ->. right. eexists. apply (ap_cas_committed _ _ _ _ _ e v); [done|done|done|by apply secs_u64].
  - destruct c as [k0 b0 d|k0 b0 d v0|k0 range|k0|p0 a0 n|k0]; cbn in Hop; try congruence; [by destruct range as [[]|]; congruence|].
    injection Hop as ->. right. eexists. apply ap_delete.
Qed.

(** What the response does not say: errors of the service and of the way. *)
Lemma unknown_refines c op m resp m' amb :
  op_of_call c = Some op -> digest_ok c -> s3_answer op m resp m' ->
  contract c m (fail_with c (OutcomeUnknown amb)) m'.
Proof.
  intros Hop Hd Ha. destruct (answer_effect _ _ _ _ _ Hop Hd Ha) as [->|[a Hc]];
    [apply ct_unknown_lost|by eapply ct_unknown_done].
Qed.

Lemma exchange_refines c op f m r m' :
  op_of_call c = Some op -> digest_ok c ->
  (forall resp m', s3_answer op m resp m' -> refines c m (f resp) m') ->
  s3_exchange op m r m' -> refines c m (outcome c f r) m'.
Proof.
  intros Hop Hd Hf [resp m1 Ha|e He|e He|e resp m1 He Ha]; cbn [outcome]; [by apply Hf|..];
    left; unfold transport_err; rewrite He.
  - apply ct_transport.
  - destruct (starts_with ¶"[timeout]" e); apply ct_unknown_lost.
  - destruct (starts_with ¶"[timeout]" e); by eapply unknown_refines.
Qed.

Lemma meta_described resp body etag secs size :
  describes resp body etag secs -> size = Z.of_nat (length body) ->
  meta_of_response resp size = meta_of (entry_at body etag secs).
Proof.
  intros (Hq & Hs & Hz & He & Hl) ->. unfold meta_of_response, meta_of, clean_etag. rewrite He, Hl. cbn [mbind option_bind].
  change (default [] (Some (quoted etag))) with (quoted etag).
  rewrite trim_quoted, parse_http_date_text by done. done.
Qed.

Lemma length_described resp body etag secs :
  describes resp body etag secs -> header resp ¶"Content-Length" = Some (u64_to_string (Z.of_nat (length body))) ->
  content_length resp = Z.of_nat (length body).
Proof.
  intros (_ & _ & Hz & _) Hl. unfold content_length. rewrite Hl. cbn [mbind option_bind].
  by rewrite parse_unsigned_decimal by (unfold size_ok in Hz; lia).
Qed.

#[local] Ltac by_status :=
  repeat match goal with
  | Hs : rs_status ?r = _ |- context [rs_status ?r] => rewrite Hs; cbv beta iota
  end.
#[local] Ltac violation := right; split; [eexists; reflexivity|reflexivity].

(** Statuses outside a client's cases. *)
Lemma status_refused s : 300 <= s < 500 -> s <> 404 -> s <> 412 -> s <> 416 ->
  (s =? 200) = false /\ (s =? 204) = false /\ (s =? 206) = false /\ (s =? 404) = false /\ (s =? 412) = false /\
  (s =? 416) = false /\ (500 <=? s) = false.
Proof. lia. Qed.
Lemma status_error s : 500 <= s ->
  (s =? 200) = false /\ (s =? 204) = false /\ (s =? 206) = false /\ (s =? 404) = false /\ (s =? 412) = false /\
  (s =? 416) = false /\ (500 <=? s) = true.
Proof. lia. Qed.
#[local] Ltac status_facts Hs := destruct Hs as (E200 & E204 & E206 & E404 & E412 & E416 & E500);
  rewrite ?E200, ?E204, ?E206, ?E404, ?E412, ?E416, ?E500; cbn [negb andb orb].
(** The refusals and the errors of the service. *)
#[local] Ltac not_served Hun :=
  match goal with
  | Hs : 300 <= _ < 500 |- _ => apply status_refused in Hs; [|assumption..]; status_facts Hs; violation
  | Hs : 500 <= _ |- _ => apply status_error in Hs; status_facts Hs; left; apply Hun
  end.
#[local] Ltac served := match goal with Hs : rs_status _ = _ |- _ => rewrite Hs; cbn [Z.eqb Pos.eqb negb andb orb] end.

Lemma put_refines k b d m resp m' :
  sha256 b = d -> s3_answer (S3Put k b IfNoneMatch) m resp m' -> refines (CPut k b d) m (put_status resp) m'.
Proof.
  intros Hd Ha. assert (forall amb, contract (CPut k b d) m (Err (OutcomeUnknown amb)) m') as Hun
    by (intros amb; by apply (unknown_refines (CPut k b d) _ m resp m' amb eq_refl Hd Ha)).
  unfold put_status. inversion Ha; subst; try not_served Hun; served.
  - match goal with Hh : header resp _ = _ |- _ => rewrite Hh end. left. apply ct_applied.
    unfold clean_etag. cbn [default from_option id]. rewrite trim_quoted by done.
    apply ap_put_committed; [done|done|by apply secs_u64].
  - left. by eapply ct_applied, ap_put_rejected.
Qed.

Lemma cas_refines k b d v m resp m' :
  sha256 b = d -> s3_answer (S3Put k b (IfMatch v)) m resp m' -> refines (CCas k b d v) m (put_status resp) m'.
Proof.
  intros Hd Ha. assert (forall amb, contract (CCas k b d v) m (Err (OutcomeUnknown amb)) m') as Hun
    by (intros amb; by apply (unknown_refines (CCas k b d v) _ m resp m' amb eq_refl Hd Ha)).
  unfold put_status. inversion Ha; subst; try not_served Hun; served.
  - match goal with Hh : header resp _ = _ |- _ => rewrite Hh end. left. apply ct_applied.
    unfold clean_etag. cbn [default from_option id]. rewrite trim_quoted by done.
    eapply ap_cas_committed; [done|done|done|by apply secs_u64].
  - left. by eapply ct_applied, ap_cas_rejected.
  - violation.
Qed.

Lemma head_refines k m resp m' :
  s3_answer (S3Head k) m resp m' -> refines (CHead k) m (head_response resp) m'.
Proof.
  intros Ha. assert (forall amb, contract (CHead k) m (Err (OutcomeUnknown amb)) m') as Hun
    by (intros amb; by apply (unknown_refines (CHead k) _ m resp m' amb eq_refl I Ha)).
  unfold head_response, read_status. inversion Ha; subst; try not_served Hun; served; left; apply ct_applied.
  - by apply ap_head_absent.
  - erewrite meta_described; [by apply ap_head|done|by eapply length_described].
Qed.

Lemma get_refines k m resp m' :
  s3_answer (S3Get k None) m resp m' -> refines (CGet k None) m (get_response None resp) m'.
Proof.
  intros Ha. assert (forall amb, contract (CGet k None) m (Err (OutcomeUnknown amb)) m') as Hun
    by (intros amb; by apply (unknown_refines (CGet k None) _ m resp m' amb eq_refl I Ha)).
  unfold get_response, read_status. inversion Ha; subst; try not_served Hun; served; left; apply ct_applied.
  - by apply ap_get_absent.
  - cbn [mbind result_bind]. erewrite meta_described; [|done|by eapply length_described].
    match goal with Hb : _ !! k = Some (entry_at (rs_body resp) ?v ?t) |- _ => apply (ap_get_whole _ _ _ Hb) end.
Qed.

Lemma after_last_app c a b : c ∉ b -> after_last c (a ++ c :: b) = b.
Proof.
  intros Hb. unfold after_last. assert (forall n a, (length a <= n)%nat -> last (split_on c (a ++ c :: b)) = Some b) as Hn.
  { clear a. induction n as [|n IH]; intros [|x a] Hl; cbn [length] in Hl; try lia.
    - cbn [app split_on]. rewrite decide_True by done. by rewrite split_on_no.
    - cbn [app split_on]. rewrite decide_True by done. by rewrite split_on_no.
    - cbn [app split_on]. specialize (IH a ltac:(lia)). pose proof (split_on_nonempty c (a ++ c :: b)) as Hne.
      destruct (decide (x = c)).
      + by destruct (split_on c (a ++ c :: b)).
      + destruct (split_on c (a ++ c :: b)) as [|y [|z ys]] eqn:E; [done| |exact IH].
        exfalso. cbn in IH. injection IH as ->.
        apply (f_equal (join_with c)) in E. rewrite join_split in E. cbn in E. apply Hb. rewrite <- E.
        rewrite elem_of_app. right. by left. }
  by rewrite (Hn _ _ (le_n _)).
Qed.

Lemma trim_digits s : Forall (fun b => is_digit b = true) s -> trim s = s.
Proof.
  intros Hs%digits_printable. unfold trim.
  assert (forall s, Forall (fun b => printable b = true) s -> trim_start 0 s = s) as Ht.
  { intros [|b l] Hl; [done|]. cbn [trim_start]. by rewrite printable_width by (by apply Forall_inv in Hl). }
  rewrite Ht by done. induction Hs as [|b s Hb Hs IH]; [done|]. cbn [trim_end].
  rewrite Ht by (by constructor). by rewrite IH.
Qed.

Lemma slice_length b s e : 0 <= s -> s <= e -> e <= Z.of_nat (length b) -> Z.of_nat (length (slice b s e)) = e - s.
Proof. intros. unfold slice. rewrite length_take, length_drop. lia. Qed.

Lemma range_refines k s e m resp m' :
  is_u64 s -> s < e ->
  s3_answer (S3Get k (Some (s, e - 1))) m resp m' -> refines (CGet k (Some (s, e))) m (get_response (Some (s, e)) resp) m'.
Proof.
  intros [Hs0 _] Hse Ha. assert (forall amb, contract (CGet k (Some (s, e))) m (Err (OutcomeUnknown amb)) m') as Hun
    by (intros amb; by apply (unknown_refines (CGet k (Some (s, e))) _ m resp m' amb eq_refl I Ha)).
  unfold get_response, read_status. inversion Ha; subst; try not_served Hun; served; try (left; apply ct_applied).
  - by apply ap_get_absent.
  - match goal with Hh : header resp ¶"Content-Range" = _ |- _ => rewrite Hh end.
    replace (e - 1 + 1) with e in * by lia.
    match goal with Hd : describes resp _ _ _ |- _ => pose proof Hd as (_ & _ & Hz & _) end. unfold size_ok in Hz.
    match goal with |- context [after_last slash ?t] => assert (after_last slash t = u64_to_string (Z.of_nat (length body))) as -> end.
    { rewrite !app_assoc. change ¶"/" with [slash]. rewrite <- app_assoc. change ([slash] ++ ?x) with (slash :: x).
      apply after_last_app, digits_not, decimal_digits; [done|lia]. }
    rewrite trim_digits by (apply decimal_digits; lia). rewrite parse_unsigned_decimal by lia.
    cbn [ok_or mbind result_bind]. match goal with Hb : rs_body resp = _ |- _ => rewrite Hb end.
    erewrite meta_described by done.
    rewrite slice_length by lia. destruct (Z.le_gt_cases e (Z.of_nat (length body))) as [Hle|Hgt].
    + rewrite Z.min_l, Z.eqb_refl by lia. cbn [negb].
      match goal with Hb : _ !! k = Some (entry_at body ?v ?t) |- _ => apply (ap_get_slice _ _ _ _ _ Hb) end; [done|exact Hle].
    + rewrite Z.min_r by lia. destruct (Z.eqb_spec (Z.of_nat (length body) - s) (e - s)); [lia|]. cbn [negb].
      match goal with Hb : _ !! k = Some (entry_at body ?v ?t) |- _ => apply (ap_get_range _ _ _ _ _ Hb) end. right. exact Hgt.
  - match goal with Hb : _ !! k = Some ?x |- _ => apply (ap_get_range _ _ _ _ _ Hb) end. lia.
Qed.

Lemma delete_refines k m resp m' :
  s3_answer (S3Delete k) m resp m' -> refines (CDelete k) m (delete_response resp) m'.
Proof.
  intros Ha. assert (forall amb, contract (CDelete k) m (Err (OutcomeUnknown amb)) m') as Hun
    by (intros amb; by apply (unknown_refines (CDelete k) _ m resp m' amb eq_refl I Ha)).
  unfold delete_response. inversion Ha; subst; try not_served Hun; served; left; apply ct_applied. apply ap_delete.
Qed.

Definition as_listing (x : bytes * ListContents) : Listing :=
  let '(k, c) := x in
  {| l_key := k; l_meta := {| m_version := lc_etag c; m_store_time_ns := lc_last_modified_ns c; m_size := lc_size c |} |}.

Lemma shown_listings its objs :
  Forall2 shows its objs -> map as_listing (map listed_contents objs) = its /\ Forall s3_object_wf objs.
Proof.
  induction 1 as [|l o its objs (Hw & Hk & Hm) _ [IH IHw]]; [by split|]. split; [|by constructor].
  cbn [map]. rewrite IH. f_equal. destruct l as [k mt]. cbn in Hk, Hm. by subst.
Qed.

Lemma page_listed m p a max n pg :
  page_of m p a (Z.to_nat max) pg -> 1 <= max -> max <= Z.of_nat n -> page_of m p a n pg.
Proof.
  intros (Hs & Hl & Hn & Hc & Ha) H1 Hm. split; [done|]. split; [done|]. split; [lia|]. split; [|done].
  intros k e Hk Hin. destruct (Hc k e Hk Hin) as [|[[Hx|Hz] Hf]]; [by left| |lia]. right. auto.
Qed.

Lemma list_refines p a (n : nat) m resp m' :
  n <> 0%nat -> s3_answer (S3List p a (Z.min (Z.max (Z.of_nat n) 1) 1000)) m resp m' ->
  refines (CList p a n) m (list_response a resp) m'.
Proof.
  intros Hn0 Ha. unfold list_response.
  assert (rs_status resp <> 200 -> m' = m -> refines (CList p a n) m (Err (ProfileViolation "list rejected")) m') as Hv
    by (intros _ ->; violation).
  assert (m' = m) as Em.
  { clear Hv. remember (S3List _ _ _) as op eqn:Eop. induction Ha; try discriminate; auto. }
  inversion Ha; subst;
    try (match goal with Hs : _ <= rs_status _ |- _ => idtac | Hs : _ <= rs_status _ < _ |- _ => idtac end;
         destruct (Z.eqb_spec (rs_status resp) 200); [lia|]; by apply Hv).
  served. left. apply ct_applied. match goal with Hb : rs_body resp = _, Hu : Cbor.Cbor.utf8_valid _ = true |- _ =>
    rewrite from_utf8_lossy_valid by exact Hu; rewrite Hb end.
  match goal with Hf : Forall2 shows _ _ |- _ => destruct (shown_listings _ _ Hf) as [Hits Hwf] end.
  rewrite parse_render by (done || lia). cbn [lr_contents lr_is_truncated].
  match goal with Hp : page_of _ _ _ _ ?pg |- _ => rename Hp into Hpage; rename pg into page end.
  assert (List.filter (fun '(k, _) => match a with Some a => bytes_ltb a k | None => true end) (map listed_contents objs)
          = map listed_contents objs) as ->.
  { assert (Forall (fun x => match a with Some a => bytes_ltb a x.1 | None => true end = true) (map listed_contents objs)) as Hall.
    { destruct Hpage as (_ & Hl & _). rewrite <- Hits in Hl.
      apply Forall_forall. intros x Hx. rewrite Forall_forall in Hl.
      destruct (Hl (as_listing x)) as (e & _ & _ & [_ Hlt]); [by apply list_elem_of_fmap_2|].
      destruct x as [k c]. cbn [as_listing l_key fst] in *. destruct a; [by apply bytes_ltb_lt|done]. }
    clear -Hall. induction Hall as [|[k c] l Hx _ IHl]; [done|]. cbn [List.filter]. cbn [fst] in Hx. by rewrite Hx, IHl. }
  change (map _ (map listed_contents objs)) with (map as_listing (map listed_contents objs)). rewrite Hits.
  assert ({| p_items := p_items page;
             p_next_after := if bool_decide (is_Some (p_next_after page)) then l_key <$> last (p_items page) else None |}
          = page) as ->.
  { destruct Hpage as (_ & _ & _ & _ & Hlast). destruct page as [its next]. cbn in *. f_equal.
    destruct next as [x|]; [|done]. specialize (Hlast x eq_refl). rewrite bool_decide_eq_true_2 by done.
    rewrite <- Hlast. symmetry. apply fmap_last. }
  apply ap_list. eapply page_listed; [exact Hpage|lia|lia].
Qed.

(** ** The client over a service *)

Context {T : Type} `{HttpTransport T} (st : HttpStore) `{!S3Service T (base_url st)}.

Lemma responds c op f method key query extra body sha t :
  s3_op (base_url st) (http_request st method key query extra body sha (amz_stamps t)) = Some op ->
  op_of_call c = Some op -> digest_ok c -> s3_inv (base := base_url st) t ->
  (forall m resp m', s3_answer op m resp m' -> refines c m (f resp) m') ->
  s3_inv (base := base_url st) (send (http_request st method key query extra body sha (amz_stamps t)) t).2 /\
  refines c (s3_view (base := base_url st) t)
    (outcome c f (send (http_request st method key query extra body sha (amz_stamps t)) t).1)
    (s3_view (base := base_url st) (send (http_request st method key query extra body sha (amz_stamps t)) t).2).
Proof.
  intros Hop Hc Hd Ht Hf. destruct (s3_send _ _ t Ht Hop) as [Hi Hx]. split; [done|].
  eapply exchange_refines; [exact Hc|exact Hd|apply Hf|exact Hx].
Qed.

Lemma respond_outcome {A} method key query extra body sha t (f : HttpResponse -> StoreResult A) :
  respond (request st method key query extra body sha t) f =
  (match (send (http_request st method key query extra body sha (amz_stamps t)) t).1 with
   | Ok resp => f resp | Err e => Err (transport_err e) end,
   (send (http_request st method key query extra body sha (amz_stamps t)) t).2).
Proof. unfold respond, request. by destruct (send _ t) as [[resp|e] t']. Qed.

Lemma http_refines_aux c t :
  call_ok c -> s3_inv (base := base_url st) t ->
  s3_inv (base := base_url st) (http_store st c t).2 /\
  refines c (s3_view (base := base_url st) t) (http_store st c t).1 (s3_view (base := base_url st) (http_store st c t).2).
Proof.
  intros Hc Ht. destruct c as [k b d|k b d v|k range|k|p a n|k]; cbn [http_store].
  - unfold put_conditional. destruct (bytes_eqb (sha256 b) d) eqn:Ed; cbn [negb].
    + apply bool_decide_eq_true in Ed. rewrite respond_outcome.
      apply (responds (CPut k b d) _ put_status _ _ _ _ _ _ _ (op_put st k b (push_hex d) None _ I) eq_refl Ed Ht).
      intros. by apply put_refines.
    + apply bool_decide_eq_false in Ed. split; [done|]. left. by apply ct_applied, ap_put_mismatch.
  - unfold put_conditional. destruct (bytes_eqb (sha256 b) d) eqn:Ed; cbn [negb].
    + apply bool_decide_eq_true in Ed. rewrite respond_outcome.
      apply (responds (CCas k b d v) _ put_status _ _ _ _ _ _ _ (op_put st k b (push_hex d) (Some v) _ Hc) eq_refl Ed Ht).
      intros. by apply cas_refines.
    + apply bool_decide_eq_false in Ed. split; [done|]. left. by apply ct_applied, ap_cas_mismatch.
  - unfold http_get. destruct range as [[s e]|].
    + destruct Hc as [Hs He]. destruct (Z.leb_spec e s) as [Hle|Hlt].
      * split; [done|]. left. apply ct_applied. destruct (s3_view t !! k) as [x|] eqn:Hx;
          [apply (ap_get_range _ _ _ _ _ Hx); lia|by apply ap_get_absent].
      * rewrite respond_outcome. assert (is_u64 (e - 1)) as He1 by (unfold is_u64 in *; lia).
        apply (responds (CGet k (Some (s, e))) _ (get_response (Some (s, e))) _ _ _ _ _ _ _
          (op_get st k (Some (s, e)) _ (conj Hs He1)) eq_refl I Ht). intros. by apply range_refines.
    + rewrite respond_outcome.
      apply (responds (CGet k None) _ (get_response None) _ _ _ _ _ _ _ (op_get st k None _ I) eq_refl I Ht).
      intros. by apply get_refines.
  - unfold http_head. rewrite respond_outcome.
    apply (responds (CHead k) _ head_response _ _ _ _ _ _ _ (op_head st k _) eq_refl I Ht). intros. by apply head_refines.
  - unfold http_list. destruct n as [|n].
    + split; [done|]. left. apply ct_applied, ap_list. split; [constructor|]. split; [constructor|].
      split; [cbn; lia|]. split; [|done]. intros k e _ _. right. split; [by right|constructor].
    + rewrite respond_outcome.
      apply (responds (CList p a (S n)) _ (list_response a) _ _ _ _ _ _ _ (op_list st p a (S n) _) eq_refl I Ht).
      intros. by apply list_refines.
  - unfold http_delete. rewrite respond_outcome.
    apply (responds (CDelete k) _ delete_response _ _ _ _ _ _ _ (op_delete st k _) eq_refl I Ht). intros. by apply delete_refines.
Qed.
End Refinement.

