(* ===== verification/Bucket.v ===== *)
(** An executable S3 service, on which the client's theorems are evaluated:
    it reads requests off the wire and answers them as [S3.s3_answer] says. *)

From S2P Require Import Prelude Sha256 Text Store Memory Dates Xml Http S3 Samples.

Record Bucket := {
  bk_objects : gmap bytes Stored;
  bk_version : Z;
  bk_seconds : Z;
  bk_stamps : bytes * bytes
}.

Definition bucket_memory (b : Bucket) : MemoryStore :=
  {| objects := bk_objects b; version_counter := bk_version b; clock := bk_seconds b; tick_step_ns := 1 |}.
Definition bucket_view (b : Bucket) : Space := view (bucket_memory b).

Definition response (status : Z) (headers : list (bytes * bytes)) (body : bytes) : HttpResponse :=
  {| rs_status := status; rs_headers := headers; rs_body := body |}.
Definition etag_of (x : Stored) : bytes := u64_to_string (s_version x).
Definition secs_of (x : Stored) : Z := s_store_time_ns x / SECOND_NS.
Definition object_headers (x : Stored) : list (bytes * bytes) :=
  [(¶"etag", quoted (etag_of x)); (¶"last-modified", http_date (secs_of x))].
Definition length_header (x : Stored) : bytes * bytes :=
  (¶"content-length", u64_to_string (Z.of_nat (length (s_body x)))).

Definition write_object (k body : bytes) (b : Bucket) : HttpResponse * Bucket :=
  let x := {| s_body := body; s_version := bk_version b + 1;
              s_store_time_ns := Z.min (bk_seconds b + 1) last_second * SECOND_NS |} in
  (response 200 [(¶"etag", quoted (etag_of x))] [],
   {| bk_objects := <[k := x]> (bk_objects b); bk_version := bk_version b + 1;
      bk_seconds := Z.min (bk_seconds b + 1) last_second; bk_stamps := bk_stamps b |}).

Definition listed_object (l : Listing) : S3Object :=
  {| so_key := l_key l; so_etag := m_version (l_meta l);
     so_secs := m_store_time_ns (l_meta l) / SECOND_NS; so_size := m_size (l_meta l) |}.

Definition serve_op (op : S3Op) (b : Bucket) : HttpResponse * Bucket :=
  match op with
  | S3Put k body cond =>
      if u64_max <? Z.of_nat (length body) then (response 413 [] [], b)
      else match cond, bk_objects b !! k with
        | IfNoneMatch, None => write_object k body b
        | IfNoneMatch, Some _ => (response 412 [] [], b)
        | IfMatch v, None => (response 404 [] [], b)
        | IfMatch v, Some x => if decide (etag_of x = v) then write_object k body b else (response 412 [] [], b)
        end
  | S3Get k range =>
      match bk_objects b !! k with
      | None => (response 404 [] [], b)
      | Some x =>
          let len := Z.of_nat (length (s_body x)) in
          match range with
          | None => (response 200 (object_headers x ++ [length_header x]) (s_body x), b)
          | Some (first, last_) =>
              if (first <? 0) || (last_ <? first) then (response 400 [] [], b)
              else if len <=? first then (response 416 [] [], b)
              else (response 206
                (object_headers x ++ [(¶"content-range", ¶"bytes " ++ u64_to_string first ++ ¶"-" ++
                   u64_to_string (Z.min last_ (len - 1)) ++ ¶"/" ++ u64_to_string len)])
                (slice (s_body x) first (Z.min (last_ + 1) len)), b)
          end
      end
  | S3Head k =>
      match bk_objects b !! k with
      | None => (response 404 [] [], b)
      | Some x => (response 200 (object_headers x ++ [length_header x]) [], b)
      end
  | S3List prefix after max =>
      if max <? 1 then (response 400 [] [], b)
      else match list_page (bucket_memory b) prefix after (Z.to_nat max) with
        | Err _ => (response 500 [] [], b)
        | Ok pg =>
            let body := render ¶"bucket" prefix max (bool_decide (is_Some (p_next_after pg)))
                          (map listed_object (p_items pg)) in
            if Cbor.Cbor.utf8_valid body then (response 200 [] body, b) else (response 500 [] [], b)
        end
  | S3Delete k =>
      (response 204 [] [],
       {| bk_objects := delete k (bk_objects b); bk_version := bk_version b; bk_seconds := bk_seconds b;
          bk_stamps := bk_stamps b |})
  end.

(** What of a request is lost on the way: nothing, the request or the response. *)
Inductive Loss := NoLoss | LoseRequest | LoseResponse.
(** The network loses the next requests and responses as scripted. *)
Record Network := { nw_bucket : Bucket; nw_losses : list Loss }.

Definition with_bucket (b : Bucket) (n : Network) : Network := {| nw_bucket := b; nw_losses := tail (nw_losses n) |}.

Definition bucket_transport (base : bytes) : HttpTransport Network := {|
  send := fun req n =>
    match s3_op base req with
    | None => (Ok (response 400 [] []), with_bucket (nw_bucket n) n)
    | Some op =>
        let '(resp, b) := serve_op op (nw_bucket n) in
        match List.hd NoLoss (nw_losses n) with
        | NoLoss => (Ok resp, with_bucket b n)
        | LoseRequest => (Err ¶"[pretransmit]", with_bucket (nw_bucket n) n)
        | LoseResponse => (Err ¶"[timeout]", with_bucket b n)
        end
    end;
  amz_stamps := fun n => bk_stamps (nw_bucket n)
|}.

(* ------------------------------------------------------------------ *)
(** * It is an S3 service *)

Definition stored_ok (x : Stored) : Prop :=
  0 <= s_version x /\ size_ok (s_body x) /\ exists secs, secs_ok secs /\ s_store_time_ns x = secs * SECOND_NS.
Definition bucket_ok (b : Bucket) : Prop :=
  0 <= bk_version b /\ secs_ok (bk_seconds b) /\ map_Forall (fun _ x => stored_ok x) (bk_objects b).

Lemma etag_of_ok x : 0 <= s_version x -> etag_ok (etag_of x).
Proof. intros Hv. apply digits_not; [done|]. apply decimal_digits. done. Qed.

Lemma secs_of_ok x : stored_ok x -> secs_ok (secs_of x) /\ s_store_time_ns x = secs_of x * SECOND_NS.
Proof.
  intros (_ & _ & secs & Hs & E). unfold secs_of. rewrite E, Z.div_mul by done. done.
Qed.

Lemma to_entry_at x : stored_ok x -> to_entry x = entry_at (s_body x) (etag_of x) (secs_of x).
Proof. intros [_ E]%secs_of_ok. unfold to_entry, entry_at. by rewrite <- E. Qed.

Lemma bucket_lookup b k x :
  bucket_ok b -> bk_objects b !! k = Some x ->
  stored_ok x /\ bucket_view b !! k = Some (entry_at (s_body x) (etag_of x) (secs_of x)).
Proof.
  intros (_ & _ & Ho) Hk. specialize (Ho k x Hk). cbn in Ho. split; [done|].
  unfold bucket_view. rewrite view_lookup. cbn [objects bucket_memory]. rewrite Hk. cbn. by rewrite to_entry_at.
Qed.
Lemma bucket_absent b k : bk_objects b !! k = None -> bucket_view b !! k = None.
Proof. intros Hk. unfold bucket_view. rewrite view_lookup. cbn [objects bucket_memory]. by rewrite Hk. Qed.

Lemma object_described x status extra body :
  stored_ok x -> describes (response status (object_headers x ++ extra) body) (s_body x) (etag_of x) (secs_of x).
Proof.
  intros Hx. split; [by apply etag_of_ok, Hx|]. split; [by apply secs_of_ok|]. split; [by apply Hx|]. by split.
Qed.

Lemma bucket_written b k body :
  bucket_ok b -> size_ok body ->
  exists v secs, etag_ok v /\ secs_ok secs /\ header (write_object k body b).1 ¶"ETag" = Some (quoted v) /\
    rs_status (write_object k body b).1 = 200 /\
    bucket_view (write_object k body b).2 = <[k := entry_at body v secs]> (bucket_view b) /\
    bucket_ok (write_object k body b).2.
Proof.
  intros (Hv & Hs & Ho) Hb. unfold secs_ok in Hs.
  exists (u64_to_string (bk_version b + 1)), (Z.min (bk_seconds b + 1) last_second).
  assert (secs_ok (Z.min (bk_seconds b + 1) last_second)) as Hsecs by (unfold secs_ok, last_second in *; lia).
  split; [apply digits_not; [done|]; apply decimal_digits; lia|]. split; [done|]. split; [done|]. split; [done|].
  split.
  - unfold bucket_view, view. cbn [write_object snd bucket_memory objects bk_objects]. rewrite fmap_insert. done.
  - split; [cbn; lia|]. split; [done|]. apply map_Forall_insert_2; [|done].
    split; [cbn; lia|]. split; [done|]. by eexists.
Qed.

Lemma listed_shown b prefix after n pg :
  bucket_ok b -> page_of (bucket_view b) prefix after n pg ->
  Forall2 shows (p_items pg) (map listed_object (p_items pg)).
Proof.
  intros Hb (_ & Hl & _). induction Hl as [|l its (e & He & Hm & _) _ IH]; [constructor|]. constructor; [|done].
  unfold bucket_view in He. rewrite view_lookup in He. apply fmap_Some in He as (x & Hx & ->).
  destruct Hb as (_ & _ & Ho). specialize (Ho _ _ Hx). cbn in Ho.
  destruct (secs_of_ok x Ho) as [Hs E]. split; [split; [|split]|split; [done|]].
  - cbn. rewrite Hm. by apply etag_of_ok, Ho.
  - cbn. rewrite Hm. exact Hs.
  - cbn. rewrite Hm. cbn. destruct Ho as (_ & Hz & _). unfold size_ok, is_u64 in *. lia.
  - unfold listed_object. cbn. rewrite Hm. cbn. f_equal. unfold secs_of in E. by rewrite <- E.
Qed.

Lemma serve_op_answers op b resp b' :
  bucket_ok b -> serve_op op b = (resp, b') ->
  bucket_ok b' /\ s3_answer op (bucket_view b) resp (bucket_view b').
Proof.
  intros Hb. assert (forall op status, (300 <= status < 500 /\ status <> 404 /\ status <> 412 /\ status <> 416) \/ 500 <= status ->
    bucket_ok b /\ s3_answer op (bucket_view b) (response status [] []) (bucket_view b)) as Hno.
  { intros op0 status Hs. split; [done|]. destruct Hs as [(H1 & H2 & H3 & H4)|Hs]; [by apply sa_refused|by apply sa_error]. }
  destruct op as [k body cond|k range|k|prefix after max|k]; cbn [serve_op].
  - destruct (Z.ltb_spec u64_max (Z.of_nat (length body))) as [|Hz]; [intros [= <- <-]; apply Hno; cbn; lia|].
    destruct (bucket_written b k body Hb Hz) as (v & secs & Hv & Hsecs & Hh & Hst & Hview & Hok).
    destruct cond as [|v0], (bk_objects b !! k) as [x|] eqn:Hk.
    + intros [= <- <-]. split; [done|]. destruct (bucket_lookup b k x Hb Hk) as [_ Hx]. by eapply sa_exists.
    + intros Hw. rewrite Hw in *. cbn [fst snd] in *. split; [done|]. rewrite Hview. apply sa_created; try done. by apply bucket_absent.
    + destruct (bucket_lookup b k x Hb Hk) as [_ Hx]. case_decide as Hd.
      * intros Hw. rewrite Hw in *. cbn [fst snd] in *. split; [done|]. rewrite Hview. rewrite <- Hd.
        by apply (sa_replaced _ _ _ _ _ v secs Hx).
      * intros [= <- <-]. split; [done|]. by eapply (sa_changed _ _ _ _ _ _ Hx).
    + intros [= <- <-]. split; [done|]. apply sa_put_absent; [by apply bucket_absent|done].
  - destruct (bk_objects b !! k) as [x|] eqn:Hk.
    2:{ intros [= <- <-]. split; [done|]. apply sa_get_absent; [by apply bucket_absent|done]. }
    destruct (bucket_lookup b k x Hb Hk) as [Hx Hv]. destruct range as [[first last_]|].
    + destruct (Z.ltb_spec first 0), (Z.ltb_spec last_ first); cbn [orb]; try (intros [= <- <-]; apply Hno; cbn; lia).
      destruct (Z.leb_spec (Z.of_nat (length (s_body x))) first).
      * intros [= <- <-]. split; [done|]. by eapply (sa_get_unsatisfiable _ _ _ _ _ _ Hv).
      * intros [= <- <-]. split; [done|]. apply (sa_get_range _ _ _ _ _ _ _ _ Hv); try done; try lia.
        by apply object_described.
    + intros [= <- <-]. split; [done|]. apply (sa_get _ _ _ _ _ _ Hv); try done. by apply object_described.
  - destruct (bk_objects b !! k) as [x|] eqn:Hk.
    + destruct (bucket_lookup b k x Hb Hk) as [Hx Hv]. intros [= <- <-]. split; [done|].
      apply (sa_head _ _ _ _ _ _ Hv); try done. by apply object_described.
    + intros [= <- <-]. split; [done|]. apply sa_head_absent; [by apply bucket_absent|done].
  - destruct (Z.ltb_spec max 1); [intros [= <- <-]; apply Hno; cbn; lia|].
    destruct (list_page_contract (bucket_memory b) prefix after (Z.to_nat max)) as (pg & -> & Hpg).
    destruct (Cbor.Cbor.utf8_valid _) eqn:Hu; [|intros [= <- <-]; apply Hno; cbn; lia].
    intros [= <- <-]. split; [done|]. eapply sa_list; [exact Hpg|by eapply listed_shown|lia|done|exact Hu|done].
  - intros [= <- <-]. destruct Hb as (Hv & Hs & Ho). split.
    + split; [done|]. split; [done|]. by apply map_Forall_delete.
    + unfold bucket_view, view. cbn [bucket_memory objects bk_objects]. rewrite fmap_delete. by apply sa_deleted.
Qed.

Section Service.
Context (base : bytes).
#[local] Existing Instance bucket_transport.

#[export] Instance bucket_service : @S3Service Network (bucket_transport base) base.
Proof.
  refine {| s3_view := fun n => bucket_view (nw_bucket n); s3_inv := fun n => bucket_ok (nw_bucket n) |}.
  intros req op n Hn Hop. cbn [send bucket_transport]. rewrite Hop.
  destruct (serve_op op (nw_bucket n)) as [resp b] eqn:E.
  destruct (serve_op_answers _ _ _ _ Hn E) as [Hb Ha].
  destruct (List.hd NoLoss (nw_losses n)); cbn [fst snd with_bucket nw_bucket].
  - split; [done|]. by apply sx_answered.
  - split; [done|]. by apply sx_unsent.
  - split; [done|]. by eapply sx_lost_done.
Defined.
End Service.

(** ** A conversation *)

#[local] Existing Instance toy_digest.
#[local] Instance toy_hmac : Hmac := {| hmac_sha256 := fun key data => checksum (key ++ data) |}.

Definition sample_config : HttpStoreConfig :=
  {| region := ¶"auto"; endpoint := ¶"http://127.0.0.1:9000/"; force_path_style := true; bucket := ¶"stowq";
     access_key := ¶"AK"; secret_key := ¶"SK"; session_token := None |}.
Definition sample_http : HttpStore := http_store_new sample_config.
#[local] Instance sample_transport : HttpTransport Network := bucket_transport (base_url sample_http).

Definition empty_network (losses : list Loss) : Network :=
  {| nw_bucket := {| bk_objects := ∅; bk_version := 0; bk_seconds := 1786997129; bk_stamps := stamps_from_unix 1786997130 |};
     nw_losses := losses |}.
Definition sample_key : bytes := ¶"q/jobs/0000/a b&c".
Definition sample_put : call := CPut sample_key ¶"payload" (sha256 ¶"payload").
(** A write whose response is lost. *)
Definition sample_network : Network := (http_store sample_http sample_put (empty_network [LoseResponse])).2.
Definition sample_meta : Meta := {| m_version := ¶"1"; m_store_time_ns := 1786997130000000000; m_size := 7 |}.

Lemma empty_network_ok losses : bucket_ok (nw_bucket (empty_network losses)).
Proof. split; [done|]. split; [done|]. apply map_Forall_empty. Qed.

