(* ===== verification/Sdk.v ===== *)
(** [stowq-store-s3/src/lib.rs]: the store client over the AWS SDK.

    The SDK is not part of the repository: it is a parameter ([SdkClient]), one
    transition per request the client builds, with the fields of requests and
    outputs that the client sets and reads.  [sdk_exchange] states what S3
    documents of them, lost requests and answers included; against any such
    service the client keeps the store contract, or reports a profile violation
    and leaves the bucket alone. *)

From S2P Require Import Prelude Sha256 Text Store Memory Dates Xml Http S3 Bucket Samples.

(* ------------------------------------------------------------------ *)
(** * The SDK's requests and outputs *)

(** The classes of [SdkError] the client tells apart; of a dispatch failure,
    its [is_timeout] and [is_user]. *)
Inductive SdkError :=
| ServiceError (status : Z)
| TimeoutError
| ResponseError
| DispatchFailure (is_timeout is_user : bool)
| ConstructionFailure.

Inductive SdkCall :=
| PutObject (bucket key body checksum_sha256 : bytes) (if_match if_none_match : option bytes)
| GetObject (bucket key : bytes) (range : option bytes)
| HeadObject (bucket key : bytes)
| ListObjectsV2 (bucket prefix : bytes) (max_keys : Z) (start_after : option bytes)
| DeleteObject (bucket key : bytes).

(** Times are [DateTime::as_nanos]; lengths are [i64]; a body is [None] when
    [collect] fails. *)
Record GetObjectOutput := {
  go_content_range : option bytes;
  go_content_length : option Z;
  go_e_tag : option bytes;
  go_last_modified : option Z;
  go_body : option bytes
}.
Record HeadObjectOutput := {
  ho_content_length : option Z;
  ho_e_tag : option bytes;
  ho_last_modified : option Z
}.
Record SdkObject := {
  ob_key : option bytes;
  ob_e_tag : option bytes;
  ob_last_modified : option Z;
  ob_size : option Z
}.
Record ListObjectsV2Output := { lo_contents : list SdkObject; lo_is_truncated : option bool }.

Definition sdk_out (c : SdkCall) : Type :=
  match c with
  | PutObject _ _ _ _ _ _ => option bytes
  | GetObject _ _ _ => GetObjectOutput
  | HeadObject _ _ => HeadObjectOutput
  | ListObjectsV2 _ _ _ _ => ListObjectsV2Output
  | DeleteObject _ _ => unit
  end.

Class SdkClient (T : Type) := sdk_send : forall c : SdkCall, T -> Result SdkError (sdk_out c) * T.

(* ------------------------------------------------------------------ *)
(** * Helpers *)

(** Whole seconds, in nanoseconds ([div_euclid], then [as u64]). *)
Definition quantize (nanos : Z) : Z := (nanos / SECOND_NS * SECOND_NS) mod 2 ^ 64.

(** [usize as i32]. *)
Definition as_i32 (z : Z) : Z := (z + 2 ^ 31) mod 2 ^ 32 - 2 ^ 31.

Definition base64_table : bytes := ¶"ABCDEFGHIJKLMNOPQRSTUVWXYZabcdefghijklmnopqrstuvwxyz0123456789+/".
Definition base64_char (n : Z) : byte := nth (Z.to_nat (Z.land n 0x3f)) base64_table Init.Byte.x3d.
Fixpoint base64_std (b : bytes) : bytes :=
  let n b0 b1 b2 := Z.lor (Z.lor (Z.shiftl (byte_val b0) 16) (Z.shiftl (byte_val b1) 8)) (byte_val b2) in
  let digit n i := base64_char (Z.shiftr n i) in
  let zero := Init.Byte.x00 in
  match b with
  | [] => []
  | [b0] => let n := n b0 zero zero in [digit n 18; digit n 12; Init.Byte.x3d; Init.Byte.x3d]
  | [b0; b1] => let n := n b0 b1 zero in [digit n 18; digit n 12; digit n 6; Init.Byte.x3d]
  | b0 :: b1 :: b2 :: rest => let n := n b0 b1 b2 in digit n 18 :: digit n 12 :: digit n 6 :: digit n 0 :: base64_std rest
  end.

(** The vectors of RFC 4648. *)
Example base64_vectors :
  map base64_std [¶""; ¶"f"; ¶"fo"; ¶"foo"; ¶"foob"; ¶"fooba"; ¶"foobar"]
  = [¶""; ¶"Zg=="; ¶"Zm8="; ¶"Zm9v"; ¶"Zm9vYg=="; ¶"Zm9vYmE="; ¶"Zm9vYmFy"].
Proof. reflexivity. Qed.

Definition status_of (e : SdkError) : option Z :=
  match e with ServiceError status => Some status | _ => None end.

Definition classify_send_err (e : SdkError) : StoreError :=
  match e with
  | TimeoutError | ResponseError => OutcomeUnknown Timeout
  | DispatchFailure is_timeout is_user =>
      if is_timeout then OutcomeUnknown ConnectionLost
      else if is_user then Transport PreTransmit
      else OutcomeUnknown ConnectionLost
  | _ => ProfileViolation "unexpected sdk error class"
  end.

Definition read_err (e : SdkError) : StoreError :=
  match status_of e with
  | Some status =>
      if status =? 404 then NotFound
      else if status =? 416 then NotFound
      else if 500 <=? status then OutcomeUnknown AmbiguousResponse
      else ProfileViolation "read rejected"
  | None => classify_send_err e
  end.

(* ------------------------------------------------------------------ *)
(** * The client *)

Record S3Store := { s3_bucket : bytes }.

Section Client.
Context `{Sha256} {T : Type} `{SdkClient T} (st : S3Store).

Definition put_error (e : SdkError) : StoreResult PutOutcome :=
  match status_of e with
  | Some status =>
      if status =? 412 then Ok Rejected
      else if 500 <=? status then Err (OutcomeUnknown AmbiguousResponse)
      else Err (ProfileViolation "put rejected")
  | None => Err (classify_send_err e)
  end.

Definition sdk_put_conditional (key body sha : bytes) (if_match : option Version) (t : T)
  : StoreResult PutOutcome * T :=
  if negb (bytes_eqb (sha256 body) sha) then (Err (IntegrityViolation DigestMismatch), t)
  else
    let star := match if_match with Some _ => None | None => Some ¶"*" end in
    match sdk_send (PutObject (s3_bucket st) key body (base64_std sha) if_match star) t with
    | (Ok e_tag, t) => (Ok (Committed (default [] e_tag)), t)
    | (Err e, t) => (put_error e, t)
    end.

(** What [get] makes of an output: on a ranged read the full size comes from
    [Content-Range]. *)
Definition get_output (range : option (Z * Z)) (out : GetObjectOutput) : StoreResult Object :=
  size ← match range, go_content_range out with
         | Some _, Some cr =>
             ok_or (parse_unsigned u64_max (after_last slash cr)) (ProfileViolation "malformed content-range")
         | _, _ => Ok (as_u64 (default 0 (go_content_length out)))
         end;
  let meta := {| m_version := default [] (go_e_tag out);
                 m_store_time_ns := default 0 (quantize <$> go_last_modified out);
                 m_size := size |} in
  body ← ok_or (go_body out) (OutcomeUnknown ConnectionLost);
  match range with
  | Some (s, e) =>
      if negb (Z.of_nat (length body) =? e - s) then Err NotFound
      else Ok {| o_meta := meta; o_body := body |}
  | None => Ok {| o_meta := meta; o_body := body |}
  end.

Definition sdk_get (key : bytes) (range : option (Z * Z)) (t : T) : StoreResult Object * T :=
  let go header :=
    match sdk_send (GetObject (s3_bucket st) key header) t with
    | (Ok out, t) => (get_output range out, t)
    | (Err e, t) => (Err (read_err e), t)
    end in
  match range with
  | Some (s, e) =>
      if e <=? s then (Err NotFound, t)
      else go (Some (¶"bytes=" ++ u64_to_string s ++ ¶"-" ++ u64_to_string (e - 1)))
  | None => go None
  end.

Definition sdk_head (key : bytes) (t : T) : StoreResult Meta * T :=
  match sdk_send (HeadObject (s3_bucket st) key) t with
  | (Ok out, t) =>
      (Ok {| m_version := default [] (ho_e_tag out);
             m_store_time_ns := default 0 (quantize <$> ho_last_modified out);
             m_size := as_u64 (default 0 (ho_content_length out)) |}, t)
  | (Err e, t) => (Err (read_err e), t)
  end.

(** An object of a listing, unless it has no key or is not after the cursor. *)
Definition list_item (after : option bytes) (o : SdkObject) : option Listing :=
  k ← ob_key o;
  if match after with Some a => bytes_leb k a | None => false end then None
  else Some {| l_key := k;
               l_meta := {| m_version := default [] (ob_e_tag o);
                            m_store_time_ns := default 0 (quantize <$> ob_last_modified o);
                            m_size := as_u64 (default 0 (ob_size o)) |} |}.

Definition list_output (after : option bytes) (out : ListObjectsV2Output) : Page :=
  let items := omap (list_item after) (lo_contents out) in
  {| p_items := items;
     p_next_after := if default false (lo_is_truncated out) then l_key <$> last items else None |}.

Definition sdk_list (prefix : bytes) (after : option bytes) (limit : nat) (t : T) : StoreResult Page * T :=
  match limit with
  | O => (Ok {| p_items := []; p_next_after := None |}, t)
  | _ =>
      let max_keys := Z.min (Z.max (as_i32 (Z.of_nat limit)) 1) 1000 in
      match sdk_send (ListObjectsV2 (s3_bucket st) prefix max_keys after) t with
      | (Ok out, t) => (Ok (list_output after out), t)
      | (Err e, t) => (Err (classify_send_err e), t)
      end
  end.

Definition sdk_delete (key : bytes) (t : T) : StoreResult unit * T :=
  match sdk_send (DeleteObject (s3_bucket st) key) t with
  | (Ok _, t) => (Ok (), t)
  | (Err e, t) =>
      (match status_of e with
       | Some status => if status =? 404 then Ok () else Err (read_err e)
       | None => Err (read_err e)
       end, t)
  end.

(** [impl ObjectStore for S3Store]. *)
Definition sdk_store : ObjectStore T := fun c =>
  match c return T -> answer c * T with
  | CPut k b d => sdk_put_conditional k b d None
  | CCas k b d v => sdk_put_conditional k b d (Some v)
  | CGet k r => sdk_get k r
  | CHead k => sdk_head k
  | CList p a n => sdk_list p a n
  | CDelete k => sdk_delete k
  end.
End Client.

(* ------------------------------------------------------------------ *)
(** * The service *)

Definition sdk_bucket (c : SdkCall) : bytes :=
  match c with
  | PutObject b _ _ _ _ _ | GetObject b _ _ | HeadObject b _ | ListObjectsV2 b _ _ _ | DeleteObject b _ => b
  end.

(** An object's ETag and time as an output shows them: the time may come with
    a fraction of the second. *)
Definition shown_as (e_tag : option bytes) (last_modified : option Z) (etag : bytes) (secs : Z) : Prop :=
  e_tag = Some etag /\ secs_ok secs /\ exists ns, last_modified = Some ns /\ ns / SECOND_NS = secs.
Definition length_of (body : bytes) : option Z := Some (Z.of_nat (length body)).
Definition object_size_ok (body : bytes) : Prop := Z.of_nat (length body) <= i64_max.

(** A body arrives whole or not at all. *)
Definition arrives (got : option bytes) (body : bytes) : Prop := got = None \/ got = Some body.

Definition condition_holds (m : Space) (k : bytes) (if_match if_none_match : option bytes) : Prop :=
  match if_match, if_none_match with
  | None, Some star => star = ¶"*" /\ m !! k = None
  | Some v, None => exists e, m !! k = Some e /\ e_version e = v
  | _, _ => False
  end.

Definition item_shows (l : Listing) (o : SdkObject) : Prop :=
  ob_key o = Some (l_key l) /\ exists secs,
    shown_as (ob_e_tag o) (ob_last_modified o) (m_version (l_meta l)) secs /\
    m_store_time_ns (l_meta l) = secs * SECOND_NS /\ ob_size o = Some (m_size (l_meta l)) /\
    0 <= m_size (l_meta l) <= i64_max.

Section Service.
Context `{Sha256}.

(** A request that succeeded. *)
Definition sdk_done (c : SdkCall) (m : Space) : sdk_out c -> Space -> Prop :=
  match c return sdk_out c -> Space -> Prop with
  | PutObject _ k body sum if_match if_none_match => fun e_tag m' =>
      sum = base64_std (sha256 body) /\ condition_holds m k if_match if_none_match /\
      exists etag secs, e_tag = Some etag /\ secs_ok secs /\ m' = <[k := entry_at body etag secs]> m
  | GetObject _ k range => fun out m' => m' = m /\ exists body etag secs,
      m !! k = Some (entry_at body etag secs) /\ object_size_ok body /\
      shown_as (go_e_tag out) (go_last_modified out) etag secs /\
      match range with
      | None => go_content_length out = length_of body /\ arrives (go_body out) body
      | Some r => exists first last_, parse_range r = Some (first, last_) /\ first < Z.of_nat (length body) /\
          go_content_range out =
            Some (¶"bytes " ++ u64_to_string first ++ ¶"-" ++ u64_to_string (Z.min last_ (Z.of_nat (length body) - 1)) ++
                  ¶"/" ++ u64_to_string (Z.of_nat (length body))) /\
          arrives (go_body out) (slice body first (Z.min (last_ + 1) (Z.of_nat (length body))))
      end
  | HeadObject _ k => fun out m' => m' = m /\ exists body etag secs,
      m !! k = Some (entry_at body etag secs) /\ object_size_ok body /\
      shown_as (ho_e_tag out) (ho_last_modified out) etag secs /\ ho_content_length out = length_of body
  | ListObjectsV2 _ prefix max after => fun out m' => m' = m /\ 1 <= max /\ exists pg,
      page_of m prefix after (Z.to_nat max) pg /\ Forall2 item_shows (p_items pg) (lo_contents out) /\
      lo_is_truncated out = Some (bool_decide (is_Some (p_next_after pg)))
  | DeleteObject _ k => fun _ m' => m' = delete k m
  end.

(** What a refusal's status says of the bucket. *)
Definition refusal (c : SdkCall) (m : Space) (status : Z) : Prop :=
  300 <= status < 500 /\
  match c with
  | PutObject _ k _ _ if_match if_none_match =>
      status = 412 -> match if_match, if_none_match with
                      | None, Some _ => is_Some (m !! k)
                      | Some v, None => exists e, m !! k = Some e /\ e_version e <> v
                      | _, _ => False
                      end
  | GetObject _ k range =>
      (status = 404 -> m !! k = None) /\
      (status = 416 -> exists r first last_ e, range = Some r /\ parse_range r = Some (first, last_) /\
                         m !! k = Some e /\ Z.of_nat (length (e_body e)) <= first)
  | HeadObject _ k => (status = 404 -> m !! k = None) /\ status <> 416
  | DeleteObject _ k => (status = 404 -> m !! k = None) /\ status <> 416
  | ListObjectsV2 _ _ _ _ => True
  end.

Definition perhaps (c : SdkCall) (m m' : Space) : Prop := m' = m \/ exists out, sdk_done c m out m'.

(** Only a refusal, and what was never sent, is known to have changed
    nothing. *)
Definition sdk_failed (c : SdkCall) (m : Space) (e : SdkError) (m' : Space) : Prop :=
  match e with
  | ServiceError status => refusal c m status /\ m' = m \/ 500 <= status /\ perhaps c m m'
  | TimeoutError | ResponseError => perhaps c m m'
  | DispatchFailure is_timeout is_user => perhaps c m m' /\ (is_timeout = false -> is_user = true -> m' = m)
  | ConstructionFailure => m' = m
  end.

Definition sdk_exchange (c : SdkCall) (m : Space) (r : Result SdkError (sdk_out c)) (m' : Space) : Prop :=
  match r with Ok out => sdk_done c m out m' | Err e => sdk_failed c m e m' end.
End Service.

Class SdkService (T : Type) `{Sha256} `{SdkClient T} (bucket : bytes) := {
  sv_view : T -> Space;
  sv_inv : T -> Prop;
  sv_send : forall c t, sv_inv t -> sdk_bucket c = bucket ->
    sv_inv (sdk_send c t).2 /\ sdk_exchange c (sv_view t) (sdk_send c t).1 (sv_view (sdk_send c t).2)
}.

(* ------------------------------------------------------------------ *)
(** * The client keeps the contract *)

Lemma quantize_secs ns secs : secs_ok secs -> ns / SECOND_NS = secs -> quantize ns = secs * SECOND_NS.
Proof.
  intros Hs E. unfold quantize. rewrite E. apply Z.mod_small. apply secs_u64 in Hs. unfold is_u64 in Hs. lia.
Qed.
Lemma as_u64_size z : 0 <= z <= i64_max -> as_u64 z = z.
Proof. intros Hz. unfold as_u64. apply Z.mod_small. lia. Qed.

Lemma length_read body : object_size_ok body -> as_u64 (default 0 (length_of body)) = Z.of_nat (length body).
Proof. intros Hz. apply as_u64_size. unfold object_size_ok in Hz. cbn. lia. Qed.

(** The metadata an output shows is the entry's. *)
Lemma shown_meta e_tag last_modified body etag secs :
  shown_as e_tag last_modified etag secs ->
  {| m_version := default [] e_tag; m_store_time_ns := default 0 (quantize <$> last_modified);
     m_size := Z.of_nat (length body) |} = meta_of (entry_at body etag secs).
Proof.
  intros (-> & Hs & ns & -> & Hns). unfold meta_of, entry_at. cbn. f_equal. by apply quantize_secs.
Qed.

Section Refines.
Context `{Sha256} {T : Type} `{SdkClient T}.

(** Requests of calls, and their effect. *)
Lemma perhaps_effect c (call : SdkCall) m m' amb :
  (forall out, sdk_done call m out m' -> exists a, applied c m a m') -> perhaps call m m' ->
  contract c m (fail_with c (OutcomeUnknown amb)) m'.
Proof. intros Hd [->|[out Ho]]; [apply ct_unknown_lost|]. destruct (Hd out Ho) as [a Ha]. by eapply ct_unknown_done. Qed.

Lemma send_err_refines c call m e m' :
  (forall out, sdk_done call m out m' -> exists a, applied c m a m') ->
  status_of e = None -> sdk_failed call m e m' -> refines c m (fail_with c (classify_send_err e)) m'.
Proof.
  intros Hd Hs Hf. destruct e as [status| | |[] []|]; cbn in *; try done;
    try (left; eapply perhaps_effect; [exact Hd|]; by (destruct Hf || idtac)).
  - left. by eapply perhaps_effect.
  - left. by eapply perhaps_effect.
  - left. destruct Hf as [_ Hf]. rewrite Hf by done. apply ct_transport.
  - right. split; [|done]. exists "unexpected sdk error class"%string. by destruct c.
Qed.

#[local] Ltac violated := right; split; [eexists; reflexivity|done].

(** ** The writes *)

Definition put_request (st : S3Store) (k b d : bytes) (v : option Version) : SdkCall :=
  PutObject (s3_bucket st) k b (base64_std d) v (match v with Some _ => None | None => Some ¶"*" end).
Definition put_call (k b d : bytes) (v : option Version) : call :=
  match v with Some v => CCas k b d v | None => CPut k b d end.
Definition put_answered (k b d : bytes) (v : option Version) : StoreResult PutOutcome -> answer (put_call k b d v) :=
  match v return StoreResult PutOutcome -> answer (put_call k b d v) with Some _ => id | None => id end.

Lemma put_effect st k b d v m out m' :
  sha256 b = d -> sdk_done (put_request st k b d v) m out m' ->
  applied (put_call k b d v) m (put_answered k b d v (Ok (Committed (default [] out)))) m'.
Proof.
  intros Hd (_ & Hc & etag & secs & -> & Hs%secs_u64 & ->). destruct v as [v|]; cbn in Hc |- *; unfold id.
  - destruct Hc as (e & He & Ev). by apply (ap_cas_committed _ _ _ _ _ e).
  - destruct Hc as [_ Hn]. by apply ap_put_committed.
Qed.

Lemma put_sdk_refines st k b d v m r m' :
  sha256 b = d -> sdk_exchange (put_request st k b d v) m r m' ->
  refines (put_call k b d v) m
    (put_answered k b d v match r with Ok e_tag => Ok (Committed (default [] e_tag)) | Err e => put_error e end) m'.
Proof.
  intros Hd Hx. destruct r as [out|e].
  { left. apply ct_applied. by eapply put_effect. }
  assert (forall out m1, sdk_done (put_request st k b d v) m out m1 -> exists a, applied (put_call k b d v) m a m1) as He.
  { intros out m1 Ho. eexists. by eapply put_effect. }
  unfold put_error. destruct (status_of e) as [status|] eqn:Es.
  - destruct e; try done. injection Es as ->. destruct Hx as [[[Hr Hc] ->]|[H5 Hp]].
    + cbn [put_request] in Hc. destruct (Z.eqb_spec status 412) as [->|_].
      * left. specialize (Hc eq_refl). apply ct_applied. destruct v as [v|]; cbn in Hc |- *; unfold id.
        -- destruct Hc as (x & Hx & Hne). by apply (ap_cas_rejected _ _ _ _ _ x).
        -- destruct Hc as [x Hx]. by apply (ap_put_rejected _ _ _ _ x).
      * rewrite (proj2 (Z.leb_gt 500 status)) by lia. destruct v; violated.
    + destruct (Z.eqb_spec status 412) as [->|_]; [lia|]. rewrite (proj2 (Z.leb_le 500 status)) by lia. left.
      destruct v as [v|]; [exact (perhaps_effect (CCas k b d v) _ m m' _ (fun o => He o m') Hp)|
                           exact (perhaps_effect (CPut k b d) _ m m' _ (fun o => He o m') Hp)].
  - pose proof (send_err_refines _ _ m e m' ltac:(intros; by eapply He) Es Hx) as Hr. by destruct v.
Qed.

(** ** The reads *)

Lemma read_err_refines c call m e m' :
  (forall out m', sdk_done call m out m' -> m' = m) ->
  (forall status, refusal call m status -> status = 404 \/ status = 416 -> applied c m (fail_with c NotFound) m) ->
  sdk_failed call m e m' -> refines c m (fail_with c (read_err e)) m'.
Proof.
  intros Hd Hn Hx. assert (perhaps call m m' -> m' = m) as Hp.
  { intros [|[out Ho]]; [done|]. by eapply Hd. }
  unfold read_err. destruct (status_of e) as [status|] eqn:Es.
  - destruct e; try done. injection Es as ->. destruct Hx as [[Hr ->]|[H5 Hx]].
    + pose proof Hr as [Hs _]. specialize (Hn status Hr).
      destruct (Z.eqb_spec status 404); [left; apply ct_applied; auto|].
      destruct (Z.eqb_spec status 416); [left; apply ct_applied; auto|].
      rewrite (proj2 (Z.leb_gt 500 status)) by lia. right. split; [|done]. eexists. by destruct c.
    + destruct (Z.eqb_spec status 404); [lia|]. destruct (Z.eqb_spec status 416); [lia|].
      rewrite (proj2 (Z.leb_le 500 status)) by lia. left. rewrite (Hp Hx). apply ct_unknown_lost.
  - destruct e as [status| | |[] []|]; try done; cbn in *; try rewrite (Hp Hx); try rewrite (Hp (proj1 Hx));
      try (left; (apply ct_unknown_lost || apply ct_transport)).
    right. split; [|done]. exists "unexpected sdk error class"%string. by destruct c.
Qed.

Lemma head_sdk_refines st k m r m' :
  sdk_exchange (HeadObject (s3_bucket st) k) m r m' ->
  refines (CHead k) m
    (match r with
     | Ok out => Ok {| m_version := default [] (ho_e_tag out);
                       m_store_time_ns := default 0 (quantize <$> ho_last_modified out);
                       m_size := as_u64 (default 0 (ho_content_length out)) |}
     | Err e => Err (read_err e)
     end) m'.
Proof.
  intros Hx. destruct r as [out|e].
  - destruct Hx as (-> & body & etag & secs & He & Hz & Hs & Hl). rewrite Hl, length_read by done.
    rewrite (shown_meta _ _ body etag secs Hs). left. by apply ct_applied, ap_head.
  - apply (read_err_refines (CHead k) (HeadObject (s3_bucket st) k)); [by intros ? ? [-> _]| |exact Hx].
    intros status [_ [H4 H416]] [->| ->]; [|done]. by apply ap_head_absent, H4.
Qed.

Lemma get_sdk_refines st k m r m' :
  sdk_exchange (GetObject (s3_bucket st) k None) m r m' ->
  refines (CGet k None) m (match r with Ok out => get_output None out | Err e => Err (read_err e) end) m'.
Proof.
  intros Hx. destruct r as [out|e].
  - destruct Hx as (-> & body & etag & secs & He & Hz & Hs & Hl & Hb). unfold get_output. rewrite Hl, length_read by done.
    cbn [mbind result_bind]. rewrite (shown_meta _ _ body etag secs Hs).
    left. destruct Hb as [-> | ->]; cbn [ok_or mbind result_bind].
    + apply (ct_unknown_lost (CGet k None)).
    + apply ct_applied. by apply (ap_get_whole _ _ (entry_at body etag secs)).
  - apply (read_err_refines (CGet k None) (GetObject (s3_bucket st) k None)); [by intros ? ? [-> _]| |exact Hx].
    intros status [_ [H4 H416]] [->| ->]; [by apply ap_get_absent, H4|].
    destruct (H416 eq_refl) as (r & first & last_ & x & [=] & _).
Qed.

Lemma range_sdk_refines st k s e m r m' :
  is_u64 s -> is_u64 e -> s < e ->
  sdk_exchange (GetObject (s3_bucket st) k (Some (¶"bytes=" ++ u64_to_string s ++ ¶"-" ++ u64_to_string (e - 1)))) m r m' ->
  refines (CGet k (Some (s, e))) m (match r with Ok out => get_output (Some (s, e)) out | Err x => Err (read_err x) end) m'.
Proof.
  intros Hs64 He64 Hse Hx. assert (is_u64 (e - 1)) as He1 by (unfold is_u64 in *; lia).
  pose proof (parse_range_text s (e - 1) Hs64 He1) as Hparse. destruct r as [out|x].
  - destruct Hx as (-> & body & etag & secs & He & Hz & Hs & first & last_ & Hr & Hlt & Hcr & Hb).
    rewrite Hparse in Hr. injection Hr as <- <-. unfold get_output. rewrite Hcr. unfold object_size_ok, is_u64 in *.
    match goal with |- context [after_last slash ?t] => assert (after_last slash t = u64_to_string (Z.of_nat (length body))) as -> end.
    { rewrite !app_assoc. change ¶"/" with [slash]. rewrite <- app_assoc. change ([slash] ++ ?x) with (slash :: x).
      apply after_last_app, digits_not, decimal_digits; [done|lia]. }
    rewrite parse_unsigned_decimal by lia. cbn [ok_or mbind result_bind]. rewrite (shown_meta _ _ body etag secs Hs).
    replace (e - 1 + 1) with e in Hb by lia. destruct Hb as [-> | ->]; cbn [ok_or mbind result_bind].
    { left. apply (ct_unknown_lost (CGet k (Some (s, e)))). }
    left. apply ct_applied. rewrite slice_length by lia. destruct (Z.le_gt_cases e (Z.of_nat (length body))) as [Hle|Hgt].
    + rewrite Z.min_l, Z.eqb_refl by lia. cbn [negb]. by apply (ap_get_slice _ _ _ _ (entry_at body etag secs)).
    + rewrite Z.min_r by lia. destruct (Z.eqb_spec (Z.of_nat (length body) - s) (e - s)); [lia|]. cbn [negb].
      apply (ap_get_range _ _ _ _ (entry_at body etag secs) He). by right.
  - apply (read_err_refines (CGet k (Some (s, e))) (GetObject (s3_bucket st) k (Some (¶"bytes=" ++ u64_to_string s ++ ¶"-" ++ u64_to_string (e - 1)))));
      [by intros ? ? [-> _]| |exact Hx].
    intros status [_ [H4 H416]] [->| ->]; [by apply ap_get_absent, H4|].
    destruct (H416 eq_refl) as (r & first & last_ & o & Er & Hr & Ho & Hlen).
    assert (parse_range r = Some (s, e - 1)) as Hr' by congruence.
    rewrite Hr' in Hr. injection Hr as <- <-.
    apply (ap_get_range _ _ _ _ o Ho). lia.
Qed.

(** ** The listing and the delete *)

Lemma max_keys_bounds (n : nat) :
  n <> 0%nat -> 1 <= Z.min (Z.max (as_i32 (Z.of_nat n)) 1) 1000 <= Z.of_nat n.
Proof.
  intros Hn. destruct (Z.lt_ge_cases (Z.of_nat n) (2 ^ 31)) as [Hlt|Hge]; [|lia].
  unfold as_i32. rewrite Z.mod_small by lia. lia.
Qed.

Lemma list_items m prefix after n pg objs :
  page_of m prefix after n pg -> Forall2 item_shows (p_items pg) objs -> omap (list_item after) objs = p_items pg.
Proof.
  intros (_ & Hl & _) Hs. revert Hl. generalize (p_items pg) as its, Hs. clear Hs. intros its Hs.
  induction Hs as [|l o its objs (Ek & secs & Hshow & Ht & Esz & Hsz) _ IH]; [done|]. intros [Hin Hl]%Forall_cons. cbn [omap list_omap].
  assert (list_item after o = Some l) as ->; [|by f_equal; apply IH].
  unfold list_item. rewrite Ek. cbn [mbind option_bind].
  assert (match after with Some a => bytes_leb (l_key l) a | None => false end = false) as ->.
  { destruct Hin as (e & _ & _ & _ & Hlt). destruct after as [a|]; [|done]. apply not_true_iff_false. rewrite bytes_leb_le. by apply bytes_lt_not_le. }
  destruct Hshow as (-> & Hsecs & ns & -> & Hns). rewrite Esz. cbn [fmap option_fmap option_map default from_option].
  rewrite (quantize_secs ns secs) by done. rewrite as_u64_size by done. destruct l as [k [v t z]]. cbn in *. by subst.
Qed.

Lemma list_sdk_refines st p a (n : nat) m r m' :
  n <> 0%nat ->
  sdk_exchange (ListObjectsV2 (s3_bucket st) p (Z.min (Z.max (as_i32 (Z.of_nat n)) 1) 1000) a) m r m' ->
  refines (CList p a n) m (match r with Ok out => Ok (list_output a out) | Err e => Err (classify_send_err e) end) m'.
Proof.
  intros Hn Hx. pose proof (max_keys_bounds n Hn) as Hmax. set (max := Z.min _ _) in *. destruct r as [out|e].
  - destruct Hx as (-> & _ & pg & Hpg & Hs & Htr). left. apply ct_applied.
    assert (list_output a out = pg) as ->.
    { unfold list_output. rewrite (list_items _ _ _ _ _ _ Hpg Hs), Htr. destruct Hpg as (_ & _ & _ & _ & Hlast).
      destruct pg as [its next]. cbn in *. f_equal. destruct next as [x|]; [|done]. specialize (Hlast x eq_refl).
      cbn. rewrite <- Hlast. symmetry. apply fmap_last. }
    apply ap_list. eapply page_listed; [exact Hpg|lia|lia].
  - assert (perhaps (ListObjectsV2 (s3_bucket st) p max a) m m' -> m' = m) as Hp.
    { intros [|[out Ho]]; [done|]. by destruct Ho. }
    destruct e as [status| | |[] []|]; cbn in Hx |- *; try (rewrite (Hp Hx)); try (rewrite (Hp (proj1 Hx)));
      try (left; (apply (ct_unknown_lost (CList p a n)) || apply (ct_transport (CList p a n))));
      right; (split; [by eexists|]); [|done].
    destruct Hx as [[_ ->]|[_ Hx]]; [done|by apply Hp].
Qed.

Lemma delete_sdk_refines st k m r m' :
  sdk_exchange (DeleteObject (s3_bucket st) k) m r m' ->
  refines (CDelete k) m
    (match r with
     | Ok _ => Ok ()
     | Err e => match status_of e with
                | Some status => if status =? 404 then Ok () else Err (read_err e)
                | None => Err (read_err e)
                end
     end) m'.
Proof.
  intros Hx. assert (forall amb, perhaps (DeleteObject (s3_bucket st) k) m m' -> refines (CDelete k) m (Err (OutcomeUnknown amb)) m') as Hp.
  { intros amb Hp. left. apply (perhaps_effect (CDelete k) (DeleteObject (s3_bucket st) k) m m' amb); [|done].
    intros out Ho. exists (Ok tt). change (m' = delete k m) in Ho. rewrite Ho. apply ap_delete. }
  destruct r as [out|e]; [change (m' = delete k m) in Hx; rewrite Hx; left; apply ct_applied, ap_delete|].
  destruct e as [status| | |[] []|]; cbn in Hx |- *; try (by apply Hp); try (by apply Hp, Hx).
  - unfold read_err. cbn [status_of]. destruct (Z.eqb_spec status 404) as [->|Hne].
    { destruct Hx as [[[_ [Hn _]] ->]|[]]; [|lia]. left. apply ct_applied.
      assert (delete k m = m) as Em by (apply delete_id; auto). rewrite <- Em at 2. apply ap_delete. }
    destruct Hx as [[[Hs [_ H416]] ->]|[H5 Hx]].
    + destruct (Z.eqb_spec status 416); [done|]. rewrite (proj2 (Z.leb_gt 500 status)) by lia. violated.
    + destruct (Z.eqb_spec status 416); [lia|]. rewrite (proj2 (Z.leb_le 500 status)) by lia. by apply Hp.
  - destruct Hx as [_ Hx]. rewrite Hx by done. left. apply (ct_transport (CDelete k)).
  - violated.
Qed.
End Refines.

(** Ranges are 64-bit. *)
Definition sdk_call_ok (c : call) : Prop :=
  match c with CGet _ (Some (s, e)) => is_u64 s /\ is_u64 e | _ => True end.

Lemma sdk_refines_aux `{Sha256} {T} `{SdkClient T} (st : S3Store) `{!SdkService T (s3_bucket st)} c t :
  sdk_call_ok c -> sv_inv t ->
  sv_inv (sdk_store st c t).2 /\ refines c (sv_view t) (sdk_store st c t).1 (sv_view (sdk_store st c t).2).
Proof.
  intros Hc Ht. assert (forall q, sdk_bucket q = s3_bucket st -> sv_inv (sdk_send q t).2 /\
    sdk_exchange q (sv_view t) (sdk_send q t).1 (sv_view (sdk_send q t).2)) as Hsend by (intros; by apply sv_send).
  assert (forall k b d v, sv_inv (sdk_put_conditional st k b d v t).2 /\
    refines (put_call k b d v) (sv_view t) (put_answered k b d v (sdk_put_conditional st k b d v t).1)
      (sv_view (sdk_put_conditional st k b d v t).2)) as Hput.
  { intros k b d v. unfold sdk_put_conditional. destruct (bytes_eqb (sha256 b) d) eqn:Ed; cbn [negb].
    - apply bool_decide_eq_true in Ed. destruct (Hsend (put_request st k b d v) eq_refl) as [Hi Hx].
      pose proof (put_sdk_refines st k b d v _ _ _ Ed Hx) as Hr. unfold put_request in *.
      destruct (sdk_send _ t) as [[out|e] t']; by split.
    - apply bool_decide_eq_false in Ed. split; [done|]. left. apply ct_applied.
      destruct v; [by apply ap_cas_mismatch|by apply ap_put_mismatch]. }
  destruct c as [k b d|k b d v|k range|k|p a n|k]; cbn [sdk_store].
  - exact (Hput k b d None).
  - exact (Hput k b d (Some v)).
  - unfold sdk_get. destruct range as [[s e]|].
    + destruct Hc as [Hs He]. destruct (Z.leb_spec e s) as [Hle|Hlt].
      * split; [done|]. left. apply ct_applied. destruct (sv_view t !! k) as [x|] eqn:Hx;
          [apply (ap_get_range _ _ _ _ _ Hx); lia|by apply ap_get_absent].
      * destruct (Hsend (GetObject (s3_bucket st) k (Some (¶"bytes=" ++ u64_to_string s ++ ¶"-" ++ u64_to_string (e - 1)))) eq_refl) as [Hi Hx].
        pose proof (range_sdk_refines st k s e _ _ _ Hs He Hlt Hx) as Hr. by destruct (sdk_send _ t) as [[out|x] t'].
    + destruct (Hsend (GetObject (s3_bucket st) k None) eq_refl) as [Hi Hx].
      pose proof (get_sdk_refines st k _ _ _ Hx) as Hr. by destruct (sdk_send _ t) as [[out|x] t'].
  - unfold sdk_head. destruct (Hsend (HeadObject (s3_bucket st) k) eq_refl) as [Hi Hx].
    pose proof (head_sdk_refines st k _ _ _ Hx) as Hr. by destruct (sdk_send _ t) as [[out|x] t'].
  - unfold sdk_list. destruct n as [|n].
    + split; [done|]. left. apply ct_applied, ap_list. split; [constructor|]. split; [constructor|].
      split; [cbn; lia|]. split; [|done]. intros k e _ _. right. split; [by right|constructor].
    + destruct (Hsend (ListObjectsV2 (s3_bucket st) p (Z.min (Z.max (as_i32 (Z.of_nat (S n))) 1) 1000) a) eq_refl) as [Hi Hx].
      pose proof (list_sdk_refines st p a (S n) _ _ _ ltac:(done) Hx) as Hr. by destruct (sdk_send _ t) as [[out|x] t'].
  - unfold sdk_delete. destruct (Hsend (DeleteObject (s3_bucket st) k) eq_refl) as [Hi Hx].
    pose proof (delete_sdk_refines st k _ _ _ Hx) as Hr. by destruct (sdk_send _ t) as [[out|x] t'].
Qed.

(** C33: the SDK client keeps the store contract against every service that
    behaves as S3 documents, whatever requests and answers are lost: each of
    its six operations either answers as the contract allows, with the bucket
    changed accordingly, or reports a profile violation and has changed
    nothing; times with a fraction of a second show as the whole second on
    every surface. *)
Theorem sdk_refines_contract `{Sha256} {T : Type} `{SdkClient T} (st : S3Store) `{!SdkService T (s3_bucket st)}
    (c : call) (t : T) (Hc : sdk_call_ok c) (Ht : sv_inv t) :
  contract c (sv_view t) (sdk_store st c t).1 (sv_view (sdk_store st c t).2) \/
  (exists what, answer_err c (sdk_store st c t).1 = Some (ProfileViolation what)) /\
  sv_view (sdk_store st c t).2 = sv_view t.
Proof. exact (proj2 (sdk_refines_aux st c t Hc Ht)). Qed.

(* ------------------------------------------------------------------ *)
(** * An executable service *)

Section Executable.
Context `{Sha256}.

(** Listings and reads show the time with a fraction, writes and probes
    without. *)
Definition fraction : Z := 123456789.

Definition sdk_object (l : Listing) : SdkObject :=
  {| ob_key := Some (l_key l); ob_e_tag := Some (m_version (l_meta l));
     ob_last_modified := Some (m_store_time_ns (l_meta l) + fraction); ob_size := Some (m_size (l_meta l)) |}.

Definition sdk_write (k body : bytes) (b : Bucket) : option bytes * Bucket :=
  (Some (clean_etag (header (write_object k body b).1 ¶"ETag")), (write_object k body b).2).

Definition sdk_serve (c : SdkCall) (b : Bucket) : Result SdkError (sdk_out c) * Bucket :=
  match c return Result SdkError (sdk_out c) * Bucket with
  | PutObject _ k body sum if_match if_none_match =>
      if negb (bytes_eqb sum (base64_std (sha256 body))) || (i64_max <? Z.of_nat (length body))
      then (Err (ServiceError 400), b)
      else match if_match, if_none_match, bk_objects b !! k with
           | None, Some star, None =>
               if decide (star = ¶"*") then let '(e_tag, b) := sdk_write k body b in (Ok e_tag, b)
               else (Err (ServiceError 400), b)
           | None, Some _, Some _ => (Err (ServiceError 412), b)
           | Some _, None, None => (Err (ServiceError 404), b)
           | Some v, None, Some x =>
               if decide (etag_of x = v) then let '(e_tag, b) := sdk_write k body b in (Ok e_tag, b)
               else (Err (ServiceError 412), b)
           | _, _, _ => (Err (ServiceError 400), b)
           end
  | GetObject _ k range =>
      match bk_objects b !! k with
      | None => (Err (ServiceError 404), b)
      | Some x =>
          let len := Z.of_nat (length (s_body x)) in
          let out cr n body :=
            {| go_content_range := cr; go_content_length := Some n; go_e_tag := Some (etag_of x);
               go_last_modified := Some (s_store_time_ns x + fraction); go_body := Some body |} in
          match range with
          | None => (Ok (out None len (s_body x)), b)
          | Some r =>
              match parse_range r with
              | None => (Err (ServiceError 400), b)
              | Some (first, last_) =>
                  if len <=? first then (Err (ServiceError 416), b)
                  else let part := slice (s_body x) first (Z.min (last_ + 1) len) in
                       (Ok (out (Some (¶"bytes " ++ u64_to_string first ++ ¶"-" ++
                                       u64_to_string (Z.min last_ (len - 1)) ++ ¶"/" ++ u64_to_string len))
                             (Z.of_nat (length part)) part), b)
              end
          end
      end
  | HeadObject _ k =>
      match bk_objects b !! k with
      | None => (Err (ServiceError 404), b)
      | Some x => (Ok {| ho_content_length := length_of (s_body x); ho_e_tag := Some (etag_of x);
                         ho_last_modified := Some (s_store_time_ns x) |}, b)
      end
  | ListObjectsV2 _ prefix max after =>
      if max <? 1 then (Err (ServiceError 400), b)
      else match list_page (bucket_memory b) prefix after (Z.to_nat max) with
        | Err _ => (Err (ServiceError 500), b)
        | Ok pg => (Ok {| lo_contents := map sdk_object (p_items pg);
                          lo_is_truncated := Some (bool_decide (is_Some (p_next_after pg))) |}, b)
        end
  | DeleteObject _ k =>
      (Ok tt, {| bk_objects := delete k (bk_objects b); bk_version := bk_version b; bk_seconds := bk_seconds b;
                 bk_stamps := bk_stamps b |})
  end.

(** Requests and answers are lost as scripted. *)
Definition bucket_sdk : SdkClient Network := fun c n =>
  let '(r, b) := sdk_serve c (nw_bucket n) in
  match List.hd NoLoss (nw_losses n) with
  | NoLoss => (r, with_bucket b n)
  | LoseRequest => (Err (DispatchFailure false true), with_bucket (nw_bucket n) n)
  | LoseResponse => (Err TimeoutError, with_bucket b n)
  end.

(** Its objects fit the SDK's signed lengths. *)
Definition sized (x : Stored) : Prop := object_size_ok (s_body x).
Definition sdk_bucket_ok (b : Bucket) : Prop := bucket_ok b /\ map_Forall (fun _ x => sized x) (bk_objects b).

Lemma sdk_lookup b k x :
  sdk_bucket_ok b -> bk_objects b !! k = Some x ->
  bucket_view b !! k = Some (entry_at (s_body x) (etag_of x) (secs_of x)) /\ object_size_ok (s_body x) /\
  secs_ok (secs_of x) /\ s_store_time_ns x = secs_of x * SECOND_NS.
Proof.
  intros [Hb Hz] Hk. destruct (bucket_lookup b k x Hb Hk) as [Hx Hv]. destruct (secs_of_ok x Hx).
  split; [exact Hv|]. split; [exact (Hz k x Hk)|]. by split.
Qed.

Lemma fraction_secs secs : (secs * SECOND_NS + fraction) / SECOND_NS = secs.
Proof. rewrite Z.add_comm, Z.div_add by done. change (fraction / SECOND_NS) with 0. lia. Qed.

Lemma sdk_written b k body :
  sdk_bucket_ok b -> object_size_ok body ->
  exists etag secs, (sdk_write k body b).1 = Some etag /\ secs_ok secs /\
    bucket_view (sdk_write k body b).2 = <[k := entry_at body etag secs]> (bucket_view b) /\
    sdk_bucket_ok (sdk_write k body b).2.
Proof.
  intros [Hb Hz] Hbody.
  destruct (bucket_written b k body Hb) as (v & secs & Hv & Hsecs & Hh & _ & Hview & Hok).
  { unfold size_ok, object_size_ok in *. lia. }
  exists v, secs. unfold sdk_write, clean_etag. cbn [fst snd]. rewrite Hh. cbn [default from_option id].
  rewrite trim_quoted by done. split; [done|]. split; [done|]. split; [exact Hview|]. split; [exact Hok|].
  cbn. by apply map_Forall_insert_2.
Qed.

Lemma sdk_listed b prefix after n pg :
  sdk_bucket_ok b -> page_of (bucket_view b) prefix after n pg -> Forall2 item_shows (p_items pg) (map sdk_object (p_items pg)).
Proof.
  intros Hb (_ & Hl & _). induction Hl as [|l its (e & He & Hm & _) _ IH]; [constructor|]. constructor; [|done].
  unfold bucket_view in He. rewrite view_lookup in He. apply fmap_Some in He as (x & Hx & ->).
  destruct (sdk_lookup b _ x Hb Hx) as (_ & Hz & Hs & Ht). split; [done|]. exists (secs_of x).
  destruct l as [k mt]. cbn in Hm. subst mt. cbn. split; [|split; [done|split; [done|unfold object_size_ok in Hz; lia]]].
  split; [done|]. split; [done|]. eexists. split; [reflexivity|]. rewrite Ht. apply fraction_secs.
Qed.

Lemma sdk_serve_answers c b :
  sdk_bucket_ok b ->
  sdk_bucket_ok (sdk_serve c b).2 /\ sdk_exchange c (bucket_view b) (sdk_serve c b).1 (bucket_view (sdk_serve c b).2).
Proof.
  intros Hb. assert (forall c m status, 300 <= status < 500 -> status <> 404 -> status <> 412 -> status <> 416 ->
    sdk_exchange c m (Err (ServiceError status)) m) as Hno.
  { intros c0 m0 status Hs H1 H2 H3. left. split; [|done]. split; [done|]. destruct c0; try done. }
  destruct c as [bk k body sum ifm ifn|bk k range|bk k|bk prefix max after|bk k]; cbn [sdk_serve].
  - destruct (bytes_eqb sum _) eqn:Esum; cbn [negb orb]; [|split; [done|by apply Hno]].
    apply bool_decide_eq_true in Esum.
    destruct (Z.ltb_spec i64_max (Z.of_nat (length body))) as [|Hz]; [split; [done|by apply Hno]|].
    destruct (sdk_written b k body Hb Hz) as (etag & secs & Ee & Hs & Hview & Hok).
    destruct (sdk_write k body b) as [e' b'] eqn:Ew; cbn [fst snd] in *; subst e'.
    destruct ifm as [v|], ifn as [star|]; try (split; [done|by apply Hno]);
      destruct (bk_objects b !! k) as [x|] eqn:Hk; try case_decide as Hd; cbn [fst snd]; (split; [done|]).
    all: try (by apply Hno).
    + destruct (sdk_lookup b k x Hb Hk) as (Hv & _). split; [exact Esum|]. split; [|by exists etag, secs].
      eexists. split; [exact Hv|]. exact Hd.
    + destruct (sdk_lookup b k x Hb Hk) as (Hv & _). left. split; [|done]. split; [done|]. intros _. by eexists.
    + left. split; [|done]. by split.
    + destruct (sdk_lookup b k x Hb Hk) as (Hv & _). left. split; [|done]. split; [done|]. intros _. by eexists.
    + split; [exact Esum|]. split; [|by exists etag, secs]. split; [exact Hd|]. by apply bucket_absent.
  - destruct (bk_objects b !! k) as [x|] eqn:Hk.
    2:{ split; [done|]. left. split; [|done]. split; [done|]. split; [|done]. intros _. by apply bucket_absent. }
    destruct (sdk_lookup b k x Hb Hk) as (Hv & Hz & Hs & Ht).
    assert (shown_as (Some (etag_of x)) (Some (s_store_time_ns x + fraction)) (etag_of x) (secs_of x)) as Hshow.
    { split; [done|]. split; [done|]. eexists. split; [reflexivity|]. rewrite Ht. apply fraction_secs. }
    destruct range as [r|].
    + destruct (parse_range r) as [[first last_]|] eqn:Hr; [|split; [done|by apply Hno]].
      destruct (Z.leb_spec (Z.of_nat (length (s_body x))) first).
      * split; [done|]. left. split; [|done]. split; [done|]. split; [done|]. intros _. exists r, first, last_. by eexists.
      * split; [done|]. split; [done|]. exists (s_body x), (etag_of x), (secs_of x). split; [exact Hv|]. split; [exact Hz|].
        split; [exact Hshow|]. exists first, last_. split; [done|]. split; [done|]. split; [done|]. by right.
    + split; [done|]. split; [done|]. exists (s_body x), (etag_of x), (secs_of x). split; [exact Hv|]. split; [exact Hz|].
      split; [exact Hshow|]. split; [done|]. by right.
  - destruct (bk_objects b !! k) as [x|] eqn:Hk.
    2:{ split; [done|]. left. split; [|done]. split; [done|]. split; [|done]. intros _. by apply bucket_absent. }
    destruct (sdk_lookup b k x Hb Hk) as (Hv & Hz & Hs & Ht).
    split; [done|]. split; [done|]. exists (s_body x), (etag_of x), (secs_of x). split; [exact Hv|]. split; [exact Hz|].
    split; [|done]. split; [done|]. split; [done|]. eexists. split; [reflexivity|]. rewrite Ht. by apply Z.div_mul.
  - destruct (Z.ltb_spec max 1); [split; [done|by apply Hno]|].
    destruct (list_page_contract (bucket_memory b) prefix after (Z.to_nat max)) as (pg & -> & Hpg).
    split; [done|]. split; [done|]. split; [done|]. exists pg. split; [exact Hpg|]. split; [|done]. by eapply sdk_listed.
  - destruct Hb as [(Hv & Hs & Ho) Hz]. split.
    + split; [split; [done|split; [done|by apply map_Forall_delete]]|by apply map_Forall_delete].
    + cbn. unfold bucket_view, view. cbn [bucket_memory objects bk_objects]. by rewrite fmap_delete.
Qed.

#[local] Existing Instance bucket_sdk.
Definition bucket_sdk_service (bucket : bytes) : SdkService Network bucket.
Proof.
  refine {| sv_view := fun n => bucket_view (nw_bucket n); sv_inv := fun n => sdk_bucket_ok (nw_bucket n) |}.
  intros c n Hn _. unfold sdk_send, bucket_sdk. destruct (sdk_serve_answers c (nw_bucket n) Hn) as [Hb Hx].
  destruct (sdk_serve c (nw_bucket n)) as [r b]. cbn [fst snd] in *.
  assert (perhaps c (bucket_view (nw_bucket n)) (bucket_view b)) as Hp.
  { destruct r as [out|[status| | |? ?|]]; cbn in Hx; [right; by exists out| |exact Hx|exact Hx|apply Hx|by left].
    destruct Hx as [[_ Hx]|[_ Hx]]; [by left|exact Hx]. }
  destruct (List.hd NoLoss (nw_losses n)); cbn [fst snd with_bucket nw_bucket].
  - by split.
  - split; [done|]. split; [by left|done].
  - by split.
Defined.
End Executable.

Section Sample.
#[local] Existing Instance toy_digest.
#[local] Existing Instance bucket_sdk.
Definition sample_s3 : S3Store := {| s3_bucket := ¶"stowq" |}.
#[local] Instance sample_sdk_service : SdkService Network (s3_bucket sample_s3) := bucket_sdk_service (s3_bucket sample_s3).

(** The write whose answer is lost, then what is there. *)
Definition sdk_network : Network := (sdk_store sample_s3 sample_put (empty_network [LoseResponse])).2.

Lemma sdk_refines_contract_witness :
  (sdk_store sample_s3 sample_put (empty_network [LoseResponse])).1 = Err (OutcomeUnknown Timeout) /\
  contract sample_put (bucket_view (nw_bucket (empty_network [LoseResponse]))) (Err (OutcomeUnknown Timeout))
    (bucket_view (nw_bucket sdk_network)) /\
  (sdk_store sample_s3 (CList ¶"q/" None 64) sdk_network).1 =
    Ok {| p_items := [{| l_key := sample_key; l_meta := sample_meta |}]; p_next_after := None |} /\
  (sdk_store sample_s3 (CGet sample_key (Some (3, 7))) sdk_network).1 =
    Ok {| o_meta := sample_meta; o_body := ¶"load" |}.
Proof.
  assert ((sdk_store sample_s3 sample_put (empty_network [LoseResponse])).1 = Err (OutcomeUnknown Timeout)) as E
    by (vm_compute; reflexivity).
  split; [exact E|]. split; [|split; vm_compute; reflexivity].
  assert (sv_inv (SdkService := sample_sdk_service) (empty_network [LoseResponse])) as Hok
    by (split; [apply empty_network_ok|apply map_Forall_empty]).
  pose proof (sdk_refines_contract sample_s3 sample_put (empty_network [LoseResponse]) I Hok) as Hr.
  rewrite E in Hr. destruct Hr as [Hc|[[what Hw] _]]; [exact Hc|done].
Defined.
End Sample.
