(* ===== verification/Calm.v ===== *)
(** Calm runs: one client, a store that answers every call faithfully, nobody
    in between.

    [exec] and [wp] ([Rely]) say what holds whatever the store and the others
    do, when an operation succeeds.  Here an operation must succeed: [does n x m
    Q] says that from the key space [m], with at least [n] of budget, [x]
    consumes at most [n], neither panics nor outruns its fuel, only adds
    objects, and ends with a result and a key space that satisfy [Q].  A
    verified program's [wp] postcondition holds of its calm runs too
    ([wp_calm]), and a run of a memory store is calm ([calm_run]). *)

From S2P Require Import Prelude Sha256 StowqMath Keys Records Direct Store Memory Effects Rely Queue Budget Protocol Runs.

(* ------------------------------------------------------------------ *)
(** * Semantics *)

Section Calm.
Context `{Sha256}.

Fixpoint calm {A} (p : prog A) (m : Space) (Q : A -> Space -> Prop) : Prop :=
  match p with
  | Ret a => Q a m
  | Vis (EStore c) k => forall x m', applied c m x m' -> calm (k x) m' Q
  | Vis EToken k => forall t, is_id t -> calm (k t) m Q
  | Vis EElapsed k => forall t, is_u64 t -> calm (k t) m Q
  end.

Lemma calm_mono {A} (p : prog A) m (Q Q' : A -> Space -> Prop) :
  (forall a m', Q a m' -> Q' a m') -> calm p m Q -> calm p m Q'.
Proof. intros HQ. revert m. induction p as [a|[c| |] k IH]; cbn [calm]; intros m Hp; eauto. Qed.

Lemma calm_bind {A B} (p : prog A) (f : A -> prog B) m Q :
  calm p m (fun a m' => calm (f a) m' Q) -> calm (pbind p f) m Q.
Proof. revert m. induction p as [a|[c| |] k IH]; cbn [calm pbind]; intros m Hp; eauto. Qed.

Lemma calm_and {A} (p : prog A) m (Q R : A -> Space -> Prop) :
  calm p m Q -> calm p m R -> calm p m (fun a m' => Q a m' /\ R a m').
Proof. revert m. induction p as [a|[c| |] k IH]; cbn [calm]; intros m Hq Hr; auto. Qed.

(** Calm runs are among those a [wp] covers. *)
Lemma wp_calm (rely : Space -> Space -> Prop) `{!Reflexive rely} {A} (p : prog A) m Q :
  wp rely p m Q -> calm p m Q.
Proof.
  revert m. induction p as [a|[c| |] k IH]; cbn [wp calm]; intros m Hp.
  - apply Hp. reflexivity.
  - intros x m' Hc. apply IH. by apply (Hp m (reflexivity m) x m' (ct_applied _ _ _ _ Hc)).
  - intros t Ht. by apply IH, Hp.
  - intros t Ht. by apply IH, Hp.
Qed.
End Calm.

(** The runs of a memory store with room for its calls are calm. *)
Lemma calm_run `{Sha256} {A} (p : prog A) (w : World MemoryStore) Q :
  world_ok (run_calls p w) w -> calm p (store_view (w_store w)) Q ->
  Q (run p w).1 (store_view (w_store (run p w).2)).
Proof.
  revert w. induction p as [a|e k IH]; intros w Hw Hp; [exact Hp|].
  cbn [run run_calls] in *. destruct (run_eff e w) as [x w'] eqn:E.
  pose proof (run_eff_ok e w _ x w' E Hw) as Hw'. apply IH; [exact Hw'|].
  destruct Hw as (Hi & Ht & Hc). destruct e as [c| |]; cbn in E, Hp.
  - destruct (memory_applied _ c (w_store w) (proj1 Hi) (proj2 Hi)) as [Hx _].
    destruct (store_step c (w_store w)) as [y s]. injection E as <- <-. by apply Hp.
  - injection E as <- <-. by apply Hp.
  - injection E as <- <-. by apply Hp.
Qed.

(* ------------------------------------------------------------------ *)
(** * Operations that must succeed *)

Section Does.
Context `{Sha256} (q : Queue).
#[local] Abbreviation root := (q_root q).

(** Jobs in the handle's memo are terminal. *)
Definition memo_sound (s : HState) (m : Space) : Prop :=
  forall shard j x, h_memo s !! (shard, j) = Some x ->
    is_Some (m !! absolute q (KReceipt shard j)) \/ is_Some (m !! absolute q (KDead shard j)).

Lemma memo_sound_mono s m m' : m ⊆ m' -> memo_sound s m -> memo_sound s m'.
Proof.
  intros Hm Hs shard j x Hx. destruct (Hs shard j x Hx) as [[e He]|[e He]]; [left|right];
    exists e; by eapply lookup_weaken.
Qed.

(** [n] is enough budget for [x] to end as [Q] says. *)
Definition does {A} (n : nat) (x : M A) (m : Space) (Q : Result Error A -> Space -> Prop) : Prop :=
  forall s, memo_sound s m -> (n <= max_ops s)%nat ->
  calm (x s) m (fun rs m' =>
    m ⊆ m' /\ memo_sound rs.2 m' /\ (max_ops s <= max_ops rs.2 + n)%nat /\
    match rs.1 with Ok a => Q (Ok a) m' | Err (Fails e) => Q (Err e) m' | Err _ => False end).

(** The result is a value. *)
Definition succeeds {A} (P : A -> Space -> Prop) (r : Result Error A) (m : Space) : Prop :=
  match r with Ok a => P a m | Err _ => False end.
Definition ends {A} (n : nat) (x : M A) (m : Space) (P : A -> Space -> Prop) : Prop :=
  does n x m (succeeds P).

Lemma does_mono {A} n n' (x : M A) m (Q Q' : Result Error A -> Space -> Prop) :
  (n <= n')%nat -> (forall r m', m ⊆ m' -> Q r m' -> Q' r m') -> does n x m Q -> does n' x m Q'.
Proof.
  intros Hn HQ Hx s Hs Hb. eapply calm_mono; [|apply Hx; [done|lia]].
  intros [r s'] m' (Hm & Hs' & Hc & Hr). cbn in *. split; [done|]. split; [done|]. split; [lia|].
  destruct r as [a|[e| |]]; auto.
Qed.
Lemma does_cost {A} n n' (x : M A) m Q : (n <= n')%nat -> does n x m Q -> does n' x m Q.
Proof. intros Hn. apply does_mono; auto. Qed.
Lemma ends_mono {A} n (x : M A) m (P P' : A -> Space -> Prop) :
  (forall a m', m ⊆ m' -> P a m' -> P' a m') -> ends n x m P -> ends n x m P'.
Proof. intros HP. apply does_mono; [lia|]. intros [a|e] m' Hm; cbn; auto. Qed.

Lemma does_bind {A B} n1 n2 (x : M A) (f : A -> M B) m Q R :
  does n1 x m Q ->
  (forall a m1, m ⊆ m1 -> Q (Ok a) m1 -> does n2 (f a) m1 R) ->
  (forall e m1, m ⊆ m1 -> Q (Err e) m1 -> R (Err e) m1) -> does (n1 + n2) (x ≫= f) m R.
Proof.
  intros Hx Hf He s Hs Hb. change ((x ≫= f) s) with (mbind_ x f s). unfold mbind_. apply calm_bind.
  eapply calm_mono; [|apply Hx; [done|lia]]. intros [r s1] m1 (Hm & Hs1 & Hc & Hr). cbn in *.
  destruct r as [a|[e| |]]; cbn; try done; [|split; [done|]; split; [done|]; split; [lia|auto]].
  eapply calm_mono; [|apply (Hf a m1 Hm Hr); [done|lia]].
  intros [r s2] m2 (Hm2 & Hs2 & Hc2 & Hr2). cbn in *. split; [by etrans|]. split; [done|]. split; [lia|done].
Qed.
Lemma ends_bind {A B} n1 n2 (x : M A) (f : A -> M B) m P R :
  ends n1 x m P -> (forall a m1, m ⊆ m1 -> P a m1 -> does n2 (f a) m1 R) -> does (n1 + n2) (x ≫= f) m R.
Proof. intros Hx Hf. eapply does_bind; [exact Hx|exact Hf|]. by intros e m1 _ []. Qed.

Lemma does_ret {A} (a : A) m (Q : Result Error A -> Space -> Prop) : Q (Ok a) m -> does 0 (mret a) m Q.
Proof. intros HQ s Hs _. cbn. split; [done|]. split; [done|]. split; [lia|done]. Qed.
Lemma does_fail {A} e m (Q : Result Error A -> Space -> Prop) : Q (Err e) m -> does 0 (fail e : M A) m Q.
Proof. intros HQ s Hs _. cbn. split; [done|]. split; [done|]. split; [lia|done]. Qed.
Lemma does_try {A} n (x : M A) m Q : does n x m Q -> ends n (try_ x) m Q.
Proof.
  intros Hx s Hs Hb. unfold try_. apply calm_bind. eapply calm_mono; [|by apply Hx].
  intros [r s'] m' (Hm & Hs' & Hc & Hr). cbn in *. by destruct r as [a|[e| |]].
Qed.

(** ** Effects *)

Lemma does_spend m : ends 1 spend m (fun _ m' => m' = m).
Proof.
  intros s Hs Hb. unfold spend. destruct (max_ops s) as [|n] eqn:En; [lia|]. cbn.
  split; [done|]. split; [exact Hs|]. split; [lia|done].
Qed.
Lemma does_token m : ends 0 fresh_token m (fun t m' => m' = m /\ is_id t).
Proof. intros s Hs Hb t Ht. cbn. split; [done|]. split; [done|]. split; [lia|done]. Qed.
Lemma does_elapsed m : ends 0 elapsed_ns m (fun t m' => m' = m /\ is_u64 t).
Proof. intros s Hs Hb t Ht. cbn. split; [done|]. split; [done|]. split; [lia|done]. Qed.
Lemma does_get_state m : ends 0 get_state m (fun s m' => m' = m /\ memo_sound s m).
Proof. intros s Hs Hb. cbn. split; [done|]. split; [done|]. split; [lia|done]. Qed.
Lemma does_set_floor f m : ends 0 (set_floor f) m (fun _ m' => m' = m).
Proof. intros s Hs Hb. cbn. split; [done|]. split; [exact Hs|]. split; [lia|done]. Qed.
Lemma does_set_memo f m :
  memo_sound {| max_ops := 0; h_floor := {| floor_ns := 0; established_at_ns := 0 |}; h_memo := f |} m ->
  ends 0 (set_memo f) m (fun _ m' => m' = m).
Proof. intros Hf s Hs Hb. cbn. split; [done|]. split; [exact Hf|]. split; [lia|done]. Qed.

Lemma does_call c m (P : answer c -> Space -> Prop) :
  (forall x m', applied c m x m' -> m ⊆ m' /\ P x m') -> ends 0 (do_call c) m P.
Proof.
  intros Hc s Hs Hb x m' Hx. destruct (Hc x m' Hx) as [Hm HP]. cbn.
  split; [done|]. split; [by eapply memo_sound_mono|]. split; [lia|done].
Qed.

(** What a read, a probe and a conditional creation answer. *)
Definition get_answer (m : Space) (k : bytes) : StoreResult Object :=
  match m !! k with Some e => Ok {| o_meta := meta_of e; o_body := e_body e |} | None => Err NotFound end.
Definition head_answer (m : Space) (k : bytes) : StoreResult Meta :=
  match m !! k with Some e => Ok (meta_of e) | None => Err NotFound end.
Definition created (k body : bytes) (m m' : Space) : Prop :=
  exists v t, is_u64 t /\ m' = <[k := {| e_body := body; e_version := v; e_time := t |}]> m.
Definition put_answer (k body : bytes) (r : StoreResult PutOutcome) (m m' : Space) : Prop :=
  match m !! k with
  | Some _ => m' = m /\ r = Ok Rejected
  | None => created k body m m' /\ exists v, r = Ok (Committed v)
  end.

Definition calm_post (c : call) (m : Space) : answer c -> Space -> Prop :=
  match c return answer c -> Space -> Prop with
  | CPut k b d => fun r m' => d = sha256 b -> put_answer k b r m m'
  | CGet k range => fun r m' => range = None -> m' = m /\ r = get_answer m k
  | CHead k => fun r m' => m' = m /\ r = head_answer m k
  | CList p a n => fun r m' => m' = m /\ exists page, r = Ok page /\ page_of m p a n page
  | _ => fun _ _ => True
  end.

Lemma applied_calm c m r m' : applied c m r m' -> calm_post c m r m'.
Proof.
  unfold calm_post, put_answer, get_answer, head_answer, created.
  destruct 1; try done; intros; subst; try done;
    repeat match goal with E : _ !! _ = _ |- _ => rewrite E; clear E end; eauto 8.
Qed.

Lemma created_mono k b m m' : m !! k = None -> created k b m m' -> m ⊆ m'.
Proof. intros Hn (v & t & _ & ->). by apply insert_subseteq. Qed.
Lemma put_answer_mono k b r m m' : put_answer k b r m m' -> m ⊆ m'.
Proof. unfold put_answer. destruct (m !! k) eqn:E; [by intros [-> _]|]. intros [Hc _]. by eapply created_mono. Qed.

Lemma does_get k m : ends 0 (do_get k) m (fun r m' => m' = m /\ r = get_answer m k).
Proof. apply does_call. intros x m' [-> ->]%applied_calm; done. Qed.
Lemma does_head k m : ends 0 (do_head k) m (fun r m' => m' = m /\ r = head_answer m k).
Proof. apply does_call. intros x m' [-> ->]%applied_calm; done. Qed.
Lemma does_list p a n m :
  ends 0 (do_list p a n) m (fun r m' => m' = m /\ exists page, r = Ok page /\ page_of m p a n page).
Proof. apply does_call. intros x m' [-> Hx]%applied_calm. done. Qed.
Lemma does_put k b m : ends 0 (do_put k b (sha256 b)) m (fun r m' => put_answer k b r m m').
Proof.
  apply does_call. intros x m' Hx%applied_calm. specialize (Hx eq_refl). split; [|done].
  by eapply put_answer_mono.
Qed.

(** ** Pure steps *)

Lemma does_store_ok {A} (r : StoreResult A) (a : A) m : r = Ok a -> ends 0 (store_ok r) m (fun b m' => m' = m /\ b = a).
Proof. intros ->. by apply does_ret. Qed.
Lemma does_record_ok {A} (r : Result RecordError A) (a : A) m :
  r = Ok a -> ends 0 (record_ok r) m (fun b m' => m' = m /\ b = a).
Proof. intros ->. by apply does_ret. Qed.

(** ** Reading and writing records *)

Lemma does_read_retrying k m :
  does 1 (read_retrying k) m (fun r m' => m' = m /\
    r = match m !! k with Some e => Ok {| o_meta := meta_of e; o_body := e_body e |} | None => Err (StoreE NotFound) end).
Proof.
  unfold read_retrying, RETRY_TRANSPORT_MAX. cbn [read_retrying_loop]. apply (does_cost (1 + (0 + 0))); [lia|].
  eapply ends_bind; [apply does_spend|]. intros ? ? _ ->.
  eapply ends_bind; [apply does_get|]. intros r ? _ [-> ->]. unfold get_answer.
  destruct (m !! k); [by apply does_ret|by apply does_fail].
Qed.

(** A record is created where there was none, and refused otherwise. *)
Definition put_resolved (rel : Key) (rec : Record_) (r : Resolved) (m m' : Space) : Prop :=
  match m !! absolute q rel with
  | Some _ => m' = m /\ r = RLost
  | None => created (absolute q rel) (encode_at q rel rec) m m' /\ r = RCommitted
  end.

Lemma does_put_record rel rec m : ends 1 (put_record q rel rec) m (fun r m' => put_resolved rel rec r m m').
Proof.
  unfold put_record, put_resolving, RETRY_TRANSPORT_MAX. cbn [put_resolving_loop].
  apply (does_cost (1 + (0 + 0))); [lia|].
  eapply ends_bind; [apply does_spend|]. intros ? ? _ ->.
  eapply ends_bind; [apply does_put|]. intros r m1 _ Hr. unfold put_answer in Hr. unfold put_resolved.
  destruct (m !! absolute q rel).
  - destruct Hr as [-> ->]. by apply does_ret.
  - destruct Hr as [Hc [v ->]]. apply does_ret. done.
Qed.

Lemma does_put_bytes k b m :
  ends 1 (put_bytes_resolving k b (sha256 b)) m (fun _ m' => m' = m \/ m !! k = None /\ created k b m m').
Proof.
  unfold put_bytes_resolving, RETRY_TRANSPORT_MAX. cbn [put_bytes_loop].
  apply (does_cost (1 + (0 + 0))); [lia|].
  eapply ends_bind; [apply does_spend|]. intros ? ? _ ->.
  eapply ends_bind; [apply does_put|]. intros r m1 _ Hr. unfold put_answer in Hr.
  destruct (m !! k).
  - destruct Hr as [-> ->]. apply does_ret. by left.
  - destruct Hr as [Hc [v ->]]. apply does_ret. by right.
Qed.

(** ** Steps that leave the jobs alone *)

(** The planes that say what a job's state is. *)
Definition core_planes : list bytes :=
  [¶"jobs"; ¶"claims"; ¶"fails"; ¶"receipts"; ¶"dead"; ¶"outputs"].
Definition core (s : bytes) : Prop := plane_of s ∈ core_planes.
Definition same_core (m m' : Space) : Prop := forall s, core s -> m' !! (root ++ s) = m !! (root ++ s).

#[export] Instance same_core_preorder : PreOrder same_core.
Proof.
  split; [by intros m s|]. intros m1 m2 m3 H12 H23 s Hs. rewrite H23, H12; done.
Qed.

Lemma core_authoritative s : core s -> authoritative s.
Proof.
  intros Hs. left. unfold core, core_planes, authoritative_planes in *.
  rewrite !elem_of_cons in *. tauto.
Qed.

Lemma same_core_created k b m m' : ~ core (key_to_string k) -> created (absolute q k) b m m' -> same_core m m'.
Proof.
  intros Hk (v & t & _ & ->) s Hs. rewrite space_insert_ne; [done|].
  unfold absolute. intros E%(inj (app root)). by subst s.
Qed.

Definition calmly {A} (n : nat) (x : M A) : Prop := forall m, does n x m (fun _ m' => same_core m m').

Lemma calmly_cost {A} n n' (x : M A) : (n <= n')%nat -> calmly n x -> calmly n' x.
Proof. intros Hn Hx m. by eapply does_cost. Qed.
Lemma calmly_bind {A B} n1 n2 (x : M A) (f : A -> M B) :
  calmly n1 x -> (forall a, calmly n2 (f a)) -> calmly (n1 + n2) (x ≫= f).
Proof.
  intros Hx Hf m. eapply does_bind; [apply Hx| |done]. cbn. intros a m1 _ H1.
  eapply does_mono; [reflexivity| |apply Hf]. intros r m2 _ H2. by etrans.
Qed.
Lemma calmly_bind0 {A B} n (x : M A) (f : A -> M B) :
  calmly 0 x -> (forall a, calmly n (f a)) -> calmly n (x ≫= f).
Proof. apply (calmly_bind 0 n). Qed.
Lemma calmly_try {A} n (x : M A) : calmly n x -> calmly n (try_ x).
Proof. intros Hx m. eapply does_mono; [reflexivity| |apply does_try, Hx]. by intros [a|e] m' _. Qed.
Lemma calmly_ret {A} n (a : A) : calmly n (mret a).
Proof. apply (calmly_cost 0); [lia|]. intros m. by apply does_ret. Qed.
Lemma calmly_fail {A} n e : calmly n (fail e : M A).
Proof. apply (calmly_cost 0); [lia|]. intros m. by apply does_fail. Qed.

(** An operation after which nothing has changed. *)
Lemma calmly_still {A} n (x : M A) (P : Space -> A -> Prop) :
  (forall m, ends n x m (fun a m' => m' = m /\ P m a)) -> calmly n x.
Proof. intros Hx m. eapply does_mono; [reflexivity| |apply Hx]. by intros [a|e] m' _; [intros [-> _]|]. Qed.

Lemma calmly_spend_bind {B} n (f : unit -> M B) : calmly n (f tt) -> calmly (S n) (spend ≫= f).
Proof.
  intros Hf m. apply (ends_bind 1 n spend f m _ _ (does_spend m)). intros [] ? _ ->. apply Hf.
Qed.
Lemma calmly_try_spend_bind {B} n (f : Result Error unit -> M B) :
  calmly n (f (Ok tt)) -> calmly (S n) (try_ spend ≫= f).
Proof.
  intros Hf m. apply (ends_bind 1 n _ f m _ _ (does_try 1 _ m _ (does_spend m))).
  intros [[]|e] m1 _; [|done]. intros ->. apply Hf.
Qed.
Lemma calmly_get k : calmly 0 (do_get k).
Proof. eapply calmly_still, does_get. Qed.
Lemma calmly_head k : calmly 0 (do_head k).
Proof. eapply calmly_still, does_head. Qed.
Lemma calmly_token : calmly 0 fresh_token.
Proof. eapply calmly_still, does_token. Qed.
Lemma calmly_elapsed : calmly 0 elapsed_ns.
Proof. eapply calmly_still, does_elapsed. Qed.
Lemma calmly_get_state : calmly 0 get_state.
Proof. eapply (calmly_still _ _ (fun m s => memo_sound s m)), does_get_state. Qed.
Lemma calmly_set_floor f : calmly 0 (set_floor f).
Proof. intros m. eapply does_mono; [reflexivity| |apply does_set_floor]. by intros [a|e] m' _; [intros ->|]. Qed.
Lemma calmly_store_ok {A} (r : StoreResult A) : calmly 0 (store_ok r).
Proof. destruct r; [apply calmly_ret|apply calmly_fail]. Qed.
Lemma calmly_record_ok {A} (r : Result RecordError A) : calmly 0 (record_ok r).
Proof. destruct r; [apply calmly_ret|apply calmly_fail]. Qed.
Lemma calmly_ok_or_fail {A} (o : option A) e : calmly 0 (ok_or_fail o e).
Proof. destruct o; [apply calmly_ret|apply calmly_fail]. Qed.
Lemma calmly_read_retrying k : calmly 1 (read_retrying k).
Proof. intros m. eapply does_mono; [reflexivity| |apply does_read_retrying]. by intros r m' _ [-> _]. Qed.
Lemma calmly_put k b : ~ core (key_to_string k) -> calmly 0 (do_put (absolute q k) b (sha256 b)).
Proof.
  intros Hk m. eapply does_mono; [reflexivity| |apply does_put]. intros [r|e] m' _; [|done]. cbn.
  unfold put_answer. destruct (m !! absolute q k); [by intros [-> _]|].
  intros [Hc _]. by eapply same_core_created.
Qed.

Lemma not_core k :
  match k with KJob _ _ | KClaim _ _ _ | KFail _ _ _ | KReceipt _ _ | KDead _ _ => False | _ => True end ->
  ~ core (key_to_string k).
Proof.
  intros Hk. unfold core. rewrite plane_of_key. apply (bool_decide_eq_false_1 _).
  destruct k; try done; vm_compute; reflexivity.
Qed.

Lemma calmly_put_index k : ~ core (key_to_string k) -> calmly 0 (put_index q k).
Proof.
  intros Hk. unfold put_index. apply calmly_bind0; [by apply (calmly_put k [])|]. intros. apply calmly_ret.
Qed.
End Does.

Create HintDb calmly.
#[export] Hint Resolve calmly_ret calmly_fail calmly_get calmly_head calmly_token calmly_elapsed calmly_get_state
  calmly_set_floor calmly_store_ok calmly_record_ok calmly_ok_or_fail calmly_put_index : calmly.
#[export] Hint Extern 1 (~ core _) => apply not_core; exact I : calmly.

(** Walks an operation that leaves the jobs alone; operations that spend
    more than once are given. *)
Ltac calmly_leaf := first [ solve [eauto 3 with calmly] | apply (calmly_cost _ 0); [lia|]; solve [eauto 3 with calmly] ].
Ltac calmly_tac :=
  cbv beta zeta;
  lazymatch goal with
  | |- calmly _ _ (mbind _ spend) => apply calmly_spend_bind; calmly_tac
  | |- calmly _ _ (mbind _ (try_ spend)) => apply calmly_try_spend_bind; calmly_tac
  | |- calmly _ _ (mbind _ _) => apply calmly_bind0; [calmly_tac | intros; calmly_tac]
  | |- calmly _ _ (try_ _) => apply calmly_try; calmly_tac
  | |- calmly _ _ (match ?x with _ => _ end) => destruct x; calmly_tac
  | |- calmly _ _ _ => calmly_leaf
  end.

Section Index.
Context `{Sha256} (q : Queue).

Lemma calmly_beacon_loop n : calmly q (2 * n) (beacon_loop q n).
Proof.
  induction n as [|n IH]; cbn [beacon_loop]; [apply calmly_ret|].
  replace (2 * S n)%nat with (S (S (2 * n))) by lia.
  apply calmly_bind0; [apply calmly_token|]. intros nonce. cbv zeta. apply calmly_spend_bind.
  apply calmly_bind0; [apply (calmly_put q (KBeacon nonce) []), not_core, I|]. intros r.
  destruct r as [[v|]|[]]; try apply calmly_fail; try (eapply calmly_cost; [|exact IH]; lia). calmly_tac.
Qed.

Lemma calmly_watermark : calmly q 1 (watermark q).
Proof.
  unfold watermark. apply (calmly_bind q 1 0); [apply calmly_try, calmly_read_retrying|]. intros r. calmly_tac.
Qed.

Lemma calmly_establish_floor : calmly q 11 (establish_floor q).
Proof.
  unfold establish_floor. apply calmly_bind0; [unfold cached_floor; calmly_tac|]. intros [f|]; [apply calmly_ret|].
  apply (calmly_bind q 10 1); [apply (calmly_beacon_loop 5)|]. intros raw.
  destruct (raw =? 0); [apply calmly_fail|].
  apply (calmly_bind q 1 0); [apply calmly_watermark|]. intros w. calmly_tac.
Qed.

(** The terminal index's cost. *)
Definition TERMIDX_OPS : nat := 13.

Lemma does_put_index k m :
  ~ core (key_to_string k) -> ends q 0 (put_index q k) m (fun _ m' => same_core q m m').
Proof.
  intros Hk. unfold put_index. apply (ends_bind q 0 0 _ _ _ _ _ (does_put q _ [] m)). intros r m1 _ Hr.
  apply does_ret. cbn. unfold put_answer in Hr. destruct (m !! absolute q k).
  - destruct Hr as [-> _]. reflexivity.
  - destruct Hr as [Hc _]. by eapply same_core_created.
Qed.

(** Whatever stops it is swallowed. *)
Lemma does_write_termidx kind s j m :
  ends q TERMIDX_OPS (write_termidx q kind s j) m (fun _ m' => same_core q m m').
Proof.
  unfold write_termidx, TERMIDX_OPS. apply (ends_bind q 1 12 _ _ _ _ _ (does_try q _ _ _ _ (does_spend q m))).
  intros [u|e] m1 _; [|intros []]. intros ->.
  apply (ends_bind q 11 1 _ _ _ _ _ (does_try q _ _ _ _ (calmly_establish_floor m))).
  intros [f|e] m2 _ H2; [|apply (does_cost q 0); [lia|by apply does_ret]].
  destruct (bucket_number _ _) as [b|]; [|apply (does_cost q 0); [lia|by apply does_ret]].
  apply (ends_bind q 1 0 _ _ _ _ _ (does_try q _ _ _ _ (does_spend q m2))).
  intros [u'|e] m3 _; [|intros []]. intros ->.
  eapply ends_mono; [|by apply does_put_index, not_core]. intros ? m4 _ H4. cbn in *. by etrans.
Qed.
End Index.
