(* ===== verification/Pages.v ===== *)
(** Listings by pages.

    A page of the store's contract ([page_of]) is a prefix of the listing that
    remains after the cursor; following cursors walks the whole listing.  The
    queue's two paged scans (a job's claims, a shard's jobs) are analysed with
    this. *)

From S2P Require Import Prelude Sha256 Keys Store.

(* ------------------------------------------------------------------ *)
(** * Sorted keys *)

#[export] Instance bytes_lt_antisym : AntiSymm (=) bytes_lt.
Proof. intros a b H1 H2. destruct (bytes_lt_irrefl a). by eapply bytes_lt_trans. Qed.

Lemma strictly_sorted (l : list bytes) : StronglySorted bytes_le l -> NoDup l -> StronglySorted bytes_lt l.
Proof.
  induction 1 as [|x l Hs IH HF]; intros Hn; constructor; apply NoDup_cons in Hn as [Hx Hn]; auto.
  rewrite !Forall_forall in *. intros y Hy. destruct (proj1 (bytes_le_lteq x y) (HF y Hy)) as [|<-]; done.
Qed.

Lemma strictly_sorted_nodup (l : list bytes) : StronglySorted bytes_lt l -> NoDup l.
Proof.
  induction 1 as [|x l Hs IH HF]; constructor; [|done]. intros Hx. rewrite Forall_forall in HF.
  by apply (bytes_lt_irrefl x), HF.
Qed.

Lemma strictly_sorted_ext (l1 l2 : list bytes) :
  StronglySorted bytes_lt l1 -> StronglySorted bytes_lt l2 -> (forall x, x ∈ l1 <-> x ∈ l2) -> l1 = l2.
Proof.
  intros H1 H2 Hx. apply (StronglySorted_unique bytes_lt); [done..|].
  apply NoDup_Permutation; auto using strictly_sorted_nodup.
Qed.

Lemma strictly_sorted_filter (P : bytes -> Prop) `{!forall x, Decision (P x)} (l : list bytes) :
  StronglySorted bytes_lt l -> StronglySorted bytes_lt (filter P l).
Proof.
  induction 1 as [|x l Hs IH HF]; [constructor|]. rewrite filter_cons. case_decide; [|done].
  constructor; [done|]. rewrite Forall_forall in *. intros y [_ Hy]%list_elem_of_filter. auto.
Qed.

Lemma strictly_sorted_app (l1 l2 : list bytes) :
  StronglySorted bytes_lt l1 -> StronglySorted bytes_lt l2 ->
  (forall x y, x ∈ l1 -> y ∈ l2 -> bytes_lt x y) -> StronglySorted bytes_lt (l1 ++ l2).
Proof.
  intros H1 H2 Hxy. induction H1 as [|x l1 Hs IH HF]; [done|]. cbn. constructor.
  - apply IH. intros a b Ha Hb. apply Hxy; [by right|done].
  - apply Forall_app. split; [done|]. apply Forall_forall. intros y Hy. apply Hxy; [by left|done].
Qed.

Lemma sorted_last_max (l : list bytes) a x : StronglySorted bytes_lt l -> last l = Some a -> x ∈ l -> bytes_le x a.
Proof.
  induction 1 as [|y l Hs IH HF]; [done|]. intros Hl Hx. apply bytes_le_lteq. destruct l as [|z l].
  - injection Hl as <-. right. by apply list_elem_of_singleton in Hx.
  - rewrite last_cons_cons in Hl. apply elem_of_cons in Hx as [->|Hx].
    + left. rewrite Forall_forall in HF. by apply HF, last_Some_elem_of.
    + apply bytes_le_lteq. by apply IH.
Qed.

(* ------------------------------------------------------------------ *)
(** * The listing after a cursor *)

(** [L]: the keys that a listing still ranges over, in order. *)
Definition listing (m : Space) (prefix : bytes) (after : option bytes) (L : list bytes) : Prop :=
  StronglySorted bytes_lt L /\ forall k, k ∈ L <-> is_Some (m !! k) /\ in_listing prefix after k.

#[export] Instance in_listing_dec prefix after k : Decision (in_listing prefix after k).
Proof. unfold in_listing. destruct after; apply _. Defined.

Lemma listing_exists m prefix after : exists L, listing m prefix after L.
Proof.
  exists (merge_sort bytes_le (filter (in_listing prefix after) (map_to_list m).*1)). split.
  - apply strictly_sorted; [apply (StronglySorted_merge_sort bytes_le)|].
    rewrite merge_sort_Permutation. apply NoDup_filter, NoDup_fst_map_to_list.
  - intros k. rewrite merge_sort_Permutation, list_elem_of_filter, list_elem_of_fmap. split.
    + intros [Hk ([k' e] & -> & He)]. apply elem_of_map_to_list in He. eauto.
    + intros [[e He] Hk]. split; [done|]. exists (k, e). split; [done|]. by apply elem_of_map_to_list.
Qed.

(** A page is the beginning of the listing; the cursor gives the rest. *)
Lemma page_split m prefix after limit page L :
  page_of m prefix after limit page -> listing m prefix after L -> (0 < limit)%nat ->
  exists L2, L = map l_key (p_items page) ++ L2 /\
    match p_next_after page with
    | None => L2 = []
    | Some a => p_items page <> [] /\ listing m prefix (Some a) L2
    end.
Proof.
  intros (Hs & Hi & _ & Hall & Hnext) [HL HLk] Hlim.
  set (I := map l_key (p_items page)) in *. rewrite Forall_forall in Hi.
  assert (forall k, k ∈ I -> is_Some (m !! k) /\ in_listing prefix after k) as HI.
  { intros k (l & -> & Hl)%list_elem_of_fmap. destruct (Hi l Hl) as (e & He & _ & Hin). eauto. }
  assert (forall k, k ∈ L -> k ∉ I -> is_Some (p_next_after page) /\ forall x, x ∈ I -> bytes_lt x k) as Hrest.
  { intros k [[e He] Hk]%HLk HkI. destruct (Hall k e He Hk) as [|[[Hn|Hn] HF]]; [done| |lia]. split; [done|].
    intros x (l & -> & Hl)%list_elem_of_fmap. rewrite Forall_forall in HF. by apply HF. }
  exists (filter (fun k => k ∉ I) L). split.
  - apply strictly_sorted_ext; [done| |].
    + apply strictly_sorted_app; [done|by apply strictly_sorted_filter|].
      intros x y Hx [HyI Hy]%list_elem_of_filter. by apply (Hrest y).
    + intros k. rewrite elem_of_app, list_elem_of_filter. destruct (decide (k ∈ I)) as [HkI|]; [|tauto].
      split; [by left|]. intros _. by apply HLk, HI.
  - destruct (p_next_after page) as [a|] eqn:En.
    + specialize (Hnext a eq_refl). fold I in Hnext. pose proof (last_Some_elem_of _ _ Hnext) as Ha.
      split; [intros E; unfold I in Ha; by rewrite E in Ha; apply elem_of_nil in Ha|].
      split; [by apply strictly_sorted_filter|]. intros k. rewrite list_elem_of_filter. split.
      * intros [HkI Hk]. pose proof (proj1 (HLk k) Hk) as [Hp [Hst _]]. split; [done|]. split; [done|].
        by apply (Hrest k Hk HkI).
      * intros (Hp & Hst & Hlt). split.
        { intros HkI. pose proof (sorted_last_max I a k Hs Hnext HkI) as Hle.
          by apply bytes_lt_not_le in Hlt. }
        apply HLk. split; [done|]. split; [done|]. destruct (HI a Ha) as [_ [_ Haf]].
        destruct after as [b|]; [by eapply bytes_lt_trans|done].
    + destruct (filter _ L) as [|k l] eqn:Ef; [done|].
      assert (k ∈ filter (fun k => k ∉ I) L) as [HkI Hk]%list_elem_of_filter by (rewrite Ef; by left).
      by destruct (Hrest k Hk HkI) as [[? [=]] _].
Qed.
