(* ===== verification/Tracking.v ===== *)
(** When a key space says what the logical oracle says.

    [tracked clk m s j st]: the objects of job [j] (in shard [s]) spell the
    oracle's state [st] at the clock [clk]: its job record, the tail of its
    claim chain, the fail record of that tail, its terminal record and its
    output.  [tracks m o] is this for every job.  The file also computes what
    the queue's reads find in such a space: the chain listing and the tail. *)

From S2P Require Import Prelude Sha256 StowqMath Keys Records Direct Store Oracle Effects Rely Queue Claims.
From S2P Require Import Protocol Lifecycle Custody Calm Pages.

(** The job a record's key speaks of. *)
Definition key_job (k : Key) : option bytes :=
  match k with
  | KJob _ j | KClaim _ j _ | KFail _ j _ | KReceipt _ j | KDead _ j => Some j
  | _ => None
  end.

Lemma key_job_ne k k' j j' :
  key_job k = Some j -> key_job k' = Some j' -> j <> j' -> key_to_string k <> key_to_string k'.
Proof.
  intros Hk Hk' Hj E. apply Hj, push_hex_inj. apply (f_equal (split_on slash)) in E.
  rewrite !split_key_to_string in E.
  destruct k; try discriminate Hk; injection Hk as ->; destruct k'; try discriminate Hk'; injection Hk' as ->;
    try discriminate (f_equal (fun l => nth 0 l []) E); exact (f_equal (fun l => nth 2 l []) E).
Qed.

Section Tracking.
Context `{Sha256} (q : Queue) (Hq : handle_ok q).
#[local] Abbreviation root := (q_root q).
#[local] Abbreviation qid := (o_queue_id (q_opts q)).
#[local] Abbreviation Inv := (Inv root qid).
#[local] Abbreviation holds := (holds_at root qid).

Definition absent (m : Space) (k : Key) : Prop := m !! absolute q k = None.
Definition open_job (m : Space) (s : Z) (j : bytes) : Prop := absent m (KReceipt s j) /\ absent m (KDead s j).

(** The chain's tail is generation [g], of attempt [a], its lease ending at
    [x]. *)
Definition custody (m : Space) (s : Z) (j : bytes) (g a x : Z) : Prop :=
  1 <= g <= u32_max /\ absent m (KClaim s j (g + 1)) /\
  holds m (KClaim s j g) (fun e r => exists c, r = RecClaim c /\ c_attempt c = a /\
    x = saturating_add (e_time e) (c_lease_duration_ns c)).

Definition in_phase (clk : Z) (m : Space) (s : Z) (j : bytes) (nb : Z) (p : Phase) : Prop :=
  match p with
  | Ready n => n = nb /\ absent m (KClaim s j 1) /\ open_job m s j
  | PClaimed g a x => nb <= clk /\ custody m s j g a x /\ absent m (KFail s j g) /\ open_job m s j
  | Backoff g a n => nb <= clk /\ (exists x, x <= n /\ custody m s j g a x) /\
      holds m (KFail s j g) (fun _ r => exists f, r = RecFail f /\ f_retry_not_before_ns f = n) /\ open_job m s j
  | PTerminal TermReceipt => is_Some (m !! absolute q (KReceipt s j)) /\ absent m (KDead s j)
  | PTerminal (TermDead reason) => absent m (KReceipt s j) /\
      holds m (KDead s j) (fun _ r => exists d, r = RecDead d /\ d_reason d = reason)
  end.

(** The committed output, under the one name the oracle knows. *)
Definition output_tracked (m : Space) (j : bytes) (out : option bytes) : Prop :=
  match out with
  | None => m !! output_key q j ¶"result" = None
  | Some d => exists e, m !! output_key q j ¶"result" = Some e /\ sha256 (e_body e) = d
  end.

Definition tracked (clk : Z) (m : Space) (s : Z) (j : bytes) (st : JobState) : Prop :=
  (exists job, job_at q s j job m /\ j_maximum_attempts job = maximum_attempts st /\
     in_phase clk m s j (default 0 (j_not_before_ns job)) (phase st)) /\
  output_tracked m j (output st).

(** Every job of the oracle is tracked in its shard; there is no other job,
    nor an output of one. *)
Definition tracks (m : Space) (o : Oracle) : Prop :=
  (forall j st, jobs o !! j = Some st -> is_id j /\ exists s, shard_of q j s /\ tracked (o_clock o) m s j st) /\
  (forall s j, is_u16 s -> is_id j -> is_Some (m !! absolute q (KJob s j)) ->
     shard_of q j s /\ is_Some (jobs o !! j)) /\
  (forall j, is_id j -> jobs o !! j = None -> output_tracked m j None).

(* ---------------------------------------------------------------- *)
(** ** What a job's state depends on *)

Definition same_job (m m' : Space) (j : bytes) : Prop :=
  (forall k, key_job k = Some j -> m' !! absolute q k = m !! absolute q k) /\
  m' !! output_key q j ¶"result" = m !! output_key q j ¶"result".

Lemma same_holds m m' k (P : Entry -> Record_ -> Prop) :
  m' !! absolute q k = m !! absolute q k -> holds m k P -> holds m' k P.
Proof. intros E (e & r & He & Hd & HP). exists e, r. split; [by rewrite <- He|done]. Qed.

Lemma same_absent m m' k : m' !! absolute q k = m !! absolute q k -> absent m k -> absent m' k.
Proof. unfold absent. congruence. Qed.

(** The job part of [tracked], and the output's. *)
Definition phased (clk : Z) (m : Space) (s : Z) (j : bytes) (st : JobState) : Prop :=
  exists job, job_at q s j job m /\ j_maximum_attempts job = maximum_attempts st /\
    in_phase clk m s j (default 0 (j_not_before_ns job)) (phase st).

Lemma phased_same clk clk' m m' s j st :
  (forall k, key_job k = Some j -> m' !! absolute q k = m !! absolute q k) -> clk <= clk' ->
  phased clk m s j st -> phased clk' m' s j st.
Proof.
  intros Hk Hclk (job & Hjob & Hmax & Hp).
  assert (forall k P, key_job k = Some j -> holds m k P -> holds m' k P) as Hh.
  { intros k P Ek. by apply same_holds, Hk. }
  assert (forall k, key_job k = Some j -> absent m k -> absent m' k) as Ha.
  { intros k Ek. by apply same_absent, Hk. }
  assert (forall g a x, custody m s j g a x -> custody m' s j g a x) as Hc.
  { intros g a x (Hg & Hn & Hc). split; [done|]. split; [by apply Ha|by apply Hh]. }
  assert (open_job m s j -> open_job m' s j) as Hopen.
  { intros [H1 H2]. split; by apply Ha. }
  exists job. split; [by apply Hh|]. split; [done|].
  destruct (phase st) as [n|g a x|g a n|[|reason]]; cbn [in_phase] in *.
  - destruct Hp as (-> & Hn & Hop). auto.
  - destruct Hp as (Hnb & Hcu & Hf & Hop). split_and!; [lia|auto..].
  - destruct Hp as (Hnb & (x & Hx & Hcu) & Hf & Hop). split_and!; [lia|eauto|by apply Hh|auto].
  - destruct Hp as [[e He] Hd]. split; [|by apply Ha]. exists e. by rewrite Hk.
  - destruct Hp as [Hr Hd]. split; [by apply Ha|by apply Hh].
Qed.

Lemma output_same m m' j out :
  m' !! output_key q j ¶"result" = m !! output_key q j ¶"result" -> output_tracked m j out -> output_tracked m' j out.
Proof. intros E. unfold output_tracked. by rewrite E. Qed.

Lemma tracked_same clk clk' m m' s j st :
  same_job m m' j -> clk <= clk' -> tracked clk m s j st -> tracked clk' m' s j st.
Proof. intros [Hk Ho] Hclk [Hp Hout]. split; [by eapply phased_same|by eapply output_same]. Qed.

(** Only the object at [s0] among those that matter. *)
Definition only_at (s0 : bytes) (m m' : Space) : Prop :=
  forall s, core s -> s <> s0 -> m' !! (root ++ s) = m !! (root ++ s).

Lemma same_core_only s0 m m' : same_core q m m' -> only_at s0 m m'.
Proof. intros Hs s Hc _. by apply Hs. Qed.
Lemma only_at_trans s0 m1 m2 m3 : only_at s0 m1 m2 -> same_core q m2 m3 -> only_at s0 m1 m3.
Proof. intros H1 H2 s Hs Hne. rewrite H2 by done. by apply H1. Qed.
Lemma only_at_created k b m m' : created (absolute q k) b m m' -> only_at (key_to_string k) m m'.
Proof.
  intros (v & t & _ & ->) s _ Hne. rewrite space_insert_ne; [done|].
  unfold absolute. by intros E%(inj (app root)).
Qed.

Lemma key_job_core k j : key_job k = Some j -> core (key_to_string k).
Proof.
  intros Hk. unfold core. rewrite plane_of_key. apply (bool_decide_eq_true_1 _).
  destruct k; try discriminate Hk; vm_compute; reflexivity.
Qed.

Definition output_path (j : bytes) : bytes := ¶"outputs/" ++ push_hex j ++ [slash] ++ ¶"result".
Lemma output_key_path j : output_key q j ¶"result" = root ++ output_path j.
Proof. unfold output_key, output_path. by rewrite <- ?app_assoc. Qed.
Lemma output_path_segments j : split_on slash (output_path j) = [¶"outputs"; push_hex j; ¶"result"].
Proof.
  unfold output_path.
  change (¶"outputs/" ++ push_hex j ++ [slash] ++ ¶"result")
    with (¶"outputs" ++ slash :: (push_hex j ++ slash :: ¶"result")).
  rewrite !split_on_app by (apply push_hex_no_slash || by apply lit_no_slash). reflexivity.
Qed.
Lemma output_path_core j : core (output_path j).
Proof.
  unfold core, plane_of. rewrite output_path_segments. apply (bool_decide_eq_true_1 _). vm_compute. reflexivity.
Qed.
Lemma output_path_inj j j' : output_path j = output_path j' -> j = j'.
Proof.
  intros E%(f_equal (split_on slash)). rewrite !output_path_segments in E.
  apply push_hex_inj. exact (f_equal (fun l => nth 1 l []) E).
Qed.
Lemma output_path_ne_key j k : output_path j <> key_to_string k.
Proof.
  intros E. apply (f_equal plane_of) in E. rewrite plane_of_key in E. unfold plane_of in E.
  rewrite output_path_segments in E. by destruct k.
Qed.

(** A step at one job's record leaves the other jobs alone. *)
Lemma only_at_same_job k0 j0 j m m' :
  only_at (key_to_string k0) m m' -> key_job k0 = Some j0 -> j <> j0 -> same_job m m' j.
Proof.
  intros Ho Hk0 Hne. split.
  - intros k Hk. apply Ho; [by eapply key_job_core|]. by eapply key_job_ne.
  - rewrite output_key_path. apply Ho; [apply output_path_core|apply output_path_ne_key].
Qed.
Lemma only_at_output_same j0 j m m' : only_at (output_path j0) m m' -> j <> j0 -> same_job m m' j.
Proof.
  intros Ho Hne. split.
  - intros k Hk. apply Ho; [by eapply key_job_core|]. intros E. by eapply output_path_ne_key.
  - rewrite output_key_path. apply Ho; [apply output_path_core|]. by intros E%output_path_inj.
Qed.
Lemma same_core_same_job m m' j : same_core q m m' -> same_job m m' j.
Proof.
  intros Hs. split.
  - intros k Hk. by eapply Hs, key_job_core.
  - rewrite output_key_path. by apply Hs, output_path_core.
Qed.

(* ---------------------------------------------------------------- *)
(** ** The claim chain as a listing *)

Definition chained (m : Space) (s : Z) (j : bytes) (g : Z) : Prop :=
  0 <= g <= u32_max /\
  forall g', is_u32 g' -> (is_Some (m !! absolute q (KClaim s j g')) <-> 1 <= g' <= g).

(** Below a stored generation, all are stored. *)
Lemma chain_down m s j g g' :
  Inv m -> is_u16 s -> is_id j -> is_u32 g -> is_Some (m !! absolute q (KClaim s j g)) ->
  1 <= g' <= g -> is_Some (m !! absolute q (KClaim s j g')).
Proof.
  intros HI Hs Hj. remember (Z.to_nat (g - g')) as n eqn:En. revert g En.
  induction n as [|n IH]; intros g En Hg [e He] Hg'.
  { replace g' with g by lia. by exists e. }
  apply (IH (g - 1)); [lia|unfold is_u32 in *; lia| |lia].
  destruct (inv_ok q m (KClaim s j g) e HI) as [_ (c & _ & Hok)]; [done|done|].
  destruct Hok as (_ & _ & _ & _ & _ & Hp). destruct (Hp ltac:(lia)) as (e' & _ & He' & _). by exists e'.
Qed.

Lemma chained_at m s j g :
  Inv m -> is_u16 s -> is_id j -> 0 <= g < u32_max ->
  (1 <= g -> is_Some (m !! absolute q (KClaim s j g))) -> absent m (KClaim s j (g + 1)) -> chained m s j g.
Proof.
  intros HI Hs Hj Hg Hp Hn. split; [lia|]. intros g' Hg'. split.
  - intros Hs'. destruct Hs' as [e He].
    assert (1 <= g') as H1.
    { destruct (inv_ok q m (KClaim s j g') e HI) as [_ (c & _ & Hok)]; [done|done|]. apply Hok. }
    split; [done|]. destruct (Z.leb_spec g' g) as [|Hlt]; [done|]. exfalso.
    destruct (chain_down m s j g' (g + 1) HI Hs Hj Hg') as [e' He']; [by exists e|lia|].
    unfold absent in Hn. congruence.
  - intros [H1 H2]. eapply (chain_down m s j g); [done..|unfold is_u32; lia|apply Hp; lia|lia].
Qed.

Definition claim_keys (s : Z) (j : bytes) (g : Z) : list bytes :=
  map (fun i => absolute q (KClaim s j i)) (seqZ 1 g).

Lemma claims_prefix_of s j g : starts_with (claims_prefix q s j) (absolute q (KClaim s j g)) = true.
Proof.
  apply starts_with_iff. exists (hex32 g). unfold claims_prefix, absolute.
  rewrite key_to_string_segments. cbn [segments join_with]. by rewrite <- ?app_assoc.
Qed.

Lemma seqZ_sorted lo n : StronglySorted Z.lt (seqZ lo n).
Proof.
  remember (Z.to_nat n) as k eqn:Ek. revert lo n Ek. induction k as [|k IH]; intros lo n Ek.
  { rewrite seqZ_nil by lia. constructor. }
  rewrite seqZ_cons by lia. constructor; [apply IH; lia|]. apply Forall_forall.
  intros x Hx%elem_of_seqZ. lia.
Qed.

Lemma claim_keys_sorted s j g : g <= u32_max -> StronglySorted bytes_lt (claim_keys s j g).
Proof.
  intros Hg. unfold claim_keys.
  assert (forall l, StronglySorted Z.lt l -> Forall is_u32 l ->
    StronglySorted bytes_lt (map (fun i => absolute q (KClaim s j i)) l)) as Hl.
  { induction 1 as [|x l Hs IH HF]; intros Hu; cbn; constructor; apply Forall_cons in Hu as [Hx Hu]; auto.
    rewrite Forall_map. rewrite Forall_forall in *. intros y Hy. cbn. unfold bytes_lt, absolute.
    rewrite bytes_cmp_app, claim_key_cmp by auto. apply Z.compare_lt_iff. auto. }
  apply Hl; [apply seqZ_sorted|]. apply Forall_forall. intros x Hx%elem_of_seqZ. unfold is_u32. lia.
Qed.

Lemma chain_listing m s j g :
  Inv m -> is_u16 s -> chained m s j g -> listing m (claims_prefix q s j) None (claim_keys s j g).
Proof.
  intros HI Hs [Hg Hch]. split; [apply claim_keys_sorted; lia|]. intros k. unfold claim_keys.
  rewrite list_elem_of_fmap. split.
  - intros (i & -> & Hi%elem_of_seqZ). split; [apply Hch; [unfold is_u32; lia|lia]|].
    split; [apply claims_prefix_of|done].
  - intros [[e He] [Hp _]]. pose proof Hp as [x Ex]%starts_with_iff. unfold claims_prefix in Ex.
    set (rest := (¶"claims/" ++ hex16 s ++ [slash] ++ push_hex j ++ [slash]) ++ x).
    assert (k = root ++ rest) as -> by (rewrite Ex; unfold rest; by rewrite <- !app_assoc).
    assert (plane_of rest = ¶"claims") as Hplane.
    { unfold rest. rewrite <- !app_assoc.
      change (¶"claims/" ++ ?r) with (¶"claims" ++ slash :: r). apply plane_of_app. by apply lit_no_slash. }
    destruct (proj2 HI rest e He Hplane) as (k & Hk & Ek). rewrite Ek in Hp, He |- *.
    destruct (claims_prefix_key root s j k Hs Hk Hp) as (g' & -> & Hg').
    exists g'. split; [done|]. apply elem_of_seqZ. destruct (proj1 (Hch g' Hg')); [by exists e|lia].
Qed.

(** The tail that a listing's keys give, over an earlier one. *)
Definition tail_over (m : Space) (tail : option (Z * Meta)) (L : list bytes) : option (Z * Meta) :=
  match last L with
  | Some k => match parse_generation k, m !! k with Some g, Some e => Some (g, meta_of e) | _, _ => tail end
  | None => tail
  end.

Lemma page_tail_last m tail items :
  Forall (fun l => exists e, m !! l_key l = Some e /\ l_meta l = meta_of e) items ->
  Forall (fun k => is_Some (parse_generation k)) (map l_key items) ->
  page_tail tail items = tail_over m tail (map l_key items).
Proof.
  revert tail. induction items as [|l items IH]; intros tail Hi Hp; [done|].
  apply Forall_cons in Hi as [(e & He & Hm) Hi]. cbn [map] in Hp. apply Forall_cons in Hp as [[g Hg] Hp].
  unfold page_tail in *. cbn [fold_left map]. rewrite Hg, IH by done. unfold tail_over.
  destruct items as [|l' items]; [cbn; by rewrite Hg, He, Hm|]. cbn [map]. rewrite !last_cons_cons.
  destruct (last (l_key l' :: map l_key items)) as [k|] eqn:El; [|by apply last_None in El].
  apply last_Some_elem_of in El. pose proof (proj1 (Forall_forall _ _) Hp k El) as [g' Hg']. rewrite Hg'.
  apply (list_elem_of_fmap l_key (l' :: items) k) in El as (x & -> & Hx).
  destruct (proj1 (Forall_forall _ _) Hi x Hx) as (ex & Ex & _). by rewrite Ex.
Qed.

Lemma does_list_tail_loop m prefix fuel after tail L :
  listing m prefix after L -> Forall (fun k => is_Some (parse_generation k)) L -> (length L < fuel)%nat ->
  ends q (S (length L)) (list_tail_loop fuel prefix after tail) m (fun t m' => m' = m /\ t = tail_over m tail L).
Proof.
  revert after tail L. induction fuel as [|fuel IH]; intros after tail L HL HF Hlen; [lia|]. cbn [list_tail_loop].
  apply (ends_bind q 1 (length L) _ _ _ _ _ (does_spend q m)). intros [] m0 _ ->.
  apply (ends_bind q 0 (length L) _ _ _ _ _ (does_list q prefix after 64 m)).
  intros r m0 _ (-> & page & -> & Hpage).
  apply (ends_bind q 0 (length L) _ _ _ _ _ (does_store_ok q _ page m eq_refl)). intros p m0 _ [-> ->]. cbv zeta.
  destruct (page_split m prefix after 64 page L Hpage HL) as (L2 & E & Hnext); [lia|].
  subst L. apply Forall_app in HF as [HF1 HF2].
  pose proof Hpage as (_ & Hi & _).
  rewrite (page_tail_last m); [|eapply Forall_impl; [exact Hi|]; intros l (e & He & Hm & _); eauto|done].
  destruct (p_next_after page) as [a|].
  - destruct Hnext as [Hne HL2]. rewrite length_app, length_map in *.
    destruct (p_items page) as [|i its]; [done|]. cbn [length] in *.
    eapply does_mono; [| |apply (IH (Some a) _ L2 HL2 HF2); lia]; [lia|].
    intros [t|e] m1 _; cbn [succeeds]; [|done]. intros [-> ->]. split; [done|]. unfold tail_over.
    rewrite last_app. destruct (last L2) as [k|] eqn:El; [|done].
    apply last_Some_elem_of in El. pose proof (proj1 (Forall_forall _ _) HF2 k El) as [g Hg]. rewrite Hg.
    assert (is_Some (m !! k)) as [e He] by (by apply (proj2 HL2)). by rewrite He.
  - subst L2. rewrite app_nil_r. apply (does_cost q 0); [lia|]. by apply does_ret.
Qed.

Lemma does_budget_loop {A} n (f : nat -> M A) m Q :
  (forall fuel, (n < fuel)%nat -> does q n (f fuel) m Q) -> does q n (budget_loop f) m Q.
Proof. intros Hf s Hs Hb. unfold budget_loop. apply Hf; [lia|done|done]. Qed.

(** The tail of a chain, as the listing finds it. *)
Definition tail_entry (m : Space) (s : Z) (j : bytes) (g : Z) (t : option (Z * Meta)) : Prop :=
  g = 0 /\ t = None \/
  1 <= g /\ exists e, m !! absolute q (KClaim s j g) = Some e /\ t = Some (g, meta_of e).

Lemma does_list_tail m s j g :
  Inv m -> is_u16 s -> chained m s j g ->
  ends q (S (Z.to_nat g)) (list_tail (claims_prefix q s j)) m (fun t m' => m' = m /\ tail_entry m s j g t).
Proof.
  intros HI Hs Hch. pose proof Hch as [Hg Hpres].
  assert (length (claim_keys s j g) = Z.to_nat g) as Hlen by (unfold claim_keys; by rewrite length_map, length_seqZ).
  assert (Forall (fun k => is_Some (parse_generation k)) (claim_keys s j g)) as HF.
  { unfold claim_keys. rewrite Forall_map. apply Forall_forall. intros i Hi%elem_of_seqZ.
    eexists. apply parse_generation_claim. unfold is_u32. lia. }
  rewrite <- Hlen. unfold list_tail. apply does_budget_loop. intros fuel Hfuel.
  eapply does_mono; [reflexivity| |apply (does_list_tail_loop m _ fuel None None (claim_keys s j g)); [by apply chain_listing|done|lia]].
  intros [t|e] m1 _; cbn; [|done]. intros [-> ->]. split; [done|]. unfold tail_over, tail_entry.
  destruct (decide (g = 0)) as [->|Hne]; [by left|]. right. split; [lia|].
  replace (claim_keys s j g) with (claim_keys s j (g - 1) ++ [absolute q (KClaim s j g)]).
  2: { unfold claim_keys. replace (seqZ 1 g) with (seqZ 1 (g - 1) ++ [g]); [by rewrite map_app|].
       replace [g] with (seqZ (1 + (g - 1)) 1) by (rewrite seqZ_cons by lia; f_equal; lia).
       rewrite <- seqZ_app by lia. f_equal. lia. }
  rewrite last_snoc.
  assert (parse_generation (absolute q (KClaim s j g)) = Some g) as ->
    by (apply parse_generation_claim; unfold is_u32; lia).
  destruct (proj2 (Hpres g ltac:(unfold is_u32; lia)) ltac:(lia)) as [e He]. rewrite He. by exists e.
Qed.
End Tracking.
