(* ===== verification/Agreement.v ===== *)
(** The claim scan agrees with the logical oracle.

    In a calm run, from a key space that tracks an oracle, with budget enough,
    the scan exhausts, claims and skips exactly the jobs the oracle says, in
    the order of their ids, and the key space it leaves tracks the oracle that
    made the same moves.  The handle has no tail hints and no skew guard, and
    no chain has reached the last generation. *)

From S2P Require Import Prelude Sha256 StowqMath Keys Records Direct Store Oracle Effects Rely Queue Claims.
From S2P Require Import Protocol Lifecycle Custody Calm Pages Tracking.

Section Agreement.
Context `{Sha256} (q : Queue) (Hq : handle_ok q).
Context (Hhints : hints_enabled q = false) (Hskew : o_skew_guard_ns (q_opts q) = 0).
#[local] Abbreviation root := (q_root q).
#[local] Abbreviation qid := (o_queue_id (q_opts q)).
#[local] Abbreviation Inv := (Inv root qid).
#[local] Abbreviation holds := (holds_at root qid).
#[local] Abbreviation absent := (absent q).
#[local] Abbreviation custody := (custody q).
#[local] Abbreviation tracked := (tracked q).
#[local] Abbreviation tracks := (tracks q).
#[local] Abbreviation only_at := (only_at q).

(* ---------------------------------------------------------------- *)
(** ** Reads and writes of records in a calm run *)

Lemma get_held m k P : holds m k P -> exists e r,
  get_answer m (absolute q k) = Ok {| o_meta := meta_of e; o_body := e_body e |} /\
  m !! absolute q k = Some e /\ decode_at q k (e_body e) = Ok r /\ P e r.
Proof.
  intros (e & r & He & Hd & HP). unfold get_answer. change (absolute q k) with (at_key root k). rewrite He.
  by exists e, r.
Qed.
Lemma get_absent m k : absent m k -> get_answer m (absolute q k) = Err NotFound.
Proof. unfold Tracking.absent, get_answer. by intros ->. Qed.
Lemma head_absent m k : absent m k -> head_answer m (absolute q k) = Err NotFound.
Proof. unfold Tracking.absent, head_answer. by intros ->. Qed.
Lemma head_present m k : is_Some (m !! absolute q k) -> exists meta, head_answer m (absolute q k) = Ok meta.
Proof. unfold head_answer. intros [e ->]. by eexists. Qed.

(** A created record, as later reads find it. *)
Lemma created_holds m m' k rec :
  record_wf rec -> record_valid rec -> created (absolute q k) (encode_at q k rec) m m' ->
  holds m' k (fun e r => r = rec /\ is_u64 (e_time e)).
Proof.
  intros Hw Hv (v & t & Ht & ->). eexists _, rec. split; [apply space_insert|].
  split; [by apply decode_encode_at|done].
Qed.

Lemma does_put_new k rec m :
  absent m k -> ends q 1 (put_record q k rec) m (fun r m' =>
    r = RCommitted /\ created (absolute q k) (encode_at q k rec) m m').
Proof.
  intros Ha. eapply ends_mono; [|apply does_put_record]. intros r m' _ Hr. cbn in *.
  unfold put_resolved in Hr. unfold Tracking.absent in Ha. rewrite Ha in Hr. tauto.
Qed.

(* ---------------------------------------------------------------- *)
(** ** The tail a claimer finds *)

(** The chain: empty, or ending in a custody whose lease ends at [x]. *)
Definition chain_end (m : Space) (s : Z) (j : bytes) (g a x : Z) : Prop :=
  g = 0 /\ a = 0 /\ absent m (KClaim s j 1) \/ custody m s j g a x.

Definition found (m : Space) (s : Z) (j : bytes) (t : Tail) (g a x : Z) : Prop :=
  tail_ok q s j t m /\ t_gen t = g /\ t_attempt t = a /\
  (0 < g -> saturating_add (m_store_time_ns (t_meta t)) (t_duration t) = x).

Lemma chain_end_chained m s j g a x :
  Inv m -> is_u16 s -> is_id j -> g < u32_max -> chain_end m s j g a x -> chained q m s j g.
Proof.
  intros HI Hs Hj Hlt [(-> & _ & Ha)|(Hg & Hn & (e & r & He & _))].
  - apply chained_at; [done|done|done|lia|lia|done].
  - apply chained_at; [done|done|done|lia| |done]. intros _. by exists e.
Qed.

Lemma does_gather m s j g a x :
  Inv m -> is_u16 s -> is_id j -> g < u32_max -> chain_end m s j g a x ->
  ends q (S (Z.to_nat g)) (gather_tail q s j) m (fun r m' =>
    m' = m /\ exists t, r = (t, None, None) /\ tail_entry q m s j g t).
Proof.
  intros HI Hs Hj Hlt Hc. unfold gather_tail. rewrite Hhints. cbn [negb]. cbv zeta.
  rewrite <- (Nat.add_0_r (S _)). eapply ends_bind; [apply does_list_tail; [done..|by eapply chain_end_chained]|].
  intros t m1 _ [-> Ht]. apply does_ret. cbn. eauto.
Qed.

Lemma does_tail_of m s j g a x t :
  g < u32_max -> chain_end m s j g a x -> tail_entry q m s j g t ->
  ends q 1 (tail_of q s j t None) m (fun t' m' => m' = m /\ found m s j t' g a x).
Proof.
  intros Hlt Hc [[-> ->]|(Hg1 & e & He & ->)]; unfold tail_of; cbn [default from_option id].
  - apply (does_cost q (0 + 0)); [lia|]. change (0 =? 0) with true. cbv iota.
    eapply (ends_bind q 0 0 _ _ _ (fun p m' => m' = m /\ p = (0, 0))); [by apply does_ret|].
    intros p m1 _ [-> ->]. apply does_ret. split; [done|]. destruct Hc as [(_ & -> & _)|[? _]]; [|lia].
    split; [by left|]. split; [done|]. split; [done|]. cbn. lia.
  - destruct Hc as [(-> & _ & Ha)|(Hg & Hn & Hh)]; [lia|].
    rewrite (proj2 (Z.eqb_neq g 0)) by lia.
    apply (does_cost q (1 + 0)); [lia|].
    eapply (ends_bind q 1 0 _ _ _ (fun p m' => m' = m /\ p.1 = a /\ saturating_add (e_time e) p.2 = x /\
      exists c, claim_at q s j g (meta_of e) c m /\ p.1 = c_attempt c /\ p.2 = c_lease_duration_ns c)).
    { unfold tail_record. rewrite as_u32_small by lia.
      apply (ends_bind q 1 0 _ _ _ _ _ (does_spend q m)). intros [] ? _ ->. cbv zeta.
      apply (ends_bind q 0 0 _ _ _ _ _ (does_get q _ m)). intros r ? _ [-> ->].
      destruct (get_held m _ _ Hh) as (e' & rec & -> & He' & Hd & c & -> & Ha & Hx).
      rewrite He in He'. injection He' as <-.
      apply (ends_bind q 0 0 _ _ _ _ _ (does_store_ok q _ _ m eq_refl)). intros o ? _ [-> ->].
      apply (ends_bind q 0 0 _ _ _ _ _ (does_record_ok q _ _ m Hd)). intros r ? _ [-> ->].
      apply does_ret. split; [done|]. split; [done|]. split; [done|]. exists c. split; [|done].
      split; [unfold is_u32; lia|]. by exists e, (RecClaim c). }
    intros [a' d] m1 _ (-> & <- & Hx & c & Hcl & Ea & Ed). apply does_ret. split; [done|].
    split; [right; split; [cbn; lia|by exists c]|]. split; [done|]. split; [done|]. done.
Qed.

(* ---------------------------------------------------------------- *)
(** ** One pass over a candidate *)

(** Whether the tail's fail record holds the job back. *)
Definition gated (m : Space) (s : Z) (j : bytes) (clk g : Z) (b : bool) : Prop :=
  g = 0 /\ b = false \/
  1 <= g <= u32_max /\ (absent m (KFail s j g) /\ b = false \/
    holds m (KFail s j g) (fun _ r => exists f, r = RecFail f /\ b = (clk <? f_retry_not_before_ns f))).

Lemma does_backoff_gate m s j o t b :
  gated m s j (co_floor_ns o) (t_gen t) b ->
  ends q 1 (backoff_gate q s j o t) m (fun r m' => m' = m /\ r = b).
Proof.
  unfold backoff_gate. intros [[-> ->]|(Hg & Hb)].
  { change (0 <? 0) with false. cbv iota. apply (does_cost q 0); [lia|]. by apply does_ret. }
  rewrite (proj2 (Z.ltb_lt 0 (t_gen t))) by lia. rewrite as_u32_small by lia. cbv zeta.
  apply (ends_bind q 1 0 _ _ _ _ _ (does_spend q m)). intros [] ? _ ->.
  apply (ends_bind q 0 0 _ _ _ _ _ (does_get q _ m)). intros r ? _ [-> ->].
  destruct Hb as [[Ha ->]|Hh]; [rewrite get_absent by done; by apply does_ret|].
  destruct (get_held m _ _ Hh) as (e & rec & -> & _ & Hd & f & -> & ->).
  apply (ends_bind q 0 0 _ _ _ _ _ (does_record_ok q _ _ m Hd)). intros r ? _ [-> ->]. by apply does_ret.
Qed.

Lemma does_read_job m s j job :
  job_at q s j job m -> ends q 1 (read_job q s j) m (fun r m' => m' = m /\ r = Some job).
Proof.
  intros Hj. unfold read_job. cbv zeta.
  apply (ends_bind q 1 0 _ _ _ _ _ (does_spend q m)). intros [] ? _ ->.
  apply (ends_bind q 0 0 _ _ _ _ _ (does_get q _ m)). intros r ? _ [-> ->].
  destruct (get_held m _ _ Hj) as (e & rec & -> & _ & Hd & ->).
  apply (ends_bind q 0 0 _ _ _ _ _ (does_record_ok q _ _ m Hd)). intros r ? _ [-> ->]. by apply does_ret.
Qed.

Definition exhausted_record (j : bytes) (g a : Z) : Record_ :=
  RecDead {| d_job_id := j; d_generation := g; d_attempt := a; d_reason := 0x0004 |}.

Lemma does_exhaust m s j t :
  is_id j -> is_u64 (t_gen t) -> is_u64 (t_attempt t) -> absent m (KDead s j) ->
  ends q 15 (exhaust q s j t) m (fun _ m' => only_at (key_to_string (KDead s j)) m m' /\
    holds m' (KDead s j) (fun _ r => r = exhausted_record j (t_gen t) (t_attempt t))).
Proof.
  intros Hj Hg Ha Hn. unfold exhaust. cbv zeta. fold (exhausted_record j (t_gen t) (t_attempt t)).
  apply (ends_bind q 1 14 _ _ _ _ _ (does_spend q m)). intros [] ? _ ->.
  apply (ends_bind q 1 13 _ _ _ _ _ (does_put_new _ _ m Hn)). intros r m1 _ [-> Hc].
  eapply does_mono; [reflexivity| |apply does_write_termidx]. intros [u|e] m2 _; cbn; [|done]. intros Hs.
  assert (holds m1 (KDead s j) (fun _ r => r = exhausted_record j (t_gen t) (t_attempt t))) as Hh.
  { eapply holds_mono; [|eapply created_holds; [| |exact Hc]]; [by intros e r [-> _]| |done].
    cbn. unfold is_u64 in *. split_and!; done || lia. }
  split; [exact (only_at_trans q _ m m1 m2 (only_at_created q _ _ _ _ Hc) Hs)|].
  eapply same_holds; [|exact Hh]. exact (Hs _ (key_job_core (KDead s j) j eq_refl)).
Qed.

Lemma job_at_mono m m' s j job : m ⊆ m' -> job_at q s j job m -> job_at q s j job m'.
Proof. intros Hm (e & r & He & Hd). exists e, r. split; [by eapply lookup_weaken|done]. Qed.

(** The payload reference a claim of the job carries. *)
Definition payload_of (job : JobRecord) : PayloadRef :=
  match j_payload_inline job with
  | Some b => Inline b
  | None => Detached (root ++ default [] (j_payload_key job)) (j_payload_digest job) (j_payload_length job)
  end.
Definition pays (m : Space) (s : Z) (j : bytes) (p : PayloadRef) : Prop :=
  exists job, job_at q s j job m /\ p = payload_of job.

Lemma does_payload_ref m s j job :
  job_at q s j job m -> ends q 0 (payload_ref q job) m (fun p m' => m' = m /\ p = payload_of job).
Proof.
  intros (e & r & _ & Hd & ->). apply decode_record_canonical_aux in Hd as (_ & _ & Hv). cbn in Hv.
  unfold payload_ref, payload_of. destruct (j_payload_inline job), (j_payload_key job); try by apply does_ret.
  - destruct Hv as [_ Hv]. by destruct (Hv eq_refl).
Qed.

(** The handle a claimer is given for its new generation. *)
Definition handle_of (o : ClaimOptions) (s : Z) (j : bytes) (g a time : Z) (c : Claim) : Prop :=
  cl_job_id c = j /\ cl_shard c = s /\ cl_generation c = g /\ cl_attempt c = a /\
  cl_lease_duration_ns c = co_lease_duration_ns o /\ cl_claim_store_time_ns c = time.

Lemma does_take_custody m s j o job t attempt token e :
  job_at q s j job m -> m !! absolute q (KClaim s j (t_gen t + 1)) = Some e ->
  ends q 2 (take_custody q o s j job t attempt token None (KClaim s j (t_gen t + 1))) m (fun c m' =>
    same_core q m m' /\ handle_of o s j (t_gen t + 1) attempt (e_time e) c /\ cl_payload c = payload_of job).
Proof.
  intros Hjob He. unfold take_custody.
  apply (ends_bind q 1 1 _ _ _ _ _ (does_spend q m)). intros [] ? _ ->.
  apply (ends_bind q 0 1 _ _ _ _ _ (does_head q _ m)). intros r ? _ [-> ->]. unfold head_answer. rewrite He.
  apply (ends_bind q 0 1 _ _ _ _ _ (does_store_ok q _ _ m eq_refl)). intros meta ? _ [-> ->].
  apply (ends_bind q 0 1 _ _ _ _ _ (does_payload_ref m s j job Hjob)). intros pl ? _ [-> ->].
  unfold write_tail_hint. rewrite Hhints. cbn [negb].
  apply (ends_bind q 0 1 _ _ _ (fun _ m' => m' = m) _); [by apply does_ret|]. intros [] ? _ ->. cbv zeta.
  apply (ends_bind q 1 0 _ _ _ (fun _ m' => same_core q m m') _).
  - destruct (bucket_number _ _) as [b|]; [|apply (does_cost q 0); [lia|by apply does_ret]].
    apply (ends_bind q 1 0 _ _ _ _ _ (does_spend q m)). intros [] ? _ ->. by apply does_put_index, not_core.
  - intros [] m' _ Hs. apply does_ret. done.
Qed.

(** What a pass decides about the job: leave it, bury it exhausted, or take
    it. *)
Inductive Verdict := Skip | Exhausted | Take.

Definition verdict (clk max nb g a x : Z) (gate : bool) : Verdict :=
  if gate then Skip
  else if negb ((g =? 0) || (x <=? clk)) then Skip
  else if clk <? nb then Skip
  else if max <? wrapping_add a 1 then Exhausted
  else Take.

(** The job's next custody: the claim record, its lease from its store time. *)
Definition custody_taken (o : ClaimOptions) (m m' : Space) (s : Z) (j : bytes) (g a : Z) (c : Claim) : Prop :=
  only_at (key_to_string (KClaim s j (g + 1))) m m' /\
  exists e, is_u64 (e_time e) /\ handle_of o s j (g + 1) (wrapping_add a 1) (e_time e) c /\
    holds m' (KClaim s j (g + 1)) (fun e' r => e' = e /\ exists cr, r = RecClaim cr /\
      c_attempt cr = wrapping_add a 1 /\ c_lease_duration_ns cr = co_lease_duration_ns o) /\
    pays m' s j (cl_payload c).

Definition round_post (o : ClaimOptions) (m m' : Space) (s : Z) (j : bytes) (g a : Z) (v : Verdict)
    (r : option Claim) : Prop :=
  match v with
  | Skip => r = None /\ m' = m
  | Exhausted => r = None /\ only_at (key_to_string (KDead s j)) m m' /\
      holds m' (KDead s j) (fun _ r => r = exhausted_record j g a)
  | Take => exists c, r = Some c /\ custody_taken o m m' s j g a c
  end.

Lemma does_take m s j o job t :
  Inv m -> options_ok o -> is_u16 s -> is_id j -> tail_ok q s j t m -> job_at q s j job m ->
  expired q o t = true -> wrapping_add (t_attempt t) 1 <= j_maximum_attempts job -> 0 <= t_gen t < u32_max ->
  absent m (KClaim s j (t_gen t + 1)) ->
  ends q 4 (token ← fresh_token;
            let rel := KClaim s j (as_u32 (t_gen t + 1)) in
            _ ← spend;
            res ← put_record q rel (claim_record q o j t (wrapping_add (t_attempt t) 1) token);
            match res with
            | RCommitted => c ← take_custody q o s j job t (wrapping_add (t_attempt t) 1) token None rel; mret (Some c)
            | RLost | RNotCommitted => mret None
            end) m
    (fun r m' => exists c, r = Some c /\ custody_taken o m m' s j (t_gen t) (t_attempt t) c).
Proof.
  intros HI Ho Hs Hj Ht Hjob Hexp Hmax Hg Hn. rewrite as_u32_small by lia.
  apply (ends_bind q 0 4 _ _ _ _ _ (does_token q m)). intros token ? _ [-> Htok]. cbv zeta.
  pose proof (new_claim_ok q Hq o s j t job token m Ho Hs Hj HI Ht Hjob Hexp Hmax (proj2 Hg) Htok) as (Hw & Hv & _).
  set (rec := claim_record q o j t _ token) in *. set (rel := KClaim s j (t_gen t + 1)) in *.
  apply (ends_bind q 1 3 _ _ _ _ _ (does_spend q m)). intros [] ? _ ->.
  apply (ends_bind q 1 2 _ _ _ _ _ (does_put_new rel rec m Hn)). intros r m1 Hm1 [-> Hc].
  destruct (created_holds m m1 rel rec Hw Hv Hc) as (e & r & He & Hd & -> & Htime).
  change (at_key root rel) with (absolute q rel) in He.
  assert (job_at q s j job m1) as Hjob1.
  { destruct Hjob as (ej & rj & Hej & Hdj). exists ej, rj. split; [by eapply lookup_weaken|done]. }
  apply (ends_bind q 2 0 _ _ _ _ _ (does_take_custody m1 s j o job t _ token e Hjob1 He)).
  intros c m2 Hm2 (Hsame & Hh & Hpl). apply does_ret. exists c. split; [done|]. split.
  - exact (only_at_trans q _ m m1 m2 (only_at_created q _ _ _ _ Hc) Hsame).
  - exists e. split; [done|]. split; [done|]. split.
    + exists e, rec. split; [by eapply lookup_weaken|]. split; [done|]. split; [done|]. by eexists.
    + exists job. split; [by eapply job_at_mono|done].
Qed.

Lemma does_claim_round m s j o job t g a x gate :
  Inv m -> options_ok o -> is_u16 s -> is_id j -> g < u32_max -> job_at q s j job m ->
  chain_end m s j g a x -> found m s j t g a x -> absent m (KDead s j) ->
  gated m s j (co_floor_ns o) g gate ->
  ends q 17 (claim_round q o s j None None t) m (fun r m' => round_post o m m' s j g a
    (verdict (co_floor_ns o) (j_maximum_attempts job) (default 0 (j_not_before_ns job)) g a x gate) r).
Proof.
  intros HI Ho Hs Hj Hlt Hjob Hc (Ht & Eg & Ea & Hx) Hdead Hgate.
  assert (0 <= g) as Hg0 by (destruct Hc as [(-> & _)|[? _]]; lia).
  unfold claim_round, verdict. rewrite <- Eg in Hgate.
  apply (ends_bind q 1 16 _ _ _ _ _ (does_backoff_gate m s j o t gate Hgate)). intros b ? _ [-> ->].
  assert (forall n, ends q n (mret None) m (fun (r : option Claim) m' => r = None /\ m' = m)) as Hskip.
  { intros n. apply (does_cost q 0); [lia|]. by apply does_ret. }
  destruct gate; [apply Hskip|].
  assert (expired q o t = (g =? 0) || (x <=? co_floor_ns o)) as Hexp.
  { unfold expired. rewrite Eg. destruct (Z.eqb_spec g 0) as [|Hne]; [done|]. cbn [orb]. rewrite Hskew.
    rewrite Hx by lia. f_equal. destruct (tail_facts q s j t m HI Hs Hj Ht) as (_ & Hd & Htm).
    rewrite <- Hx by lia. unfold saturating_add, is_u64 in *. lia. }
  rewrite <- Hexp. destruct (expired q o t) eqn:Hex; cbn [negb]; [|apply Hskip]. cbv zeta.
  apply (ends_bind q 1 15 _ _ _ _ _ (does_read_job m s j job Hjob)). intros r ? _ [-> ->].
  assert (is_u64 (co_floor_ns o)) as Hfl by apply Ho. unfold is_u64 in Hfl.
  replace (match j_not_before_ns job with Some nb => co_floor_ns o <? nb | None => false end)
    with (co_floor_ns o <? default 0 (j_not_before_ns job))
    by (destruct (j_not_before_ns job); cbn; [done|apply Z.ltb_ge; lia]).
  destruct (co_floor_ns o <? default 0 (j_not_before_ns job)); [apply Hskip|]. rewrite Ea.
  destruct (tail_facts q s j t m HI Hs Hj Ht) as (Hau & _ & _). rewrite Ea in Hau.
  destruct (Z.ltb_spec (j_maximum_attempts job) (wrapping_add a 1)) as [Hmax|Hmax].
  - apply (ends_bind q 15 0 _ _ _ _ _ (does_exhaust m s j t Hj ltac:(rewrite Eg; unfold is_u64; lia)
      ltac:(by rewrite Ea) Hdead)). intros [] m1 _ [Ho1 Hh]. apply does_ret.
    rewrite Eg, Ea in Hh. done.
  - subst g a. destruct (Z.leb_spec u32_max (t_gen t)); [lia|].
    apply (does_cost q 4); [lia|]. apply does_take; try done.
    destruct Hc as [(-> & _ & Hn)|(_ & Hn & _)]; exact Hn.
Qed.

(* ---------------------------------------------------------------- *)
(** ** The oracle's move on one candidate *)

(** As the driver predicts the scan: exhaustion if due, else a claim if
    [can_claim] says so. *)
Definition oracle_visit (lease base : Z) (o : Oracle) (j : bytes) : option (Z * Z) * Oracle :=
  let '(due, o1) := exhaust_if_due o j in
  if due then (None, o1)
  else if can_claim o j then oracle_claim o j lease base
  else (None, o).

Definition phase_gen (p : Phase) : Z :=
  match p with PClaimed g _ _ | Backoff g _ _ => g | _ => 0 end.

(** The verdict on a job in each phase, and the move it stands for. *)
Definition visit_by (v : Verdict) (lease base : Z) (o : Oracle) (j : bytes) (st : JobState) (g a : Z)
  : option (Z * Z) * Oracle :=
  match v with
  | Skip => (None, o)
  | Exhausted => (None, set_phase o j st (PTerminal (TermDead 0x0004)))
  | Take => (Some (g + 1, a + 1),
             set_phase o j st (PClaimed (g + 1) (a + 1) (saturating_add base lease)))
  end.

Lemma oracle_same o : {| jobs := jobs o; o_clock := o_clock o |} = o.
Proof. by destruct o. Qed.

Ltac visit_cases :=
  repeat match goal with
  | |- context [Z.leb ?a ?b] => destruct (Z.leb_spec a b)
  | |- context [Z.ltb ?a ?b] => destruct (Z.ltb_spec a b)
  end; cbn; try done; try lia.

Lemma visit_ready lease base o j st n :
  jobs o !! j = Some st -> phase st = Ready n -> 1 <= maximum_attempts st ->
  oracle_visit lease base o j = visit_by (verdict (o_clock o) (maximum_attempts st) n 0 0 0 false) lease base o j st 0 0.
Proof.
  intros Ej Ep Hmax. unfold oracle_visit, exhaust_if_due, exhaustion_due, can_claim, oracle_claim, verdict.
  rewrite Ej, Ep. cbn [andb negb orb Z.eqb]. rewrite wrapping_add_small by lia. visit_cases.
Qed.

Lemma visit_claimed lease base o j st g a x nb :
  jobs o !! j = Some st -> phase st = PClaimed g a x -> nb <= o_clock o -> 1 <= g < u32_max -> 1 <= a < u64_max ->
  oracle_visit lease base o j = visit_by (verdict (o_clock o) (maximum_attempts st) nb g a x false) lease base o j st g a.
Proof.
  intros Ej Ep Hnb Hg Ha. unfold oracle_visit, exhaust_if_due, exhaustion_due, can_claim, oracle_claim, verdict.
  rewrite Ej, Ep. rewrite (proj2 (Z.eqb_neq g 0)) by lia. cbn [andb negb orb].
  rewrite !wrapping_add_small by lia. visit_cases.
Qed.

Lemma visit_backoff lease base o j st g a n x nb :
  jobs o !! j = Some st -> phase st = Backoff g a n -> nb <= o_clock o -> 1 <= g < u32_max -> 1 <= a < u64_max ->
  x <= n ->
  oracle_visit lease base o j
  = visit_by (verdict (o_clock o) (maximum_attempts st) nb g a x (o_clock o <? n)) lease base o j st g a.
Proof.
  intros Ej Ep Hnb Hg Ha Hx. unfold oracle_visit, exhaust_if_due, exhaustion_due, can_claim, oracle_claim, verdict.
  rewrite Ej, Ep. rewrite (proj2 (Z.eqb_neq g 0)) by lia. cbn [andb negb orb].
  rewrite !wrapping_add_small by lia. visit_cases.
Qed.

Lemma visit_terminal lease base o j st t :
  jobs o !! j = Some st -> phase st = PTerminal t -> oracle_visit lease base o j = (None, o).
Proof. intros Ej Ep. unfold oracle_visit, exhaust_if_due, exhaustion_due, can_claim. by rewrite Ej, Ep. Qed.

(* ---------------------------------------------------------------- *)
(** ** What the invariant adds to a tracked job *)

Lemma attempt_le_generation m s j g a x :
  Inv m -> is_u16 s -> is_id j -> custody m s j g a x -> 1 <= a <= g.
Proof.
  intros HI Hs Hj (Hg & _ & (e & r & He & Hd & c & -> & <- & _)). clear x. unfold is_u32 in *.
  remember (Z.to_nat g) as n eqn:En. revert g c e Hg He Hd En.
  induction n as [|n IH]; intros g c e Hg He Hd En; [lia|].
  destruct (inv_ok q m (KClaim s j g) e HI) as [_ (c' & Hd' & Hok)]; [split; [done|]; split; [done|]; unfold is_u32; lia|done|].
  assert (c' = c) as -> by (unfold decode_key in *; congruence).
  destruct Hok as (_ & _ & _ & _ & H1 & Hp). destruct (decide (g = 1)) as [->|Hne].
  { destruct (H1 eq_refl) as [_ ->]. lia. }
  destruct (Hp ltac:(lia)) as (e' & r' & He' & Hd2 & c'' & -> & _ & Ha).
  pose proof (IH (g - 1) c'' e' ltac:(lia) He' Hd2 ltac:(lia)) as Hi.
  rewrite Ha. destruct (c_continuation c); [lia|]. rewrite wrapping_add_small by lia. lia.
Qed.

Lemma no_fail_beyond m s j g :
  Inv m -> is_u16 s -> is_id j -> is_u32 g -> absent m (KClaim s j g) -> absent m (KFail s j g).
Proof.
  intros HI Hs Hj Hg Ha. unfold Tracking.absent in *. destruct (m !! absolute q (KFail s j g)) as [e|] eqn:He; [|done].
  destruct (inv_ok q m (KFail s j g) e HI) as [_ (f & _ & _ & _ & (e' & r' & He' & _))]; [done|done|].
  change (at_key root (KClaim s j g)) with (absolute q (KClaim s j g)) in He'. congruence.
Qed.

Lemma no_claim_beyond m s j g :
  Inv m -> is_u16 s -> is_id j -> 0 <= g -> g + 1 < u32_max -> absent m (KClaim s j (g + 1)) ->
  absent m (KClaim s j (g + 1 + 1)).
Proof.
  intros HI Hs Hj Hg Hlt Ha. unfold Tracking.absent in *.
  destruct (m !! absolute q (KClaim s j (g + 1 + 1))) as [e|] eqn:He; [|done].
  destruct (chain_down q m s j (g + 1 + 1) (g + 1) HI Hs Hj) as [e' He']; [unfold is_u32; lia|by exists e|lia|congruence].
Qed.

(* ---------------------------------------------------------------- *)
(** ** One candidate *)

Definition not_job_key (k : Key) : Prop := match k with KJob _ _ => False | _ => True end.

(** The result and the new key space are the oracle's move on job [j]. *)
Definition visited (lease : Z) (m m' : Space) (o : Oracle) (s : Z) (j : bytes) (r : option Claim) : Prop :=
  exists base, let '(got, o') := oracle_visit lease base o j in
  match r with
  | Some c => got = Some (cl_generation c, cl_attempt c) /\ cl_claim_store_time_ns c = base /\
      cl_job_id c = j /\ cl_shard c = s /\ cl_lease_duration_ns c = lease /\ pays m' s j (cl_payload c)
  | None => got = None /\ only_at (key_to_string (KDead s j)) m m'
  end /\
  (exists k, key_job k = Some j /\ not_job_key k /\ only_at (key_to_string k) m m') /\
  (exists st', jobs o' !! j = Some st' /\ tracked (o_clock o') m' s j st').

(** Other records of the job, after a write at one of its keys. *)
Lemma only_at_absent m m' k0 k j :
  only_at (key_to_string k0) m m' -> key_job k = Some j -> key_to_string k <> key_to_string k0 ->
  absent m k -> absent m' k.
Proof. intros Ho Hk Hne. apply same_absent, Ho; [by eapply key_job_core|done]. Qed.

Lemma plane_ne k k' : head (segments k) <> head (segments k') -> key_to_string k <> key_to_string k'.
Proof. intros Hne E%(f_equal (split_on slash)). rewrite !split_key_to_string in E. congruence. Qed.

Lemma claim_gen_ne s j g g' : is_u32 g -> is_u32 g' -> g <> g' -> is_u16 s -> is_id j ->
  key_to_string (KClaim s j g) <> key_to_string (KClaim s j g').
Proof. intros Hg Hg' Hne Hs Hj E%key_to_string_inj; [congruence|done|done]. Qed.

Lemma output_only_at m m' k0 j out :
  only_at (key_to_string k0) m m' -> output_tracked q m j out -> output_tracked q m' j out.
Proof.
  intros Ho. unfold output_tracked. rewrite !output_key_path.
  rewrite Ho; [done|apply output_path_core|apply output_path_ne_key].
Qed.

Lemma open_only_at_claim m m' s j g : only_at (key_to_string (KClaim s j g)) m m' ->
  open_job q m s j -> open_job q m' s j.
Proof.
  intros Ho [H1 H2].
  split; [eapply (only_at_absent _ _ _ _ j Ho _ _ H1)|eapply (only_at_absent _ _ _ _ j Ho _ _ H2)].
  Unshelve. all: try done; by apply plane_ne.
Qed.

(** The next generation's record in place: the job is in its custody. *)
Lemma next_tracked clk m m' s j job st g a x :
  Inv m -> is_u16 s -> is_id j -> 0 <= g -> g + 1 < u32_max -> m ⊆ m' ->
  job_at q s j job m -> j_maximum_attempts job = maximum_attempts st -> default 0 (j_not_before_ns job) <= clk ->
  output_tracked q m j (output st) -> open_job q m s j -> absent m (KClaim s j (g + 1)) ->
  only_at (key_to_string (KClaim s j (g + 1))) m m' ->
  holds m' (KClaim s j (g + 1)) (fun e r => exists c, r = RecClaim c /\ c_attempt c = a /\
    x = saturating_add (e_time e) (c_lease_duration_ns c)) ->
  tracked clk m' s j {| maximum_attempts := maximum_attempts st; phase := PClaimed (g + 1) a x; output := output st |}.
Proof.
  intros HI Hs Hj Hg Hlt Hsub Hjob Hmax Hnb Hout Hopen Hn Ho Hclaim.
  split; [|by eapply output_only_at]. exists job. split; [by eapply job_at_mono|]. split; [done|]. cbn.
  split; [done|]. split; [|split; [|by eapply open_only_at_claim]].
  - split; [lia|]. split; [|done].
    eapply (only_at_absent _ _ _ _ j Ho); [done| |by apply no_claim_beyond].
    apply claim_gen_ne; try done; unfold is_u32; lia.
  - eapply (only_at_absent _ _ _ _ j Ho); [done|by apply plane_ne|].
    apply no_fail_beyond; try done. unfold is_u32. lia.
Qed.

Lemma taken_tracked clk opts m m' s j job st g a x c :
  Inv m -> is_u16 s -> is_id j -> 0 <= g -> g + 1 < u32_max -> m ⊆ m' ->
  job_at q s j job m -> j_maximum_attempts job = maximum_attempts st -> default 0 (j_not_before_ns job) <= clk ->
  output_tracked q m j (output st) -> open_job q m s j -> chain_end m s j g a x ->
  custody_taken opts m m' s j g a c ->
  tracked clk m' s j {| maximum_attempts := maximum_attempts st;
    phase := PClaimed (g + 1) (wrapping_add a 1)
               (saturating_add (cl_claim_store_time_ns c) (co_lease_duration_ns opts));
    output := output st |}.
Proof.
  intros HI Hs Hj Hg Hlt Hsub Hjob Hmax Hnb Hout Hopen Hc (Ho & e & _ & Hh & Hclaim & _).
  assert (absent m (KClaim s j (g + 1))) as Hn by (destruct Hc as [(-> & _ & Hn)|(_ & Hn & _)]; exact Hn).
  eapply next_tracked; try done. eapply holds_mono; [|exact Hclaim].
  intros e' r [-> (cr & -> & Ea & El)]. exists cr. split; [done|]. split; [done|]. rewrite El.
  destruct Hh as (_ & _ & _ & _ & _ & ->). done.
Qed.

Lemma exhausted_tracked clk m m' s j job st g a :
  m ⊆ m' -> job_at q s j job m -> j_maximum_attempts job = maximum_attempts st ->
  output_tracked q m j (output st) -> open_job q m s j -> only_at (key_to_string (KDead s j)) m m' ->
  holds m' (KDead s j) (fun _ r => r = exhausted_record j g a) ->
  tracked clk m' s j {| maximum_attempts := maximum_attempts st; phase := PTerminal (TermDead 0x0004);
                        output := output st |}.
Proof.
  intros Hsub Hjob Hmax Hout [Hr _] Ho Hdead. split; [|by eapply output_only_at].
  exists job. split; [by eapply job_at_mono|]. split; [done|]. cbn. split.
  - eapply (only_at_absent _ _ _ _ j Ho); [done|by apply plane_ne|done].
  - eapply holds_mono; [|exact Hdead]. intros e r ->. by eexists.
Qed.

(** A pass whose verdict is the oracle's move visits the job. *)
Lemma round_visited v opts m m' o s j st job g a x gate r :
  Inv m -> is_u16 s -> is_id j -> jobs o !! j = Some st -> tracked (o_clock o) m s j st ->
  0 <= g -> g + 1 < u32_max -> 0 <= a < u64_max -> m ⊆ m' ->
  job_at q s j job m -> j_maximum_attempts job = maximum_attempts st ->
  open_job q m s j -> chain_end m s j g a x ->
  v = verdict (o_clock o) (j_maximum_attempts job) (default 0 (j_not_before_ns job)) g a x gate ->
  (forall base, oracle_visit (co_lease_duration_ns opts) base o j
                = visit_by v (co_lease_duration_ns opts) base o j st g a) ->
  round_post opts m m' s j g a v r -> visited (co_lease_duration_ns opts) m m' o s j r.
Proof.
  intros HI Hs Hj Ej Htr Hg Hlt Ha Hsub Hjob Hmax Hopen Hc Hv Hvisit Hr.
  pose proof Htr as [_ Hout]. unfold visited. destruct v; cbn [round_post visit_by] in *.
  - destruct Hr as [-> ->]. exists 0. rewrite Hvisit.
    assert (only_at (key_to_string (KDead s j)) m m) as Ho by (by intros ? ? ?).
    split; [done|]. split; [by exists (KDead s j)|by exists st].
  - destruct Hr as (-> & Ho & Hd). exists 0. rewrite Hvisit. split; [done|]. split; [by exists (KDead s j)|].
    eexists. cbn. rewrite lookup_insert_eq. split; [reflexivity|]. by eapply exhausted_tracked.
  - destruct Hr as (c & -> & Htaken). exists (cl_claim_store_time_ns c). rewrite Hvisit.
    pose proof Htaken as (Ho & e & _ & (E1 & E2 & E3 & E4 & E5 & _) & _ & Hpays).
    rewrite wrapping_add_small in E4 by lia. split; [rewrite E3, E4; done|]. split; [by exists (KClaim s j (g + 1))|].
    eexists. cbn. rewrite lookup_insert_eq. split; [reflexivity|].
    replace (a + 1) with (wrapping_add a 1) by (rewrite wrapping_add_small; lia).
    eapply taken_tracked; try done. unfold verdict in Hv. destruct gate; [done|].
    destruct (negb _); [done|]. destruct (Z.ltb_spec (o_clock o) (default 0 (j_not_before_ns job))); [done|lia].
Qed.

(** The passes of the three open phases. *)
Lemma phase_chain clk m s j nb st :
  in_phase q clk m s j nb (phase st) -> (forall t, phase st <> PTerminal t) ->
  exists g a x gate, g = phase_gen (phase st) /\ chain_end m s j g a x /\ open_job q m s j /\
    gated m s j clk g gate /\
    ((exists n, phase st = Ready n /\ g = 0 /\ a = 0 /\ n = nb /\ gate = false) \/
     (phase st = PClaimed g a x /\ custody m s j g a x /\ nb <= clk /\ gate = false) \/
     (exists n, phase st = Backoff g a n /\ custody m s j g a x /\ nb <= clk /\ x <= n /\ gate = (clk <? n))).
Proof.
  intros Hp Hnt. destruct (phase st) as [n|g a x|g a n|t] eqn:Ep; cbn in Hp |- *.
  - destruct Hp as (-> & Hn & Hop). exists 0, 0, 0, false. split; [done|]. split; [by left|]. split; [done|].
    split; [by left|]. left. by exists nb.
  - destruct Hp as (Hnb & Hc & Hf & Hop). exists g, a, x, false. split; [done|]. split; [by right|].
    split; [done|]. split; [right; split; [apply Hc|by left]|]. right. by left.
  - destruct Hp as (Hnb & (x & Hx & Hc) & Hf & Hop). exists g, a, x, (clk <? n). split; [done|].
    split; [by right|]. split; [done|].
    split; [right; split; [apply Hc|right]|right; right; by exists n].
    eapply holds_mono; [|exact Hf]. intros e r (f & -> & <-). by exists f.
  - by destruct (Hnt t).
Qed.

(** No chain is longer than [G]. *)
Definition chains_below (m : Space) (G : Z) : Prop :=
  forall s j g, is_u16 s -> is_id j -> is_u32 g -> is_Some (m !! absolute q (KClaim s j g)) -> g <= G.

Lemma chain_exists m s j G :
  Inv m -> is_u16 s -> is_id j -> 0 <= G < u32_max -> chains_below m G -> exists g, chained q m s j g /\ g <= G.
Proof.
  intros HI Hs Hj HG Hb.
  assert (forall n, Z.of_nat n <= G -> (forall g, is_u32 g -> is_Some (m !! absolute q (KClaim s j g)) -> g <= Z.of_nat n) ->
    exists g, chained q m s j g /\ g <= G) as Hn.
  { induction n as [|n IH]; intros Hle Hall.
    - exists 0. split; [|lia]. apply chained_at; [done|done|done|lia|lia|].
      unfold Tracking.absent. destruct (m !! absolute q (KClaim s j (0 + 1))) eqn:E; [|done].
      specialize (Hall 1 ltac:(unfold is_u32; lia) ltac:(by eexists)). lia.
    - destruct (m !! absolute q (KClaim s j (Z.of_nat (S n)))) as [e|] eqn:E.
      + exists (Z.of_nat (S n)). split; [|lia]. apply chained_at; [done|done|done|lia|intros _; by exists e|].
        unfold Tracking.absent. destruct (m !! absolute q (KClaim s j (Z.of_nat (S n) + 1))) eqn:E'; [|done].
        specialize (Hall (Z.of_nat (S n) + 1) ltac:(unfold is_u32; lia) ltac:(by eexists)). lia.
      + apply IH; [lia|]. intros g Hg Hp. pose proof (Hall g Hg Hp) as Hgn.
        destruct (decide (g = Z.of_nat (S n))) as [->|]; [|lia]. rewrite E in Hp. by destruct Hp. }
  apply (Hn (Z.to_nat G)); [lia|]. intros g Hg Hp. pose proof (Hb s j g Hs Hj Hg Hp). lia.
Qed.

Lemma does_memoize m s j v :
  is_Some (m !! absolute q (KReceipt s j)) \/ is_Some (m !! absolute q (KDead s j)) ->
  ends q 0 (memoize_terminal s j v) m (fun _ m' => m' = m).
Proof.
  intros Ht. unfold memoize_terminal.
  apply (ends_bind q 0 0 _ _ _ _ _ (does_get_state q m)). intros st ? _ [-> Hm].
  apply (ends_bind q 0 0 _ _ _ _ _ (does_elapsed q m)). intros now ? _ [-> _]. cbv zeta.
  apply does_set_memo. intros s' j' x. cbn. intros [[[= <- <-] _]|[_ Hx]]%lookup_insert_Some; [done|].
  destruct (_ <=? _); [by destruct (lookup_empty_Some _ _ Hx)|]. by apply (Hm s' j' x).
Qed.

Definition TRY_OPS (G : Z) : nat := 22 + Z.to_nat G.

Lemma does_try_claim m o s j st v opts G :
  Inv m -> options_ok opts -> co_floor_ns opts = o_clock o -> is_u16 s -> is_id j ->
  jobs o !! j = Some st -> tracked (o_clock o) m s j st -> 0 <= G -> G + 1 < u32_max -> chains_below m G ->
  ends q (TRY_OPS G) (try_claim q j s v opts) m (fun r m' => visited (co_lease_duration_ns opts) m m' o s j r).
Proof.
  intros HI Hopts Hfloor Hs Hj Ej Htr HG HG1 Hb. unfold try_claim, TRY_OPS.
  apply (ends_bind q 1 (21 + Z.to_nat G) _ _ _ _ _ (does_spend q m)). intros [] ? _ ->.
  apply (ends_bind q 1 (20 + Z.to_nat G) _ _ _ _ _ (does_spend q m)). intros [] ? _ ->.
  apply (ends_bind q 1 (19 + Z.to_nat G) _ _ _ _ _ (does_spend q m)). intros [] ? _ ->.
  apply (ends_bind q 0 (19 + Z.to_nat G) _ _ _ _ _ (does_head q _ m)). intros receipt ? _ [-> ->].
  apply (ends_bind q 0 (19 + Z.to_nat G) _ _ _ _ _ (does_head q _ m)). intros dead ? _ [-> ->].
  destruct (chain_exists m s j G HI Hs Hj ltac:(lia) Hb) as (g0 & Hch & Hg0).
  pose proof Htr as [(job & Hjob & Hmax & Hph) Hout].
  assert ((exists t, phase st = PTerminal t) \/ (forall t, phase st <> PTerminal t)) as [[tm Ep]|Hnt]
    by (destruct (phase st); [by right..|left; by eexists]).
  - (* terminal *)
    assert (is_Some (m !! absolute q (KReceipt s j)) \/ is_Some (m !! absolute q (KDead s j))) as Hterm.
    { rewrite Ep in Hph. destruct tm; cbn in Hph; [left; apply Hph|right].
      destruct Hph as [_ (e & r & He & _)]. by exists e. }
    apply (does_cost q (S (Z.to_nat g0) + 0 + 0)); [lia|].
    eapply (ends_bind q _ 0 _ _ _ (fun _ m' => m' = m)).
    { unfold gather_tail. rewrite Hhints. cbn [negb]. cbv zeta. eapply ends_mono; [|apply does_try].
      2: { eapply ends_bind; [by apply does_list_tail|]. intros t m1 _ [-> _].
           apply (does_ret q _ m (fun r m' => m' = m)). done. }
      by intros a m'. }
    intros gathered ? _ ->.
    assert (ends q 0 (_ ← memoize_terminal s j v; mret None) m (fun r m' => visited (co_lease_duration_ns opts) m m' o s j r)) as Hmemo.
    { apply (ends_bind q 0 0 _ _ _ _ _ (does_memoize m s j v Hterm)). intros [] ? _ ->. apply does_ret.
      exists 0. rewrite (visit_terminal _ _ _ _ _ _ Ej Ep).
      assert (only_at (key_to_string (KDead s j)) m m) as Ho by (by intros ? ? ?).
      split; [done|]. split; [by exists (KDead s j)|by exists st]. }
    unfold head_answer. destruct Hterm as [[e ->]|[e ->]].
    + by destruct (m !! absolute q (KDead s j)).
    + by destruct (m !! absolute q (KReceipt s j)).
  - (* open *)
    destruct (phase_chain (o_clock o) m s j _ st Hph Hnt) as (g & a & x & gate & Eg & Hc & Hopen & Hgate & Hcases).
    assert (0 <= g <= G /\ 0 <= a < u64_max) as [Hg Ha].
    { destruct Hc as [(-> & -> & _)|Hc]; [lia|]. pose proof (attempt_le_generation m s j g a x HI Hs Hj Hc).
      destruct Hc as (Hg & _ & (e & r & He & _)).
      pose proof (Hb s j g Hs Hj ltac:(unfold is_u32; lia) ltac:(by exists e)). lia. }
    rewrite !head_absent by apply Hopen.
    apply (does_cost q (S (Z.to_nat g) + (0 + (1 + 17)))); [lia|].
    eapply (ends_bind q _ _ _ _ _ (fun r m' => m' = m /\ exists t, r = Ok (t, None, None) /\ tail_entry q m s j g t)).
    { eapply ends_mono; [|apply does_try, (does_gather m s j g a x HI Hs Hj ltac:(lia) Hc)].
      intros [y|e] m' _; [|by intros []]. intros (-> & t & -> & Ht). by eauto. }
    intros gathered ? _ (-> & t & -> & Ht).
    eapply (ends_bind q 0 _ _ _ _ (fun y m' => m' = m /\ y = (t, None, None))); [by apply does_ret|].
    intros y ? _ [-> ->]. cbv beta iota.
    eapply (ends_bind q 1 _ _ _ _ _ _ (does_tail_of m s j g a x t ltac:(lia) Hc Ht)).
    intros tl ? _ [-> Hfound]. cbv zeta.
    eapply does_mono; [reflexivity| |apply (does_claim_round m s j opts job tl g a x gate); try done; [lia|apply Hopen|by rewrite Hfloor]].
    intros [r|e] m' Hsub; cbn [succeeds]; [|done]. intros Hr.
    eapply (round_visited _ opts m m' o s j st job g a x gate); try (done || lia); [|by rewrite Hfloor in Hr].
    intros base. rewrite Hmax. destruct Hcases as [(n & Ep & -> & -> & -> & ->)|[(Ep & Hcu & Hnb & ->)|(n & Ep & Hcu & Hnb & Hx & ->)]].
    + destruct (job_at_ok q s j job m HI Hs Hj Hjob) as (_ & Hm1 & _).
      rewrite (visit_ready _ _ _ _ _ _ Ej Ep ltac:(lia)). done.
    + pose proof (attempt_le_generation m s j g a x HI Hs Hj Hcu). destruct Hcu as [Hg1 _].
      apply visit_claimed; done || lia.
    + pose proof (attempt_le_generation m s j g a x HI Hs Hj Hcu). destruct Hcu as [Hg1 _].
      apply visit_backoff; done || lia.
Qed.
End Agreement.
