(* ===== verification/Scan.v ===== *)
(** The claim scan agrees with the oracle's scan over the whole shard. *)

From S2P Require Import Prelude Sha256 StowqMath Keys Records Direct Store Oracle Effects Rely Queue Claims.
From S2P Require Import Protocol Lifecycle Custody Calm Pages Tracking Agreement.

(* ------------------------------------------------------------------ *)
(** * The oracle's scan *)

(** The jobs in the order of their ids: exhaustion as a side effect, the
    first claimable job is claimed and ends the scan (the driver's
    prediction, followed by the oracle's claim). *)
Fixpoint oracle_scan (lease base : Z) (ids : list bytes) (o : Oracle) : option (bytes * (Z * Z)) * Oracle :=
  match ids with
  | [] => (None, o)
  | j :: ids =>
      match oracle_visit lease base o j with
      | (Some ga, o') => (Some (j, ga), o')
      | (None, o') => oracle_scan lease base ids o'
      end
  end.

Lemma visit_others lease base o j got o' :
  oracle_visit lease base o j = (got, o') ->
  o_clock o' = o_clock o /\ forall j', j' <> j -> jobs o' !! j' = jobs o !! j'.
Proof.
  unfold oracle_visit, exhaust_if_due, can_claim, oracle_claim.
  destruct (jobs o !! j) as [st|]; [|by intros [= <- <-]].
  repeat case_match; intros; simplify_eq; cbn; split; try done;
    intros; by rewrite lookup_insert_ne.
Qed.

(** The store time only matters to a claim. *)
Lemma visit_none lease base o j o' base' :
  oracle_visit lease base o j = (None, o') -> oracle_visit lease base' o j = (None, o').
Proof.
  unfold oracle_visit, exhaust_if_due, can_claim, oracle_claim.
  destruct (jobs o !! j) as [st|]; [|done]. repeat case_match; intros; simplify_eq; done.
Qed.

(** A terminal job. *)
Definition ended (o : Oracle) (j : bytes) : Prop := exists st t, jobs o !! j = Some st /\ phase st = PTerminal t.

Lemma visit_ended lease base o j : ended o j -> oracle_visit lease base o j = (None, o).
Proof. intros (st & t & Ej & Ep). by eapply visit_terminal. Qed.

Lemma ended_visit lease base o j o' j' :
  ended o j' -> oracle_visit lease base o j = (None, o') -> ended o' j'.
Proof.
  intros He Hv. destruct (decide (j' = j)) as [->|Hne].
  - rewrite visit_ended in Hv by done. by injection Hv as <-.
  - destruct He as (st & t & Ej & Ep). exists st, t. split; [|done].
    by rewrite (proj2 (visit_others _ _ _ _ _ _ Hv)).
Qed.

(** Leaving terminal jobs out of the scan changes nothing. *)
Inductive pruned (o : Oracle) : list bytes -> list bytes -> Prop :=
| pruned_nil : pruned o [] []
| pruned_keep j ids ids' : pruned o ids ids' -> pruned o (j :: ids) (j :: ids')
| pruned_drop j ids ids' : ended o j -> pruned o ids ids' -> pruned o (j :: ids) ids'.

Lemma pruned_visit lease base o j o' ids ids' :
  oracle_visit lease base o j = (None, o') -> pruned o ids ids' -> pruned o' ids ids'.
Proof.
  intros Hv. induction 1 as [|i ids ids' _ IH|i ids ids' He _ IH]; [constructor|by constructor|].
  apply pruned_drop; [by eapply ended_visit|done].
Qed.

Lemma scan_pruned lease base ids ids' o :
  pruned o ids ids' -> oracle_scan lease base ids o = oracle_scan lease base ids' o.
Proof.
  revert ids' o. induction ids as [|j ids IH]; intros ids' o Hp; inversion Hp as [|? ? l Hl|? ? l He Hl]; subst.
  - done.
  - cbn. destruct (oracle_visit lease base o j) as [[ga|] o'] eqn:Hv; [done|].
    apply IH. by eapply pruned_visit.
  - cbn [oracle_scan]. rewrite visit_ended by done. by apply IH.
Qed.

Lemma scan_app lease base ids1 ids2 o :
  oracle_scan lease base (ids1 ++ ids2) o =
  match oracle_scan lease base ids1 o with
  | (Some x, o') => (Some x, o')
  | (None, o') => oracle_scan lease base ids2 o'
  end.
Proof.
  revert o. induction ids1 as [|j ids1 IH]; intros o; [done|]. cbn.
  destruct (oracle_visit lease base o j) as [[ga|] o']; [done|apply IH].
Qed.

Lemma scan_none lease base ids o o' base' :
  oracle_scan lease base ids o = (None, o') -> oracle_scan lease base' ids o = (None, o').
Proof.
  revert o. induction ids as [|j ids IH]; intros o; [done|]. cbn.
  destruct (oracle_visit lease base o j) as [[ga|] o1] eqn:Hv; [done|].
  rewrite (visit_none _ _ _ _ _ base' Hv). apply IH.
Qed.

(* ------------------------------------------------------------------ *)
(** * The jobs plane as a listing *)

Section Scan.
Context `{Sha256} (q : Queue) (Hq : handle_ok q).
Context (Hhints : hints_enabled q = false) (Hskew : o_skew_guard_ns (q_opts q) = 0).
#[local] Abbreviation root := (q_root q).
#[local] Abbreviation qid := (o_queue_id (q_opts q)).
#[local] Abbreviation Inv := (Inv root qid).
#[local] Abbreviation tracked := (tracked q).
#[local] Abbreviation tracks := (tracks q).
#[local] Abbreviation only_at := (only_at q).
#[local] Abbreviation chains_below := (chains_below q).

Definition jobs_prefix (s : Z) : bytes := root ++ ¶"jobs/" ++ hex16 s ++ [slash].

(** The job a listed key names, if its key is one of the grammar's. *)
Definition job_of_key (k : bytes) : option bytes :=
  match strip_prefix root k with
  | Some r => match parse r with Ok (KJob _ j) => Some j | _ => None end
  | None => None
  end.
Definition ids_of (L : list bytes) : list bytes := omap job_of_key L.

Lemma jobs_prefix_of s j : starts_with (jobs_prefix s) (absolute q (KJob s j)) = true.
Proof.
  apply starts_with_iff. exists (push_hex j). unfold jobs_prefix, absolute.
  rewrite key_to_string_segments. cbn [segments join_with]. by rewrite <- ?app_assoc.
Qed.

Lemma jobs_prefix_key s k :
  is_u16 s -> key_wf k -> starts_with (jobs_prefix s) (absolute q k) = true ->
  match k with KJob s' j => s' = s | _ => False end.
Proof.
  intros Hs Hk [x E]%starts_with_iff. unfold jobs_prefix, absolute in E. rewrite <- !app_assoc in E.
  apply (inj (app root)) in E. apply (f_equal (split_on slash)) in E. rewrite split_key_to_string in E.
  change (¶"jobs/" ++ hex16 s ++ [slash] ++ x) with (¶"jobs" ++ slash :: (hex16 s ++ slash :: x)) in E.
  rewrite !split_on_app in E by (apply push_hex_no_slash || by apply lit_no_slash).
  assert (forall n, nth n (segments k) [] = nth n (¶"jobs" :: hex16 s :: split_on slash x) []) as En
    by (intros n; by rewrite E).
  pose proof (En 0%nat) as E0. pose proof (En 1%nat) as E1. clear E En.
  destruct k; try discriminate E0. cbn [segments nth] in E1. destruct Hk as (Hs' & _).
  by apply hex16_inj in E1.
Qed.

(** A key under the prefix names a job exactly when it is that job's key. *)
Lemma job_of_key_iff s k j :
  is_u16 s -> starts_with (jobs_prefix s) k = true ->
  job_of_key k = Some j <-> is_id j /\ k = absolute q (KJob s j).
Proof.
  intros Hs Hp. unfold job_of_key. split.
  - destruct (strip_prefix root k) as [r|] eqn:Er; [|done]. apply strip_prefix_some in Er as ->.
    destruct (parse r) as [k|] eqn:Hk; [|done]. apply parse_canonical_aux in Hk as [Hwf <-].
    pose proof (jobs_prefix_key s k Hs Hwf Hp) as Hj. destruct k; try done. subst. intros [= ->].
    split; [apply Hwf|done].
  - intros [Hj ->]. assert (strip_prefix root (absolute q (KJob s j)) = Some (key_to_string (KJob s j))) as ->
      by apply strip_prefix_app.
    assert (parse (key_to_string (KJob s j)) = Ok (KJob s j)) as -> by (by apply parse_key_to_string_aux). done.
Qed.

Lemma job_keys_lt s j1 j2 :
  is_id j1 -> is_id j2 -> bytes_lt (absolute q (KJob s j1)) (absolute q (KJob s j2)) -> bytes_lt j1 j2.
Proof.
  unfold bytes_lt, absolute. rewrite bytes_cmp_app. cbn [key_to_string]. rewrite !bytes_cmp_app.
  intros H1 H2. rewrite push_hex_cmp; [done|congruence].
Qed.

(* ---------------------------------------------------------------- *)
(** ** One job's move, seen from all jobs *)

Lemma tracks_update m m' o o' s j st' :
  tracks m o -> is_id j -> shard_of q j s -> o_clock o <= o_clock o' ->
  (forall j', j' <> j -> same_job q m m' j' /\ jobs o' !! j' = jobs o !! j') ->
  jobs o' !! j = Some st' -> tracked (o_clock o') m' s j st' ->
  (forall s', is_u16 s' -> is_Some (m' !! absolute q (KJob s' j)) -> s' = s \/ is_Some (m !! absolute q (KJob s' j))) ->
  tracks m' o'.
Proof.
  intros (Hall & Hplane & Hnone) Hj Hs Hclk Hother Ej Htr Hkeys. split; [|split].
  - intros i st Ei. destruct (decide (i = j)) as [->|Hne].
    + split; [done|]. exists s. split; [done|]. congruence.
    + destruct (Hother i Hne) as [Hsame Eo]. rewrite Eo in Ei. destruct (Hall i st Ei) as (Hi & si & Hsi & Ht).
      split; [done|]. exists si. split; [done|]. by eapply tracked_same.
  - intros s' i Hs' Hi Hp. destruct (decide (i = j)) as [->|Hne].
    + split; [|by exists st']. destruct (Hkeys s' Hs' Hp) as [->|Hp']; [done|]. by apply (Hplane s' j).
    + destruct (Hother i Hne) as [[Hsame _] Eo]. rewrite Hsame in Hp by done. rewrite Eo. by apply (Hplane s' i).
  - intros i Hi Ei. destruct (decide (i = j)) as [->|Hne]; [congruence|].
    destruct (Hother i Hne) as [[_ Hout] Eo]. rewrite Eo in Ei. eapply output_same; [exact Hout|auto].
Qed.

(** A record of the job itself is left alone by a write at another. *)
Lemma tracks_moved m m' o o' s j st' k :
  tracks m o -> is_id j -> shard_of q j s -> o_clock o' = o_clock o ->
  (forall j', j' <> j -> jobs o' !! j' = jobs o !! j') -> jobs o' !! j = Some st' ->
  key_job k = Some j -> not_job_key k -> only_at (key_to_string k) m m' ->
  tracked (o_clock o') m' s j st' -> tracks m' o'.
Proof.
  intros Ht Hj Hs Hclk Hoth Ej Hk Hnk Ho Htr.
  eapply (tracks_update m m' o o' s j st'); try done; [lia| |].
  - intros j' Hne. split; [by eapply only_at_same_job|by apply Hoth].
  - intros s' Hs' Hp. right.
    assert (m' !! absolute q (KJob s' j) = m !! absolute q (KJob s' j)) as <-; [|done].
    apply Ho; [by apply (key_job_core _ j)|]. apply plane_ne. by destruct k.
Qed.

Lemma tracks_visited m m' o s j lease base got o' :
  tracks m o -> is_id j -> shard_of q j s -> oracle_visit lease base o j = (got, o') ->
  (exists k, key_job k = Some j /\ not_job_key k /\ only_at (key_to_string k) m m') ->
  (exists st', jobs o' !! j = Some st' /\ tracked (o_clock o') m' s j st') ->
  tracks m' o'.
Proof.
  intros Ht Hj Hs Hv (k & Hk & Hnk & Ho) (st' & Ej & Htr).
  destruct (visit_others _ _ _ _ _ _ Hv) as [Hclk Hoth]. by eapply tracks_moved.
Qed.

(** The scan's jobs: those of the listing. *)
Lemma ids_of_tracked m o s L :
  is_u16 s -> tracks m o -> Forall (fun k => is_Some (m !! k) /\ starts_with (jobs_prefix s) k = true) L ->
  Forall (fun j => is_id j /\ shard_of q j s /\ exists st, jobs o !! j = Some st /\ tracked (o_clock o) m s j st)
    (ids_of L).
Proof.
  intros Hs (Hall & Hplane & _) HL. apply Forall_forall. intros j (k & Hk & Ek)%list_elem_of_omap.
  rewrite Forall_forall in HL. destruct (HL k Hk) as [Hp Hst].
  apply (job_of_key_iff s k j Hs Hst) in Ek as [Hj ->].
  destruct (Hplane s j Hs Hj Hp) as [Hsh [st Est]]. split; [done|]. split; [done|]. exists st. split; [done|].
  destruct (Hall j st Est) as (_ & s' & Hs' & Ht). unfold shard_of in *. by replace s with s' by congruence.
Qed.

(** Candidates: the listed jobs, but for terminal ones that the memo names. *)
Definition candidates (s : Z) (cs : list Candidate) : Prop := Forall (fun c => cd_shard c = s) cs.

Lemma does_memoized s j v m :
  ends q 0 (is_memoized_terminal s j v) m (fun b m' => m' = m /\
    (b = true -> is_Some (m !! absolute q (KReceipt s j)) \/ is_Some (m !! absolute q (KDead s j)))).
Proof.
  unfold is_memoized_terminal. apply (ends_bind q 0 0 _ _ _ _ _ (does_get_state q m)). intros st ? _ [-> Hm].
  destruct (h_memo st !! (s, j)) as [[v' t]|] eqn:E; [|by apply does_ret].
  destruct (bytes_eqb v' v); [|by apply does_ret].
  apply (ends_bind q 0 0 _ _ _ _ _ (does_elapsed q m)). intros now ? _ [-> _]. apply does_ret.
  split; [done|]. intros _. by eapply Hm.
Qed.

(** A terminal record means a terminal phase. *)
Lemma tracked_ended m o s j st :
  jobs o !! j = Some st -> tracked (o_clock o) m s j st ->
  is_Some (m !! absolute q (KReceipt s j)) \/ is_Some (m !! absolute q (KDead s j)) -> ended o j.
Proof.
  intros Ej [(job & _ & _ & Hp) _] Ht. exists st.
  assert (~ open_job q m s j) as Hno.
  { intros [H1 H2]. unfold Tracking.absent in *. destruct Ht as [[e He]|[e He]]; congruence. }
  destruct (phase st) as [n|g a x|g a n|t]; [..|by exists t]; cbn in Hp; exfalso; apply Hno; tauto.
Qed.

Lemma does_candidate_of m o s l cs :
  is_u16 s -> tracks m o -> is_Some (m !! l_key l) -> starts_with (jobs_prefix s) (l_key l) = true ->
  candidates s cs ->
  ends q 0 (candidate_of q cs l) m (fun cs' m' => m' = m /\ candidates s cs' /\
    exists new, cs' = cs ++ new /\ pruned o (ids_of [l_key l]) (map cd_job_id new)).
Proof.
  intros Hs Ht Hp Hst Hcs. unfold candidate_of.
  assert (forall n, job_of_key (l_key l) = None -> ends q n (mret cs) m (fun cs' m' => m' = m /\ candidates s cs' /\
    exists new, cs' = cs ++ new /\ pruned o (ids_of [l_key l]) (map cd_job_id new))) as Hskip.
  { intros n En. apply (does_cost q 0); [lia|]. apply does_ret. split; [done|]. split; [done|].
    exists []. rewrite app_nil_r. split; [done|]. cbn. rewrite En. constructor. }
  pose proof (ids_of_tracked m o s [l_key l] Hs Ht ltac:(by repeat constructor)) as Hids.
  revert Hskip Hids. cbn [ids_of omap list_omap]. unfold job_of_key.
  destruct (strip_prefix root (l_key l)) as [r|] eqn:Er; [|intros Hskip _; by apply Hskip].
  destruct (parse r) as [k|] eqn:Ek; [|intros Hskip _; by apply Hskip].
  destruct k as [sk j| | | | | | | | | | | | |]; try (intros Hskip _; by apply Hskip).
  intros _ Hids. apply Forall_cons in Hids as [(Hj & Hsh & st & Est & Htr) _].
  assert (sk = s) as ->.
  { apply strip_prefix_some in Er. apply parse_canonical_aux in Ek as [Hwf Er']. rewrite Er, <- Er' in Hst.
    by apply (jobs_prefix_key s (KJob sk j) Hs Hwf). }
  apply (ends_bind q 0 0 _ _ _ _ _ (does_memoized s j _ m)). intros b ? _ [-> Hb]. destruct b; apply does_ret.
  - split; [done|]. split; [done|]. exists []. rewrite app_nil_r. split; [done|].
    apply pruned_drop; [by eapply tracked_ended; eauto|constructor].
  - split; [done|]. split; [apply Forall_app; split; [done|by repeat constructor]|].
    eexists. split; [reflexivity|]. cbn. apply pruned_keep. constructor.
Qed.

Lemma pruned_length o ids ids' : pruned o ids ids' -> (length ids' <= length ids)%nat.
Proof. induction 1; cbn; lia. Qed.

Lemma pruned_app o a a' b b' : pruned o a a' -> pruned o b b' -> pruned o (a ++ b) (a' ++ b').
Proof. induction 1; cbn; intros; [done|constructor; auto|apply pruned_drop; auto]. Qed.

Lemma does_candidates m o s items cs :
  is_u16 s -> tracks m o ->
  Forall (fun l => is_Some (m !! l_key l) /\ starts_with (jobs_prefix s) (l_key l) = true) items ->
  candidates s cs ->
  ends q 0 (fold_each items cs (candidate_of q)) m (fun cs' m' => m' = m /\ candidates s cs' /\
    (length cs' <= length cs + length items)%nat /\
    exists new, cs' = cs ++ new /\ pruned o (ids_of (map l_key items)) (map cd_job_id new)).
Proof.
  intros Hs Ht HF. revert cs. induction HF as [|l items [Hp Hst] _ IH]; intros cs Hcs; cbn [fold_each].
  { apply does_ret. split; [done|]. split; [done|]. split; [lia|]. exists []. rewrite app_nil_r.
    split; [done|constructor]. }
  apply (ends_bind q 0 0 _ _ _ _ _ (does_candidate_of m o s l cs Hs Ht Hp Hst Hcs)).
  intros cs1 ? _ (-> & Hcs1 & new1 & -> & Hpr1).
  eapply ends_mono; [|by apply IH]. intros cs2 m' _ (-> & Hcs2 & Hlen & new2 & -> & Hpr2). cbn beta.
  split; [done|]. split; [done|].
  assert (length new1 <= 1)%nat as Hl1.
  { apply pruned_length in Hpr1. rewrite length_map in Hpr1. etrans; [exact Hpr1|]. cbn.
    destruct (job_of_key (l_key l)); cbn; lia. }
  split; [rewrite !length_app in *; cbn; lia|]. exists (new1 ++ new2). rewrite <- app_assoc. split; [done|].
  rewrite map_app. change (map l_key (l :: items)) with ([l_key l] ++ map l_key items).
  unfold ids_of. rewrite omap_app. by apply pruned_app.
Qed.

(* ---------------------------------------------------------------- *)
(** ** Waves of one *)

Lemma calm_mbind {A B} (x : M A) (f : A -> M B) s m Q :
  calm (x s) m (fun rs m1 => match rs.1 with Ok a => calm (f a rs.2) m1 Q | Err e => Q (Err e, rs.2) m1 end) ->
  calm ((x ≫= f) s) m Q.
Proof.
  intros Hx. change ((x ≫= f) s) with (mbind_ x f s). unfold mbind_. apply calm_bind.
  eapply calm_mono; [|exact Hx]. by intros [[a|e] s'] m1.
Qed.

Lemma calm_get_state s m Q : Q (Ok s, s) m -> calm (get_state s) m Q.
Proof. done. Qed.
Lemma calm_set_budget n s m Q :
  Q (Ok tt, {| max_ops := n; h_floor := h_floor s; h_memo := h_memo s |}) m -> calm (set_budget n s) m Q.
Proof. done. Qed.

Lemma hstate_eta s : {| max_ops := max_ops s; h_floor := h_floor s; h_memo := h_memo s |} = s.
Proof. by destruct s. Qed.

(** A probe that succeeds, on the whole budget. *)
Lemma calm_probe opts c s m Q :
  calm (try_claim q (cd_job_id c) (cd_shard c) (cd_version c) opts s) m (fun rs m' =>
    match rs.1 with
    | Ok r => Q (Ok ([Ok r], [max_ops rs.2]), {| max_ops := 0; h_floor := h_floor rs.2; h_memo := h_memo rs.2 |}) m'
    | Err _ => False
    end) ->
  calm (join_all q opts [(c, max_ops s)] {| max_ops := 0; h_floor := h_floor s; h_memo := h_memo s |}) m Q.
Proof.
  intros Hx. cbn [join_all]. apply calm_mbind. unfold with_budget. cbn [h_floor h_memo]. rewrite hstate_eta.
  apply calm_bind. unfold try_. apply calm_bind. eapply calm_mono; [|exact Hx].
  intros [[r|e] s'] m'; cbn; [|done]. done.
Qed.

Lemma calm_wave_step fuel opts c rest s m Q :
  calm (try_claim q (cd_job_id c) (cd_shard c) (cd_version c) opts s) m (fun rs m' =>
    match rs.1 with
    | Ok (Some cl) => Q (Ok (inl [cl]), rs.2) m'
    | Ok None => max_ops rs.2 <> 0%nat /\ calm (wave_loop q fuel opts 1 rest [] rs.2) m' Q
    | Err _ => False
    end) ->
  calm (wave_loop q (S fuel) opts 1 (c :: rest) [] s) m Q.
Proof.
  intros Hx. cbn [wave_loop length]. rewrite bool_decide_false by done. cbn [orb Nat.leb].
  change (Nat.min (S (length rest)) (1 - 0))%nat with (S (Nat.min (length rest) 0)). rewrite Nat.min_0_r.
  change (take 1 (c :: rest)) with [c]. change (drop 1 (c :: rest)) with rest. cbn [length].
  apply calm_mbind, calm_get_state. cbn [fst snd].
  unfold split. cbv iota. rewrite Nat.div_1_r. cbn [replicate zip zip_with].
  replace (max_ops s - max_ops s * 1)%nat with 0%nat by lia.
  apply calm_mbind, calm_set_budget. cbn [fst snd].
  apply calm_mbind, calm_probe. eapply calm_mono; [|exact Hx].
  intros [[r|e] s'] m'; cbn [fst snd]; [|done]. intros Hr. cbv beta iota zeta.
  apply calm_mbind, calm_get_state. cbn [fst snd]. apply calm_mbind, calm_set_budget.
  cbn [fst snd max_ops h_floor h_memo].
  unfold merge. cbn [sum_list]. unfold id. rewrite Nat.add_0_r, Nat.add_0_l, hstate_eta.
  destruct r as [cl|]; cbn [sort_results fold_left wr_claims wr_first_err wr_exhausted app length Nat.leb].
  - exact Hr.
  - destruct Hr as [Hne Hr]. rewrite (proj2 (Nat.eqb_neq _ 0)) by done. exact Hr.
Qed.

(* ---------------------------------------------------------------- *)
(** ** Calm runs that keep the protocol's invariant *)

(** [ends], with the invariant and the handle's floor cache: what the
    protocol's own specifications add to a calm run. *)
Definition goes {A} (n : nat) (x : M A) (m : Space) (Q : A -> Space -> Prop) : Prop :=
  forall s, cached_ok s -> memo_sound q s m -> (n <= max_ops s)%nat ->
  calm (x s) m (fun rs m' =>
    m ⊆ m' /\ Inv m' /\ cached_ok rs.2 /\ memo_sound q rs.2 m' /\ (max_ops s <= max_ops rs.2 + n)%nat /\
    match rs.1 with Ok a => Q a m' | Err _ => False end).

Lemma goes_of {A} n (x : M A) m Q R : Inv m -> spec root qid x m R -> ends q n x m Q -> goes n x m Q.
Proof.
  intros HI Hspec Hends s Hs Hm Hb.
  assert (Reflexive (rely root qid)) as Hrefl by (intros m0; reflexivity).
  pose proof (wp_calm _ _ _ _ (Hspec HI s Hs)) as H1. specialize (Hends s Hm Hb).
  eapply calm_mono; [|apply calm_and; [exact H1|exact Hends]].
  intros [r s'] m' [(Hr & Hc & _) (Hsub & Hmemo & Hn & Hq')]. cbn in *.
  split; [done|]. split; [by eapply rely_inv|]. split; [done|]. split; [done|]. split; [done|].
  destruct r as [a|[e| |]]; done.
Qed.

Lemma goes_mono {A} n n' (x : M A) m (Q Q' : A -> Space -> Prop) :
  (n <= n')%nat -> (forall a m', m ⊆ m' -> Inv m' -> Q a m' -> Q' a m') -> goes n x m Q -> goes n' x m Q'.
Proof.
  intros Hn HQ Hx s Hs Hm Hb. eapply calm_mono; [|apply Hx; [done|done|lia]].
  intros [r s'] m' (H1 & H2 & H3 & H4 & H5 & H6). cbn in *. split_and!; try done; [lia|]. destruct r; auto.
Qed.

Lemma goes_cost {A} n n' (x : M A) m Q : (n <= n')%nat -> goes n x m Q -> goes n' x m Q.
Proof. intros Hn. by apply goes_mono. Qed.

Lemma goes_bind {A B} n1 n2 (x : M A) (f : A -> M B) m Q R :
  goes n1 x m Q -> (forall a m1, m ⊆ m1 -> Inv m1 -> Q a m1 -> goes n2 (f a) m1 R) ->
  goes (n1 + n2) (x ≫= f) m R.
Proof.
  intros Hx Hf s Hs Hm Hb. apply calm_mbind. eapply calm_mono; [|apply Hx; [done|done|lia]].
  intros [r s1] m1 (H1 & H2 & H3 & H4 & H5 & H6). cbn [fst snd] in *. destruct r as [a|e]; [|done].
  eapply calm_mono; [|apply (Hf a m1 H1 H2 H6 s1 H3 H4); lia].
  intros [r s2] m2 (K1 & K2 & K3 & K4 & K5 & K6). cbn [fst snd] in *. split_and!; try done; [by etrans|lia].
Qed.

Lemma goes_with {A} n (x : M A) m Q R :
  Inv m -> spec root qid x m R -> goes n x m Q -> goes n x m (fun a m' => Q a m' /\ R a m' /\ rely root qid m m').
Proof.
  intros HI Hspec Hgoes s Hs Hm Hb.
  assert (Reflexive (rely root qid)) as Hrefl by (intros m0; reflexivity).
  pose proof (wp_calm _ _ _ _ (Hspec HI s Hs)) as H1. specialize (Hgoes s Hs Hm Hb).
  eapply calm_mono; [|apply calm_and; [exact H1|exact Hgoes]].
  intros [[a|e] s'] m' [(Hr & _ & HR) (K1 & K2 & K3 & K4 & K5 & K6)]; cbn in *; [|done].
  do 5 (split; [done|]). split_and!; [exact K6|exact HR|exact Hr].
Qed.

Lemma goes_both {A} n (x : M A) m Q R :
  Inv m -> spec root qid x m R -> ends q n x m Q ->
  goes n x m (fun a m' => Q a m' /\ R a m' /\ rely root qid m m').
Proof. intros HI Hspec Hends. apply goes_with; [done|done|by eapply goes_of]. Qed.

Lemma goes_ret {A} (a : A) m (Q : A -> Space -> Prop) : Inv m -> Q a m -> goes 0 (mret a) m Q.
Proof. intros HI HQ. apply (goes_of 0 _ m _ trivial); [done|apply spec_skip|by apply does_ret]. Qed.

(* ---------------------------------------------------------------- *)
(** ** The waves *)

Lemma chains_below_dead m m' s j G :
  only_at (key_to_string (KDead s j)) m m' -> chains_below m G -> chains_below m' G.
Proof.
  intros Ho Hb s' j' g Hs Hj Hg Hp. apply (Hb s' j' g Hs Hj Hg).
  assert (m' !! absolute q (KClaim s' j' g) = m !! absolute q (KClaim s' j' g)) as <-; [|done].
  apply Ho; [by apply (key_job_core _ j')|by apply plane_ne].
Qed.

(** One write makes a chain longer by one at most. *)
Lemma chains_grow m m' s0 G :
  Inv m' -> only_at s0 m m' -> 0 <= G -> chains_below m G -> chains_below m' (G + 1).
Proof.
  intros HI Ho HG Hb s j g Hs Hj Hg [e He].
  assert (forall g', is_u32 g' -> key_to_string (KClaim s j g') <> s0 ->
    is_Some (m' !! absolute q (KClaim s j g')) -> g' <= G) as Hold.
  { intros g' Hg' Hne Hp. apply (Hb s j g' Hs Hj Hg').
    assert (m' !! absolute q (KClaim s j g') = m !! absolute q (KClaim s j g')) as <-; [|done].
    apply Ho; [by apply (key_job_core _ j)|done]. }
  destruct (decide (key_to_string (KClaim s j g) = s0)) as [<-|Hne]; [|specialize (Hold g Hg Hne ltac:(by exists e)); lia].
  destruct (inv_ok q m' (KClaim s j g) e HI) as [_ (c & _ & _ & _ & H1 & _ & _ & Hp)]; [done|done|].
  destruct (decide (g = 1)) as [->|Hne]; [lia|]. destruct (Hp ltac:(lia)) as (e' & r & He' & _).
  assert (g - 1 <= G); [|lia]. unfold is_u32 in *. apply Hold; [lia| |by exists e'].
  apply claim_gen_ne; unfold is_u32; try done; lia.
Qed.

(** The keys of the jobs plane, which the scan does not touch. *)
Definition same_jobs (m m' : Space) : Prop := forall s, plane_of s = ¶"jobs" -> m' !! (root ++ s) = m !! (root ++ s).

Lemma same_jobs_dead m m' s j : only_at (key_to_string (KDead s j)) m m' -> same_jobs m m'.
Proof.
  intros Ho r Hr. apply Ho.
  - unfold core. rewrite Hr. apply (bool_decide_eq_true_1 _). vm_compute. reflexivity.
  - intros ->. by rewrite plane_of_key in Hr.
Qed.

Lemma same_jobs_trans m1 m2 m3 : same_jobs m1 m2 -> same_jobs m2 m3 -> same_jobs m1 m3.
Proof. intros H1 H2 r Hr. by rewrite H2, H1. Qed.

Lemma same_jobs_listing m m' s after L :
  same_jobs m m' -> listing m (jobs_prefix s) after L -> listing m' (jobs_prefix s) after L.
Proof.
  intros Hj [Hs HL]. split; [done|]. intros k. rewrite HL.
  assert (in_listing (jobs_prefix s) after k -> m' !! k = m !! k) as Hk;
    [|split; intros [Hp Hin]; rewrite (Hk Hin) in *; done].
  intros [[x ->]%starts_with_iff _]. unfold jobs_prefix. rewrite <- !app_assoc. apply Hj.
  change (¶"jobs/" ++ ?r) with (¶"jobs" ++ slash :: r). apply plane_of_app. by apply lit_no_slash.
Qed.

Definition scannable (o : Oracle) (s : Z) (c : Candidate) : Prop :=
  cd_shard c = s /\ is_id (cd_job_id c) /\ shard_of q (cd_job_id c) s /\ is_Some (jobs o !! cd_job_id c).

Lemma scannable_visit o o' s j lease base c :
  oracle_visit lease base o j = (None, o') -> is_Some (jobs o' !! j) -> scannable o s c -> scannable o' s c.
Proof.
  intros Hv Hj (E & Hid & Hsh & Hc). split; [done|]. split; [done|]. split; [done|].
  destruct (decide (cd_job_id c = j)) as [->|Hne]; [done|].
  by rewrite (proj2 (visit_others _ _ _ _ _ _ Hv)).
Qed.

(** What a scan that found nothing, or a claim, leaves behind. *)
Definition scanned (lease : Z) (m m' : Space) (o : Oracle) (s : Z) (ids : list bytes) (r : option Claim) : Prop :=
  exists base, let '(got, o') := oracle_scan lease base ids o in
  tracks m' o' /\
  match r with
  | Some c => got = Some (cl_job_id c, (cl_generation c, cl_attempt c)) /\ cl_claim_store_time_ns c = base /\
      cl_shard c = s /\ cl_lease_duration_ns c = lease /\ pays q m' s (cl_job_id c) (cl_payload c) /\
      (forall G, 0 <= G -> chains_below m G -> chains_below m' (G + 1))
  | None => got = None /\ same_jobs m m' /\ (forall G, chains_below m G -> chains_below m' G)
  end.

Lemma scanned_nil lease m o s : tracks m o -> scanned lease m m o s [] None.
Proof. intros Ht. exists 0. cbn. split; [done|]. split; [done|]. split; [by intros r|done]. Qed.

(** A first part that found nothing, then the rest. *)
Lemma scanned_app lease m m1 m' o s ids1 ids2 r :
  scanned lease m m1 o s ids1 None ->
  (forall o1, tracks m1 o1 -> (forall base, oracle_scan lease base ids1 o = (None, o1)) -> scanned lease m1 m' o1 s ids2 r) ->
  scanned lease m m' o s (ids1 ++ ids2) r.
Proof.
  intros (b1 & H1) Hrest. destruct (oracle_scan lease b1 ids1 o) as [got o1] eqn:E1.
  destruct H1 as (Ht & -> & Hsj & Hcb).
  assert (forall base, oracle_scan lease base ids1 o = (None, o1)) as Hall by (intros; by eapply scan_none).
  destruct (Hrest o1 Ht Hall) as (base & H2). exists base. rewrite scan_app, Hall.
  destruct (oracle_scan lease base ids2 o1) as [got2 o2]. destruct H2 as [Ht2 H2]. split; [done|].
  destruct r as [c|].
  { destruct H2 as (E2 & E3 & E4 & E5 & E6 & Hg). do 5 (split; [done|]). intros G HG Hb. apply Hg; auto. }
  destruct H2 as (-> & Hsj2 & Hcb2). split; [done|].
  split; [by eapply same_jobs_trans|auto].
Qed.

Lemma visited_scanned lease m m' o s j r :
  Inv m' -> tracks m o -> is_id j -> shard_of q j s -> visited q lease m m' o s j r -> scanned lease m m' o s [j] r.
Proof.
  intros HI' Ht Hj Hs (base & Hv). exists base. cbn.
  destruct (oracle_visit lease base o j) as [got o'] eqn:Ev. destruct Hv as (Hr & Hk & Hst).
  pose proof (tracks_visited m m' o s j lease base got o' Ht Hj Hs Ev Hk Hst) as Ht'.
  destruct r as [c|].
  - destruct Hr as (-> & E1 & E2 & E3 & E4 & E5). subst j. split; [done|]. do 5 (split; [done|]). intros G HG.
    destruct Hk as (k & _ & _ & Ho). by apply (chains_grow m m' (key_to_string k)).
  - destruct Hr as (-> & Ho). cbn. split; [done|]. split; [done|].
    split; [by eapply same_jobs_dead|intros G; by eapply chains_below_dead].
Qed.

Section Loop.
Context (opts : ClaimOptions) (G : Z) (Hopts : options_ok opts) (Hshard : is_u16 (co_shard opts)).
Context (HG : 0 <= G) (HG1 : G + 1 < u32_max).
#[local] Abbreviation lease := (co_lease_duration_ns opts).
#[local] Abbreviation shard := (co_shard opts).

(** The state of the scan between two probes. *)
Definition at_scan (m : Space) (o : Oracle) : Prop :=
  Inv m /\ tracks m o /\ co_floor_ns opts = o_clock o /\ chains_below m G.

Lemma goes_try_claim m o c :
  at_scan m o -> scannable o shard c ->
  goes (TRY_OPS G) (try_claim q (cd_job_id c) (cd_shard c) (cd_version c) opts) m
    (fun r m' => scanned lease m m' o shard [cd_job_id c] r).
Proof.
  intros (HI & Ht & Hf & Hb) (E & Hid & Hsh & [st Est]). rewrite E.
  eapply goes_mono; [reflexivity| |eapply goes_of; [done|by apply spec_try_claim|];
    apply (does_try_claim q Hq Hhints Hskew m o shard (cd_job_id c) st (cd_version c) opts G); try done].
  - intros r m' _ HI' Hv. by eapply visited_scanned.
  - destruct Ht as [Hall _]. destruct (Hall _ _ Est) as (_ & s' & Hshard' & Htr).
    unfold shard_of in *. by replace shard with s' by congruence.
Qed.

Lemma at_scan_next m m1 o o1 ids :
  at_scan m o -> Inv m1 -> scanned lease m m1 o shard ids None -> tracks m1 o1 ->
  (forall base, oracle_scan lease base ids o = (None, o1)) -> o_clock o1 = o_clock o -> at_scan m1 o1.
Proof.
  intros (_ & _ & Hf & Hb) HI (base & Hsc) Ht Hall Hclk. rewrite Hall in Hsc. destruct Hsc as (_ & _ & _ & Hcb).
  split_and!; [done|done|congruence|auto].
Qed.

Lemma scan_clock base ids o o1 : oracle_scan lease base ids o = (None, o1) ->
  o_clock o1 = o_clock o /\ forall j, is_Some (jobs o !! j) -> is_Some (jobs o1 !! j).
Proof.
  revert o. induction ids as [|j ids IH]; intros o; cbn; [by intros [= <-]|].
  destruct (oracle_visit lease base o j) as [[ga|] o'] eqn:Hv; [done|]. intros E.
  destruct (visit_others _ _ _ _ _ _ Hv) as [Hc Ho]. destruct (IH o' E) as [-> Hj]. split; [done|].
  intros i Hi. apply Hj. destruct (decide (i = j)) as [->|Hne]; [|by rewrite Ho].
  revert Hv. unfold oracle_visit, exhaust_if_due. destruct (jobs o !! j) as [st|] eqn:Ej; [|by destruct Hi].
  destruct (exhaustion_due _ _); [intros [= <-]; cbn; by rewrite lookup_insert_eq|].
  unfold can_claim, oracle_claim. rewrite Ej. destruct (phase st); repeat case_match; intros; simplify_eq;
    first [by exists st | cbn; by rewrite lookup_insert_eq].
Qed.

(** The result of a wave: a claim, or nothing and no candidate left. *)
Definition wave_is (r : option Claim) (w : list Claim + list Claim * list Candidate) : Prop :=
  w = match r with Some c => inl [c] | None => inr ([], []) end.

Lemma goes_wave fuel cs m o :
  at_scan m o -> Forall (scannable o shard) cs -> (length cs <= fuel)%nat ->
  goes (1 + length cs * TRY_OPS G) (wave_loop q fuel opts 1 cs []) m (fun w m' =>
    exists r, wave_is r w /\ scanned lease m m' o shard (map cd_job_id cs) r).
Proof.
  revert fuel m o. induction cs as [|c cs IH]; intros fuel m o Hat HF Hlen.
  { replace (wave_loop q fuel opts 1 [] []) with (mret (inr ([], [])) : M (list Claim + list Claim * list Candidate))
      by (destruct fuel; cbn [wave_loop]; by rewrite bool_decide_true).
    apply (goes_cost 0); [lia|]. apply goes_ret; [apply Hat|].
    exists None. split; [done|]. apply scanned_nil, Hat. }
  destruct fuel as [|fuel]; [cbn in Hlen; lia|]. cbn [length] in *. apply Forall_cons in HF as [Hc HF].
  intros s Hcache Hmemo Hb. apply calm_wave_step.
  eapply calm_mono; [|apply (goes_try_claim m o c Hat Hc s Hcache Hmemo); lia].
  intros [[r|e] s1] m1 (Hsub & HI1 & Hc1 & Hm1 & Hn1 & Hr); cbn [fst snd] in *; [|done].
  destruct r as [cl|].
  - split_and!; try done; [lia|]. exists (Some cl). split; [done|].
    destruct Hr as (base & Hr). exists base. cbn in Hr |- *.
    destruct (oracle_visit lease base o (cd_job_id c)) as [[ga|] o1]; [done|]. by destruct Hr as [_ [? _]].
  - pose proof Hr as (b0 & Hr0). destruct (oracle_scan lease b0 [cd_job_id c] o) as [got o1] eqn:Ev.
    destruct Hr0 as (Ht1 & -> & _ & _).
    assert (forall base, oracle_scan lease base [cd_job_id c] o = (None, o1)) as Hall by (intros; by eapply scan_none).
    destruct (scan_clock _ _ _ _ (Hall 0)) as [Hclk Hdom].
    split; [unfold TRY_OPS in *; lia|].
    eapply calm_mono; [|apply (IH fuel m1 o1); [|  |lia|done|done|lia]].
    + intros [w s2] m2 (K1 & K2 & K3 & K4 & K5 & K6). cbn [fst snd] in *.
      split_and!; try done; [by etrans|lia|]. destruct w as [w|]; [|done].
      destruct K6 as (r & Hw & Hsc). exists r. split; [done|].
      apply (scanned_app lease m m1 m2 o shard [cd_job_id c] (map cd_job_id cs)); [done|].
      intros o2 _ Hall2. pose proof (Hall2 0) as E2. rewrite Hall in E2. by injection E2 as <-.
    + by eapply at_scan_next.
    + eapply Forall_impl; [exact HF|]. intros c' (E & Hid & Hsh & Hdm). split_and!; try done. by apply Hdom.
Qed.

(* ---------------------------------------------------------------- *)
(** ** The pages *)

Lemma pruned_refl o ids : pruned o ids ids.
Proof. induction ids; by constructor. Qed.
Lemma pruned_forall o ids ids' (P : bytes -> Prop) : pruned o ids ids' -> Forall P ids -> Forall P ids'.
Proof. induction 1; intros HF; [done|apply Forall_cons in HF as [? ?]; constructor; auto|apply Forall_cons in HF as [? ?]; auto]. Qed.

(** The listing, in the terms of the candidates' lemmas. *)
Lemma listing_jobs m s after L :
  listing m (jobs_prefix s) after L -> Forall (fun k => is_Some (m !! k) /\ starts_with (jobs_prefix s) k = true) L.
Proof. intros [_ HL]. apply Forall_forall. intros k [? [? _]]%HL. done. Qed.

(** A page's candidates, ready for the next wave. *)
Lemma goes_page m o items L2 :
  at_scan m o -> Forall (fun k => is_Some (m !! k) /\ starts_with (jobs_prefix shard) k = true) (map l_key items ++ L2) ->
  goes 0 (fold_each items [] (candidate_of q)) m (fun cs m' => m' = m /\ (length cs <= length items)%nat /\
    Forall (scannable o shard) cs /\ pruned o (ids_of (map l_key items)) (map cd_job_id cs)).
Proof.
  intros (HI & Ht & Hf & Hb) HF. apply Forall_app in HF as [HF _].
  eapply goes_of; [done| |].
  - apply (spec_fold _ _ _ _ _ _ (fun p _ => Forall candidate_ok p)); [intros; apply kept_pure|done|].
    intros b x m' _ _ _ Hb'. by apply spec_candidate_of.
  - eapply ends_mono; [|apply (does_candidates m o shard items []); [done|done|by rewrite Forall_map in HF|constructor]].
    intros cs m' _ (-> & Hcs & Hlen & new & -> & Hpr). cbn [app] in *. split; [done|]. split; [done|]. split; [|done].
    pose proof (ids_of_tracked m o shard _ Hshard Ht HF) as Hids.
    apply (pruned_forall _ _ _ _ Hpr) in Hids. rewrite Forall_map in Hids. apply Forall_forall.
    unfold candidates in Hcs. rewrite Forall_forall in Hids, Hcs. intros c Hc.
    destruct (Hids c Hc) as (? & ? & st & ? & _). split_and!; [by apply Hcs|done|done|by exists st].
Qed.

(** Budget enough for [p] candidates in hand and [l] keys to list. *)
Definition SCAN_OPS (p l : nat) : nat := p * TRY_OPS G + l * (TRY_OPS G + 2) + 2.

Definition remaining (m : Space) (after : option bytes) (sd : bool) (L : list bytes) : Prop :=
  if sd then L = [] else listing m (jobs_prefix shard) after L.

Definition claims_are (r : option Claim) (cs : list Claim) : Prop :=
  cs = match r with Some c => [c] | None => [] end.

Lemma goes_scan_loop fuel L cs after sd m o :
  at_scan m o -> Forall (scannable o shard) cs -> remaining m after sd L -> (length L < fuel)%nat ->
  goes (SCAN_OPS (length cs) (length L)) (scan_loop q fuel opts 1 cs [] after sd) m (fun claims m' =>
    exists r, claims_are r claims /\ scanned lease m m' o shard (map cd_job_id cs ++ ids_of L) r).
Proof.
  revert L cs after sd m o. induction fuel as [|fuel IH]; intros L cs after sd m o Hat HF HL Hfuel; [lia|].
  cbn [scan_loop].
  apply (goes_cost (1 + length cs * TRY_OPS G + (1 + length L * (TRY_OPS G + 2)))); [unfold SCAN_OPS; lia|].
  eapply goes_bind; [by apply goes_wave|]. intros w m1 _ HI1 (r & -> & Hsc). destruct r as [c|].
  { apply (goes_cost 0); [lia|]. apply goes_ret; [done|]. exists (Some c). split; [done|].
    destruct Hsc as (base & Hsc). exists base. rewrite scan_app.
    destruct (oracle_scan lease base (map cd_job_id cs) o) as [got o1]. destruct Hsc as [Ht [-> Hc]]. done. }
  pose proof Hsc as (b0 & Hsc0). destruct (oracle_scan lease b0 (map cd_job_id cs) o) as [got o1] eqn:Ev.
  destruct Hsc0 as (Ht1 & -> & Hsj & _).
  assert (forall base, oracle_scan lease base (map cd_job_id cs) o = (None, o1)) as Hall by (intros; by eapply scan_none).
  destruct (scan_clock _ _ _ _ (Hall 0)) as [Hclk Hdom].
  pose proof (at_scan_next m m1 o o1 _ Hat HI1 Hsc Ht1 Hall Hclk) as Hat1.
  assert (remaining m1 after sd L) as HL1 by (destruct sd; [done|by eapply same_jobs_listing]).
  assert (forall n, ids_of L = [] -> goes n (mret []) m1 (fun claims m' => exists r, claims_are r claims /\
    scanned lease m m' o shard (map cd_job_id cs ++ ids_of L) r)) as Hnone.
  { intros n ->. apply (goes_cost 0); [lia|]. apply goes_ret; [done|].
    exists None. by rewrite app_nil_r. }
  destruct sd; cbn [orb length Nat.leb]; [cbn in HL; apply Hnone; by subst L|].
  apply (goes_bind 1 _ _ _ _ (fun r m' => m' = m1 /\ r = Ok tt)).
  { eapply goes_of; [done|by apply spec_try_skip, spec_spend|].
    eapply ends_mono; [|apply does_try, does_spend]. intros [[]|e] m' _; cbn; [|done]. by intros ->. }
  intros r m2 _ _ [-> ->].
  apply (goes_bind 0 _ _ _ _ (fun r m' => m' = m1 /\ exists page, r = Ok page /\ page_of m1 (jobs_prefix shard) after 1024 page)).
  { eapply goes_of; [done|apply spec_list_any|]. apply does_list. }
  intros r m2 _ _ (-> & page & -> & Hpage).
  destruct (page_split m1 _ after 1024 page L Hpage HL1 ltac:(lia)) as (L2 & EL & Hnext).
  destruct (p_items page) as [|i its] eqn:Ei.
  { apply Hnone. destruct (p_next_after page); [by destruct Hnext as [[] _]|]. subst L2. by rewrite EL. }
  set (items := i :: its) in *. pose proof (listing_jobs m1 shard after L HL1) as HFL. rewrite EL in HFL.
  assert (length L = length items + length L2)%nat as EN by (by rewrite EL, length_app, length_map).
  apply (goes_bind 0 _ _ _ _ _ _ (goes_page m1 o1 items L2 Hat1 HFL)).
  intros cs2 m2 _ _ (-> & Hlen2 & HF2 & Hpr).
  assert (forall after' sd', remaining m1 after' sd' L2 ->
    goes (length L * (TRY_OPS G + 2)) (scan_loop q fuel opts 1 cs2 [] after' sd') m1 (fun claims m' =>
      exists r, claims_are r claims /\ scanned lease m m' o shard (map cd_job_id cs ++ ids_of L) r)) as Hgo.
  { intros after' sd' HL2. unfold items in EN, Hlen2. cbn [length] in EN, Hlen2.
    eapply (goes_mono (SCAN_OPS (length cs2) (length L2))); [| |apply IH; [done|done|done|lia]].
    - unfold SCAN_OPS. rewrite EN.
      pose proof (Nat.mul_le_mono_r _ _ (TRY_OPS G) Hlen2). lia.
    - intros claims m' _ _ (r & Hr & Hsc2). exists r. split; [done|].
      apply (scanned_app lease m m1); [done|]. intros o2 _ Hall2.
      assert (o2 = o1) as -> by (pose proof (Hall2 0) as E; rewrite Hall in E; by injection E).
      assert (ids_of L = ids_of (map l_key items) ++ ids_of L2) as -> by (rewrite EL; apply omap_app).
      destruct Hsc2 as (base & Hsc2). exists base.
      by rewrite (scan_pruned lease base _ _ o1 (pruned_app o1 _ _ _ _ Hpr (pruned_refl o1 (ids_of L2)))). }
  destruct (p_next_after page) as [k|]; apply Hgo; [apply Hnext|exact Hnext].
Qed.

(* ---------------------------------------------------------------- *)
(** ** The whole scan *)

#[export] Instance shard_of_dec j s : Decision (shard_of q j s).
Proof. unfold shard_of. apply _. Defined.

(** The shard's jobs, as the oracle's driver goes through them: by id. *)
Definition shard_ids (o : Oracle) (s : Z) : list bytes :=
  filter (fun j => shard_of q j s) (merge_sort bytes_le (map_to_list (jobs o)).*1).

Lemma elem_of_shard_ids o s j : j ∈ shard_ids o s <-> shard_of q j s /\ is_Some (jobs o !! j).
Proof.
  unfold shard_ids. rewrite list_elem_of_filter, merge_sort_Permutation, list_elem_of_fmap. split.
  - intros (Hs & [j' st] & -> & Hj%elem_of_map_to_list). by eauto.
  - intros [Hsh [st Hj]]. split; [done|]. exists (j, st). split; [done|]. by apply elem_of_map_to_list.
Qed.

Lemma shard_ids_sorted o s : StronglySorted bytes_lt (shard_ids o s).
Proof.
  apply strictly_sorted_filter, strictly_sorted; [apply (StronglySorted_merge_sort bytes_le)|].
  rewrite merge_sort_Permutation. apply NoDup_fst_map_to_list.
Qed.

(** A listing of the jobs plane names the shard's jobs, in order. *)
Lemma ids_of_listing m o s L :
  is_u16 s -> tracks m o -> listing m (jobs_prefix s) None L -> ids_of L = shard_ids o s.
Proof.
  intros Hs Ht HL. pose proof (listing_jobs m s None L HL) as HF. destruct HL as [Hsort HL].
  apply strictly_sorted_ext; [|apply shard_ids_sorted|].
  - clear HL. induction Hsort as [|k L Hsort IH Hk]; [constructor|]. apply Forall_cons in HF as [[_ Hp] HF].
    unfold ids_of. cbn. fold (ids_of L). destruct (job_of_key k) as [j|] eqn:Ej; [|by apply IH].
    constructor; [by apply IH|]. apply Forall_forall. intros j' (k' & Hk' & Ej')%list_elem_of_omap.
    rewrite Forall_forall in HF, Hk. destruct (HF k' Hk') as [_ Hp']. specialize (Hk k' Hk').
    apply (job_of_key_iff s k j Hs Hp) in Ej as [Hj ->]. apply (job_of_key_iff s k' j' Hs Hp') in Ej' as [Hj' ->].
    by eapply job_keys_lt.
  - intros j. rewrite elem_of_shard_ids. destruct Ht as (Hall & Hplane & _). split.
    + intros (k & Hk & Ej)%list_elem_of_omap. rewrite Forall_forall in HF. destruct (HF k Hk) as [Hp Hst].
      apply (job_of_key_iff s k j Hs Hst) in Ej as [Hj ->]. by apply Hplane.
    + intros [Hsh [st Est]]. destruct (Hall j st Est) as (Hj & s' & Hs' & (job & (e & r & He & _) & _) & _).
      assert (s' = s) as -> by (unfold shard_of in *; congruence).
      apply list_elem_of_omap. exists (absolute q (KJob s j)). split.
      * apply HL. split; [by exists e|]. split; [apply jobs_prefix_of|done].
      * apply (job_of_key_iff s); [done|apply jobs_prefix_of|done].
Qed.

Lemma listing_size m prefix after L : listing m prefix after L -> (length L <= size m)%nat.
Proof.
  intros [Hs HL]. rewrite <- (length_map_to_list m), <- (length_fmap fst). apply submseteq_length, NoDup_submseteq.
  - by apply strictly_sorted_nodup.
  - intros k [[e He] _]%HL. apply list_elem_of_fmap. exists (k, e). split; [done|]. by apply elem_of_map_to_list.
Qed.

Lemma goes_budget_loop {A} n (f : nat -> M A) m Q :
  (forall fuel, (n < fuel)%nat -> goes n (f fuel) m Q) -> goes n (budget_loop f) m Q.
Proof. intros Hf s Hc Hm Hb. unfold budget_loop. apply Hf; [lia|done..]. Qed.

Definition claim_of (r : ClaimOutcome) : option Claim := match r with Claimed c => Some c | Empty => None end.

Lemma goes_claim m o :
  at_scan m o -> goes (SCAN_OPS 0 (size m)) (claim q opts) m (fun r m' =>
    scanned lease m m' o shard (shard_ids o shard) (claim_of r)).
Proof.
  intros Hat. destruct (listing_exists m (jobs_prefix shard) None) as [L HL].
  pose proof (listing_size _ _ _ _ HL) as Hsize.
  assert (SCAN_OPS 0 (length L) <= SCAN_OPS 0 (size m))%nat as Hcost.
  { unfold SCAN_OPS. pose proof (Nat.mul_le_mono_r _ _ (TRY_OPS G + 2) Hsize). lia. }
  apply (goes_cost (SCAN_OPS 0 (length L) + 0)); [lia|]. unfold claim, claim_many.
  eapply (goes_bind _ 0).
  - apply goes_budget_loop. intros fuel Hfuel. apply (goes_scan_loop fuel L [] None false m o Hat); [constructor|done|].
    unfold SCAN_OPS in Hfuel. nia.
  - intros cs m' _ HI' (r & -> & Hsc). apply goes_ret; [done|].
    cbn [map app] in Hsc. rewrite (ids_of_listing m o shard L Hshard (proj1 (proj2 Hat)) HL) in Hsc. by destruct r.
Qed.
End Loop.
End Scan.
