(* ===== verification/Holders.v ===== *)
(** The operations on a job agree with the logical oracle.

    Enqueuing and what the holder of a claim may do (renew, commit an output,
    ack, nack, bury), in a calm run from a key space that tracks an oracle:
    each ends as the oracle's operation does, and the key space it leaves
    tracks the oracle that made the same move. *)

From S2P Require Import Prelude Sha256 StowqMath Keys Records Direct Store Oracle Effects Rely Queue Claims.
From S2P Require Import Protocol Lifecycle Custody Calm Pages Tracking Agreement Scan.

Section Holders.
Context `{Sha256} (q : Queue) (Hq : handle_ok q) (Hhints : hints_enabled q = false).
#[local] Abbreviation root := (q_root q).
#[local] Abbreviation qid := (o_queue_id (q_opts q)).
#[local] Abbreviation Inv := (Inv root qid).
#[local] Abbreviation holds := (holds_at root qid).
#[local] Abbreviation rely := (rely root qid).
#[local] Abbreviation absent := (absent q).
#[local] Abbreviation custody := (custody q).
#[local] Abbreviation tracked := (tracked q).
#[local] Abbreviation tracks := (tracks q).
#[local] Abbreviation only_at := (only_at q).
#[local] Abbreviation goes := (goes q).

(* ---------------------------------------------------------------- *)
(** ** A claim in hand *)

(** The claim is the job's custody, for the store and for the oracle. *)
Definition lease_end (c : Claim) : Z := saturating_add (cl_claim_store_time_ns c) (cl_lease_duration_ns c).
Definition in_hand (m : Space) (o : Oracle) (c : Claim) : Prop :=
  held q c m /\ shard_of q (cl_job_id c) (cl_shard c) /\
  exists st, jobs o !! cl_job_id c = Some st /\
    phase st = PClaimed (cl_generation c) (cl_attempt c) (lease_end c).

(** What a claim in hand says of the key space. *)
Record in_custody (m : Space) (o : Oracle) (c : Claim) (st : JobState) (job : JobRecord) : Prop := {
  ic_state : jobs o !! cl_job_id c = Some st;
  ic_phase : phase st = PClaimed (cl_generation c) (cl_attempt c) (lease_end c);
  ic_id : is_id (cl_job_id c);
  ic_u16 : is_u16 (cl_shard c);
  ic_job : job_at q (cl_shard c) (cl_job_id c) job m;
  ic_max : j_maximum_attempts job = maximum_attempts st;
  ic_due : default 0 (j_not_before_ns job) <= o_clock o;
  ic_custody : custody m (cl_shard c) (cl_job_id c) (cl_generation c) (cl_attempt c) (lease_end c);
  ic_no_fail : absent m (KFail (cl_shard c) (cl_job_id c) (cl_generation c));
  ic_open : open_job q m (cl_shard c) (cl_job_id c);
  ic_output : output_tracked q m (cl_job_id c) (output st)
}.

Lemma in_hand_custody m o c : tracks m o -> in_hand m o c -> exists st job, in_custody m o c st job.
Proof.
  intros (Hall & _) (Hh & Hsh & st & Est & Ep). destruct (Hall _ _ Est) as (Hj & s' & Hs' & Htr).
  assert (s' = cl_shard c) as -> by (unfold shard_of in *; congruence).
  destruct Htr as [(job & Hjob & Hmax & Hp) Hout]. rewrite Ep in Hp. destruct Hp as (Hnb & Hc & Hf & Hop).
  exists st, job. split; try done. apply Hh.
Qed.

(** Moving one job keeps the other claims in hand. *)
Lemma in_hand_other m m' o o' c :
  rely m m' -> jobs o' !! cl_job_id c = jobs o !! cl_job_id c -> in_hand m o c -> in_hand m' o' c.
Proof.
  intros Hm E (Hh & Hsh & st & Est & Ep). split; [by eapply kept_held|]. split; [done|]. exists st. by rewrite E.
Qed.

(** The oracle after a change of the job's phase. *)
Lemma tracks_phase m m' o c st job p k :
  tracks m o -> in_hand m o c -> in_custody m o c st job ->
  key_job k = Some (cl_job_id c) -> not_job_key k -> only_at (key_to_string k) m m' ->
  tracked (o_clock o) m' (cl_shard c) (cl_job_id c)
    {| maximum_attempts := maximum_attempts st; phase := p; output := output st |} ->
  tracks m' (set_phase o (cl_job_id c) st p).
Proof.
  intros Ht (_ & Hsh & _) Hc Hk Hnk Ho Htr. eapply (tracks_moved q m m' o _ (cl_shard c) (cl_job_id c)); try done.
  - apply Hc.
  - intros j' Hne. cbn. by rewrite lookup_insert_ne.
  - cbn. by rewrite lookup_insert_eq.
Qed.

(** One job's move, from one oracle state to the next. *)
Record moved (m m' : Space) (o o' : Oracle) (j : bytes) : Prop := {
  mv_tracks : tracks m' o';
  mv_clock : o_clock o' = o_clock o;
  mv_others : forall j', j' <> j -> jobs o' !! j' = jobs o !! j';
  mv_hands : forall c, cl_job_id c <> j -> in_hand m o c -> in_hand m' o' c;
  mv_chains : forall G, 0 <= G -> chains_below q m G -> chains_below q m' (G + 1)
}.

Lemma moved_of m m' o o' j s0 :
  rely m m' -> Inv m -> only_at s0 m m' -> tracks m' o' -> o_clock o' = o_clock o ->
  (forall j', j' <> j -> jobs o' !! j' = jobs o !! j') -> moved m m' o o' j.
Proof.
  intros Hm HI Hs Ht Hc Ho. split; try done.
  - intros c Hne. apply in_hand_other; auto.
  - intros G HG. apply (chains_grow q m m' s0); [by eapply rely_inv|done|done].
Qed.

Lemma moved_phase m m' o c st job p k :
  rely m m' -> Inv m -> tracks m o -> in_hand m o c -> in_custody m o c st job ->
  key_job k = Some (cl_job_id c) -> not_job_key k -> only_at (key_to_string k) m m' ->
  tracked (o_clock o) m' (cl_shard c) (cl_job_id c)
    {| maximum_attempts := maximum_attempts st; phase := p; output := output st |} ->
  moved m m' o (set_phase o (cl_job_id c) st p) (cl_job_id c).
Proof.
  intros Hm HI Ht Hi Hc Hk Hnk Ho Htr. eapply moved_of; [done|done|done|by eapply tracks_phase|done|].
  intros j' Hne. cbn. by rewrite lookup_insert_ne.
Qed.

(* ---------------------------------------------------------------- *)
(** ** Renewing *)

Lemma does_any_present_none rels m :
  Forall (fun k => absent m k) rels ->
  ends q (length rels) (any_present q rels) m (fun b m' => m' = m /\ b = false).
Proof.
  induction 1 as [|k rels Hk _ IH]; cbn [any_present length]; [by apply does_ret|].
  apply (ends_bind q 1 (length rels) _ _ _ _ _ (does_spend q m)). intros [] ? _ ->.
  apply (ends_bind q 0 _ _ _ _ _ _ (does_head q _ m)). intros r ? _ [-> ->]. by rewrite head_absent.
Qed.

(** What the store holds after a renewal. *)
Definition renewed (m m' : Space) (c c' : Claim) : Prop :=
  cl_job_id c' = cl_job_id c /\ cl_shard c' = cl_shard c /\ cl_generation c' = cl_generation c + 1 /\
  cl_attempt c' = cl_attempt c /\ cl_lease_duration_ns c' = cl_lease_duration_ns c /\
  cl_payload c' = cl_payload c /\
  let k := KClaim (cl_shard c) (cl_job_id c) (cl_generation c + 1) in
  only_at (key_to_string k) m m' /\
  holds m' k (fun e r => exists rec, r = RecClaim rec /\ c_attempt rec = cl_attempt c /\
    lease_end c' = saturating_add (e_time e) (c_lease_duration_ns rec)).

Lemma does_renew m o c st job :
  Inv m -> held q c m -> in_custody m o c st job -> cl_generation c + 1 < u32_max ->
  ends q 5 (renew q c) m (fun r m' => exists c', r = Renewed c' /\ renewed m m' c c').
Proof.
  intros HI Hh Hc Hlt. pose proof (ic_custody _ _ _ _ _ Hc) as (Hg & Hn & _). destruct (ic_open _ _ _ _ _ Hc) as [Hr Hd].
  unfold renew. rewrite (proj2 (Z.leb_gt _ _)) by lia.
  assert (Forall (fun k => absent m k) [KReceipt (cl_shard c) (cl_job_id c); KDead (cl_shard c) (cl_job_id c)]) as Hnone
    by (by repeat constructor).
  apply (ends_bind q 2 3 _ _ _ _ _ (does_any_present_none _ m Hnone)).
  intros b ? _ [-> ->]. rewrite as_u32_small by lia. cbv zeta.
  set (k := KClaim (cl_shard c) (cl_job_id c) (cl_generation c + 1)) in *.
  apply (ends_bind q 1 2 _ _ _ _ _ (does_spend q m)). intros [] ? _ ->.
  destruct (renewal_ok q Hq c m HI Hh ltac:(lia)) as (Hw & Hv & _).
  apply (ends_bind q 1 1 _ _ _ _ _ (does_put_new q k _ m Hn)). intros r m1 Hm1 [-> Hcr].
  destruct (created_holds q Hq m m1 k _ Hw Hv Hcr) as (e & r & He & Hde & -> & Htime).
  change (at_key root k) with (absolute q k) in He.
  apply (ends_bind q 1 0 _ _ _ _ _ (does_spend q m1)). intros [] ? _ ->.
  apply (ends_bind q 0 0 _ _ _ _ _ (does_head q _ m1)). intros r ? _ [-> ->]. unfold head_answer. rewrite He.
  apply (ends_bind q 0 0 _ _ _ _ _ (does_store_ok q _ _ m1 eq_refl)). intros meta ? _ [-> ->].
  unfold update_tail_hint. rewrite Hhints. cbn [negb].
  apply (ends_bind q 0 0 _ _ _ (fun _ m' => m' = m1)); [by apply does_ret|]. intros [] ? _ ->.
  apply does_ret. eexists. split; [reflexivity|]. do 6 (split; [done|]).
  split; [by eapply only_at_created|]. exists e. eexists. split; [exact He|]. split; [exact Hde|].
  eexists. split; [reflexivity|]. done.
Qed.

Definition oracle_renewed (o : Oracle) (c c' : Claim) : Oracle :=
  override_expiry (oracle_renew o (cl_job_id c) (cl_lease_duration_ns c)).2 (cl_job_id c)
    (cl_claim_store_time_ns c') (cl_lease_duration_ns c).

Lemma set_phase_twice o j st p p' :
  set_phase (set_phase o j st p) j {| maximum_attempts := maximum_attempts st; phase := p; output := output st |} p'
  = set_phase o j st p'.
Proof. unfold set_phase. cbn. f_equal. by rewrite insert_insert_eq. Qed.

Lemma oracle_renewed_eq o c c' st :
  jobs o !! cl_job_id c = Some st -> phase st = PClaimed (cl_generation c) (cl_attempt c) (lease_end c) ->
  0 <= cl_generation c < u32_max -> cl_lease_duration_ns c' = cl_lease_duration_ns c ->
  (oracle_renew o (cl_job_id c) (cl_lease_duration_ns c)).1 = true /\
  oracle_renewed o c c' = set_phase o (cl_job_id c) st (PClaimed (cl_generation c + 1) (cl_attempt c) (lease_end c')).
Proof.
  intros Ej Ep Hg El. unfold oracle_renewed, oracle_renew. rewrite Ej, Ep. cbn [fst snd]. split; [done|].
  rewrite wrapping_add_small by lia. unfold override_expiry. cbn. rewrite lookup_insert_eq. cbn.
  rewrite set_phase_twice. unfold lease_end. by rewrite El.
Qed.

Lemma goes_renew m o c :
  Inv m -> tracks m o -> in_hand m o c -> cl_generation c + 1 < u32_max ->
  goes 5 (renew q c) m (fun r m' => exists c', r = Renewed c' /\
    (oracle_renew o (cl_job_id c) (cl_lease_duration_ns c)).1 = true /\
    moved m m' o (oracle_renewed o c c') (cl_job_id c) /\ in_hand m' (oracle_renewed o c c') c' /\
    renewed m m' c c').
Proof.
  intros HI Ht Hi Hlt. destruct (in_hand_custody m o c Ht Hi) as (st & job & Hc). pose proof Hi as (Hh & Hsh & _).
  eapply goes_mono; [reflexivity| |exact (goes_both q 5 _ m _ _ HI (spec_renew q Hq c m Hh) (does_renew m o c st job HI Hh Hc Hlt))].
  intros r m' Hsub _ ((c' & -> & Hren) & (Hh' & _) & Hm). exists c'. split; [done|].
  pose proof Hren as (E1 & E2 & E3 & E4 & E5 & _ & Ho & Hcl). cbv zeta in Ho, Hcl.
  pose proof (ic_custody _ _ _ _ _ Hc) as (Hg & Hn & _).
  destruct (oracle_renewed_eq o c c' st (ic_state _ _ _ _ _ Hc) (ic_phase _ _ _ _ _ Hc) ltac:(lia) E5) as [Hok ->].
  split; [done|]. split; [|split; [|done]].
  - apply (moved_phase m m' o c st job _ (KClaim (cl_shard c) (cl_job_id c) (cl_generation c + 1))); try done.
    destruct Hc. eapply (next_tracked q); try (done || lia).
  - split; [done|]. rewrite E1, E2. split; [done|]. eexists. cbn. rewrite lookup_insert_eq.
    split; [reflexivity|]. cbn. by rewrite E3, E4.
Qed.

(* ---------------------------------------------------------------- *)
(** ** Acknowledging *)

(** A detached payload is where the claim says. *)
Definition payload_ready (m : Space) (c : Claim) : Prop :=
  match cl_payload c with
  | Inline _ => True
  | Detached k d len => exists e, m !! k = Some e /\ Z.of_nat (length (e_body e)) = len /\ sha256 (e_body e) = d
  end.
Definition outputs_ready (m : Space) (c : Claim) (outs : list CommittedOutput) : Prop :=
  Forall (fun out => prefixed q c out /\ output_stored out m) outs.

Lemma bytes_eqb_same (b : bytes) : bytes_eqb b b = true.
Proof. by apply bool_decide_true. Qed.

Lemma does_payload m c : payload_ready m c -> ends q 0 (payload c) m (fun _ m' => m' = m).
Proof.
  unfold payload, payload_ready. destruct (cl_payload c) as [b|k d len]; [intros; by apply does_ret|].
  intros (e & He & <- & <-). apply (ends_bind q 0 0 _ _ _ _ _ (does_get q k m)). intros r ? _ [-> ->].
  unfold get_answer. rewrite He. apply (ends_bind q 0 0 _ _ _ _ _ (does_store_ok q _ _ m eq_refl)).
  intros obj ? _ [-> ->]. cbn [o_body]. rewrite Z.eqb_refl, bytes_eqb_same. cbn [negb]. by apply does_ret.
Qed.

Lemma does_verify_outputs m c outs :
  outputs_ready m c outs -> ends q (length outs) (for_each outs (verify_output q c)) m (fun _ m' => m' = m).
Proof.
  induction 1 as [|out outs [[name Ek] (e & He & Ed)] _ IH]; cbn [for_each length]; [by apply does_ret|].
  eapply (ends_bind q 1 (length outs) _ _ _ (fun _ m' => m' = m)); [|by intros ? ? _ ->].
  unfold verify_output. cbv zeta.
  rewrite (proj2 (starts_with_iff _ _)). 2: { exists name. rewrite Ek. unfold output_key. by rewrite <- !app_assoc. }
  cbn [negb]. eapply (ends_bind q 1 0); [apply does_try, does_read_retrying|].
  intros r ? _ Hr. rewrite He in Hr. destruct r as [obj|]; [|by destruct Hr].
  destruct Hr as [-> [= ->]]. cbn [o_body]. rewrite Ed, bytes_eqb_same. cbn [negb]. by apply does_ret.
Qed.

Definition ACK_OPS (n : nat) : nat := 17 + n.

Lemma does_ack m o c st job outs :
  in_custody m o c st job -> payload_ready m c -> outputs_ready m c outs ->
  ends q (ACK_OPS (length outs)) (ack_with_outputs q c outs) m (fun r m' => r = Acked /\
    only_at (key_to_string (KReceipt (cl_shard c) (cl_job_id c))) m m' /\
    is_Some (m' !! absolute q (KReceipt (cl_shard c) (cl_job_id c)))).
Proof.
  intros Hc Hp Hout. destruct (ic_open _ _ _ _ _ Hc) as [Hr Hd]. unfold ack_with_outputs, ack_inner, ACK_OPS.
  apply (ends_bind q 1 (16 + length outs) _ _ _ _ _ (does_spend q m)). intros [] ? _ ->.
  apply (ends_bind q 1 (15 + length outs) _ _ _ _ _ (does_spend q m)). intros [] ? _ ->.
  apply (ends_bind q 0 (15 + length outs) _ _ _ _ _ (does_head q _ m)). intros r ? _ [-> ->].
  rewrite head_absent by done.
  apply (ends_bind q 0 (15 + length outs) _ _ _ _ _ (does_try q _ _ _ _ (does_payload m c Hp))).
  intros [b|] ? _; [|by intros []]. intros ->.
  eapply (ends_bind q 0 (15 + length outs) _ _ _ (fun b' m' => m' = m)); [by apply does_ret|]. intros b' ? _ ->. cbv zeta.
  apply (does_cost q (length outs + 15)); [lia|].
  apply (ends_bind q _ 15 _ _ _ _ _ (does_verify_outputs m c outs Hout)). intros [] ? _ ->.
  apply (ends_bind q 1 14 _ _ _ _ _ (does_spend q m)). intros [] ? _ ->.
  apply (ends_bind q 1 TERMIDX_OPS _ _ _ _ _ (does_put_new q _ _ m Hr)). intros r m1 _ [-> Hcr].
  apply (ends_bind q TERMIDX_OPS 0 _ _ _ _ _ (does_write_termidx q _ _ _ m1)). intros [] m2 Hm2 Hs.
  apply does_ret. split; [done|]. split; [exact (only_at_trans q _ m m1 m2 (only_at_created q _ _ _ _ Hcr) Hs)|].
  destruct Hcr as (v & t & _ & ->). eexists. eapply lookup_weaken; [apply space_insert|exact Hm2].
Qed.

Lemma oracle_ack_eq o c st g a x :
  jobs o !! cl_job_id c = Some st -> phase st = PClaimed g a x ->
  oracle_ack o (cl_job_id c) = (true, set_phase o (cl_job_id c) st (PTerminal TermReceipt)).
Proof. intros Ej Ep. unfold oracle_ack. by rewrite Ej, Ep. Qed.

Lemma goes_ack m o c outs :
  Inv m -> tracks m o -> in_hand m o c -> outputs_ok outs -> payload_ready m c -> outputs_ready m c outs ->
  goes (ACK_OPS (length outs)) (ack_with_outputs q c outs) m (fun r m' => r = Acked /\
    (oracle_ack o (cl_job_id c)).1 = true /\ moved m m' o (oracle_ack o (cl_job_id c)).2 (cl_job_id c) /\
    receipted q c outs (fun x => r_worker_token x = cl_worker_token c) m').
Proof.
  intros HI Ht Hi Hok Hp Hout. destruct (in_hand_custody m o c Ht Hi) as (st & job & Hc).
  eapply goes_mono; [reflexivity| |exact (goes_both q _ _ m _ _ HI (spec_ack q Hq c outs m (proj1 Hi) Hok) (does_ack m o c st job outs Hc Hp Hout))].
  intros r m' Hsub _ ((-> & Ho & He) & Hrcp & Hm).
  rewrite (oracle_ack_eq _ _ _ _ _ _ (ic_state _ _ _ _ _ Hc) (ic_phase _ _ _ _ _ Hc)). cbn [fst snd].
  split; [done|]. split; [done|]. split; [|exact Hrcp].
  apply (moved_phase m m' o c st job _ (KReceipt (cl_shard c) (cl_job_id c))); try done.
  destruct Hc as [? ? ? ? Hjob ? ? ? ? [_ Hd] ?]. split; [|by eapply output_only_at].
  exists job. split; [by eapply job_at_mono|]. split; [done|]. cbn. split; [done|].
  eapply (only_at_absent q _ _ _ _ (cl_job_id c) Ho); [done|by apply plane_ne|done].
Qed.

(* ---------------------------------------------------------------- *)
(** ** Burying *)

Definition buried_record (c : Claim) (reason : Z) : Record_ :=
  RecDead {| d_job_id := cl_job_id c; d_generation := cl_generation c; d_attempt := cl_attempt c; d_reason := reason |}.

Lemma does_bury m o c st job reason :
  Inv m -> held q c m -> is_u64 reason -> in_custody m o c st job ->
  ends q 16 (bury q c reason) m (fun r m' => r = Buried /\
    only_at (key_to_string (KDead (cl_shard c) (cl_job_id c))) m m' /\
    holds m' (KDead (cl_shard c) (cl_job_id c)) (fun _ r => r = buried_record c reason)).
Proof.
  intros HI Hh Hreason Hc. destruct (ic_open _ _ _ _ _ Hc) as [Hr Hd]. unfold bury.
  destruct (dead_ok q Hq c reason m HI Hh Hreason) as [Hw _].
  apply (ends_bind q 1 15 _ _ _ _ _ (does_spend q m)). intros [] ? _ ->.
  apply (ends_bind q 0 15 _ _ _ _ _ (does_head q _ m)). intros r ? _ [-> ->].
  rewrite head_absent by done. cbv zeta.
  apply (ends_bind q 1 14 _ _ _ _ _ (does_spend q m)). intros [] ? _ ->.
  apply (ends_bind q 1 TERMIDX_OPS _ _ _ _ _ (does_put_new q _ _ m Hd)). intros r m1 _ [-> Hcr].
  apply (ends_bind q TERMIDX_OPS 0 _ _ _ _ _ (does_write_termidx q _ _ _ m1)). intros [] m2 Hm2 Hs.
  apply does_ret. split; [done|]. split; [exact (only_at_trans q _ m m1 m2 (only_at_created q _ _ _ _ Hcr) Hs)|].
  destruct (created_holds q Hq m m1 _ _ Hw I Hcr) as (e & r & He & Hde & -> & _).
  exists e. eexists. split; [by eapply lookup_weaken|]. split; [exact Hde|done].
Qed.

Lemma oracle_bury_eq o c st g a x reason :
  jobs o !! cl_job_id c = Some st -> phase st = PClaimed g a x ->
  oracle_bury o (cl_job_id c) reason = (true, set_phase o (cl_job_id c) st (PTerminal (TermDead reason))).
Proof. intros Ej Ep. unfold oracle_bury. by rewrite Ej, Ep. Qed.

Lemma goes_bury m o c reason :
  Inv m -> tracks m o -> in_hand m o c -> is_u64 reason ->
  goes 16 (bury q c reason) m (fun r m' => r = Buried /\
    (oracle_bury o (cl_job_id c) reason).1 = true /\ moved m m' o (oracle_bury o (cl_job_id c) reason).2 (cl_job_id c)).
Proof.
  intros HI Ht Hi Hreason. destruct (in_hand_custody m o c Ht Hi) as (st & job & Hc).
  eapply goes_mono; [reflexivity| |exact (goes_both q _ _ m _ _ HI (spec_bury q Hq c reason m (proj1 Hi) Hreason) (does_bury m o c st job reason HI (proj1 Hi) Hreason Hc))].
  intros r m' Hsub _ ((-> & Ho & He) & _ & Hm).
  rewrite (oracle_bury_eq _ _ _ _ _ _ _ (ic_state _ _ _ _ _ Hc) (ic_phase _ _ _ _ _ Hc)). cbn [fst snd].
  split; [done|]. split; [done|].
  apply (moved_phase m m' o c st job _ (KDead (cl_shard c) (cl_job_id c))); try done.
  destruct Hc as [? ? ? ? Hjob ? ? ? ? [Hr _] ?]. split; [|by eapply output_only_at].
  exists job. split; [by eapply job_at_mono|]. split; [done|]. cbn. split.
  - eapply (only_at_absent q _ _ _ _ (cl_job_id c) Ho); [done|by apply plane_ne|done].
  - eapply holds_mono; [|exact He]. intros e r ->. by eexists.
Qed.

(* ---------------------------------------------------------------- *)
(** ** Giving back *)

(** When the job becomes claimable again. *)
Definition nack_until (c : Claim) (floor : Z) : option Z :=
  match retry_delay_ms qid (cl_job_id c) (Z.min (cl_attempt c) u32_max) (o_retry (q_opts q)) with
  | Ok delay => retry_not_before floor (wrapping_mul delay 1000000)
  | Err _ => None
  end.
Definition nacked_record (c : Claim) (reason n : Z) : Record_ :=
  RecFail {| f_job_id := cl_job_id c; f_generation := cl_generation c; f_reason := reason;
             f_attempt := cl_attempt c; f_retry_not_before_ns := n |}.

Lemma nack_until_u64 c floor n : is_u64 floor -> nack_until c floor = Some n -> is_u64 n.
Proof.
  unfold nack_until, retry_not_before. destruct (retry_delay_ms _ _ _ _) as [d|]; [|done]. intros Hf Hn.
  destruct (checked_add floor _) as [x|] eqn:Hd; [|done].
  apply checked_add_some in Hd as [-> Hd]. cbn in Hn. destruct (_ <? _); [done|]. injection Hn as <-.
  unfold is_u64, wrapping_mul in *. pose proof (Z.mod_pos_bound (d * 1000000) (2 ^ 64) ltac:(lia)). lia.
Qed.

Lemma does_nack m o c st job reason floor n :
  Inv m -> held q c m -> is_u64 reason -> is_u64 floor -> in_custody m o c st job -> nack_until c floor = Some n ->
  ends q 3 (nack q c reason floor) m (fun _ m' =>
    only_at (key_to_string (KFail (cl_shard c) (cl_job_id c) (cl_generation c))) m m' /\
    holds m' (KFail (cl_shard c) (cl_job_id c) (cl_generation c)) (fun _ r => r = nacked_record c reason n)).
Proof.
  intros HI Hh Hreason Hfloor Hc Hn. pose proof (nack_until_u64 _ _ _ Hfloor Hn) as Hn64.
  pose proof (ic_custody _ _ _ _ _ Hc) as (Hg & _). pose proof (held_facts q c m HI Hh) as (_ & Hat & _).
  unfold nack. unfold nack_until in Hn.
  destruct (retry_delay_ms qid _ _ _) as [d|]; [|done].
  apply (ends_bind q 0 3 _ _ _ (fun x m' => m' = m /\ x = d)); [by apply does_ret|]. intros x ? _ [-> ->].
  apply (ends_bind q 0 3 _ _ _ (fun x m' => m' = m /\ x = n)); [rewrite Hn; by apply does_ret|]. intros x ? _ [-> ->].
  cbv zeta. rewrite as_u32_small by lia.
  assert (record_wf (nacked_record c reason n)) as Hw.
  { cbn. destruct Hh as (_ & Hj & _). unfold is_u64 in *. split_and!; done || lia. }
  apply (ends_bind q 1 2 _ _ _ _ _ (does_spend q m)). intros [] ? _ ->.
  apply (ends_bind q 1 1 _ _ _ _ _ (does_put_new q _ (nacked_record c reason n) m (ic_no_fail _ _ _ _ _ Hc))).
  intros r m1 _ [-> Hcr]. destruct (created_holds q Hq m m1 _ _ Hw I Hcr) as (e & r & He & Hde & -> & _).
  eapply ends_mono with (P := fun _ m2 => same_core q m1 m2).
  - intros [] m2 Hm2 Hs. split; [exact (only_at_trans q _ m m1 m2 (only_at_created q _ _ _ _ Hcr) Hs)|].
    exists e. eexists. split; [by eapply lookup_weaken|]. split; [exact Hde|done].
  - destruct (bucket_number _ _) as [b|]; [|apply (does_cost q 0); [lia|by apply does_ret]].
    apply (ends_bind q 1 0 _ _ _ _ _ (does_spend q m1)). intros [] ? _ ->. by apply does_put_index, not_core.
Qed.

Lemma oracle_nack_eq o c st g a x n :
  jobs o !! cl_job_id c = Some st -> phase st = PClaimed g a x ->
  oracle_nack o (cl_job_id c) n = (true, set_phase o (cl_job_id c) st (Backoff g a n)).
Proof. intros Ej Ep. unfold oracle_nack. by rewrite Ej, Ep. Qed.

Lemma goes_nack m o c reason floor n :
  Inv m -> tracks m o -> in_hand m o c -> is_u64 reason -> is_u64 floor ->
  nack_until c floor = Some n -> lease_end c <= n ->
  goes 3 (nack q c reason floor) m (fun _ m' =>
    (oracle_nack o (cl_job_id c) n).1 = true /\ moved m m' o (oracle_nack o (cl_job_id c) n).2 (cl_job_id c)).
Proof.
  intros HI Ht Hi Hreason Hfloor Hn Hle. destruct (in_hand_custody m o c Ht Hi) as (st & job & Hc).
  eapply goes_mono; [reflexivity| |exact (goes_both q _ _ m _ _ HI (spec_nack q Hq c reason floor m (proj1 Hi) Hreason Hfloor)
    (does_nack m o c st job reason floor n HI (proj1 Hi) Hreason Hfloor Hc Hn))].
  intros r m' Hsub _ ((Ho & He) & _ & Hm).
  rewrite (oracle_nack_eq _ _ _ _ _ _ _ (ic_state _ _ _ _ _ Hc) (ic_phase _ _ _ _ _ Hc)). cbn [fst snd].
  split; [done|]. set (k := KFail (cl_shard c) (cl_job_id c) (cl_generation c)) in *.
  apply (moved_phase m m' o c st job _ k); try done.
  destruct Hc as [? ? ? ? Hjob ? ? [Hg [Hnext Hcl]] ? [Hr Hd] ?]. split; [|by eapply output_only_at].
  exists job. split; [by eapply job_at_mono|]. split; [done|]. cbn. split; [done|].
  assert (forall k', key_job k' = Some (cl_job_id c) -> head (segments k') <> head (segments k) ->
    absent m k' -> absent m' k') as Ha.
  { intros k' Hk' Hne. eapply (only_at_absent q); [exact Ho|done|by apply plane_ne]. }
  split; [|split; [|split; by apply Ha]].
  - exists (lease_end c). split; [done|]. split; [done|]. split; [by apply Ha|].
    destruct Hcl as (e & r' & Hl & Hde & HP). exists e, r'. split; [by eapply lookup_weaken|done].
  - eapply holds_mono; [|exact He]. intros e r' ->. by eexists.
Qed.

(* ---------------------------------------------------------------- *)
(** ** Committing an output *)

Definition output_of (c : Claim) (d : bytes) : CommittedOutput :=
  {| out_key := output_key q (cl_job_id c) ¶"result"; out_digest := d |}.

(** The first commit writes, a later one of the same bytes converges. *)
Definition commit_answer (c : Claim) (st : JobState) (d : bytes) : CommitOutcome :=
  match output st with None => OutCommitted (output_of c d) | Some _ => Converged (output_of c d) end.

Lemma does_commit m o c st job body :
  in_custody m o c st job -> (forall d, output st = Some d -> d = sha256 body) ->
  ends q 2 (commit_output q c ¶"result" body) m (fun r m' => r = commit_answer c st (sha256 body) /\
    match output st with
    | None => created (output_key q (cl_job_id c) ¶"result") body m m'
    | Some _ => m' = m
    end).
Proof.
  intros Hc Hsame. pose proof (ic_output _ _ _ _ _ Hc) as Hout. unfold commit_output, commit_answer.
  change (negb (valid_output_name ¶"result")) with false. cbv iota zeta.
  unfold RETRY_TRANSPORT_MAX. cbn [commit_output_loop].
  apply (ends_bind q 1 1 _ _ _ _ _ (does_spend q m)). intros [] ? _ ->.
  apply (ends_bind q 0 1 _ _ _ _ _ (does_put q _ body m)). intros r m1 _ Hr. unfold put_answer in Hr.
  unfold output_tracked in Hout. destruct (output st) as [d|].
  - destruct Hout as (e & He & Ed). rewrite He in Hr. destruct Hr as [-> ->]. rewrite (Hsame d eq_refl) in Ed.
    eapply (ends_bind q 1 0 _ _ _ (fun obj m' => m' = m /\ o_body obj = e_body e)).
    { eapply does_mono; [reflexivity| |apply does_read_retrying]. rewrite He.
      intros [obj|x] m' _ [-> E]; [by injection E as ->|done]. }
    intros obj ? _ [-> E]. unfold classify_output. rewrite E, Ed, bytes_eqb_same. by apply does_ret.
  - rewrite Hout in Hr. destruct Hr as [Hcr [v ->]]. apply (does_cost q 0); [lia|]. by apply does_ret.
Qed.

Lemma oracle_commit_eq o c st g a x d :
  jobs o !! cl_job_id c = Some st -> phase st = PClaimed g a x ->
  oracle_commit_output o (cl_job_id c) d =
  (true, match output st with None => set_output o (cl_job_id c) st d | Some _ => o end).
Proof. intros Ej Ep. unfold oracle_commit_output. by rewrite Ej, Ep. Qed.

Lemma tracked_output clk m m' s j st out :
  (forall k, key_job k = Some j -> m' !! absolute q k = m !! absolute q k) ->
  tracked clk m s j st -> output_tracked q m' j out ->
  tracked clk m' s j {| maximum_attempts := maximum_attempts st; phase := phase st; output := out |}.
Proof. intros Hk [Hp _] Hout. split; [|done]. by apply (phased_same q clk clk m m' s j st Hk). Qed.

Lemma moved_output m m' o c st job d :
  rely m m' -> Inv m -> tracks m o -> in_hand m o c -> in_custody m o c st job -> only_at (output_path (cl_job_id c)) m m' ->
  output_tracked q m' (cl_job_id c) (Some d) ->
  moved m m' o (set_output o (cl_job_id c) st d) (cl_job_id c) /\ in_hand m' (set_output o (cl_job_id c) st d) c.
Proof.
  intros Hm HI Ht (Hh & Hsh & Hst) Hc Ho Hout. set (o' := set_output _ _ _ _).
  assert (forall j', j' <> cl_job_id c -> jobs o' !! j' = jobs o !! j') as Hoth.
  { intros j' Hne. cbn. by rewrite lookup_insert_ne. }
  assert (forall k, m' !! absolute q k = m !! absolute q k \/ key_job k = None) as Hkeys.
  { intros k. destruct (key_job k) as [j|] eqn:Ek; [left|by right].
    apply Ho; [by eapply key_job_core|]. intros E. by apply (output_path_ne_key (cl_job_id c) k). }
  split; [|split; [by eapply kept_held|split; [done|]]].
  - eapply moved_of; try done. pose proof Ht as (Hall & _).
    destruct (Hall _ _ (ic_state _ _ _ _ _ Hc)) as (Hj & s & Hs & Htr).
    eapply (tracks_update q m m' o o' s (cl_job_id c)); try done; [|cbn; by rewrite lookup_insert_eq| |].
    + intros j' Hne. split; [by eapply only_at_output_same|by apply Hoth].
    + apply (tracked_output _ m); [|done|done]. intros k Hk. destruct (Hkeys k) as [|E]; [done|congruence].
    + intros s' _ Hp. right. destruct (Hkeys (KJob s' (cl_job_id c))) as [<-|E]; [done|discriminate E].
  - eexists. cbn. rewrite lookup_insert_eq. split; [reflexivity|]. apply Hc.
Qed.

Lemma goes_commit m o c st body :
  Inv m -> tracks m o -> in_hand m o c -> jobs o !! cl_job_id c = Some st ->
  (forall d, output st = Some d -> d = sha256 body) ->
  let o' := (oracle_commit_output o (cl_job_id c) (sha256 body)).2 in
  goes 2 (commit_output q c ¶"result" body) m (fun r m' => r = commit_answer c st (sha256 body) /\
    (oracle_commit_output o (cl_job_id c) (sha256 body)).1 = true /\
    moved m m' o o' (cl_job_id c) /\ in_hand m' o' c /\
    (output st = None -> exists e, m' !! output_key q (cl_job_id c) ¶"result" = Some e /\ e_body e = body)).
Proof.
  intros HI Ht Hi Ej Hsame. destruct (in_hand_custody m o c Ht Hi) as (st' & job & Hc).
  assert (st' = st) as -> by (pose proof (ic_state _ _ _ _ _ Hc); congruence).
  eapply goes_mono; [reflexivity| |exact (goes_both q _ _ m _ _ HI (spec_commit_output q c _ _ m) (does_commit m o c st job body Hc Hsame))].
  intros r m' Hsub _ ((-> & Hcr) & _ & Hm).
  rewrite (oracle_commit_eq _ _ _ _ _ _ _ (ic_state _ _ _ _ _ Hc) (ic_phase _ _ _ _ _ Hc)). cbn [fst snd].
  split; [done|]. split; [done|]. destruct (output st) as [d|].
  - subst m'. split; [|by split]. by apply (moved_of m m o o (cl_job_id c) []).
  - destruct Hcr as (v & t & _ & ->).
    destruct (moved_output m (<[output_key q (cl_job_id c) ¶"result" := {| e_body := body; e_version := v; e_time := t |}]> m)
      o c st job (sha256 body)) as [Hmv Hi']; try done.
    + intros s _ Hne. rewrite output_key_path, space_insert_ne; [done|]. by intros ?%(inj (app root)).
    + eexists. split; [apply space_insert|done].
    + split; [done|]. split; [done|]. intros _. eexists. split; [apply space_insert|done].
Qed.

(* ---------------------------------------------------------------- *)
(** ** Enqueuing *)

(** The job record an input makes. *)
Definition inlined (i : EnqueueInput) : bool := Z.of_nat (length (ei_payload i)) <=? inline_limit_of q.
Definition job_record (i : EnqueueInput) (j : bytes) : JobRecord :=
  {| j_job_id := j; j_maximum_attempts := ei_maximum_attempts i; j_content_type := ei_content_type i;
     j_created_store_time_ns := 0; j_not_before_ns := ei_not_before_ns i;
     j_payload_digest := sha256 (ei_payload i); j_payload_length := Z.of_nat (length (ei_payload i));
     j_payload_inline := if inlined i then Some (ei_payload i) else None;
     j_payload_key := if inlined i then None else Some (key_to_string (KPayload j (sha256 (ei_payload i)))) |}.

Lemma job_record_ok i j :
  input_ok i -> is_id j -> ei_maximum_attempts i <> 0 ->
  record_wf (RecJob (job_record i j)) /\ record_valid (RecJob (job_record i j)).
Proof. intros Hi Hj Hm. destruct (stores_record i j (inlined i) Hi Hj Hm) as (? & ? & _). done. Qed.

(** The delay index has buckets, if the input needs one. *)
Definition indexable (i : EnqueueInput) : Prop :=
  forall n, ei_not_before_ns i = Some n -> is_Some (bucket_number n (delayed_bucket_width_ns (q_format q))).

(** The answer: the id is the caller's, or another job's. *)
Definition enqueue_answer (i : EnqueueInput) (j : bytes) (found : option JobRecord) : EnqueueOutcome :=
  match found with
  | None => EnqCommitted j
  | Some job => if bool_decide (RecJob job = RecJob (job_record i j)) then EnqCommitted j else IdTaken j
  end.

Lemma does_enqueue m i j s (found : option JobRecord) :
  input_ok i -> indexable i -> ei_maximum_attempts i <> 0 -> ei_job_id i = Some j -> shard_of q j s ->
  match found with None => absent m (KJob s j) | Some job => job_at q s j job m end ->
  ends q 4 (enqueue q i) m (fun r m' => r = enqueue_answer i j found /\
    match found with
    | None => only_at (key_to_string (KJob s j)) m m' /\ job_at q s j (job_record i j) m'
    | Some _ => same_core q m m'
    end).
Proof.
  intros Hi Hwidth Hmax Ej Hs Hf. unfold enqueue. rewrite (proj2 (Z.eqb_neq _ 0)) by done.
  assert (is_id j) as Hj by (by destruct Hi as [Hi _]; apply Hi).
  destruct (job_record_ok i j Hi Hj Hmax) as [Hw Hv].
  apply (ends_bind q 0 4 _ _ _ (fun x m' => m' = m /\ x = j)); [rewrite Ej; by apply does_ret|]. intros x ? _ [-> ->].
  eapply (ends_bind q 0 4 _ _ _ (fun x m' => m' = m /\ x = s)); [rewrite Hs; by apply does_ret|]. intros x ? _ [-> ->].
  cbv zeta. fold (inlined i).
  eapply (ends_bind q 1 3 _ _ _ (fun p m' => same_core q m m' /\
    p = (if inlined i then Some (ei_payload i) else None,
         if inlined i then None else Some (key_to_string (KPayload j (sha256 (ei_payload i))))))).
  { destruct (inlined i); [apply (does_cost q 0); [lia|]; apply does_ret; by split|].
    apply (ends_bind q 1 0 _ _ _ _ _ (does_put_bytes q _ _ m)). intros [] m1 _ Hc. apply does_ret. split; [|done].
    destruct Hc as [->|[_ Hc]]; [done|]. eapply same_core_created; [|exact Hc]. by apply not_core. }
  intros p m1 Hm1 [Hs1 ->]. cbv beta iota zeta. change (RecJob _) with (RecJob (job_record i j)) at 1.
  apply (ends_bind q 1 2 _ _ _ _ _ (does_spend q m1)). intros [] ? _ ->.
  assert (m1 !! absolute q (KJob s j) = m !! absolute q (KJob s j)) as Ek.
  { apply Hs1. by apply (key_job_core _ j). }
  destruct found as [job|].
  - assert (job_at q s j job m1) as (e & r & He & Hd & ->) by (by eapply job_at_mono).
    apply (ends_bind q 1 1 _ _ _ (fun r m' => m' = m1 /\ r = RLost)).
    { eapply ends_mono; [|apply does_put_record]. intros r m' _ Hr. unfold put_resolved in Hr.
      change (absolute q (KJob s j)) with (at_key root (KJob s j)) in Hr. by rewrite He in Hr. }
    intros r ? _ [-> ->].
    eapply (ends_bind q 1 0 _ _ _ (fun obj m' => m' = m1 /\ o_body obj = e_body e)).
    { eapply does_mono; [reflexivity| |apply does_read_retrying].
      change (absolute q (KJob s j)) with (at_key root (KJob s j)). rewrite He.
      intros [obj|x] m' _ [-> E]; [by injection E as ->|done]. }
    intros obj ? _ [-> ->]. change (decode_at q ?k ?b) with (decode_key qid k b). rewrite Hd. by apply does_ret.
  - assert (absent m1 (KJob s j)) as Hn by (unfold Tracking.absent in *; by rewrite Ek).
    apply (ends_bind q 1 1 _ _ _ _ _ (does_put_new q _ _ m1 Hn)). intros r m2 _ [-> Hcr].
    destruct (created_holds q Hq m1 m2 _ _ Hw Hv Hcr) as (e & r & He & Hde & -> & _).
    eapply (ends_bind q 1 0 _ _ _ (fun _ m3 => same_core q m2 m3)).
    { destruct (ei_not_before_ns i) as [nb|] eqn:Enb; [|by apply (does_cost q 0); [lia|apply does_ret]].
      pose proof (Hwidth nb Enb) as [b Hb]. rewrite Hb.
      apply (ends_bind q 0 1 _ _ _ (fun _ m' => m' = m2)); [by apply does_ret|]. intros b' ? _ ->.
      apply (ends_bind q 1 0 _ _ _ _ _ (does_spend q m2)). intros [] ? _ ->. by apply does_put_index, not_core. }
    intros [] m3 Hm3 Hs3. apply does_ret. split; [done|]. split.
    + intros x Hx Hne. rewrite Hs3 by done. rewrite <- Hs1 by done. by apply (only_at_created q _ _ _ _ Hcr).
    + exists e. eexists. split; [by eapply lookup_weaken|]. split; [exact Hde|done].
Qed.

(** Nothing speaks of a job that is not there. *)
Lemma no_job m s j :
  Inv m -> is_u16 s -> is_id j -> absent m (KJob s j) ->
  (forall g, absent m (KClaim s j g)) /\ open_job q m s j.
Proof.
  intros HI Hs Hj Hn. unfold open_job, Tracking.absent in *.
  assert (forall P, holds m (KJob s j) P -> False) as Hno.
  { intros P (e & r & He & _). change (at_key root (KJob s j)) with (absolute q (KJob s j)) in He. congruence. }
  assert (forall g, m !! absolute q (KClaim s j g) = None) as Hc.
  { intros g. destruct (m !! absolute q (KClaim s j g)) as [e|] eqn:He; [|done].
    destruct (proj2 HI (key_to_string (KClaim s j g)) e He) as (k & Hk & Ek); [by rewrite plane_of_key|].
    assert (exists g', k = KClaim s j g') as [g' ->].
    { pose proof (f_equal (split_on slash) Ek) as E. rewrite !split_key_to_string in E.
      destruct k; try discriminate (f_equal (fun l => nth 0 l []) E).
      pose proof (f_equal (fun l => nth 1 l []) E) as E1. pose proof (f_equal (fun l => nth 2 l []) E) as E2.
      cbn [segments nth] in E1, E2. destruct Hk as (Hs' & _). apply hex16_inj in E1; [|done|done].
      apply push_hex_inj in E2. subst. by eexists. }
    assert (absolute q (KClaim s j g) = absolute q (KClaim s j g')) as E by (unfold absolute; by rewrite Ek).
    rewrite E in He. destruct (inv_ok q m (KClaim s j g') e HI) as [_ (c & _ & Hok)]; [done|done|].
    by destruct (Hno _ (proj1 (proj2 (proj2 (proj2 Hok))))). }
  split; [done|]. split.
  - destruct (m !! absolute q (KReceipt s j)) as [e|] eqn:He; [|done].
    destruct (inv_ok q m (KReceipt s j) e HI) as [_ (r & _ & _ & _ & Hjob)]; [done|done|]. by destruct (Hno _ Hjob).
  - destruct (m !! absolute q (KDead s j)) as [e|] eqn:He; [|done].
    destruct (inv_ok q m (KDead s j) e HI) as [_ (d & Hd & _ & (e' & r' & He' & _))]; [done|done|].
    specialize (Hc (d_generation d)). change (absolute q ?k) with (at_key root k) in Hc. congruence.
Qed.

Lemma tracks_same_core m m' o : same_core q m m' -> tracks m o -> tracks m' o.
Proof.
  intros Hs (Hall & Hplane & Hnone). split; [|split].
  - intros j st Ej. destruct (Hall j st Ej) as (Hj & s & Hsh & Ht). split; [done|]. exists s. split; [done|].
    eapply tracked_same; [by apply same_core_same_job|reflexivity|exact Ht].
  - intros s j H16 Hj Hp. apply Hplane; [done|done|].
    assert (m' !! absolute q (KJob s j) = m !! absolute q (KJob s j)) as <-; [|done].
    apply Hs. by apply (key_job_core _ j).
  - intros j Hj Ej. eapply output_same; [|by apply Hnone]. by apply same_core_same_job.
Qed.

Lemma enqueued_tracks m m' o i j s :
  Inv m -> tracks m o -> is_id j -> shard_of q j s -> jobs o !! j = None -> absent m (KJob s j) ->
  only_at (key_to_string (KJob s j)) m m' -> job_at q s j (job_record i j) m' ->
  tracks m' (oracle_enqueue o j (ei_maximum_attempts i) (default 0 (ei_not_before_ns i))).2.
Proof.
  intros HI Ht Hj Hs Ej Hn Ho Hjob. unfold oracle_enqueue. rewrite Ej. cbn [snd].
  pose proof (shard_of_u16 q j s Hs) as H16. destruct (no_job m s j HI H16 Hj Hn) as [Hc [Hr Hd]].
  assert (forall k, key_job k = Some j -> not_job_key k -> absent m k -> absent m' k) as Ha.
  { intros k Hk Hnk. eapply (only_at_absent q); [exact Ho|exact Hk|]. apply plane_ne. by destruct k. }
  eapply (tracks_update q m m' o _ s j); try done.
  - intros j' Hne. split; [by eapply (only_at_same_job q (KJob s j) j)|]. cbn. by rewrite lookup_insert_ne.
  - cbn. by rewrite lookup_insert_eq.
  - split.
    + exists (job_record i j). split; [done|]. split; [done|]. cbn. split; [done|].
      split; [by apply Ha|]. split; by apply Ha.
    + cbn [output]. unfold output_tracked. destruct Ht as (_ & _ & Hnone).
      rewrite output_key_path. rewrite Ho; [|apply output_path_core|apply output_path_ne_key].
      rewrite <- output_key_path. by apply (Hnone j).
  - intros s' Hs' Hp. destruct (decide (s' = s)) as [->|Hne]; [by left|]. right.
    assert (m' !! absolute q (KJob s' j) = m !! absolute q (KJob s' j)) as <-; [|done].
    apply Ho; [by apply (key_job_core _ j)|]. intros E%key_to_string_inj; [congruence|done|done].
Qed.

(** Equal maxima mean the same record: the caller enqueues a job one way. *)
Definition enqueued_alike (m : Space) (o : Oracle) (i : EnqueueInput) (j : bytes) (s : Z) : Prop :=
  forall st job, jobs o !! j = Some st -> job_at q s j job m -> maximum_attempts st = ei_maximum_attempts i ->
    job = job_record i j.

Lemma goes_enqueue m o i j s :
  Inv m -> tracks m o -> input_ok i -> indexable i -> ei_maximum_attempts i <> 0 -> ei_job_id i = Some j ->
  shard_of q j s -> enqueued_alike m o i j s ->
  let o' := oracle_enqueue o j (ei_maximum_attempts i) (default 0 (ei_not_before_ns i)) in
  goes 4 (enqueue q i) m (fun r m' => r = (if o'.1 then EnqCommitted j else IdTaken j) /\
    moved m m' o o'.2 j /\ (forall c, in_hand m o c -> in_hand m' o'.2 c) /\
    (jobs o !! j = None -> job_at q s j (job_record i j) m')).
Proof.
  intros HI Ht Hi Hx Hmax Ej Hs Halike o'. pose proof Ht as (Hall & Hplane & _).
  assert (is_id j) as Hj by (by destruct Hi as [Hi _]; apply Hi).
  pose proof (shard_of_u16 q j s Hs) as H16.
  assert (exists found, match found with None => absent m (KJob s j) /\ jobs o !! j = None | Some job => job_at q s j job m /\
    exists st, jobs o !! j = Some st /\ j_maximum_attempts job = maximum_attempts st end) as [found Hf].
  { destruct (jobs o !! j) as [st|] eqn:Est.
    - destruct (Hall j st Est) as (_ & s' & Hs' & ((job & Hjob & Em & _) & _)).
      assert (s' = s) as -> by (unfold shard_of in *; congruence). exists (Some job). eauto.
    - exists None. split; [|done]. unfold Tracking.absent. destruct (m !! absolute q (KJob s j)) eqn:E; [|done].
      destruct (Hplane s j H16 Hj) as [_ [st Est']]; [by eexists|congruence]. }
  eapply goes_mono; [reflexivity| |exact (goes_both q _ _ m _ _ HI (spec_enqueue q Hq i m Hi)
    (does_enqueue m i j s found Hi Hx Hmax Ej Hs ltac:(by destruct found; apply Hf)))].
  intros r m' Hsub _ ((-> & Hm') & _ & Hm). unfold o', oracle_enqueue in *. destruct found as [job|].
  - destruct Hf as (Hjob & st & Est & Em). rewrite Est. cbn [fst snd enqueue_answer].
    assert (bool_decide (RecJob job = RecJob (job_record i j)) = (maximum_attempts st =? ei_maximum_attempts i)) as ->.
    { destruct (Z.eqb_spec (maximum_attempts st) (ei_maximum_attempts i)) as [E|E].
      - apply bool_decide_true. by rewrite (Halike st job Est Hjob E).
      - apply bool_decide_false. intros [= Er]. apply E. rewrite <- Em, Er. done. }
    split; [done|]. split; [|split; [intros c; by apply in_hand_other|done]].
    apply (moved_of m m' o o j []); try done; [by apply same_core_only|by eapply tracks_same_core].
  - destruct Hf as [Hn Eo]. rewrite Eo. cbn [fst snd enqueue_answer]. destruct Hm' as [Ho Hjob].
    split; [done|]. split.
    + eapply moved_of; [done|done|exact Ho| |done|intros j' Hne; cbn; by rewrite lookup_insert_ne].
      pose proof (enqueued_tracks m m' o i j s HI Ht Hj Hs Eo Hn Ho Hjob) as Htr. unfold oracle_enqueue in Htr.
      by rewrite Eo in Htr.
    + split; [|done]. intros c Hc. apply (in_hand_other m _ o); [done| |done]. cbn. rewrite lookup_insert_ne; [done|].
      intros E. destruct Hc as (_ & _ & st & Est & _). congruence.
Qed.
End Holders.
