(* ===== verification/Refinement.v ===== *)
(** The queue refines the logical oracle.

    In calm runs the claim scan and the operations on a job end as the
    oracle's do and leave a key space that tracks the oracle's next state
    ([Scan] and [Holders], over every store that answers faithfully); so a
    claimable job is claimed. *)

From S2P Require Import Prelude Sha256 StowqMath Keys Records Direct Store Memory Oracle Effects Rely Queue Claims Budget.
From S2P Require Import Samples Driver Protocol Lifecycle Custody Runs Calm Pages Tracking Agreement Scan Holders.

(* ------------------------------------------------------------------ *)
(** * The oracle's scan *)

Lemma visit_claims lease base o j ga o' :
  oracle_visit lease base o j = (Some ga, o') ->
  exists st, jobs o' !! j = Some st /\ phase st = PClaimed ga.1 ga.2 (saturating_add base lease).
Proof.
  unfold oracle_visit, exhaust_if_due, can_claim, oracle_claim.
  destruct (jobs o !! j) as [st|]; [|done].
  repeat case_match; intros; simplify_eq; cbn; rewrite lookup_insert_eq; by eexists.
Qed.

Lemma scan_claims lease base ids o j ga o' :
  oracle_scan lease base ids o = (Some (j, ga), o') ->
  j ∈ ids /\ exists st, jobs o' !! j = Some st /\ phase st = PClaimed ga.1 ga.2 (saturating_add base lease).
Proof.
  revert o. induction ids as [|i ids IH]; intros o; cbn [oracle_scan]; [done|].
  destruct (oracle_visit lease base o i) as [[ga'|] o1] eqn:Hv.
  - intros [= -> -> ->]. split; [by left|]. by eapply visit_claims.
  - intros Hs. destruct (IH o1 Hs) as [Hj Hst]. split; [by right|done].
Qed.

(** Whether a job is handed out depends on its own state. *)
Lemma visit_local lease base o o' j :
  jobs o' !! j = jobs o !! j -> o_clock o' = o_clock o ->
  (oracle_visit lease base o' j).1 = (oracle_visit lease base o j).1.
Proof.
  intros E Ec. unfold oracle_visit, exhaust_if_due, can_claim, oracle_claim. rewrite E, Ec.
  destruct (jobs o !! j) as [st|]; [|done]. repeat case_match; done.
Qed.

Lemma scan_finds lease base ids o j :
  j ∈ ids -> is_Some (oracle_visit lease base o j).1 -> is_Some (oracle_scan lease base ids o).1.
Proof.
  revert o. induction ids as [|i ids IH]; intros o Hj Hv; [by apply elem_of_nil in Hj|]. cbn [oracle_scan].
  destruct (oracle_visit lease base o i) as [[ga|] o1] eqn:Ei; [by eexists|].
  assert (j <> i) as Hne by (intros ->; rewrite Ei in Hv; by destruct Hv).
  apply elem_of_cons in Hj as [|Hj]; [done|]. destruct (visit_others _ _ _ _ _ _ Ei) as [Hc Ho].
  apply IH; [done|]. by rewrite (visit_local lease base o o1 j (Ho j Hne) Hc).
Qed.

(* ------------------------------------------------------------------ *)
(** * The handle and the key space *)

Section Refinement.
Context `{Sha256} (q : Queue).
#[local] Abbreviation root := (q_root q).
#[local] Abbreviation qid := (o_queue_id (q_opts q)).

(** A handle without tail hints or skew guard, on a key space that tracks the
    oracle, whose chains are no longer than [G]. *)
Record follows (m : Space) (o : Oracle) (G : Z) : Prop := {
  fo_handle : handle_ok q;
  fo_hints : hints_enabled q = false;
  fo_skew : o_skew_guard_ns (q_opts q) = 0;
  fo_inv : Inv root qid m;
  fo_tracks : tracks q m o;
  fo_chains : chains_below q m G;
  fo_bound : 0 <= G
}.

(** The handle's own state: a sound cache, a sound memo, and [n] operations
    to spend. *)
Definition paid (h : HState) (m : Space) (n : nat) : Prop :=
  cached_ok h /\ memo_sound q h m /\ (n <= max_ops h)%nat.

(** Budget for a scan: every object a candidate, every candidate tried. *)
Definition CLAIM_OPS (m : Space) (G : Z) : nat := size m * (TRY_OPS G + 2) + 2.

Definition handed (r : ClaimOutcome) : option (bytes * (Z * Z)) :=
  match r with Claimed c => Some (cl_job_id c, (cl_generation c, cl_attempt c)) | Empty => None end.

(** What a claim's answer is worth: the oracle's scan, at the store time the
    claim reports. *)
Definition claim_follows (opts : ClaimOptions) (m m' : Space) (o : Oracle) (G : Z) (r : ClaimOutcome) : Prop :=
  exists base o',
    oracle_scan (co_lease_duration_ns opts) base (shard_ids q o (co_shard opts)) o = (handed r, o') /\
    match r with
    | Claimed c => base = cl_claim_store_time_ns c /\ cl_shard c = co_shard opts /\
        cl_lease_duration_ns c = co_lease_duration_ns opts /\ in_hand q m' o' c /\
        pays q m' (cl_shard c) (cl_job_id c) (cl_payload c) /\ follows m' o' (G + 1)
    | Empty => follows m' o' G
    end.

Record scans (opts : ClaimOptions) (o : Oracle) : Prop := {
  sc_options : options_ok opts;
  sc_shard : is_u16 (co_shard opts);
  sc_floor : co_floor_ns opts = o_clock o
}.

Lemma goes_claim_follows m o opts G :
  follows m o G -> G + 1 < u32_max -> scans opts o ->
  goes q (CLAIM_OPS m G) (claim q opts) m (fun r m' => claim_follows opts m m' o G r /\ rely root qid m m').
Proof.
  intros [Hq Hhints Hskew HI Ht Hb HG] HG1 [Hopts Hs Hf].
  pose proof (goes_claim q Hq Hhints Hskew opts G Hopts Hs HG HG1 m o ltac:(by split_and!)) as Hgo.
  pose proof (goes_with q _ _ m _ _ HI (spec_claim q Hq opts m Hopts) Hgo) as Hgo2. clear Hgo.
  eapply goes_mono; [|intros r m' Hsub HI' Hr|exact Hgo2]; [unfold CLAIM_OPS, SCAN_OPS; lia|]. clear Hgo2.
  destruct Hr as ((base & Hsc) & Hheld & Hm). split; [|done].
  destruct (oracle_scan (co_lease_duration_ns opts) base _ o) as [got o'] eqn:Es.
  destruct Hsc as [Ht' Hr]. exists base, o'. rewrite Es. destruct r as [c|]; cbn [claim_of handed] in *.
  - destruct Hr as (-> & Ebase & Es' & El & Hpay & Hgrow). split; [done|].
    destruct (scan_claims _ _ _ _ _ _ _ Es) as [Hin (st & Est & Ep)].
    apply elem_of_shard_ids in Hin as [Hsh _].
    split_and!; try done; [|by rewrite Es'|].
    + split; [exact Hheld|]. rewrite Es'. split; [done|]. exists st. split; [done|]. rewrite Ep. cbn.
      unfold lease_end. by rewrite Ebase, El.
    + split; try done; [by apply Hgrow|lia].
  - destruct Hr as (-> & _ & Hcb). split; [done|]. split; try done; auto.
Qed.

Lemma goes_lands {A} n (x : M A) m Q h :
  goes q n x m Q -> paid h m n -> calm (x h) m (fun rs m' => exists a, rs.1 = Ok a /\ Q a m').
Proof.
  intros Hx (Hc & Hm & Hb). eapply calm_mono; [|by apply Hx].
  intros [[a|e] s] m' (_ & _ & _ & _ & _ & HQ); [|done]. by exists a.
Qed.

Lemma moved_follows m m' o o' G j :
  follows m o G -> Inv root qid m' -> moved q m m' o o' j -> follows m' o' (G + 1).
Proof. intros [] HI []. split; try done; [auto|lia]. Qed.

(** A chain no longer than [G] bounds the holder's generation. *)
Lemma hand_bound m o G c : follows m o G -> in_hand q m o c -> cl_generation c <= G.
Proof.
  intros Hf ((Hs & Hj & Hg & _ & (e & r & He & _) & _) & _).
  apply (fo_chains _ _ _ Hf (cl_shard c) (cl_job_id c)); [done|done|unfold is_u32; lia|by exists e].
Qed.

(** A claimable job is one the oracle's scan can hand out. *)
Lemma can_claim_visit lease base m o G j :
  follows m o G -> can_claim o j = true -> is_Some (oracle_visit lease base o j).1.
Proof.
  intros Hf Hc. unfold can_claim in Hc. destruct (jobs o !! j) as [st|] eqn:Est; [|done].
  destruct (fo_tracks _ _ _ Hf) as (Hall & _). destruct (Hall j st Est) as (Hj & s & Hs & ((job & _ & _ & Hp) & _)).
  pose proof (shard_of_u16 q j s Hs) as H16.
  assert (forall g a x, custody q m s j g a x -> 0 <= a < u64_max) as Ha.
  { intros g a x Hcu. pose proof (attempt_le_generation q m s j g a x (fo_inv _ _ _ Hf) H16 Hj Hcu).
    destruct Hcu as (Hg & _). lia. }
  unfold oracle_visit, exhaust_if_due, exhaustion_due, can_claim, oracle_claim. rewrite Est.
  destruct (phase st) as [n|g a x|g a n|t]; cbn in Hp; [| | |done].
  - rewrite Hc. by eexists.
  - apply andb_prop in Hc as [H1 H2]. destruct Hp as (_ & Hcu & _). pose proof (Ha _ _ _ Hcu).
    rewrite H1, H2, wrapping_add_small by lia. apply Z.ltb_lt in H2.
    rewrite (proj2 (Z.ltb_ge _ _)) by lia. by eexists.
  - apply andb_prop in Hc as [H1 H2]. destruct Hp as (_ & (x & _ & Hcu) & _). pose proof (Ha _ _ _ Hcu).
    rewrite H1, H2, wrapping_add_small by lia. apply Z.ltb_lt in H2.
    rewrite (proj2 (Z.ltb_ge _ _)) by lia. by eexists.
Qed.

(** Operation [x] succeeds, on [n] operations of budget, as [Q] says. *)
Definition lands {A} (n : nat) (x : M A) (m : Space) (h : HState) (Q : A -> Space -> Prop) : Prop :=
  paid h m n -> calm (x h) m (fun rs m' => exists a, rs.1 = Ok a /\ Q a m').

Lemma enqueue_follows m o G h i j s :
  follows m o G -> input_ok i -> indexable q i -> ei_maximum_attempts i <> 0 -> ei_job_id i = Some j ->
  shard_of q j s -> enqueued_alike q m o i j s ->
  lands 4 (enqueue q i) m h (fun r m' =>
    let '(ok, o') := oracle_enqueue o j (ei_maximum_attempts i) (default 0 (ei_not_before_ns i)) in
    r = (if ok then EnqCommitted j else IdTaken j) /\ follows m' o' (G + 1)).
Proof.
  intros Hf Hi Hx Hmax Ej Hs Halike Hh. pose proof Hf as [Hq _ _ HI Ht _ _]. eapply goes_lands; [|exact Hh].
  eapply goes_mono; [reflexivity| |exact (goes_enqueue q Hq m o i j s HI Ht Hi Hx Hmax Ej Hs Halike)].
  intros r m' _ HI' (-> & Hmv & _). destruct (oracle_enqueue o j _ _) as [ok o']. cbn [fst snd] in *.
  split; [done|]. by eapply moved_follows.
Qed.

(* ------------------------------------------------------------------ *)
(** * The theorems *)

(** C4: the claim scan refines the oracle's: in a calm run (one client, any
    store that answers faithfully) from a key space that tracks an oracle
    state, with budget for every object, [claim] succeeds; it exhausts,
    skips and claims exactly the jobs the oracle's scan over the shard does
    (in the order of their ids, by the driver's rule), hands out the
    generation and attempt the oracle hands out, and leaves a key space that
    tracks the oracle's next state. *)
Theorem scan_follows_oracle m o opts G h :
  follows m o G -> G + 1 < u32_max -> scans opts o -> paid h m (CLAIM_OPS m G) ->
  calm (claim q opts h) m (fun rs m' => exists r, rs.1 = Ok r /\ claim_follows opts m m' o G r).
Proof.
  intros Hf HG Hs Hh. eapply calm_mono; [|by apply (goes_lands _ _ _ _ _ (goes_claim_follows m o opts G Hf HG Hs))].
  intros rs m' (r & Hr & Hc & _). by exists r.
Qed.

(** C6: a claimable job is claimed: in a calm run from a key space that tracks
    the oracle, when the oracle says that some job of the shard can be
    claimed, [claim] comes back with a claim. *)
Theorem claimable_is_claimed m o opts G h j :
  follows m o G -> G + 1 < u32_max -> scans opts o -> paid h m (CLAIM_OPS m G) ->
  shard_of q j (co_shard opts) -> can_claim o j = true ->
  calm (claim q opts h) m (fun rs m' => exists c, rs.1 = Ok (Claimed c)).
Proof.
  intros Hf HG Hs Hh Hsh Hcan. eapply calm_mono; [|by apply (goes_lands _ _ _ _ _ (goes_claim_follows m o opts G Hf HG Hs))].
  intros rs m' (r & Hr & (base & o' & Hscan & _) & _). destruct r as [c|]; [by exists c|]. exfalso.
  destruct (scan_finds (co_lease_duration_ns opts) base (shard_ids q o (co_shard opts)) o j) as [x Hx].
  - apply elem_of_shard_ids. split; [done|]. unfold can_claim in Hcan. destruct (jobs o !! j); [by eexists|done].
  - by eapply can_claim_visit.
  - by rewrite Hscan in Hx.
Qed.

(** C5: the holder's operations refine the oracle's: in a calm run from a key
    space that tracks an oracle state in which the claim in hand is the job's
    custody, on the budget given here, renew, commit_output, ack, bury and
    nack each succeed exactly as the oracle's operation does, and leave a key
    space that tracks the oracle's next state; a renewed claim and a claim
    after its commit are again the job's custody.  A backoff must not end
    before the lease. *)
Theorem holders_follow_oracle m o G c h :
  follows m o G -> G + 1 < u32_max -> in_hand q m o c ->
  let j := cl_job_id c in
  lands 5 (renew q c) m h (fun r m' => exists c', r = Renewed c' /\
    (oracle_renew o j (cl_lease_duration_ns c)).1 = true /\
    in_hand q m' (oracle_renewed o c c') c' /\ follows m' (oracle_renewed o c c') (G + 1)) /\
  (forall st body, jobs o !! j = Some st -> (forall d, output st = Some d -> d = sha256 body) ->
    lands 2 (commit_output q c ¶"result" body) m h (fun r m' => r = commit_answer q c st (sha256 body) /\
      let '(ok, o') := oracle_commit_output o j (sha256 body) in
      ok = true /\ in_hand q m' o' c /\ follows m' o' (G + 1))) /\
  (forall outs, outputs_ok outs -> payload_ready m c -> outputs_ready q m c outs ->
    lands (ACK_OPS (length outs)) (ack_with_outputs q c outs) m h (fun r m' => r = Acked /\
      let '(ok, o') := oracle_ack o j in ok = true /\ follows m' o' (G + 1))) /\
  (forall reason, is_u64 reason ->
    lands 16 (bury q c reason) m h (fun r m' => r = Buried /\
      let '(ok, o') := oracle_bury o j reason in ok = true /\ follows m' o' (G + 1))) /\
  (forall reason floor n, is_u64 reason -> is_u64 floor -> nack_until q c floor = Some n -> lease_end c <= n ->
    lands 3 (nack q c reason floor) m h (fun _ m' =>
      let '(ok, o') := oracle_nack o j n in ok = true /\ follows m' o' (G + 1))).
Proof.
  intros Hf HG Hi j. pose proof Hf as [Hq Hhints _ HI Ht _ _]. pose proof (hand_bound _ _ _ _ Hf Hi) as Hg.
  split_and!.
  - intros Hh. eapply goes_lands; [|exact Hh]. eapply goes_mono; [reflexivity| |apply (goes_renew q Hq Hhints m o c); done || lia].
    intros r m' _ HI' (c' & -> & Hok & Hmv & Hi' & _). exists c'. split_and!; try done. by eapply moved_follows.
  - intros st body Est Hsame Hh. eapply goes_lands; [|exact Hh].
    eapply goes_mono; [reflexivity| |by apply (goes_commit q m o c st body)].
    intros r m' _ HI' (-> & Hok & Hmv & Hi' & _). split; [done|]. fold j in Hok, Hmv, Hi'.
    destruct (oracle_commit_output o j (sha256 body)) as [ok o']. split_and!; try done. by eapply moved_follows.
  - intros outs Hok Hp Hout Hh. eapply goes_lands; [|exact Hh].
    eapply goes_mono; [reflexivity| |by apply (goes_ack q Hq m o c outs)].
    intros r m' _ HI' (-> & Hok' & Hmv & _). split; [done|]. fold j in Hok', Hmv.
    destruct (oracle_ack o j) as [ok o']. split; [done|]. by eapply moved_follows.
  - intros reason Hr Hh. eapply goes_lands; [|exact Hh].
    eapply goes_mono; [reflexivity| |by apply (goes_bury q Hq m o c reason)].
    intros r m' _ HI' (-> & Hok' & Hmv). split; [done|]. fold j in Hok', Hmv.
    destruct (oracle_bury o j reason) as [ok o']. split; [done|]. by eapply moved_follows.
  - intros reason floor n Hr Hfl Hn Hle Hh. eapply goes_lands; [|exact Hh].
    eapply goes_mono; [reflexivity| |by apply (goes_nack q Hq m o c reason floor n)].
    intros r m' _ HI' (Hok' & Hmv). fold j in Hok', Hmv.
    destruct (oracle_nack o j n) as [ok o']. split; [done|]. by eapply moved_follows.
Qed.
End Refinement.

(* ------------------------------------------------------------------ *)
(** * A session on the memory store *)

Section Session.
#[local] Existing Instance toy_digest.
#[local] Existing Instance memory_store.

(** The sample queue without tail hints. *)
Definition plain_queue : Queue :=
  {| q_root := q_root sample_queue; q_opts := sample_options; q_format := driver_format |}.
#[local] Abbreviation Q := plain_queue.
Definition plain_space (w : World MemoryStore) : Space := store_view (w_store w).

Lemma lands_run {A} n (x : M A) (w : World MemoryStore) h P :
  lands Q n x (plain_space w) h P -> paid Q h (plain_space w) n -> world_ok (run_calls (x h) w) w ->
  exists a, (run (x h) w).1.1 = Ok a /\ P a (plain_space (run (x h) w).2).
Proof. intros Hl Hp Hw. exact (calm_run _ w _ Hw (Hl Hp)). Qed.

Lemma fresh_paid m n k : (n <= k)%nat -> paid Q (fresh_handle k) m n.
Proof. intros Hn. split; [done|]. split; [|done]. intros s j x Hx. by destruct (lookup_empty_Some _ _ Hx). Qed.

Definition after {A} (x : M A) (w : World MemoryStore) : World MemoryStore := (run (x (fresh_handle 64)) w).2.
Definition plain1 : World MemoryStore := after (enqueue Q sample_input) sample_world.
Definition plain_oracle1 : Oracle := (oracle_enqueue oracle_new vector_job_id 3 0).2.

Lemma empty_follows : follows Q (plain_space sample_world) oracle_new 0.
Proof.
  assert (forall k, plain_space sample_world !! k = None) as Hno.
  { intros k. destruct (plain_space sample_world !! k) as [e|] eqn:He; [|done]. exfalso.
    unfold plain_space in He. cbn in He. by apply lookup_fmap_Some in He as (x & _ & Hx%lookup_empty_Some). }
  split; try done.
  - split; [|split].
    + intros j st E. by destruct (lookup_empty_Some _ _ E).
    + intros s j _ _ [e He]. by rewrite Hno in He.
    + intros j _ _. apply Hno.
  - intros s j g _ _ _ [e He]. by rewrite Hno in He.
Qed.

Lemma plain1_follows : follows Q (plain_space plain1) plain_oracle1 1.
Proof.
  assert (lands Q 4 (enqueue Q sample_input) (plain_space sample_world) (fresh_handle 64)
    (fun r m' => follows Q m' plain_oracle1 1)) as Hl.
  { intros Hp. eapply calm_mono; [|apply (enqueue_follows Q _ oracle_new 0 _ sample_input vector_job_id 0 empty_follows sample_input_ok); try done].
    intros rs m' (r & Hr & _ & Hf). exists r. split; [done|exact Hf]. }
  destruct (lands_run _ _ _ _ _ Hl) as (r & _ & Hf); [by apply fresh_paid; lia|apply sample_world_ok|exact Hf].
  vm_compute. lia.
Qed.

Lemma plain_scans : scans sample_claim_options plain_oracle1.
Proof. split; by vm_compute. Qed.

Lemma plain1_paid : paid Q (fresh_handle 64) (plain_space plain1) (CLAIM_OPS (plain_space plain1) 1).
Proof. apply fresh_paid. vm_compute. lia. Qed.

Lemma plain1_room : world_ok (run_calls (claim Q sample_claim_options (fresh_handle 64)) plain1) plain1.
Proof. apply run_ok, sample_world_ok. vm_compute. lia. Qed.

Definition plain2 : World MemoryStore := after (claim Q sample_claim_options) plain1.

(** The sample job is claimed, as the oracle's scan says, in the memory
    store's world. *)
Lemma scan_follows_oracle_witness :
  exists c, (run (claim Q sample_claim_options (fresh_handle 64)) plain1).1.1 = Ok (Claimed c) /\
    claim_follows Q sample_claim_options (plain_space plain1) (plain_space plain2) plain_oracle1 1 (Claimed c).
Proof.
  destruct (calm_run _ plain1 _ plain1_room
    (scan_follows_oracle Q (plain_space plain1) plain_oracle1 sample_claim_options 1 (fresh_handle 64)
       plain1_follows ltac:(lia) plain_scans plain1_paid)) as (r & Hr & Hc).
  destruct r as [c|]; [exists c; split; [exact Hr|exact Hc]|]. exfalso. revert Hr. vm_compute. discriminate.
Defined.

Lemma claimable_is_claimed_witness :
  exists c, (run (claim Q sample_claim_options (fresh_handle 64)) plain1).1.1 = Ok (Claimed c).
Proof.
  refine (calm_run _ plain1 _ plain1_room
    (claimable_is_claimed Q (plain_space plain1) plain_oracle1 sample_claim_options 1 (fresh_handle 64) vector_job_id
       plain1_follows ltac:(lia) plain_scans plain1_paid _ _)); vm_compute; reflexivity.
Defined.

Lemma plain2_hand : exists c o, in_hand Q (plain_space plain2) o c /\ follows Q (plain_space plain2) o 2.
Proof.
  destruct (calm_run _ plain1 _ plain1_room (goes_lands _ _ _ _ _ _
    (goes_claim_follows Q _ _ sample_claim_options 1 plain1_follows ltac:(lia) plain_scans) plain1_paid))
    as (r & Hr & (base & o' & _ & Hc) & _).
  destruct r as [c|]; [exists c, o'; destruct Hc as (_ & _ & _ & H1 & _ & H2); split; [exact H1|exact H2]|]. exfalso. revert Hr. vm_compute. discriminate.
Qed.

(** The claim of the sample job can be renewed, and acknowledged. *)
Lemma holders_follow_oracle_witness : exists c,
  calm (renew Q c (fresh_handle 64)) (plain_space plain2) (fun rs m' => exists c', rs.1 = Ok (Renewed c')) /\
  (payload_ready (plain_space plain2) c ->
   calm (ack_with_outputs Q c [] (fresh_handle 64)) (plain_space plain2) (fun rs m' => rs.1 = Ok Acked)).
Proof.
  destruct plain2_hand as (c & o & Hi & Hf). exists c.
  destruct (holders_follow_oracle Q (plain_space plain2) o 2 c (fresh_handle 64) Hf ltac:(lia) Hi)
    as (Hrenew & _ & Hack & _).
  split.
  - eapply calm_mono; [|apply Hrenew, fresh_paid; lia]. intros rs m' (a & Hr & c' & -> & _). by exists c'.
  - intros Hp. eapply calm_mono; [|apply (Hack []); [split; [constructor|by vm_compute]|exact Hp|constructor|apply fresh_paid; cbn; lia]].
    intros rs m' (a & Hr & -> & _). exact Hr.
Defined.
End Session.
