(* ===== verification/Answers.v ===== *)
(** What the ending operations answer, errors included.

    In a calm run acknowledging, burying and committing an output are
    functions of the key space: [ack_answer], [bury_answer] and
    [commit_answer_at] say which answer or error it calls for.  Nothing is
    written unless the answer says so. *)

From S2P Require Import Prelude Sha256 StowqMath Keys Records Direct Store Memory Effects Rely Queue Claims Budget.
From S2P Require Import Samples Driver Protocol Lifecycle Custody Runs Calm Tracking Agreement Holders Refinement.

Section Answers.
Context `{Sha256} (q : Queue).
#[local] Abbreviation root := (q_root q).
#[local] Abbreviation qid := (o_queue_id (q_opts q)).

(* ------------------------------------------------------------------ *)
(** * The answers *)

(** A detached payload, fetched and checked. *)
Definition payload_answer (m : Space) (c : Claim) : Result Error bytes :=
  match cl_payload c with
  | Inline b => Ok b
  | Detached k d len =>
      match m !! k with
      | None => Err (StoreE NotFound)
      | Some e =>
          if (Z.of_nat (length (e_body e)) =? len) && bytes_eqb (sha256 (e_body e)) d
          then Ok (e_body e) else Err PayloadCorrupt
      end
  end.

(** The first recorded output that is not the job's, not there, or not what
    was recorded. *)
Fixpoint outputs_answer (m : Space) (c : Claim) (outs : list CommittedOutput) : Result Error unit :=
  match outs with
  | [] => Ok tt
  | out :: outs =>
      if starts_with (root ++ ¶"outputs/" ++ push_hex (cl_job_id c) ++ [slash]) (out_key out) then
        match m !! out_key out with
        | None => Err (OutputEvidenceMismatch "absent at ack")
        | Some e =>
            if bytes_eqb (sha256 (e_body e)) (out_digest out) then outputs_answer m c outs
            else Err (OutputEvidenceMismatch "body does not match its committed digest")
        end
      else Err (KeyE "output is not the job's output")
  end.

(** A receipt already there: this acknowledgement's, or another's. *)
Definition receipt_answer (m : Space) (c : Claim) (digest : bytes) (outs : list CommittedOutput) : Result Error AckOutcome :=
  match m !! absolute q (KReceipt (cl_shard c) (cl_job_id c)) with
  | None => Ok Acked
  | Some e =>
      match decode_at q (KReceipt (cl_shard c) (cl_job_id c)) (e_body e) with
      | Err x => Err (RecordE (MsgRecord x))
      | Ok (RecReceipt r) => if same_ack c digest outs r then Ok AlreadyAcked else Err ReceiptEvidenceMismatch
      | Ok _ => Err (RecordE (Msg "receipt key holds a non-receipt record"))
      end
  end.

Definition ack_answer (m : Space) (c : Claim) (outs : list CommittedOutput) : Result Error AckOutcome :=
  match m !! absolute q (KDead (cl_shard c) (cl_job_id c)) with
  | Some _ => Ok SupersededByDead
  | None =>
      b ← payload_answer m c;
      _ ← outputs_answer m c outs;
      receipt_answer m c (sha256 b) outs
  end.

Definition bury_answer (m : Space) (c : Claim) : Result Error BuryOutcome :=
  match m !! absolute q (KReceipt (cl_shard c) (cl_job_id c)) with
  | Some _ => Ok SupersededByReceipt
  | None =>
      match m !! absolute q (KDead (cl_shard c) (cl_job_id c)) with
      | None => Ok Buried
      | Some e =>
          match decode_at q (KDead (cl_shard c) (cl_job_id c)) (e_body e) with
          | Err x => Err (RecordE (MsgRecord x))
          | Ok (RecDead d) =>
              if (d_generation d =? cl_generation c) && (d_attempt d =? cl_attempt c) then Ok Buried
              else Err (RecordE (Msg "dead key holds conflicting evidence"))
          | Ok _ => Err (RecordE (Msg "dead key holds conflicting evidence"))
          end
      end
  end.

Definition commit_answer_at (m : Space) (c : Claim) (name body : bytes) : Result Error CommitOutcome :=
  if valid_output_name name then
    let out := {| out_key := output_key q (cl_job_id c) name; out_digest := sha256 body |} in
    match m !! output_key q (cl_job_id c) name with
    | None => Ok (OutCommitted out)
    | Some e =>
        if bytes_eqb (sha256 (e_body e)) (sha256 body) then Ok (Converged out)
        else Err (OutputConflict (sha256 (e_body e)))
    end
  else Err (KeyE "invalid output name").

(** What a write leaves, besides what is no job's. *)
Definition wrote (k : bytes) (m m' : Space) : Prop :=
  m !! k = None /\ is_Some (m' !! k) /\ forall s, core s -> root ++ s <> k -> m' !! (root ++ s) = m !! (root ++ s).

(* ------------------------------------------------------------------ *)
(** * The operations give them *)

Lemma does_result_ok {A} (r : Result Error A) m : does q 0 (result_ok r) m (fun r' m' => m' = m /\ r' = r).
Proof. destruct r; [by apply does_ret|by apply does_fail]. Qed.

Lemma does_payload_answer c m : does q 0 (payload c) m (fun r m' => m' = m /\ r = payload_answer m c).
Proof.
  unfold payload, payload_answer. destruct (cl_payload c) as [b|k d len]; [by apply does_ret|].
  apply (ends_bind q 0 0 _ _ _ _ _ (does_get q k m)). intros r ? _ [-> ->]. unfold get_answer.
  destruct (m !! k) as [e|]; [|by apply (does_fail q (StoreE NotFound))].
  apply (ends_bind q 0 0 _ _ _ _ _ (does_store_ok q _ _ m eq_refl)). intros o ? _ [-> ->]. cbn [o_body].
  destruct (_ =? len); [|by apply does_fail]. destruct (bytes_eqb _ d); [by apply does_ret|by apply does_fail].
Qed.

Lemma does_outputs_answer c outs m :
  does q (length outs) (for_each outs (verify_output q c)) m (fun r m' => m' = m /\ r = outputs_answer m c outs).
Proof.
  induction outs as [|out outs IH]; cbn [for_each length outputs_answer]; [by apply does_ret|].
  eapply (does_bind q 1 (length outs) _ _ _ (fun r m' => m' = m /\ r = outputs_answer m c [out])).
  - unfold verify_output. cbv zeta. cbn [outputs_answer].
    destruct (starts_with _ _); cbn [negb]; [|by apply (does_cost q 0); [lia|apply does_fail]].
    eapply (ends_bind q 1 0); [apply does_try, does_read_retrying|]. intros r ? _ Hr. cbv beta in Hr.
    destruct (m !! out_key out) as [e|].
    + destruct r as [obj|]; [|by destruct Hr]. destruct Hr as [-> [= ->]]. cbn [o_body].
      destruct (bytes_eqb _ _); cbn [negb]; [by apply does_ret|by apply does_fail].
    + destruct r as [obj|e]; [by destruct Hr|]. destruct Hr as [-> [= ->]]. by apply does_fail.
  - intros [] ? _ [-> Hr]. eapply does_mono; [reflexivity| |exact IH]. intros r m' _ [-> ->]. split; [done|].
    cbn [outputs_answer] in Hr. repeat case_match; done.
  - intros e ? _ [-> Hr]. split; [done|]. cbn [outputs_answer] in Hr. repeat case_match; congruence.
Qed.

(** Nothing, or the one write that an answer stands for. *)
Definition settled {A} (k : bytes) (answer : Result Error A) (m : Space) (r : Result Error A) (m' : Space) : Prop :=
  r = answer /\ (m' = m \/ is_ok answer = true /\ wrote k m m').

Lemma wrote_created k b m m1 m2 :
  m !! k = None -> created k b m m1 -> m1 ⊆ m2 -> same_core q m1 m2 -> wrote k m m2.
Proof.
  intros Hn (v & t & _ & ->) Hm Hs. split; [done|]. split.
  - eexists. eapply lookup_weaken; [apply space_insert|exact Hm].
  - intros s Hc Hne. rewrite Hs by done. by apply space_insert_ne.
Qed.

Lemma does_settled {A} n (x : M A) (k : bytes) (answer : Result Error A) m :
  does q n x m (fun r m' => m' = m /\ r = answer) -> does q n x m (settled k answer m).
Proof. apply does_mono; [reflexivity|]. intros r m' _ [-> ->]. split; [done|by left]. Qed.

Lemma does_decoded {A} k body (f : Record_ -> M A) (g : Record_ -> Result Error A) m :
  (forall r, f r = result_ok (g r)) ->
  does q 0 (r ← record_ok (decode_at q k body); f r) m (fun r m' => m' = m /\
    r = match decode_at q k body with Ok x => g x | Err e => Err (RecordE (MsgRecord e)) end).
Proof.
  intros Hf. unfold record_ok. destruct (decode_at q k body) as [x|e].
  - apply (ends_bind q 0 0 _ _ _ (fun y m' => m' = m /\ y = x)); [by apply does_ret|].
    intros y ? _ [-> ->]. rewrite Hf. apply does_result_ok.
  - eapply (does_bind q 0 0 _ _ _ (fun y m' => m' = m /\ y = Err (RecordE (MsgRecord e)))); [by apply does_fail|..].
    + by intros ? ? _ [_ ?].
    + intros e' ? _ [-> [= ->]]. done.
Qed.

(** Writing a record where there is none. *)
Lemma does_put_resolved k rec m :
  does q 1 (put_record q k rec) m (fun r m' =>
    match m !! absolute q k with
    | None => r = Ok RCommitted /\ created (absolute q k) (encode_at q k rec) m m'
    | Some _ => r = Ok RLost /\ m' = m
    end).
Proof.
  eapply does_mono; [reflexivity| |apply does_put_record]. intros [r|e] m' _; [|done]. cbn [succeeds].
  unfold put_resolved. destruct (m !! absolute q k); intros [? ->]; done.
Qed.

Lemma does_ack_answer c outs m :
  does q (ACK_OPS (length outs)) (ack_with_outputs q c outs) m
    (settled (absolute q (KReceipt (cl_shard c) (cl_job_id c))) (ack_answer m c outs) m).
Proof.
  unfold ack_with_outputs, ack_inner, ACK_OPS, ack_answer.
  apply (ends_bind q 1 (16 + length outs) _ _ _ _ _ (does_spend q m)). intros [] ? _ ->.
  apply (ends_bind q 1 (15 + length outs) _ _ _ _ _ (does_spend q m)). intros [] ? _ ->.
  apply (ends_bind q 0 (15 + length outs) _ _ _ _ _ (does_head q _ m)). intros r ? _ [-> ->]. unfold head_answer.
  apply (ends_bind q 0 (15 + length outs) _ _ _ _ _ (does_try q _ _ _ _ (does_payload_answer c m))).
  intros pl ? _ [-> ->].
  destruct (m !! absolute q (KDead _ _)); [by apply does_settled, (does_cost q 0); [lia|apply does_ret]|].
  destruct (payload_answer m c) as [b|e]; cbn [result_ok].
  2: { eapply does_settled, (does_cost q (0 + 0)); [lia|].
       eapply (does_bind q 0 0 _ _ _ (fun r m' => m' = m /\ r = Err e)); [by apply does_fail|by intros ? ? _ [_ ?]|].
       intros e' ? _ [-> [= ->]]. done. }
  eapply (ends_bind q 0 (15 + length outs) _ _ _ (fun y m' => m' = m /\ y = b)); [by apply does_ret|].
  intros y ? _ [-> ->]. cbv zeta. cbn [mbind result_bind].
  apply (does_cost q (length outs + 15)); [lia|].
  eapply (does_bind q (length outs) 15); [apply does_outputs_answer| |].
  2: { intros e ? _ [-> <-]. split; [done|by left]. }
  intros [] ? _ [-> <-]. cbn [mbind result_bind].
  apply (ends_bind q 1 14 _ _ _ _ _ (does_spend q m)). intros [] ? _ ->.
  set (k := KReceipt (cl_shard c) (cl_job_id c)). unfold receipt_answer. fold k.
  eapply (does_bind q 1 TERMIDX_OPS _ _ _ _ _ (does_put_resolved k _ m)).
  2: { intros e m1 _ Hr. by destruct (m !! absolute q k), Hr. }
  intros r m1 _ Hr. destruct (m !! absolute q k) as [e|] eqn:Ek.
  - destruct Hr as [[= ->] ->]. apply (does_settled TERMIDX_OPS), (does_cost q (1 + 0)); [unfold TERMIDX_OPS; lia|].
    eapply (ends_bind q 1 0 _ _ _ (fun obj m' => m' = m /\ o_body obj = e_body e)).
    { eapply does_mono; [reflexivity| |apply does_read_retrying]. rewrite Ek.
      intros [obj|x] m' _ [-> E]; [by injection E as ->|done]. }
    intros obj ? _ [-> ->]. eapply does_mono; [reflexivity| |apply (does_decoded k (e_body e) _
      (fun r => match r with RecReceipt r => if same_ack c (sha256 b) outs r then Ok AlreadyAcked else Err ReceiptEvidenceMismatch
                | _ => Err (RecordE (Msg "receipt key holds a non-receipt record")) end))].
    + intros x m' _ [-> ->]. done.
    + intros []; try done. by destruct (same_ack _ _ _ _).
  - destruct Hr as [[= ->] Hcr].
    apply (ends_bind q TERMIDX_OPS 0 _ _ _ _ _ (does_write_termidx q _ _ _ m1)). intros [] m2 Hm2 Hs.
    apply does_ret. split; [done|]. right. split; [done|]. by eapply wrote_created.
Qed.

Lemma does_bury_answer c reason m :
  does q 16 (bury q c reason) m
    (settled (absolute q (KDead (cl_shard c) (cl_job_id c))) (bury_answer m c) m).
Proof.
  unfold bury, bury_answer.
  apply (ends_bind q 1 15 _ _ _ _ _ (does_spend q m)). intros [] ? _ ->.
  apply (ends_bind q 0 15 _ _ _ _ _ (does_head q _ m)). intros r ? _ [-> ->]. unfold head_answer.
  destruct (m !! absolute q (KReceipt _ _)); [by apply does_settled, (does_cost q 0); [lia|apply does_ret]|].
  cbv zeta. set (k := KDead (cl_shard c) (cl_job_id c)).
  apply (ends_bind q 1 14 _ _ _ _ _ (does_spend q m)). intros [] ? _ ->.
  eapply (does_bind q 1 TERMIDX_OPS _ _ _ _ _ (does_put_resolved k _ m)).
  2: { intros e m1 _ Hr. by destruct (m !! absolute q k), Hr. }
  intros r m1 _ Hr. destruct (m !! absolute q k) as [e|] eqn:Ek.
  - destruct Hr as [[= ->] ->]. apply (does_settled TERMIDX_OPS), (does_cost q (1 + 0)); [unfold TERMIDX_OPS; lia|].
    eapply (ends_bind q 1 0 _ _ _ (fun obj m' => m' = m /\ o_body obj = e_body e)).
    { eapply does_mono; [reflexivity| |apply does_read_retrying]. rewrite Ek.
      intros [obj|x] m' _ [-> E]; [by injection E as ->|done]. }
    intros obj ? _ [-> ->]. eapply does_mono; [reflexivity| |apply (does_decoded k (e_body e) _
      (fun r => match r with
                | RecDead d => if (d_generation d =? cl_generation c) && (d_attempt d =? cl_attempt c) then Ok Buried
                               else Err (RecordE (Msg "dead key holds conflicting evidence"))
                | _ => Err (RecordE (Msg "dead key holds conflicting evidence")) end))].
    + intros x m' _ [-> ->]. done.
    + intros []; try done. by destruct (_ && _).
  - destruct Hr as [[= ->] Hcr].
    apply (ends_bind q TERMIDX_OPS 0 _ _ _ _ _ (does_write_termidx q _ _ _ m1)). intros [] m2 Hm2 Hs.
    apply does_ret. split; [done|]. right. split; [done|]. by eapply wrote_created.
Qed.

Lemma does_commit_answer c name body m :
  does q 2 (commit_output q c name body) m
    (settled (output_key q (cl_job_id c) name) (commit_answer_at m c name body) m).
Proof.
  unfold commit_output, commit_answer_at. destruct (valid_output_name name); cbn [negb].
  2: { apply does_settled, (does_cost q 0); [lia|]. by apply does_fail. }
  cbv zeta. unfold RETRY_TRANSPORT_MAX. cbn [commit_output_loop].
  apply (ends_bind q 1 1 _ _ _ _ _ (does_spend q m)). intros [] ? _ ->.
  apply (ends_bind q 0 1 _ _ _ _ _ (does_put q _ body m)). intros r m1 _ Hr. unfold put_answer in Hr.
  destruct (m !! output_key q (cl_job_id c) name) as [e|] eqn:Ek.
  - destruct Hr as [-> ->]. apply does_settled.
    eapply (ends_bind q 1 0 _ _ _ (fun obj m' => m' = m /\ o_body obj = e_body e)).
    { eapply does_mono; [reflexivity| |apply does_read_retrying]. rewrite Ek.
      intros [obj|x] m' _ [-> E]; [by injection E as ->|done]. }
    intros obj ? _ [-> E]. eapply does_mono; [reflexivity| |apply does_result_ok].
    intros x m' _ [-> ->]. split; [done|]. unfold classify_output. by rewrite E.
  - destruct Hr as [Hcr [v ->]]. apply (does_cost q 0); [lia|]. apply does_ret. split; [done|].
    right. split; [done|]. eapply wrote_created; [exact Ek|exact Hcr|done|reflexivity].
Qed.

(** A result as the operation's stop. *)
Definition stopped {A} (r : Result Error A) : Result Stop A :=
  match r with Ok a => Ok a | Err e => Err (Fails e) end.

Lemma does_stops {A} n (x : M A) m h k (answer : Result Error A) :
  does q n x m (settled k answer m) -> memo_sound q h m -> (n <= max_ops h)%nat ->
  calm (x h) m (fun rs m' => rs.1 = stopped answer /\ (m' = m \/ is_ok answer = true /\ wrote k m m')).
Proof.
  intros Hx Hm Hb. eapply calm_mono; [|by apply Hx]. intros [r s] m' (_ & _ & _ & Hr). cbn [fst] in *.
  destruct r as [a|[e| |]]; [| |done..]; destruct Hr as [<- Hw]; done.
Qed.

End Answers.

(* ------------------------------------------------------------------ *)
(** * On the memory store *)

Section Sample.
#[local] Existing Instance toy_digest.
#[local] Existing Instance memory_store.

Definition a_claim : Claim :=
  {| cl_job_id := vector_job_id; cl_shard := 0; cl_generation := 1; cl_attempt := 1;
     cl_worker_token := be_bytes 16 1; cl_lease_duration_ns := 60; cl_claim_store_time_ns := 3;
     cl_payload := Inline ¶"hello stowq" |}.
Definition missing_output : CommittedOutput := output_of plain_queue a_claim (sha256 ¶"done").

Lemma missing_output_answer :
  ack_answer plain_queue (plain_space plain1) a_claim [missing_output]
  = Err (OutputEvidenceMismatch "absent at ack").
Proof. vm_compute. reflexivity. Qed.

End Sample.
