(* ===== verification/Prediction.v ===== *)
(** What the differential driver predicts of a claim.

    The driver walks its jobs in order, lets the oracle exhaust what is due and
    takes the first claimable job; on attempts that can be counted on
    ([bounded]) this is the oracle's own scan, slot by slot ([predict_scan]). *)

From S2P Require Import Prelude Sha256 StowqMath Text Keys Records Direct Store Memory Oracle Effects Rely Queue Claims Budget.
From S2P Require Import Samples Driver Protocol Lifecycle Custody Runs Calm Pages Tracking Agreement Scan Holders Refinement.

(* ------------------------------------------------------------------ *)
(** * The driver's job ids *)

Definition indexed (n : nat) : Prop := Z.of_nat n < 2 ^ 64.

Lemma job_id_length n : is_id (job_id n).
Proof. unfold is_id, job_id. by rewrite length_app, be_bytes_length, length_replicate. Qed.

Lemma job_index_id n : indexed n -> job_index (job_id n) = n.
Proof.
  intros Hn. unfold job_index, job_id. rewrite take_app_length' by (by rewrite be_bytes_length).
  rewrite be_val_bytes_small; [lia|]. unfold indexed in Hn. cbn. lia.
Qed.

Lemma job_id_inj a b : indexed a -> indexed b -> job_id a = job_id b -> a = b.
Proof. intros Ha Hb E. by rewrite <- (job_index_id a Ha), <- (job_index_id b Hb), E. Qed.

Lemma job_id_lt a b : indexed b -> (a < b)%nat -> bytes_lt (job_id a) (job_id b).
Proof.
  intros Hb Hab. unfold indexed in Hb. unfold bytes_lt, job_id. rewrite bytes_cmp_app_ne.
  - rewrite bytes_cmp_be_val by (by rewrite !be_bytes_length). rewrite !be_val_bytes_small by (cbn; lia). apply Z.compare_lt_iff. lia.
  - by rewrite !be_bytes_length.
  - intros E%bytes_cmp_eq. apply (f_equal be_val) in E. rewrite !be_val_bytes_small in E by (cbn; lia). lia.
Qed.

(** The ids of the driver's jobs, in order. *)
Lemma job_ids_sorted n k : Forall indexed (seq n k) -> StronglySorted bytes_lt (map job_id (seq n k)).
Proof.
  revert n. induction k as [|k IH]; intros n HF; cbn; [constructor|]. apply Forall_cons in HF as [_ HF].
  constructor; [by apply IH|]. rewrite Forall_map. rewrite Forall_forall in *. intros x Hx.
  pose proof Hx as Hx'%elem_of_seq. apply job_id_lt; [by apply HF|lia].
Qed.

(* ------------------------------------------------------------------ *)
(** * The driver's prediction is the oracle's scan *)

(** Jobs that are not there do not matter to a scan. *)
Lemma visit_absent lease base o j : jobs o !! j = None -> oracle_visit lease base o j = (None, o).
Proof. intros E. unfold oracle_visit, exhaust_if_due, can_claim. by rewrite E. Qed.

Lemma visit_keeps_jobs lease base o j got o' i :
  oracle_visit lease base o j = (got, o') -> is_Some (jobs o' !! i) <-> is_Some (jobs o !! i).
Proof.
  intros Hv. destruct (visit_others _ _ _ _ _ _ Hv) as [_ Ho].
  destruct (decide (i = j)) as [->|Hne]; [|by rewrite Ho].
  revert Hv. unfold oracle_visit, exhaust_if_due, can_claim, oracle_claim.
  destruct (jobs o !! j) as [st|] eqn:Ej; [|intros [= <- <-]; by rewrite Ej].
  repeat case_match; intros; simplify_eq; cbn; rewrite ?lookup_insert_eq, ?Ej; split; by eexists.
Qed.

Lemma scan_present lease base ids o :
  oracle_scan lease base ids o = oracle_scan lease base (filter (fun j => is_Some (jobs o !! j)) ids) o.
Proof.
  revert o. induction ids as [|j ids IH]; intros o; [done|]. cbn [oracle_scan]. rewrite filter_cons. case_decide as Hj.
  - cbn [oracle_scan]. destruct (oracle_visit lease base o j) as [[ga|] o'] eqn:Hv; [done|].
    rewrite IH. f_equal. apply list_filter_iff. intros i. by eapply visit_keeps_jobs.
  - rewrite visit_absent; [apply IH|]. by apply eq_None_not_Some.
Qed.

#[local] Arguments job_id : simpl never.

(** A scan adds no job and changes no maximum. *)
Lemma visit_keeps_max lease base o j got o' i st' :
  oracle_visit lease base o j = (got, o') -> jobs o' !! i = Some st' ->
  exists st, jobs o !! i = Some st /\ maximum_attempts st' = maximum_attempts st.
Proof.
  intros Hv Ei. destruct (visit_others _ _ _ _ _ _ Hv) as [_ Ho].
  destruct (decide (i = j)) as [->|Hne]; [|rewrite Ho in Ei by done; by exists st'].
  revert Hv. unfold oracle_visit, exhaust_if_due, can_claim, oracle_claim.
  destruct (jobs o !! j) as [st|] eqn:Ej; [|intros [= <- <-]; congruence].
  intros Hv. exists st. split; [done|]. revert Hv.
  repeat case_match; intros; simplify_eq; cbn in *; rewrite ?lookup_insert_eq in *; by simplify_eq.
Qed.

Lemma scan_keeps_max lease base ids o got o' i st' :
  oracle_scan lease base ids o = (got, o') -> jobs o' !! i = Some st' ->
  exists st, jobs o !! i = Some st /\ maximum_attempts st' = maximum_attempts st.
Proof.
  revert o. induction ids as [|j ids IH]; intros o; cbn [oracle_scan]; [intros [= <- <-]; by exists st'|].
  destruct (oracle_visit lease base o j) as [[ga|] o1] eqn:Hv.
  - intros [= <- <-]. by eapply visit_keeps_max.
  - intros Hs Ei. destruct (IH o1 Hs Ei) as (st1 & E1 & Em1).
    destruct (visit_keeps_max _ _ _ _ _ _ _ _ Hv E1) as (st & E & Em). exists st. split; [done|]. by rewrite Em1.
Qed.

(** Attempts that can be counted on. *)
Definition bounded (o : Oracle) : Prop :=
  forall j st g a x, jobs o !! j = Some st -> phase st = PClaimed g a x \/ phase st = Backoff g a x -> 0 <= a < u64_max.

Lemma visit_can_claim lease base o j :
  bounded o -> can_claim o j = true ->
  exists ga o', oracle_claim o j lease base = (Some ga, o') /\ oracle_visit lease base o j = (Some ga, o').
Proof.
  intros Hb Hc. unfold oracle_visit, exhaust_if_due, exhaustion_due, can_claim, oracle_claim in *.
  destruct (jobs o !! j) as [st|] eqn:Ej; [|done].
  destruct (phase st) as [n|g a x|g a n|t] eqn:Ep; [| | |done].
  - rewrite Hc. eauto.
  - pose proof (Hb j st g a x Ej (or_introl Ep)) as Ha. apply andb_prop in Hc as [H1 H2].
    rewrite H1, H2, (wrapping_add_small a 1) by lia. apply Z.ltb_lt in H2. rewrite (proj2 (Z.ltb_ge _ _)) by lia. eauto.
  - pose proof (Hb j st g a n Ej (or_intror Ep)) as Ha. apply andb_prop in Hc as [H1 H2].
    rewrite H1, H2, (wrapping_add_small a 1) by lia. apply Z.ltb_lt in H2. rewrite (proj2 (Z.ltb_ge _ _)) by lia. eauto.
Qed.

Lemma claim_moves o j lease base ga o' :
  oracle_claim o j lease base = (Some ga, o') ->
  o_clock o' = o_clock o /\ (forall i, i <> j -> jobs o' !! i = jobs o !! i) /\
  exists st st', jobs o !! j = Some st /\ jobs o' !! j = Some st' /\ output st' = output st.
Proof.
  unfold oracle_claim. destruct (jobs o !! j) as [st|] eqn:Ej; [|done]. intros Hc.
  assert (exists p, o' = set_phase o j st p) as [p ->].
  { revert Hc. repeat case_match; intros; simplify_eq; by eexists. }
  cbn. split; [done|]. split; [intros i Hne; by rewrite lookup_insert_ne|].
  exists st. eexists. rewrite lookup_insert_eq. done.
Qed.

(** Exhaustion buries the job. *)
Definition buried_from (o o' : Oracle) (j : bytes) : Prop :=
  exists st, jobs o !! j = Some st /\
    jobs o' !! j = Some {| maximum_attempts := maximum_attempts st; phase := PTerminal (TermDead 0x0004); output := output st |}.

Lemma exhausted_once o j o' :
  exhaust_if_due o j = (true, o') ->
  buried_from o o' j /\ o_clock o' = o_clock o /\ forall i, i <> j -> jobs o' !! i = jobs o !! i.
Proof.
  unfold exhaust_if_due. destruct (jobs o !! j) as [st|] eqn:Ej; [|done]. destruct (exhaustion_due _ _); [|done].
  intros [= <-]. cbn. split; [exists st; split; [done|]; cbn; by rewrite lookup_insert_eq|]. split; [done|].
  intros i Hne. cbn. by rewrite lookup_insert_ne.
Qed.

Lemma not_exhausted o j o' : exhaust_if_due o j = (false, o') -> o' = o.
Proof.
  unfold exhaust_if_due. destruct (jobs o !! j) as [st|]; [|by intros [= <-]].
  destruct (exhaustion_due _ _); [done|by intros [= <-]].
Qed.

Lemma bounded_exhausted o j o' : exhaust_if_due o j = (true, o') -> bounded o -> bounded o'.
Proof.
  intros He Hb. destruct (exhausted_once o j o' He) as ((st0 & _ & Ej) & _ & Ho).
  intros i st g a x Ei Hp. destruct (decide (i = j)) as [->|Hne]; [|rewrite Ho in Ei by done; by eapply Hb].
  rewrite Ej in Ei. injection Ei as <-. by destruct Hp.
Qed.

Section Predict.
Context {S : Type}.

(** What the prediction leaves of a slot: as it was, or emptied with its job
    buried. *)
Definition slot_kept (js : list nat) (d d' : DriveState S) (n : nat) : Prop :=
  jobs (ds_oracle d') !! job_id n = jobs (ds_oracle d) !! job_id n /\ ds_held d' !! n = ds_held d !! n \/
  n ∈ js /\ buried_from (ds_oracle d) (ds_oracle d') (job_id n) /\ ((n < length (ds_held d))%nat -> ds_held d' !! n = Some None).

Definition same_driver (d d' : DriveState S) : Prop :=
  ds_world d' = ds_world d /\ ds_handle d' = ds_handle d /\ ds_out_keys d' = ds_out_keys d /\
  length (ds_held d') = length (ds_held d) /\ o_clock (ds_oracle d') = o_clock (ds_oracle d).

Lemma predict_scan lease base js (d : DriveState S) :
  Forall indexed js -> NoDup js -> bounded (ds_oracle d) ->
  let '(expected, d') := predict js d in
  same_driver d d' /\ (forall n, indexed n -> slot_kept js d d' n) /\
  match expected with
  | Some n => n ∈ js /\ exists ga o', oracle_claim (ds_oracle d') (job_id n) lease base = (Some ga, o') /\
      oracle_scan lease base (map job_id js) (ds_oracle d) = (Some (job_id n, ga), o')
  | None => oracle_scan lease base (map job_id js) (ds_oracle d) = (None, ds_oracle d')
  end.
Proof.
  revert d. induction js as [|j js IH]; intros d HF Hnd Hb; cbn [predict map oracle_scan].
  { split; [done|]. split; [|done]. intros n _. by left. }
  apply Forall_cons in HF as [Hj HF]. apply NoDup_cons in Hnd as [Hnj Hnd].
  assert (forall d1 : DriveState S, (forall n, indexed n -> n <> j -> slot_kept js d d1 n) -> slot_kept (j :: js) d d1 j ->
    forall n, indexed n -> slot_kept (j :: js) d d1 n) as Hslots.
  { intros d1 Hoth Hown n Hn. destruct (decide (n = j)) as [->|Hne]; [done|].
    destruct (Hoth n Hn Hne) as [?|(? & ?)]; [by left|right; split; [by right|done]]. }
  unfold oracle_visit. destruct (exhaust_if_due (ds_oracle d) (job_id j)) as [[] o1] eqn:He.
  - set (d1 := {| ds_world := ds_world d; ds_handle := _; ds_oracle := o1; ds_held := _; ds_out_keys := _; ds_exhausted := _ |}).
    specialize (IH d1 HF Hnd (bounded_exhausted _ _ _ He Hb)).
    destruct (exhausted_once _ _ _ He) as (Hbur & Hclk & Hoth).
    destruct (predict js d1) as [expected d']. destruct IH as ((E1 & E2 & E3 & E4 & E5) & IHs & IHe).
    split; [unfold same_driver; cbn in *; rewrite E1, E2, E3, E4, E5, length_insert; done|]. split; [|].
    + apply Hslots.
      * intros n Hn Hne. destruct (IHs n Hn) as [[Eo Eh]|(Hin & (st & Est & Est') & Eh)]; cbn in *.
        -- left. rewrite Eo, Eh. split; [|by rewrite list_lookup_insert_ne].
           apply Hoth. intros E. by apply job_id_inj in E.
        -- right. split; [done|]. split; [|rewrite length_insert in Eh; done]. exists st. split; [|done].
           rewrite <- Est. symmetry. apply Hoth. intros E. by apply job_id_inj in E.
      * right. split; [by left|]. destruct (IHs j Hj) as [[Eo Eh]|(Hin & _)]; [|done]. cbn in *.
        split; [destruct Hbur as (st & ? & ?); exists st; by rewrite Eo|]. intros Hlen. rewrite Eh.
        by apply list_lookup_insert_eq.
    + destruct expected as [n|]; [|exact IHe]. destruct IHe as [Hin IHe]. split; [by right|exact IHe].
  - apply not_exhausted in He as ->. destruct (can_claim (ds_oracle d) (job_id j)) eqn:Hc.
    + destruct (visit_can_claim lease base _ _ Hb Hc) as (ga & o' & Hcl & _).
      split; [done|]. split; [intros n _; by left|]. split; [by left|]. exists ga, o'. rewrite Hcl. done.
    + specialize (IH d HF Hnd Hb). destruct (predict js d) as [expected d']. destruct IH as (IHd & IHs & IHe).
      split; [done|]. split.
      * intros n Hn. destruct (IHs n Hn) as [?|[? ?]]; [by left|right; split; [by right|done]].
      * destruct expected as [n|]; [|exact IHe]. destruct IHe as [Hin IHe]. split; [by right|exact IHe].
Qed.
End Predict.
