(* ===== verification/Differential.v ===== *)
(** The differential driver never cries wolf: on the memory store, when queue
    and oracle agree, an operation of the driver ends without a divergence and
    they agree again.

    The agreement ([agrees]) is the tracking relation of [Tracking], what the
    driver keeps (the claims it holds, the output keys it saw) and room for
    the calls to come.  [ClaimMany] is left out: there the driver does cry
    wolf ([Findings]). *)

From S2P Require Import Prelude Sha256 StowqMath Text Keys Records Direct Store Memory Oracle Effects Rely Queue Claims Budget.
From S2P Require Import Samples Driver Protocol Lifecycle Custody Runs Calm Pages Tracking Agreement Scan Holders Refinement.
From S2P Require Import Prediction.

#[local] Arguments job_id : simpl never.

(* ------------------------------------------------------------------ *)
(** * Agreement *)

Section Agrees.
Context {HS : Sha256} (q : Queue) (cfg : DriverConfig).
Context (Hfmt : q_format q = driver_format) (Hqid : o_queue_id (q_opts q) = driver_queue_id).
Context (Hjobs : Forall indexed (seq 0 (dc_jobs cfg))).
Context (Hretry : retry_policy_new 100 60000 true None = Ok (o_retry (q_opts q))).
Context (Hinline : 1 <= o_max_inline_payload (q_opts q)).
Context (Hmax : is_u64 (dc_max_attempts cfg) /\ dc_max_attempts cfg <> 0) (Hlease : is_u64 (dc_lease_ns cfg)).
#[local] Existing Instance memory_store.
#[local] Existing Instance memory_laws.
#[local] Abbreviation root := (q_root q).
#[local] Abbreviation qid := (o_queue_id (q_opts q)).
#[local] Abbreviation rely := (rely root qid).

Definition space_of (d : DriveState MemoryStore) : Space := store_view (w_store (ds_world d)).

(** The input the driver enqueues for a job. *)
Definition drive_input (n : nat) : EnqueueInput :=
  {| ei_job_id := Some (job_id n); ei_payload := ¶"x"; ei_content_type := ¶"text/plain";
     ei_maximum_attempts := dc_max_attempts cfg; ei_not_before_ns := None |}.

(** Slot [n] of the driver: the claim held is the job's custody, or nobody's;
    the output key seen is the committed output's. *)
Definition slot_agrees (m : Space) (o : Oracle) (n : nat) (h : option Claim) (k : option bytes) : Prop :=
  match h with
  | Some c => cl_job_id c = job_id n /\ in_hand q m o c /\ cl_lease_duration_ns c = dc_lease_ns cfg /\
      exists b, cl_payload c = Inline b
  | None => forall st g a x, jobs o !! job_id n = Some st -> phase st <> PClaimed g a x
  end /\
  match output_digest o (job_id n) with
  | Some dg => dg = sha256 (output_content n) /\ k = Some (output_key q (job_id n) ¶"result")
  | None => k = None
  end.

(** What the final comparison will find of job [n]: its output's bytes, its
    receipt's digests. *)
Definition final_ok (m : Space) (o : Oracle) (n : nat) : Prop :=
  (forall dg, output_digest o (job_id n) = Some dg ->
     exists e, m !! output_key q (job_id n) ¶"result" = Some e /\ e_body e = output_content n) /\
  (forall st, jobs o !! job_id n = Some st -> phase st = PTerminal TermReceipt ->
     holds_at root qid m (KReceipt 0 (job_id n)) (fun _ r => exists x, r = RecReceipt x /\
       r_output_digests x = match output st with Some dg => [dg] | None => [] end)).

Record agrees (d : DriveState MemoryStore) (G : Z) : Prop := {
  ag_follows : follows q (space_of d) (ds_oracle d) G;
  ag_clock : is_u64 (o_clock (ds_oracle d));
  ag_cached : cached_ok (ds_handle d);
  ag_memo : memo_sound q (ds_handle d) (space_of d);
  ag_room : world_ok (max_ops (ds_handle d)) (ds_world d);
  ag_length : length (ds_held d) = dc_jobs cfg /\ length (ds_out_keys d) = dc_jobs cfg;
  ag_slots : forall n, (n < dc_jobs cfg)%nat -> exists h k,
    ds_held d !! n = Some h /\ ds_out_keys d !! n = Some k /\ slot_agrees (space_of d) (ds_oracle d) n h k;
  ag_final : forall n, (n < dc_jobs cfg)%nat -> final_ok (space_of d) (ds_oracle d) n;
  ag_jobs : forall j st, jobs (ds_oracle d) !! j = Some st -> exists n, (n < dc_jobs cfg)%nat /\ j = job_id n;
  ag_max : forall j st, jobs (ds_oracle d) !! j = Some st -> maximum_attempts st = dc_max_attempts cfg;
  ag_records : forall n s job, (n < dc_jobs cfg)%nat -> is_u16 s -> job_at q s (job_id n) job (space_of d) ->
    job = job_record q (drive_input n) (job_id n)
}.

Lemma slot_indexed n : (n < dc_jobs cfg)%nat -> indexed n.
Proof. intros Hn. rewrite Forall_forall in Hjobs. apply Hjobs, elem_of_seq. lia. Qed.

Lemma one_shard j : shard_of q j 0.
Proof. unfold shard_of. rewrite Hfmt. unfold compute_shard. cbn. f_equal. apply Z.land_0_r. Qed.

Lemma only_shard j s : shard_of q j s -> s = 0.
Proof. intros Hs. pose proof (one_shard j) as H0. unfold shard_of in *. congruence. Qed.

Lemma slot_moves m m' o o' n h k :
  rely m m' -> jobs o' !! job_id n = jobs o !! job_id n -> slot_agrees m o n h k -> slot_agrees m' o' n h k.
Proof.
  intros Hm E [Hh Hk]. unfold slot_agrees, output_digest in *. rewrite E. split; [|done].
  destruct h as [c|]; [|done]. destruct Hh as (Ej & Hi & Hl & Hp). split_and!; try done.
  eapply in_hand_other; [exact Hm| |exact Hi]. by rewrite Ej.
Qed.

Lemma final_kept m m' o o' n :
  m ⊆ m' -> jobs o' !! job_id n = jobs o !! job_id n -> final_ok m o n -> final_ok m' o' n.
Proof.
  intros Hm E [Ho Hr]. unfold final_ok, output_digest in *. rewrite E. split.
  - intros dg Hdg. destruct (Ho dg Hdg) as (e & He & Hb). exists e. split; [by eapply lookup_weaken|done].
  - intros st Est Hp. destruct (Hr st Est Hp) as (e & r & He & Hd). exists e, r. split; [by eapply lookup_weaken|done].
Qed.

Lemma final_unsettled m m' o o' n :
  m ⊆ m' -> output_digest o' (job_id n) = output_digest o (job_id n) ->
  (forall st, jobs o' !! job_id n = Some st -> phase st <> PTerminal TermReceipt) -> final_ok m o n -> final_ok m' o' n.
Proof.
  intros Hm E Hp [Ho _]. split.
  - intros dg. rewrite E. intros Hdg. destruct (Ho dg Hdg) as (e & He & Hb). exists e. split; [by eapply lookup_weaken|done].
  - intros st Est Ep. by destruct (Hp st Est).
Qed.

(** Performing an operation that succeeds. *)
Record performed {A} (d d' : DriveState MemoryStore) (n : nat) (a : A) (P : A -> Space -> Prop) : Prop := {
  pf_result : P a (space_of d');
  pf_oracle : ds_oracle d' = ds_oracle d;
  pf_held : ds_held d' = ds_held d;
  pf_keys : ds_out_keys d' = ds_out_keys d;
  pf_cached : cached_ok (ds_handle d');
  pf_memo : memo_sound q (ds_handle d') (space_of d');
  pf_room : world_ok (max_ops (ds_handle d')) (ds_world d');
  pf_sub : space_of d ⊆ space_of d';
  pf_inv : Inv root qid (space_of d');
  pf_cost : (max_ops (ds_handle d) <= max_ops (ds_handle d') + n)%nat
}.

Lemma performs {A} n (x : M A) message (d : DriveState MemoryStore) P :
  goes q n x (space_of d) P -> entry_point q x -> cached_ok (ds_handle d) ->
  memo_sound q (ds_handle d) (space_of d) -> world_ok (max_ops (ds_handle d)) (ds_world d) ->
  (n <= max_ops (ds_handle d))%nat ->
  exists a d', perform x message d = Ok (a, d') /\ performed d d' n a P.
Proof.
  intros Hx Hep Hc Hm Hw Hn.
  pose proof (entry_point_uses q x (Datatypes.S (max_ops (ds_handle d))) Hep (ds_handle d) ltac:(lia)) as Hr.
  rewrite Nat.add_0_r in Hr. apply (run_runs _ (ds_world d)) in Hr as [Hle [_ Hacct]].
  pose proof (calm_run (x (ds_handle d)) (ds_world d) _ (world_ok_le _ _ _ Hw Hle) (Hx (ds_handle d) Hc Hm Hn)) as Hq.
  assert (world_ok (max_ops (ds_handle d) - run_calls (x (ds_handle d)) (ds_world d)) (run (x (ds_handle d)) (ds_world d)).2) as Hw'.
  { apply run_ok. by replace (run_calls _ _ + _)%nat with (max_ops (ds_handle d)) by lia. }
  unfold perform. destruct (run (x (ds_handle d)) (ds_world d)) as [[r h] w] eqn:E. cbn [fst snd] in *.
  destruct Hq as (Hsub & HI' & Hc' & Hm' & Hcost & Hr). destruct r as [a|e]; [|done].
  eexists a, _. split; [reflexivity|]. split; cbn; try done.
  eapply world_ok_le; [exact Hw'|]. lia.
Qed.

Lemma job_at_fun m s j job job' : job_at q s j job m -> job_at q s j job' m -> job = job'.
Proof. intros (e & r & He & Hd & ->) (e' & r' & He' & Hd' & ->). congruence. Qed.

Lemma slot_moved m m' o o' n i h k :
  moved q m m' o o' (job_id n) -> (n < dc_jobs cfg)%nat -> (i < dc_jobs cfg)%nat -> i <> n ->
  slot_agrees m o i h k -> slot_agrees m' o' i h k.
Proof.
  intros Hm Hn Hi Hne [Hh Hk].
  assert (job_id i <> job_id n) as Hj by (intros E; apply job_id_inj in E; auto using slot_indexed).
  unfold slot_agrees, output_digest in *. rewrite (mv_others q _ _ _ _ _ Hm) by done. split; [|done].
  destruct h as [c|]; [|done]. destruct Hh as (Ej & Hin & Hl & Hp). split_and!; try done.
  apply (mv_hands q _ _ _ _ _ Hm); [by rewrite Ej|done].
Qed.

(** A job that was there is still recorded the same. *)
Lemma record_kept m m' o o' n :
  m ⊆ m' -> tracks q m o -> tracks q m' o' -> is_Some (jobs o !! job_id n) ->
  (forall s job, is_u16 s -> job_at q s (job_id n) job m -> job = job_record q (drive_input n) (job_id n)) ->
  forall s job, is_u16 s -> job_at q s (job_id n) job m' -> job = job_record q (drive_input n) (job_id n).
Proof.
  intros Hsub (Hall & _) (_ & Hplane & _) [st Est] Hrec s job Hs Hjob.
  destruct (Hall _ _ Est) as (Hid & s0 & Hs0 & ((job0 & Hjob0 & _) & _)).
  assert (s = s0) as ->.
  { destruct (Hplane s (job_id n) Hs Hid) as [Hsh _]; [destruct Hjob as (e & r & He & _); by exists e|].
    unfold shard_of in *. congruence. }
  rewrite <- (Hrec _ _ Hs Hjob0). eapply job_at_fun; [exact Hjob|]. by eapply job_at_mono.
Qed.

Lemma agrees_step {A} d0 d d' d'' n cost (a : A) P o' h k G :
  agrees d G -> performed d0 d' cost a P -> space_of d0 = space_of d -> moved q (space_of d) (space_of d') (ds_oracle d) o' (job_id n) ->
  (n < dc_jobs cfg)%nat ->
  ds_world d'' = ds_world d' -> ds_handle d'' = ds_handle d' -> ds_oracle d'' = o' ->
  ds_held d'' = <[n := h]> (ds_held d) -> ds_out_keys d'' = <[n := k]> (ds_out_keys d) ->
  slot_agrees (space_of d') o' n h k -> final_ok (space_of d') o' n ->
  (forall st, jobs o' !! job_id n = Some st -> maximum_attempts st = dc_max_attempts cfg) ->
  (jobs (ds_oracle d) !! job_id n = None ->
   forall s job, is_u16 s -> job_at q s (job_id n) job (space_of d') -> job = job_record q (drive_input n) (job_id n)) ->
  agrees d'' (G + 1).
Proof.
  intros [Hf Hck Hc Hm Hr [Hl1 Hl2] Hs Hfin Hj Hmx Hrec] [] E0 Hmv Hn Ew Eh Eo Ed Ek Hslot Hfn Hmax' Hnew.
  assert (space_of d'' = space_of d') as Esp by (unfold space_of; by rewrite Ew). rewrite E0 in *.
  split; rewrite ?Esp, ?Eh, ?Ew, ?Eo, ?Ed, ?Ek; try done.
  - by eapply moved_follows.
  - by rewrite (mv_clock q _ _ _ _ _ Hmv).
  - by rewrite !length_insert.
  - intros i Hi. destruct (decide (i = n)) as [->|Hne].
    + exists h, k. rewrite !list_lookup_insert_eq by lia. done.
    + destruct (Hs i Hi) as (h' & k' & Hh' & Hk' & Hsl). exists h', k'.
      rewrite !list_lookup_insert_ne by done. split; [done|]. split; [done|]. by eapply slot_moved.
  - intros i Hi. destruct (decide (i = n)) as [->|Hne]; [done|]. apply (final_kept (space_of d) _ (ds_oracle d)); auto.
    apply (mv_others q _ _ _ _ _ Hmv). intros E. apply job_id_inj in E; auto using slot_indexed.
  - intros j st Est. destruct (decide (j = job_id n)) as [->|Hne]; [by exists n|].
    rewrite (mv_others q _ _ _ _ _ Hmv) in Est by done. by eapply Hj.
  - intros j st Est. destruct (decide (j = job_id n)) as [->|Hne]; [by apply Hmax'|].
    rewrite (mv_others q _ _ _ _ _ Hmv) in Est by done. by eapply Hmx.
  - intros i s job Hi H16 Hjob. destruct (jobs (ds_oracle d) !! job_id i) as [st|] eqn:Est.
    + eapply (record_kept (space_of d) (space_of d') (ds_oracle d) o' i); try done; [apply Hf|apply Hmv|intros; by eapply Hrec].
    + destruct (decide (i = n)) as [->|Hne]; [by eapply Hnew|].
      pose proof (mv_tracks q _ _ _ _ _ Hmv) as (_ & Hplane & _).
      destruct (Hplane s (job_id i) H16 (job_id_length i)) as [_ [st' Est']]; [destruct Hjob as (e & r & He & _); by exists e|].
      rewrite (mv_others q _ _ _ _ _ Hmv) in Est'; [congruence|].
      intros E. apply job_id_inj in E; auto using slot_indexed.
Qed.

(** Budget for one operation of the driver. *)
Definition STEP_OPS (d : DriveState MemoryStore) (G : Z) : nat := CLAIM_OPS (space_of d) G + 18.

Definition affords (d : DriveState MemoryStore) (G : Z) : Prop :=
  G + 1 < u32_max /\ (STEP_OPS d G <= max_ops (ds_handle d))%nat.

(** The agreement's own performance of an operation. *)
Lemma agreed_performs {A} n (x : M A) message d d0 G P :
  agrees d G -> affords d G -> ds_world d0 = ds_world d -> ds_handle d0 = ds_handle d ->
  goes q n x (space_of d) P -> entry_point q x -> (n <= STEP_OPS d G)%nat ->
  exists a d', perform x message d0 = Ok (a, d') /\ performed d0 d' n a P.
Proof.
  intros Ha [_ Hb] Ew Eh Hx Hep Hn.
  assert (space_of d0 = space_of d) as Es by (unfold space_of; by rewrite Ew).
  apply performs; rewrite ?Es, ?Eh, ?Ew; try done; [apply Ha|apply Ha|apply Ha|lia].
Qed.

Lemma drive_input_ok n : (n < dc_jobs cfg)%nat -> input_ok (drive_input n).
Proof.
  intros Hn. split; [|split; [apply Hmax|split; [by vm_compute|split; [by vm_compute|done]]]].
  intros j [= <-]. apply job_id_length.
Qed.

Lemma slot_unchanged {A} (l : list A) n x : l !! n = Some x -> <[n := x]> l = l.
Proof. apply list_insert_id. Qed.

Lemma enqueue_agrees n d G :
  agrees d G -> affords d G -> (n < dc_jobs cfg)%nat ->
  exists d', drive_enqueue q cfg n d = Ok d' /\ agrees d' (G + 1).
Proof.
  intros Ha Hb Hn. pose proof (ag_follows _ _ Ha) as [Hq _ _ HI Ht _ _].
  destruct (ag_slots _ _ Ha n Hn) as (h & k & Hh & Hk & Hslot).
  pose proof (goes_enqueue q Hq (space_of d) (ds_oracle d) (drive_input n) (job_id n) 0 HI Ht (drive_input_ok n Hn)
    ltac:(done) (proj2 Hmax) eq_refl (one_shard _)
    ltac:(intros st job _ Hjob _; by apply (ag_records _ _ Ha n 0 job Hn ltac:(unfold is_u16; lia)))) as Hgo.
  cbv zeta in Hgo. unfold drive_enqueue. cbn [ei_maximum_attempts drive_input ei_not_before_ns default] in Hgo.
  destruct (oracle_enqueue (ds_oracle d) (job_id n) (dc_max_attempts cfg) 0) as [expected o'] eqn:Eo. cbn [fst snd] in Hgo.
  destruct (agreed_performs 4 (enqueue q (drive_input n)) "enqueue survives faults" d (with_oracle d o') G _ Ha Hb eq_refl eq_refl Hgo)
    as (r & d' & Hp & Hpf); [constructor|unfold STEP_OPS; lia|].
  unfold drive_input in Hp. rewrite Hp. cbn [mbind result_bind].
  destruct (pf_result _ _ _ _ _ Hpf) as (-> & Hmv & Hhands & Hnew).
  assert (assert_ (Bool.eqb (match (if expected then EnqCommitted (job_id n) else IdTaken (job_id n)) with
    | EnqCommitted _ => true | IdTaken _ => false end) expected) "enqueue" = Ok tt) as -> by (by destruct expected).
  eexists. split; [reflexivity|].
  unfold oracle_enqueue in Eo.
  eapply (agrees_step (with_oracle d o') d d' d' n _ _ _ o' h k G Ha Hpf eq_refl Hmv Hn); try done.
  - apply Hpf.
  - rewrite (pf_held _ _ _ _ _ Hpf). cbn. by rewrite slot_unchanged.
  - rewrite (pf_keys _ _ _ _ _ Hpf). cbn. by rewrite slot_unchanged.
  - destruct Hslot as [Hs1 Hs2]. unfold output_digest in *. split.
    + destruct h as [c|].
      * destruct Hs1 as (Ec & Hc & ?). split; [done|]. split; [by apply Hhands|done].
      * intros st g a x Est. destruct (jobs (ds_oracle d) !! job_id n) as [st0|] eqn:E0; injection Eo as <- <-.
        -- rewrite E0 in Est. injection Est as ->. by eapply Hs1.
        -- cbn in Est. rewrite lookup_insert_eq in Est. by injection Est as <-.
    + unfold output_digest. destruct (jobs (ds_oracle d) !! job_id n) as [st0|] eqn:E0; injection Eo as <- <-.
      * by rewrite E0.
      * cbn. rewrite lookup_insert_eq. cbn. done.
  - pose proof (ag_final _ _ Ha n Hn) as Hfin. pose proof (pf_sub _ _ _ _ _ Hpf) as Hsub.
    destruct (jobs (ds_oracle d) !! job_id n) as [st0|] eqn:E0; injection Eo as <- <-; [by eapply final_kept|].
    apply (final_unsettled (space_of d) _ (ds_oracle d)); [done| | |done].
    + unfold output_digest. cbn [jobs]. by rewrite lookup_insert_eq, E0.
    + intros st. cbn. rewrite lookup_insert_eq. by intros [= <-].
  - intros st Est. destruct (jobs (ds_oracle d) !! job_id n) as [st0|] eqn:E0; injection Eo as <- <-.
    + by apply (ag_max _ _ Ha (job_id n)).
    + cbn in Est. rewrite lookup_insert_eq in Est. by injection Est as <-.
  - intros E0 s job Hs Hjob. pose proof (Hnew E0) as Hjob'.
    assert (s = 0) as ->.
    { pose proof (mv_tracks q _ _ _ _ _ Hmv) as (_ & Hplane & _). apply (only_shard (job_id n)).
      apply Hplane; [done|apply job_id_length|]. destruct Hjob as (e & r & He & _). by exists e. }
    by eapply job_at_fun.
Qed.

(* ---------------------------------------------------------------- *)
(** ** The claim *)

Lemma shard_ids_driver d G :
  agrees d G -> shard_ids q (ds_oracle d) 0 =
  filter (fun j => is_Some (jobs (ds_oracle d) !! j)) (map job_id (seq 0 (length (ds_held d)))).
Proof.
  intros Ha. rewrite (proj1 (ag_length _ _ Ha)). apply strictly_sorted_ext; [apply shard_ids_sorted| |].
  - apply strictly_sorted_filter, job_ids_sorted, Hjobs.
  - intros j. rewrite elem_of_shard_ids, list_elem_of_filter, list_elem_of_In, in_map_iff. split.
    + intros [_ [st Est]]. split; [by exists st|]. destruct (ag_jobs _ _ Ha j st Est) as (n & Hn & ->).
      exists n. split; [done|]. apply in_seq. lia.
    + intros [Hst (n & <- & _)]. split; [apply one_shard|done].
Qed.

Lemma follows_bounded m o G : follows q m o G -> bounded o.
Proof.
  intros Hf j st g a x Est Hp. destruct (fo_tracks _ _ _ _ Hf) as (Hall & _).
  destruct (Hall j st Est) as (Hj & s & Hs & ((job & _ & _ & Hph) & _)).
  pose proof (shard_of_u16 q j s Hs) as H16.
  assert (exists x', custody q m s j g a x') as [x' Hc].
  { destruct Hp as [Ep|Ep]; rewrite Ep in Hph; cbn in Hph; [by exists x; apply Hph|].
    destruct Hph as (_ & (x' & _ & Hc) & _). by exists x'. }
  pose proof (attempt_le_generation q m s j g a x' (fo_inv _ _ _ _ Hf) H16 Hj Hc). destruct Hc as (Hg & _). lia.
Qed.

Lemma follows_mono m o G G' : G <= G' -> follows q m o G -> follows q m o G'.
Proof.
  intros Hle []. split; try done; [|lia]. intros s j g Hs Hj Hg Hp. etrans; [by eapply fo_chains|done].
Qed.

(** After a scan: the oracle's next state, the slots it emptied, and perhaps
    one claim more. *)
Lemma agrees_scanned {A} d d1 d2 d3 n G base (got : option (bytes * (Z * Z))) (r : A) P :
  agrees d G -> performed d1 d2 n r P -> same_driver d d1 ->
  (forall i, indexed i -> slot_kept (seq 0 (length (ds_held d))) d d1 i) ->
  rely (space_of d) (space_of d2) ->
  oracle_scan (dc_lease_ns cfg) base (shard_ids q (ds_oracle d) 0) (ds_oracle d) = (got, ds_oracle d3) ->
  follows q (space_of d2) (ds_oracle d3) (G + 1) ->
  ds_world d3 = ds_world d2 -> ds_handle d3 = ds_handle d2 -> ds_out_keys d3 = ds_out_keys d2 ->
  length (ds_held d3) = length (ds_held d2) -> o_clock (ds_oracle d3) = o_clock (ds_oracle d) ->
  (forall i, (i < dc_jobs cfg)%nat ->
    jobs (ds_oracle d3) !! job_id i = jobs (ds_oracle d1) !! job_id i /\ ds_held d3 !! i = ds_held d2 !! i \/
    exists c st, ds_held d3 !! i = Some (Some c) /\ cl_job_id c = job_id i /\ in_hand q (space_of d2) (ds_oracle d3) c /\
      cl_lease_duration_ns c = dc_lease_ns cfg /\ (exists b, cl_payload c = Inline b) /\
      jobs (ds_oracle d1) !! job_id i = Some st /\ output_digest (ds_oracle d3) (job_id i) = output st) ->
  agrees d3 (G + 1).
Proof.
  intros Ha [_ Eo Eh Ek Hc Hm Hr Hsub HI _] (Ew1 & Eh1 & Ek1 & El1 & Ec1) Hkept Hrely Hscan Hf Ew Ehd Eks El Eck Hslots.
  assert (space_of d3 = space_of d2) as Esp by (unfold space_of; by rewrite Ew).
  destruct (ag_length _ _ Ha) as [Hl1 Hl2].
  split; rewrite ?Esp, ?Ehd, ?Ew; try done.
  - rewrite Eck. apply Ha.
  - rewrite El, Eks, Eh, Ek, El1, Ek1. done.
  - intros i Hi. destruct (ag_slots _ _ Ha i Hi) as (h & k & Hh & Hk & Hs).
    assert (ds_out_keys d3 !! i = Some k) as Hk3 by (by rewrite Eks, Ek, Ek1).
    destruct (Hkept i (slot_indexed i Hi)) as [[Ej Ehh]|(Hin & (st & Est & Est') & Eempty)].
    + destruct (Hslots i Hi) as [[Ej3 Eh3]|(c & st & Eh3 & Ecj & Hic & Hl & Hp & Est & Eout)].
      * exists h, k. rewrite Eh3, Eh, Ehh. split; [done|]. split; [done|].
        eapply slot_moves; [exact Hrely|by rewrite Ej3|done].
      * exists (Some c), k. split; [done|]. split; [done|]. split; [done|].
        destruct Hs as [_ Hs2]. rewrite Eout. unfold output_digest in Hs2. rewrite <- Ej, Est in Hs2. exact Hs2.
    + specialize (Eempty ltac:(lia)). destruct Hs as [_ Hs2]. unfold output_digest in Hs2. rewrite Est in Hs2.
      destruct (Hslots i Hi) as [[Ej3 Eh3]|(c & st' & Eh3 & Ecj & Hic & Hl & Hp & Est2 & Eout)].
      * exists None, k. rewrite Eh3, Eh. split; [done|]. split; [done|]. split.
        -- intros st2 g a x E2. rewrite Ej3, Est' in E2. by injection E2 as <-.
        -- unfold output_digest. by rewrite Ej3, Est'.
      * exists (Some c), k. split; [done|]. split; [done|]. split; [done|].
        rewrite Eout. rewrite Est' in Est2. injection Est2 as <-. exact Hs2.
  - intros i Hi. pose proof (ag_final _ _ Ha i Hi) as Hfin.
    assert (space_of d ⊆ space_of d2) as Hsub2 by (unfold space_of in *; by rewrite Ew1 in Hsub).
    assert (output_digest (ds_oracle d1) (job_id i) = output_digest (ds_oracle d) (job_id i)) as Eout1.
    { unfold output_digest. destruct (Hkept i (slot_indexed i Hi)) as [[-> _]|(_ & (st & -> & ->) & _)]; done. }
    destruct (Hslots i Hi) as [[Ej3 _]|(c & st & _ & Ecj & (_ & _ & st3 & Est3 & Ep3) & _ & _ & Est & Eout)].
    + destruct (Hkept i (slot_indexed i Hi)) as [[Ej _]|(_ & (st & _ & Est') & _)].
      * apply (final_kept (space_of d) _ (ds_oracle d)); [done|congruence|done].
      * apply (final_unsettled (space_of d) _ (ds_oracle d)); [done| | |done].
        -- unfold output_digest in *. by rewrite Ej3.
        -- intros st2. rewrite Ej3, Est'. by intros [= <-].
    + apply (final_unsettled (space_of d) _ (ds_oracle d)); [done| | |done].
      * rewrite Eout, <- Eout1. unfold output_digest. by rewrite Est.
      * intros st2. rewrite <- Ecj, Est3. intros [= <-]. by rewrite Ep3.
  - intros j st Est. destruct (scan_keeps_max _ _ _ _ _ _ _ _ Hscan Est) as (st0 & E0 & _). by eapply (ag_jobs _ _ Ha).
  - intros j st Est. destruct (scan_keeps_max _ _ _ _ _ _ _ _ Hscan Est) as (st0 & E0 & Em).
    rewrite Em. by eapply (ag_max _ _ Ha).
  - intros i s job Hi Hs Hjob.
    pose proof (fo_tracks _ _ _ _ Hf) as Ht3. pose proof Ht3 as (_ & Hplane & _).
    destruct (Hplane s (job_id i) Hs (job_id_length i)) as [_ [st Est]]; [destruct Hjob as (e & x & He & _); by exists e|].
    destruct (scan_keeps_max _ _ _ _ _ _ _ _ Hscan Est) as (st0 & E0 & _).
    assert (space_of d ⊆ space_of d2) as Hsub2 by (unfold space_of in *; by rewrite Ew1 in Hsub).
    eapply (record_kept (space_of d) (space_of d2) (ds_oracle d) (ds_oracle d3) i); try done;
      [apply (ag_follows _ _ Ha)|intros; by eapply (ag_records _ _ Ha)].
Qed.

Lemma drive_payload m s n p :
  (forall s job, is_u16 s -> job_at q s (job_id n) job m -> job = job_record q (drive_input n) (job_id n)) ->
  is_u16 s -> pays q m s (job_id n) p -> exists b, p = Inline b.
Proof.
  intros Hrec Hs (job & Hjob & ->). rewrite (Hrec s job Hs Hjob). unfold payload_of, job_record. cbn [j_payload_inline].
  assert (inlined q (drive_input n) = true) as ->; [|by eexists].
  unfold inlined, inline_limit_of. rewrite Hfmt. apply Z.leb_le. cbn. lia.
Qed.

Lemma claim_agrees d G :
  agrees d G -> affords d G -> exists d', drive_claim q cfg d = Ok d' /\ agrees d' (G + 1).
Proof.
  intros Ha Hb. pose proof (ag_follows _ _ Ha) as Hf. unfold drive_claim.
  assert (Forall indexed (seq 0 (length (ds_held d)))) as HF by (by rewrite (proj1 (ag_length _ _ Ha))).
  assert (NoDup (seq 0 (length (ds_held d)))) as Hnd by apply NoDup_seq.
  pose proof (fun base => predict_scan (dc_lease_ns cfg) base _ d HF Hnd (follows_bounded _ _ _ Hf)) as Hpr.
  destruct (predict (seq 0 (length (ds_held d))) d) as [expected d1].
  assert (same_driver d d1) as Hsame by apply (Hpr 0).
  pose proof Hsame as (Ew & Eh & Ek & El & Ec).
  assert (scans (claim_options cfg d1) (ds_oracle d)) as Hsc.
  { split; [split; cbn; [exact Hlease|rewrite Ec; apply Ha]|cbn; unfold is_u16; lia|cbn; exact Ec]. }
  pose proof (goes_claim_follows q (space_of d) (ds_oracle d) (claim_options cfg d1) G Hf (proj1 Hb) Hsc) as Hgo.
  destruct (agreed_performs _ (claim q (claim_options cfg d1)) "claim op" d d1 G _ Ha Hb Ew Eh Hgo)
    as (r & d2 & Hp & Hpf); [constructor|unfold STEP_OPS; lia|].
  rewrite Hp. cbn [mbind result_bind].
  destruct (pf_result _ _ _ _ _ Hpf) as ((base & o' & Hscan & Hr) & Hrely).
  cbn [claim_options co_lease_duration_ns co_shard] in Hscan.
  destruct (Hpr base) as (_ & Hkept & Hexp). rewrite (shard_ids_driver d G Ha) in Hscan.
  rewrite <- scan_present in Hscan.
  destruct expected as [n|].
  - destruct Hexp as (Hin & ga & o'' & Hcl & Hsc'). rewrite Hsc' in Hscan. injection Hscan as Eg <-.
    destruct r as [c|]; [|done]. injection Eg as Ecj Ega.
    destruct Hr as (-> & Es & El' & Hic & Hpay & Hf'). cbn [claim_options co_lease_duration_ns co_shard] in Es, El'.
    assert (indexed n) as Hn by (rewrite Forall_forall in HF; by apply HF).
    rewrite <- Ecj, job_index_id, Nat.eqb_refl by done. cbn [assert_ mbind result_bind].
    unfold match_claim. rewrite (pf_oracle _ _ _ _ _ Hpf), <- Ecj, Hcl, Ega, bool_decide_true by done.
    cbn [assert_ mbind result_bind]. rewrite job_index_id by done. eexists. split; [reflexivity|].
    destruct (claim_moves _ _ _ _ _ _ Hcl) as (Hclk & Hoth & st & st' & Est & Est' & Eout).
    assert (n < dc_jobs cfg)%nat as Hnj by (rewrite <- (proj1 (ag_length _ _ Ha)); apply elem_of_seq in Hin; lia).
    assert (exists b, cl_payload c = Inline b) as Hinl.
    { rewrite Es, <- Ecj in Hpay. apply (drive_payload (space_of d2) 0 n _); [|unfold is_u16; lia|exact Hpay].
      destruct (scan_keeps_max _ _ _ _ _ _ _ _ Hsc' Est') as (st0 & E0 & _).
      apply (record_kept (space_of d) (space_of d2) (ds_oracle d) o'' n); [|apply Hf|apply Hf'|by exists st0|].
      - pose proof (pf_sub _ _ _ _ _ Hpf) as Hsub. unfold space_of in *. by rewrite Ew in Hsub.
      - intros s job. by apply (ag_records _ _ Ha). }
    eapply (agrees_scanned d d1 d2 _ _ G (cl_claim_store_time_ns c) (Some (job_id n, ga)) _ _ Ha Hpf Hsame Hkept Hrely); try done.
    + rewrite (shard_ids_driver d G Ha), <- scan_present. exact Hsc'.
    + cbn. by rewrite length_insert.
    + cbn. by rewrite Hclk.
    + intros i Hi. cbn. destruct (decide (i = n)) as [->|Hne].
      * right. exists c, st. rewrite list_lookup_insert_eq.
        2: { rewrite (pf_held _ _ _ _ _ Hpf), El, (proj1 (ag_length _ _ Ha)). done. }
        unfold output_digest. rewrite Est'. cbn. split_and!; try done.
      * left. rewrite list_lookup_insert_ne by done. split; [|done]. apply Hoth.
        intros E. apply job_id_inj in E; auto using slot_indexed.
  - rewrite Hexp in Hscan. injection Hscan as Eg <-. destruct r as [c|]; [done|].
    eexists. split; [reflexivity|].
    eapply (agrees_scanned d d1 d2 d2 _ G base None _ _ Ha Hpf Hsame Hkept Hrely); try done.
    + rewrite (pf_oracle _ _ _ _ _ Hpf), (shard_ids_driver d G Ha), <- scan_present. exact Hexp.
    + rewrite (pf_oracle _ _ _ _ _ Hpf). eapply follows_mono; [|exact Hr]. lia.
    + by rewrite (pf_oracle _ _ _ _ _ Hpf).
    + intros i Hi. left. by rewrite (pf_oracle _ _ _ _ _ Hpf).
Qed.

(* ---------------------------------------------------------------- *)
(** ** The holder's operations *)

(** A slot with a claim, or an idle one. *)
Lemma slot_cases d G n :
  agrees d G -> (n < dc_jobs cfg)%nat ->
  (exists c k st, held_at d n = Some c /\ ds_held d !! n = Some (Some c) /\ ds_out_keys d !! n = Some k /\
     cl_job_id c = job_id n /\ in_hand q (space_of d) (ds_oracle d) c /\ cl_lease_duration_ns c = dc_lease_ns cfg /\
     (exists b, cl_payload c = Inline b) /\ cl_generation c <= G /\
     jobs (ds_oracle d) !! job_id n = Some st /\ maximum_attempts st = dc_max_attempts cfg /\
     phase st = PClaimed (cl_generation c) (cl_attempt c) (lease_end c) /\
     slot_agrees (space_of d) (ds_oracle d) n (Some c) k) \/
  (held_at d n = None /\ forall st g a x, jobs (ds_oracle d) !! job_id n = Some st -> phase st <> PClaimed g a x).
Proof.
  intros Ha Hn. destruct (ag_slots _ _ Ha n Hn) as (h & k & Hh & Hk & Hs). unfold held_at. rewrite Hh.
  destruct h as [c|]; [left|right; split; [done|apply Hs]].
  pose proof Hs as ((Ej & Hi & Hl & Hp) & _). pose proof Hi as (_ & _ & st & Est & Ep). rewrite Ej in Est.
  exists c, k, st. split_and!; try done; [eapply hand_bound; [apply Ha|done]|by eapply (ag_max _ _ Ha)].
Qed.

Lemma agrees_idle d d' G :
  agrees d G -> ds_world d' = ds_world d -> ds_handle d' = ds_handle d -> ds_oracle d' = ds_oracle d ->
  ds_held d' = ds_held d -> ds_out_keys d' = ds_out_keys d -> agrees d' (G + 1).
Proof.
  intros Ha Ew Eh Eo Ed Ek. assert (space_of d' = space_of d) as Es by (unfold space_of; by rewrite Ew).
  destruct Ha. split; rewrite ?Es, ?Ew, ?Eh, ?Eo, ?Ed, ?Ek; try done. eapply follows_mono; [|done]. lia.
Qed.

(** The oracle refuses whoever holds nothing. *)
Ltac refused Hno :=
  match goal with |- context [match jobs ?o !! ?j with _ => _ end] =>
    let st := fresh "st" in let E := fresh "E" in
    destruct (jobs o !! j) as [st|] eqn:E; [|done];
    let Ep := fresh "Ep" in destruct (phase st) eqn:Ep; try done; exfalso; by apply (Hno st _ _ _ eq_refl Ep)
  end.
Lemma idle_renew o j l : (forall st g a x, jobs o !! j = Some st -> phase st <> PClaimed g a x) -> oracle_renew o j l = (false, o).
Proof. intros Hno. unfold oracle_renew. refused Hno. Qed.
Lemma idle_ack o j : (forall st g a x, jobs o !! j = Some st -> phase st <> PClaimed g a x) -> oracle_ack o j = (false, o).
Proof. intros Hno. unfold oracle_ack. refused Hno. Qed.
Lemma idle_nack o j n : (forall st g a x, jobs o !! j = Some st -> phase st <> PClaimed g a x) -> oracle_nack o j n = (false, o).
Proof. intros Hno. unfold oracle_nack. refused Hno. Qed.
Lemma idle_bury o j r : (forall st g a x, jobs o !! j = Some st -> phase st <> PClaimed g a x) -> oracle_bury o j r = (false, o).
Proof. intros Hno. unfold oracle_bury. refused Hno. Qed.
Lemma idle_commit o j b : (forall st g a x, jobs o !! j = Some st -> phase st <> PClaimed g a x) -> oracle_commit_output o j b = (false, o).
Proof. intros Hno. unfold oracle_commit_output. refused Hno. Qed.

Lemma renew_agrees n d G :
  agrees d G -> affords d G -> (n < dc_jobs cfg)%nat ->
  exists d', drive_renew q cfg n d = Ok d' /\ agrees d' (G + 1).
Proof.
  intros Ha Hb Hn. pose proof (ag_follows _ _ Ha) as [Hq Hhints _ HI Ht _ _]. unfold drive_renew.
  destruct (slot_cases d G n Ha Hn) as [(c & k & st & Hat & Hh & Hk & Ej & Hi & Hl & Hp & Hg & Est & Emax & Ep & Hs)|[Hat Hno]]; rewrite Hat.
  2: { rewrite idle_renew by done. eexists. split; [reflexivity|]. by apply (agrees_idle d). }
  destruct Hb as [HG Hb]. pose proof (goes_renew q Hq Hhints _ _ c HI Ht Hi ltac:(lia)) as Hgo.
  rewrite Ej, Hl in Hgo. unfold oracle_renewed in Hgo. rewrite Ej, Hl in Hgo.
  destruct (oracle_renew (ds_oracle d) (job_id n) (dc_lease_ns cfg)) as [expected o] eqn:Eo. cbn [fst snd] in Hgo.
  destruct (agreed_performs 5 (renew q c) "renew op" d (with_oracle d o) G _ Ha (conj HG Hb) eq_refl eq_refl Hgo)
    as (r & d' & Hpf & Hpd); [constructor|unfold STEP_OPS; lia|].
  rewrite Hpf. cbn [mbind result_bind].
  destruct (pf_result _ _ _ _ _ Hpd) as (c' & -> & -> & Hmv & Hi' & Hren).
  pose proof Hren as (E1 & E2 & E3 & E4 & E5 & E6 & _).
  eexists. split; [reflexivity|]. rewrite (pf_oracle _ _ _ _ _ Hpd). cbn [with_oracle ds_oracle].
  set (o' := override_expiry o (job_id n) (cl_claim_store_time_ns c') (dc_lease_ns cfg)) in *.
  assert (exists x, jobs o' !! job_id n = Some {| maximum_attempts := maximum_attempts st; phase := x; output := output st |}) as [x Ex].
  { unfold oracle_renew in Eo. rewrite Est, Ep in Eo. injection Eo as <-. unfold o', override_expiry. cbn.
    rewrite lookup_insert_eq. cbn. rewrite lookup_insert_eq. by eexists. }
  eapply (agrees_step (with_oracle d o) d d' _ n _ _ _ o' (Some c') k G Ha Hpd eq_refl Hmv Hn); try done.
  - cbn. by rewrite (pf_held _ _ _ _ _ Hpd).
  - cbn. rewrite (pf_keys _ _ _ _ _ Hpd). cbn. by rewrite slot_unchanged.
  - destruct Hs as [_ Hs]. split.
    + rewrite E1, E5, E6. done.
    + unfold output_digest in *. rewrite Ex. by rewrite Est in Hs.
  - apply (final_unsettled (space_of d) _ (ds_oracle d)); [apply Hpd| | |by apply Ha].
    + unfold output_digest. by rewrite Ex, Est.
    + intros st'. rewrite Ex. intros [= <-]. destruct Hi' as (_ & _ & st2 & Est2 & Ep2).
      rewrite E1, Ej, Ex in Est2. injection Est2 as <-. cbn in *. by rewrite Ep2.
  - intros st' E. rewrite Ex in E. by injection E as <-.
  - intros E. congruence.
Qed.

(** The output of a held job, for the driver's acknowledgement. *)
Lemma held_outputs c n m o k st :
  cl_job_id c = job_id n -> jobs o !! job_id n = Some st -> slot_agrees m o n (Some c) k ->
  match output st, k with
  | Some dg, Some key => dg = sha256 (output_content n) /\ key = output_key q (job_id n) ¶"result"
  | None, None => True
  | _, _ => False
  end.
Proof.
  intros Ej Est [_ Hs]. unfold output_digest in Hs. rewrite Est in Hs. cbn [mbind option_bind] in Hs.
  destruct (output st) as [dg|]; [destruct Hs as [Hdg ->]; by split|by subst k].
Qed.

(** The claim is given up, for good or for now. *)
Lemma agrees_let_go {A} d d' n cost (a : A) P o' st p G c k :
  agrees d G -> performed (hold (with_oracle d o') n None) d' cost a P ->
  moved q (space_of d) (space_of d') (ds_oracle d) o' (job_id n) ->
  (n < dc_jobs cfg)%nat -> ds_out_keys d !! n = Some k -> slot_agrees (space_of d) (ds_oracle d) n (Some c) k ->
  jobs (ds_oracle d) !! job_id n = Some st -> maximum_attempts st = dc_max_attempts cfg ->
  o' = set_phase (ds_oracle d) (job_id n) st p -> (forall g a x, p <> PClaimed g a x) ->
  (p = PTerminal TermReceipt -> holds_at root qid (space_of d') (KReceipt 0 (job_id n)) (fun _ r =>
     exists x, r = RecReceipt x /\ r_output_digests x = match output st with Some dg => [dg] | None => [] end)) ->
  agrees d' (G + 1).
Proof.
  intros Ha Hpd Hmv Hn Hk Hs Est Emax -> Hp Hrcp.
  eapply (agrees_step _ d d' d' n _ _ _ _ None k G Ha Hpd eq_refl Hmv Hn); try done.
  - apply Hpd.
  - by rewrite (pf_held _ _ _ _ _ Hpd).
  - rewrite (pf_keys _ _ _ _ _ Hpd). cbn. by rewrite slot_unchanged.
  - destruct Hs as [_ Hs]. unfold output_digest in *. rewrite Est in Hs. split.
    + intros st' g a' x. cbn. rewrite lookup_insert_eq. intros [= <-]. apply Hp.
    + unfold output_digest. cbn. rewrite lookup_insert_eq. exact Hs.
  - split.
    + intros dg Hdg. destruct (ag_final _ _ Ha n Hn) as [Ho _]. unfold output_digest in *. cbn in Hdg.
      rewrite lookup_insert_eq in Hdg. cbn in Hdg. rewrite Est in Ho. destruct (Ho dg Hdg) as (e & He & Hb).
      exists e. split; [|done]. eapply lookup_weaken; [exact He|apply Hpd].
    + intros st'. cbn. rewrite lookup_insert_eq. intros [= <-]. apply Hrcp.
  - intros st'. cbn. rewrite lookup_insert_eq. by intros [= <-].
  - congruence.
Qed.

Lemma ack_agrees n d G :
  agrees d G -> affords d G -> (n < dc_jobs cfg)%nat ->
  exists d', drive_ack q n d = Ok d' /\ agrees d' (G + 1).
Proof.
  intros Ha Hb Hn. pose proof (ag_follows _ _ Ha) as [Hq Hhints _ HI Ht _ _]. unfold drive_ack.
  destruct (slot_cases d G n Ha Hn) as [(c & k & st & Hat & Hh & Hk & Ej & Hi & Hl & Hp & Hg & Est & Emax & Ep & Hs)|[Hat Hno]]; rewrite Hat.
  2: { rewrite idle_ack by done. eexists. split; [reflexivity|]. by apply (agrees_idle d). }
  set (outs := match k with Some key => [output_of q c (sha256 (output_content n))] | None => [] end).
  assert (outputs_ok outs /\ outputs_ready q (space_of d) c outs /\ (length outs <= 1)%nat) as (Hok & Hready & Hlen).
  { destruct (in_hand_custody q _ _ _ Ht Hi) as (st' & job & Hc). pose proof (ic_output q _ _ _ _ _ Hc) as Hout.
    assert (st' = st) as -> by (pose proof (ic_state q _ _ _ _ _ Hc); congruence).
    pose proof (held_outputs _ _ _ _ _ _ Ej Est Hs) as Ho. unfold outs.
    destruct (output st) as [dg|], k as [key|]; try done; [|split; [split; [done|by vm_compute]|by split; [constructor|cbn; lia]]].
    destruct Ho as [-> ->]. split; [split; [constructor; [apply sha256_length|done]|by vm_compute]|]. split; [|cbn; lia].
    constructor; [|done]. split; [by exists ¶"result"|]. exact Hout. }
  assert (payload_ready (space_of d) c) as Hpay by (unfold payload_ready; destruct Hp as [b ->]; done).
  pose proof (goes_ack q Hq _ _ c outs HI Ht Hi Hok Hpay Hready) as Hgo. rewrite Ej in Hgo.
  assert (oracle_ack (ds_oracle d) (job_id n) = (true, set_phase (ds_oracle d) (job_id n) st (PTerminal TermReceipt))) as Eo.
  { unfold oracle_ack. by rewrite Est, Ep. }
  rewrite Eo in Hgo |- *. cbn [fst snd] in Hgo.
  set (o' := set_phase _ _ _ _) in *. cbv zeta.
  destruct (agreed_performs (ACK_OPS (length outs)) (ack_with_outputs q c outs) "ack op" d (hold (with_oracle d o') n None) G _ Ha Hb eq_refl eq_refl Hgo)
    as (r & d' & Hpf & Hpd); [exact (ep_ack_with_outputs q c outs)|unfold STEP_OPS, ACK_OPS; lia|].
  assert ((match output_digest (ds_oracle (hold (with_oracle d o') n None)) (job_id n), default None (ds_out_keys (hold (with_oracle d o') n None) !! n) with
           | Some dg, Some k => Ok [{| out_key := k; out_digest := dg |}]
           | None, None => Ok []
           | _, _ => Err "oracle digest vs key"%string
           end) = Ok outs) as ->.
  { cbn. unfold output_digest. cbn. rewrite lookup_insert_eq, Hk. cbn.
    pose proof (held_outputs _ _ _ _ _ _ Ej Est Hs) as Ho. unfold outs, output_of. rewrite Ej.
    destruct (output st), k as [key|]; try done. by destruct Ho as [-> ->]. }
  cbn [mbind result_bind]. rewrite Hpf. cbn [mbind result_bind].
  destruct (pf_result _ _ _ _ _ Hpd) as (-> & _ & Hmv & (Hrcp & _)).
  eexists. split; [reflexivity|]. eapply (agrees_let_go d d' n _ _ _ o' st _ G c k); try done. intros _.
  destruct Hi as (_ & Hsh & _). apply only_shard in Hsh. rewrite Ej, Hsh in Hrcp.
  destruct Hrcp as (e & r & He & Hd & x & -> & _ & _ & Hdg & _). exists e, (RecReceipt x). split; [exact He|]. split; [exact Hd|].
  exists x. split; [done|]. rewrite Hdg. pose proof (held_outputs _ _ _ _ _ _ Ej Est Hs) as Ho. unfold outs.
  destruct (output st), k; try done. by destruct Ho as [-> _].
Qed.

Lemma bury_agrees n d G :
  agrees d G -> affords d G -> (n < dc_jobs cfg)%nat ->
  exists d', drive_bury q n d = Ok d' /\ agrees d' (G + 1).
Proof.
  intros Ha Hb Hn. pose proof (ag_follows _ _ Ha) as [Hq Hhints _ HI Ht _ _]. unfold drive_bury.
  destruct (slot_cases d G n Ha Hn) as [(c & k & st & Hat & Hh & Hk & Ej & Hi & Hl & Hp & Hg & Est & Emax & Ep & Hs)|[Hat Hno]]; rewrite Hat.
  2: { rewrite idle_bury by done. eexists. split; [reflexivity|]. by apply (agrees_idle d). }
  pose proof (goes_bury q Hq _ _ c 0x0003 HI Ht Hi ltac:(by split)) as Hgo. rewrite Ej in Hgo.
  assert (oracle_bury (ds_oracle d) (job_id n) 0x0003 = (true, set_phase (ds_oracle d) (job_id n) st (PTerminal (TermDead 0x0003)))) as Eo.
  { unfold oracle_bury. by rewrite Est, Ep. }
  rewrite Eo in Hgo |- *. cbn [fst snd] in Hgo. set (o' := set_phase _ _ _ _) in *.
  destruct (agreed_performs 16 (bury q c 0x0003) "bury op" d (hold (with_oracle d o') n None) G _ Ha Hb eq_refl eq_refl Hgo)
    as (r & d' & Hpf & Hpd); [apply ep_bury|unfold STEP_OPS; lia|].
  rewrite Hpf. cbn [mbind result_bind]. destruct (pf_result _ _ _ _ _ Hpd) as (-> & _ & Hmv).
  eexists. split; [reflexivity|]. by eapply (agrees_let_go d d' n _ _ _ o' st _ G c k).
Qed.

Lemma commit_agrees n d G :
  agrees d G -> affords d G -> (n < dc_jobs cfg)%nat ->
  exists d', drive_commit_output q n d = Ok d' /\ agrees d' (G + 1).
Proof.
  intros Ha Hb Hn. pose proof (ag_follows _ _ Ha) as [Hq Hhints _ HI Ht _ _]. unfold drive_commit_output.
  destruct (slot_cases d G n Ha Hn) as [(c & k & st & Hat & Hh & Hk & Ej & Hi & Hl & Hp & Hg & Est & Emax & Ep & Hs)|[Hat Hno]]; rewrite Hat.
  2: { rewrite idle_commit by done. eexists. split; [reflexivity|]. by apply (agrees_idle d). }
  set (content := output_content n). set (dg := sha256 content).
  pose proof (held_outputs _ _ _ _ _ _ Ej Est Hs) as Hout.
  assert (forall d0, output st = Some d0 -> d0 = dg) as Hsame.
  { intros d0 E. rewrite E in Hout. destruct k; [by destruct Hout|done]. }
  pose proof (goes_commit q _ _ c st content HI Ht Hi ltac:(by rewrite Ej) Hsame) as Hgo. cbv zeta in Hgo. rewrite Ej in Hgo.
  assert (oracle_commit_output (ds_oracle d) (job_id n) dg =
    (true, match output st with None => set_output (ds_oracle d) (job_id n) st dg | Some _ => ds_oracle d end)) as Eo.
  { unfold oracle_commit_output. by rewrite Est, Ep. }
  unfold dg in Eo. rewrite Eo in Hgo. cbn [fst snd] in Hgo. fold dg in Eo, Hgo.
  destruct (agreed_performs 2 (commit_output q c ¶"result" content) "commit_output op" d d G _ Ha Hb eq_refl eq_refl Hgo)
    as (r & d' & Hpf & Hpd); [apply ep_commit_output|unfold STEP_OPS; lia|].
  cbv zeta. rewrite Hpf. cbn [mbind result_bind]. rewrite (pf_oracle _ _ _ _ _ Hpd). fold content dg. rewrite Eo. cbn [assert_ mbind result_bind].
  destruct (pf_result _ _ _ _ _ Hpd) as (-> & _ & Hmv & Hi' & Hnew).
  assert (output_digest (ds_oracle d) (job_id n) = output st) as -> by (unfold output_digest; by rewrite Est).
  unfold commit_answer in *. destruct (output st) as [d0|] eqn:Eout; cbn [out_digest output_of];
    fold dg; rewrite bytes_eqb_same; cbn [assert_ mbind result_bind].
  - destruct k as [key|]; [|done].
    eexists. split; [reflexivity|].
    eapply (agrees_step d d d' _ n _ _ _ (ds_oracle d) (Some c) (Some key) G Ha Hpd eq_refl Hmv Hn); try done.
    + cbn. by rewrite (pf_held _ _ _ _ _ Hpd), slot_unchanged.
    + cbn. by rewrite (pf_keys _ _ _ _ _ Hpd), slot_unchanged.
    + destruct Hs as [_ Hs]. split; [|done]. done.
    + apply (final_kept (space_of d) _ (ds_oracle d)); [apply Hpd|done|by apply Ha].
    + intros st'. rewrite Est. by intros [= <-].
    + congruence.
  - eexists. split; [reflexivity|].
    eapply (agrees_step d d d' _ n _ _ _ _ (Some c) (Some (output_key q (cl_job_id c) ¶"result")) G Ha Hpd eq_refl Hmv Hn); try done.
    + cbn. by rewrite (pf_held _ _ _ _ _ Hpd), slot_unchanged.
    + cbn [ds_out_keys out_key_at with_oracle]. by rewrite (pf_keys _ _ _ _ _ Hpd).
    + split; [done|]. unfold output_digest. cbn [set_output jobs]. rewrite lookup_insert_eq. by rewrite Ej.
    + split.
      * intros d0 _. exact (Hnew eq_refl).
      * intros st'. cbn. rewrite lookup_insert_eq. intros [= <-]. cbn. by rewrite Ep.
    + intros st'. cbn. rewrite lookup_insert_eq. by intros [= <-].
    + congruence.
Qed.

(** The driver's backoff is the queue's. *)
Lemma backoff_drives c n x m o G :
  follows q m o G -> G < u32_max -> in_hand q m o c -> cl_job_id c = job_id n -> is_u64 (o_clock o) ->
  nack_until q c (o_clock o) = Some x ->
  exists delay, retry_delay_ms driver_queue_id (job_id n) (cl_attempt c mod 2 ^ 32) (o_retry (q_opts q)) = Ok delay /\
    wrapping_add (o_clock o) (wrapping_mul delay 1000000) = x.
Proof.
  intros Hf HG Hi Ej Hclk Hx. pose proof (fo_tracks _ _ _ _ Hf) as Ht.
  destruct (in_hand_custody q _ _ _ Ht Hi) as (st & job & Hc).
  pose proof (attempt_le_generation q m _ _ _ _ _ (fo_inv _ _ _ _ Hf) (ic_u16 q _ _ _ _ _ Hc) (ic_id q _ _ _ _ _ Hc) (ic_custody q _ _ _ _ _ Hc)) as Hat.
  pose proof (hand_bound q _ _ _ _ Hf Hi) as Hg.
  unfold nack_until in Hx. rewrite Hqid, Ej, Z.min_l in Hx by lia.
  rewrite Z.mod_small by lia. destruct (retry_delay_ms _ _ _ _) as [delay|]; [|done]. exists delay. split; [done|].
  unfold retry_not_before in Hx. destruct (checked_add _ _) as [y|] eqn:Ey; [|done].
  apply checked_add_some in Ey as [-> Hy]. cbn in Hx. destruct (i64_max <? _); [done|]. injection Hx as <-.
  apply wrapping_add_small. unfold wrapping_mul, is_u64 in *.
  pose proof (Z.mod_pos_bound (delay * 1000000) (2 ^ 64) ltac:(lia)). lia.
Qed.

Definition backs_off (d : DriveState MemoryStore) (n : nat) : Prop :=
  forall c, held_at d n = Some c -> exists x, nack_until q c (o_clock (ds_oracle d)) = Some x /\ lease_end c <= x.

Lemma nack_agrees n d G :
  agrees d G -> affords d G -> (n < dc_jobs cfg)%nat -> backs_off d n ->
  exists d', drive_nack q n d = Ok d' /\ agrees d' (G + 1).
Proof.
  intros Ha Hb Hn Hback. pose proof (ag_follows _ _ Ha) as Hf. pose proof Hf as [Hq Hhints _ HI Ht _ _]. unfold drive_nack.
  destruct (slot_cases d G n Ha Hn) as [(c & k & st & Hat & Hh & Hk & Ej & Hi & Hl & Hp & Hg & Est & Emax & Ep & Hs)|[Hat Hno]]; rewrite Hat.
  2: { rewrite idle_nack by done. eexists. split; [reflexivity|]. by apply (agrees_idle d). }
  destruct (Hback c Hat) as (x & Hx & Hle).
  destruct (backoff_drives c n x _ _ _ Hf ltac:(destruct Hb; lia) Hi Ej (ag_clock _ _ Ha) Hx) as (delay & Edel & Euntil).
  rewrite Hretry. cbn [mbind result_bind]. rewrite Edel. cbn [mbind result_bind]. cbv zeta. rewrite Euntil.
  pose proof (goes_nack q Hq _ _ c 0x0001 (o_clock (ds_oracle d)) x HI Ht Hi ltac:(by split) (ag_clock _ _ Ha) Hx Hle) as Hgo.
  rewrite Ej in Hgo.
  assert (oracle_nack (ds_oracle d) (job_id n) x =
    (true, set_phase (ds_oracle d) (job_id n) st (Backoff (cl_generation c) (cl_attempt c) x))) as Eo.
  { unfold oracle_nack. by rewrite Est, Ep. }
  rewrite Eo in Hgo |- *. cbn [fst snd] in Hgo. set (o' := set_phase _ _ _ _) in *.
  destruct (agreed_performs 3 (nack q c 0x0001 (o_clock (ds_oracle d))) "nack op" d (hold (with_oracle d o') n None) G _ Ha Hb eq_refl eq_refl Hgo)
    as (r & d' & Hpf & Hpd); [apply ep_nack|unfold STEP_OPS; lia|].
  rewrite Hpf. cbn [mbind result_bind]. destruct (pf_result _ _ _ _ _ Hpd) as (_ & Hmv).
  eexists. split; [reflexivity|]. by eapply (agrees_let_go d d' n _ _ _ o' st _ G c k).
Qed.

(* ---------------------------------------------------------------- *)
(** ** Time *)

(** The store's clock has room for the calls to come. *)
Definition advances (d : DriveState MemoryStore) (to : Z) : Prop :=
  is_u64 to /\ room (max_ops (ds_handle d)) (Memory.advance_clock_to (w_store (ds_world d)) to).

Lemma tracks_later m o to : tracks q m o -> tracks q m (Oracle.advance_clock_to o to).
Proof.
  intros (Hall & Hplane & Hout). split; [|split]; [|exact Hplane|exact Hout].
  intros j st Est. destruct (Hall j st Est) as (Hj & s & Hs & Htr). split; [done|]. exists s. split; [done|].
  apply (tracked_same q (o_clock o) _ m m); [done|cbn; lia|done].
Qed.

Lemma advance_agrees to d G :
  agrees d G -> advances d to -> exists d', drive_advance id to d = Ok d' /\ agrees d' (G + 1).
Proof.
  intros Ha [Hto Hroom]. eexists. split; [reflexivity|]. pose proof (follows_mono _ _ G (G + 1) ltac:(lia) (ag_follows _ _ Ha)) as Hf.
  set (d' := {| ds_world := _; ds_handle := _; ds_oracle := _; ds_held := _; ds_out_keys := _; ds_exhausted := _ |}).
  assert (space_of d' = space_of d) as Es by done.
  destruct Ha as [_ Hck Hc Hm [[Hst Hstamp] Hr] Hl Hs Hfin Hj Hmx Hrec]. split; rewrite ?Es; try done.
  - destruct Hf as [? ? ? ? Ht ? ?]. split; try done. by apply tracks_later.
  - unfold is_u64 in *. cbn. lia.
  - split; [|exact Hr]. split; [exact Hroom|]. cbn. intros k x Hx. destruct (Hstamp k x Hx). unfold id. cbn. lia.
Qed.

(* ---------------------------------------------------------------- *)
(** ** A step of the driver *)

(** What an operation asks of the state it meets. *)
Definition fits (op : DriveOp) (d : DriveState MemoryStore) : Prop :=
  match op with
  | DEnqueue n | DRenew n | DAck n | DBury n | DCommitOutput n => (n < dc_jobs cfg)%nat
  | DNack n => (n < dc_jobs cfg)%nat /\ backs_off d n
  | DClaim => True
  | DClaimMany _ => False
  | DAdvanceClock to => advances d to
  end.

Lemma op_agrees op d G :
  agrees d G -> affords d G -> fits op d -> exists d', drive_op id q cfg op d = Ok d' /\ agrees d' (G + 1).
Proof.
  intros Ha Hb Hop. destruct op; cbn [drive_op fits] in *;
    [by apply enqueue_agrees|by apply claim_agrees|by apply renew_agrees|by apply ack_agrees|destruct Hop; by apply nack_agrees
    |by apply bury_agrees|by apply commit_agrees|done|by apply advance_agrees].
Qed.

Fixpoint serves (ops : list DriveOp) (d : DriveState MemoryStore) (G : Z) : Prop :=
  match ops with
  | [] => True
  | op :: ops => affords d G /\ fits op d /\
      match drive_op id q cfg op d with Ok d' => serves ops d' (G + 1) | Err _ => True end
  end.

Lemma ops_agree ops d G :
  agrees d G -> serves ops d G ->
  exists d', drive_ops id q cfg ops d = Ok d' /\ agrees d' (G + Z.of_nat (length ops)).
Proof.
  revert d G. induction ops as [|op ops IH]; intros d G Ha; cbn [serves drive_ops length].
  { intros _. exists d. rewrite Z.add_0_r. done. }
  intros (Hb & Hf & Hs). destruct (op_agrees op d G Ha Hb Hf) as (d1 & E & Ha1). rewrite E in Hs |- *.
  destruct (IH d1 (G + 1) Ha1 Hs) as (d' & E' & Ha'). exists d'. split; [exact E'|].
  by replace (G + Z.of_nat (Datatypes.S (length ops))) with (G + 1 + Z.of_nat (length ops)) by lia.
Qed.

(* ---------------------------------------------------------------- *)
(** ** The final comparison *)

Context (Hroot : q_root q = ¶"q/").

Lemma get_found d k e : space_of d !! k = Some e ->
  exists obj, Memory.get (id (w_store (ds_world d))) k None = Ok obj /\ o_body obj = e_body e.
Proof.
  unfold space_of. cbn. rewrite view_lookup. unfold Memory.get, id. destruct (objects _ !! k) as [x|]; [|done].
  intros [= <-]. eexists. split; [reflexivity|done].
Qed.
Lemma get_none d k : space_of d !! k = None -> Memory.get (id (w_store (ds_world d))) k None = Err NotFound.
Proof. unfold space_of. cbn. rewrite view_lookup. unfold Memory.get, id. by destruct (objects _ !! k). Qed.
Lemma head_found d k : is_ok (Memory.head (id (w_store (ds_world d))) k) = match space_of d !! k with Some _ => true | None => false end.
Proof.
  unfold space_of. cbn. rewrite view_lookup. unfold Memory.head, id. by destruct (objects _ !! k).
Qed.

Lemma receipt_key n : ¶"q/receipts/0000/" ++ push_hex (job_id n) = absolute q (KReceipt 0 (job_id n)).
Proof. unfold absolute. rewrite Hroot. reflexivity. Qed.
Lemma dead_key n : ¶"q/dead/0000/" ++ push_hex (job_id n) = absolute q (KDead 0 (job_id n)).
Proof. unfold absolute. rewrite Hroot. reflexivity. Qed.
Lemma result_key n : ¶"q/outputs/" ++ push_hex (job_id n) ++ ¶"/result" = output_key q (job_id n) ¶"result".
Proof. unfold output_key. rewrite Hroot. reflexivity. Qed.

Lemma output_persists d G n : agrees d G -> (n < dc_jobs cfg)%nat -> assert_output_persistence id n d = Ok tt.
Proof.
  intros Ha Hn. unfold assert_output_persistence. destruct (output_digest (ds_oracle d) (job_id n)) as [dg|] eqn:Edg; [|done].
  rewrite result_key. destruct (proj1 (ag_final _ _ Ha n Hn) dg Edg) as (e & He & Hb).
  destruct (get_found d _ e He) as (obj & -> & ->). rewrite Hb, bytes_eqb_same. cbn [assert_ mbind result_bind].
  destruct (ag_slots _ _ Ha n Hn) as (h & k & _ & _ & _ & Hk). rewrite Edg in Hk. destruct Hk as [-> _].
  by rewrite bytes_eqb_same.
Qed.

(** A job the oracle does not know has no terminal record. *)
Lemma unknown_open d G n : agrees d G -> jobs (ds_oracle d) !! job_id n = None -> open_job q (space_of d) 0 (job_id n).
Proof.
  intros Ha En. pose proof (ag_follows _ _ Ha) as [_ _ _ HI (_ & Hplane & _) _ _].
  apply (no_job q _ 0 (job_id n) HI); [by split|apply job_id_length|]. unfold absent.
  destruct (space_of d !! absolute q (KJob 0 (job_id n))) as [e|] eqn:He; [|done].
  destruct (Hplane 0 (job_id n) ltac:(by split) (job_id_length n)) as [_ [st Est]]; [by exists e|congruence].
Qed.

Lemma final_holds d G n : agrees d G -> (n < dc_jobs cfg)%nat -> check_final id n d = Ok tt.
Proof.
  intros Ha Hn. pose proof (ag_follows _ _ Ha) as [_ _ _ HI Ht _ _]. unfold check_final. cbv zeta.
  rewrite receipt_key, dead_key, head_found.
  assert (forall P, holds_at root qid (space_of d) (KReceipt 0 (job_id n)) P -> exists obj r,
    Memory.get (id (w_store (ds_world d))) (absolute q (KReceipt 0 (job_id n))) None = Ok obj /\
    decode_record (o_body obj) driver_queue_id (key_tag driver_queue_id (¶"receipts/0000/" ++ push_hex (job_id n))) = Ok r /\
    exists e, P e r) as Hget.
  { intros P (e & r & He & Hd & HP). destruct (get_found d (absolute q (KReceipt 0 (job_id n))) e He) as (obj & -> & Eb). exists obj, r. split; [done|].
    rewrite Eb, <- Hqid. split; [exact Hd|by exists e]. }
  assert (open_job q (space_of d) 0 (job_id n) ->
    (assert_ (negb (is_ok (Memory.get (id (w_store (ds_world d))) (absolute q (KReceipt 0 (job_id n))) None)) &&
       negb (match space_of d !! absolute q (KDead 0 (job_id n)) with Some _ => true | None => false end))
       "store has a terminal record";;
     assert_output_persistence id n d) = Ok tt) as Hopen.
  { intros [Hr Hd]. rewrite (get_none d _ Hr). rewrite Hd. cbn. by eapply output_persists. }
  destruct (jobs (ds_oracle d) !! job_id n) as [st|] eqn:Est; [|apply Hopen; by eapply unknown_open].
  pose proof Ht as (Hall & _). destruct (Hall _ _ Est) as (_ & s & Hs & ((job & _ & _ & Hp) & _)). apply only_shard in Hs as ->.
  change (phase <$> Some st) with (Some (phase st)).
  destruct (phase st) as [nb|g a x|g a nb|[|reason]] eqn:Ep; cbn [in_phase] in Hp; try (apply Hopen; apply Hp).
  - destruct (proj2 (ag_final _ _ Ha n Hn) st Est Ep) as (e & r & He & Hd & x & -> & Hx).
    destruct (Hget (fun _ r => r = RecReceipt x)) as (obj & r & -> & -> & _ & ->); [by exists e, (RecReceipt x)|].
    destruct Hp as [_ Hdead]. rewrite Hdead.
    cbn [negb assert_ mbind result_bind].
    unfold output_digest. rewrite Est. cbn [mbind option_bind]. rewrite bool_decide_true by done.
    cbn [assert_ mbind result_bind]. by eapply output_persists.
  - destruct Hp as [Hr (e & r & He & _)]. change (at_key root (KDead 0 (job_id n))) with (absolute q (KDead 0 (job_id n))) in He.
    rewrite He, (get_none d _ Hr).
    cbn. by eapply output_persists.
Qed.

Lemma finals_hold d G js : agrees d G -> Forall (fun n => (n < dc_jobs cfg)%nat) js -> check_finals id js d = Ok tt.
Proof.
  intros Ha. induction 1 as [|n js Hn _ IH]; [done|]. cbn [check_finals]. by rewrite (final_holds d G n Ha Hn).
Qed.
End Agrees.
