(* ===== verification/Verdict.v ===== *)
(** The verdict of a differential run on a fresh memory store.

    From an empty store, [Queue::init] leaves the format record alone; there
    the queue agrees with the new oracle, and stays so through every operation
    the run can afford ([Differential]).  So the driver ends without a
    divergence, the final comparison included. *)

From S2P Require Import Prelude Sha256 StowqMath Text Keys Cbor Records Direct Store Memory Oracle Effects Rely Queue Claims Budget.
From S2P Require Import Samples Driver Protocol Lifecycle Custody Runs Calm Pages Tracking Agreement Scan Holders Refinement.
From S2P Require Import Prediction Differential.

(* ------------------------------------------------------------------ *)
(** * The driver's queue *)

Definition driver_options : OpenOptions :=
  {| o_queue_id := driver_queue_id; o_worker_id := ¶"worker-1";
     o_retry := {| base_ms := 100; cap_ms := 60000; use_jitter := true; max_delay_ms := None |};
     o_skew_guard_ns := 0; o_max_inline_payload := 65536 |}.
Definition driver_queue : Queue := {| q_root := ¶"q/"; q_opts := driver_options; q_format := driver_format |}.
#[local] Abbreviation Q := driver_queue.
Definition driver_init `{Sha256} : M Queue := init ¶"q" driver_options driver_format.

Section Fresh.
Context {HS : Sha256}.

(** [x] ends in [a], on the same handle. *)
Definition exactly {A} (x : M A) (h : HState) (m : Space) (P : A -> Space -> Prop) : Prop :=
  calm (x h) m (fun rs m' => exists a, rs = (Ok a, h) /\ P a m').

Lemma exactly_bind {A B} (x : M A) (f : A -> M B) h m P R :
  exactly x h m P -> (forall a m1, P a m1 -> exactly (f a) h m1 R) -> exactly (x ≫= f) h m R.
Proof.
  intros Hx Hf. unfold exactly. change ((x ≫= f) h) with (mbind_ x f h). unfold mbind_. apply calm_bind.
  eapply calm_mono; [|exact Hx]. intros rs m1 (a & -> & Ha). by apply Hf.
Qed.
Lemma exactly_ret {A} (a : A) h m (P : A -> Space -> Prop) : P a m -> exactly (mret a) h m P.
Proof. intros HP. exists a. by split. Qed.
Lemma exactly_call c h m (P : answer c -> Space -> Prop) :
  (forall x m', calm_post c m x m' -> P x m') -> exactly (do_call c) h m P.
Proof. intros HP x m' Hx. exists x. split; [done|]. by apply HP, applied_calm. Qed.

Definition format_key : bytes := q_root Q ++ ¶"meta/FORMAT".
Definition format_body : bytes := encode_record (RecFormat driver_format) driver_queue_id (key_tag driver_queue_id ¶"meta/FORMAT").

Lemma format_decodes :
  decode_record format_body driver_queue_id (key_tag driver_queue_id ¶"meta/FORMAT") = Ok (RecFormat driver_format).
Proof.
  apply decode_encode_aux.
  - by vm_compute.
  - unfold key_tag, Cbor.len64, is_u64. rewrite length_take, sha256_length. lia.
  - by vm_compute.
  - by vm_compute.
Qed.

(** [Queue::init] on an empty store. *)
Lemma init_exactly h m :
  (forall k, m !! k = None) ->
  exactly driver_init h m (fun r m' => r = Q /\ created format_key format_body m m').
Proof.
  intros Hm. unfold driver_init, init. eapply exactly_bind; [by apply (exactly_ret tt _ _ (fun _ m' => m' = m))|].
  intros _ ? ->. cbv zeta. change (trim_end_slash ¶"q" ++ [slash]) with (q_root Q).
  change (o_queue_id driver_options) with driver_queue_id. fold format_key format_body.
  eapply exactly_bind; [apply (exactly_call (CPut format_key format_body (sha256 format_body))); intros x m' Hx; exact (Hx eq_refl)|].
  intros r m1 Hr. unfold put_answer in Hr. rewrite Hm in Hr. destruct Hr as [Hc [v ->]].
  eapply exactly_bind; [by apply (exactly_ret (Committed v) _ _ (fun x m' => m' = m1 /\ x = Committed v))|]. intros ? ? [-> ->].
  eapply exactly_bind; [by apply (exactly_ret tt _ _ (fun _ m' => m' = m1))|]. intros _ ? ->.
  unfold open. cbv zeta. change (trim_end_slash (q_root Q) ++ [slash]) with (q_root Q).
  change (q_root Q ++ key_to_string KFormat) with format_key. change (o_queue_id driver_options) with driver_queue_id.
  pose proof Hc as (v' & t & _ & Em1).
  eapply exactly_bind; [apply (exactly_call (CGet format_key None)); intros x m' Hx; exact (Hx eq_refl)|].
  intros r ? [-> ->]. unfold get_answer.
  assert (m1 !! format_key = Some {| e_body := format_body; e_version := v'; e_time := t |}) as -> by (subst m1; apply space_insert).
  eapply exactly_bind; [by apply (exactly_ret _ _ _ (fun x m' => m' = m1 /\ o_body x = format_body))|]. intros obj ? [-> ->].
  rewrite format_decodes.
  eapply exactly_bind; [by apply (exactly_ret _ _ _ (fun x m' => m' = m1 /\ x = RecFormat driver_format))|]. intros ? ? [-> ->].
  eapply exactly_bind; [by apply (exactly_ret tt _ _ (fun _ m' => m' = m1))|]. intros _ ? ->.
  by apply exactly_ret.
Qed.

(* ---------------------------------------------------------------- *)
(** ** Where the run starts *)

Record config_ok (cfg : DriverConfig) : Prop := {
  cfg_jobs : Forall indexed (seq 0 (dc_jobs cfg));
  cfg_attempts : is_u64 (dc_max_attempts cfg) /\ dc_max_attempts cfg <> 0;
  cfg_lease : is_u64 (dc_lease_ns cfg)
}.

(** The driver's state once [Queue::init] is through. *)
Definition driver_start (cfg : DriverConfig) (w : World MemoryStore) : DriveState MemoryStore :=
  let '((_, h), w) := run (driver_init (fresh_handle 4096)) w in
  {| ds_world := w; ds_handle := h; ds_oracle := oracle_new; ds_held := replicate (dc_jobs cfg) None;
     ds_out_keys := replicate (dc_jobs cfg) None; ds_exhausted := 0 |}.

(** An empty store with room for the run's calls. *)
Definition fresh_world (w : World MemoryStore) : Prop :=
  (forall k, store_view (w_store w) !! k = None) /\
  world_ok (run_calls (driver_init (fresh_handle 4096)) w + 4096) w.

Lemma format_key_only k : key_to_string k = key_to_string KFormat -> k = KFormat.
Proof.
  intros E. apply (f_equal (split_on slash)) in E. rewrite !split_key_to_string in E.
  destruct k; try done; first [discriminate (f_equal (fun l => nth 0 l []) E)|discriminate (f_equal (fun l => nth 1 l []) E)].
Qed.

Lemma format_only_agrees cfg (d : DriveState MemoryStore) v t :
  is_u64 t -> space_of d = <[format_key := {| e_body := format_body; e_version := v; e_time := t |}]> ∅ ->
  ds_handle d = fresh_handle 4096 -> world_ok 4096 (ds_world d) -> ds_oracle d = oracle_new ->
  ds_held d = replicate (dc_jobs cfg) None -> ds_out_keys d = replicate (dc_jobs cfg) None ->
  agrees Q cfg d 0.
Proof.
  intros Ht Es Eh Hw Eo Ed Ek.
  assert (forall s e, space_of d !! (q_root Q ++ s) = Some e -> s = key_to_string KFormat /\ e_time e = t) as Honly.
  { intros s e He. rewrite Es in He. apply space_insert_inv in He as [[E <-]|[_ He]]; [|by destruct (lookup_empty_Some _ _ He)].
    split; [|done]. by apply (inj (app (q_root Q))) in E. }
  assert (forall k, k <> KFormat -> space_of d !! absolute Q k = None) as Hnone.
  { intros k Hk. destruct (space_of d !! absolute Q k) as [e|] eqn:He; [|done].
    apply Honly in He as [E _]. by destruct (format_key_only k E). }
  assert (forall j : bytes, (oracle_new.(jobs)) !! j = None) as Hnew by apply lookup_empty.
  split; rewrite ?Eo, ?Eh, ?Ed, ?Ek, ?length_replicate; try done.
  - split; try done.
    + split.
      * intros k e Hk He. pose proof (Honly (key_to_string k) e He) as [E <-]. split; [done|].
        by rewrite (format_key_only k E).
      * intros s e He Hp. destruct (Honly s e He) as [-> _]. by exists KFormat.
    + split; [|split].
      * intros j st E. by rewrite Hnew in E.
      * intros s j _ _ [e He]. by rewrite (Hnone (KJob s j)) in He.
      * intros j _ _. unfold output_tracked. destruct (space_of d !! output_key Q j ¶"result") as [e|] eqn:He; [|done].
        rewrite output_key_path in He. apply Honly in He as [E _]. by apply output_path_ne_key in E.
    + intros s j g _ _ _ [e He]. by rewrite (Hnone (KClaim s j g)) in He.
  - intros n Hn. exists None, None. rewrite !lookup_replicate. split; [done|]. split; [done|]. split.
    + intros st g a x E. by rewrite Hnew in E.
    + unfold output_digest. by rewrite Hnew.
  - intros n s job _ _ (e & r & He & _).
    change (at_key (q_root Q) (KJob s (job_id n))) with (absolute Q (KJob s (job_id n))) in He. by rewrite (Hnone (KJob s (job_id n))) in He.
Qed.

Lemma start_agrees cfg w : fresh_world w -> agrees Q cfg (driver_start cfg w) 0 /\
  (run (driver_init (fresh_handle 4096)) w).1 = (Ok Q, fresh_handle 4096).
Proof.
  intros [Hnone Hw]. pose proof (run_ok _ _ _ Hw) as Hw'.
  pose proof (calm_run _ w _ (world_ok_le (run_calls (driver_init (fresh_handle 4096)) w) _ w Hw ltac:(lia)) (init_exactly (fresh_handle 4096) _ Hnone)) as Hrun.
  unfold driver_start. destruct (run (driver_init (fresh_handle 4096)) w) as [[r h] w'] eqn:E. cbn [fst snd] in *.
  destruct Hrun as (a & Er & -> & v & t & Ht & Em). injection Er as -> ->. split; [|done].
  apply (format_only_agrees cfg _ v t); try done. unfold space_of. cbn [ds_world]. rewrite Em.
  assert (store_view (w_store w) = (∅ : Space)) as -> by (by apply map_empty). done.
Qed.

End Fresh.

(* ------------------------------------------------------------------ *)
(** * A run, decided *)

Section Decided.
Context {HS : Sha256} (q : Queue) (cfg : DriverConfig).
#[local] Existing Instance memory_store.

Definition room_b (n : nat) (s : MemoryStore) : bool :=
  (0 <=? version_counter s) && (version_counter s + Z.of_nat n <=? u64_max) && (0 <? tick_step_ns s) &&
  (0 <=? clock s) && (clock s + Z.of_nat n * tick_step_ns s <=? u64_max).
Definition fits_b (op : DriveOp) (d : DriveState MemoryStore) : bool :=
  match op with
  | DEnqueue n | DRenew n | DAck n | DBury n | DCommitOutput n => (n <? dc_jobs cfg)%nat
  | DNack n => (n <? dc_jobs cfg)%nat &&
      match held_at d n with
      | Some c => match nack_until q c (o_clock (ds_oracle d)) with Some x => lease_end c <=? x | None => false end
      | None => true
      end
  | DClaim => true
  | DClaimMany _ => false
  | DAdvanceClock to => (0 <=? to) && (to <=? u64_max) &&
      room_b (max_ops (ds_handle d)) (Memory.advance_clock_to (w_store (ds_world d)) to)
  end.
Fixpoint serves_b (ops : list DriveOp) (d : DriveState MemoryStore) (G : Z) : bool :=
  match ops with
  | [] => true
  | op :: ops => (G + 1 <? u32_max) && (STEP_OPS d G <=? max_ops (ds_handle d))%nat && fits_b op d &&
      match drive_op id q cfg op d with Ok d' => serves_b ops d' (G + 1) | Err _ => true end
  end.

Lemma fits_decided op d : fits_b op d = true -> fits q cfg op d.
Proof.
  destruct op as [n| |n|n|n|n|n|n|to]; cbn [fits_b fits]; try (by intros ?%Nat.ltb_lt); try done.
  - intros [Hn Hc]%andb_prop. split; [by apply Nat.ltb_lt|]. intros c Ec. rewrite Ec in Hc.
    destruct (nack_until q c _) as [x|]; [|done]. exists x. split; [done|]. by apply Z.leb_le.
  - unfold advances, room_b, room, is_u64. intros Hb. repeat apply andb_prop in Hb as [Hb ?].
    rewrite ?Z.leb_le, ?Z.ltb_lt in *. lia.
Qed.

Lemma serves_decided ops d G : serves_b ops d G = true -> serves q cfg ops d G.
Proof.
  revert d G. induction ops as [|op ops IH]; intros d G; cbn [serves_b serves]; [done|].
  intros Hb. repeat apply andb_prop in Hb as [Hb ?]. split; [split; [by apply Z.ltb_lt|by apply Nat.leb_le]|].
  split; [by apply fits_decided|]. destruct (drive_op id q cfg op d); [by apply IH|done].
Qed.
End Decided.

Section Witness.
#[local] Existing Instance toy_digest.

Lemma sample_world_fresh : fresh_world sample_world.
Proof.
  split.
  - intros k. destruct (store_view (w_store sample_world) !! k) as [e|] eqn:He; [|done]. exfalso.
    cbn in He. by apply lookup_fmap_Some in He as (x & _ & Hx%lookup_empty_Some).
  - apply sample_world_ok, Nat.leb_le. vm_compute. reflexivity.
Qed.

Definition sample_ops : list DriveOp :=
  [DEnqueue 0; DEnqueue 1; DClaim; DCommitOutput 0; DAck 0; DClaim; DRenew 1; DNack 1; DAdvanceClock 70000000000; DClaim].

End Witness.
