(* ===== verification/Snapshots.v ===== *)
(** [stowq-cli/src/state.rs]: what the command-line program keeps between two
    invocations, the memory store in a file and claims as printed handles.

    The standard library's file operations are functions of a [Machine]; the
    JSON writer and reader ([serde_json]) are parameters. *)

From S2P Require Import Prelude Sha256 Keys Text Cbor Store Memory Records Effects Queue Samples.

(* ------------------------------------------------------------------ *)
(** * Hexadecimal text *)

(** Slicing a text inside a character panics. *)
Inductive HexError := InvalidHex | HexPanics.

(** Pairs of digits; an odd last character is not looked at. *)
Fixpoint decode_hex (s : bytes) : Result HexError bytes :=
  match s with
  | h :: l :: rest =>
      if continuation h || match rest with c :: _ => continuation c | [] => false end then Err HexPanics
      else match u8_from_hex2 h l with
           | None => Err InvalidHex
           | Some v => out ← decode_hex rest; Ok (byte_of v :: out)
           end
  | _ => Ok []
  end.

(** [try_into::<[u8; 16]>]. *)
Definition sixteen (b : bytes) : option bytes := if decide (length b = 16%nat) then Some b else None.

(* ------------------------------------------------------------------ *)
(** * Errors of a command *)

(** How a command fails: the cases of its messages. *)
Inductive CliError :=
| IoFails (path : bytes)
| JsonFails
| InvalidHexText
| BadJobId
| BadToken
| QueueFails (e : Error)
| JobExists (job_id : bytes)
| SupersededByDeadRecord
| SupersededByReceiptRecord
| CliPanics.

(** A program of the command line: the queue's operations, with the errors of
    the command around them. *)
Definition C (A : Type) : Type := M (Result CliError A).
#[export] Instance c_ret : MRet C := fun A a => mret_ (Ok a).
#[export] Instance c_bind : MBind C := fun A B f x =>
  mbind_ x (fun r => match r with Ok a => f a | Err e => mret_ (Err e) end).
Definition cli_fail {A} (e : CliError) : C A := mret_ (Err e).
Definition cli_ok {A} (r : Result CliError A) : C A := mret_ r.

(** A queue operation on a budget of its own, its error as a message. *)
Definition queue_op {A} (budget : nat) (op : M A) : C A :=
  mbind_ (set_budget budget) (fun _ => mbind_ (try_ op) (fun r => mret_ (map_err QueueFails r))).

Definition hex_error (e : HexError) : CliError :=
  match e with InvalidHex => InvalidHexText | HexPanics => CliPanics end.

(* ------------------------------------------------------------------ *)
(** * Handles *)

Record Handle := {
  hd_job_id : bytes;
  hd_shard : Z;
  hd_generation : Z;
  hd_attempt : Z;
  hd_worker_token : bytes;
  hd_lease_duration_ns : Z;
  hd_claim_store_time_ns : Z;
  hd_payload : bytes
}.

Definition from_claim (c : Claim) (payload : bytes) : Handle :=
  {| hd_job_id := push_hex (cl_job_id c); hd_shard := cl_shard c; hd_generation := cl_generation c;
     hd_attempt := cl_attempt c; hd_worker_token := push_hex (cl_worker_token c);
     hd_lease_duration_ns := cl_lease_duration_ns c; hd_claim_store_time_ns := cl_claim_store_time_ns c;
     hd_payload := payload |}.

Definition to_claim `{Sha256} (h : Handle) (queue : bytes) : C Claim :=
  id ← cli_ok (map_err hex_error (decode_hex (hd_job_id h)));
  job_id ← cli_ok (ok_or (sixteen id) BadJobId);
  tk ← cli_ok (map_err hex_error (decode_hex (hd_worker_token h)));
  token ← cli_ok (ok_or (sixteen tk) BadToken);
  queue_op 0 (detached_or_inline job_id (hd_shard h) (hd_generation h) (hd_attempt h) token
                (hd_lease_duration_ns h) (hd_claim_store_time_ns h) queue).

(* ------------------------------------------------------------------ *)
(** * The machine *)

(** The files, those the process may not use, its standard input and the
    directory for temporary files. *)
Record Machine := {
  mc_files : gmap bytes bytes;
  mc_denied : gset bytes;
  mc_stdin : bytes;
  mc_temp_dir : bytes
}.

Definition path_exists (mc : Machine) (path : bytes) : bool := bool_decide (is_Some (mc_files mc !! path)).
Definition fs_read (mc : Machine) (path : bytes) : Result CliError bytes :=
  if decide (path ∈ mc_denied mc) then Err (IoFails path) else ok_or (mc_files mc !! path) (IoFails path).
Definition read_to_string (mc : Machine) (path : bytes) : Result CliError bytes :=
  raw ← fs_read mc path; if Cbor.utf8_valid raw then Ok raw else Err (IoFails path).
Definition fs_write (mc : Machine) (path data : bytes) : Result CliError Machine :=
  if decide (path ∈ mc_denied mc) then Err (IoFails path)
  else Ok {| mc_files := <[path := data]> (mc_files mc); mc_denied := mc_denied mc;
             mc_stdin := mc_stdin mc; mc_temp_dir := mc_temp_dir mc |}.
Definition path_join (dir name : bytes) : bytes :=
  if bool_decide (last dir = Some slash) then dir ++ name else dir ++ [slash] ++ name.

Definition ascii_alphanumeric (b : byte) : bool :=
  Cbor.in_range 48 57 b || Cbor.in_range 65 90 b || Cbor.in_range 97 122 b.

(** Character by character: the bytes that continue one leave no trace. *)
Definition sanitize (b : byte) : option byte :=
  if continuation b then None
  else Some (if ascii_alphanumeric b || bool_decide (b = Init.Byte.x2d) || bool_decide (b = Init.Byte.x5f) then b
             else Init.Byte.x5f).
Definition path_for (mc : Machine) (queue : bytes) : bytes :=
  path_join (mc_temp_dir mc) (¶"stowq-" ++ omap sanitize queue ++ ¶".json").

(* ------------------------------------------------------------------ *)
(** * Snapshots *)

(** An entry: key, body in hexadecimal, version and store time. *)
Record Snapshot := {
  sn_objects : list (bytes * bytes * Z * Z);
  sn_next_version : Z;
  sn_clock : Z
}.

Class SerdeJson := {
  snapshot_to_json : Snapshot -> option bytes;
  snapshot_from_json : bytes -> option Snapshot;
  handle_to_json : Handle -> option bytes;
  handle_from_json : bytes -> option Handle
}.

Section State.
Context `{SerdeJson}.

Fixpoint decode_entries (es : list (bytes * bytes * Z * Z)) : Result HexError (list SnapshotEntry) :=
  match es with
  | [] => Ok []
  | (key, body, version, time) :: es =>
      b ← decode_hex body; rest ← decode_entries es; Ok ((key, b, version, time) :: rest)
  end.

Definition new_store : MemoryStore :=
  {| objects := ∅; version_counter := 1; clock := 1; tick_step_ns := 1 |}.

Definition load (mc : Machine) (queue : bytes) : Result CliError MemoryStore :=
  let path := path_for mc queue in
  if negb (path_exists mc path) then Ok new_store
  else
    raw ← read_to_string mc path;
    snap ← ok_or (snapshot_from_json raw) JsonFails;
    objs ← map_err hex_error (decode_entries (sn_objects snap));
    Ok (restore_raw new_store objs (sn_next_version snap) (sn_clock snap)).

Definition save (mc : Machine) (queue : bytes) (store : MemoryStore) : Result CliError Machine :=
  let '(objs, next_version, clk) := snapshot_raw store in
  let snap := {| sn_objects := map (fun '(k, body, version, t) => (k, push_hex body, version, t)) objs;
                 sn_next_version := next_version; sn_clock := clk |} in
  text ← ok_or (snapshot_to_json snap) JsonFails;
  fs_write mc (path_for mc queue) text.
End State.

(* ------------------------------------------------------------------ *)
(** * Inspecting a job *)

(** [path: present] or [path: absent] for each key. *)
Fixpoint inspect_heads (keys : list bytes) : M (list bytes) :=
  match keys with
  | [] => mret []
  | k :: keys =>
      r ← do_head k;
      line ← match r with
             | Ok _ => mret (k ++ ¶": present")
             | Err NotFound => mret (k ++ ¶": absent")
             | Err e => fail (StoreE e)
             end;
      rest ← inspect_heads keys; mret (line :: rest)
  end.

Definition claim_line (l : Listing) : bytes :=
  l_key l ++ ¶": gen at t=" ++ u64_to_string (m_store_time_ns (l_meta l)).

(** The listing loop, a page of 64 at a time. *)
Fixpoint inspect_claims (fuel : nat) (prefix : bytes) (after : option bytes) : M (list bytes) :=
  match fuel with
  | O => throw OutOfFuel
  | S fuel =>
      r ← do_list prefix after 64;
      page ← store_ok r;
      match p_items page with
      | [] => mret []
      | items =>
          match p_next_after page with
          | Some k => rest ← inspect_claims fuel prefix (Some k); mret (map claim_line items ++ rest)
          | None => mret (map claim_line items)
          end
      end
  end.

Definition inspect `{Sha256} (fuel : nat) (queue job_id : bytes) (count : Z) : M bytes :=
  shard ← unwrap (compute_shard QUEUE_ID_FOR_TOOLING job_id count);
  let at_plane plane := queue ++ [slash] ++ plane ++ [slash] ++ hex16 shard ++ [slash] ++ push_hex job_id in
  heads ← inspect_heads [at_plane ¶"jobs"; at_plane ¶"receipts"; at_plane ¶"dead"];
  claims ← inspect_claims fuel (at_plane ¶"claims" ++ [slash]) None;
  mret (join_with Init.Byte.x0a (heads ++ claims)).

(* ------------------------------------------------------------------ *)
(** * Hexadecimal text reads back *)

Lemma hex_digit_text n : 0 <= n < 16 ->
  hex_digit_any (hex_digit n) = Some n /\ continuation (hex_digit n) = false /\
  hex_digit n <> Init.Byte.x2b /\ byte_val (hex_digit n) <= 127.
Proof.
  intros Hn.
  assert (forallb (fun n => bool_decide (hex_digit_any (hex_digit n) = Some n) &&
    negb (continuation (hex_digit n)) && negb (bool_decide (hex_digit n = Init.Byte.x2b)) &&
    (byte_val (hex_digit n) <=? 127)) (seqZ 0 16) = true) as Hall by (vm_compute; reflexivity).
  pose proof (forallb_seqZ _ _ Hall n Hn) as H.
  rewrite !andb_true_iff, !negb_true_iff, bool_decide_eq_true, bool_decide_eq_false, Z.leb_le in H.
  by destruct H as [[[H1 H2] H3] H4].
Qed.

Lemma push_hex_head b : match push_hex b with c :: _ => continuation c | [] => false end = false.
Proof. destruct b as [|x b]; [done|]. cbn [push_hex]. by apply hex_digit_text, nibble_ranges. Qed.

Lemma u8_from_hex2_digits b :
  u8_from_hex2 (hex_digit (Z.shiftr (byte_val b) 4)) (hex_digit (Z.land (byte_val b) 15)) = Some (byte_val b).
Proof.
  destruct (nibble_ranges b) as [Hh Hl]. destruct (hex_digit_text _ Hh) as (Eh & _ & Hp & _).
  destruct (hex_digit_text _ Hl) as (El & _). unfold u8_from_hex2.
  rewrite decide_False by done. rewrite Eh, El. cbn. f_equal. by destruct b.
Qed.

Lemma decode_hex_push b : decode_hex (push_hex b) = Ok b.
Proof.
  induction b as [|x b IH]; [done|]. cbn [push_hex decode_hex].
  destruct (nibble_ranges x) as [Hh _]. destruct (hex_digit_text _ Hh) as (_ & Ec & _).
  rewrite push_hex_head, Ec, u8_from_hex2_digits, IH. cbn. by rewrite byte_of_val.
Qed.

Lemma push_hex_low b : Forall (fun x => byte_val x <= 127) (push_hex b).
Proof.
  induction b as [|x b IH]; [constructor|]. destruct (nibble_ranges x) as [Hh Hl].
  repeat constructor; try done; by apply hex_digit_text.
Qed.

Lemma push_hex_utf8 b : Cbor.utf8_valid (push_hex b) = true.
Proof.
  induction (push_hex_low b) as [|x l Hx _ IH]; [done|]. cbn [Cbor.utf8_valid]. unfold Cbor.in_range at 1.
  rewrite (proj2 (Z.leb_le 0 (byte_val x))) by (pose proof (byte_val_range x); lia).
  by rewrite (proj2 (Z.leb_le _ _) Hx).
Qed.

Lemma sixteen_id b : is_id b -> sixteen b = Some b.
Proof. intros Hb. unfold sixteen. by rewrite decide_True. Qed.

(* ------------------------------------------------------------------ *)
(** * A store is loaded as it was saved *)

Definition is_str (s : bytes) : Prop := Cbor.utf8_valid s = true.
Definition entry_typed (e : bytes * bytes * Z * Z) : Prop :=
  let '(key, body, version, time) := e in is_str key /\ is_str body /\ is_u64 version /\ is_u64 time.
Definition snapshot_typed (snap : Snapshot) : Prop :=
  Forall entry_typed (sn_objects snap) /\ is_u64 (sn_next_version snap) /\ is_u64 (sn_clock snap).
Definition handle_typed (h : Handle) : Prop :=
  is_str (hd_job_id h) /\ is_u16 (hd_shard h) /\ is_u64 (hd_generation h) /\ is_u64 (hd_attempt h) /\
  is_str (hd_worker_token h) /\ is_u64 (hd_lease_duration_ns h) /\ is_u64 (hd_claim_store_time_ns h) /\
  is_str (hd_payload h).

(** What [serde_json] promises of derived readers and writers: what is written
    is text, and reads back. *)
Class SerdeJsonLaws `{SerdeJson} := {
  snapshot_json snap : snapshot_typed snap ->
    exists text, snapshot_to_json snap = Some text /\ is_str text /\ snapshot_from_json text = Some snap;
  handle_json h : handle_typed h ->
    exists text, handle_to_json h = Some text /\ is_str text /\ handle_from_json text = Some h
}.

(** A store the command line can hold: its keys are text, its numbers 64-bit,
    its clock ticks by one. *)
Definition store_typed (s : MemoryStore) : Prop :=
  map_Forall (fun k x => is_str k /\ is_u64 (s_version x) /\ is_u64 (s_store_time_ns x)) (objects s) /\
  is_u64 (version_counter s) /\ is_u64 (clock s) /\ tick_step_ns s = 1.

Lemma decode_entries_push (objs : list SnapshotEntry) :
  decode_entries (map (fun '(k, body, version, t) => (k, push_hex body, version, t)) objs) = Ok objs.
Proof.
  induction objs as [|[[[k b] v] t] objs IH]; [done|]. cbn [map decode_entries].
  rewrite decode_hex_push. cbn. by rewrite IH.
Qed.

Lemma snapshot_of_typed s : store_typed s ->
  snapshot_typed {| sn_objects := map (fun '(k, body, version, t) => (k, push_hex body, version, t)) (snapshot_raw s).1.1;
                    sn_next_version := (snapshot_raw s).1.2; sn_clock := (snapshot_raw s).2 |}.
Proof.
  intros (Hm & Hv & Hc & _). split; [|by split]. unfold snapshot_raw. cbn [fst sn_objects]. rewrite map_map.
  apply Forall_map, Forall_forall. intros [k x] Hin. rewrite entries_perm in Hin.
  apply elem_of_map_to_list in Hin. destruct (Hm k x Hin) as (Hk & Hxv & Hxt). cbn.
  split_and!; [done|apply push_hex_utf8|done..].
Qed.

Section Saved.
Context `{SerdeJsonLaws}.

Lemma save_load mc queue s :
  store_typed s -> path_for mc queue ∉ mc_denied mc ->
  exists text, save mc queue s = Ok {| mc_files := <[path_for mc queue := text]> (mc_files mc);
                                       mc_denied := mc_denied mc; mc_stdin := mc_stdin mc;
                                       mc_temp_dir := mc_temp_dir mc |} /\
    forall mc', mc_temp_dir mc' = mc_temp_dir mc -> mc_files mc' !! path_for mc queue = Some text ->
      path_for mc queue ∉ mc_denied mc' -> load mc' queue = Ok s.
Proof.
  intros Hs Hp. destruct (snapshot_json _ (snapshot_of_typed s Hs)) as (text & Hto & Htext & Hfrom).
  exists text. pose proof (restore_snapshot s) as Hr. unfold save.
  destruct (snapshot_raw s) as [[objs nv] clk] eqn:E. cbn [fst snd] in *. rewrite Hto.
  cbn [ok_or mbind result_bind]. unfold fs_write. rewrite decide_False by done. split; [done|].
  intros mc' Ht Hf Hp'. assert (path_for mc' queue = path_for mc queue) as Epath by (unfold path_for; by rewrite Ht).
  unfold load, path_exists, read_to_string, fs_read. rewrite Epath, Hf, bool_decide_eq_true_2 by done.
  cbn [negb]. rewrite decide_False by done. cbn [ok_or mbind result_bind]. unfold is_str in Htext.
  rewrite Htext. cbn [mbind result_bind]. rewrite Hfrom. cbn [ok_or mbind result_bind sn_objects].
  rewrite decode_entries_push. cbn [map_err mbind result_bind sn_next_version sn_clock]. f_equal.
  destruct Hs as (_ & _ & _ & Htick). rewrite Htick in Hr. exact Hr.
Qed.
End Saved.
