(* ===== verification/Cli.v ===== *)
(** [stowq-cli/src/main.rs]: the commands.

    A command runs in a process of its own: it loads the store of its queue,
    opens the queue, performs its operation and persists the store it was left
    with; what it prints and when it persists is a list of [Deed]s.  Clap's
    parsing of the arguments is not modelled. *)

From S2P Require Import Prelude Sha256 Keys Text Cbor Store Memory Records Effects Queue Claims Sweeps Repair Samples Snapshots.

(* ------------------------------------------------------------------ *)
(** * Commands *)

Inductive Command :=
| CmdInit (queue : bytes) (shard_count : Z)
| CmdPut (queue payload content_type : bytes) (maximum_attempts : Z) (job_id : option bytes)
| CmdClaim (queue : bytes) (lease_ns : Z)
| CmdAck (queue handle : bytes)
| CmdNack (queue handle : bytes) (reason : Z)
| CmdBury (queue handle : bytes) (reason : Z)
| CmdSweep (queue : bytes)
| CmdGc (queue : bytes) (retention_ns orphan_horizon_ns : Z)
| CmdInspect (queue job_id : bytes)
| CmdRepair (queue : bytes).

Definition queue_of (c : Command) : bytes :=
  match c with
  | CmdInit q _ | CmdPut q _ _ _ _ | CmdClaim q _ | CmdAck q _ | CmdNack q _ _ | CmdBury q _ _ | CmdSweep q
  | CmdGc q _ _ | CmdInspect q _ | CmdRepair q => q
  end.

(** What a command does once its operations have succeeded. *)
Inductive Deed := Print (line : bytes) | Persist.

Definition parse_job_id (h : bytes) : Result CliError bytes :=
  b ← map_err hex_error (decode_hex h); ok_or (sixteen b) BadJobId.

Definition decimal (n : nat) : bytes := u64_to_string (Z.of_nat n).

(** [{:#06x}]. *)
Definition hash_hex (v : Z) : bytes :=
  let digits := trim_start_matches Init.Byte.x30 (push_hex (be_bytes 8 v)) in
  ¶"0x" ++ replicate (4 - length digits) Init.Byte.x30 ++ digits.

(** [{:?}]. *)
Definition kind_name (k : FindingKind) : bytes :=
  match k with
  | KeyGrammar => ¶"KeyGrammar"
  | RecordCorrupt => ¶"RecordCorrupt"
  | ClaimWithoutJob => ¶"ClaimWithoutJob"
  | InadmissibleClaim => ¶"InadmissibleClaim"
  | DuplicateTerminal => ¶"DuplicateTerminal"
  | ChainGap => ¶"ChainGap"
  | PayloadMissing => ¶"PayloadMissing"
  end.

Section Run.
Context `{Sha256} `{SerdeJson} (hash_order : list bytes -> list bytes).

Definition cli_format (count : Z) : FormatRecord :=
  {| shard_count := count; lease_bucket_width_ns := 1000; delayed_bucket_width_ns := 1000;
     terminal_bucket_width_ns := 1000; inline_limit := 65536; required_feature_bits := 0 |}.

Definition cli_open (queue : bytes) : C Queue :=
  queue_op 0 (mbind_ (unwrap (open_options_new QUEUE_ID_FOR_TOOLING)) (fun opts => open queue opts)).

Definition read_handle (queue handle : bytes) : C Claim :=
  h ← cli_ok (ok_or (handle_from_json handle) JsonFails); to_claim h queue.

Definition run_init (queue : bytes) (count : Z) : C (list Deed) :=
  _ ← queue_op 0 (mbind_ (unwrap (open_options_new QUEUE_ID_FOR_TOOLING)) (fun opts =>
        init queue opts (cli_format count)));
  mret [Persist; Print (¶"initialized " ++ queue)].

Definition read_payload (mc : Machine) (payload : bytes) : Result CliError bytes :=
  if decide (payload = ¶"-") then Ok (mc_stdin mc) else fs_read mc payload.

Definition run_put (mc : Machine) (queue payload content_type : bytes) (maximum_attempts : Z)
    (job_id : option bytes) : C (list Deed) :=
  q ← cli_open queue;
  body ← cli_ok (read_payload mc payload);
  job_id ← match job_id with
           | Some h => j ← cli_ok (parse_job_id h); mret (Some j)
           | None => mret None
           end;
  out ← queue_op 64 (enqueue q {| ei_job_id := job_id; ei_payload := body; ei_content_type := content_type;
                                  ei_maximum_attempts := maximum_attempts; ei_not_before_ns := None |});
  match out with
  | EnqCommitted j => mret [Print (push_hex j); Persist]
  | IdTaken j => cli_fail (JobExists j)
  end.

(** The shards in turn, each with a budget of its own, until one yields a
    claim. *)
Fixpoint claim_shards (q : Queue) (lease_ns floor : Z) (shards : list Z) : C ClaimOutcome :=
  match shards with
  | [] => mret Empty
  | shard :: shards =>
      outcome ← queue_op 512 (claim q {| co_shard := shard mod 65536; co_floor_ns := floor;
                                         co_lease_duration_ns := lease_ns |});
      match outcome with
      | Claimed c => mret (Claimed c)
      | Empty => claim_shards q lease_ns floor shards
      end
  end.

Definition payload_text (c : Claim) : bytes :=
  match cl_payload c with
  | Inline b => ¶"inline:" ++ push_hex b
  | Detached _ _ _ => ¶"detached:" ++ push_hex (cl_job_id c)
  end.

Definition run_claim (queue : bytes) (lease_ns : Z) : C (list Deed) :=
  q ← cli_open queue;
  floor ← queue_op 16 (establish_floor q);
  outcome ← claim_shards q lease_ns floor (seqZ 0 (Z.max (shard_count (q_format q)) 1));
  match outcome with
  | Claimed c =>
      text ← cli_ok (ok_or (handle_to_json (from_claim c (payload_text c))) JsonFails);
      mret [Print text; Persist]
  | Empty => mret [Print ¶"empty"]
  end.

Definition run_ack (queue handle : bytes) : C (list Deed) :=
  q ← cli_open queue;
  c ← read_handle queue handle;
  out ← queue_op 128 (ack q c);
  match out with
  | Acked => mret [Print ¶"acked"; Persist]
  | AlreadyAcked => mret [Print ¶"already-acked"]
  | SupersededByDead => cli_fail SupersededByDeadRecord
  end.

Definition run_nack (queue handle : bytes) (reason : Z) : C (list Deed) :=
  q ← cli_open queue;
  c ← read_handle queue handle;
  floor ← queue_op 16 (establish_floor q);
  _ ← queue_op 128 (nack q c reason floor);
  mret [Print ¶"nacked"; Persist].

Definition run_bury (queue handle : bytes) (reason : Z) : C (list Deed) :=
  q ← cli_open queue;
  c ← read_handle queue handle;
  out ← queue_op 128 (bury q c reason);
  match out with
  | Buried => mret [Print ¶"buried"; Persist]
  | SupersededByReceipt => cli_fail SupersededByReceiptRecord
  end.

Definition run_sweep (queue : bytes) : C (list Deed) :=
  q ← cli_open queue;
  floor ← queue_op 16 (establish_floor q);
  leases ← queue_op 1024 (sweep_expired_leases q floor);
  delayed ← queue_op 1024 (sweep_delayed q floor);
  mret [Print (¶"leases: " ++ decimal (sw_entries leases) ++ ¶" entries, " ++ decimal (sw_reclaimed leases) ++
               ¶" reclaimed; delayed: " ++ decimal (sw_entries delayed) ++ ¶" entries, " ++
               decimal (sw_promoted delayed) ++ ¶" promoted"); Persist].

Definition run_gc (queue : bytes) (retention_ns orphan_horizon_ns : Z) : C (list Deed) :=
  q ← cli_open queue;
  floor ← queue_op 16 (establish_floor q);
  report ← queue_op 4096 (gc q floor retention_ns orphan_horizon_ns);
  mret [Print (decimal (gc_jobs_deleted report) ++ ¶" jobs deleted, " ++ decimal (gc_beacons_deleted report) ++
               ¶" beacons collected"); Persist].

Definition finding_line (f : Finding) : bytes :=
  ¶"finding " ++ kind_name (fd_kind f) ++ ¶" reason " ++ hash_hex (fd_reason f) ++ ¶" key " ++ fd_key f.

Definition run_repair (queue : bytes) : C (list Deed) :=
  q ← cli_open queue;
  '(report, resume) ← queue_op 8192 (repair_scan q hash_order 0);
  mret ([Print (¶"shards: " ++ u64_to_string (rp_shards_scanned report) ++ ¶", jobs: " ++
                decimal (rp_jobs_scanned report) ++ ¶", claim chains: " ++ decimal (rp_claim_chains_scanned report) ++
                ¶", indexes regenerated: " ++ decimal (rp_indexes_regenerated report) ++ ¶", findings: " ++
                decimal (length (rp_findings report)))] ++
        map (fun f => Print (finding_line f)) (rp_findings report) ++
        match resume with
        | Some next => [Print (¶"budget boundary: resume from shard " ++ u64_to_string next)]
        | None => []
        end ++ [Persist]).

Definition run_inspect (fuel : nat) (queue job_id : bytes) : C (list Deed) :=
  q ← cli_open queue;
  id ← cli_ok (parse_job_id job_id);
  out ← queue_op 0 (inspect fuel queue id (Z.max (shard_count (q_format q)) 1));
  mret [Print out].

Definition run_body (mc : Machine) (fuel : nat) (c : Command) : C (list Deed) :=
  match c with
  | CmdInit queue count => run_init queue count
  | CmdPut queue payload content_type maximum_attempts job_id =>
      run_put mc queue payload content_type maximum_attempts job_id
  | CmdClaim queue lease_ns => run_claim queue lease_ns
  | CmdAck queue handle => run_ack queue handle
  | CmdNack queue handle reason => run_nack queue handle reason
  | CmdBury queue handle reason => run_bury queue handle reason
  | CmdSweep queue => run_sweep queue
  | CmdGc queue retention horizon => run_gc queue retention horizon
  | CmdInspect queue job_id => run_inspect fuel queue job_id
  | CmdRepair queue => run_repair queue
  end.

(** The steps in order; a failed [persist] ends the command. *)
Fixpoint perform_steps (mc : Machine) (queue : bytes) (store : MemoryStore) (steps : list Deed)
  : Result CliError unit * list bytes * Machine :=
  match steps with
  | [] => (Ok tt, [], mc)
  | Print line :: steps => let '(r, out, mc) := perform_steps mc queue store steps in (r, line :: out, mc)
  | Persist :: steps =>
      match save mc queue store with
      | Err e => (Err e, [], mc)
      | Ok mc => perform_steps mc queue store steps
      end
  end.

Definition holding {S S'} (s : S') (w : World S) : World S' :=
  {| w_store := s; w_tokens := w_tokens w; w_clock := w_clock w; w_next_token := w_next_token w;
     w_next_reading := w_next_reading w |}.

(** An invocation: how it ends, what it prints, and the machine after it.
    The store's size bounds the pages of a listing. *)
Definition run_command (c : Command) (w : World Machine) : Result CliError unit * list bytes * World Machine :=
  let mc := w_store w in
  match load mc (queue_of c) with
  | Err e => (Err e, [], w)
  | Ok store =>
      let fuel := S (size (objects store)) in
      let '((r, _), w') := run (run_body mc fuel c (fresh_handle 0)) (holding store w) in
      match r with
      | Ok (Ok steps) =>
          let '(r, out, mc) := perform_steps mc (queue_of c) (w_store w') steps in (r, out, holding mc w')
      | Ok (Err e) => (Err e, [], holding mc w')
      | Err _ => (Err CliPanics, [], holding mc w')
      end
  end.
End Run.

(* ------------------------------------------------------------------ *)
(** * A command is one transaction on its queue's file *)

(** What holds of every value a program can end in, whatever it is run
    against. *)
Definition yields {A} (P : A -> Prop) (x : C A) : Prop :=
  forall s S (O : ObjectStore S) (w : World S) a, (run (x s) w).1.1 = Ok (Ok a) -> P a.

Lemma yields_bind {A B} (P : B -> Prop) (x : C A) (f : A -> C B) :
  (forall a, yields P (f a)) -> yields P (x ≫= f).
Proof.
  intros Hf s S O w b. change ((x ≫= f) s) with
    (pbind (x s) (fun '(r, s) => match r with Ok r => match r with Ok a => f a | Err e => mret_ (Err e) end s | Err e => Ret (Err e, s) end)).
  rewrite run_pbind. destruct (run (x s) w) as [[[[a|e]|e] s'] w']; cbn; try done. apply Hf.
Qed.

Lemma yields_ret {A} (P : A -> Prop) (a : A) : P a -> yields P (mret a).
Proof. intros Ha s S O w b [= <-]. exact Ha. Qed.
Lemma yields_fail {A} (P : A -> Prop) (e : CliError) : yields P (cli_fail e).
Proof. intros s S O w b [=]. Qed.

Lemma yields_op {A B} (P : B -> Prop) budget (op : M A) (f : A -> C B) :
  (forall a, yields P (f a)) -> yields P (queue_op budget op ≫= f).
Proof. apply yields_bind. Qed.

(** The steps of a command persist once, or not at all. *)
Definition is_persist (x : Deed) : bool := match x with Persist => true | Print _ => false end.
Definition persists_once (steps : list Deed) : Prop := (length (List.filter is_persist steps) <= 1)%nat.

Section Atomic.
Context `{Sha256} `{SerdeJson} (hash_order : list bytes -> list bytes).

Lemma body_persists_once mc fuel c : yields persists_once (run_body hash_order mc fuel c).
Proof.
  assert (forall P (r : Result CliError (list Deed)), (forall a, r = Ok a -> P a) -> yields P (cli_ok r)) as Hok.
  { intros P r HP s S O w a [= ->]. by apply HP. }
  destruct c; cbn [run_body];
    unfold run_init, run_put, run_claim, run_ack, run_nack, run_bury, run_sweep, run_gc, run_inspect, run_repair;
    repeat (first [apply yields_bind; intros ? | apply yields_fail
                  | apply yields_ret; unfold persists_once; cbn; lia
                  | match goal with |- yields _ (match ?x with _ => _ end) => destruct x end ]).
  apply yields_ret. unfold persists_once. rewrite !List.filter_app, !length_app.
  assert (forall fs, List.filter is_persist (map (fun f => Print (finding_line f)) fs) = []) as -> by (induction fs; auto).
  cbn. case_match; cbn; lia.
Qed.

(** A command that performs its steps leaves the machine alone, or has saved
    the store. *)
Lemma perform_saves mc queue store steps r out mc' :
  persists_once steps -> perform_steps mc queue store steps = (r, out, mc') ->
  match r with Err _ => mc' = mc | Ok _ => mc' = mc \/ save mc queue store = Ok mc' end.
Proof.
  assert (forall steps mc r out mc', List.filter is_persist steps = [] -> perform_steps mc queue store steps = (r, out, mc') ->
    r = Ok tt /\ mc' = mc) as Hnone.
  { clear. induction steps as [|[line|] steps IH]; intros mc r out mc' Hf Hp; cbn [perform_steps List.filter is_persist] in *; [by injection Hp|..|done].
    destruct (perform_steps mc queue store steps) as [[r0 out0] mc0] eqn:E. injection Hp as <- <- <-. by eapply IH. }
  revert mc r out mc'. induction steps as [|[line|] steps IH]; intros mc r out mc' Hs Hp; cbn [perform_steps] in Hp.
  - injection Hp as <- <- <-. by left.
  - destruct (perform_steps mc queue store steps) as [[r0 out0] mc0] eqn:E. injection Hp as <- <- <-. by eapply IH.
  - destruct (save mc queue store) as [mc1|e] eqn:Es; [|by injection Hp as <- <- <-].
    unfold persists_once in Hs. cbn in Hs. apply le_S_n, Nat.le_0_r, nil_length_inv in Hs.
    destruct (Hnone _ _ _ _ _ Hs Hp) as [-> ->]. by right.
Qed.

(** The run of a command on the store it loaded. *)
Definition command_run (c : Command) (w : World Machine) (s : MemoryStore) :=
  run (run_body hash_order (w_store w) (S (size (objects s))) c (fresh_handle 0)) (holding s w).

Lemma run_command_saves c w r out w' :
  run_command hash_order c w = (r, out, w') ->
  match r with
  | Err _ => w_store w' = w_store w
  | Ok _ => exists s, load (w_store w) (queue_of c) = Ok s /\
      (w_store w' = w_store w \/ save (w_store w) (queue_of c) (w_store (command_run c w s).2) = Ok (w_store w'))
  end.
Proof.
  unfold run_command, command_run. destruct (load (w_store w) (queue_of c)) as [s|e]; [|by intros [= <- <- <-]].
  pose proof (body_persists_once (w_store w) (S (size (objects s))) c (fresh_handle 0) _ memory_store (holding s w)) as Hy.
  destruct (run _ (holding s w)) as [[[[steps|e]|e] h] w1] eqn:Er; [|by intros [= <- <- <-]..].
  destruct (perform_steps (w_store w) (queue_of c) (w_store w1) steps) as [[r0 out0] mc] eqn:Ep. intros [= <- <- <-].
  apply perform_saves in Ep; [|by apply Hy]. destruct r0; [|exact Ep].
  exists s. split; [done|]. rewrite Er. exact Ep.
Qed.
End Atomic.
