(* ===== verification/Commands.v ===== *)
(** [stowq-cli]: what its commands do to a queue.

    Each command is a transaction on the file of its queue, the handle a claim
    prints reads back as that claim in any later invocation, and [inspect]
    prints every claim of a job. *)

From S2P Require Import Prelude Sha256 StowqMath Keys Text Cbor Store Memory Records Direct Effects Queue Claims Oracle Budget Rely Protocol Lifecycle Custody Runs Calm Tracking Agreement Scan Holders Refinement Samples Driver Differential Verdict Snapshots Cli.

(* ------------------------------------------------------------------ *)
(** * Handles *)

Section Handles.
Context `{Sha256} (queue : bytes) (q : Queue).
Hypothesis root_of_queue : q_root q = queue ++ [slash].
Hypothesis cli_queue : o_queue_id (q_opts q) = QUEUE_ID_FOR_TOOLING.

(** What a claim refers to is there: the job's record and, when the payload is
    detached, the payload object with the record's digest and length. *)
Definition payload_there (m : Space) (job : JobRecord) : Prop :=
  j_payload_inline job <> None \/
  exists e, m !! (q_root q ++ default [] (j_payload_key job)) = Some e /\
    sha256 (e_body e) = j_payload_digest job /\ Z.of_nat (length (e_body e)) = j_payload_length job.

Definition budget (n : nat) (h : HState) : HState := {| max_ops := n; h_floor := h_floor h; h_memo := h_memo h |}.

Lemma cli_ok_bind {A B} (a : A) (f : A -> C B) h : (cli_ok (Ok a) ≫= f) h = f a h.
Proof. done. Qed.

Lemma run_queue_op {A} n (op : M A) h (w : World MemoryStore) :
  run (queue_op n op h) w =
  let '((r, h), w) := run (op (budget n h)) w in
  match r with
  | Ok a => ((Ok (Ok a), h), w)
  | Err (Fails e) => ((Ok (Err (QueueFails e)), h), w)
  | Err e => ((Err e, h), w)
  end.
Proof.
  change (queue_op n op h) with (pbind (pbind (op (budget n h)) (fun '(r, s) =>
    match r with Ok a => Ret (Ok (Ok a), s) | Err (Fails e) => Ret (Ok (Err e), s) | Err e => Ret (Err e, s) end))
    (fun '(r, s) => match r with Ok a => mret_ (map_err QueueFails a) s | Err e => Ret (Err e, s) end)).
  rewrite !run_pbind. destruct (run (op (budget n h)) w) as [[[a|[e| |]] h'] w']; reflexivity.
Qed.

(** A command goes on with what a program ended in. *)
Lemma run_cli_bind {A B} (x : C A) (f : A -> C B) h (w : World MemoryStore) :
  run ((x ≫= f) h) w =
  let '((r, h), w) := run (x h) w in
  match r with Ok (Ok a) => run (f a h) w | Ok (Err e) => ((Ok (Err e), h), w) | Err e => ((Err e, h), w) end.
Proof.
  change ((x ≫= f) h) with (pbind (x h) (fun '(r, s) =>
    match r with Ok r => match r with Ok a => f a | Err e => mret_ (Err e) end s | Err e => Ret (Err e, s) end)).
  rewrite run_pbind. by destruct (run (x h) w) as [[[[a|e]|e] h'] w'].
Qed.

Lemma run_m_bind {A B} (x : M A) (f : A -> M B) h (w : World MemoryStore) :
  run ((x ≫= f) h) w =
  let '((r, h), w) := run (x h) w in match r with Ok a => run (f a h) w | Err e => ((Err e, h), w) end.
Proof.
  change ((x ≫= f) h) with (pbind (x h) (fun '(r, s) => match r with Ok a => f a s | Err e => Ret (Err e, s) end)).
  rewrite run_pbind. by destruct (run (x h) w) as [[[a|e] h'] w'].
Qed.

Lemma run_get {A} (w : World MemoryStore) k (f : StoreResult Object -> M A) h :
  run ((do_get k ≫= f) h) w = run (f (get_answer (view (w_store w)) k) h) w.
Proof.
  change ((do_get k ≫= f) h) with (Vis (EStore (CGet k None)) (fun a => pbind (Ret (Ok a, h))
    (fun '(r, s) => match r with Ok a => f a s | Err e => Ret (Err e, s) end))).
  cbn. unfold get, get_answer. rewrite view_lookup. destruct w as [st tk ck nt nr]. cbn. by destruct (objects st !! k).
Qed.

(** A handle reads back, in any later invocation, as the claim it was printed
    for. *)
Lemma to_claim_reads (c : Claim) p job h (w : World MemoryStore) :
  is_id (cl_job_id c) -> is_id (cl_worker_token c) ->
  job_at q (cl_shard c) (cl_job_id c) job (view (w_store w)) -> payload_there (view (w_store w)) job ->
  cl_payload c = payload_of q job ->
  run (to_claim (from_claim c p) queue h) w = ((Ok (Ok c), budget 0 h), w).
Proof.
  intros Hj Ht (e & r & He & Hd & ->) Hp Ec. unfold to_claim, from_claim. cbn [hd_job_id hd_worker_token].
  rewrite !decode_hex_push. cbn [map_err]. rewrite cli_ok_bind, sixteen_id by done. cbn [ok_or].
  rewrite !cli_ok_bind, sixteen_id by done. cbn [ok_or]. rewrite cli_ok_bind, run_queue_op.
  unfold detached_or_inline. cbv zeta. cbn [hd_shard hd_generation hd_attempt hd_lease_duration_ns hd_claim_store_time_ns].
  rewrite run_get.
  assert (queue ++ [slash] ++ key_to_string (KJob (cl_shard c) (cl_job_id c)) =
          at_key (q_root q) (KJob (cl_shard c) (cl_job_id c))) as Ek
    by (unfold at_key; by rewrite root_of_queue, <- app_assoc).
  rewrite Ek. unfold get_answer. rewrite He. rewrite run_m_bind. cbn [run mret m_ret mret_ o_body].
  unfold decode_key in Hd. rewrite cli_queue in Hd. rewrite Hd, run_m_bind. cbn [run record_ok mret_].
  rewrite run_m_bind. cbn [run mret m_ret mret_]. rewrite run_m_bind.
  apply decode_record_canonical_aux in Hd as (_ & _ & Hv). cbn in Hv. unfold payload_of in Ec. unfold payload_there in Hp.
  destruct (j_payload_inline job) as [b|].
  { cbn. rewrite <- Ec. by destruct c. }
  destruct Hp as [Hp|(e' & He' & Hdig & Hlen)]; [done|].
  destruct (j_payload_key job) as [k|]; [|by destruct Hv as [_ Hv]; destruct (Hv eq_refl)].
  cbn [default from_option id] in *. rewrite root_of_queue, <- app_assoc in He', Ec.
  rewrite run_get. unfold get_answer. rewrite He', run_m_bind. cbn [run store_ok mret_ o_body].
  unfold bytes_eqb. rewrite bool_decide_eq_true_2, Hlen, Z.eqb_refl by done. cbn in Ec |- *.
  rewrite <- Ec. by destruct c.
Qed.


(* ---------------------------------------------------------------- *)
(** ** Opening *)

Definition cli_options : OpenOptions :=
  {| o_queue_id := QUEUE_ID_FOR_TOOLING; o_worker_id := ¶"worker-1";
     o_retry := {| base_ms := 100; cap_ms := 60000; use_jitter := true; max_delay_ms := None |};
     o_skew_guard_ns := 0; o_max_inline_payload := 65536 |}.
End Handles.

(** The handle a command opens on a queue of this format. *)
Definition cli_handle (queue : bytes) (format : FormatRecord) : Queue :=
  {| q_root := queue ++ [slash]; q_opts := cli_options; q_format := format |}.

(** The name is written without a slash at its end. *)
Definition plain_name (queue : bytes) : Prop := last queue <> Some slash.

Lemma trim_plain queue : plain_name queue -> trim_end_slash queue = queue.
Proof.
  unfold plain_name. destruct queue as [|b l _] using rev_ind; [done|]. rewrite last_snoc. intros Hb.
  unfold trim_end_slash. rewrite rev_app_distr. cbn. rewrite decide_False by congruence.
  cbn. by rewrite rev_involutive.
Qed.

Section Acts.
Context `{Sha256} `{SerdeJson} (hash_order : list bytes -> list bytes) (queue : bytes) (format : FormatRecord).
Hypothesis queue_plain : plain_name queue.

(** The queue has been initialized with this format. *)
Definition initialized (m : Space) : Prop :=
  exists e, m !! (queue ++ [slash] ++ ¶"meta/FORMAT") = Some e /\
    decode_record (e_body e) QUEUE_ID_FOR_TOOLING (key_tag QUEUE_ID_FOR_TOOLING ¶"meta/FORMAT") =
      Ok (RecFormat format) /\ format_validate format = Ok tt.

Lemma run_cli_open h (w : World MemoryStore) :
  initialized (view (w_store w)) ->
  run (cli_open queue h) w = ((Ok (Ok (cli_handle queue format)), budget 0 h), w).
Proof.
  intros (e & He & Hd & Hv). unfold cli_open. rewrite run_queue_op.
  change (mbind_ (unwrap (open_options_new QUEUE_ID_FOR_TOOLING)) (fun opts => open queue opts) (budget 0 h))
    with (open queue cli_options (budget 0 h)).
  unfold open. cbv zeta. rewrite trim_plain by done. rewrite run_get.
  change (key_to_string KFormat) with (¶"meta/FORMAT"). rewrite <- app_assoc. unfold get_answer. rewrite He.
  rewrite run_m_bind. cbn [run store_ok mret_ o_body]. change (o_queue_id cli_options) with QUEUE_ID_FOR_TOOLING.
  rewrite Hd, run_m_bind. cbn [run record_ok mret_].
  rewrite Hv, run_m_bind. done.
Qed.

(** A command that is given a handle runs on the claim it names. *)
Lemma run_with_handle {A} text c p job (f : Queue -> Claim -> C A) (w : World MemoryStore) :
  initialized (view (w_store w)) -> handle_from_json text = Some (from_claim c p) ->
  is_id (cl_job_id c) -> is_id (cl_worker_token c) ->
  let q := cli_handle queue format in
  job_at q (cl_shard c) (cl_job_id c) job (view (w_store w)) -> payload_there q (view (w_store w)) job ->
  cl_payload c = payload_of q job ->
  run ((q ← cli_open queue; c ← read_handle queue text; f q c) (fresh_handle 0)) w = run (f q c (fresh_handle 0)) w.
Proof.
  intros Hi Ht Hj Hk q Hjob Hp Ec. rewrite run_cli_bind, run_cli_open by done. unfold read_handle.
  rewrite Ht. cbn [ok_or]. rewrite run_cli_bind, cli_ok_bind.
  rewrite (to_claim_reads queue q eq_refl eq_refl c p job) by done. done.
Qed.

(* ---------------------------------------------------------------- *)
(** ** Ending a job by its handle *)

Inductive Ending := EndAck | EndBury (reason : Z).

Definition ending_command (text : bytes) (e : Ending) : Command :=
  match e with EndAck => CmdAck queue text | EndBury reason => CmdBury queue text reason end.
Definition ending_word (e : Ending) : bytes := match e with EndAck => ¶"acked" | EndBury _ => ¶"buried" end.
Definition ending_world (c : Claim) (e : Ending) (w : World MemoryStore) : World MemoryStore :=
  match e with
  | EndAck => (run (ack (cli_handle queue format) c (fresh_handle 128)) w).2
  | EndBury reason => (run (bury (cli_handle queue format) c reason (fresh_handle 128)) w).2
  end.
Definition oracle_end (o : Oracle) (j : bytes) (e : Ending) : bool * Oracle :=
  match e with EndAck => oracle_ack o j | EndBury reason => oracle_bury o j reason end.
Definition ending_ok (e : Ending) : Prop := match e with EndAck => True | EndBury reason => is_u64 reason end.

#[local] Abbreviation q := (cli_handle queue format).

Lemma payload_ready_of c job m : payload_there q m job -> cl_payload c = payload_of q job -> payload_ready m c.
Proof.
  intros Hp Ec. unfold payload_ready. rewrite Ec. unfold payload_of. destruct Hp as [Hp|(e & He & Hd & Hl)].
  - by destruct (j_payload_inline job).
  - destruct (j_payload_inline job); [done|]. by exists e.
Qed.

Lemma calls_within {A} (op : M A) n h (w : World MemoryStore) :
  (forall L, uses L 0 0 op) -> max_ops h = n -> (run_calls (op h) w <= n)%nat.
Proof.
  intros Hop Hn. pose proof (Hop (S n) h ltac:(lia)) as Hr. rewrite Nat.add_0_r in Hr.
  apply (run_runs _ w) in Hr as [Hle _]. lia.
Qed.

(** A calm operation, run on a fresh handle with 128 of budget. *)
Lemma goes_run {A} n (op : M A) (w : World MemoryStore) Q :
  (forall L, uses L 0 0 op) -> (n <= 128)%nat -> world_ok 128 w -> goes q n op (view (w_store w)) Q ->
  exists a h, run (op (fresh_handle 128)) w = ((Ok a, h), (run (op (fresh_handle 128)) w).2) /\
    Q a (view (w_store (run (op (fresh_handle 128)) w).2)).
Proof.
  intros Hu Hn Hw Hgo. assert (paid q (fresh_handle 128) (view (w_store w)) n) as Hpaid.
  { split; [done|]. split; [|exact Hn]. intros sh j x Hx. by destruct (lookup_empty_Some _ _ Hx). }
  pose proof (calm_run _ w _ (world_ok_le _ 128 w Hw (calls_within op 128 (fresh_handle 128) w Hu eq_refl)) (goes_lands q _ _ _ _ _ Hgo Hpaid))
    as (a & Er & HQ).
  destruct (run (op (fresh_handle 128)) w) as [[r h] w']. cbn in *. subst r. by exists a, h.
Qed.

Lemma ending_acts c o G e (w : World MemoryStore) :
  world_ok 128 w -> follows q (view (w_store w)) o G -> in_hand q (view (w_store w)) o c ->
  payload_ready (view (w_store w)) c -> ending_ok e ->
  (exists h, match e with
   | EndAck => run (ack q c (fresh_handle 128)) w = ((Ok Acked, h), ending_world c e w)
   | EndBury reason => run (bury q c reason (fresh_handle 128)) w = ((Ok Buried, h), ending_world c e w)
   end) /\
  (oracle_end o (cl_job_id c) e).1 = true /\
  follows q (view (w_store (ending_world c e w))) (oracle_end o (cl_job_id c) e).2 (G + 1).
Proof.
  intros Hw Hf Hi Hp He. pose proof Hf as [Hq _ _ HI Ht _ _].
  destruct e as [|reason]; cbn [ending_world oracle_end ending_ok] in *.
  - assert (goes q 17 (ack q c) (view (w_store w)) (fun r m' => r = Acked /\
      (oracle_ack o (cl_job_id c)).1 = true /\ follows q m' (oracle_ack o (cl_job_id c)).2 (G + 1))) as Hgo.
    { assert (outputs_ok []) as Ho by (split; [constructor|by vm_compute]).
      eapply goes_mono; [reflexivity| |exact (goes_ack q Hq _ o c [] HI Ht Hi Ho Hp (List.Forall_nil _))].
      intros r m' _ HI' (-> & Hok & Hmv & _). split_and!; [done|done|]. by eapply moved_follows. }
    destruct (goes_run 17 (ack q c) w _ (fun L => uses_ack q L 0 c []) ltac:(lia) Hw Hgo) as (a & h & Er & -> & Hok & Hfo).
    split; [by exists h|by split].
  - assert (goes q 16 (bury q c reason) (view (w_store w)) (fun r m' => r = Buried /\
      (oracle_bury o (cl_job_id c) reason).1 = true /\ follows q m' (oracle_bury o (cl_job_id c) reason).2 (G + 1))) as Hgo.
    { eapply goes_mono; [reflexivity| |by apply (goes_bury q Hq _ o c reason)].
      intros r m' _ HI' (-> & Hok & Hmv). split_and!; try done. by eapply moved_follows. }
    destruct (goes_run 16 (bury q c reason) w _ (fun L => uses_bury q L 0 c reason) ltac:(lia) Hw Hgo) as (a & h & Er & -> & Hok & Hfo).
    split; [by exists h|by split].
Qed.

(** The end of a run whose steps print one line and persist. *)
Lemma run_command_done c w s steps h w1 :
  load (w_store w) (queue_of c) = Ok s ->
  run (run_body hash_order (w_store w) (S (size (objects s))) c (fresh_handle 0)) (holding s w) = ((Ok (Ok steps), h), w1) ->
  run_command hash_order c w =
    let '(r, out, mc) := perform_steps (w_store w) (queue_of c) (w_store w1) steps in (r, out, holding mc w1).
Proof. intros Hl Hr. unfold run_command. by rewrite Hl, Hr. Qed.

Context `{!SerdeJsonLaws}.

(** C26: a job is ended by its handle from another invocation: when the queue's
    file holds a store that tracks the oracle, with the job in the hands of a
    claim, and the text given reads as the handle that was printed for that
    claim, [ack] and [bury] succeed exactly as the oracle does, say so, and
    leave a file that the next invocation loads as the store they ended in,
    which tracks the oracle's next state. *)
Theorem job_is_ended_by_handle (w : World Machine) s o G c p job text e
  (Hload : load (w_store w) queue = Ok s)
  (Hroom : world_ok 128 (holding s w))
  (Hinit : initialized (view s))
  (Hf : follows q (view s) o G)
  (Hi : in_hand q (view s) o c) (Htoken : is_id (cl_worker_token c))
  (Hjob : job_at q (cl_shard c) (cl_job_id c) job (view s)) (Hpay : payload_there q (view s) job)
  (Href : cl_payload c = payload_of q job)
  (Htext : handle_from_json text = Some (from_claim c p))
  (He : ending_ok e)
  (Hfile : path_for (w_store w) queue ∉ mc_denied (w_store w))
  (Htyped : store_typed (w_store (ending_world c e (holding s w)))) :
  exists w', run_command hash_order (ending_command text e) w = (Ok tt, [ending_word e], w') /\
    exists s', load (w_store w') queue = Ok s' /\
      (oracle_end o (cl_job_id c) e).1 = true /\ follows q (view s') (oracle_end o (cl_job_id c) e).2 (G + 1).
Proof.
  destruct (ending_acts c o G e (holding s w) Hroom Hf Hi (payload_ready_of c job _ Hpay Href) He) as ((h & Hrun) & Hok & Hfo).
  set (w1 := ending_world c e (holding s w)) in *.
  destruct (save_load (w_store w) queue (w_store w1) Htyped Hfile) as (data & Hsave & Hback).
  assert (is_id (cl_job_id c)) as Hj by apply Hi.
  assert (exists h', run (run_body hash_order (w_store w) (S (size (objects s))) (ending_command text e) (fresh_handle 0))
    (holding s w) = ((Ok (Ok [Print (ending_word e); Persist]), h'), w1)) as (h' & Hbody).
  { exists h. destruct e as [|reason]; cbn [ending_command run_body];
      [unfold run_ack|unfold run_bury]; rewrite (run_with_handle text c p job) by done;
      rewrite run_cli_bind, run_queue_op; change (budget 128 (fresh_handle 0)) with (fresh_handle 128);
      rewrite Hrun; reflexivity. }
  assert (queue_of (ending_command text e) = queue) as Eq by (by destruct e).
  eexists. split.
  - rewrite (run_command_done _ w s _ _ _ ltac:(by rewrite Eq) Hbody), Eq. cbn [perform_steps]. rewrite Hsave. reflexivity.
  - exists (w_store w1). split; [|by split]. cbn [holding w_store]. apply Hback; cbn; [done|apply lookup_insert_eq|done].
Qed.

(* ---------------------------------------------------------------- *)
(** ** Commands as transactions *)

Lemma save_inv mc s mc' : save mc queue s = Ok mc' ->
  (path_for mc queue ∉ mc_denied mc) /\ mc_denied mc' = mc_denied mc /\ mc_temp_dir mc' = mc_temp_dir mc /\
  exists text, mc_files mc' = <[path_for mc queue := text]> (mc_files mc).
Proof.
  unfold save. destruct (snapshot_raw s) as [[objs nv] clk]. destruct (snapshot_to_json _) as [text|]; [|done].
  cbn [ok_or mbind result_bind]. unfold fs_write. case_decide as Hd; [done|]. intros [= <-]. split_and!; try done. by exists text.
Qed.
End Acts.

Section Transactions.
Context `{Sha256} `{SerdeJsonLaws} (hash_order : list bytes -> list bytes).

End Transactions.

(* ------------------------------------------------------------------ *)
(** * Inspecting a job *)

Section Inspect.
Context `{Sha256}.

Lemma run_list {A} (w : World MemoryStore) p a n (f : StoreResult Page -> M A) h :
  run ((do_list p a n ≫= f) h) w = run (f (list_page (w_store w) p a n) h) w.
Proof. by destruct w. Qed.

Lemma run_head {A} (w : World MemoryStore) k (f : StoreResult Meta -> M A) h :
  run ((do_head k ≫= f) h) w = run (f (head (w_store w) k) h) w.
Proof. by destruct w. Qed.

Lemma run_inspect_heads keys h (w : World MemoryStore) :
  run (inspect_heads keys h) w =
  ((Ok (map (fun k => k ++ (if bool_decide (is_Some (objects (w_store w) !! k)) then ¶": present" else ¶": absent")) keys), h), w).
Proof.
  induction keys as [|k keys IH]; [done|]. cbn [inspect_heads]. rewrite run_head. unfold head.
  assert (run ((mret (k ++ (if bool_decide (is_Some (objects (w_store w) !! k)) then ¶": present" else ¶": absent"))
    ≫= (fun line => rest ← inspect_heads keys; mret (line :: rest))) h) w =
    ((Ok (map (fun k => k ++ (if bool_decide (is_Some (objects (w_store w) !! k)) then ¶": present" else ¶": absent")) (k :: keys)), h), w)) as Hgo.
  { rewrite run_m_bind. cbn [run mret m_ret mret_]. by rewrite run_m_bind, IH. }
  destruct (objects (w_store w) !! k); exact Hgo.
Qed.

Lemma run_inspect_claims fuel prefix after items h (w : World MemoryStore) :
  page_through fuel (w_store w) prefix after 64 = Some items ->
  run (inspect_claims fuel prefix after h) w = ((Ok (map claim_line items), h), w).
Proof.
  revert after items. induction fuel as [|fuel IH]; intros after items; [done|]. cbn [page_through inspect_claims].
  rewrite run_list. destruct (list_page_contract (w_store w) prefix after 64) as (pg & E & _ & _ & _ & _ & Hnext).
  rewrite E, run_m_bind. cbn [run store_ok mret_].
  destruct (p_items pg) as [|i its] eqn:Ei.
  - destruct (p_next_after pg) as [a|]; [by specialize (Hnext a eq_refl)|]. by intros [= <-].
  - destruct (p_next_after pg) as [a|]; [|by intros [= <-]].
    destruct (page_through fuel (w_store w) prefix (Some a) 64) as [rest|] eqn:Er; [|done]. intros [= <-].
    rewrite run_m_bind, (IH _ _ Er). cbn. by rewrite map_app.
Qed.

Lemma selection_size m prefix after : (length (selection m prefix after) <= size m)%nat.
Proof.
  unfold selection. etransitivity; [apply List.filter_length_le|].
  etransitivity; [apply length_filter|]. by rewrite entries_perm, length_map_to_list.
Qed.

(** [inspect] returns: for a queue of any lawful shard count it says which of
    the job's record, receipt and dead record exist, then prints every claim
    of the job once, in the order of the generations. *)
Theorem inspect_prints (queue j : bytes) (count : Z) shard h (w : World MemoryStore)
  (Hs : compute_shard QUEUE_ID_FOR_TOOLING j count = Some shard) :
  let at_plane plane := queue ++ [slash] ++ plane ++ [slash] ++ hex16 shard ++ [slash] ++ push_hex j in
  exists items, run (inspect (S (size (objects (w_store w)))) queue j count h) w =
    ((Ok (join_with Init.Byte.x0a
       (map (fun k => k ++ (if bool_decide (is_Some (objects (w_store w) !! k)) then ¶": present" else ¶": absent"))
          [at_plane ¶"jobs"; at_plane ¶"receipts"; at_plane ¶"dead"] ++ map claim_line items)), h), w) /\
    StronglySorted bytes_lt (map l_key items) /\
    forall k m, (exists i, i ∈ items /\ l_key i = k /\ l_meta i = m) <->
      exists x, objects (w_store w) !! k = Some x /\ meta_of_stored x = m /\
        in_listing (at_plane ¶"claims" ++ [slash]) None k.
Proof.
  cbv zeta.
  destruct (pagination_aux (w_store w) ((queue ++ [slash] ++ ¶"claims" ++ [slash] ++ hex16 shard ++ [slash] ++ push_hex j) ++ [slash])
    None 64 (S (size (objects (w_store w)))) ltac:(lia)) as (items & Hpages & Hsorted & Hall).
  { apply Nat.lt_succ_r. apply selection_size. }
  exists items. split; [|by split]. unfold inspect. rewrite Hs, run_m_bind. cbn [run unwrap mret_]. cbv zeta.
  rewrite run_m_bind, run_inspect_heads, run_m_bind, (run_inspect_claims _ _ _ _ _ _ Hpages). done.
Qed.
End Inspect.

(* ------------------------------------------------------------------ *)
(** * A session *)

(** A concrete writer and reader that keeps the promises of JSON: the fields in
    hexadecimal, each with a dot after it. *)
Fixpoint write_fields_hex (fields : list bytes) : bytes :=
  match fields with [] => [] | f :: fields => push_hex f ++ dot :: write_fields_hex fields end.
Fixpoint read_parts (parts : list bytes) : option (list bytes) :=
  match parts with
  | [] | [_] => Some []
  | p :: parts => f ← hex_decode_pairs p; fields ← read_parts parts; Some (f :: fields)
  end.
Definition read_fields_hex (text : bytes) : option (list bytes) := read_parts (split_on dot text).

Lemma read_written_fields fields : read_fields_hex (write_fields_hex fields) = Some fields.
Proof.
  unfold read_fields_hex. induction fields as [|f fields IH]; [done|]. cbn [write_fields_hex].
  rewrite split_on_app by apply push_hex_no_dot. pose proof (split_on_nonempty dot (write_fields_hex fields)).
  cbn [read_parts]. destruct (split_on dot (write_fields_hex fields)) as [|p ps]; [done|].
  rewrite hex_decode_pairs_push. cbn [mbind option_bind]. by rewrite IH.
Qed.

Lemma written_fields_text fields : is_str (write_fields_hex fields).
Proof.
  apply utf8_ascii. induction fields as [|f fields IH]; [constructor|]. cbn [write_fields_hex].
  apply Forall_app_2; [apply push_hex_low|]. constructor; [by vm_compute|exact IH].
Qed.

Definition number (v : Z) : bytes := be_bytes 8 v.
#[local] Arguments number : simpl never.
#[local] Arguments be_val : simpl never.
Lemma be_val_number v : is_u64 v -> be_val (number v) = v.
Proof. intros Hv. apply be_val_bytes_small. unfold is_u64 in Hv. cbn. lia. Qed.
Fixpoint entry_fields (es : list (bytes * bytes * Z * Z)) : list bytes :=
  match es with [] => [] | (k, b, v, t) :: es => k :: b :: number v :: number t :: entry_fields es end.
Fixpoint read_entries (fields : list bytes) : option (list (bytes * bytes * Z * Z)) :=
  match fields with
  | [] => Some []
  | k :: b :: v :: t :: fields => es ← read_entries fields; Some ((k, b, be_val v, be_val t) :: es)
  | _ => None
  end.
Lemma read_entry_fields es : Forall entry_typed es -> read_entries (entry_fields es) = Some es.
Proof.
  induction 1 as [|[[[k b] v] t] es (_ & _ & Hv & Ht) _ IH]; [done|]. cbn. rewrite IH. cbn. by rewrite !be_val_number.
Qed.

Definition hex_json : SerdeJson := {|
  snapshot_to_json s := Some (write_fields_hex (number (sn_next_version s) :: number (sn_clock s) :: entry_fields (sn_objects s)));
  snapshot_from_json text :=
    fields ← read_fields_hex text;
    match fields with
    | nv :: clk :: fields =>
        es ← read_entries fields; Some {| sn_objects := es; sn_next_version := be_val nv; sn_clock := be_val clk |}
    | _ => None
    end;
  handle_to_json h := Some (write_fields_hex
    [hd_job_id h; number (hd_shard h); number (hd_generation h); number (hd_attempt h); hd_worker_token h;
     number (hd_lease_duration_ns h); number (hd_claim_store_time_ns h); hd_payload h]);
  handle_from_json text :=
    fields ← read_fields_hex text;
    match fields with
    | [j; sh; g; a; tk; d; t; p] =>
        Some {| hd_job_id := j; hd_shard := be_val sh; hd_generation := be_val g; hd_attempt := be_val a;
                hd_worker_token := tk; hd_lease_duration_ns := be_val d; hd_claim_store_time_ns := be_val t;
                hd_payload := p |}
    | _ => None
    end
|}.

Lemma hex_json_laws : @SerdeJsonLaws hex_json.
Proof.
  split.
  - intros [es nv clk] (He & Hn & Hc). eexists. split; [reflexivity|]. split; [apply written_fields_text|].
    cbn -[write_fields_hex read_fields_hex]. rewrite read_written_fields. cbn. rewrite read_entry_fields by done. cbn.
    by rewrite !be_val_number.
  - intros h (_ & Hs & Hg & Ha & _ & Hd & Ht & _). eexists. split; [reflexivity|]. split; [apply written_fields_text|].
    cbn -[write_fields_hex read_fields_hex]. rewrite read_written_fields. cbn.
    assert (is_u64 (hd_shard h)) by (unfold is_u16, is_u64 in *; lia). rewrite !be_val_number by done. by destruct h.
Qed.

Section Session.
#[local] Existing Instance toy_digest.
#[local] Existing Instance memory_store.
#[local] Existing Instance hex_json.
#[local] Existing Instance hex_json_laws.

Definition cli (c : Command) (w : World Machine) : Result CliError unit * list bytes * World Machine := run_command id c w.
Definition machine0 : World Machine :=
  holding {| mc_files := <[¶"job.txt" := ¶"hello"]> ∅; mc_denied := ∅; mc_stdin := []; mc_temp_dir := ¶"/tmp" |} sample_world.

(** A job put into a queue of this name, and the handle of its claim. *)
Definition put_into (queue : bytes) : World Machine :=
  (cli (CmdPut queue ¶"job.txt" ¶"text/plain" 3 (Some (push_hex vector_job_id))) (cli (CmdInit queue 1) machine0).2).2.
Definition claimed_from (queue : bytes) := cli (CmdClaim queue 60000000000) (put_into queue).
Definition printed (r : Result CliError unit * list bytes * World Machine) : bytes := default [] (List.hd_error r.1.2).

(** A job's life over several invocations, the handle being the printed text;
    what comes after the receipt is refused or reports it, and the file stays. *)
Definition session_text : bytes := printed (claimed_from ¶"q").
Definition acked_machine : World Machine := (cli (CmdAck ¶"q" session_text) (claimed_from ¶"q").2).2.
Example session_ends :
  (cli (CmdAck ¶"q" session_text) (claimed_from ¶"q").2).1 = (Ok tt, [¶"acked"]) /\
  (cli (CmdAck ¶"q" session_text) acked_machine).1 = (Ok tt, [¶"already-acked"]) /\
  (cli (CmdBury ¶"q" session_text 3) acked_machine).1 = (Err SupersededByReceiptRecord, []) /\
  (cli (CmdClaim ¶"q" 60000000000) acked_machine).1 = (Ok tt, [¶"empty"]).
Proof. split_and!; vm_compute; reflexivity. Qed.

(** A name with a slash at its end: the queue works, but no handle does. *)
Example slash_session_fails :
  (claimed_from ¶"q/").1.1 = Ok tt /\
  (cli (CmdAck ¶"q/" (printed (claimed_from ¶"q/"))) (claimed_from ¶"q/").2).1 =
    (Err (QueueFails (RecordE (Msg "job record not found for handle"))), []).
Proof. split; vm_compute; reflexivity. Qed.

(** ** The witnesses *)

Definition driven : DriveState MemoryStore :=
  match drive_ops id driver_queue default_config [DEnqueue 0; DClaim] (driver_start default_config sample_world) with
  | Ok d => d | Err _ => driver_start default_config sample_world end.
Definition no_claim : Claim :=
  {| cl_job_id := []; cl_shard := 0; cl_generation := 0; cl_attempt := 0; cl_worker_token := [];
     cl_lease_duration_ns := 0; cl_claim_store_time_ns := 0; cl_payload := Inline [] |}.
Definition driven_claim : Claim := default no_claim (held_at driven 0).
Definition driven_store : MemoryStore := w_store (ds_world driven).
Definition driven_machine : Machine :=
  match save (w_store machine0) ¶"q" driven_store with Ok mc => mc | Err _ => w_store machine0 end.
Definition driven_world : World Machine := holding driven_machine (ds_world driven).
Definition driven_text : bytes := default [] (handle_to_json (from_claim driven_claim [])).

Lemma driven_agrees : agrees driver_queue default_config driven 2.
Proof.
  destruct (start_agrees default_config sample_world sample_world_fresh) as [Ha _].
  assert (serves driver_queue default_config [DEnqueue 0; DClaim] (driver_start default_config sample_world) 0) as Hs
    by (apply serves_decided; vm_compute; reflexivity).
  destruct (ops_agree driver_queue default_config eq_refl eq_refl ltac:(repeat constructor) eq_refl ltac:(cbn; lia)
    ltac:(by split; vm_compute) ltac:(by split; vm_compute) _ _ _ Ha Hs) as (d & E & Hd).
  unfold driven. rewrite E. exact Hd.
Qed.

Lemma holding_back {S S'} (w : World S) (mc : S') : holding (w_store w) (holding mc w) = w.
Proof. by destruct w. Qed.

Lemma driven_initialized : initialized ¶"q" driver_format (view driven_store).
Proof. eexists. split; [vm_compute; reflexivity|]. split; vm_compute; reflexivity. Qed.

Lemma driven_job : exists job,
  job_at (cli_handle ¶"q" driver_format) (cl_shard driven_claim) (cl_job_id driven_claim) job (view driven_store) /\
  j_payload_inline job <> None /\ cl_payload driven_claim = payload_of (cli_handle ¶"q" driver_format) job.
Proof.
  eexists. split; [|split].
  - eexists _, _. split; [vm_compute; reflexivity|]. split; [vm_compute; reflexivity|reflexivity].
  - vm_compute. discriminate.
  - vm_compute. reflexivity.
Qed.

Lemma driven_hand : in_hand (cli_handle ¶"q" driver_format) (view driven_store) (ds_oracle driven) driven_claim.
Proof.
  destruct (ag_slots _ _ _ _ driven_agrees 0%nat) as (h & k & Eh & _ & Hs & _); [vm_compute; lia|].
  assert (ds_held driven !! 0%nat = Some (Some driven_claim)) as Ec by (vm_compute; reflexivity).
  rewrite Ec in Eh. injection Eh as <-. exact (proj1 (proj2 Hs)).
Qed.

Lemma driven_loads : load (w_store driven_world) ¶"q" = Ok driven_store.
Proof. vm_cast_no_check (eq_refl (Ok driven_store : Result CliError MemoryStore)). Qed.

Lemma job_is_ended_by_handle_witness :
  load (w_store driven_world) ¶"q" = Ok driven_store /\
  exists w', run_command id (CmdAck ¶"q" driven_text) driven_world = (Ok tt, [¶"acked"], w') /\
    exists s', load (w_store w') ¶"q" = Ok s' /\
      follows (cli_handle ¶"q" driver_format) (view s') (oracle_end (ds_oracle driven) (cl_job_id driven_claim) EndAck).2 (2 + 1).
Proof.
  pose proof driven_loads as Hload. split; [exact Hload|].
  assert (plain_name ¶"q") as Hplain by (vm_compute; discriminate).
  assert (world_ok 128 (holding driven_store driven_world)) as Hroom.
  { unfold driven_store, driven_world. rewrite holding_back.
    eapply (world_ok_le 128); [exact (ag_room _ _ _ _ driven_agrees)|]. apply Nat.leb_le. vm_compute. reflexivity. }
  destruct driven_job as (job & Hjob & Hpay & Href).
  assert (store_typed (w_store (ending_world ¶"q" driver_format driven_claim EndAck (holding driven_store driven_world)))) as Htyped.
  { split; [apply (bool_decide_eq_true_1 _); vm_compute; reflexivity|].
    split; [split; vm_compute; discriminate|]. split; [split; vm_compute; discriminate|vm_compute; reflexivity]. }
  destruct (job_is_ended_by_handle id ¶"q" driver_format Hplain driven_world driven_store (ds_oracle driven) 2 driven_claim []
    job driven_text EndAck Hload Hroom driven_initialized (ag_follows _ _ _ _ driven_agrees) driven_hand
    ltac:(vm_compute; reflexivity) Hjob (or_introl Hpay) Href ltac:(vm_compute; reflexivity) I
    ltac:(apply (bool_decide_eq_true_1 _); vm_compute; reflexivity) Htyped) as (w' & Hrun & s' & Hs & _ & Hf).
  exists w'. split; [exact Hrun|]. exists s'. split; [exact Hs|exact Hf].
Defined.


End Session.
