(* ===== verification/Bench.v ===== *)
(** [stowq-bench/src/main.rs]: the instrumented stores and what is measured
    with them: the counting store, the flaky store of the soak, the [ops]
    mode, the cycles and the soak's executor and verdict.

    Clock readings, allocations, percentiles over them and the scheduling of
    the soak's tasks are not modelled. *)

From S2P Require Import Prelude Sha256 StowqMath Keys Text Records Store Memory Effects Queue Claims Sweeps Repair Budget Samples Driver Worker.

(* ------------------------------------------------------------------ *)
(** * Counting *)

(** [u64] counters; [fetch_add] wraps. *)
Record OpCounts := {
  oc_put_if_absent : Z;
  oc_cas : Z;
  oc_get : Z;
  oc_head : Z;
  oc_list : Z;
  oc_delete : Z
}.

Definition no_counts : OpCounts :=
  {| oc_put_if_absent := 0; oc_cas := 0; oc_get := 0; oc_head := 0; oc_list := 0; oc_delete := 0 |}.

(** Field by field. *)
Definition zip_counts (f : Z -> Z -> Z) (a b : OpCounts) : OpCounts :=
  {| oc_put_if_absent := f (oc_put_if_absent a) (oc_put_if_absent b); oc_cas := f (oc_cas a) (oc_cas b);
     oc_get := f (oc_get a) (oc_get b); oc_head := f (oc_head a) (oc_head b);
     oc_list := f (oc_list a) (oc_list b); oc_delete := f (oc_delete a) (oc_delete b) |}.

(** [OpCounts::total] and [OpDiff::total]. *)
Definition total (c : OpCounts) : Z :=
  wrapping_add (wrapping_add (wrapping_add (wrapping_add (wrapping_add
    (oc_put_if_absent c) (oc_cas c)) (oc_get c)) (oc_head c)) (oc_list c)) (oc_delete c).

(** [OpDiff::delta], of two snapshots. *)
Definition delta (before after : OpCounts) : OpCounts := zip_counts (fun b a => (a - b) mod 2 ^ 64) before after.

Definition line (d : OpCounts) : bytes :=
  let n v := u64_to_string v in
  n (total d) ++ ¶" total (put " ++ n (oc_put_if_absent d) ++ ¶" / cas " ++ n (oc_cas d) ++ ¶" / get " ++ n (oc_get d) ++
  ¶" / head " ++ n (oc_head d) ++ ¶" / list " ++ n (oc_list d) ++ ¶" / delete " ++ n (oc_delete d) ++ ¶")".

(** What one call adds. *)
Definition tally (c : call) : OpCounts :=
  match c with
  | CPut _ _ _ => {| oc_put_if_absent := 1; oc_cas := 0; oc_get := 0; oc_head := 0; oc_list := 0; oc_delete := 0 |}
  | CCas _ _ _ _ => {| oc_put_if_absent := 0; oc_cas := 1; oc_get := 0; oc_head := 0; oc_list := 0; oc_delete := 0 |}
  | CGet _ _ => {| oc_put_if_absent := 0; oc_cas := 0; oc_get := 1; oc_head := 0; oc_list := 0; oc_delete := 0 |}
  | CHead _ => {| oc_put_if_absent := 0; oc_cas := 0; oc_get := 0; oc_head := 1; oc_list := 0; oc_delete := 0 |}
  | CList _ _ _ => {| oc_put_if_absent := 0; oc_cas := 0; oc_get := 0; oc_head := 0; oc_list := 1; oc_delete := 0 |}
  | CDelete _ => {| oc_put_if_absent := 0; oc_cas := 0; oc_get := 0; oc_head := 0; oc_list := 0; oc_delete := 1 |}
  end.

(** [CountingStore]: the count goes up before the inner store is called. *)
Record CountingStore (S : Type) := { cs_inner : S; cs_counts : OpCounts }.
Arguments cs_inner {S} _. Arguments cs_counts {S} _.

#[export] Instance counting_store {S} `{ObjectStore S} : ObjectStore (CountingStore S) := fun c s =>
  let counts := zip_counts wrapping_add (cs_counts s) (tally c) in
  let '(a, inner) := store_step c (cs_inner s) in
  (a, {| cs_inner := inner; cs_counts := counts |}).

Definition counting_new {S} (inner : S) : CountingStore S := {| cs_inner := inner; cs_counts := no_counts |}.

(* ------------------------------------------------------------------ *)
(** * Flaky transport *)

(** The generator's state and the faults drawn so far (pre, post). *)
Record FlakyStore (S : Type) := {
  fk_inner : S;
  fk_state : Z;
  fk_pre : Z;
  fk_post : Z;
  fk_p_pre : Z;
  fk_p_post : Z
}.
Arguments fk_inner {S} _. Arguments fk_state {S} _. Arguments fk_pre {S} _. Arguments fk_post {S} _.
Arguments fk_p_pre {S} _. Arguments fk_p_post {S} _.

Definition flaky_new {S} (inner : S) (seed fault_percent : Z) : FlakyStore S :=
  let pm := wrapping_mul fault_percent 10000 in
  {| fk_inner := inner; fk_state := seed; fk_pre := 0; fk_post := 0;
     fk_p_pre := wrapping_mul pm 6 / 10; fk_p_post := wrapping_mul pm 4 / 10 |}.

(** One draw: whether the call faults before or after it is served. *)
Definition draw {S} (s : FlakyStore S) : (bool * bool) * FlakyStore S :=
  let st := wrapping_add (fk_state s) GOLDEN in
  let z := wrapping_mul (Z.lxor st (Z.shiftr st 30)) 0xbf58476d1ce4e5b9 in
  let z := wrapping_mul (Z.lxor z (Z.shiftr z 27)) 0x94d049bb133111eb in
  let z := Z.lxor z (Z.shiftr z 31) in
  let v := z mod 1000000 in
  let pre := v <? fk_p_pre s in
  let post := negb pre && (v <? fk_p_pre s + fk_p_post s) in
  ((pre, post),
   {| fk_inner := fk_inner s; fk_state := st;
      fk_pre := if pre then wrapping_add (fk_pre s) 1 else fk_pre s;
      fk_post := if post then wrapping_add (fk_post s) 1 else fk_post s;
      fk_p_pre := fk_p_pre s; fk_p_post := fk_p_post s |}).

Definition with_inner {S} (s : FlakyStore S) (inner : S) : FlakyStore S :=
  {| fk_inner := inner; fk_state := fk_state s; fk_pre := fk_pre s; fk_post := fk_post s;
     fk_p_pre := fk_p_pre s; fk_p_post := fk_p_post s |}.

(** [r.map(|_| PutOutcome::Rejected)]. *)
Definition hide (r : StoreResult PutOutcome) : StoreResult PutOutcome :=
  match r with Ok _ => Ok Rejected | Err e => Err e end.

(** After the draw: a fault before transmission reaches nobody; a fault after
    it hides a write's outcome, and loses a read without making it. *)
Definition faulty {S} `{ObjectStore S} (c : call) (post : bool) (s : S) : answer c * S :=
  match c return answer c * S with
  | CPut k b d => let '(r, s) := store_step (CPut k b d) s in (if post then hide r else r, s)
  | CCas k b d v => let '(r, s) := store_step (CCas k b d v) s in (if post then hide r else r, s)
  | CGet k r => if post then (Err (OutcomeUnknown ConnectionLost), s) else store_step (CGet k r) s
  | CHead k => if post then (Err (OutcomeUnknown ConnectionLost), s) else store_step (CHead k) s
  | CList p a n => if post then (Err (OutcomeUnknown ConnectionLost), s) else store_step (CList p a n) s
  | CDelete k => store_step (CDelete k) s
  end.
#[export] Instance flaky_store {S} `{ObjectStore S} : ObjectStore (FlakyStore S) := fun c s =>
  let '((pre, post), s) := draw s in
  if pre then (fail_with c (Transport PreTransmit), s)
  else let '(a, inner) := faulty c post (fk_inner s) in (a, with_inner s inner).

(* ------------------------------------------------------------------ *)
(** * The [ops] mode *)

(** [STOWQ_BENCH_SHARDS], when it is set and a [u32]. *)
Definition bench_format (shards : option bytes) : FormatRecord :=
  {| shard_count := default 16 (shards ≫= parse_unsigned u32_max);
     lease_bucket_width_ns := 1000000000; delayed_bucket_width_ns := 1000000000;
     terminal_bucket_width_ns := 1000000000; inline_limit := 65536; required_feature_bits := 0 |}.

Definition bench_opts (worker : bytes) : option OpenOptions :=
  (fun o => {| o_queue_id := o_queue_id o; o_worker_id := worker; o_retry := o_retry o;
               o_skew_guard_ns := o_skew_guard_ns o; o_max_inline_payload := o_max_inline_payload o |}) <$>
  open_options_new (replicate 16 (byte_of 1)).

(** How a mode fails: an operation's error, a message, or a panic. *)
Inductive BenchError :=
| OpFails (e : Error)
| Says (what : string)
| BenchPanics.

(** The store under measurement, the queue's handle with the budget, the last
    snapshot and the lines printed. *)
Record BenchState := {
  b_world : World (CountingStore MemoryStore);
  b_handle : HState;
  b_before : OpCounts;
  b_lines : list bytes
}.

Definition B (A : Type) : Type := BenchState -> Result BenchError A * BenchState.
#[export] Instance b_ret : MRet B := fun A a b => (Ok a, b).
#[export] Instance b_bind : MBind B := fun A C f x b =>
  let '(r, b) := x b in match r with Ok a => f a b | Err e => (Err e, b) end.

Definition pad_right (n : nat) (s : bytes) : bytes := s ++ replicate (n - length s) Init.Byte.x20.

Section Modes.
Context `{Sha256} (hash_order : list bytes -> list bytes).

(** An operation outside of any phase. *)
Definition op {A} (x : M A) : B A := fun b =>
  let '((r, h), w) := run (x (b_handle b)) (b_world b) in
  (match r with Ok a => Ok a | Err (Fails e) => Err (OpFails e) | Err _ => Err BenchPanics end,
   {| b_world := w; b_handle := h; b_before := b_before b; b_lines := b_lines b |}).

Definition lift {A} (r : Result BenchError A) : B A := fun b => (r, b).
Definition need {A} (r : Result string A) : B A := lift (map_err Says r).

(** [phase!]: the body, then the line of what it counted; a panic prints
    nothing. *)
Definition phase {A} (name : bytes) (body : B A) : B A := fun b =>
  let '(r, b) := body b in
  match r with
  | Err BenchPanics => (r, b)
  | _ =>
      let after := cs_counts (w_store (b_world b)) in
      (r, {| b_world := b_world b; b_handle := b_handle b; b_before := after;
             b_lines := b_lines b ++ [pad_right 26 name ++ [Init.Byte.x20] ++ line (delta (b_before b) after)] |})
  end.

Definition bench_enqueue (q : Queue) (id payload : bytes) (rejected : string) : B unit :=
  r ← op (enqueue q {| ei_job_id := Some id; ei_payload := payload; ei_content_type := ¶"text/plain";
                       ei_maximum_attempts := 5; ei_not_before_ns := None |});
  match r with EnqCommitted _ => mret () | IdTaken _ => need (Err rejected) end.

Definition bench_claim (q : Queue) (floor : Z) (empty : string) : B Claim :=
  r ← op (claim q {| co_shard := 0; co_floor_ns := floor; co_lease_duration_ns := 60000000000 |});
  match r with Claimed c => mret c | Empty => need (Err empty) end.

(** [mem.advance_clock_to], the rebinding to a fresh counting store and the
    second handle. *)
Definition rebind (worker : bytes) (to : Z) : B Queue := fun b =>
  let w := b_world b in
  let s := counting_new (advance_clock_to (cs_inner (w_store w)) to) in
  let b := {| b_world := {| w_store := s; w_tokens := w_tokens w; w_clock := w_clock w;
                            w_next_token := w_next_token w; w_next_reading := w_next_reading w |};
              b_handle := fresh_handle (max_ops (b_handle b)); b_before := b_before b; b_lines := b_lines b |} in
  let '(r, b) := op (mbind_ (unwrap (bench_opts worker)) (fun o => open ¶"q" o)) b in
  (r, {| b_world := b_world b; b_handle := b_handle b; b_before := cs_counts (w_store (b_world b));
         b_lines := b_lines b |}).

Definition snapshot : B unit := fun b =>
  (Ok tt, {| b_world := b_world b; b_handle := b_handle b; b_before := cs_counts (w_store (b_world b));
             b_lines := b_lines b |}).

Definition ops_mode (shards : option bytes) : B unit :=
  q ← op (mbind_ (unwrap (bench_opts ¶"ops")) (fun o => init ¶"q" o (bench_format shards)));
  _ ← snapshot;
  _ ← phase ¶"enqueue (inline)" (bench_enqueue q (replicate 16 (byte_of 7)) ¶"bench-payload" "enqueue rejected");
  floor ← phase ¶"establish_floor (fresh)" (op (establish_floor q));
  _ ← phase ¶"establish_floor (cached)" (op (establish_floor q));
  c ← phase ¶"claim" (bench_claim q floor "empty");
  c ← phase ¶"renew" (r ← op (renew q c);
                      match r with Renewed c => mret c | LeaseLost => need (Err "lease lost"%string) end);
  out ← phase ¶"commit_output" (r ← op (commit_output q c ¶"r" ¶"out");
                               match r with
                               | OutCommitted o => mret o
                               | Converged _ => need (Err "unexpected convergence"%string)
                               end);
  _ ← phase ¶"ack_with_outputs" (r ← op (ack_with_outputs q c [out]);
                                match r with
                                | Acked => mret ()
                                | AlreadyAcked => need (Err "AlreadyAcked"%string)
                                | SupersededByDead => need (Err "SupersededByDead"%string)
                                end);
  _ ← phase ¶"enqueue #2" (bench_enqueue q (replicate 16 (byte_of 8)) ¶"bench-payload-2" "enqueue #2 rejected");
  c2 ← phase ¶"claim #2" (bench_claim q floor "empty");
  _ ← phase ¶"nack" (op (nack q c2 1 floor));
  q ← rebind ¶"ops2" (u64_max / 4);
  floor ← phase ¶"establish_floor (post-backoff)" (op (establish_floor q));
  c2 ← phase ¶"claim #2 (after nack)" (bench_claim q floor "empty after nack");
  _ ← phase ¶"bury" (r ← op (bury q c2 3);
                    match r with
                    | Buried => mret ()
                    | SupersededByReceipt => need (Err "SupersededByReceipt"%string)
                    end);
  _ ← phase ¶"sweep_expired_leases" (op (sweep_expired_leases q floor));
  _ ← phase ¶"sweep_delayed" (op (sweep_delayed q floor));
  _ ← phase ¶"repair_scan (2 jobs)" (op (repair_scan q hash_order 0));
  _ ← phase ¶"gc" (op (gc q floor 0 0));
  mret ().

(** [OpBudget::new(64_000)] over [MemoryStore::new()]. *)
Definition bench_start (tokens : nat -> bytes) (clock : nat -> Z) (budget : nat) : BenchState :=
  {| b_world := {| w_store := counting_new {| objects := ∅; version_counter := 1; clock := 1; tick_step_ns := 1 |};
                   w_tokens := tokens; w_clock := clock; w_next_token := 0; w_next_reading := 0 |};
     b_handle := fresh_handle budget; b_before := no_counts; b_lines := [] |}.
End Modes.

(* ------------------------------------------------------------------ *)
(** * Cycles *)

Section Cycles.
Context `{Sha256}.

(** [stowq_keys::compute_shard] on the bench's queue id; a count that is no
    power of two panics. *)
Definition bench_shard (id : bytes) (count : Z) : B Z :=
  lift (ok_or (compute_shard (replicate 16 (byte_of 1)) id count) BenchPanics).

Definition bench_input (id : bytes) : EnqueueInput :=
  {| ei_job_id := Some id; ei_payload := ¶"bench-payload"; ei_content_type := ¶"text/plain";
     ei_maximum_attempts := 5; ei_not_before_ns := None |}.

Definition one_cycle (q : Queue) (floor : Z) (i : nat) : B unit :=
  let id := be_bytes 16 (Z.of_nat i) in
  r ← op (enqueue q (bench_input id));
  match r with
  | IdTaken _ => need (Err "enqueue rejected"%string)
  | EnqCommitted _ =>
      shard ← bench_shard id (shard_count (q_format q));
      r ← op (claim q {| co_shard := shard; co_floor_ns := floor; co_lease_duration_ns := 60000000000 |});
      match r with
      | Empty => mret ()
      | Claimed c => _ ← op (ack q c); mret ()
      end
  end.

(** The first [n] ids at or above [cand] that fall into shard 0; [fuel]
    candidates are tried. *)
Fixpoint batch_ids (fuel : nat) (count cand : Z) (n : nat) : option (list bytes) :=
  match n with
  | O => Some []
  | S n' =>
      match fuel with
      | O => None
      | S fuel =>
          let id := be_bytes 16 cand in
          match compute_shard (replicate 16 (byte_of 1)) id count with
          | Some 0 => ids ← batch_ids fuel count (cand + 1) n'; Some (id :: ids)
          | Some _ => batch_ids fuel count (cand + 1) n
          | None => None
          end
      end
  end.

Fixpoint enqueue_all (q : Queue) (ids : list bytes) : B unit :=
  match ids with
  | [] => mret ()
  | id :: ids =>
      r ← op (enqueue q (bench_input id));
      match r with IdTaken _ => need (Err "enqueue rejected"%string) | EnqCommitted _ => enqueue_all q ids end
  end.

(** [join_all]: every ack runs, each on a budget of its own. *)
Fixpoint ack_all (q : Queue) (claims : list Claim) : B (list (Result Error unit)) :=
  match claims with
  | [] => mret []
  | c :: claims =>
      r ← op (st ← get_state; _ ← set_budget 1024; r ← try_ (ack q c); _ ← set_budget (max_ops st); mret r : M _);
      rs ← ack_all q claims; mret ((_ ← r; Ok ()) :: rs)
  end.

Fixpoint first_failure (rs : list (Result Error unit)) : option Error :=
  match rs with [] => None | Err e :: _ => Some e | Ok _ :: rs => first_failure rs end.

Definition batch_cycle (fuel : nat) (q : Queue) (n i : nat) : B nat :=
  ids ← lift (ok_or (batch_ids fuel (Z.max (shard_count (q_format q)) 1) (Z.of_nat i * 1024) n) BenchPanics);
  _ ← enqueue_all q ids;
  floor ← op (establish_floor q);
  claims ← op (claim_many q {| co_shard := 0; co_floor_ns := floor; co_lease_duration_ns := 60000000000 |} n);
  results ← ack_all q claims;
  match first_failure results with
  | Some e => lift (Err (OpFails e))
  | None => mret (length claims)
  end.
End Cycles.

(** [v.sort_unstable(); v[v.len() / 2]]: none of an empty list. *)
Definition median (v : list Z) : option Z := merge_sort Z.le v !! (length v / 2)%nat.

(* ------------------------------------------------------------------ *)
(** * The soak *)

(** The executor and its run counter. *)
Record SoakExecutor := { fail_retryable_pct : Z; fail_permanent_pct : Z; se_counter : Z }.

Definition soak_run (e : SoakExecutor) (payload : bytes) : Result ExecutionFailure (list ExecutorOutput) * SoakExecutor :=
  let n := se_counter e in
  let v := n mod 100 in
  (if v <? fail_permanent_pct e then Err (Permanent 3)
   else if v <? fail_permanent_pct e + fail_retryable_pct e then Err (Retryable 1)
   else Ok [{| eo_name := ¶"result"; eo_body := payload ++ ¶"-soaked" |}],
   {| fail_retryable_pct := fail_retryable_pct e; fail_permanent_pct := fail_permanent_pct e;
      se_counter := wrapping_add n 1 |}).

(** One poll of the producer, on a budget of 1024: [i] is the next job's id. *)
Section Producer.
Context `{Sha256} (q : Queue).

Fixpoint produce (fuel : nat) (target inflight i : Z) : M Z :=
  if (inflight <? target) && (i <? 100000) then
    match fuel with
    | O => throw OutOfFuel
    | S fuel =>
        r ← try_ (enqueue q {| ei_job_id := Some (be_bytes 16 i); ei_payload := ¶"soak-payload";
                               ei_content_type := ¶"text/plain"; ei_maximum_attempts := 10;
                               ei_not_before_ns := None |});
        let i := i + 1 in
        match r with
        | Err _ => mret i
        | Ok _ => if i mod target =? 0 then mret i else produce fuel target inflight i
        end
    end
  else mret i.

Definition producer_poll (target i : Z) : M Z :=
  _ ← set_budget 1024;
  r ← try_ (depth q 0);
  let d := match r with Ok d => d | Err _ => {| dp_jobs := 0; dp_claims := 0; dp_receipts := 0; dp_dead := 0 |} end in
  let inflight := saturating_sub (dp_jobs d) (wrapping_add (dp_receipts d) (dp_dead d)) in
  produce (Z.to_nat target) target inflight i.
End Producer.

(** What the soak asserts at the end. *)
Inductive SoakViolation :=
| RepairFindings (fs : list Finding)
| NonTerminalJobs (jobs receipts dead : Z)
| AccountingGap (delivered permanent enqueued : Z).

Definition soak_failures (findings : list Finding) (d : DepthReport) (delivered failed_permanent total_enqueued : Z)
  : list SoakViolation :=
  (match findings with [] => [] | fs => [RepairFindings fs] end) ++
  (if dp_jobs d =? wrapping_add (dp_receipts d) (dp_dead d) then []
   else [NonTerminalJobs (dp_jobs d) (dp_receipts d) (dp_dead d)]) ++
  (if wrapping_add delivered failed_permanent <? total_enqueued
   then [AccountingGap delivered failed_permanent total_enqueued] else []).

(* ------------------------------------------------------------------ *)
(** * The counting store counts exactly, and changes nothing *)

Definition counts_ok (c : OpCounts) : Prop :=
  is_u64 (oc_put_if_absent c) /\ is_u64 (oc_cas c) /\ is_u64 (oc_get c) /\
  is_u64 (oc_head c) /\ is_u64 (oc_list c) /\ is_u64 (oc_delete c).

Lemma counts_eq a b :
  oc_put_if_absent a = oc_put_if_absent b -> oc_cas a = oc_cas b -> oc_get a = oc_get b -> oc_head a = oc_head b ->
  oc_list a = oc_list b -> oc_delete a = oc_delete b -> a = b.
Proof. destruct a, b; cbn. congruence. Qed.

Section Counting.
Context {S : Type} `{ObjectStore S}.

Definition uncounted (w : World (CountingStore S)) : World S :=
  {| w_store := cs_inner (w_store w); w_tokens := w_tokens w; w_clock := w_clock w;
     w_next_token := w_next_token w; w_next_reading := w_next_reading w |}.
Definition with_counts (c : OpCounts) (w : World S) : World (CountingStore S) :=
  {| w_store := {| cs_inner := w_store w; cs_counts := c |}; w_tokens := w_tokens w; w_clock := w_clock w;
     w_next_token := w_next_token w; w_next_reading := w_next_reading w |}.

(** The calls of each kind that a run makes. *)
Fixpoint tallied {A} (p : prog A) (w : World S) : OpCounts :=
  match p with
  | Ret _ => no_counts
  | Vis e k =>
      let '(a, w) := run_eff e w in
      zip_counts Z.add (match e with EStore c => tally c | _ => no_counts end) (tallied (k a) w)
  end.

Definition sum (c : OpCounts) : Z :=
  oc_put_if_absent c + oc_cas c + oc_get c + oc_head c + oc_list c + oc_delete c.

Lemma tallied_range {A} (p : prog A) (w : World S) :
  (0 <= oc_put_if_absent (tallied p w)) /\ (0 <= oc_cas (tallied p w)) /\ (0 <= oc_get (tallied p w)) /\
  (0 <= oc_head (tallied p w)) /\ (0 <= oc_list (tallied p w)) /\ (0 <= oc_delete (tallied p w)) /\
  sum (tallied p w) = Z.of_nat (run_calls p w).
Proof.
  revert w. induction p as [a|e k IH]; intros w; unfold sum in *; cbn; [lia|]. destruct (run_eff e w) as [x w'].
  specialize (IH x w'). destruct e as [c| |]; [destruct c|..]; cbn in *; lia.
Qed.

Lemma counts_twice c x y : zip_counts wrapping_add (zip_counts wrapping_add c x) y = zip_counts wrapping_add c (zip_counts Z.add x y).
Proof. unfold zip_counts, wrapping_add. cbn. f_equal; rewrite Zplus_mod_idemp_l; f_equal; lia. Qed.

Lemma counts_none c : counts_ok c -> zip_counts wrapping_add c no_counts = c.
Proof.
  intros Hc. unfold counts_ok, is_u64 in Hc. apply counts_eq; cbn; unfold wrapping_add; rewrite Z.add_0_r; apply Z.mod_small; lia.
Qed.
Lemma counts_ok_add c x : counts_ok (zip_counts wrapping_add c x).
Proof.
  unfold counts_ok, is_u64, wrapping_add; cbn.
  pose proof (fun a => Z.mod_pos_bound a (2 ^ 64) ltac:(lia)) as Hb.
  split_and!; match goal with |- context [?a mod _] => specialize (Hb a) end; lia.
Qed.

Lemma run_counted {A} (p : prog A) (w : World S) c :
  counts_ok c ->
  run p (with_counts c w) =
    ((run p w).1, with_counts (zip_counts wrapping_add c (tallied p w)) (run p w).2).
Proof.
  revert w c. induction p as [a|e k IH]; intros w c Hc; cbn [run tallied fst snd]; [by rewrite counts_none|].
  destruct e as [d| |]; cbn [run_eff].
  - unfold store_step, counting_store. cbn [w_store with_counts cs_inner cs_counts].
    change (H d (w_store w)) with (store_step d (w_store w)). destruct (store_step d (w_store w)) as [x s].
    etransitivity; [exact (IH x {| w_store := s; w_tokens := w_tokens w; w_clock := w_clock w;
      w_next_token := w_next_token w; w_next_reading := w_next_reading w |} _ (counts_ok_add c (tally d)))|].
    by rewrite counts_twice.
  - etransitivity; [exact (IH _ {| w_store := w_store w; w_tokens := w_tokens w; w_clock := w_clock w;
      w_next_token := Datatypes.S (w_next_token w); w_next_reading := w_next_reading w |} _ Hc)|].
    reflexivity.
  - etransitivity; [exact (IH _ {| w_store := w_store w; w_tokens := w_tokens w; w_clock := w_clock w;
      w_next_token := w_next_token w; w_next_reading := Datatypes.S (w_next_reading w) |} _ Hc)|].
    reflexivity.
Qed.

(** A run over the counting store is the run over the store itself; the
    difference of the two snapshots is the number of calls of each kind, its
    total the number of calls; and for an entry point of the queue this is no
    more than the budget it consumed. *)
Theorem counting_is_exact {A} `{Sha256} (q : Queue) (x : M A) (h : HState) (c : OpCounts) (w : World S)
  (Hc : counts_ok c) (Hcalls : Z.of_nat (run_calls (x h) w) < 2 ^ 64) :
  let r := run (x h) (with_counts c w) in
  let d := delta c (cs_counts (w_store r.2)) in
  r.1 = (run (x h) w).1 /\ uncounted r.2 = (run (x h) w).2 /\ d = tallied (x h) w /\
  total d = Z.of_nat (run_calls (x h) w) /\
  (entry_point q x -> total d + Z.of_nat (max_ops r.1.2) <= Z.of_nat (max_ops h)).
Proof.
  cbv zeta. rewrite run_counted by done. cbn [fst snd w_store with_counts cs_counts].
  pose proof (tallied_range (x h) w) as Hr. unfold sum in Hr.
  assert (forall a b, is_u64 a -> 0 <= b < 2 ^ 64 -> (wrapping_add a b - a) mod 2 ^ 64 = b) as Hd.
  { intros a b Ha Hb. unfold wrapping_add. rewrite Zminus_mod_idemp_l. replace (a + b - a) with b by lia. by apply Z.mod_small. }
  assert (delta c (zip_counts wrapping_add c (tallied (x h) w)) = tallied (x h) w) as Ed.
  { unfold counts_ok in Hc. destruct Hc as (?&?&?&?&?&?). apply counts_eq; cbn; apply Hd; done || lia. }
  rewrite Ed. assert (total (tallied (x h) w) = Z.of_nat (run_calls (x h) w)) as Et.
  { unfold total. destruct (tallied (x h) w) as [a b g e l f]. cbn in *.
    rewrite (wrapping_add_small a b), (wrapping_add_small (a + b) g), (wrapping_add_small (a + b + g) e),
      (wrapping_add_small (a + b + g + e) l), (wrapping_add_small (a + b + g + e + l) f) by lia. lia. }
  rewrite Et. split; [done|]. split; [by destruct (run (x h) w).2|]. split; [done|]. split; [done|].
  intros Hq. pose proof (entry_point_uses q x (Datatypes.S (max_ops h)) Hq h ltac:(lia)) as Hu.
  rewrite Nat.add_0_r in Hu. apply (run_runs _ w) in Hu as (Hle & _ & Hacct).
  destruct (run (x h) w).1.1; [|destruct Hacct]; lia.
Qed.
End Counting.

(* ------------------------------------------------------------------ *)
(** * What flaky transport keeps of the contract *)

Section Flaky.
Context {S : Type} `{Sha256} `{StoreLaws S}.

(** A committed write that is answered as a rejection. *)
Definition hidden (c : call) (inner : answer c) (a : answer c) : Prop :=
  match c return answer c -> answer c -> Prop with
  | CPut _ _ _ | CCas _ _ _ _ => fun inner a => a = Ok Rejected /\ exists v, inner = Ok (Committed v)
  | _ => fun _ _ => False
  end inner a.

Lemma draw_inner (s : FlakyStore S) : fk_inner (draw s).2 = fk_inner s.
Proof. done. Qed.

Lemma hide_keeps (r : StoreResult PutOutcome) : hide r = r \/ hide r = Ok Rejected /\ exists v, r = Ok (Committed v).
Proof. destruct r as [[v|]|e]; [right; split; [done|by exists v]|by left..]. Qed.

(** A committed write lets a client conclude more than a rejected one. *)
Lemma hidden_post c m (inner a : answer c) m' : call_post c m inner m' -> hidden c inner a -> call_post c m a m'.
Proof.
  destruct c; cbn; try done; intros Hp (-> & v & ->).
  destruct Hp as (Hm & Hc & _). split; [done|]. split; [done|]. intros _.
  destruct (Hc v eq_refl) as (e & He & _). by exists e.
Qed.

(** After the draw, a served call. *)
Lemma faulty_keeps n c post (s : S) :
  store_inv (Datatypes.S n) s ->
  store_inv n (faulty c post s).2 /\
  (contract c (store_view s) (faulty c post s).1 (store_view (faulty c post s).2) \/
   hidden c (store_step c s).1 (faulty c post s).1) /\
  call_post c (store_view s) (faulty c post s).1 (store_view (faulty c post s).2).
Proof.
  intros Hs. pose proof (store_inv_weaken n s Hs) as Hn.
  pose proof (store_step_inv n c s Hs) as Hi. pose proof (store_step_contract n c s Hs) as Hc.
  assert (forall (a : answer c) s', contract c (store_view s) a (store_view s') -> store_inv n s' ->
    store_inv n s' /\ (contract c (store_view s) a (store_view s') \/ hidden c (store_step c s).1 a) /\
    call_post c (store_view s) a (store_view s')) as Hkeep.
  { intros a s' Hx Hy. split; [done|]. split; [by left|by apply contract_post]. }
  assert (contract c (store_view s) (fail_with c (OutcomeUnknown ConnectionLost)) (store_view s)) as Hlost by constructor.
  destruct c as [k b d|k b d v|k r|k|p a l|k]; cbn [faulty]; try (destruct post; [by apply Hkeep|by apply Hkeep]);
    try (by apply Hkeep).
  all: destruct (store_step _ s) as [r s'] eqn:E; cbn [fst snd] in *; destruct post; [|by apply Hkeep].
  all: destruct (hide_keeps r) as [->|[Eh Ev]]; [by apply Hkeep|]; split; [done|].
  all: assert (hidden _ r (hide r)) as Hh by (by split); split; [by right|].
  all: eapply hidden_post; [by apply contract_post|exact Hh].
Qed.

End Flaky.

(* ------------------------------------------------------------------ *)
(** * The soak's tasks *)

(** Of a hundred runs in a row of the soak's executor, two fail permanently
    and ten retryably, wherever they start. *)
Fixpoint soak_runs (n : nat) (e : SoakExecutor) (payload : bytes)
  : list (Result ExecutionFailure (list ExecutorOutput)) :=
  match n with O => [] | S n => let '(r, e) := soak_run e payload in r :: soak_runs n e payload end.

Definition fails_with (f : ExecutionFailure) (r : Result ExecutionFailure (list ExecutorOutput)) : bool :=
  match f, r with
  | Permanent _, Err (Permanent _) => true
  | Retryable _, Err (Retryable _) => true
  | _, _ => false
  end.

(** A producer's loop ends within [target] enqueues, on the budget it is
    given. *)
Lemma uses_produce `{Sha256} (q : Queue) fuel target inflight i L :
  0 < target -> target - i mod target <= Z.of_nat fuel -> uses L 0 0 (produce q fuel target inflight i).
Proof.
  intros Ht. revert i. induction fuel as [|fuel IH]; intros i Hf.
  - pose proof (Z.mod_pos_bound i target Ht). lia.
  - cbn [produce]. destruct (_ && _); [|apply uses_ret].
    eapply uses_bind; [eapply uses_try, uses_enqueue|]. intros [o|e]; [|apply uses_ret].
    destruct (Z.eqb_spec ((i + 1) mod target) 0) as [_|Hne]; [apply uses_ret|]. apply IH.
    pose proof (Z.mod_pos_bound i target Ht). pose proof (Z.mod_pos_bound (i + 1) target Ht).
    assert ((i + 1) mod target = i mod target + 1); [|lia].
    destruct (Z.eq_dec (i mod target + 1) target) as [E|Hd].
    + exfalso. apply Hne. rewrite <- Zplus_mod_idemp_l, E. by apply Z_mod_same_full.
    + rewrite <- Zplus_mod_idemp_l. apply Z.mod_small. lia.
Qed.

(** A poll of the producer terminates, whatever the store answers. *)
Theorem producer_poll_ends `{Sha256} {St} `{ObjectStore St} (q : Queue) target i h (w : World St) (Ht : 0 < target) :
  (run (producer_poll q target i h) w).1.1 <> Err OutOfFuel.
Proof.
  set (body := fun _ : unit => r ← try_ (depth q 0);
    let d := match r with Ok d => d | Err _ => {| dp_jobs := 0; dp_claims := 0; dp_receipts := 0; dp_dead := 0 |} end in
    produce q (Z.to_nat target) target (saturating_sub (dp_jobs d) (wrapping_add (dp_receipts d) (dp_dead d))) i : M Z).
  change (producer_poll q target i h) with (body tt {| max_ops := 1024; h_floor := h_floor h; h_memo := h_memo h |}).
  assert (forall L, uses L 0 0 (body tt)) as Hu.
  { intros L. eapply uses_bind; [eapply uses_try, uses_depth|]. intros r. apply uses_produce; [done|].
    pose proof (Z.mod_pos_bound i target Ht). lia. }
  set (h' := {| max_ops := 1024; h_floor := h_floor h; h_memo := h_memo h |}).
  pose proof (Hu (S (max_ops h')) h' (Nat.lt_succ_diag_r _)) as Hr. rewrite Nat.add_0_r in Hr.
  apply (run_runs _ w) in Hr as (_ & _ & Ha).
  destruct (run (body tt h') w).1.1 as [|e]; [done|]. destruct Ha. congruence.
Qed.

(* ------------------------------------------------------------------ *)
(** * The bench, evaluated *)

(** With SHA-256 itself: in the default format the first job's shard is not
    the one that the claim scans, and the mode stops there. *)
Definition default_run : Result BenchError unit * BenchState :=
  @ops_mode fips id None (bench_start (w_tokens sample_world) (w_clock sample_world) 64000).
Example ops_mode_stops :
  @compute_shard fips (replicate 16 (byte_of 1)) (replicate 16 (byte_of 7)) 16 = Some 2 /\
  default_run.1 = Err (Says "empty") /\ length (b_lines default_run.2) = 4%nat.
Proof. split_and!; vm_compute; reflexivity. Qed.

(** With one shard it runs to its end: what each phase costs. *)
Example ops_mode_counts :
  let r := @ops_mode fips id (Some ¶"1") (bench_start (w_tokens sample_world) (w_clock sample_world) 64000) in
  r.1 = Ok tt /\ length (b_lines r.2) = 17%nat /\
  take 2 (drop 3 (b_lines r.2)) =
    [¶"claim                      8 total (put 2 / cas 0 / get 1 / head 3 / list 2 / delete 0)";
     ¶"renew                      4 total (put 1 / cas 0 / get 0 / head 3 / list 0 / delete 0)"].
Proof. split_and!; vm_compute; reflexivity. Qed.

(** Two of a hundred runs of the soak's executor fail permanently, ten
    retryably. *)
Example soak_mix :
  let rs := soak_runs 100 {| fail_retryable_pct := 10; fail_permanent_pct := 2; se_counter := 1234567 |} ¶"soak-payload" in
  length (List.filter (fails_with (Permanent 0)) rs) = 2%nat /\
  length (List.filter (fails_with (Retryable 0)) rs) = 10%nat /\
  last rs = Some (Ok [{| eo_name := ¶"result"; eo_body := ¶"soak-payload-soaked" |}]).
Proof. split_and!; vm_compute; reflexivity. Qed.

Section Sample.
#[local] Existing Instance toy_digest.

(** The third seed's first draw faults after the call. *)
Definition sample_flaky : FlakyStore MemoryStore := flaky_new fresh_store 3 20.
Definition sample_write : call := CPut ¶"q/k" ¶"body" (checksum ¶"body").

End Sample.
