(* ===== verification/Relay.v ===== *)
(** The notification plane and the edge relay: [stowq-worker]'s doorbells and
    printed metrics, and [stowq-worker-wasm], which sweeps a queue from a
    Cloudflare Worker over the HTTP store client.

    The Worker runtime (its environment, fetch and clock) is code outside the
    repository: the state a relay runs against, of class [EdgeFetch]. *)

From S2P Require Import Prelude Sha256 Keys Text Store Records Effects Queue Claims Sweeps Worker Budget.
From S2P Require Import Dates Xml Http S3 Snapshots Workers Samples Bucket.

(* ------------------------------------------------------------------ *)
(** * Doorbells *)

(** [trait Doorbell]. *)
Class Doorbell (D : Type) := {
  db_ring : DoorbellMsg -> D -> D;
  db_recv : D -> option DoorbellMsg * D
}.

#[export] Instance stub_doorbell : Doorbell StubDoorbell := {| db_ring := fun msg d => ring d msg; db_recv := recv |}.

(** [{:?}] of the shards, and of those of a received hint. *)
Definition shards_debug (msg : DoorbellMsg) : bytes :=
  ¶"[" ++ concat (match map u64_to_string msg with
                  | [] => []
                  | s :: rest => s :: map (fun s => ¶", " ++ s) rest
                  end) ++ ¶"]".
Definition hint_debug (msg : option DoorbellMsg) : bytes :=
  match msg with Some m => ¶"Some(" ++ shards_debug m ++ ¶")" | None => ¶"None" end.

(** [LogDoorbell], with the lines it has written to stderr. *)
Record LogDoorbell (D : Type) := { ld_inner : D; ld_label : bytes; ld_stderr : list bytes }.
Arguments ld_inner {D} _. Arguments ld_label {D} _. Arguments ld_stderr {D} _.

Definition log_line {D} (l : LogDoorbell D) (inner : D) (what : bytes) : LogDoorbell D :=
  {| ld_inner := inner; ld_label := ld_label l;
     ld_stderr := ld_stderr l ++ [¶"[doorbell " ++ ld_label l ++ ¶"] " ++ what] |}.

#[export] Instance log_doorbell {D} `{Doorbell D} : Doorbell (LogDoorbell D) := {|
  db_ring := fun msg l =>
    let l := log_line l (ld_inner l) (¶"ring " ++ shards_debug msg) in
    {| ld_inner := db_ring msg (ld_inner l); ld_label := ld_label l; ld_stderr := ld_stderr l |};
  db_recv := fun l =>
    let '(msg, inner) := db_recv (ld_inner l) in
    (msg, log_line l inner (¶"recv " ++ hint_debug msg))
|}.

(** A producer's and a consumer's calls, in the order they take the lock;
    the answers the consumer got. *)
Inductive BellCall := Rings (msg : DoorbellMsg) | Receives.
Fixpoint bell_run {D} `{Doorbell D} (cs : list BellCall) (d : D) : list (option DoorbellMsg) * D :=
  match cs with
  | [] => ([], d)
  | Rings msg :: cs => bell_run cs (db_ring msg d)
  | Receives :: cs => let '(msg, d) := db_recv d in let '(got, d) := bell_run cs d in (msg :: got, d)
  end.
Definition rung (cs : list BellCall) : list DoorbellMsg :=
  omap (fun c => match c with Rings msg => Some msg | Receives => None end) cs.

(* ------------------------------------------------------------------ *)
(** * Printed metrics *)

(** [impl Display for MetricsSnapshot]: what [Metrics::snapshot] copied. *)
Definition metrics_display (m : Metrics) : bytes :=
  let n v := u64_to_string v in
  let b i := u64_to_string (default 0 (mt_delivery_ms m !! i)) in
  ¶"hints " ++ n (mt_hints m) ++ ¶" (no-work " ++ n (mt_no_work m) ++ ¶") | delivered " ++ n (mt_delivered m) ++
  ¶" | failed " ++ n (mt_failed_retryable m) ++ ¶" retryable / " ++ n (mt_failed_permanent m) ++
  ¶" permanent | lost-lease " ++ n (mt_lost_lease m) ++ ¶" | renewals " ++ n (mt_renewals m) ++
  ¶" (lost " ++ n (mt_renewals_lost m) ++ ¶") | store-errors " ++ n (mt_store_errors m) ++ newline ++
  ¶"delivery ms [ <10 " ++ b 0%nat ++ ¶" | 10-50 " ++ b 1%nat ++ ¶" | 50-100 " ++ b 2%nat ++
  ¶" | 100-250 " ++ b 3%nat ++ ¶" | 250-500 " ++ b 4%nat ++ ¶" | 0.5-1k " ++ b 5%nat ++
  ¶" | 1-2.5k " ++ b 6%nat ++ ¶" | 2.5-5k " ++ b 7%nat ++ ¶" | >5k " ++ b 8%nat ++ ¶" ]".

(* ------------------------------------------------------------------ *)
(** * Doorbell bodies *)

(** [str::lines]: a line ends in a newline, which may follow a carriage
    return; a last line without one is taken as it is. *)
Definition strip_cr (l : bytes) : bytes :=
  match last l with
  | Some Init.Byte.x0d => take (length l - 1) l
  | _ => l
  end.
Fixpoint ended_lines (parts : list bytes) : list bytes :=
  match parts with
  | [] | [[]] => []
  | [l] => [l]
  | l :: parts => strip_cr l :: ended_lines parts
  end.
Definition lines (s : bytes) : list bytes := ended_lines (split_on Init.Byte.x0a s).

Definition parse_doorbell (body : bytes) : DoorbellMsg :=
  omap (fun l => parse_unsigned 65535 (trim l)) (lines body).

(* ------------------------------------------------------------------ *)
(** * The fetch transport *)

Definition transport_marker (was_connect_phase was_timeout : bool) : bytes :=
  match was_connect_phase, was_timeout with
  | true, _ => ¶"[pretransmit]"
  | false, true => ¶"[timeout]"
  | false, false => ¶"[unknown]"
  end.

(** A fetched response: its status, its headers by name and what reading its
    body comes to. *)
Record EdgeResponse := {
  er_status : Z;
  er_header : bytes -> Result bytes (option bytes);
  er_bytes : Result bytes bytes
}.

(** The [worker] crate's request (from a URL, a method, headers and a body),
    fetch and clock; failures are their texts. *)
Class EdgeFetch (T : Type) := {
  EdgeRequest : Type;
  new_with_init : bytes -> bytes -> list (bytes * bytes) -> option bytes -> Result bytes EdgeRequest;
  fetch : EdgeRequest -> T -> Result bytes EdgeResponse * T;
  date_now_ms : T -> Z
}.

Definition unknown_failure (e : bytes) : bytes := ¶"[unknown] " ++ e.
Definition not_host (h : bytes * bytes) : bool := negb (eq_ignore_ascii_case h.1 ¶"host").

(** [resp.headers().get(n).ok().flatten().unwrap_or_default()]. *)
Definition edge_header (resp : EdgeResponse) (name : bytes) : bytes :=
  match er_header resp name with Ok (Some v) => v | _ => [] end.
Definition copied_headers : list bytes := [¶"ETag"; ¶"Last-Modified"; ¶"Content-Length"; ¶"Content-Range"].

Definition http_response (resp : EdgeResponse) : Result bytes HttpResponse :=
  body ← map_err unknown_failure (er_bytes resp);
  Ok {| rs_status := er_status resp;
        rs_headers := map (fun n => (n, edge_header resp n)) copied_headers; rs_body := body |}.

(** What came of a request that was built: [contains("timeout")] tells the
    failures apart. *)
Definition sent (r : Result bytes EdgeResponse) : Result bytes HttpResponse :=
  match r with
  | Err e => Err (transport_marker false (bool_decide (is_Some (find_split ¶"timeout" e))))
  | Ok resp => http_response resp
  end.

(** [FetchTransport::send]. *)
Definition fetch_send {T} `{EdgeFetch T} (req : HttpRequest) (t : T) : Result bytes HttpResponse * T :=
  let headers := List.filter not_host (rq_headers req) in
  let body := match rq_body req with [] => None | b => Some b end in
  match new_with_init (rq_url req) (rq_method req) headers body with
  | Err e => (Err (unknown_failure e), t)
  | Ok built =>
      let '(r, t) := fetch built t in (sent r, t)
  end.

(** [FetchTransport] with [WorkerClock]. *)
#[export] Instance edge_transport {T} `{EdgeFetch T} : HttpTransport T :=
  {| send := fetch_send; amz_stamps := fun t => stamps_from_unix (date_now_ms t / 1000) |}.

(* ------------------------------------------------------------------ *)
(** * The environment *)

(** The Worker's variables. *)
Definition Env : Type := bytes -> option bytes.

Definition store_from_env (env : Env) : option HttpStore :=
  ep ← env ¶"STOWQ_ENDPOINT";
  let rg := default ¶"auto" (env ¶"STOWQ_REGION") in
  ak ← env ¶"STOWQ_ACCESS_KEY_ID";
  sk ← env ¶"STOWQ_SECRET_ACCESS_KEY";
  bk ← env ¶"STOWQ_BUCKET";
  Some (http_store_new {| region := rg; endpoint := ep; force_path_style := true; bucket := bk;
                          access_key := ak; secret_key := sk; session_token := env ¶"STOWQ_SESSION_TOKEN" |}).

(** The pairs of a text of hexadecimal digits; a pair that is none reads as
    zero. [None] is the panic of a slice inside a character. *)
Fixpoint lenient_pairs (s : bytes) : option bytes :=
  match s with
  | h :: l :: rest =>
      if continuation h || match rest with c :: _ => continuation c | [] => false end then None
      else out ← lenient_pairs rest; Some (byte_of (default 0 (u8_from_hex2 h l)) :: out)
  | _ => Some []
  end.

Definition zero_id : bytes := replicate 16 (byte_of 0).
Definition queue_options (env : Env) : option OpenOptions :=
  match env ¶"STOWQ_QUEUE_ID" with
  | None => open_options_new zero_id
  | Some hex =>
      qid ← (if decide (length hex = 32%nat) then lenient_pairs hex else Some zero_id);
      open_options_new qid
  end.

(* ------------------------------------------------------------------ *)
(** * The handlers *)

Inductive RelayError := MissingEnv | RelayFails (e : Error) | RelayStops (e : Stop).

Section Handlers.
Context `{Sha256} `{Hmac} {T : Type} `{EdgeFetch T}.

(** Both handlers' work: a fresh handle and a sweep pass on a budget. *)
Definition sweep_pass (env : Env) (ops : nat) : M unit :=
  opts ← unwrap (queue_options env);
  q ← open (default ¶"q" (env ¶"STOWQ_QUEUE_ROOT")) opts;
  '(r, _) ← with_budget ops (sweep_once q);
  _ ← result_ok r;
  mret ().

Definition relay (env : Env) (ops : nat) (w : World T) : Result RelayError unit * World T :=
  match store_from_env env with
  | None => (Err MissingEnv, w)
  | Some st =>
      let '((r, _), w) := @run _ (http_store st) _ (sweep_pass env ops (fresh_handle 0)) w in
      (map_err (fun s => match s with Fails e => RelayFails e | s => RelayStops s end) r, w)
  end.

(** The hint's shards are parsed and dropped. *)
Definition handle_doorbell (env : Env) (body : bytes) (w : World T) : Result RelayError unit * World T :=
  let shards := parse_doorbell body in
  relay env 2048 w.

Definition handle_scheduled (env : Env) (w : World T) : Result RelayError unit * World T := relay env 4096 w.

(** The queue consumer: a pass per message; what each failed pass logs. *)
Fixpoint queue_batch (env : Env) (messages : list bytes) (w : World T) : list (option RelayError) * World T :=
  match messages with
  | [] => ([], w)
  | body :: messages =>
      let '(r, w) := handle_doorbell env body w in
      let '(logs, w) := queue_batch env messages w in
      (match r with Ok _ => None | Err e => Some e end :: logs, w)
  end.
End Handlers.

(* ------------------------------------------------------------------ *)
(** * Doorbells carry every hint *)

(** The stub neither loses nor reorders: what was received, with what is still
    pending, is what was pending at first with what was rung since. *)
Theorem stub_keeps_hints (cs : list BellCall) (d : StubDoorbell) :
  omap id (bell_run cs d).1 ++ (bell_run cs d).2 = d ++ rung cs.
Proof.
  revert d. induction cs as [|[msg|] cs IH]; intros d; cbn [bell_run].
  - symmetry. apply app_nil_r.
  - rewrite IH. cbn. unfold ring. by rewrite <- app_assoc.
  - destruct d as [|m d]; cbn [db_recv stub_doorbell recv].
    + rewrite (surjective_pairing (bell_run cs _)). exact (IH []).
    + rewrite (surjective_pairing (bell_run cs _)). cbn. f_equal. exact (IH d).
Qed.

(** The log doorbell answers as the doorbell inside it, and writes a line for
    each call. *)
Theorem log_is_transparent {D} `{Doorbell D} (cs : list BellCall) (l : LogDoorbell D) :
  (bell_run cs l).1 = (bell_run cs (ld_inner l)).1 /\
  ld_inner (bell_run cs l).2 = (bell_run cs (ld_inner l)).2 /\
  length (ld_stderr (bell_run cs l).2) = (length (ld_stderr l) + length cs)%nat.
Proof.
  revert l. induction cs as [|[msg|] cs IH]; intros l; cbn [bell_run length].
  - split; [done|]. split; [done|cbn [snd]; lia].
  - destruct (IH (db_ring msg l)) as (E1 & E2 & E3). rewrite E1, E2, E3. split; [done|]. split; [done|].
    cbn [db_ring log_doorbell log_line ld_stderr ld_inner]. rewrite length_app. cbn [length]. lia.
  - cbn [db_recv log_doorbell]. destruct (db_recv (ld_inner l)) as [m inner].
    destruct (IH (log_line l inner (¶"recv " ++ hint_debug m))) as (E1 & E2 & E3).
    rewrite (surjective_pairing (bell_run cs (log_line _ _ _))), (surjective_pairing (bell_run cs inner)).
    cbn [fst snd]. rewrite E1, E2, E3. split; [done|]. split; [done|].
    cbn [log_line ld_stderr]. rewrite length_app. cbn [length]. lia.
Qed.

Example log_lines :
  let '(got, l) := bell_run [Rings [3; 7]; Rings []; Receives; Receives; Receives]
                     {| ld_inner := ([] : StubDoorbell); ld_label := ¶"demo"; ld_stderr := [] |} in
  got = [Some [3; 7]; Some []; None] /\
  ld_stderr l = [¶"[doorbell demo] ring [3, 7]"; ¶"[doorbell demo] ring []"; ¶"[doorbell demo] recv Some([3, 7])";
                 ¶"[doorbell demo] recv Some([])"; ¶"[doorbell demo] recv None"].
Proof. by vm_compute. Qed.

(** The repository's tables. *)
Example doorbell_parsing :
  let nl := Init.Byte.x0a in
  parse_doorbell (¶"3" ++ nl :: ¶"7" ++ [nl]) = [3; 7] /\ parse_doorbell [] = [] /\
  parse_doorbell (¶"nope" ++ nl :: ¶"5" ++ nl :: ¶"99999" ++ [nl]) = [5] /\
  parse_doorbell (¶"65536" ++ [nl]) = [] /\
  parse_doorbell (¶" 12 " ++ Init.Byte.x0d :: nl :: ¶"+4") = [12; 4].
Proof. by vm_compute. Qed.

(** A body of decimal lines reads back as the shards it names. *)
Definition doorbell_body (shards : DoorbellMsg) : bytes :=
  concat (map (fun s => u64_to_string s ++ [Init.Byte.x0a]) shards).

Lemma shard_digits s : 0 <= s < 2 ^ 16 -> Forall (fun b => is_digit b = true) (u64_to_string s).
Proof. intros Hs. apply decimal_digits. lia. Qed.

Lemma strip_cr_digits s : Forall (fun b => is_digit b = true) s -> strip_cr s = s.
Proof.
  intros Hd. unfold strip_cr. destruct (last s) as [b|] eqn:E; [|done].
  assert (is_digit b = true) as Hb.
  { rewrite Forall_forall in Hd. apply Hd. apply last_Some in E as [l' ->]. apply elem_of_app. right. by left. }
  by destruct b.
Qed.

Lemma ended_lines_cons l parts : parts <> [] -> ended_lines (l :: parts) = strip_cr l :: ended_lines parts.
Proof. destruct parts; [done|]. intros _. by destruct l. Qed.

Lemma doorbell_body_reads_back shards :
  Forall (fun s => 0 <= s < 2 ^ 16) shards -> parse_doorbell (doorbell_body shards) = shards.
Proof.
  unfold parse_doorbell, lines. induction 1 as [|s shards Hs _ IH]; [done|].
  apply shard_digits in Hs as Hd. unfold doorbell_body. cbn [map concat]. rewrite <- app_assoc. cbn [app].
  rewrite split_on_app by (by apply digits_not). change (concat _) with (doorbell_body shards).
  rewrite ended_lines_cons, strip_cr_digits by (done || apply split_on_nonempty).
  cbn [omap list_omap]. rewrite trim_digits by done. rewrite parse_unsigned_decimal by lia. by f_equal.
Qed.

(* ------------------------------------------------------------------ *)
(** * The store over fetch *)

Lemma fields_without_host name headers :
  eq_ignore_ascii_case name ¶"host" = false -> field_of name (List.filter not_host headers) = field_of name headers.
Proof.
  intros Hn. unfold field_of. f_equal. induction headers as [|h headers IH]; [done|]. cbn [List.filter].
  destruct (not_host h) eqn:E; cbn [List.find]; [by rewrite IH|]. rewrite IH.
  destruct (eq_ignore_ascii_case h.1 name) eqn:Eh; [|done]. exfalso.
  unfold not_host, eq_ignore_ascii_case, bytes_eqb in *. apply bool_decide_eq_true in Eh. rewrite Eh in E.
  by rewrite Hn in E.
Qed.

(** The request as the runtime sends it. *)
Definition on_wire (req : HttpRequest) : HttpRequest :=
  {| rq_method := rq_method req; rq_url := rq_url req; rq_headers := List.filter not_host (rq_headers req);
     rq_body := rq_body req |}.

Lemma s3_op_on_wire base req : s3_op base (on_wire req) = s3_op base req.
Proof. unfold s3_op, on_wire. cbn [rq_method rq_url rq_headers rq_body]. by rewrite !fields_without_host. Qed.

(** A fetched response conveys a service's response: the copied headers and,
    when it can be read, the body. *)
Definition conveys (resp : EdgeResponse) (raw : HttpResponse) : Prop :=
  er_status resp = rs_status raw /\ Forall (fun n => er_header resp n = Ok (header raw n)) copied_headers /\
  (er_bytes resp = Ok (rs_body raw) \/ exists e, er_bytes resp = Err e).

(** What fetching an operation's request comes to. *)
Inductive edge_exchange (op : S3Op) (m : Space) : Result bytes EdgeResponse -> Space -> Prop :=
| ee_answered resp raw m' : s3_answer op m raw m' -> conveys resp raw -> edge_exchange op m (Ok resp) m'
| ee_lost e : edge_exchange op m (Err e) m
| ee_lost_done e raw m' : s3_answer op m raw m' -> edge_exchange op m (Err e) m'.

(** A runtime that reaches an S3 service. *)
Class EdgeService (T : Type) `{EdgeFetch T} (base : bytes) := {
  edge_view : T -> Space;
  edge_inv : T -> Prop;
  edge_fetch : forall url method headers body op built t,
    edge_inv t -> new_with_init url method headers body = Ok built ->
    s3_op base {| rq_method := method; rq_url := url; rq_headers := headers; rq_body := default [] body |} = Some op ->
    edge_inv (fetch built t).2 /\ edge_exchange op (edge_view t) (fetch built t).1 (edge_view (fetch built t).2)
}.

(** An answer depends on the status, the body and the headers it names. *)
Lemma answer_of_copy op m raw m' resp :
  s3_answer op m raw m' -> rs_status resp = rs_status raw -> rs_body resp = rs_body raw ->
  (forall n v, n ∈ copied_headers -> header raw n = Some v -> header resp n = Some v) -> s3_answer op m resp m'.
Proof.
  intros Ha Hs Hb Hh.
  assert (forall b v t, describes raw b v t -> describes resp b v t) as Hd.
  { intros b v t (? & ? & ? & He & Hl). split_and!; [done..| |]; apply Hh; [set_solver|done|set_solver|done]. }
  assert (forall v, header raw ¶"ETag" = Some v -> header resp ¶"ETag" = Some v) as He by (intros; apply Hh; [set_solver|done]).
  assert (forall v, header raw ¶"Content-Length" = Some v -> header resp ¶"Content-Length" = Some v) as Hl
    by (intros; apply Hh; [set_solver|done]).
  assert (forall v, header raw ¶"Content-Range" = Some v -> header resp ¶"Content-Range" = Some v) as Hr
    by (intros; apply Hh; [set_solver|done]).
  destruct Ha; solve [econstructor; solve [eauto|congruence|rewrite Hs; eauto|rewrite Hb; eauto]].
Qed.

Lemma lost_unknown e : starts_with ¶"[pretransmit]" (unknown_failure e) = false.
Proof. by unfold unknown_failure. Qed.
Lemma lost_marker t : starts_with ¶"[pretransmit]" (transport_marker false t) = false.
Proof. by destruct t. Qed.

Lemma conveyed_header resp raw body st n v :
  conveys resp raw -> n ∈ copied_headers -> header raw n = Some v ->
  header {| rs_status := st; rs_headers := map (fun n => (n, edge_header resp n)) copied_headers; rs_body := body |} n =
  Some v.
Proof.
  intros (_ & Hh & _) Hn Hv. rewrite Forall_forall in Hh. specialize (Hh n Hn).
  assert (edge_header resp n = v) as Ev by (unfold edge_header; by rewrite Hh, Hv). subst v. clear Hh Hv.
  unfold copied_headers in Hn. repeat (apply elem_of_cons in Hn as [->|Hn]); [by vm_compute..|]. by apply elem_of_nil in Hn.
Qed.

Lemma exchange_sent op m r m' :
  edge_exchange op m r m' -> s3_exchange op m (sent r) m'.
Proof.
  destruct 1 as [resp raw m' Ha Hc|e|e raw m' Ha]; unfold sent.
  - pose proof Hc as (Hs & _ & [Hb|[e Hb]]); unfold http_response; rewrite Hb; cbn [map_err mbind result_bind].
    + apply sx_answered. eapply answer_of_copy; [exact Ha|exact Hs|reflexivity|]. intros n v. by apply conveyed_header.
    + eapply sx_lost_done; [apply lost_unknown|done].
  - apply sx_lost, lost_marker.
  - eapply sx_lost_done; [apply lost_marker|done].
Qed.

(** [FetchTransport] over such a runtime is a transport to an S3 service. *)
#[export] Instance edge_s3_service {T} `{EdgeFetch T} (base : bytes) `{!EdgeService T base} : S3Service T base.
Proof.
  refine {| s3_view := edge_view; s3_inv := edge_inv |}. intros req op t Ht Hop. cbn [send edge_transport]. unfold fetch_send.
  destruct (new_with_init _ _ _ _) as [built|e] eqn:Eb; [|split; [done|by apply sx_lost, lost_unknown]].
  rewrite <- s3_op_on_wire in Hop.
  assert (on_wire req = {| rq_method := rq_method req; rq_url := rq_url req; rq_headers := List.filter not_host (rq_headers req);
            rq_body := default [] (match rq_body req with [] => None | b => Some b end) |}) as Ew
    by (unfold on_wire; by destruct (rq_body req)).
  rewrite Ew in Hop. pose proof (edge_fetch _ _ _ _ op built t Ht Eb Hop) as [Hi Hx].
  destruct (fetch built t) as [r t']. split; [done|]. by apply exchange_sent.
Defined.

(** The HTTP store over fetch keeps the store contract, or reports a profile
    violation and has changed nothing. *)
Theorem edge_store_refines `{Sha256} `{Hmac} {T : Type} `{EdgeFetch T} (st : HttpStore)
    `{!EdgeService T (base_url st)} (c : call) (t : T) (Hc : call_ok c) (Ht : edge_inv (base := base_url st) t) :
  let view := edge_view (base := base_url st) in
  contract c (view t) (http_store st c t).1 (view (http_store st c t).2) \/
  (exists what, answer_err c (http_store st c t).1 = Some (ProfileViolation what)) /\
  view (http_store st c t).2 = view t.
Proof. exact (proj2 (http_refines_aux st c t Hc Ht)). Qed.

(** The fetch transport never reports a request as unsent: each of its failures
    leaves the outcome unknown. *)
Theorem fetch_failures_are_ambiguous {T} `{EdgeFetch T} (req : HttpRequest) (t : T) e :
  (fetch_send req t).1 = Err e -> transport_err e = OutcomeUnknown Timeout \/ transport_err e = OutcomeUnknown ConnectionLost.
Proof.
  unfold fetch_send, transport_err.
  assert (starts_with ¶"[pretransmit]" e = false ->
          (if starts_with ¶"[pretransmit]" e then Transport PreTransmit
           else if starts_with ¶"[timeout]" e then OutcomeUnknown Timeout else OutcomeUnknown ConnectionLost) =
            OutcomeUnknown Timeout \/
          (if starts_with ¶"[pretransmit]" e then Transport PreTransmit
           else if starts_with ¶"[timeout]" e then OutcomeUnknown Timeout else OutcomeUnknown ConnectionLost) =
            OutcomeUnknown ConnectionLost) as Hgo
    by (intros ->; destruct (starts_with _ _); auto).
  intros He. apply Hgo. revert He. destruct (new_with_init _ _ _ _) as [built|x]; [|cbn; intros [= <-]; apply lost_unknown].
  destruct (fetch built t) as [[resp|x] t']; cbn [fst sent].
  - unfold http_response. destruct (er_bytes resp); cbn; intros [= <-]; apply lost_unknown.
  - intros [= <-]. apply lost_marker.
Qed.

(* ------------------------------------------------------------------ *)
(** * The environment and the passes *)

(** The queue id a Worker is given as hexadecimal text is read back. *)
Lemma lenient_pairs_push id : lenient_pairs (push_hex id) = Some id.
Proof.
  induction id as [|b id IH]; [done|]. cbn [push_hex lenient_pairs].
  destruct (nibble_ranges b) as [Hh _]. destruct (hex_digit_text _ Hh) as (_ & Ec & _).
  rewrite push_hex_head, Ec, u8_from_hex2_digits, IH. cbn. by rewrite byte_of_val.
Qed.

Theorem queue_id_read_back (env : Env) id :
  length id = 16%nat -> env ¶"STOWQ_QUEUE_ID" = Some (push_hex id) -> queue_options env = open_options_new id.
Proof.
  intros Hl He. unfold queue_options. rewrite He, decide_True by (rewrite push_hex_length; lia).
  by rewrite lenient_pairs_push.
Qed.

Section Bounds.
Context `{Sha256}.

Lemma uses_with_budget L {A} b pre (x : M A) : (forall L, uses L pre 0 x) -> uses L (b + pre) 0 (with_budget b x).
Proof.
  intros Hx s _. rewrite (Nat.add_comm (max_ops s)).
  eapply runs_mono; [reflexivity| |exact (with_budget_runs pre b x s (max_ops s) Hx)].
  unfold acct. intros i j [[r b']|e] s' Hij [Hs Hr]; (split; [lia|]); [lia|]. split; [lia|apply Hr].
Qed.

Lemma uses_open L root opts : uses L 1 0 (open root opts).
Proof.
  unfold open. eapply uses_bind; [apply uses_get|]. intros r. eapply uses_bind; [apply uses_store_ok|]. intros obj.
  eapply uses_bind; [apply uses_record_ok|]. intros rec. destruct rec; try apply uses_fail.
  eapply uses_bind; [apply uses_record_ok|]. intros ?. apply uses_ret.
Qed.

Lemma uses_sweep_once L q : uses L 0 0 (sweep_once q).
Proof.
  unfold sweep_once. eapply uses_bind; [apply uses_establish_floor|]. intros floor.
  eapply uses_bind; [apply uses_sweep_expired_leases|]. intros leases.
  eapply uses_bind; [apply uses_sweep_delayed|]. intros delayed. apply uses_ret.
Qed.

Lemma uses_sweep_pass L env ops : uses L (S ops) 0 (sweep_pass env ops).
Proof.
  unfold sweep_pass. eapply uses_bind.
  { unfold unwrap. destruct (queue_options env); [apply uses_ret|by apply uses_throw]. }
  intros opts. eapply uses_bind; [exact (uses_frame L ops 1 0 _ (uses_open L _ _))|]. intros q.
  eapply uses_bind; [rewrite <- (Nat.add_0_r (0 + ops)); apply uses_with_budget; intros; apply uses_sweep_once|].
  intros [r b]. eapply uses_bind; [apply uses_result_ok|]. intros ?. apply uses_ret.
Qed.
End Bounds.

(** A pass of the relay terminates, whatever the service answers: the read of
    the format and at most its budget of calls. *)
Theorem relay_is_bounded {HS : Sha256} {S} {O : ObjectStore S} (env : Env) (ops : nat) (w : World S) :
  let p := sweep_pass env ops (fresh_handle 0) in
  (run_calls p w <= ops + 1)%nat /\ (run p w).1.1 <> Err OutOfFuel.
Proof.
  intros p. pose proof (uses_sweep_pass 1 env ops (fresh_handle 0) (Nat.lt_succ_diag_r 0)) as Hu.
  apply (run_runs _ w) in Hu as [Hc Ha]. fold p in Hc, Ha. split; [cbn in Hc; lia|].
  unfold acct in Ha. destruct (run p w).1.1; [done|]. intros [= ->]. by destruct Ha as (_ & _ & ?).
Qed.

(* ------------------------------------------------------------------ *)
(** * A runtime *)

(** Any transport can serve as a runtime's fetch. *)
Section Mirror.
Context {T : Type} (HT : HttpTransport T) (now : T -> Z).

Definition edge_response (resp : HttpResponse) : EdgeResponse :=
  {| er_status := rs_status resp; er_header := fun n => Ok (header resp n); er_bytes := Ok (rs_body resp) |}.

Definition mirror : EdgeFetch T := {|
  EdgeRequest := HttpRequest;
  new_with_init := fun url method headers body =>
    Ok {| rq_method := method; rq_url := url; rq_headers := headers; rq_body := default [] body |};
  fetch := fun req t => let '(r, t) := send req t in (resp ← r; Ok (edge_response resp), t);
  date_now_ms := now
|}.

Lemma mirror_service base : S3Service T base -> @EdgeService T mirror base.
Proof.
  intros HS. refine {| edge_view := s3_view; edge_inv := s3_inv |}.
  intros url method headers body op built t Ht [= <-] Hop. pose proof (s3_send _ op t Ht Hop) as [Hi Hx].
  cbn [fetch mirror]. destruct (send _ t) as [r t']. cbn [fst snd] in *. split; [done|].
  revert Hx. generalize (s3_view t'). intros m' [resp m1 Ha|e _|e _|e resp m1 _ Ha]; cbn.
  - apply (ee_answered _ _ _ resp); [done|]. split; [done|]. split; [|by left]. by apply Forall_true.
  - apply ee_lost.
  - apply ee_lost.
  - by eapply ee_lost_done.
Defined.
End Mirror.

(** An initialized queue is swept for a doorbell message; without its
    variables, or with an id that is not the queue's, a pass fails. *)
#[local] Existing Instance toy_digest.
#[local] Instance edge_hmac : Hmac := {| hmac_sha256 := fun key data => checksum (key ++ data) |}.

Definition sample_vars (id : bytes) : Env := fun name =>
  if decide (name = ¶"STOWQ_ENDPOINT") then Some ¶"http://127.0.0.1:9000/"
  else if decide (name = ¶"STOWQ_BUCKET") then Some ¶"stowq"
  else if decide (name = ¶"STOWQ_ACCESS_KEY_ID") then Some ¶"AK"
  else if decide (name = ¶"STOWQ_SECRET_ACCESS_KEY") then Some ¶"SK"
  else if decide (name = ¶"STOWQ_QUEUE_ID") then Some (push_hex id)
  else None.
#[local] Instance sample_edge : EdgeFetch Network :=
  mirror (bucket_transport (base_url sample_http)) (fun _ => 1786997130000).
Definition edge_world : World Network :=
  {| w_store := empty_network []; w_tokens := fun i => be_bytes 16 (Z.of_nat i); w_clock := fun i => Z.of_nat i;
     w_next_token := 0; w_next_reading := 0 |}.
Definition edge_queue (id : bytes) : World Network :=
  (@run _ (http_store sample_http) _ (mbind_ (unwrap (open_options_new id)) (fun opts =>
     init ¶"q" opts sample_format) (fresh_handle 0)) edge_world).2.

Example relay_sweeps :
  let id := replicate 16 (byte_of 7) in
  (handle_doorbell (sample_vars id) ¶"3" (edge_queue id)).1 = Ok () /\
  (handle_doorbell (fun _ => None) ¶"3" (edge_queue id)).1 = Err MissingEnv /\
  (queue_batch (sample_vars zero_id) [¶"3"; ¶"4"] (edge_queue id)).1 =
    replicate 2 (Some (RelayFails (RecordE (MsgRecord (RField "queue binding"))))).
Proof. vm_compute. by split_and!. Qed.
