(* ===== verification/Demo.v ===== *)
(** [stowq-demo/src/main.rs]: the demo pipeline over a live store, with worker
    kills: the arguments, the worker's loop and the driver with its checks.

    Child processes are outside the program: what the [k]-th killed worker and
    the final workers leave behind are inputs of the driver.  Sleeps, deadlines
    and the printed progress are not modelled. *)

From S2P Require Import Pages Commands.
From S2P Require Import Prelude Sha256 StowqMath Keys Text Records Direct Store Memory Effects Queue Claims Sweeps Repair.
From S2P Require Import Worker Samples Driver Budget.

(* ------------------------------------------------------------------ *)
(** * Configuration *)

(** The transform: the payload reversed. *)
Definition transform (payload : bytes) : bytes := rev_append payload [].

(** 64 KiB of patterned bytes; [usize] arithmetic does not touch the low byte. *)
Fixpoint pattern (n : nat) (i index : Z) : bytes :=
  match n with
  | O => []
  | S n => byte_of (Z.land (i * 7 + index * 13) 255) :: pattern n (i + 1) index
  end.
Definition artifact (index : nat) : bytes := pattern (Z.to_nat (64 * 1024)) 0 (Z.of_nat index).

Definition demo_format : FormatRecord :=
  {| shard_count := 1; lease_bucket_width_ns := 1000000000; delayed_bucket_width_ns := 1000000000;
     terminal_bucket_width_ns := 1000000000; inline_limit := 65536; required_feature_bits := 0 |}.

Definition demo_id : bytes := replicate 16 (byte_of 1).
Definition named (worker : bytes) (max_inline : option Z) (o : OpenOptions) : OpenOptions :=
  {| o_queue_id := o_queue_id o; o_worker_id := worker; o_retry := o_retry o; o_skew_guard_ns := o_skew_guard_ns o;
     o_max_inline_payload := default (o_max_inline_payload o) max_inline |}.
Definition demo_opts : option OpenOptions := named ¶"demo-worker" None <$> open_options_new demo_id.

(** [SlowTransform], without the sleep. *)
Definition slow_transform : Executor := fun _ payload =>
  Ok [{| eo_name := ¶"result"; eo_body := transform payload |}].

(* ------------------------------------------------------------------ *)
(** * Arguments *)

Record Args := { ar_mode : bytes; ar_jobs : Z; ar_kills : Z; ar_lease_s : Z; ar_root : bytes }.

Definition usage : bytes :=
  ¶"usage: stowq-demo driver|worker [--jobs N] [--kills K] [--lease-s S] [--root R]".

Definition set_flag (flag val : bytes) (a : Args) : Result bytes Args :=
  if decide (flag = ¶"--jobs") then
    n ← ok_or (parse_unsigned u64_max val) ¶"--jobs";
    Ok {| ar_mode := ar_mode a; ar_jobs := n; ar_kills := ar_kills a; ar_lease_s := ar_lease_s a; ar_root := ar_root a |}
  else if decide (flag = ¶"--kills") then
    n ← ok_or (parse_unsigned u64_max val) ¶"--kills";
    Ok {| ar_mode := ar_mode a; ar_jobs := ar_jobs a; ar_kills := n; ar_lease_s := ar_lease_s a; ar_root := ar_root a |}
  else if decide (flag = ¶"--lease-s") then
    n ← ok_or (parse_unsigned u64_max val) ¶"--lease-s";
    Ok {| ar_mode := ar_mode a; ar_jobs := ar_jobs a; ar_kills := ar_kills a; ar_lease_s := n; ar_root := ar_root a |}
  else if decide (flag = ¶"--root") then
    Ok {| ar_mode := ar_mode a; ar_jobs := ar_jobs a; ar_kills := ar_kills a; ar_lease_s := ar_lease_s a; ar_root := val |}
  else Err (¶"unknown flag " ++ flag).

Fixpoint set_flags (args : list bytes) (a : Args) : Result bytes Args :=
  match args with
  | [] => Ok a
  | [flag] => Err (¶"missing value for " ++ flag)
  | flag :: val :: args => a ← set_flag flag val a; set_flags args a
  end.

(** [parse_args], on the arguments after the program's name. *)
Definition parse_args (args : list bytes) : Result bytes Args :=
  match args with
  | [] => Err usage
  | mode :: args => set_flags args {| ar_mode := mode; ar_jobs := 8; ar_kills := 6; ar_lease_s := 6; ar_root := [] |}
  end.

(** What [main] runs. *)
Inductive Mode := RunDriver (jobs kills lease_s : Z) | RunWorker (root : bytes) (lease_s : Z).
Definition mode_of (a : Args) : Result bytes Mode :=
  if decide (ar_mode a = ¶"driver") then Ok (RunDriver (ar_jobs a) (ar_kills a) (ar_lease_s a))
  else if decide (ar_mode a = ¶"worker") then
    match ar_root a with
    | [] => Err ¶"worker requires --root"
    | root => Ok (RunWorker root (ar_lease_s a))
    end
  else Err (¶"unknown mode " ++ ar_mode a).

(* ------------------------------------------------------------------ *)
(** * Programs *)

Inductive DemoError := DemoFails (e : Error) | DemoSays (what : bytes) | DemoPanics.

(** The store's world and the handle in use. *)
Record DemoState (S : Type) := { dm_world : World S; dm_handle : HState }.
Arguments dm_world {S} _. Arguments dm_handle {S} _.

Definition D (S A : Type) : Type := DemoState S -> Result DemoError A * DemoState S.
#[export] Instance d_ret {S} : MRet (D S) := fun A a s => (Ok a, s).
#[export] Instance d_bind {S} : MBind (D S) := fun A C f x s =>
  let '(r, s) := x s in match r with Ok a => f a s | Err e => (Err e, s) end.
Definition d_lift {S A} (r : Result DemoError A) : D S A := fun s => (r, s).

Section Demo.
Context `{Sha256} {S : Type} `{ObjectStore S}.

(** An operation on a budget of its own. *)
Definition demo_op {A} (budget : nat) (x : M A) : D S A := fun s =>
  let h := dm_handle s in
  let '((r, h), w) := run (x {| max_ops := budget; h_floor := h_floor h; h_memo := h_memo h |}) (dm_world s) in
  (match r with Ok a => Ok a | Err (Fails e) => Err (DemoFails e) | Err _ => Err DemoPanics end,
   {| dm_world := w; dm_handle := h |}).

(** A fresh handle. *)
Definition demo_open (root : bytes) (adjust : OpenOptions -> OpenOptions) : D S Queue := fun s =>
  demo_op 0 (mbind_ (unwrap demo_opts) (fun o => open root (adjust o)))
    {| dm_world := dm_world s; dm_handle := fresh_handle 0 |}.

(* ---------------------------------------------------------------- *)
(** ** The worker *)

Definition exit_after (lease_s : Z) : Z := wrapping_add lease_s 4 mod 2 ^ 32.

(** The streak after a report; [None] ends the loop. *)
Definition next_streak (lease_s nowork : Z) (r : DeliveryReport) : option Z :=
  match r with
  | NoWork => if exit_after lease_s <=? nowork + 1 then None else Some (nowork + 1)
  | _ => Some 0
  end.

Definition dashed_id (pid nowork : Z) : bytes := ¶"worker-" ++ u64_to_string pid ++ ¶"-" ++ u64_to_string nowork.

(** One turn: a fresh handle and a sweep hint. *)
Definition worker_turn (beats : Claim -> nat) (wall_ms : option Claim -> Z) (pid : Z) (root : bytes) (lease_s nowork : Z)
  : D S DeliveryReport :=
  q ← demo_open root (named (dashed_id pid nowork) None);
  '(r, _) ← demo_op 0 (run_delivery q slow_transform beats wall_ms doorbell_sweep (wrapping_mul lease_s 1000000000));
  d_lift (map_err DemoFails r).

(** The loop, for at most [turns] turns; whether it has ended. *)
Fixpoint worker_loop (turns : nat) (beats : Claim -> nat) (wall_ms : option Claim -> Z) (pid : Z) (root : bytes)
    (lease_s nowork : Z) : D S bool :=
  match turns with
  | O => mret false
  | Datatypes.S turns =>
      r ← worker_turn beats wall_ms pid root lease_s nowork;
      match next_streak lease_s nowork r with
      | None => mret true
      | Some nowork => worker_loop turns beats wall_ms pid root lease_s nowork
      end
  end.

(* ---------------------------------------------------------------- *)
(** ** The driver *)

(** [claim_count]: the pages of the claims' prefix. *)
Fixpoint claim_count_loop (fuel : nat) (root : bytes) (after : option bytes) (n : nat) : M nat :=
  match fuel with
  | O => throw OutOfFuel
  | Datatypes.S fuel =>
      r ← do_list (root ++ ¶"/claims/") after 1024;
      page ← store_ok r;
      let n := (n + length (p_items page))%nat in
      match p_next_after page with
      | Some k => claim_count_loop fuel root (Some k) n
      | None => mret n
      end
  end.
Definition claim_count (fuel : nat) (root : bytes) : M nat := claim_count_loop fuel root None 0.

(** [Rng]: the testkit's generator, from the seed itself. *)
Definition rng_range (lo hi r : Z) : Z * Z := let '(v, r) := next_u64 r in (wrapping_add lo (v mod (hi - lo)), r).

(** Jobs [i .. i + n). *)
Fixpoint enqueue_jobs (q : Queue) (n i : nat) : D S (list (bytes * bytes)) :=
  match n with
  | O => mret []
  | Datatypes.S n =>
      r ← demo_op 64 (enqueue q {| ei_job_id := None; ei_payload := artifact i; ei_content_type := ¶"application/octet-stream";
                                  ei_maximum_attempts := 50; ei_not_before_ns := None |});
      match r with
      | EnqCommitted id => rest ← enqueue_jobs q n (Datatypes.S i); mret ((id, artifact i) :: rest)
      | IdTaken _ => d_lift (Err (DemoSays (¶"enqueue rejected on the fresh root for job " ++ u64_to_string (Z.of_nat i))))
      end
  end.

(** What a child process does to the store, and how the final one ends. *)
Definition Child : Type := World S -> World S.
Inductive Exit := Succeeds | Breaks | Overruns.

Definition child {A} (f : World S -> A * World S) : D S A := fun s =>
  let '(a, w) := f (dm_world s) in (Ok a, {| dm_world := w; dm_handle := dm_handle s |}).

(** [n] kill rounds from round [k]: the child of the round dies after [wait]
    milliseconds; the effective kills. *)
Fixpoint kill_rounds (fuel : nat) (root : bytes) (killed : nat -> Z -> Child) (n k : nat) (rng : Z) (effective : nat)
  : D S nat :=
  match n with
  | O => mret effective
  | Datatypes.S n =>
      before ← demo_op 0 (claim_count fuel root);
      let '(wait, rng) := rng_range 1000 5000 rng in
      _ ← child (fun w => ((), killed k wait w));
      after ← demo_op 0 (claim_count fuel root);
      kill_rounds fuel root killed n (Datatypes.S k) rng (if (before <? after)%nat then Datatypes.S effective else effective)
  end.

(** The final worker, respawned once when it breaks. *)
Definition final_worker (final : nat -> World S -> Exit * World S) : D S unit :=
  let over := d_lift (Err (DemoSays ¶"final worker exceeded 600s")) in
  e ← child (final 0%nat);
  match e with
  | Succeeds => mret ()
  | Overruns => over
  | Breaks =>
      e ← child (final 1%nat);
      match e with
      | Succeeds => mret ()
      | Overruns => over
      | Breaks => d_lift (Err (DemoSays ¶"final worker exited twice"))
      end
  end.

Definition d_assert (b : bool) : D S unit := d_lift (if b then Ok tt else Err DemoPanics).

(** A job's state after the run; the depth of its chain.  A failed assertion
    panics. *)
Definition converged_job (root id payload : bytes) : D S nat :=
  let hex := push_hex id in
  let rel := ¶"receipts/0000/" ++ hex in
  let missing {A} (r : StoreResult A) (what : bytes) : D S A :=
    d_lift (map_err (fun _ => DemoSays (¶"job " ++ hex ++ what)) r) in
  r ← demo_op 0 (do_get (root ++ ¶"/" ++ rel));
  obj ← missing r ¶": no receipt";
  rec ← d_lift (map_err (fun _ => DemoSays (¶"job " ++ hex ++ ¶": receipt undecodable"))
                 (decode_record (o_body obj) demo_id (key_tag demo_id rel)));
  _ ← match rec with
      | RecReceipt r => d_assert (bool_decide (r_output_digests r = [sha256 (transform payload)]))
      | _ => d_lift (Err (DemoSays (¶"job " ++ hex ++ ¶": non-receipt at receipt key")))
      end;
  dead ← demo_op 0 (do_head (root ++ ¶"/dead/0000/" ++ hex));
  _ ← d_assert (match dead with Err NotFound => true | _ => false end);
  r ← demo_op 0 (do_get (root ++ ¶"/outputs/" ++ hex ++ ¶"/result"));
  out ← missing r ¶": no output";
  _ ← d_assert (bytes_eqb (o_body out) (transform payload));
  r ← demo_op 0 (do_list (root ++ ¶"/claims/0000/" ++ hex ++ ¶"/") None 1024);
  page ← d_lift (map_err (fun e => DemoFails (StoreE e)) r);
  mret (length (p_items page)).

Fixpoint converged_jobs (root : bytes) (jobs : list (bytes * bytes)) : D S (list nat) :=
  match jobs with
  | [] => mret []
  | (id, payload) :: jobs => d ← converged_job root id payload; ds ← converged_jobs root jobs; mret (d :: ds)
  end.

(** The least, the median and the greatest depth; indexing an empty list
    panics. *)
Definition depth_summary (depths : list nat) : option (nat * nat * nat) :=
  let ds := merge_sort le depths in
  lo ← ds !! 0%nat; mid ← ds !! (length ds / 2)%nat; hi ← ds !! (length ds - 1)%nat; Some (lo, mid, hi).

(** [driver]; [seed] is the clock and the process id. *)
Definition driver (hash_order : list bytes -> list bytes) (fuel : nat) (root : bytes) (seed : Z)
    (killed : nat -> Z -> Child) (final : nat -> World S -> Exit * World S) (jobs kills : nat)
  : D S (nat * nat * nat) :=
  _ ← demo_op 0 (mbind_ (unwrap demo_opts) (fun o => init root o demo_format));
  eq ← demo_open root (named ¶"demo-worker" (Some 0));
  jobs ← enqueue_jobs eq jobs 0;
  _ ← demo_open root id;
  effective ← kill_rounds fuel root killed kills 0 seed 0;
  _ ← d_assert ((kills =? 0)%nat || (0 <? effective)%nat);
  _ ← final_worker final;
  q ← demo_open root id;
  depths ← converged_jobs root jobs;
  '(report, _) ← demo_op 8192 (repair_scan q hash_order 0);
  _ ← d_assert (bool_decide (length (rp_findings report) = 0%nat));
  d_lift (ok_or (depth_summary depths) DemoPanics).
End Demo.

(* ------------------------------------------------------------------ *)
(** * The transform *)

Lemma transform_rev payload : transform payload = rev payload.
Proof. symmetry. apply rev_alt. Qed.

(** Each output determines its payload. *)
Theorem transform_involutive payload : transform (transform payload) = payload.
Proof. rewrite !transform_rev. apply rev_involutive. Qed.

(* ------------------------------------------------------------------ *)
(** * The worker's end *)

(** Whether the loop, with [nowork] idle turns behind it, ends on the last of
    these reports. *)
Fixpoint ends_after (lease_s nowork : Z) (rs : list DeliveryReport) : bool :=
  match rs with
  | [] => false
  | r :: rs =>
      match next_streak lease_s nowork r with
      | None => match rs with [] => true | _ => false end
      | Some nowork => ends_after lease_s nowork rs
      end
  end.

(** The loop ends only after a full streak of idle reports. *)
Lemma ends_after_streak lease_s nowork rs :
  ends_after lease_s nowork rs = true ->
  exists pre k, rs = pre ++ replicate k NoWork /\
    exit_after lease_s <= Z.of_nat k + match pre with [] => nowork | _ => 0 end.
Proof.
  revert nowork. induction rs as [|r rs IH]; intros nowork; [done|]. cbn [ends_after]. unfold next_streak.
  assert (forall n, ends_after lease_s 0 rs = true -> exists pre k, r :: rs = pre ++ replicate k NoWork /\
            exit_after lease_s <= Z.of_nat k + match pre with [] => n | _ => 0 end) as Hreset.
  { intros n Hr. destruct (IH 0 Hr) as (pre & k & -> & Hk). exists (r :: pre), k. split; [done|]. destruct pre; lia. }
  destruct r; try apply Hreset. destruct (Z.leb_spec (exit_after lease_s) (nowork + 1)).
  - destruct rs; [|done]. intros _. exists [], 1%nat. split; [done|lia].
  - intros Hr. destruct (IH _ Hr) as (pre & k & -> & Hk). destruct pre.
    + exists [], (S k). split; [done|]. lia.
    + exists (NoWork :: d :: pre), k. by split.
Qed.

(** On a quiet queue it does end. *)
Theorem quiet_worker_ends lease_s nowork :
  0 <= nowork < exit_after lease_s ->
  ends_after lease_s nowork (replicate (Z.to_nat (exit_after lease_s - nowork)) NoWork) = true.
Proof.
  intros Hn. remember (Z.to_nat (exit_after lease_s - nowork)) as k eqn:Ek. revert nowork Hn Ek.
  induction k as [|k IH]; intros nowork Hn Ek; [lia|]. cbn [replicate ends_after next_streak].
  destruct (Z.leb_spec (exit_after lease_s) (nowork + 1)).
  - assert (k = 0%nat) as -> by lia. done.
  - apply IH; lia.
Qed.

(** The waits of a streak, 750 ms after each idle report but the last, cover
    the lease window of the default six seconds, but no lease beyond nine. *)
Definition streak_ms (lease_s : Z) : Z := 750 * (exit_after lease_s - 1).
Theorem streak_covers_short_leases lease_s :
  0 <= lease_s < 2 ^ 32 - 4 -> 1000 * lease_s <= streak_ms lease_s <-> lease_s <= 9.
Proof. intros Hl. unfold streak_ms, exit_after, wrapping_add. rewrite (Z.mod_small (lease_s + 4) (2 ^ 64)), Z.mod_small by lia. lia. Qed.

(* ------------------------------------------------------------------ *)
(** * The driver's observations *)

Theorem rng_range_bounds lo hi r :
  0 <= lo < hi -> is_u64 hi -> lo <= (rng_range lo hi r).1 < hi.
Proof.
  intros Hl Hh. unfold rng_range. destruct (next_u64 r) as [v r']. cbn [fst].
  pose proof (Z.mod_pos_bound v (hi - lo) ltac:(lia)). unfold is_u64 in Hh.
  rewrite wrapping_add_small; unfold is_u64; lia.
Qed.

Lemma sorted_lookup l i j (x y : nat) :
  StronglySorted le l -> (i <= j)%nat -> l !! i = Some x -> l !! j = Some y -> (x <= y)%nat.
Proof.
  intros Hs. revert i j. induction Hs as [|a l _ IH HF]; intros i j Hle Hi Hj; [done|].
  destruct i as [|i], j as [|j]; cbn in Hi, Hj; [by simplify_eq| |lia|apply (IH i j); [lia|done..]].
  injection Hi as ->. rewrite Forall_forall in HF. apply HF. by eapply list_elem_of_lookup_2.
Qed.

(** The summary is there exactly when there are jobs, and is true of the
    depths: its ends are the least and the greatest. *)
Theorem depth_summary_true depths :
  match depth_summary depths with
  | None => depths = []
  | Some (lo, mid, hi) => lo ∈ depths /\ mid ∈ depths /\ hi ∈ depths /\ Forall (fun d => lo <= d <= hi)%nat depths
  end.
Proof.
  unfold depth_summary. pose proof (merge_sort_Permutation le depths) as Hp.
  pose proof (StronglySorted_merge_sort le depths) as Hs. set (ds := merge_sort le depths) in *.
  assert (forall i x, ds !! i = Some x -> x ∈ depths) as Hin.
  { intros i x Hx. rewrite <- Hp. by eapply list_elem_of_lookup_2. }
  destruct (ds !! 0%nat) as [lo|] eqn:E0; cbn [mbind option_bind].
  2:{ apply lookup_ge_None_1 in E0. destruct ds; cbn in E0; [|lia]. by apply Permutation_nil_l in Hp. }
  assert (0 < length ds)%nat as Hlen by (apply lookup_lt_Some in E0; lia).
  destruct (ds !! (length ds / 2)%nat) as [mid|] eqn:E1; cbn [mbind option_bind].
  2:{ apply lookup_ge_None_1 in E1. pose proof (Nat.div_lt (length ds) 2 Hlen ltac:(lia)). lia. }
  destruct (ds !! (length ds - 1)%nat) as [hi|] eqn:E2; cbn [mbind option_bind].
  2:{ apply lookup_ge_None_1 in E2. lia. }
  split_and!; [by eapply Hin..|]. rewrite <- Hp. apply Forall_forall. intros x Hx.
  apply list_elem_of_lookup_1 in Hx as [i Hi]. pose proof (lookup_lt_Some _ _ _ Hi).
  split; [apply (sorted_lookup ds 0 i)|apply (sorted_lookup ds i (length ds - 1))]; done || lia.
Qed.

Example no_jobs_no_summary : depth_summary [] = None /\ depth_summary [3; 1; 2]%nat = Some (1, 2, 3)%nat.
Proof. by vm_compute. Qed.

(** The number of claim records: on a quiet memory store [claim_count] counts
    each object under the prefix once, and changes nothing. *)
Lemma claim_count_pages `{Sha256} (w : World MemoryStore) h root fuel after n items :
  page_through fuel (w_store w) (root ++ ¶"/claims/") after 1024 = Some items ->
  run (claim_count_loop fuel root after n h) w = ((Ok (n + length items)%nat, h), w).
Proof.
  revert after n items. induction fuel as [|fuel IH]; intros after n items; [done|]. cbn [page_through claim_count_loop].
  destruct (list_page (w_store w) (root ++ ¶"/claims/") after 1024) as [p|e] eqn:Ep; [|done]. intros Hp.
  rewrite run_list, Ep.
  rewrite run_m_bind. cbn [run store_ok mret_]. destruct (p_next_after p) as [k|].
  - destruct (page_through fuel _ _ (Some k) 1024) as [rest|] eqn:Er; [|done]. cbn in Hp. injection Hp as <-.
    rewrite length_app, Nat.add_assoc. by apply IH.
  - by injection Hp as <-.
Qed.

Theorem claim_count_exact `{Sha256} (w : World MemoryStore) h root fuel :
  (size (objects (w_store w)) < fuel)%nat ->
  exists keys : list bytes, run (claim_count fuel root h) w = ((Ok (length keys), h), w) /\ NoDup keys /\
    forall k, k ∈ keys <-> is_Some (objects (w_store w) !! k) /\ starts_with (root ++ ¶"/claims/") k = true.
Proof.
  intros Hf. destruct (pagination_aux (w_store w) (root ++ ¶"/claims/") None 1024 fuel) as (items & Hp & Hs & Hi).
  { lia. }
  { eapply Nat.le_lt_trans; [|exact Hf]. apply selection_size. }
  exists (map l_key items). rewrite length_map. split; [exact (claim_count_pages w h root fuel None 0 items Hp)|].
  split; [by apply strictly_sorted_nodup|].
  intros k. rewrite list_elem_of_In, in_map_iff. split.
  - intros (i & <- & Hin). apply list_elem_of_In in Hin.
    destruct (proj1 (Hi (l_key i) (l_meta i))) as (x & Hx & _ & Hl); [by exists i|]. split; [by exists x|apply Hl].
  - intros [[x Hx] Hl]. destruct (proj2 (Hi k (meta_of_stored x))) as (i & Hin & Hk & _); [by exists x|].
    exists i. split; [done|]. by apply list_elem_of_In.
Qed.

(* ------------------------------------------------------------------ *)
(** * A run *)

Example arguments :
  parse_args [] = Err usage /\
  (a ← parse_args (map (fun s => ¶s) ["driver"; "--kills"; "2"]%string); mode_of a) = Ok (RunDriver 8 2 6) /\
  (a ← parse_args [¶"worker"; ¶"--lease-s"; ¶"12"]; mode_of a) = Err ¶"worker requires --root" /\
  (a ← parse_args [¶"worker"; ¶"--root"; ¶"demo-1"]; mode_of a) = Ok (RunWorker ¶"demo-1" 6) /\
  parse_args [¶"driver"; ¶"--jobs"] = Err ¶"missing value for --jobs" /\
  parse_args [¶"driver"; ¶"--jobs"; ¶"x"] = Err ¶"--jobs".
Proof. by vm_compute. Qed.

#[local] Existing Instance toy_digest.

(** A worker killed inside the executor: its claim is taken and nothing else. *)
Definition killed_holding (w : World MemoryStore) : World MemoryStore :=
  dm_world ((q ← demo_open ¶"demo-1" (named ¶"killed" None);
             floor ← demo_op 64 (establish_floor q);
             _ ← demo_op 64 (claim q {| co_shard := 0; co_floor_ns := floor; co_lease_duration_ns := 6000000000 |});
             mret ()) {| dm_world := w; dm_handle := fresh_handle 0 |}).2.
(** A worker left to end. *)
Definition left_alone (turns : nat) (w : World MemoryStore) : Exit * World MemoryStore :=
  let '(r, s) := worker_loop turns (fun _ => O) (fun _ => 0) 2 ¶"demo-1" 6 0 {| dm_world := w; dm_handle := fresh_handle 0 |} in
  (match r with Ok true => Succeeds | Ok false => Overruns | Err _ => Breaks end, dm_world s).

Definition demo_world : World MemoryStore :=
  {| w_store := {| objects := ∅; version_counter := 1; clock := 1; tick_step_ns := 1000000000 |};
     w_tokens := fun n => be_bytes 16 (Z.of_nat n + 1); w_clock := fun n => Z.of_nat n mod 2 ^ 64;
     w_next_token := 0; w_next_reading := 0 |}.

(** One kill in the pipeline costs a takeover, and the run converges; without a
    claim in a kill round it panics, and without a job at its summary. *)
Example demo_converges :
  let run killed jobs kills :=
    (driver (fun l => l) 8 ¶"demo-1" 7 killed (fun _ => left_alone 60) jobs kills
       {| dm_world := demo_world; dm_handle := fresh_handle 0 |}).1 in
  run (fun _ _ => killed_holding) 1%nat 1%nat = Ok (2, 2, 2)%nat /\
  run (fun _ _ w => w) 0%nat 1%nat = Err DemoPanics /\
  run (fun _ _ w => w) 0%nat 0%nat = Err DemoPanics.
Proof. vm_compute. split_and!; reflexivity. Qed.
