(* ===== verification/Findings.v ===== *)
(** Evaluated scenarios in which the code does not do what it means to, or
    not what its documentation says: each is a run of the model on concrete
    inputs. *)

From S2P Require Import Prelude Sha256 StowqMath Keys Records Store Memory Injector Effects Queue Claims Sweeps Repair.
From S2P Require Import Samples Budget Runs Outcomes.
From S2P Require Import Text Dates Xml Http S3 Bucket.
From S2P Require Import Oracle Driver.

#[local] Existing Instance toy_digest.
#[local] Existing Instance memory_store.
#[local] Existing Instance injector_store.

(** ** Garbage collection under one lost delete *)

(** The acknowledged job's world behind an injector that loses one delete. *)
Definition gc_world (lost : nat) : World (Injector MemoryStore) :=
  {| w_store := injector_new (w_store world_acked)
       [{| fp_op := OpDelete; fp_at := [lost]; fp_fault := FPreTransmit |}];
     w_tokens := w_tokens sample_world; w_clock := w_clock sample_world;
     w_next_token := 9; w_next_reading := 9 |}.
Definition after_gc : World (Injector MemoryStore) :=
  (run (gc sample_queue 1000000 0 0 (fresh_handle 64)) (gc_world 4)).2.
Definition present_in (w : World (Injector MemoryStore)) (k : Key) : bool :=
  bool_decide (is_Some (objects (inj_store (w_store w)) !! absolute sample_queue k)).
Definition claims_again (r : Result Stop ClaimOutcome) : option (bytes * Z) :=
  match r with Ok (Claimed c) => Some (cl_job_id c, cl_attempt c) | _ => None end.

(** A collection that loses the job record's delete, and nothing else, still
    deletes the receipt: the acknowledged job is handed out again. *)
Example gc_resurrects_acknowledged_job :
  present_in (gc_world 4) (KReceipt 0 vector_job_id) = true /\
  present_in after_gc (KReceipt 0 vector_job_id) = false /\
  present_in after_gc (KJob 0 vector_job_id) = true /\
  claims_again (run (claim sample_queue sample_claim_options (fresh_handle 64)) after_gc).1.1
  = Some (vector_job_id, 1).
Proof. split; [|split; [|split]]; vm_compute; reflexivity. Qed.

(** ** A wrapped backoff *)

(** A valid policy: 213 days and a half, without jitter. *)
Definition long_policy : RetryPolicy :=
  {| base_ms := 18446744073710; cap_ms := 18446744073710; use_jitter := false; max_delay_ms := None |}.
Definition long_queue : Queue :=
  {| q_root := q_root sample_queue;
     q_opts := {| o_queue_id := vector_queue; o_worker_id := ¶"worker-1"; o_retry := long_policy;
                  o_skew_guard_ns := 0; o_max_inline_payload := 65536 |};
     q_format := sample_format |}.

(** The retry delay asked for is 18446744073710 ms; the fail record that nack
    writes lets the job run again after 448384 ns. *)
Example nack_delay_wraps :
  policy_validate long_policy = Ok tt /\
  retry_delay_ms vector_queue vector_job_id 1 long_policy = Ok 18446744073710 /\
  match objects (w_store (run (nack long_queue sample_claim 5 0 (fresh_handle 64)) world2).2)
          !! absolute long_queue (KFail 0 vector_job_id 1) with
  | Some x => decode_at long_queue (KFail 0 vector_job_id 1) (s_body x)
  | None => Err REnvelope
  end = Ok (RecFail {| f_job_id := vector_job_id; f_generation := 1; f_reason := 5; f_attempt := 1;
                       f_retry_not_before_ns := 448384 |}).
Proof. split; [|split]; vm_compute; reflexivity. Qed.

(** ** Foreign keys *)

(** An upper-case generation that the key grammar refuses is a generation to
    the tail scan. *)
Example parse_generation_accepts_foreign_case :
  let key := ¶"claims/0000/101112131415161718191a1b1c1d1e1f/0000000A" in
  parse_generation key = Some 10 /\ forall k, parse key <> Ok k.
Proof. split; [vm_compute; reflexivity|]. intros k E. vm_compute in E. discriminate E. Qed.

(** A two-byte character across a hexadecimal pair of a listed lease entry's
    job id panics the sweep. *)
Example lease_entry_panics :
  parse_lease_entry (¶"0000/0" ++ [byte_of 0xc3; byte_of 0xa9] ++ replicate 29 (byte_of 48) ++ ¶".00000001")
  = Err Panics.
Proof. vm_compute. reflexivity. Qed.

(** ** The repair scan's budget *)

(** With no budget at all the repair of an index entry still reads the store. *)
Example ensure_index_is_unpaid :
  let p := ensure_index sample_queue (KDelayIndex 0 0 vector_job_id) (fresh_handle 0) in
  (run p world0).1.1 = Err (Fails BudgetExhausted) /\ run_calls p world0 = 1%nat.
Proof. split; vm_compute; reflexivity. Qed.

(** ** Fencing *)

(** Worker 2 takes the job over after the first lease ended; the holder of
    generation 1 then acknowledges, and its receipt stands. *)
Definition after_takeover : World MemoryStore :=
  (run (claim sample_queue2 {| co_shard := 0; co_floor_ns := 1000; co_lease_duration_ns := 60 |}
          (fresh_handle 64)) world2).2.
Example stale_generation_acknowledges :
  match (run (claim sample_queue2 {| co_shard := 0; co_floor_ns := 1000; co_lease_duration_ns := 60 |}
          (fresh_handle 64)) world2).1.1 with Ok (Claimed c) => cl_generation c | _ => 0 end = 2 /\
  cl_generation sample_claim = 1 /\
  (run (ack sample_queue sample_claim (fresh_handle 64)) after_takeover).1.1 = Ok Acked.
Proof. split; [|split]; vm_compute; reflexivity. Qed.

(** The tail hint is overwritten: renewing leaves another body at its key. *)
Example tail_hint_is_overwritten :
  let hint w := s_body <$> objects (w_store w) !! absolute sample_queue (KTail 0 vector_job_id) in
  hint world2 = Some (be_bytes 8 1) /\ hint world_renewed = Some (be_bytes 8 2).
Proof. split; vm_compute; reflexivity. Qed.

(** ** The HTTP client's listings and overwrites *)

(** A listing response that is not one reads as the end of the listing. *)
Example garbage_listing_is_an_end :
  list_response None (response 200 [] ¶"garbage") = Ok {| p_items := []; p_next_after := None |}.
Proof. by vm_compute. Qed.

(** A service error is an unknown outcome for a read, but not for a listing. *)
Example listing_error_is_fatal :
  head_response (response 503 [] []) = Err (OutcomeUnknown AmbiguousResponse) /\
  list_response None (response 503 [] []) = Err (ProfileViolation "list rejected").
Proof. by vm_compute. Qed.

(** Overwriting an absent object: the contract's answer, and the client's. *)
Example http_cas_of_absent_object :
  cas fresh_store ¶"k" ¶"b" (sha256 ¶"b") ¶"1" = (Err NotFound, fresh_store) /\
  put_status (response 404 [] []) = Err (ProfileViolation "put rejected").
Proof. by vm_compute. Qed.

(** From a service that includes [start-after], the page after an object that
    holds only that object ends the listing, although it is truncated. *)
Example inclusive_page_ends_listing :
  list_response (Some ¶"a") (response 200 []
    (render ¶"bucket" [] 1 true [{| so_key := ¶"a"; so_etag := ¶"1"; so_secs := 0; so_size := 1 |}])) =
  Ok {| p_items := []; p_next_after := None |}.
Proof. by vm_compute. Qed.

(** ** The differential driver *)

(** The batch arm of the driver does not replay the scan's exhaustion: a job
    that [claim_many] buries is still claimed in the oracle, and the final
    comparison fails.  The same sequence with a single claim passes. *)
Definition exhausting_ops (last : DriveOp) : list DriveOp :=
  [DEnqueue 0; DClaim; DAdvanceClock 10000; DClaim; DAdvanceClock 20000; DClaim; DAdvanceClock 30000; last].
Example batch_exhaustion_is_a_false_alarm :
  drive_script default_config (exhausting_ops (DClaimMany 2)) = Err "store has a terminal record" /\
  drive_script default_config (exhausting_ops DClaim) = Ok (30000, 1%nat).
Proof. split; vm_compute; reflexivity. Qed.

(** The oracle makes a negatively acknowledged job claimable once its backoff
    ends; the queue also waits for the lease, when that is the longer. *)
Definition long_lease_config : DriverConfig :=
  {| dc_jobs := 1; dc_ops := 5; dc_lease_ns := 10 ^ 12; dc_max_attempts := 3 |}.
Example oracle_backoff_ignores_lease :
  drive_script long_lease_config [DEnqueue 0; DClaim; DNack 0; DAdvanceClock 8589934591; DClaim] =
  Err "oracle scan predicted a job but core returned empty".
Proof. vm_compute. reflexivity. Qed.
